(* ===== verification/_CoqProject ===== *)
-Q . S2P
Prelude.v
Cxx.v
Uring.v
Boost.v
Channel.v
Task.v
Scheduler.v
Pool.v
Submit.v
AsyncIo.v
Io.v
Handlers.v
Pipeline.v
FixedBuffer.v
FixedFd.v
Worker.v
MultishotAcceptor.v
Server.v
Clients.v
EchoServer.v
FileServer.v
MultishotRecv.v
Stream.v
System.v
Bulk.v
Senders.v
BulkSender.v
Examples.v
SyncWait.v
Fanout.v
RawLoop.v
Refine.v
