(* ===== verification/Prelude.v ===== *)
(** * fiberexec: a verification development

    fiberexec runs Boost.Fiber fibers on a pool of worker threads.  Each worker
    owns an io_uring: a fiber that does I/O fills a submission entry, names a
    completion handler in it and suspends; the worker's scheduler reaps the
    completion and calls the handler, which resumes the fiber.  Tasks reach the
    workers through a shared queue and an eventfd.  Cancellation is
    [std::stop_token]s from the sender/receiver layer down to
    IORING_OP_ASYNC_CANCEL.

    ** Files, and the parts of the program they model

    - [Prelude]: outcomes of C++ code ([Ret], [Exn], [Undef], [Abort], [Hang]),
      the state-and-error monad [cxx] with [catch], [noexcept] and scope exit,
      and the lemmas on lists, maps and ownership the other files share.
    - [Cxx]: machine integers, [std::bit_ceil], timespecs, stop tokens.
    - [Uring], [Boost]: liburing and Boost.Fiber are not in the repository; what
      the sources rely on of them is a class of operations and a class of laws,
      with an executable instance.
    - [Channel] (include/fiberexec/channel.hpp): the bounded channel.
    - [Task] (include/fiberexec/task.hpp): the move-only callable with its two
      storage layouts, over a heap.
    - [Scheduler] (src/fiber_context.cpp, [io_uring_scheduler], and
      detail/cqe_handler.hpp): one worker's ring, ready queue, cancel queue and
      completion dispatch.  [CqeHandler] is the virtual interface between the
      scheduler and the handlers.
    - [Pool] (src/fiber_context.cpp, [fiber_pool]): the threads of the pool
      interleaved, from [post] to [join].
    - [Submit] (src/fiber_context.cpp, namespace [detail], and
      detail/async_helpers.hpp): what a fiber calls to submit and wait.
    - [AsyncIo] (src/async_io.cpp, fd_ref.hpp): the operations.
    - [Io] (include/fiberexec/async_io.hpp): the operations as programs see
      them, over a kernel that answers calls: a specification, which
      [async_op_contract] ties to the entries the code submits.
    - [FixedBuffer] (src/fixed_buffer_pool.cpp), [FixedFd]
      (src/fixed_fd_table.cpp): registered buffers and descriptors, their
      move-only handles, and zero-copy sends.
    - [Worker] (src/fiber_context.cpp, [fiber_pool::worker] and [context]): what
      a worker thread sets up, the thread-local pointers to it, and the order
      in which it goes away.
    - [MultishotAcceptor], [MultishotRecv] (src/multishot_acceptor.cpp,
      src/multishot_recv.cpp): handlers whose entry stays armed.
    - [System]: one worker with handlers of every class.
    - [Bulk] (detail/fiber_bulk.hpp): the fibers of the parallel bulk, counted
      down; [BulkSender]: the sender, its operation and its launcher, on a
      worker.
    - [Senders] (context.hpp, run.hpp): [schedule] and [run], their senders and
      operations.
    - [SyncWait] (sync_wait.hpp): awaiting a sender from a fiber.
    - [Refine]: [schedule_task] and the work branch of [drain_cqes] together,
      and the steps of [Pool] against the code of [Scheduler] and [Senders].
    - [Handlers], [Server], [Clients], [EchoServer], [FileServer], [Pipeline],
      [Examples], [Stream], [Fanout] (examples/, common/tcp_helpers.hpp): the
      connection handlers of the example servers; their accept loops, queue and
      workers; their test clients; echo_server_pool and echo_server_multishot
      as whole programs, which differ in the accepting call; echo_to_file as a
      whole; async_pipeline with its pipe; parallel_gather and cancellation,
      which compose senders; stream_recv_multishot; sync_wait_fanout, with
      [stdexec::when_all] as a class of laws.
    - [RawLoop] (benchmarks/bench_echo.cpp, bench_latency.cpp,
      bench_delay.cpp): the hand-written io_uring event loops the library is
      compared with, as state machines of a connection in one loop, and the
      percentiles of bench_latency.

    ** How the code is modelled

    Sequential code is a function of the monad [cxx] over the record of the
    objects it touches; members keep their names.  Objects that are reached by
    address (completion handlers, which the kernel knows by the tag of their
    entry) live in a map, so that a call through a dangling address is [Undef].
    Move-only handles are the values of a map of program variables.  A fiber
    that suspends takes the list of what its worker does meanwhile, and its
    result is [Hang] if that does not resume it.  Concurrent code ([Pool],
    [Bulk], [SyncWait], [Server], [Clients], [Stream], the whole programs) is a
    step relation whose steps are functions, one per access to shared state; a
    condition variable's wait is a check of the predicate and a later entry into
    the wait queue.  A task of the pool that does not return is a run in which
    its fiber takes no further step.  The programs under examples/ run against
    an arbitrary kernel, and their state is the list of the calls they made
    with the answers they got; in the whole programs an accepting call may fail
    of itself at any time where the flag [fails] says so.

    The theorems on code that submits ask for room in the ring, and that
    [io_uring_submit] accepts what is pending ([submits_all]), except where they
    say what happens otherwise.

    ** What the theorems show

    - Dispatch: tasks leave the queue in posting order, and a fiber is started
      for each at most once, in that order on a single worker
      ([pool_dispatch_exact], [posted_work_fifo], [work_cqe_dispatch]), and for
      each in the end ([posted_work_runs]); every
      completion reaches its handler ([drain_delivers]); a pool that has joined
      is drained, and an idle one joins ([join_drained],
      [single_worker_shutdown], [idle_pool_shutdown]).  The interleaved
      model of the pool agrees with the detailed one ([pool_steps_refine]).
    - Composition: in a batch of completions for many handlers each handler
      ends up as if it had the worker to itself, and what is submitted meanwhile
      is its own and the cancellations that were queued ([drain_isolated]); a worker's
      resources outlive every pointer to them ([worker_life]).
    - Waiting: the entries a call hands to the kernel, the result it returns and
      the state it restores ([submit_and_wait_spec],
      [submit_with_timeout_spec], [submit_linked_spec], [async_op_spec],
      [async_send_recv_spec], [send_zc_two_phase], and their error paths,
      [async_op_guard]); the entry an operation submits is the call the
      program meant, and its answer is what the program gets
      ([async_op_contract], [async_close_sleep_contract]).
    - Cancellation: from a receiver's token to the fiber's
      ([stop_bridge], [run_stopped], [run_completes]), and from there to the
      kernel and back ([stop_cancels_wait], [cancel_requests_submitted]), and all
      the way for a suspended fiber, its siblings included ([run_cancelled]): the
      cancellations submitted are exactly those queued and those of the waits
      on the token, and without room for them the code goes wrong; to every index of a bulk
      ([bulk_stop_reaches]), but not through [sync_wait]
      ([sync_wait_no_stop]); an operation leaves nothing registered on its receiver's token
      ([operation_roundtrip]).
    - Resources: buffers, slots and closures have one owner, and come back
      ([buffer_single_owner], [fd_slots_exclusive], [recv_conserves],
      [recv_spans_disjoint], [buffer_spans_disjoint], [task_step_safe],
      [task_no_leak]); a multishot object neither loses nor reorders what it
      receives and stays armed ([acceptor_delivers], [acceptor_rearms],
      [recv_rearms]), and its destructor waits for the last completion and gives
      every buffer back ([recv_dtor_drains]), with a buffer group of its own
      ([bgid_distinct]).
    - Contracts: the channel refines a bounded FIFO queue
      ([channel_refines_fifo]) of a known size ([channel_slots]); a bulk completes once, after every index ran
      ([bulk_safe], [bulk_completes]); [sync_wait] returns what was delivered and
      never touches freed state ([sync_wait_safe], [sync_wait_returns]).
    - Programs: the example servers handle every accepted connection once and
      return after the channel is closed ([server_exactly_once],
      [server_drains], [pool_server_returns], [backpressure_in_order]); the
      clients shut the server down once ([clients_shut_down_once]), and server
      and clients together do not deadlock, unless accepting fails of itself in
      echo_server_pool ([echo_server_terminates],
      [multishot_server_terminates], [file_server_terminates]); what
      their handlers send, log and close ([echo_handlers_spec],
      [file_handler_spec], [pipeline_spec]), and what comes out of the pipe
      ([pipeline_prints]); what the composed senders deliver
      ([gather_collects], [cancellation_fallback], [fanout_collects]), and a
      read with a deadline through every layer ([timed_reader_completes]); what a
      stream counts and reports ([stream_consumes], [stream_ok]).
    - Benchmarks: the hand-written loops never handle a completion of a
      connection that is gone, send back what each connection received, as many
      times as they should, and end ([raw_loop_safe], [raw_servers_end]); the percentiles are what they are called
      ([percentiles_spec]).
    - Defects, each with the run that shows it: [shutdown_lost_wakeup],
      [cancel_storm_null_sqe], [submit_failure_dangling],
      [acceptor_stop_dangling], [recv_stop_dangling], [acquire_leaks_slots],
      [bulk_negative_hangs], [clear_failure_terminates],
      [worker_setup_terminates], [acceptor_ignores_stop],
      [recv_ignores_stop], [multishot_accept_error_hangs],
      [file_open_failure_leaks], [echo_short_send],
      [make_server_socket_spec], [accept_error_strands],
      [multishot_client_failure_hangs], [raw_accept_error_hangs],
      [delay_disconnect_leaks].

    ** Bounds and fuel

    Loops are structural recursions on what they consume, except the
    destructors of the multishot objects, whose loops run as long as the kernel
    delivers, and the receive loops of the examples, which run as long as the
    peer sends: those take fuel, and running out of it is [Hang].  The theorems
    about them ask for more fuel than there is left to deliver, so the fuel
    never decides; the defects of the destructors hold for every positive
    fuel.  Termination of concurrent code is a bound on the length of runs
    ([weight] in [Pool], [Bulk] and [Server], 19 steps in [SyncWait], 16 in
    [Clients], 64 in [EchoServer], 80 in [FileServer]; in [Pipeline] and
    [RawLoop] it depends on the messages and on the number of connections) and a
    theorem that a run which cannot go on has done its work; no fairness is
    assumed.  In [EchoServer], [FileServer] and [Pipeline] the steps that only
    may happen (a connection or a client that ends early, a call that fails)
    count for the bound, and are left out of what it is to be able to go on.

    ** What is not modelled

    Allocation failure; the memory a registered buffer holds (only its
    extent); weak memory (the interleavings are sequentially consistent, which
    the code's acquire/release pairs and locks justify, as [Bulk] explains); the
    compile-time parts of the sender layer (completion signatures and
    concepts), which have no state; in the examples, what is printed, the
    clock, the creation of pipes, socket pairs and producer threads, and the
    address a socket is bound to; the example hello_fiber, which prints one
    line from a scheduled fiber; the tests; the benchmarks other than the
    loops in [RawLoop]: servers on Boost.Asio and on threads, and fiber servers
    that repeat the structure of the examples under a timing harness.  What is left of the library's sources is
    declarations: deleted copy operations, type aliases and forward
    declarations. *)

From stdpp Require Export base tactics list numbers gmap strings.
From Stdlib Require Export ZArith Lia.

#[export] Set Default Goal Selector "!".

(** ** Outcomes of C++ code

    A C++ function that is modelled as a state transformer ends in one of five
    ways.  [Undef] is undefined behaviour (a null or dangling pointer is
    dereferenced), [Abort] is [std::terminate] (an exception leaves a
    [noexcept] function) and [Hang] is a fiber that is suspended and never
    resumed. *)

Inductive exn : Type :=
  | SystemError (code : Z)          (** [std::system_error(code, system_category)] *)
  | RuntimeError                    (** [std::runtime_error] *)
  | InvalidArgument                 (** [std::invalid_argument] *)
  | FiberError                      (** [boost::fibers::fiber_error] *)
  | FutureError                     (** [boost::fibers::future_error] *)
  | ForcedUnwind                    (** [boost::context::detail::forced_unwind] *)
  | UserError (id : nat).           (** any other exception, of client code *)

#[export] Instance exn_eq_dec : EqDecision exn.
Proof. solve_decision. Defined.

Inductive outcome (A : Type) : Type :=
  | Ret (a : A)
  | Exn (e : exn)
  | Undef
  | Abort
  | Hang.
Arguments Ret {A} a.
Arguments Exn {A} e.
Arguments Undef {A}.
Arguments Abort {A}.
Arguments Hang {A}.

#[export] Instance outcome_eq_dec `{EqDecision A} : EqDecision (outcome A).
Proof. solve_decision. Defined.

(** Stateful, fallible code over a state [S]: the state reached is kept when an
    exception is thrown, as in C++. *)
Definition cxx (S A : Type) : Type := S → outcome A * S.

Section monad.
Context {S : Type}.

Definition cxx_ret {A} (a : A) : cxx S A := λ s, (Ret a, s).

Definition cxx_bind {A B} (f : A → cxx S B) (m : cxx S A) : cxx S B := λ s,
  match m s with
  | (Ret a, s') => f a s'
  | (Exn e, s') => (Exn e, s')
  | (Undef, s') => (Undef, s')
  | (Abort, s') => (Abort, s')
  | (Hang, s') => (Hang, s')
  end.

(** [throw e] *)
Definition throw {A} (e : exn) : cxx S A := λ s, (Exn e, s).
Definition undef {A} : cxx S A := λ s, (Undef, s).
(** a read of, and a write to, the state *)
Definition gets {A} (f : S → A) : cxx S A := λ s, (Ret (f s), s).
Definition modify (f : S → S) : cxx S () := λ s, (Ret (), f s).
(** [try { m } catch (...) { h }] *)
Definition catch {A} (m : cxx S A) (h : exn → cxx S A) : cxx S A := λ s,
  match m s with
  | (Exn e, s') => h e s'
  | r => r
  end.
(** a [noexcept] function body *)
Definition noexcept {A} (m : cxx S A) : cxx S A := λ s,
  match m s with
  | (Exn e, s') => (Abort, s')
  | r => r
  end.
(** scope exit: [d] is the destructor that runs when [m] returns or throws *)
Definition scoped {A} (m : cxx S A) (d : cxx S ()) : cxx S A := λ s,
  match m s with
  | (Ret a, s') => cxx_bind (λ _, cxx_ret a) d s'
  | (Exn e, s') => cxx_bind (λ _, throw e) d s'
  | r => r
  end.
End monad.

#[export] Instance cxx_mret S : MRet (cxx S) := λ A, @cxx_ret S A.
#[export] Instance cxx_mbind S : MBind (cxx S) := λ A B, @cxx_bind S A B.

Lemma cxx_bind_ret {S A B} (m : cxx S A) (f : A → cxx S B) s a s' :
  m s = (Ret a, s') → (m ≫= f) s = f a s'.
Proof. intros H. unfold mbind, cxx_mbind, cxx_bind. by rewrite H. Qed.

Lemma cxx_bind_exn {S A B} (m : cxx S A) (f : A → cxx S B) s e s' :
  m s = (Exn e, s') → (m ≫= f) s = (Exn e, s').
Proof. intros H. unfold mbind, cxx_mbind, cxx_bind. by rewrite H. Qed.

Lemma cxx_bind_undef {S A B} (m : cxx S A) (f : A → cxx S B) s s' :
  m s = (Undef, s') → (m ≫= f) s = (Undef, s').
Proof. intros H. unfold mbind, cxx_mbind, cxx_bind. by rewrite H. Qed.

Lemma scoped_ret {S A} (m : cxx S A) f s a s' :
  m s = (Ret a, s') → scoped m (modify f) s = (Ret a, f s').
Proof. intros E. unfold scoped. by rewrite E. Qed.
Lemma scoped_exn {S A} (m : cxx S A) f s e s' :
  m s = (Exn e, s') → scoped m (modify f) s = (Exn e, f s').
Proof. intros E. unfold scoped. by rewrite E. Qed.
Lemma scoped_hang {S A} (m : cxx S A) (d : cxx S ()) s s' :
  m s = (Hang, s') → scoped m d s = (Hang, s').
Proof. intros E. unfold scoped. by rewrite E. Qed.
Lemma scoped_undef {S A} (m : cxx S A) (d : cxx S ()) s s' :
  m s = (Undef, s') → scoped m d s = (Undef, s').
Proof. intros E. unfold scoped. by rewrite E. Qed.

(** the first steps of a body that are known to return, or to throw *)
Create HintDb cxx.
#[export] Hint Resolve cxx_bind_ret cxx_bind_exn cxx_bind_undef scoped_ret scoped_exn scoped_hang scoped_undef : cxx.

(** run the first action of a sequence, whose result is in the context or
    computes *)
Ltac bind_ret := erewrite cxx_bind_ret by done.

(** ** Runs of a step relation *)

Section runs.
Context {A : Type} (R : relation A).

(** an invariant, and a weight that every step lowers *)
Lemma weighted_run (I : A → Prop) (weight : A → nat) :
  (∀ x y, I x → R x y → I y ∧ weight y < weight x) →
  ∀ k x y, I x → nsteps R k x y → I y ∧ k + weight y ≤ weight x.
Proof.
  intros Hstep k x y Hx Hk. revert Hx. induction Hk as [x|k x y z HR _ IH]; intros Hx; [by split; [|lia]|].
  destruct (Hstep _ _ Hx HR) as [Hy Hlt]. destruct (IH Hy). split; [done|lia].
Qed.

(** a schedule: moves that are executed one after the other *)
Fixpoint run_schedule {M} (exec : M → A → option A) (ms : list M) (x : A) : option A :=
  match ms with [] => Some x | m :: ms => y ← exec m x; run_schedule exec ms y end.

Lemma schedule_nsteps {M} (exec : M → A → option A) ms x y :
  (∀ m x y, exec m x = Some y → R x y) → run_schedule exec ms x = Some y → nsteps R (length ms) x y.
Proof.
  intros Hexec. revert x. induction ms as [|m ms IH]; simpl; intros x Hs; [simplify_eq; constructor|].
  apply bind_Some in Hs as (x1 & H1 & H2). eapply nsteps_l; [by eapply Hexec|by apply IH].
Qed.
End runs.

(** ** Lists updated at one place *)

Lemma insert_Permutation {A} (l : list A) i x y :
  l !! i = Some x → <[i := y]> l ≡ₚ y :: delete i l ∧ l ≡ₚ x :: delete i l.
Proof.
  intros Hi. pose proof (lookup_lt_Some _ _ _ Hi). split.
  - rewrite insert_take_drop, delete_take_drop by done. by rewrite <-Permutation_middle.
  - by apply delete_Permutation.
Qed.

Lemma sum_list_with_Permutation {A} (f : A → nat) l1 l2 :
  l1 ≡ₚ l2 → sum_list_with f l1 = sum_list_with f l2.
Proof. induction 1; simpl; lia. Qed.

Lemma sum_list_with_insert {A} (f : A → nat) l i x y :
  l !! i = Some x → sum_list_with f (<[i := y]> l) + f x = sum_list_with f l + f y.
Proof.
  intros [H1 H2]%(insert_Permutation _ _ _ y).
  apply (sum_list_with_Permutation f) in H1, H2. simpl in *. lia.
Qed.

Lemma sum_list_with_lookup {A} (f : A → nat) l i x :
  l !! i = Some x → f x ≤ sum_list_with f l.
Proof.
  intros [_ H2]%(insert_Permutation _ _ _ x).
  apply (sum_list_with_Permutation f) in H2. simpl in *. lia.
Qed.

Lemma sum_list_with_fmap {A} (f : A → nat) (g : A → A) l :
  (∀ x, f (g x) = f x) → sum_list_with f (g <$> l) = sum_list_with f l.
Proof. intros Hfg. induction l as [|x l IH]; csimpl; [done|]. by rewrite Hfg, IH. Qed.

Lemma bind_insert_Permutation {A B} (f : A → list B) l i x y :
  l !! i = Some x → (<[i := y]> l ≫= f) ++ f x ≡ₚ (l ≫= f) ++ f y.
Proof.
  intros [H1 H2]%(insert_Permutation _ _ _ y). rewrite H1. rewrite H2 at 2. simpl.
  solve_Permutation.
Qed.

Lemma list_lookup_insert_cases {A} (l : list A) i j x y :
  <[i := y]> l !! j = Some x → (i = j ∧ x = y ∧ j < length l) ∨ (i ≠ j ∧ l !! j = Some x).
Proof. intros H%list_lookup_insert_Some. naive_solver. Qed.

Lemma concat_replicate_single {A} k (x : A) : concat (replicate k [x]) = replicate k x.
Proof. induction k; simpl; congruence. Qed.

(** ** Maps altered at one key *)

Lemma alter_present {K A} `{Countable K} (f : A → A) (m : gmap K A) k x :
  m !! k = Some x → alter f k m = <[k := f x]> m.
Proof.
  intros Hk. apply map_eq. intros j. destruct (decide (j = k)) as [->|].
  - by rewrite lookup_alter_eq, lookup_insert_eq, Hk.
  - by rewrite lookup_alter_ne, lookup_insert_ne.
Qed.

Lemma alter_absent {K A} `{Countable K} (f : A → A) (m : gmap K A) k :
  m !! k = None → alter f k m = m.
Proof.
  intros Hk. apply map_eq. intros j. destruct (decide (j = k)) as [->|].
  - by rewrite lookup_alter_eq, Hk.
  - by rewrite lookup_alter_ne.
Qed.

(** ** Resources owned by variables

    A program's variables are a map; [owned] is what one variable owns.  The
    lemmas say how what all of them own changes when one is made, destroyed or
    written. *)
Section owners.
Context {V A : Type} (owned : V → list A).
Implicit Types vars : gmap nat V.

Definition lent (vars : gmap nat V) : list A := map_to_list vars ≫= λ '(_, b), owned b.

Lemma lent_empty : lent ∅ = [].
Proof. unfold lent. by rewrite map_to_list_empty. Qed.

Lemma lent_insert v b vars :
  vars !! v = None → lent (<[v := b]> vars) ≡ₚ owned b ++ lent vars.
Proof. intros Hv. unfold lent. by rewrite (map_to_list_insert vars v b Hv). Qed.

Lemma lent_delete v b vars :
  vars !! v = Some b → lent vars ≡ₚ owned b ++ lent (delete v vars).
Proof. intros Hv. unfold lent. by rewrite <-(map_to_list_delete vars v b Hv). Qed.

Lemma lent_replace v b b' vars :
  vars !! v = Some b → lent (<[v := b']> vars) ++ owned b ≡ₚ owned b' ++ lent vars.
Proof.
  intros Hv. rewrite <-insert_delete_eq, lent_insert by apply lookup_delete_eq.
  rewrite (lent_delete v b vars Hv). solve_Permutation.
Qed.

(** [v] takes over what [u] owns, and [u] is left with [b0], which owns
    nothing *)
Lemma lent_move u v b b' b0 vars :
  u ≠ v → vars !! u = Some b → owned b' = owned b → owned b0 = [] →
  lent (<[u := b0]> (<[v := b']> vars)) ++ from_option owned [] (vars !! v) ≡ₚ lent vars.
Proof.
  intros Hne Hu Hb' Hb0.
  assert (lent (<[v := b']> vars) ++ from_option owned [] (vars !! v) ≡ₚ owned b ++ lent vars) as Hv.
  { rewrite <-Hb'. destruct (vars !! v) as [t|] eqn:Ev; simpl.
    - by apply lent_replace.
    - rewrite app_nil_r. by apply lent_insert. }
  pose proof (lent_replace u b b0 (<[v := b']> vars)) as Hp.
  rewrite lookup_insert_ne in Hp by done. specialize (Hp Hu). rewrite Hb0 in Hp. simpl in Hp.
  apply (Permutation_app_inv_l (owned b)). rewrite <-Hv, <-Hp. solve_Permutation.
Qed.
End owners.
