(* ===== verification/Cxx.v ===== *)
(** * Cxx: the parts of the C++ language and standard library the sources use

    Unsigned machine integers as [Z] with their wrap-around, the [std::bit_ceil]
    of [<bit>], truncating signed division, the [errno] values the sources
    name, the timespec the timed operations build from a
    [std::chrono::nanoseconds], and [std::stop_source] / [std::stop_token] /
    [std::stop_callback]. *)

From S2P Require Import Prelude.

Local Open Scope Z_scope.

(** ** Machine integers *)

Definition wrap (w z : Z) : Z := z mod 2 ^ w.
Definition to_u16 (z : Z) : Z := wrap 16 z.   (** [static_cast<uint16_t>] *)
Definition to_u32 (z : Z) : Z := wrap 32 z.   (** [static_cast<unsigned>] *)
Definition to_u64 (z : Z) : Z := wrap 64 z.   (** [static_cast<std::size_t>] *)

(** [static_cast<int>] of an unsigned 32-bit value (two's complement) *)
Definition to_i32 (z : Z) : Z :=
  let u := to_u32 z in if u <? 2 ^ 31 then u else u - 2 ^ 32.

Definition is_size (z : Z) : Prop := 0 ≤ z < 2 ^ 64.

Lemma wrap_id w z : 0 ≤ z < 2 ^ w → wrap w z = z.
Proof. intros. by apply Z.mod_small. Qed.

Lemma wrap_range w z : 0 ≤ w → 0 ≤ wrap w z < 2 ^ w.
Proof. intros. apply Z.mod_pos_bound. by apply Z.pow_pos_nonneg. Qed.

(** [a * b] and [a + b] on [std::size_t] *)
Definition mul64 (a b : Z) : Z := to_u64 (a * b).
Definition add64 (a b : Z) : Z := to_u64 (a + b).

(** ** [std::bit_ceil]

    The smallest power of two that is not below [x]; [None] when it is not
    representable in [std::size_t], a precondition violation. *)
Definition bit_ceil (x : Z) : option Z :=
  let n := if x <=? 1 then 1 else 2 ^ Z.log2_up x in
  if n <? 2 ^ 64 then Some n else None.

Definition is_pow2 (n : Z) : Prop := ∃ k, 0 ≤ k ∧ n = 2 ^ k.

Lemma bit_ceil_spec x n :
  0 ≤ x → bit_ceil x = Some n →
  is_pow2 n ∧ x ≤ n ∧ 1 ≤ n < 2 ^ 64 ∧ (1 < x → n < 2 * x).
Proof.
  intros Hx. unfold bit_ceil.
  destruct (Z.leb_spec x 1) as [H1|H1]; case_match eqn:E; intros; simplify_eq.
  - repeat split; try lia. by exists 0.
  - apply Z.ltb_lt in E.
    pose proof (Z.log2_up_spec x H1) as [Hlo Hhi].
    pose proof (Z.log2_up_pos x H1) as Hp.
    assert (1 ≤ 2 ^ Z.log2_up x) by (apply Z.pow_le_mono_r with (b := 0); lia).
    repeat split; try lia.
    + exists (Z.log2_up x). lia.
    + intros _. replace (Z.log2_up x) with (Z.succ (Z.pred (Z.log2_up x))) by lia.
      rewrite Z.pow_succ_r by lia. lia.
Qed.

Lemma bit_ceil_defined x : 0 ≤ x ≤ 2 ^ 63 → is_Some (bit_ceil x).
Proof.
  intros [Hx Hub]. unfold bit_ceil.
  destruct (Z.leb_spec x 1) as [H1|H1]; [by eexists|].
  destruct (Z.ltb_spec (2 ^ Z.log2_up x) (2 ^ 64)) as [?|Hge]; [by eexists|].
  exfalso. assert (Z.log2_up x ≤ 63).
  { replace 63 with (Z.log2_up (2 ^ 63)) by reflexivity. by apply Z.log2_up_le_mono. }
  assert (2 ^ Z.log2_up x ≤ 2 ^ 63) by (apply Z.pow_le_mono_r; lia). lia.
Qed.

Lemma bit_ceil_pow2_succ k :
  1 ≤ k < 63 → bit_ceil (2 ^ k + 1) = Some (2 * 2 ^ k).
Proof.
  intros Hk. unfold bit_ceil.
  assert (2 ≤ 2 ^ k) by (apply (Z.pow_le_mono_r 2 1 k); lia).
  destruct (Z.leb_spec (2 ^ k + 1) 1); [lia|].
  replace (2 ^ k + 1) with (Z.succ (2 ^ k)) by lia.
  rewrite Z.log2_up_succ_pow2 by lia.
  rewrite Z.pow_succ_r by lia.
  assert (2 ^ k ≤ 2 ^ 62) by (apply Z.pow_le_mono_r; lia).
  destruct (Z.ltb_spec (2 * 2 ^ k) (2 ^ 64)); [done|lia].
Qed.

(** ** errno *)

Definition ENOENT : Z := 2.
Definition EBADF : Z := 9.
Definition EBUSY : Z := 16.
Definition EINVAL : Z := 22.
Definition ENODATA : Z := 61.
Definition ETIME : Z := 62.
Definition ENOBUFS : Z := 105.
Definition ECANCELED : Z := 125.

(** ** [__kernel_timespec] from a nanosecond count

    The three lines [ts.tv_sec = n / 1'000'000'000LL; ts.tv_nsec = n %
    1'000'000'000LL] with C++'s truncating division. *)
Record timespec := Timespec { tv_sec : Z; tv_nsec : Z }.

Definition timespec_of_ns (n : Z) : timespec :=
  {| tv_sec := n ÷ 1000000000; tv_nsec := Z.rem n 1000000000 |}.

Lemma timespec_of_ns_total n :
  tv_sec (timespec_of_ns n) * 1000000000 + tv_nsec (timespec_of_ns n) = n.
Proof. simpl. pose proof (Z.quot_rem' n 1000000000). lia. Qed.

Lemma timespec_of_ns_normal n :
  0 ≤ n →
  0 ≤ tv_sec (timespec_of_ns n) ∧ 0 ≤ tv_nsec (timespec_of_ns n) < 1000000000.
Proof.
  intros. simpl. split.
  - apply Z.quot_pos; lia.
  - apply Z.rem_bound_pos; lia.
Qed.

(** ** Stop tokens

    A stop state holds whether a stop was requested and the callbacks
    registered on it.  A callback is data [C]; whoever registered it gives it a
    meaning when it is invoked.  [std::stop_callback]'s constructor invokes
    the callback at once when a stop was already requested, and registers it
    otherwise; its destructor deregisters it.  [request_stop] invokes every
    registered callback, once, the first time it is called. *)
Section stop.
Context {C : Type}.

Record stop_state := StopState {
  ss_requested : bool;
  ss_next : nat;
  ss_callbacks : list (nat * C)
}.

Definition stop_source_new : stop_state :=
  {| ss_requested := false; ss_next := 0; ss_callbacks := [] |}.

(** the handle of the new callback, and the callbacks to invoke right away *)
Definition stop_callback_ctor (c : C) (s : stop_state) : nat * list C * stop_state :=
  if ss_requested s then (ss_next s, [c], {| ss_requested := true;
    ss_next := S (ss_next s); ss_callbacks := ss_callbacks s |})
  else (ss_next s, [], {| ss_requested := false; ss_next := S (ss_next s);
    ss_callbacks := ss_callbacks s ++ [(ss_next s, c)] |}).

Definition stop_callback_dtor (h : nat) (s : stop_state) : stop_state :=
  {| ss_requested := ss_requested s; ss_next := ss_next s;
     ss_callbacks := filter (λ p, p.1 ≠ h) (ss_callbacks s) |}.

Definition request_stop (s : stop_state) : list C * stop_state :=
  if ss_requested s then ([], s)
  else ((ss_callbacks s).*2,
        {| ss_requested := true; ss_next := ss_next s; ss_callbacks := [] |}).

(** handles are never reused *)
Definition stop_state_wf (s : stop_state) : Prop :=
  NoDup (ss_callbacks s).*1 ∧ Forall (λ p, (p.1 < ss_next s)%nat) (ss_callbacks s)
  ∧ (ss_requested s = true → ss_callbacks s = []).

Lemma request_stop_idem s :
  request_stop (request_stop s).2 = ([], (request_stop s).2).
Proof. unfold request_stop. destruct (ss_requested s) eqn:E; simpl; by rewrite ?E. Qed.

Lemma stop_state_new_wf : stop_state_wf stop_source_new.
Proof. repeat split; simpl; by constructor. Qed.

Lemma stop_callback_dtor_ctor c s :
  stop_state_wf s →
  ss_callbacks (stop_callback_dtor (ss_next s) (stop_callback_ctor c s).2) = ss_callbacks s.
Proof.
  intros (Hnd & Hlt & Hreq). unfold stop_callback_ctor.
  destruct (ss_requested s); simpl.
  - by rewrite Hreq.
  - rewrite filter_app, filter_cons_False, filter_nil, app_nil_r by (simpl; naive_solver).
    clear -Hlt. induction (ss_callbacks s) as [|[k d] l IH]; [done|].
    rewrite Forall_cons in Hlt. destruct Hlt as [? Hlt]. simpl in *.
    rewrite filter_cons_True by (simpl; lia). by rewrite IH.
Qed.

Lemma stop_callback_ctor_wf c s : stop_state_wf s → stop_state_wf (stop_callback_ctor c s).2.
Proof.
  intros (Hnd & Hlt & Hreq). unfold stop_callback_ctor.
  assert (Forall (λ p : nat * C, (p.1 < S (ss_next s))%nat) (ss_callbacks s)) as Hlt'.
  { eapply Forall_impl; [exact Hlt|]. simpl. lia. }
  destruct (ss_requested s) eqn:Er; simpl; [by repeat split; simpl; auto|]. split; simpl; [|split; [|done]].
  - rewrite fmap_app. apply NoDup_app. split; [done|]. split; [|apply NoDup_singleton].
    intros n Hn ->%list_elem_of_singleton. apply list_elem_of_fmap in Hn as ([k d] & Heq & Hin).
    rewrite Forall_forall in Hlt. specialize (Hlt _ Hin). simpl in *. lia.
  - apply Forall_app. split; [done|]. apply Forall_singleton. simpl. lia.
Qed.

Lemma stop_callback_dtor_wf h s : stop_state_wf s → stop_state_wf (stop_callback_dtor h s).
Proof.
  intros (Hnd & Hlt & Hreq). split; simpl; [|split].
  - eapply sublist_NoDup; [exact Hnd|apply fmap_sublist, sublist_filter].
  - apply Forall_forall. intros p [_ Hp]%list_elem_of_filter. by apply (proj1 (Forall_forall _ _) Hlt).
  - intros Hr. by rewrite Hreq.
Qed.
End stop.
Arguments stop_state C : clear implicits.
