(* ===== verification/Uring.v ===== *)
(** * Uring: the interface of liburing the sources call

    liburing and the kernel are not part of the repository.  Their submission
    queue is the class [Liburing] with its documented laws [LiburingLaws]:
    [io_uring_get_sqe] hands out the next free entry or NULL when the queue is
    full, the entry is filled through the returned pointer, and
    [io_uring_submit] passes the first [n] filled entries to the kernel, or
    returns a negative errno and passes none.  A submission entry is the
    record of the [io_uring_prep_*] call that filled it, with the fields the
    sources write themselves ([flags], [user_data], [buf_group]).  [ListUring]
    instantiates the class, so that the laws are satisfiable and executable. *)

From S2P Require Import Prelude Cxx.

Local Open Scope Z_scope.

(** ** Submission entries *)

(** an address in the program's memory *)
Abbreviation addr := Z (only parsing).

(** The [io_uring_prep_*] call that filled an entry, with its arguments. *)
Inductive prep : Type :=
  | PrepNone
  | PrepRead (fd : Z) (buf : addr) (nbytes off : Z)
  | PrepWrite (fd : Z) (buf : addr) (nbytes off : Z)
  | PrepAccept (fd : Z) (sa : addr) (len : addr) (flags : Z)
  | PrepMultishotAccept (fd : Z) (sa : addr) (len : addr) (flags : Z)
  | PrepOpenat (dfd : Z) (path : addr) (flags mode : Z)
  | PrepClose (fd : Z)
  | PrepConnect (fd : Z) (sa : addr) (len : Z)
  | PrepRecv (fd : Z) (buf : addr) (len flags : Z)
  | PrepSend (fd : Z) (buf : addr) (len flags : Z)
  | PrepSendZcFixed (fd : Z) (buf : addr) (len flags zc_flags buf_index : Z)
  | PrepRecvMultishot (fd : Z) (buf : addr) (len flags : Z)
  | PrepFsync (fd flags : Z)
  | PrepTimeout (ts : timespec) (count flags : Z)
  | PrepLinkTimeout (ts : timespec) (flags : Z)
  | PrepCancel (user_data : Z) (flags : Z).

#[export] Instance timespec_eq_dec : EqDecision timespec.
Proof. solve_decision. Defined.
#[export] Instance prep_eq_dec : EqDecision prep.
Proof. solve_decision. Defined.

Record sqe := Sqe {
  sqe_prep : prep;
  sqe_flags : Z;
  sqe_user_data : Z;
  sqe_buf_group : Z
}.

#[export] Instance sqe_eq_dec : EqDecision sqe.
Proof. solve_decision. Defined.

Definition blank_sqe : sqe :=
  {| sqe_prep := PrepNone; sqe_flags := 0; sqe_user_data := 0; sqe_buf_group := 0 |}.

(** an [io_uring_prep_*] call fills the entry and clears its flags *)
Definition prepped (p : prep) : sqe :=
  {| sqe_prep := p; sqe_flags := 0; sqe_user_data := 0; sqe_buf_group := 0 |}.

(** [io_uring_sqe_set_data], [io_uring_sqe_set_data64] *)
Definition set_data (ud : Z) (e : sqe) : sqe :=
  {| sqe_prep := sqe_prep e; sqe_flags := sqe_flags e; sqe_user_data := ud;
     sqe_buf_group := sqe_buf_group e |}.

(** [sqe->flags |= f] *)
Definition or_flags (f : Z) (e : sqe) : sqe :=
  {| sqe_prep := sqe_prep e; sqe_flags := Z.lor (sqe_flags e) f;
     sqe_user_data := sqe_user_data e; sqe_buf_group := sqe_buf_group e |}.

(** [sqe->buf_group = g] *)
Definition set_buf_group (g : Z) (e : sqe) : sqe :=
  {| sqe_prep := sqe_prep e; sqe_flags := sqe_flags e;
     sqe_user_data := sqe_user_data e; sqe_buf_group := g |}.

(** the flag bits of the kernel's interface that the sources use *)
Definition IOSQE_FIXED_FILE : Z := 1.
Definition IOSQE_IO_LINK : Z := 4.
Definition IOSQE_BUFFER_SELECT : Z := 32.
Definition IORING_CQE_F_BUFFER : Z := 1.
Definition IORING_CQE_F_MORE : Z := 2.
Definition IORING_CQE_F_NOTIF : Z := 8.
Definition IORING_CQE_BUFFER_SHIFT : Z := 16.

(** [(flags & f) != 0] *)
Definition has_flag (flags f : Z) : bool := negb (Z.land flags f =? 0).

(** a completion entry *)
Record cqe := Cqe { cqe_data : Z; cqe_res : Z; cqe_flags : Z }.

(** ** The submission queue *)

Class Liburing : Type := {
  uring : Type;
  (** the number of entries of the queue *)
  sq_entries : uring → nat;
  (** entries handed out and not yet passed to the kernel, oldest first *)
  sq_pending : uring → list sqe;
  (** entries passed to the kernel, oldest first *)
  sq_submitted : uring → list sqe;
  io_uring_get_sqe : uring → option (nat * uring);
  (** a write through the pointer [io_uring_get_sqe] returned *)
  sqe_store : nat → sqe → uring → uring;
  io_uring_submit : uring → Z * uring
}.

Class LiburingLaws (L : Liburing) : Prop := {
  get_sqe_null r :
    io_uring_get_sqe r = None ↔ (sq_entries r ≤ length (sq_pending r))%nat;
  get_sqe_next r i r' :
    io_uring_get_sqe r = Some (i, r') →
    i = length (sq_pending r) ∧ sq_pending r' = sq_pending r ++ [blank_sqe]
    ∧ sq_submitted r' = sq_submitted r ∧ sq_entries r' = sq_entries r;
  sqe_store_frame i e r :
    sq_pending (sqe_store i e r) = <[i := e]> (sq_pending r)
    ∧ sq_submitted (sqe_store i e r) = sq_submitted r
    ∧ sq_entries (sqe_store i e r) = sq_entries r;
  submit_some r n r' :
    io_uring_submit r = (n, r') → 0 ≤ n →
    sq_submitted r' = sq_submitted r ++ take (Z.to_nat n) (sq_pending r)
    ∧ sq_pending r' = drop (Z.to_nat n) (sq_pending r) ∧ sq_entries r' = sq_entries r;
  submit_error r n r' :
    io_uring_submit r = (n, r') → n < 0 →
    sq_submitted r' = sq_submitted r ∧ sq_pending r' = sq_pending r
    ∧ sq_entries r' = sq_entries r
}.

(** [io_uring_submit] passed every pending entry of [r] to the kernel *)
Definition submits_all {L : Liburing} (r : uring) : Prop :=
  (io_uring_submit r).1 = Z.of_nat (length (sq_pending r)).

(** [sqe = io_uring_get_sqe(r); *sqe = e]: the pattern every caller follows.
    [None] is a NULL entry. *)
Definition claim {L : Liburing} (e : sqe) (r : uring) : option uring :=
  '(i, r') ← io_uring_get_sqe r; Some (sqe_store i e r').

Section laws.
Context {L : Liburing} {HL : LiburingLaws L}.

Lemma claim_null e r : claim e r = None ↔ (sq_entries r ≤ length (sq_pending r))%nat.
Proof.
  rewrite <-get_sqe_null. unfold claim.
  destruct (io_uring_get_sqe r) as [[i r']|]; simpl; split; done.
Qed.

Lemma claim_some e r r' :
  claim e r = Some r' →
  sq_pending r' = sq_pending r ++ [e] ∧ sq_submitted r' = sq_submitted r
  ∧ sq_entries r' = sq_entries r.
Proof.
  unfold claim. destruct (io_uring_get_sqe r) as [[i r1]|] eqn:E; [|done].
  simpl. intros [= <-].
  destruct (get_sqe_next _ _ _ E) as (-> & Hp & Hs & He).
  destruct (sqe_store_frame (length (sq_pending r)) e r1) as (Hp' & -> & ->).
  rewrite Hp', Hp, Hs, He. split; [|done].
  rewrite insert_app_r_alt by lia. by rewrite Nat.sub_diag.
Qed.

Lemma claim_room e r :
  (length (sq_pending r) < sq_entries r)%nat → ∃ r', claim e r = Some r'.
Proof.
  intros H. destruct (claim e r) eqn:E; [by eexists|].
  apply claim_null in E. lia.
Qed.

Lemma submit_all r :
  submits_all r →
  sq_submitted (io_uring_submit r).2 = sq_submitted r ++ sq_pending r
  ∧ sq_pending (io_uring_submit r).2 = []
  ∧ sq_entries (io_uring_submit r).2 = sq_entries r.
Proof.
  unfold submits_all. destruct (io_uring_submit r) as [n r'] eqn:E. simpl. intros ->.
  destruct (submit_some _ _ _ E) as (-> & -> & ->); [lia|].
  rewrite Nat2Z.id, firstn_all, drop_all. done.
Qed.
End laws.

(** ** An instance of the interface *)

Module ListUring.
Record ring := Ring { entries : nat; pending : list sqe; submitted : list sqe }.

Definition get_sqe (r : ring) : option (nat * ring) :=
  if decide (length (pending r) < entries r)%nat
  then Some (length (pending r),
             {| entries := entries r; pending := pending r ++ [blank_sqe];
                submitted := submitted r |})
  else None.

Definition store (i : nat) (e : sqe) (r : ring) : ring :=
  {| entries := entries r; pending := <[i := e]> (pending r); submitted := submitted r |}.

Definition submit (r : ring) : Z * ring :=
  (Z.of_nat (length (pending r)),
   {| entries := entries r; pending := []; submitted := submitted r ++ pending r |}).

#[export] Instance list_uring : Liburing := {|
  uring := ring; sq_entries := entries; sq_pending := pending;
  sq_submitted := submitted; io_uring_get_sqe := get_sqe; sqe_store := store;
  io_uring_submit := submit |}.

#[export] Instance list_uring_laws : LiburingLaws list_uring.
Proof.
  split; simpl.
  - intros r. unfold get_sqe. case_decide; split; naive_solver lia.
  - intros r i r'. unfold get_sqe. case_decide; naive_solver.
  - done.
  - intros r n r'. unfold submit. intros [= <- <-] _. simpl.
    by rewrite Nat2Z.id, firstn_all, drop_all.
  - intros r n r'. unfold submit. intros [= <- <-]. lia.
Qed.

Lemma list_uring_submits_all (r : ring) : submits_all (L := list_uring) r.
Proof. done. Qed.

Definition fresh (n : nat) : ring := {| entries := n; pending := []; submitted := [] |}.
End ListUring.
