(* ===== verification/Boost.v ===== *)
(** * Boost: the interfaces of Boost.Fiber the sources call

    Boost.Fiber is not part of the repository.  Two of its parts are used as
    data structures and appear here as classes with their documented laws:
    [boost::fibers::promise] / [future] ([Promise], [PromiseLaws]) and
    [boost::fibers::buffered_channel] ([BufferedChannel],
    [BufferedChannelLaws]).  [CellPromise] and [ListChannel] instantiate
    them. *)

From S2P Require Import Prelude Cxx.

Local Open Scope Z_scope.

(** ** Promises

    [promise_value p] is the value stored in the shared state, which
    [future::get] waits for; [set_value] throws
    [future_error(promise_already_satisfied)] when there is one already. *)
Class Promise : Type := {
  promise : Type → Type;
  promise_new {A} : promise A;
  promise_value {A} : promise A → option A;
  promise_set_value {A} : A → promise A → exn + promise A
}.

Class PromiseLaws (P : Promise) : Prop := {
  promise_value_new A : promise_value (A := A) promise_new = None;
  promise_set_fresh A (a : A) (p : promise A) :
    promise_value p = None →
    ∃ p', promise_set_value a p = inr p' ∧ promise_value p' = Some a;
  promise_set_again A (a : A) (p : promise A) :
    is_Some (promise_value p) → promise_set_value a p = inl FutureError
}.

Module CellPromise.
Definition set_value {A} (a : A) (p : option A) : exn + option A :=
  match p with None => inr (Some a) | Some _ => inl FutureError end.

#[export] Instance cell_promise : Promise := {|
  promise := option; promise_new A := None; promise_value A p := p;
  promise_set_value A a p := set_value a p |}.

#[export] Instance cell_promise_laws : PromiseLaws cell_promise.
Proof.
  split; simpl.
  - done.
  - intros A a p ->. simpl. by eexists.
  - intros A a p [b ->]. done.
Qed.
End CellPromise.

(** ** Buffered channels *)

(** [boost::fibers::channel_op_status] *)
Inductive boost_status := BSuccess | BEmpty | BFull | BClosed | BTimeout.

(** [None] as a result of [bc_push] and [bc_pop] means that the calling fiber
    is suspended in this state. *)
Class BufferedChannel (T : Type) : Type := {
  bchan : Type;
  bc_items : bchan → list T;
  bc_capacity : bchan → Z;
  bc_closed : bchan → bool;
  bc_new : Z → exn + bchan;
  bc_push : T → bchan → option (boost_status * bchan);
  bc_try_push : T → bchan → boost_status * bchan;
  bc_pop : bchan → option (boost_status * option T * bchan);
  bc_value_pop : bchan → option ((exn + T) * bchan);
  bc_try_pop : bchan → boost_status * option T * bchan;
  bc_close : bchan → bchan
}.

(** the channel's ring keeps one slot free, to tell full from empty *)
Definition bc_full {T} {B : BufferedChannel T} (c : bchan) : Prop :=
  bc_capacity c - 1 ≤ Z.of_nat (length (bc_items c)).

Class BufferedChannelLaws (T : Type) (B : BufferedChannel T) : Prop := {
  bc_new_bad n : n < 2 ∨ ¬ is_pow2 n → bc_new n = inl FiberError;
  bc_new_ok n :
    2 ≤ n → is_pow2 n →
    ∃ c, bc_new n = inr c ∧ bc_items c = [] ∧ bc_capacity c = n ∧ bc_closed c = false;
  bc_try_push_closed v c :
    bc_closed c = true → bc_try_push v c = (BClosed, c);
  bc_try_push_full v c :
    bc_closed c = false → bc_full c → bc_try_push v c = (BFull, c);
  bc_try_push_room v c :
    bc_closed c = false → ¬ bc_full c →
    ∃ c', bc_try_push v c = (BSuccess, c') ∧ bc_items c' = bc_items c ++ [v]
      ∧ bc_capacity c' = bc_capacity c ∧ bc_closed c' = false;
  bc_push_blocks v c : bc_closed c = false → bc_full c → bc_push v c = None;
  bc_push_try v c :
    bc_closed c = true ∨ ¬ bc_full c → bc_push v c = Some (bc_try_push v c);
  bc_try_pop_item c v vs :
    bc_items c = v :: vs →
    ∃ c', bc_try_pop c = (BSuccess, Some v, c') ∧ bc_items c' = vs
      ∧ bc_capacity c' = bc_capacity c ∧ bc_closed c' = bc_closed c;
  bc_try_pop_none c :
    bc_items c = [] →
    bc_try_pop c = (if bc_closed c then BClosed else BEmpty, None, c);
  bc_pop_blocks c : bc_closed c = false → bc_items c = [] → bc_pop c = None;
  bc_pop_try c :
    bc_closed c = true ∨ bc_items c ≠ [] → bc_pop c = Some (bc_try_pop c);
  bc_value_pop_item c v vs :
    bc_items c = v :: vs → bc_value_pop c = Some (inr v, (bc_try_pop c).2);
  bc_value_pop_none c :
    bc_items c = [] →
    bc_value_pop c = if bc_closed c then Some (inl FiberError, c) else None;
  bc_close_spec c :
    bc_items (bc_close c) = bc_items c ∧ bc_capacity (bc_close c) = bc_capacity c
    ∧ bc_closed (bc_close c) = true
}.

Module ListChannel.
Record chan (T : Type) := Chan { items : list T; capacity : Z; closed : bool }.
Arguments Chan {T} items capacity closed.
Arguments items {T} c.
Arguments capacity {T} c.
Arguments closed {T} c.

Definition pow2b (n : Z) : bool := (0 <? n) && (2 ^ Z.log2 n =? n).

Lemma pow2b_spec n : pow2b n = true ↔ is_pow2 n.
Proof.
  unfold pow2b, is_pow2. rewrite andb_true_iff, Z.ltb_lt, Z.eqb_eq. split.
  - intros [Hn He]. exists (Z.log2 n). split; [apply Z.log2_nonneg|lia].
  - intros (k & Hk & ->). rewrite Z.log2_pow2 by done.
    split; [by apply Z.pow_pos_nonneg|done].
Qed.

Section ops.
Context {T : Type}.
Implicit Types c : chan T.

Definition full c : bool := capacity c - 1 <=? Z.of_nat (length (items c)).

Definition new (n : Z) : exn + chan T :=
  if (2 <=? n) && pow2b n then inr (Chan [] n false) else inl FiberError.

Definition try_push (v : T) c : boost_status * chan T :=
  if closed c then (BClosed, c)
  else if full c then (BFull, c)
  else (BSuccess, Chan (items c ++ [v]) (capacity c) (closed c)).

Definition push (v : T) c : option (boost_status * chan T) :=
  if negb (closed c) && full c then None else Some (try_push v c).

Definition try_pop c : boost_status * option T * chan T :=
  match items c with
  | v :: vs => (BSuccess, Some v, Chan vs (capacity c) (closed c))
  | [] => (if closed c then BClosed else BEmpty, None, c)
  end.

Definition pop c : option (boost_status * option T * chan T) :=
  match items c with
  | [] => if closed c then Some (try_pop c) else None
  | _ => Some (try_pop c)
  end.

Definition value_pop c : option ((exn + T) * chan T) :=
  match items c with
  | v :: vs => Some (inr v, Chan vs (capacity c) (closed c))
  | [] => if closed c then Some (inl FiberError, c) else None
  end.

Definition close c : chan T := Chan (items c) (capacity c) true.

#[export] Instance list_channel : BufferedChannel T := {|
  bchan := chan T; bc_items := items; bc_capacity := capacity;
  bc_closed := closed; bc_new := new; bc_push := push; bc_try_push := try_push;
  bc_pop := pop; bc_value_pop := value_pop; bc_try_pop := try_pop; bc_close := close |}.

Lemma full_spec c : full c = true ↔ bc_full c.
Proof. unfold full, bc_full. simpl. lia. Qed.

Lemma full_false c : ¬ bc_full c → full c = false.
Proof. rewrite <-full_spec. by destruct (full c). Qed.

#[export] Instance list_channel_laws : BufferedChannelLaws T list_channel.
Proof.
  split; simpl.
  - intros n H. unfold new. destruct (2 <=? n) eqn:E; simpl; [|done].
    destruct (pow2b n) eqn:P; [|done]. apply pow2b_spec in P. naive_solver lia.
  - intros n H P%pow2b_spec. unfold new. rewrite P, andb_true_r.
    destruct (Z.leb_spec 2 n); [|lia]. eexists. done.
  - intros v c H. unfold try_push. by rewrite H.
  - intros v c H F%full_spec. unfold try_push. by rewrite H, F.
  - intros v c H F%full_false. unfold try_push. rewrite H, F. by eexists.
  - intros v c H F%full_spec. unfold push. by rewrite H, F.
  - intros v c [H|F%full_false]; unfold push; [by rewrite H|].
    by rewrite F, andb_false_r.
  - intros c v vs H. unfold try_pop. rewrite H. by eexists.
  - intros c H. unfold try_pop. by rewrite H.
  - intros c H H'. unfold pop. by rewrite H', H.
  - intros c [H|H]; unfold pop; by destruct (items c); rewrite ?H.
  - intros c v vs H. unfold value_pop, try_pop. by rewrite H.
  - intros c H. unfold value_pop. by rewrite H.
  - done.
Qed.
End ops.
End ListChannel.
