(* ===== verification/Channel.v ===== *)
(** * Channel: [fiberexec::channel<T>] (include/fiberexec/channel.hpp)

    The bounded channel fibers use, a wrapper around Boost's
    [buffered_channel] that sizes the underlying ring, and translates its
    status codes.  [Spec] is the contract the wrapper promises: a FIFO queue
    with a limit, that drains after it is closed.  [channel_refines_fifo]
    shows that the wrapper implements it over any Boost channel that keeps its
    laws. *)

From S2P Require Import Prelude Cxx Boost.

Local Open Scope Z_scope.

(** [enum class channel_op_status] *)
Inductive channel_op_status := success | empty | full | closed | timeout.

#[export] Instance channel_op_status_eq_dec : EqDecision channel_op_status.
Proof. solve_decision. Defined.

(** [channel::cvt] *)
Definition cvt (s : boost_status) : channel_op_status :=
  match s with
  | BSuccess => success
  | BEmpty => empty
  | BFull => full
  | BClosed => closed
  | BTimeout => timeout
  end.

Section channel.
Context {T : Type} {B : BufferedChannel T}.

(** [explicit channel(std::size_t capacity) : ch_(std::bit_ceil(capacity + 1))] *)
Definition channel_new (capacity : Z) : outcome bchan :=
  match bit_ceil (add64 capacity 1) with
  | None => Undef
  | Some n =>
      match bc_new n with
      | inl e => Exn e
      | inr c => Ret c
      end
  end.

(** [None]: the calling fiber is suspended *)
Definition push (v : T) (ch : bchan) : option (channel_op_status * bchan) :=
  '(s, ch') ← bc_push v ch; Some (cvt s, ch').

Definition try_push (v : T) (ch : bchan) : channel_op_status * bchan :=
  let '(s, ch') := bc_try_push v ch in (cvt s, ch').

Definition pop (ch : bchan) : option (channel_op_status * option T * bchan) :=
  '(s, v, ch') ← bc_pop ch; Some (cvt s, v, ch').

Definition value_pop (ch : bchan) : option ((exn + T) * bchan) := bc_value_pop ch.

Definition try_pop (ch : bchan) : channel_op_status * option T * bchan :=
  let '(s, v, ch') := bc_try_pop ch in (cvt s, v, ch').

Definition close (ch : bchan) : bchan := bc_close ch.

Definition is_closed (ch : bchan) : bool := bc_closed ch.

(** the pushes of a list of values, in order, as long as none suspends *)
Fixpoint push_all (vs : list T) (ch : bchan) : option bchan :=
  match vs with
  | [] => Some ch
  | v :: vs =>
      '(s, ch') ← push v ch;
      if decide (s = success) then push_all vs ch' else None
  end.

(** [n] pops, collecting the values, as long as each returns success *)
Fixpoint pop_all (n : nat) (ch : bchan) : option (list T * bchan) :=
  match n with
  | O => Some ([], ch)
  | S n =>
      '(s, v, ch') ← pop ch;
      match s, v with
      | success, Some v => '(vs, ch'') ← pop_all n ch'; Some (v :: vs, ch'')
      | _, _ => None
      end
  end.
End channel.

(** ** The contract *)

Module Spec.
Section spec.
Context {T : Type}.

Record fifo := Fifo { f_items : list T; f_limit : Z; f_closed : bool }.

Inductive op := Push (v : T) | TryPush (v : T) | Pop | TryPop | Close.
Inductive reply :=
  | Blocked
  | Status (s : channel_op_status)
  | Value (s : channel_op_status) (v : option T)
  | Done.

Definition at_limit (q : fifo) : bool := f_limit q <=? Z.of_nat (length (f_items q)).

Definition enqueue (v : T) (q : fifo) : fifo :=
  {| f_items := f_items q ++ [v]; f_limit := f_limit q; f_closed := f_closed q |}.

Definition spec_step (o : op) (q : fifo) : reply * fifo :=
  match o with
  | Push v =>
      if f_closed q then (Status closed, q)
      else if at_limit q then (Blocked, q) else (Status success, enqueue v q)
  | TryPush v =>
      if f_closed q then (Status closed, q)
      else if at_limit q then (Status full, q) else (Status success, enqueue v q)
  | Pop | TryPop =>
      match f_items q with
      | v :: vs => (Value success (Some v),
          {| f_items := vs; f_limit := f_limit q; f_closed := f_closed q |})
      | [] => if f_closed q then (Value closed None, q)
              else match o with Pop => (Blocked, q) | _ => (Value empty None, q) end
      end
  | Close => (Done, {| f_items := f_items q; f_limit := f_limit q; f_closed := true |})
  end.

(** the channel's own operations, over a Boost channel *)
Definition impl_step {B : BufferedChannel T} (o : op) (ch : bchan) : reply * bchan :=
  match o with
  | Push v => match push v ch with
              | Some (s, ch') => (Status s, ch') | None => (Blocked, ch) end
  | TryPush v => let '(s, ch') := try_push v ch in (Status s, ch')
  | Pop => match pop ch with
           | Some (s, v, ch') => (Value s v, ch') | None => (Blocked, ch) end
  | TryPop => let '(s, v, ch') := try_pop ch in (Value s v, ch')
  | Close => (Done, close ch)
  end.

Fixpoint spec_run (os : list op) (q : fifo) : list reply * fifo :=
  match os with
  | [] => ([], q)
  | o :: os => let '(r, q') := spec_step o q in
               let '(rs, q'') := spec_run os q' in (r :: rs, q'')
  end.

Fixpoint impl_run {B : BufferedChannel T} (os : list op) (ch : bchan) : list reply * bchan :=
  match os with
  | [] => ([], ch)
  | o :: os => let '(r, ch') := impl_step o ch in
               let '(rs, ch'') := impl_run os ch' in (r :: rs, ch'')
  end.

(** the abstraction function *)
Definition abs {B : BufferedChannel T} (ch : bchan) : fifo :=
  {| f_items := bc_items ch; f_limit := bc_capacity ch - 1; f_closed := bc_closed ch |}.
End spec.
Arguments fifo T : clear implicits.
Arguments op T : clear implicits.
Arguments reply T : clear implicits.
End Spec.

(** ** Lemmas *)

Section theory.
Context {T : Type} {B : BufferedChannel T} {HB : BufferedChannelLaws T B}.
Implicit Types ch : bchan.

Lemma at_limit_full ch : Spec.at_limit (Spec.abs ch) = true ↔ bc_full ch.
Proof. unfold Spec.at_limit, bc_full. simpl. lia. Qed.

Lemma try_push_abs v ch :
  let '(s, ch') := try_push v ch in
  Spec.spec_step (Spec.TryPush v) (Spec.abs ch) = (Spec.Status s, Spec.abs ch').
Proof.
  unfold try_push. simpl. destruct (bc_closed ch) eqn:Hc.
  { by rewrite bc_try_push_closed. }
  destruct (Spec.at_limit (Spec.abs ch)) eqn:Hf.
  - apply at_limit_full in Hf. by rewrite bc_try_push_full.
  - assert (¬ bc_full ch) by (rewrite <-at_limit_full; by rewrite Hf).
    destruct (bc_try_push_room v ch) as (ch' & -> & Hi & Hcap & Hcl); [done..|].
    simpl. unfold Spec.enqueue, Spec.abs. simpl. by rewrite Hi, Hcap, Hcl, Hc.
Qed.

Lemma push_abs v ch :
  Spec.spec_step (Spec.Push v) (Spec.abs ch) =
  match push v ch with
  | Some (s, ch') => (Spec.Status s, Spec.abs ch')
  | None => (Spec.Blocked, Spec.abs ch)
  end.
Proof.
  pose proof (try_push_abs v ch) as Ht. unfold push, try_push in *. simpl in *.
  destruct (bc_closed ch) eqn:Hc.
  - rewrite bc_push_try by auto. by rewrite bc_try_push_closed.
  - destruct (Spec.at_limit (Spec.abs ch)) eqn:Hf.
    + apply at_limit_full in Hf. by rewrite bc_push_blocks.
    + assert (¬ bc_full ch) by (rewrite <-at_limit_full; by rewrite Hf).
      rewrite bc_push_try by auto. by destruct (bc_try_push v ch).
Qed.

Lemma try_pop_abs ch :
  let '(s, v, ch') := try_pop ch in
  Spec.spec_step Spec.TryPop (Spec.abs ch) = (Spec.Value s v, Spec.abs ch').
Proof.
  unfold try_pop. simpl. destruct (bc_items ch) as [|v vs] eqn:Hi.
  - rewrite bc_try_pop_none by done. simpl. by destruct (bc_closed ch).
  - destruct (bc_try_pop_item ch v vs Hi) as (ch' & -> & Hi' & Hcap & Hcl).
    unfold Spec.abs. simpl. by rewrite Hi', Hcap, Hcl.
Qed.

Lemma pop_abs ch :
  Spec.spec_step Spec.Pop (Spec.abs ch) =
  match pop ch with
  | Some (s, v, ch') => (Spec.Value s v, Spec.abs ch')
  | None => (Spec.Blocked, Spec.abs ch)
  end.
Proof.
  pose proof (try_pop_abs ch) as Ht. unfold pop, try_pop in *. simpl in *.
  destruct (bc_items ch) as [|v vs] eqn:Hi; destruct (bc_closed ch) eqn:Hc.
  - rewrite bc_pop_try by auto. by destruct (bc_try_pop ch) as [[??]?].
  - by rewrite bc_pop_blocks.
  - rewrite bc_pop_try by auto. by destruct (bc_try_pop ch) as [[??]?].
  - rewrite bc_pop_try by (right; by rewrite Hi).
    by destruct (bc_try_pop ch) as [[??]?].
Qed.

Lemma impl_step_abs o ch :
  Spec.spec_step o (Spec.abs ch) =
  ((Spec.impl_step o ch).1, Spec.abs (Spec.impl_step o ch).2).
Proof.
  destruct o as [v|v| | |]; unfold Spec.impl_step.
  - rewrite push_abs. by destruct (push v ch) as [[??]|].
  - pose proof (try_push_abs v ch). by destruct (try_push v ch).
  - rewrite pop_abs. by destruct (pop ch) as [[[??]?]|].
  - pose proof (try_pop_abs ch). by destruct (try_pop ch) as [[??]?].
  - unfold close, Spec.abs. simpl.
    by destruct (bc_close_spec ch) as (-> & -> & ->).
Qed.

Lemma channel_new_ok capacity :
  1 ≤ capacity < 2 ^ 63 →
  ∃ ch, channel_new capacity = Ret ch
    ∧ Spec.abs ch = Spec.Fifo [] (bc_capacity ch - 1) false
    ∧ capacity ≤ bc_capacity ch - 1 ≤ 2 * capacity.
Proof.
  intros Hc. unfold channel_new, add64, to_u64. rewrite wrap_id by lia.
  destruct (bit_ceil_defined (capacity + 1)) as [n Hn]; [lia|]. rewrite Hn.
  destruct (bit_ceil_spec (capacity + 1) n ltac:(lia) Hn) as (Hp & ? & ? & Hlt).
  destruct (bc_new_ok n) as (ch & -> & Hi & Hcap & Hcl); [lia|done|].
  exists ch. unfold Spec.abs. rewrite Hi, Hcap, Hcl. split; [done|]. split; [done|].
  specialize (Hlt ltac:(lia)). lia.
Qed.

(** the ring of a channel whose capacity is a power of two is twice as long *)
Lemma channel_new_pow2 k :
  1 ≤ k < 63 →
  ∃ ch, channel_new (2 ^ k) = Ret ch ∧ bc_items ch = [] ∧ bc_capacity ch = 2 * 2 ^ k
    ∧ bc_closed ch = false.
Proof.
  intros Hk. assert (2 ≤ 2 ^ k) by (apply (Z.pow_le_mono_r 2 1 k); lia).
  assert (2 ^ k ≤ 2 ^ 62) by (apply Z.pow_le_mono_r; lia).
  unfold channel_new, add64, to_u64. rewrite wrap_id by lia. rewrite bit_ceil_pow2_succ by done.
  destruct (bc_new_ok (2 * 2 ^ k)) as (ch & -> & ?); [lia| |by exists ch].
  exists (k + 1). split; [lia|]. rewrite Z.pow_add_r by lia. lia.
Qed.

Lemma push_room v ch :
  bc_closed ch = false → Z.of_nat (length (bc_items ch)) < bc_capacity ch - 1 →
  ∃ ch', push v ch = Some (success, ch') ∧ bc_items ch' = bc_items ch ++ [v]
    ∧ bc_capacity ch' = bc_capacity ch ∧ bc_closed ch' = false.
Proof.
  intros Hc Hlen. assert (¬ bc_full ch) by (unfold bc_full; lia).
  unfold push. rewrite bc_push_try by auto.
  destruct (bc_try_push_room v ch) as (ch1 & -> & ?); [done..|]. by exists ch1.
Qed.

Lemma pop_item ch v vs :
  bc_items ch = v :: vs →
  ∃ ch', pop ch = Some (success, Some v, ch') ∧ bc_items ch' = vs
    ∧ bc_capacity ch' = bc_capacity ch ∧ bc_closed ch' = bc_closed ch.
Proof.
  intros Hi. unfold pop. rewrite bc_pop_try by (right; by rewrite Hi).
  destruct (bc_try_pop_item ch v vs Hi) as (ch1 & -> & ?). by exists ch1.
Qed.

Lemma pop_blocked ch : bc_closed ch = false → bc_items ch = [] → pop ch = None.
Proof. intros Hc Hi. unfold pop. by rewrite bc_pop_blocks. Qed.

Lemma push_all_room vs ch :
  bc_closed ch = false →
  Z.of_nat (length (bc_items ch) + length vs) ≤ bc_capacity ch - 1 →
  ∃ ch', push_all vs ch = Some ch' ∧ bc_items ch' = bc_items ch ++ vs
    ∧ bc_capacity ch' = bc_capacity ch ∧ bc_closed ch' = false.
Proof.
  revert ch. induction vs as [|v vs IH]; intros ch Hc Hlen; simpl.
  { exists ch. by rewrite app_nil_r. }
  simpl in Hlen. assert (¬ bc_full ch) by (unfold bc_full; lia).
  unfold push. rewrite bc_push_try by auto.
  destruct (bc_try_push_room v ch) as (ch1 & -> & Hi & Hcap & Hcl); [done..|]. simpl.
  destruct (IH ch1) as (ch2 & -> & Hi2 & Hcap2 & Hcl2); [done| |].
  { rewrite Hi, length_app, Hcap. simpl. lia. }
  exists ch2. rewrite Hi2, Hi, <-app_assoc, Hcap2, Hcap. done.
Qed.

Lemma pop_all_items ch vs ws :
  bc_items ch = vs ++ ws →
  ∃ ch', pop_all (length vs) ch = Some (vs, ch') ∧ bc_items ch' = ws
    ∧ bc_closed ch' = bc_closed ch.
Proof.
  revert ch. induction vs as [|v vs IH]; intros ch Hi; simpl; [by exists ch|].
  unfold pop. rewrite bc_pop_try by (right; by rewrite Hi).
  destruct (bc_try_pop_item ch v (vs ++ ws) Hi) as (ch1 & -> & Hi1 & Hcap & Hcl). simpl.
  destruct (IH ch1 Hi1) as (ch2 & -> & Hi2 & Hcl2). simpl.
  exists ch2. by rewrite Hcl2, Hcl.
Qed.
End theory.

(** ** Properties *)

Section properties.
Context {T : Type} {B : BufferedChannel T}.

(** C17: a channel built for [capacity] items behaves, over every sequence of
    push, try_push, pop, try_pop and close, as a FIFO queue whose limit lies
    between [capacity] and [2 * capacity]: the wrapper's ring is never
    smaller than what the caller asked for, in spite of the slot Boost
    reserves, pushes fail or suspend exactly at the limit, and pops drain a
    closed channel before they report it closed. *)
Theorem channel_refines_fifo (HB : BufferedChannelLaws T B) capacity :
  1 ≤ capacity < 2 ^ 63 →
  ∃ ch limit,
    channel_new capacity = Ret ch ∧ capacity ≤ limit ≤ 2 * capacity ∧
    ∀ os, Spec.spec_run os (Spec.Fifo [] limit false) =
          ((Spec.impl_run os ch).1, Spec.abs (Spec.impl_run os ch).2).
Proof.
  intros Hcap. destruct (channel_new_ok capacity Hcap) as (ch & Hnew & Habs & Hlim).
  exists ch, (bc_capacity ch - 1). split; [done|]. split; [done|].
  rewrite <-Habs. intros os. clear -HB. revert ch.
  induction os as [|o os IH]; intros ch; [done|]. simpl.
  rewrite (impl_step_abs o ch). destruct (Spec.impl_step o ch) as [r ch1]. simpl.
  rewrite IH. by destruct (Spec.impl_run os ch1).
Qed.

(** What goes in comes out: [capacity] or fewer pushes into a new channel
    all succeed without suspending the pusher, and after [close] the same
    number of pops returns the values in the order they were pushed, the
    next pop reports [closed], and so does every later push. *)
Theorem channel_push_close_pop (HB : BufferedChannelLaws T B) capacity (vs : list T) (v : T) :
  1 ≤ capacity < 2 ^ 63 → Z.of_nat (length vs) ≤ capacity →
  ∃ ch ch1 ch2,
    channel_new capacity = Ret ch ∧ push_all vs ch = Some ch1
    ∧ pop_all (length vs) (close ch1) = Some (vs, ch2)
    ∧ pop ch2 = Some (closed, None, ch2) ∧ push v ch2 = Some (closed, ch2).
Proof.
  intros Hcap Hlen. destruct (channel_new_ok capacity Hcap) as (ch & Hnew & Habs & Hlim).
  injection Habs as Hi Hcl.
  destruct (push_all_room vs ch) as (ch1 & Hpush & Hi1 & _ & _); [done| |].
  { rewrite Hi. simpl. lia. }
  destruct (bc_close_spec ch1) as (Hi' & _ & Hcl').
  destruct (pop_all_items (close ch1) vs []) as (ch2 & Hpop & Hi2 & Hcl2).
  { unfold close. by rewrite Hi', Hi1, Hi, app_nil_r. }
  unfold close in Hcl2. rewrite Hcl' in Hcl2.
  exists ch, ch1, ch2. repeat split; [done..| |].
  - unfold pop. rewrite bc_pop_try by auto. by rewrite bc_try_pop_none, Hcl2.
  - unfold push. rewrite bc_push_try by auto. by rewrite bc_try_push_closed.
Qed.

(** How many items a channel of a power-of-two capacity holds: the ring has
    twice as many slots, one of them reserved, so that [2 * capacity - 1]
    pushes succeed at once, and only the next one suspends its fiber ([push])
    or reports [full] ([try_push]). *)
Theorem channel_slots (HB : BufferedChannelLaws T B) k (vs : list T) (v : T) :
  1 ≤ k < 63 → Z.of_nat (length vs) = 2 * 2 ^ k - 1 →
  ∃ ch ch', channel_new (2 ^ k) = Ret ch ∧ push_all vs ch = Some ch' ∧ bc_items ch' = vs
    ∧ push v ch' = None ∧ try_push v ch' = (full, ch').
Proof.
  intros Hk Hlen. destruct (channel_new_pow2 k Hk) as (ch & Hnew & Hi & Hcap & Hcl).
  destruct (push_all_room vs ch) as (ch1 & Hpush & Hi1 & Hcap1 & Hcl1); [done| |].
  { rewrite Hi, Hcap. simpl. lia. }
  rewrite Hi in Hi1. simpl in Hi1.
  assert (bc_full ch1) as Hfull by (unfold bc_full; rewrite Hi1, Hcap1, Hcap; lia).
  exists ch, ch1. repeat split; [done..| |].
  - unfold push. by rewrite bc_push_blocks.
  - unfold try_push. by rewrite bc_try_push_full.
Qed.

(** The capacities the constructor cannot serve: with [capacity] 0, or
    with the largest [std::size_t] (where [capacity + 1] wraps to 0), it asks
    Boost for a ring of one slot and throws [fiber_error]; for every other
    capacity of [2^63] or more, [std::bit_ceil] has no representable
    result. *)
Theorem channel_new_degenerate (HB : BufferedChannelLaws T B) capacity :
  is_size capacity → capacity = 0 ∨ 2 ^ 63 ≤ capacity →
  channel_new capacity =
    if decide (capacity = 0 ∨ capacity = 2 ^ 64 - 1) then Exn FiberError else Undef.
Proof.
  intros [H0 H64] Hd. unfold channel_new, add64, to_u64.
  assert (bc_new 1 = inl FiberError) as H1 by (apply bc_new_bad; lia).
  case_decide as Hc.
  - destruct Hc as [->| ->]; change (bit_ceil _) with (Some 1); cbn beta iota; by rewrite H1.
  - rewrite wrap_id by lia. destruct (bit_ceil (capacity + 1)) as [n|] eqn:Hn; [|done].
    exfalso. destruct (bit_ceil_spec (capacity + 1) n) as ((k & Hk & ->) & ? & ? & _); [lia|done|].
    assert (63 < k) by (apply (Z.pow_lt_mono_r_iff 2); lia).
    assert (2 ^ 64 ≤ 2 ^ k) by (apply Z.pow_le_mono_r; lia). lia.
Qed.
End properties.

(** ** Witnesses *)

Lemma channel_refines_fifo_witness :
  ∃ (ch : @bchan nat ListChannel.list_channel) limit,
    channel_new 3 = Ret ch ∧ 3 ≤ limit ≤ 2 * 3 ∧
    ∀ os, Spec.spec_run os (Spec.Fifo [] limit false) =
          ((Spec.impl_run os ch).1, Spec.abs (Spec.impl_run os ch).2).
Proof.
  apply (channel_refines_fifo (T := nat) ListChannel.list_channel_laws 3). lia.
Defined.

Lemma channel_push_close_pop_witness :
  ∃ ch ch1 ch2 : @bchan nat ListChannel.list_channel,
    channel_new 3 = Ret ch ∧ push_all [7; 8; 9]%nat ch = Some ch1
    ∧ pop_all 3 (close ch1) = Some ([7; 8; 9]%nat, ch2)
    ∧ pop ch2 = Some (closed, None, ch2) ∧ push 1%nat ch2 = Some (closed, ch2).
Proof.
  apply (channel_push_close_pop ListChannel.list_channel_laws 3 [7; 8; 9]%nat 1%nat); [lia|].
  simpl. lia.
Defined.

Lemma channel_slots_witness :
  ∃ ch ch' : @bchan nat ListChannel.list_channel,
    channel_new 4 = Ret ch ∧ push_all (seq 0 7) ch = Some ch' ∧ push 7%nat ch' = None.
Proof.
  destruct (channel_slots ListChannel.list_channel_laws 2 (seq 0 7) 7%nat)
    as (ch & ch' & Hn & Hp & _ & Hb & _); [lia|reflexivity|].
  exists ch, ch'. split; [exact Hn|]. split; [exact Hp|exact Hb].
Defined.

Lemma channel_new_degenerate_witness :
  channel_new (B := @ListChannel.list_channel nat) (2 ^ 64 - 1) = Exn FiberError.
Proof.
  apply (channel_new_degenerate (T := nat) ListChannel.list_channel_laws (2 ^ 64 - 1));
    unfold is_size; lia.
Defined.
