(* ===== verification/Task.v ===== *)
(** * Task: [fiberexec::task] (include/fiberexec/task.hpp)

    The move-only type-erased [void()] callable the pool's queue holds.  A task
    has a 64-byte buffer and a pointer to a table of functions; the table says
    whether the closure lives in the buffer or behind a heap pointer stored in
    the buffer.  The world holds the live task objects, the heap, and two
    ghost logs: the closures whose destructor has run and the closures that
    were invoked.  Reading the buffer at a type it does not hold, calling
    through a null table and freeing a location twice are [Undef].

    The theorems show that no sequence of legal operations reaches [Undef],
    that every closure is destroyed exactly once (no leak, no double free), and
    that moves transfer the callable. *)

From S2P Require Import Prelude.

(** What the constructor asks of the closure's type. *)
Record fn_type := FnType {
  fn_sizeof : nat;
  fn_alignof : nat;
  fn_nothrow_move : bool     (** [std::is_nothrow_move_constructible_v<Fn>] *)
}.
#[export] Instance fn_type_eq_dec : EqDecision fn_type.
Proof. solve_decision. Defined.

(** A closure object: its type and the identity of the callable it holds. *)
Record closure := Closure { cl_type : fn_type; cl_id : nat }.
#[export] Instance closure_eq_dec : EqDecision closure.
Proof. solve_decision. Defined.

Definition kBufSize : nat := 64.
Definition kBufAlign : nat := 16.   (** [alignof(std::max_align_t)] *)

(** [sizeof(Fn) <= kBufSize && alignof(Fn) <= kBufAlign && nothrow-movable] *)
Definition fits (ty : fn_type) : bool :=
  (fn_sizeof ty <=? kBufSize)%nat && (fn_alignof ty <=? kBufAlign)%nat && fn_nothrow_move ty.

(** [sbo_vtable_<Fn>] and [heap_vtable_<Fn>] *)
Inductive vtable_t := sbo_vtable (ty : fn_type) | heap_vtable (ty : fn_type).
#[export] Instance vtable_eq_dec : EqDecision vtable_t.
Proof. solve_decision. Defined.

(** What the bytes of [buf_] hold. *)
Inductive buf_t := BufRaw | BufObj (c : closure) | BufPtr (l : nat).
#[export] Instance buf_eq_dec : EqDecision buf_t.
Proof. solve_decision. Defined.

Record task := Task { buf_ : buf_t; vtable_ : option vtable_t }.
#[export] Instance task_eq_dec : EqDecision task.
Proof. solve_decision. Defined.

Record world := World {
  tasks : gmap nat task;       (** the task objects alive, by address *)
  heap : gmap nat closure;     (** closures allocated with [new] *)
  next_loc : nat;              (** addresses at or above are unused *)
  next_id : nat;               (** callables made so far *)
  released : list nat;         (** callables whose closure was destroyed *)
  calls : list nat             (** callables invoked, oldest first *)
}.

Definition set_tasks (f : gmap nat task → gmap nat task) (w : world) : world :=
  {| tasks := f (tasks w); heap := heap w; next_loc := next_loc w; next_id := next_id w;
     released := released w; calls := calls w |}.
Definition set_heap (f : gmap nat closure → gmap nat closure) (w : world) : world :=
  {| tasks := tasks w; heap := f (heap w); next_loc := next_loc w; next_id := next_id w;
     released := released w; calls := calls w |}.
Definition release (id : nat) (w : world) : world :=
  {| tasks := tasks w; heap := heap w; next_loc := next_loc w; next_id := next_id w;
     released := id :: released w; calls := calls w |}.
Definition log_call (id : nat) (w : world) : world :=
  {| tasks := tasks w; heap := heap w; next_loc := next_loc w; next_id := next_id w;
     released := released w; calls := calls w ++ [id] |}.

Definition empty_world : world :=
  {| tasks := ∅; heap := ∅; next_loc := 0; next_id := 0; released := []; calls := [] |}.

(** the object at address [t]; [Undef] when there is none *)
Definition deref (t : nat) : cxx world task := λ w,
  match tasks w !! t with Some tk => (Ret tk, w) | None => (Undef, w) end.

Definition store (t : nat) (tk : task) : cxx world () := modify (set_tasks <[t := tk]>).

(** ** The tables *)

Definition vt_invoke (vt : vtable_t) (b : buf_t) : cxx world () := λ w,
  match vt, b with
  | sbo_vtable ty, BufObj c =>
      if decide (cl_type c = ty) then (Ret (), log_call (cl_id c) w) else (Undef, w)
  | heap_vtable ty, BufPtr l =>
      match heap w !! l with
      | Some c => if decide (cl_type c = ty) then (Ret (), log_call (cl_id c) w) else (Undef, w)
      | None => (Undef, w)
      end
  | _, _ => (Undef, w)
  end.

(** [move(src, dst)]: the new contents of the source and of the destination.
    The inline closure is moved out and destroyed; the heap pointer is copied. *)
Definition vt_move (vt : vtable_t) (src : buf_t) : option (buf_t * buf_t) :=
  match vt, src with
  | sbo_vtable ty, BufObj c => if decide (cl_type c = ty) then Some (BufRaw, BufObj c) else None
  | heap_vtable ty, BufPtr l => Some (BufPtr l, BufPtr l)
  | _, _ => None
  end.

(** [destroy(p)] *)
Definition vt_destroy (vt : vtable_t) (b : buf_t) : cxx world () := λ w,
  match vt, b with
  | sbo_vtable ty, BufObj c =>
      if decide (cl_type c = ty) then (Ret (), release (cl_id c) w) else (Undef, w)
  | heap_vtable ty, BufPtr l =>
      match heap w !! l with
      | Some c => if decide (cl_type c = ty)
                  then (Ret (), release (cl_id c) (set_heap (delete l) w)) else (Undef, w)
      | None => (Undef, w)
      end
  | _, _ => (Undef, w)
  end.

(** ** The operations *)

(** [task() = default] *)
Definition task_default (t : nat) : cxx world () :=
  store t {| buf_ := BufRaw; vtable_ := None |}.

(** [task(F&& f)], for a closure of type [ty] *)
Definition task_ctor (t : nat) (ty : fn_type) : cxx world () := λ w,
  let c := Closure ty (next_id w) in
  let w1 := {| tasks := tasks w; heap := heap w; next_loc := next_loc w;
               next_id := S (next_id w); released := released w; calls := calls w |} in
  if fits ty
  then store t {| buf_ := BufObj c; vtable_ := Some (sbo_vtable ty) |} w1
  else
    let l := next_loc w in
    store t {| buf_ := BufPtr l; vtable_ := Some (heap_vtable ty) |}
      {| tasks := tasks w1; heap := <[l := c]> (heap w1); next_loc := S l;
         next_id := next_id w1; released := released w1; calls := calls w1 |}.

(** [task(task&& other) noexcept] *)
Definition task_move_ctor (t o : nat) : cxx world () :=
  ok ← deref o;
  match vtable_ ok with
  | None => store t {| buf_ := BufRaw; vtable_ := None |}
  | Some vt =>
      match vt_move vt (buf_ ok) with
      | None => undef
      | Some (src, dst) =>
          _ ← store t {| buf_ := dst; vtable_ := Some vt |};
          store o {| buf_ := src; vtable_ := None |}
      end
  end.

(** [destroy()] on the task at [t] *)
Definition task_destroy (t : nat) : cxx world () :=
  tk ← deref t;
  match vtable_ tk with
  | None => mret ()
  | Some vt =>
      _ ← vt_destroy vt (buf_ tk);
      store t {| buf_ := BufRaw; vtable_ := None |}
  end.

(** [operator=(task&& other) noexcept] *)
Definition task_move_assign (t o : nat) : cxx world () :=
  if decide (t = o) then mret ()
  else
    _ ← task_destroy t;
    tk ← deref t;
    ok ← deref o;
    match vtable_ ok with
    | None => store t {| buf_ := buf_ tk; vtable_ := None |}
    | Some vt =>
        match vt_move vt (buf_ ok) with
        | None => undef
        | Some (src, dst) =>
            _ ← store t {| buf_ := dst; vtable_ := Some vt |};
            store o {| buf_ := src; vtable_ := None |}
        end
    end.

(** [~task()], after which the object is gone *)
Definition task_dtor (t : nat) : cxx world () :=
  _ ← task_destroy t; modify (set_tasks (delete t)).

(** [void operator()()] : a null table is dereferenced when the task is empty *)
Definition task_call (t : nat) : cxx world () :=
  tk ← deref t;
  match vtable_ tk with
  | None => undef
  | Some vt => vt_invoke vt (buf_ tk)
  end.

(** [explicit operator bool() const] *)
Definition task_bool (tk : task) : bool := bool_decide (vtable_ tk ≠ None).

(** The operations as commands, and when a program may issue one: constructors
    on raw memory, everything else on live objects, a call on a task that is
    true as a [bool]. *)
Inductive op :=
  | Default (t : nat) | Ctor (t : nat) (ty : fn_type) | MoveCtor (t o : nat)
  | MoveAssign (t o : nat) | Dtor (t : nat) | Call (t : nat).

Definition exec (o : op) : cxx world () :=
  match o with
  | Default t => task_default t
  | Ctor t ty => task_ctor t ty
  | MoveCtor t o => task_move_ctor t o
  | MoveAssign t o => task_move_assign t o
  | Dtor t => task_dtor t
  | Call t => task_call t
  end.

Definition legal (w : world) (o : op) : Prop :=
  match o with
  | Default t | Ctor t _ => tasks w !! t = None
  | MoveCtor t o => tasks w !! t = None ∧ is_Some (tasks w !! o)
  | MoveAssign t o => is_Some (tasks w !! t) ∧ is_Some (tasks w !! o)
  | Dtor t => is_Some (tasks w !! t)
  | Call t => ∃ tk, tasks w !! t = Some tk ∧ task_bool tk = true
  end.

Fixpoint exec_all (os : list op) : cxx world () :=
  match os with
  | [] => mret ()
  | o :: os => _ ← exec o; exec_all os
  end.

Fixpoint legal_all (w : world) (os : list op) : Prop :=
  match os with
  | [] => True
  | o :: os => legal w o ∧ ∀ w', exec o w = (Ret (), w') → legal_all w' os
  end.

(** ** Well-formed worlds *)

(** the closure a task owns *)
Definition owned (h : gmap nat closure) (tk : task) : option closure :=
  match vtable_ tk, buf_ tk with
  | Some (sbo_vtable ty), BufObj c => if decide (cl_type c = ty) then Some c else None
  | Some (heap_vtable ty), BufPtr l =>
      match h !! l with
      | Some c => if decide (cl_type c = ty) then Some c else None
      | None => None
      end
  | _, _ => None
  end.

Definition own (w : world) (t : nat) : option closure :=
  tasks w !! t ≫= owned (heap w).

Definition holds (w : world) (t : nat) (id : nat) : Prop :=
  ∃ c, own w t = Some c ∧ cl_id c = id.

(** the heap location the task at [t] points to *)
Definition points_to (w : world) (t : nat) : option nat :=
  tk ← tasks w !! t;
  match vtable_ tk, buf_ tk with
  | Some (heap_vtable _), BufPtr l => Some l
  | _, _ => None
  end.

Record wf (w : world) : Prop := {
  wf_owned t tk : tasks w !! t = Some tk → vtable_ tk ≠ None → is_Some (owned (heap w) tk);
  wf_unique t1 t2 l : points_to w t1 = Some l → points_to w t2 = Some l → t1 = t2;
  wf_noleak l : is_Some (heap w !! l) → ∃ t, points_to w t = Some l;
  wf_fresh l : is_Some (heap w !! l) → l < next_loc w;
  wf_ids t1 t2 id : holds w t1 id → holds w t2 id → t1 = t2;
  wf_live t id : holds w t id → id < next_id w ∧ id ∉ released w;
  wf_released : NoDup (released w) ∧ ∀ id, id ∈ released w → id < next_id w;
  wf_total id : id < next_id w → id ∈ released w ∨ ∃ t, holds w t id
}.

(** ** Preservation *)

Section preservation.
Implicit Types w : world.

Lemma own_task w t tk : tasks w !! t = Some tk → own w t = owned (heap w) tk.
Proof. intros H. unfold own. by rewrite H. Qed.

Lemma own_absent w t : tasks w !! t = None → own w t = None.
Proof. intros H. unfold own. by rewrite H. Qed.

Lemma points_absent w t : tasks w !! t = None → points_to w t = None.
Proof. intros H. unfold points_to. by rewrite H. Qed.

Lemma own_empty w t tk : tasks w !! t = Some tk → vtable_ tk = None → own w t = None.
Proof. intros H Hv. rewrite (own_task _ _ _ H). unfold owned. by rewrite Hv. Qed.

Lemma points_empty w t tk :
  tasks w !! t = Some tk → vtable_ tk = None → points_to w t = None.
Proof. intros H Hv. unfold points_to. rewrite H. simpl. by rewrite Hv. Qed.

(** what a task owns is found again after its buffer is moved *)
Lemma vt_move_owned h vt b c :
  owned h {| buf_ := b; vtable_ := Some vt |} = Some c →
  ∃ src, vt_move vt b = Some (src, b).
Proof.
  unfold owned, vt_move. simpl. destruct vt, b; try done.
  - case_decide; [by eexists|done].
  - by eexists.
Qed.

(** a step that only changes which task owns what, by moving [o]'s closure to [t] *)
Lemma wf_transfer w w' t o :
  wf w → t ≠ o → own w t = None → points_to w t = None →
  heap w' = heap w → next_loc w' = next_loc w → next_id w' = next_id w →
  released w' = released w →
  (∀ x, own w' x = if decide (x = t) then own w o else if decide (x = o) then None else own w x) →
  (∀ x, points_to w' x =
    if decide (x = t) then points_to w o else if decide (x = o) then None else points_to w x) →
  (∀ x tk, tasks w' !! x = Some tk → vtable_ tk ≠ None → is_Some (own w' x)) →
  wf w'.
Proof.
  intros Hw Hne Hot Hpt Hh Hl Hi Hr Hown Hptr Hv.
  split; rewrite ?Hh, ?Hl, ?Hi, ?Hr.
  - intros x tk Hx Hn. specialize (Hv x tk Hx Hn).
    by rewrite (own_task _ _ _ Hx), Hh in Hv.
  - intros t1 t2 l. rewrite !Hptr.
    repeat case_decide; subst; intros;
      try done; try (by eapply (wf_unique w)); exfalso; naive_solver (eauto using wf_unique).
  - intros l Hs. destruct (wf_noleak w Hw l Hs) as [x Hx].
    destruct (decide (x = o)) as [->|]; [exists t|exists x]; rewrite Hptr;
      repeat case_decide; congruence.
  - apply (wf_fresh w Hw).
  - intros t1 t2 id (c1 & H1 & E1) (c2 & H2 & E2). rewrite Hown in H1, H2.
    assert (∀ a b ca cb, own w a = Some ca → own w b = Some cb → cl_id ca = id →
      cl_id cb = id → a = b) as Hu.
    { intros a b ca cb ????. eapply (wf_ids w Hw a b id); eexists; eauto. }
    repeat case_decide; try done;
      pose proof (Hu _ _ _ _ H1 H2 E1 E2); congruence.
  - intros x id (c & Hc & E). rewrite Hown in Hc.
    repeat case_decide; try done; eapply (wf_live w Hw); eexists; eauto.
  - apply (wf_released w Hw).
  - intros id Hid. destruct (wf_total w Hw id Hid) as [?|(x & c & Hc & E)]; [by left|right].
    destruct (decide (x = o)) as [->|]; [exists t|exists x]; exists c; rewrite Hown;
      repeat case_decide; try done; congruence.
Qed.

(** a step that destroys the closure [c] the task at [t] owns *)
Lemma wf_clear w w' t c :
  wf w → own w t = Some c →
  next_loc w' = next_loc w → next_id w' = next_id w → released w' = cl_id c :: released w →
  heap w' = match points_to w t with Some l => delete l (heap w) | None => heap w end →
  (∀ x, own w' x = if decide (x = t) then None else own w x) →
  (∀ x, points_to w' x = if decide (x = t) then None else points_to w x) →
  (∀ x tk, tasks w' !! x = Some tk → vtable_ tk ≠ None → is_Some (own w' x)) →
  wf w'.
Proof.
  intros Hw Hot Hl Hi Hr Hh Hown Hptr Hv.
  assert (∀ l, is_Some (heap w' !! l) → is_Some (heap w !! l) ∧ points_to w t ≠ Some l) as Hheap.
  { intros l. rewrite Hh. destruct (points_to w t) as [l'|]; [|naive_solver].
    rewrite lookup_delete. case_decide; [by intros []|naive_solver]. }
  assert (holds w t (cl_id c)) as Hc by (by exists c).
  split; rewrite ?Hl, ?Hi, ?Hr.
  - intros x tk Hx Hn. specialize (Hv x tk Hx Hn). by rewrite (own_task _ _ _ Hx) in Hv.
  - intros t1 t2 l. rewrite !Hptr. repeat case_decide; try done. by apply wf_unique.
  - intros l [Hs Hn]%Hheap. destruct (wf_noleak w Hw l Hs) as [x Hx].
    exists x. rewrite Hptr. case_decide; congruence.
  - intros l [Hs _]%Hheap. by apply (wf_fresh w Hw).
  - intros t1 t2 id (c1 & H1 & E1) (c2 & H2 & E2). rewrite Hown in H1, H2.
    repeat case_decide; try done. eapply (wf_ids w Hw t1 t2 id); by eexists.
  - intros x id (c' & Hc' & E). rewrite Hown in Hc'. case_decide as Hx; [done|].
    assert (holds w x id) as Hhold by (by exists c').
    destruct (wf_live w Hw x id Hhold). split; [done|].
    rewrite not_elem_of_cons. split; [|done]. intros ->.
    by apply Hx, (wf_ids w Hw x t (cl_id c)).
  - destruct (wf_released w Hw) as [Hnd Hlt]. destruct (wf_live w Hw _ _ Hc).
    split; [by constructor|]. intros id. rewrite elem_of_cons. naive_solver.
  - intros id Hid. destruct (decide (id = cl_id c)) as [->|Hne]; [left; set_solver|].
    destruct (wf_total w Hw id Hid) as [?|(x & c' & Hc' & E)]; [left; set_solver|right].
    exists x, c'. rewrite Hown. case_decide; [congruence|done].
Qed.

(** a step that makes a new closure [c] and gives it to [t] *)
Lemma wf_make w w' t c :
  wf w → own w t = None → points_to w t = None → cl_id c = next_id w →
  next_id w' = S (next_id w) → released w' = released w → next_loc w ≤ next_loc w' →
  (∀ x, own w' x = if decide (x = t) then Some c else own w x) →
  (heap w' = heap w ∧ (∀ x, points_to w' x = points_to w x)
   ∨ heap w' = <[next_loc w := c]> (heap w) ∧ next_loc w < next_loc w'
     ∧ ∀ x, points_to w' x = if decide (x = t) then Some (next_loc w) else points_to w x) →
  (∀ x l, points_to w x = Some l → is_Some (heap w !! l)) →
  (∀ x tk, tasks w' !! x = Some tk → vtable_ tk ≠ None → is_Some (own w' x)) →
  wf w'.
Proof.
  intros Hw Hot Hpt Hid Hi Hr Hl Hown Hcase Hpts Hv.
  assert (∀ x l, points_to w x = Some l → l < next_loc w) as Hlt.
  { intros x l ?%Hpts. by apply (wf_fresh w Hw). }
  split; rewrite ?Hi, ?Hr.
  - intros x tk Hx Hn. specialize (Hv x tk Hx Hn). by rewrite (own_task _ _ _ Hx) in Hv.
  - intros t1 t2 l. destruct Hcase as [[_ Hp]|(_ & _ & Hp)]; rewrite !Hp.
    { by apply wf_unique. }
    repeat case_decide; intros H1 H2; simplify_eq; try done.
    + apply Hlt in H2. lia.
    + apply Hlt in H1. lia.
    + by eapply wf_unique.
  - intros l Hs. destruct Hcase as [[Hh Hp]|(Hh & _ & Hp)]; rewrite Hh in Hs.
    + setoid_rewrite Hp. by apply wf_noleak.
    + rewrite lookup_insert in Hs. case_decide.
      * exists t. rewrite Hp. case_decide; [by f_equal|done].
      * destruct (wf_noleak w Hw l Hs) as [x Hx]. exists x. rewrite Hp.
        case_decide; [congruence|done].
  - intros l Hs. destruct Hcase as [[Hh _]|(Hh & Hnl & _)]; rewrite Hh in Hs.
    + eapply Nat.lt_le_trans; [by apply (wf_fresh w Hw)|done].
    + rewrite lookup_insert in Hs. case_decide; [lia|].
      eapply Nat.lt_le_trans; [by apply (wf_fresh w Hw)|lia].
  - intros t1 t2 id (c1 & H1 & E1) (c2 & H2 & E2). rewrite Hown in H1, H2.
    assert (∀ x c', own w x = Some c' → cl_id c' < next_id w) as Hold.
    { intros x c' Hc'. by eapply (wf_live w Hw x); eexists. }
    repeat case_decide; try congruence.
    + injection H2 as <-. apply Hold in H1. lia.
    + injection H1 as <-. apply Hold in H2. lia.
    + eapply (wf_ids w Hw t1 t2 id); eexists; eauto.
  - intros x id (c' & Hc' & E). rewrite Hown in Hc'. destruct (wf_released w Hw) as [_ Hrel].
    case_decide; simplify_eq.
    + split; [lia|]. intros ?%Hrel. lia.
    + destruct (wf_live w Hw x (cl_id c')) as [? ?]; [by eexists|]. split; [lia|done].
  - destruct (wf_released w Hw) as [? Hrel]. split; [done|]. intros id ?%Hrel. lia.
  - intros id Hlt'. destruct (decide (id = next_id w)) as [->|].
    + right. exists t, c. rewrite Hown. by case_decide.
    + destruct (wf_total w Hw id) as [?|(x & c' & Hc' & E)]; [lia|by left|right].
      exists x, c'. rewrite Hown. case_decide; [congruence|done].
Qed.

Lemma points_heap w x l : wf w → points_to w x = Some l → is_Some (heap w !! l).
Proof.
  intros Hw. unfold points_to. destruct (tasks w !! x) as [tk|] eqn:Hx; [|done]. simpl.
  pose proof (wf_owned w Hw x tk Hx) as Ho. unfold owned in Ho.
  destruct (vtable_ tk) as [[|]|], (buf_ tk); try done. intros [= ->].
  destruct (heap w !! l); [done|]. by destruct Ho.
Qed.

(** a task is unaffected by changes elsewhere *)
Lemma own_frame w w' x :
  tasks w' !! x = tasks w !! x →
  (∀ l, points_to w x = Some l → heap w' !! l = heap w !! l) →
  own w' x = own w x.
Proof.
  intros Ht Hh. unfold own, points_to in *. rewrite Ht.
  destruct (tasks w !! x) as [tk|]; [|done]. simpl in *. unfold owned.
  destruct (vtable_ tk) as [[|]|], (buf_ tk); try done. by rewrite Hh.
Qed.

Lemma points_frame w w' x :
  tasks w' !! x = tasks w !! x → points_to w' x = points_to w x.
Proof. intros Ht. unfold points_to. by rewrite Ht. Qed.

Lemma deref_live w t tk : tasks w !! t = Some tk → deref t w = (Ret tk, w).
Proof. intros H. unfold deref. by rewrite H. Qed.

(** what every task owns after the entry of [t] alone was written *)
Lemma own_store w w' t tk :
  wf w → tasks w' = <[t := tk]> (tasks w) →
  (∀ x l, x ≠ t → points_to w x = Some l → heap w' !! l = heap w !! l) →
  ∀ x, own w' x = if decide (x = t) then owned (heap w') tk else own w x.
Proof.
  intros Hw Ht Hh x. case_decide as Hx.
  - subst. unfold own. by rewrite Ht, lookup_insert_eq.
  - apply own_frame; [by rewrite Ht, lookup_insert_ne|]. intros l. by apply Hh.
Qed.

Lemma points_store w w' t tk :
  tasks w' = <[t := tk]> (tasks w) →
  ∀ x, points_to w' x = if decide (x = t) then points_to w' t else points_to w x.
Proof.
  intros Ht x. case_decide as Hx; [by subst|].
  apply points_frame. by rewrite Ht, lookup_insert_ne.
Qed.

(** non-empty tasks still own a closure *)
Lemma owned_store w w' t tk :
  wf w → tasks w' = <[t := tk]> (tasks w) →
  (∀ x, own w' x = if decide (x = t) then owned (heap w') tk else own w x) →
  (vtable_ tk ≠ None → is_Some (owned (heap w') tk)) →
  ∀ x tk', tasks w' !! x = Some tk' → vtable_ tk' ≠ None → is_Some (own w' x).
Proof.
  intros Hw Ht Hown Hv x tk' Hx Hn. rewrite Hown. rewrite Ht, lookup_insert in Hx.
  case_decide; case_decide; simplify_eq; try done; [by apply Hv|].
  rewrite (own_task _ _ _ Hx). by eapply wf_owned.
Qed.

Lemma wf_make_store w w' t tk c :
  wf w → tasks w !! t = None → tasks w' = <[t := tk]> (tasks w) →
  owned (heap w') tk = Some c → cl_id c = next_id w →
  next_id w' = S (next_id w) → released w' = released w →
  (heap w' = heap w ∧ next_loc w' = next_loc w ∧ points_to w' t = None
   ∨ heap w' = <[next_loc w := c]> (heap w) ∧ next_loc w' = S (next_loc w)
     ∧ points_to w' t = Some (next_loc w)) →
  wf w' ∧ own w' t = Some c.
Proof.
  intros Hw Habs Ht Ho Hid Hi Hr Hcase.
  assert (∀ x, own w' x = if decide (x = t) then Some c else own w x) as Hown.
  { rewrite <-Ho. apply own_store; [done..|]. intros x l _ Hl%points_heap; [|done].
    apply (wf_fresh w Hw) in Hl. destruct Hcase as [[-> _]|[-> _]]; [done|].
    rewrite lookup_insert_ne by lia. done. }
  pose proof (points_store w w' t tk Ht) as Hpts.
  split; [|rewrite Hown; by case_decide].
  apply (wf_make w w' t c); try done.
  - by apply own_absent.
  - by apply points_absent.
  - destruct Hcase as [(_ & -> & _)|(_ & -> & _)]; lia.
  - destruct Hcase as [(Hh & Hl & Hp)|(Hh & Hl & Hp)]; [left|right];
      (split; [done|]); [|split; [lia|]]; intros x; rewrite Hpts, Hp; [|done].
    case_decide; [subst; by rewrite points_absent|done].
  - intros x l. by apply points_heap.
  - apply (owned_store w w' t tk); [done..| |]; rewrite Ho; done.
Qed.

Lemma task_ctor_wf w t ty :
  wf w → tasks w !! t = None →
  ∃ w', task_ctor t ty w = (Ret (), w') ∧ (wf w' ∧ own w' t = Some (Closure ty (next_id w)))
    ∧ dom (tasks w') = {[t]} ∪ dom (tasks w)
    ∧ (fits ty = true → heap w' = heap w) ∧ calls w' = calls w.
Proof.
  intros Hw Ht. unfold task_ctor, store, modify, set_tasks.
  destruct (fits ty) eqn:Hf; eexists; (split; [done|]); simpl;
    rewrite dom_insert_L.
  - split; [|done]. eapply wf_make_store; try done; simpl; unfold owned; simpl.
    + by rewrite decide_True.
    + left. split; [done|]. split; [done|].
      unfold points_to. simpl. by rewrite lookup_insert_eq.
  - split; [|done]. eapply wf_make_store; try done; simpl; unfold owned; simpl.
    + by rewrite lookup_insert_eq, decide_True.
    + right. split; [done|]. split; [done|].
      unfold points_to. simpl. by rewrite lookup_insert_eq.
Qed.

(** an empty task stored at a fresh or an empty place changes nothing *)
Lemma wf_store_empty w t b :
  wf w → own w t = None → points_to w t = None →
  let w' := set_tasks <[t := {| buf_ := b; vtable_ := None |}]> w in
  wf w' ∧ ∀ x, own w' x = own w x.
Proof.
  intros Hw Ho Hp w'. set (tk := {| buf_ := b; vtable_ := None |}).
  assert (∀ x, own w' x = own w x) as Hown.
  { intros x. rewrite (own_store w w' t tk) by done. case_decide; [by subst|done]. }
  assert (∀ x, points_to w' x = points_to w x) as Hpts.
  { intros x. rewrite (points_store w w' t tk) by done. case_decide; [|done].
    subst. rewrite Hp. unfold points_to. simpl. by rewrite lookup_insert_eq. }
  split; [|done]. destruct Hw as [H1 H2 H3 H4 H5 H6 H7 H8].
  split; unfold holds in *; try setoid_rewrite Hown; try setoid_rewrite Hpts; try done.
  intros x tk' Hx Hn. simpl in Hx. rewrite lookup_insert in Hx.
  case_decide; simplify_eq. by apply H1 with x.
Qed.

(** moving the closure of the task at [o] to an empty place [t] *)
Lemma wf_move w t o ok vt src dst :
  wf w → t ≠ o → own w t = None → points_to w t = None →
  tasks w !! o = Some ok → vtable_ ok = Some vt → vt_move vt (buf_ ok) = Some (src, dst) →
  let w' := set_tasks (λ ts, <[o := {| buf_ := src; vtable_ := None |}]>
              (<[t := {| buf_ := dst; vtable_ := Some vt |}]> ts)) w in
  wf w' ∧ own w' t = own w o ∧ own w' o = None ∧
  (∀ x, x ≠ t → x ≠ o → own w' x = own w x).
Proof.
  intros Hw Hne Hot Hpt Hok Hvt Hmv w'.
  assert (dst = buf_ ok) as ->.
  { unfold vt_move in Hmv. destruct vt, (buf_ ok); try done; [case_decide|]; by simplify_eq. }
  assert (∀ x, tasks w' !! x = if decide (x = o) then Some {| buf_ := src; vtable_ := None |}
    else if decide (x = t) then Some ok else tasks w !! x) as Hts.
  { intros x. unfold w'. simpl. rewrite !lookup_insert.
    repeat case_decide; try congruence. subst. rewrite <-Hvt. by destruct ok. }
  assert (∀ x, own w' x = if decide (x = t) then own w o else if decide (x = o) then None
    else own w x) as Hown.
  { intros x. unfold own. rewrite Hts. repeat case_decide; try congruence; try done.
    all: by rewrite Hok. }
  assert (∀ x, points_to w' x = if decide (x = t) then points_to w o
    else if decide (x = o) then None else points_to w x) as Hpts.
  { intros x. unfold points_to. rewrite Hts. repeat case_decide; try congruence; try done.
    all: by rewrite Hok. }
  split; [|rewrite !Hown; repeat case_decide; try done; split; [done|]; split; [done|];
    intros x ??; rewrite Hown; by repeat case_decide].
  apply (wf_transfer w w' t o); try done.
  intros x tk. rewrite Hts, Hown. repeat case_decide; intros ? Hn; simplify_eq; try done.
  - rewrite (own_task _ _ _ Hok). by eapply wf_owned.
  - erewrite own_task by done. by eapply wf_owned.
Qed.

(** [destroy()] empties the task and runs the destructor of its closure, once *)
Lemma task_destroy_wf w t tk :
  wf w → tasks w !! t = Some tk →
  ∃ w' b, task_destroy t w = (Ret (), w') ∧ wf w'
    ∧ tasks w' = <[t := {| buf_ := b; vtable_ := None |}]> (tasks w)
    ∧ own w' t = None ∧ points_to w' t = None ∧ (∀ x, x ≠ t → own w' x = own w x)
    ∧ released w' = option_list (cl_id <$> own w t) ++ released w
    ∧ next_id w' = next_id w ∧ calls w' = calls w.
Proof.
  intros Hw Ht. unfold task_destroy. erewrite cxx_bind_ret by by apply deref_live.
  destruct (vtable_ tk) as [vt|] eqn:Hvt; last first.
  { exists w, (buf_ tk). rewrite (own_empty _ _ _ Ht Hvt), (points_empty _ _ _ Ht Hvt).
    rewrite insert_id; [done|]. rewrite Ht, <-Hvt. by destruct tk. }
  pose proof (wf_owned w Hw t tk Ht) as [c Hc]; [by rewrite Hvt|].
  pose proof Hc as Hc'. rewrite <-(own_task _ _ _ Ht) in Hc'.
  set (h := match points_to w t with Some l => delete l (heap w) | None => heap w end).
  assert (vt_destroy vt (buf_ tk) w = (Ret (), release (cl_id c) (set_heap (λ _, h) w))) as Hd.
  { unfold h, points_to, vt_destroy, owned in *. rewrite Ht. simpl. rewrite Hvt in *.
    destruct vt, (buf_ tk); try done; [|destruct (heap w !! l); [|done]];
      case_decide; try done; simplify_eq; by destruct w. }
  bind_ret. unfold store, modify. eexists _, BufRaw.
  split; [done|]. match goal with |- wf ?w1 ∧ _ => set (w' := w1) end.
  assert (∀ x, own w' x = if decide (x = t) then None else own w x) as Hown.
  { intros x. rewrite (own_store w w' t {| buf_ := BufRaw; vtable_ := None |}); [done..|].
    intros y l Hy Hl. unfold w', h. simpl. destruct (points_to w t) as [l'|] eqn:Hp; [|done].
    rewrite lookup_delete_ne; [done|]. intros ->. by apply Hy, (wf_unique w Hw _ _ l). }
  assert (points_to w' t = None) as Hp'.
  { unfold points_to, w'. simpl. by rewrite lookup_insert_eq. }
  assert (wf w') as Hwf.
  { apply (wf_clear w w' t c); try done.
    - intros x. rewrite (points_store w w' t {| buf_ := BufRaw; vtable_ := None |}) by done.
      by rewrite Hp'.
    - by apply (owned_store w w' t {| buf_ := BufRaw; vtable_ := None |}). }
  split; [done|]. split; [done|]. rewrite Hown, Hc'. case_decide; [|done].
  split; [done|]. split; [done|]. split; [|done].
  intros x Hx. rewrite Hown. by case_decide.
Qed.
End preservation.

(** ** The operations on well-formed worlds *)

Section operations.
Implicit Types w : world.

Lemma task_default_wf w t :
  wf w → tasks w !! t = None → ∃ w', task_default t w = (Ret (), w') ∧ wf w'.
Proof.
  intros Hw Ht. eexists. split; [done|].
  apply wf_store_empty; [done|by apply own_absent|by apply points_absent].
Qed.

(** the common tail of the move constructor and the move assignment *)
Lemma take_over_wf w t o ok b :
  wf w → t ≠ o → own w t = None → points_to w t = None → tasks w !! o = Some ok →
  ∃ w', match vtable_ ok with
        | None => store t {| buf_ := b; vtable_ := None |}
        | Some vt =>
            match vt_move vt (buf_ ok) with
            | None => undef
            | Some (src, dst) =>
                _ ← store t {| buf_ := dst; vtable_ := Some vt |};
                store o {| buf_ := src; vtable_ := None |}
            end
        end w = (Ret (), w')
    ∧ wf w' ∧ own w' t = own w o ∧ own w' o = None ∧ (∀ x, x ≠ t → x ≠ o → own w' x = own w x)
    ∧ released w' = released w ∧ calls w' = calls w.
Proof.
  intros Hw Hne Hot Hpt Hok. destruct (vtable_ ok) as [vt|] eqn:Hvt.
  - destruct (wf_owned w Hw o ok Hok) as [c Hc]; [by rewrite Hvt|].
    destruct (vt_move_owned (heap w) vt (buf_ ok) c) as [src Hmv].
    { rewrite <-Hc, <-Hvt. by destruct ok. }
    rewrite Hmv. eexists. split; [done|]. 
    destruct (wf_move w t o ok vt src (buf_ ok)) as (? & ? & ? & ?); try done.
  - eexists. split; [done|].
    destruct (wf_store_empty w t b) as [? Hown]; [done..|].
    rewrite !Hown, Hot, (own_empty _ _ _ Hok Hvt). done.
Qed.

Lemma task_move_ctor_wf w t o :
  wf w → tasks w !! t = None → is_Some (tasks w !! o) →
  ∃ w', task_move_ctor t o w = (Ret (), w') ∧ wf w' ∧ own w' t = own w o ∧ own w' o = None
    ∧ released w' = released w ∧ calls w' = calls w.
Proof.
  intros Hw Ht [ok Hok]. unfold task_move_ctor.
  erewrite cxx_bind_ret by by apply deref_live.
  assert (t ≠ o) by congruence.
  destruct (take_over_wf w t o ok BufRaw) as (w' & ? & ? & ? & ? & _ & ? & ?);
    [done|done|by apply own_absent|by apply points_absent|done|by exists w'].
Qed.

Lemma task_move_assign_wf w t o :
  wf w → is_Some (tasks w !! t) → is_Some (tasks w !! o) → t ≠ o →
  ∃ w', task_move_assign t o w = (Ret (), w') ∧ wf w' ∧ own w' t = own w o ∧ own w' o = None
    ∧ released w' = option_list (cl_id <$> own w t) ++ released w ∧ calls w' = calls w.
Proof.
  intros Hw [tk Ht] [ok Hok] Hne. unfold task_move_assign. rewrite decide_False by done.
  destruct (task_destroy_wf w t tk) as (w1 & b & Hd & Hw1 & Hts & Ho & Hp & Hx & Hr & _ & Hc);
    [done..|].
  bind_ret.
  erewrite cxx_bind_ret by (apply deref_live; rewrite Hts; apply lookup_insert_eq).
  assert (tasks w1 !! o = Some ok) as Hok1 by (by rewrite Hts, lookup_insert_ne).
  erewrite cxx_bind_ret by by apply deref_live.
  destruct (take_over_wf w1 t o ok b) as (w' & ? & ? & Hot & ? & _ & Hr' & Hc'); [done..|].
  exists w'. rewrite Hot, Hx, Hr', Hr, Hc', Hc by done. done.
Qed.

Lemma task_dtor_wf w t :
  wf w → is_Some (tasks w !! t) → ∃ w', task_dtor t w = (Ret (), w') ∧ wf w'.
Proof.
  intros Hw [tk Ht]. unfold task_dtor.
  destruct (task_destroy_wf w t tk) as (w1 & b & Hd & Hw1 & Hts & Ho & Hp & _); [done..|].
  bind_ret. eexists. split; [done|].
  match goal with |- wf ?w2 => set (w' := w2) end.
  assert (∀ x, tasks w' !! x = if decide (x = t) then None else tasks w1 !! x) as Hl.
  { intros x. unfold w'. simpl. rewrite lookup_delete. by repeat case_decide. }
  assert (∀ x, own w' x = own w1 x) as Hown.
  { intros x. destruct (decide (x = t)) as [->|].
    - rewrite Ho. apply own_absent. rewrite Hl. by case_decide.
    - apply own_frame; [rewrite Hl; by case_decide|done]. }
  assert (∀ x, points_to w' x = points_to w1 x) as Hpts.
  { intros x. destruct (decide (x = t)) as [->|].
    - rewrite Hp. apply points_absent. rewrite Hl. by case_decide.
    - apply points_frame. rewrite Hl; by case_decide. }
  destruct Hw1 as [H1 H2 H3 H4 H5 H6 H7 H8].
  split; unfold holds in *; try setoid_rewrite Hown; try setoid_rewrite Hpts; try done.
  intros x tk' Hx. rewrite Hl in Hx. case_decide; [done|]. by apply H1 with x.
Qed.

Lemma task_call_owned w t c :
  own w t = Some c → task_call t w = (Ret (), log_call (cl_id c) w).
Proof.
  unfold own, task_call. destruct (tasks w !! t) as [tk|] eqn:Ht; [|done]. simpl. intros Hc.
  erewrite cxx_bind_ret by by apply deref_live. unfold owned, vt_invoke in *.
  destruct (vtable_ tk) as [[|]|], (buf_ tk); try done;
    [|destruct (heap w !! l); [|done]]; case_decide; by simplify_eq.
Qed.

Lemma log_call_wf w id : wf w → wf (log_call id w).
Proof. intros [H1 H2 H3 H4 H5 H6 H7 H8]. by split. Qed.
End operations.

Lemma exec_wf w o : wf w → legal w o → ∃ w', exec o w = (Ret (), w') ∧ wf w'.
Proof.
  intros Hw. destruct o as [t|t ty|t o|t o|t|t]; simpl.
  - by apply task_default_wf.
  - intros Ht. destruct (task_ctor_wf w t ty Hw Ht) as (w' & ? & [? _] & _). eauto.
  - intros [Ht Ho]. destruct (task_move_ctor_wf w t o) as (w' & ? & ? & _); eauto.
  - intros [Ht Ho]. destruct (decide (t = o)) as [->|].
    { exists w. unfold task_move_assign. by rewrite decide_True. }
    destruct (task_move_assign_wf w t o) as (w' & ? & ? & _); eauto.
  - by apply task_dtor_wf.
  - intros (tk & Ht & Hb). unfold task_bool in Hb. apply bool_decide_eq_true in Hb.
    destruct (wf_owned w Hw t tk Ht Hb) as [c Hc]. rewrite <-(own_task _ _ _ Ht) in Hc.
    eexists. split; [by apply task_call_owned|by apply log_call_wf].
Qed.

Lemma empty_world_wf : wf empty_world.
Proof.
  split; simpl; try (intros; unfold holds, own, points_to in *; simpl in *; naive_solver).
  - intros l [? ?]. done.
  - intros l [? ?]. done.
  - split; [constructor|]. by intros id ?%not_elem_of_nil.
  - intros. lia.
Qed.

Lemma exec_all_wf os w :
  wf w → legal_all w os → ∃ w', exec_all os w = (Ret (), w') ∧ wf w'.
Proof.
  revert w. induction os as [|o os IH]; intros w Hw; simpl; [by exists w|].
  intros [Hl Hall]. destruct (exec_wf w o Hw Hl) as (w1 & He & Hw1).
  bind_ret. apply IH; auto.
Qed.

(** ** Properties *)

(** C20: no legal use of tasks goes wrong: from a well-formed world, every
    operation a program may issue completes without undefined behaviour (no
    buffer is read at a wrong type, nothing is freed twice, no null table is
    called) and leaves the world well-formed: every non-empty task owns one
    closure, of the type its table is for, no two tasks share one, and every
    heap closure has its owner. *)
Theorem task_step_safe w o :
  wf w → legal w o → ∃ w', exec o w = (Ret (), w') ∧ wf w'.
Proof. apply exec_wf. Qed.

(** No leak and no double destruction: after any legal sequence of
    operations that starts with no tasks and ends with every task destroyed,
    the heap is empty and the closures destroyed are exactly the closures that
    were made, each once. *)
Theorem task_no_leak os w :
  legal_all empty_world os → exec_all os empty_world = (Ret (), w) → tasks w = ∅ →
  heap w = ∅ ∧ released w ≡ₚ seq 0 (next_id w).
Proof.
  intros Hl He Hempty.
  destruct (exec_all_wf os empty_world empty_world_wf Hl) as (w' & He' & Hw).
  rewrite He in He'. injection He' as <-.
  assert (∀ t, tasks w !! t = None) as Hnone by (intros; by rewrite Hempty, lookup_empty).
  split.
  - apply map_eq. intros l. rewrite lookup_empty.
    destruct (heap w !! l) eqn:Hh; [|done].
    destruct (wf_noleak w Hw l) as [t Ht]; [by eexists|].
    by rewrite points_absent in Ht.
  - destruct (wf_released w Hw) as [Hnd Hlt].
    apply NoDup_Permutation; [done|apply NoDup_seq|].
    intros id. rewrite elem_of_seq. split; [intros ?%Hlt; lia|].
    intros [_ Hid]. destruct (wf_total w Hw id) as [?|(t & c & Hc & _)]; [lia|done|].
    by rewrite own_absent in Hc.
Qed.

(** A move assignment between distinct tasks destroys the closure the
    target held, hands it the source's closure, and leaves the source empty;
    calling the target then invokes that closure. *)
Theorem task_move_assign_transfers w t o c :
  wf w → t ≠ o → is_Some (tasks w !! t) → own w o = Some c →
  ∃ w', exec_all [MoveAssign t o; Call t] w = (Ret (), w')
    ∧ own w' t = Some c ∧ own w' o = None
    ∧ released w' = option_list (cl_id <$> own w t) ++ released w
    ∧ calls w' = calls w ++ [cl_id c].
Proof.
  intros Hw Hne Ht Ho.
  assert (is_Some (tasks w !! o)) as Hs.
  { unfold own in Ho. destruct (tasks w !! o); [by eexists|done]. }
  destruct (task_move_assign_wf w t o) as (w1 & He & Hw1 & Hot & Hoo & Hr & Hc); [done..|].
  exists (log_call (cl_id c) w1). split.
  - simpl. bind_ret.
    erewrite cxx_bind_ret by (apply task_call_owned; by rewrite Hot). done.
  - simpl. rewrite <-Hr, <-Hc, <-Ho, <-Hot. repeat split; try done.
Qed.

(** Closures of at most 64 bytes that fit the buffer's alignment and move
    without throwing are stored inline, with no allocation; any other closure
    takes exactly one allocation; either way the new task holds the callable
    it was given. *)
Theorem task_ctor_storage w t ty :
  wf w → tasks w !! t = None →
  ∃ w', task_ctor t ty w = (Ret (), w') ∧ own w' t = Some (Closure ty (next_id w))
    ∧ size (heap w') = (if fits ty then size (heap w) else S (size (heap w))).
Proof.
  intros Hw Ht. destruct (task_ctor_wf w t ty Hw Ht) as (w' & He & [_ Ho] & _ & Hf & _).
  exists w'. split; [done|]. split; [done|]. destruct (fits ty) eqn:E; [by rewrite Hf|].
  unfold task_ctor in He. rewrite E in He. injection He as <-. simpl.
  apply map_size_insert_None. destruct (heap w !! next_loc w) eqn:Hh; [|done].
  assert (next_loc w < next_loc w); [|lia]. apply (wf_fresh w Hw). by eexists.
Qed.

(** ** Witnesses *)

Definition small : fn_type := FnType 24 8 true.
Definition large : fn_type := FnType 128 8 true.

(** two tasks, one inline and one on the heap *)
Definition demo : list op := [Ctor 0 small; Ctor 1 large; MoveAssign 0 1; Call 0; Dtor 1; Dtor 0].

Lemma task_step_safe_witness :
  ∃ w', exec (Ctor 0 large) empty_world = (Ret (), w') ∧ wf w'.
Proof. apply (task_step_safe empty_world (Ctor 0 large)); [exact empty_world_wf|reflexivity]. Defined.

Lemma demo_legal : legal_all empty_world demo.
Proof.
  repeat (split; [simpl; by (repeat split; eauto) || by (eexists; split; reflexivity)|
                  intros w' Hw'; vm_compute in Hw'; injection Hw' as <-]).
  done.
Qed.

Lemma task_no_leak_witness :
  let w := (exec_all demo empty_world).2 in
  tasks w = ∅ ∧ heap w = ∅ ∧ released w ≡ₚ seq 0 2.
Proof.
  split; [vm_compute; reflexivity|].
  apply (task_no_leak demo (exec_all demo empty_world).2);
    [apply demo_legal|vm_compute; reflexivity|vm_compute; reflexivity].
Defined.

Definition two_tasks : world := (exec_all [Ctor 0 small; Ctor 1 large] empty_world).2.

Lemma two_tasks_wf : wf two_tasks.
Proof.
  destruct (exec_all_wf [Ctor 0 small; Ctor 1 large] empty_world) as (w & He & Hw);
    [apply empty_world_wf| |].
  { split; [done|]. intros w' Hw'. vm_compute in Hw'. injection Hw' as <-. by split. }
  unfold two_tasks. by rewrite He.
Qed.

Lemma task_move_assign_transfers_witness :
  ∃ w', exec_all [MoveAssign 0 1; Call 0] two_tasks = (Ret (), w')
    ∧ own w' 0 = Some (Closure large 1) ∧ own w' 1 = None
    ∧ released w' = [0] ∧ calls w' = [1].
Proof.
  apply (task_move_assign_transfers two_tasks 0 1 (Closure large 1));
    [apply two_tasks_wf|lia|vm_compute; by eexists|vm_compute; reflexivity].
Defined.

Lemma task_ctor_storage_witness :
  ∃ w', task_ctor 5 large two_tasks = (Ret (), w') ∧ own w' 5 = Some (Closure large 2)
    ∧ size (heap w') = 2.
Proof.
  apply (task_ctor_storage two_tasks 5 large); [apply two_tasks_wf|vm_compute; reflexivity].
Defined.
