(* ===== verification/Scheduler.v ===== *)
(** * Scheduler: [io_uring_scheduler] (src/fiber_context.cpp)

    The per-thread Boost.Fiber scheduling algorithm that sleeps in the ring.
    The state of a worker thread is a record [worker]: the members of the
    scheduler object ([ring_], [ready_], [cancel_queue_], the count of
    [notify_fd_]), the members of the pool it shares with other threads
    ([work_queue_], [running_], [in_flight_], the count of [eventfd_]), the
    completion handlers alive in memory, by address, and the stop states.

    Handlers are reached through the virtual interface
    [detail::cqe_handler], the class [CqeHandler] here: the scheduler's
    theorems are proved against it, and [io_awaitable] and the handlers of the
    other files implement it.

    What the kernel does is an input: [drain_cqes] takes the completion entries
    that successive [io_uring_peek_cqe] calls return. *)

From S2P Require Import Prelude Cxx Uring Boost.

Local Open Scope Z_scope.

(** Sentinel tags. *)
Definition k_work_tag : Z := 0.
Definition k_notify_tag : Z := 1.
Definition k_cancel_tag : Z := 2.

Definition k_ring_entries : nat := 256.

(** ** The handler interface *)

(** [virtual void complete(io_uring* ring, int res, uint32_t flags) noexcept]:
    the handler at address [this] updates itself and may submit to the ring. *)
Class CqeHandler {L : Liburing} {P : Promise} (H : Type) : Type := {
  complete (this res flags : Z) : cxx (H * uring) ();
  (** [io_awaitable] is one of the handlers *)
  io_awaitable : promise Z → H;
  as_awaitable : H → option (promise Z)
}.

(** [void complete(io_uring*, int res, uint32_t) noexcept override {
    promise.set_value(res); }] *)
Definition io_awaitable_complete {P : Promise} (res : Z) (p : promise Z) : outcome (promise Z) :=
  match promise_set_value res p with
  | inr p' => Ret p'
  | inl _ => Abort
  end.

Class CqeHandlerLaws {L : Liburing} {P : Promise} (H : Type) (HC : CqeHandler H) : Prop := {
  complete_awaitable this res flags p r :
    complete this res flags (io_awaitable p, r) =
    match io_awaitable_complete res p with
    | Ret p' => (Ret (), (io_awaitable p', r))
    | _ => (Abort, (io_awaitable p, r))
    end;
  as_awaitable_io p : as_awaitable (io_awaitable p) = Some p
}.

(** a class [X] that derives from [cqe_handler] and overrides [complete] with
    [f]; the upcast is the pointer conversion in [io_uring_sqe_set_data] *)
Class DerivedHandler {L : Liburing} {P : Promise} (H : Type) {HC : CqeHandler H} (X : Type) : Type := {
  upcast : X → H;
  downcast : H → option X
}.

Class DerivedHandlerLaws {L : Liburing} {P : Promise} (H : Type) {HC : CqeHandler H} (X : Type)
    (D : DerivedHandler H X) (f : Z → Z → Z → cxx (X * uring) ()) : Prop := {
  downcast_upcast x : downcast (upcast x) = Some x;
  complete_upcast this res flags x r :
    complete this res flags (upcast x, r) =
    let '(o, (x', r')) := f this res flags (x, r) in (o, (upcast x', r'))
}.

(** the program with [io_awaitable] and one more handler class [X] *)
Section one_more.
Context {L : Liburing} {P : Promise} {X : Type} (f : Z → Z → Z → cxx (X * uring) ()).

Definition one_more_complete (this res flags : Z) : cxx ((promise Z + X) * uring) () := λ '(h, r),
  match h with
  | inl p =>
      match io_awaitable_complete res p with
      | Ret p' => (Ret (), (inl p', r))
      | _ => (Abort, (inl p, r))
      end
  | inr x => let '(o, (x', r')) := f this res flags (x, r) in (o, (inr x', r'))
  end.

Definition one_more : CqeHandler (promise Z + X) := {|
  complete := one_more_complete; io_awaitable := inl;
  as_awaitable h := match h with inl p => Some p | inr _ => None end |}.

Definition one_more_derived : DerivedHandler (HC := one_more) (promise Z + X) X := {|
  upcast := inr; downcast h := match h with inl _ => None | inr x => Some x end |}.

Lemma one_more_laws : CqeHandlerLaws (promise Z + X) one_more.
Proof. by split. Qed.
Lemma one_more_derived_laws : DerivedHandlerLaws (HC := one_more) (promise Z + X) X one_more_derived f.
Proof. by split. Qed.
End one_more.

(** ** State *)

(** the descriptors and buffers of the two eventfd reads *)
Record efd_bufs := EfdBufs { work_fd : Z; work_efd_val_ : Z; notify_fd : Z; notify_val_ : Z }.

(** members of [fiber_pool]; a queued task is [None] when it is empty *)
Record pool := Pool {
  running_ : bool;
  work_queue_ : list (option nat);
  eventfd_ : nat;                 (** count of the work eventfd *)
  in_flight_ : nat
}.

(** What [suspend_until] observes: whether a completion is ready at once, the
    clock, the results of the two blocking calls, and what is then drained. *)
Record wait_env := WaitEnv {
  we_peek : bool;
  we_now : Z;
  we_wait : Z;                      (** [io_uring_wait_cqe] *)
  we_wait_timeout : timespec → Z;   (** [io_uring_wait_cqe_timeout] *)
  we_cqes : list cqe
}.

Section scheduler.
Context {L : Liburing} {P : Promise} {H : Type} {HC : CqeHandler H}.

(** members of [io_uring_scheduler] *)
Record sched := Sched {
  ring_ : uring;
  ready_ : list nat;              (** runnable fiber contexts *)
  cancel_queue_ : list Z;
  notify_fd_ : nat                (** count of the notify eventfd *)
}.

Record worker := Worker {
  w_pool : pool;
  w_sched : sched;
  w_handlers : gmap Z H;          (** live [cqe_handler] objects, by address *)
  w_fibers : list nat;            (** bodies of the fibers launched, by context *)
  w_stops : gmap nat (stop_state (list Z));  (** shared states of stop sources *)
  w_pool_stop : nat;              (** the state of [pool_stop_source_] *)
  w_fiber_stop : option nat       (** the running fiber's [fiber_stop_token] *)
}.

Definition upd_pool (f : pool → pool) (w : worker) : worker :=
  {| w_pool := f (w_pool w); w_sched := w_sched w; w_handlers := w_handlers w;
     w_fibers := w_fibers w; w_stops := w_stops w; w_pool_stop := w_pool_stop w;
     w_fiber_stop := w_fiber_stop w |}.
Definition upd_sched (f : sched → sched) (w : worker) : worker :=
  {| w_pool := w_pool w; w_sched := f (w_sched w); w_handlers := w_handlers w;
     w_fibers := w_fibers w; w_stops := w_stops w; w_pool_stop := w_pool_stop w;
     w_fiber_stop := w_fiber_stop w |}.
Definition upd_handlers (f : gmap Z H → gmap Z H) (w : worker) : worker :=
  {| w_pool := w_pool w; w_sched := w_sched w; w_handlers := f (w_handlers w);
     w_fibers := w_fibers w; w_stops := w_stops w; w_pool_stop := w_pool_stop w;
     w_fiber_stop := w_fiber_stop w |}.
Definition upd_fibers (f : list nat → list nat) (w : worker) : worker :=
  {| w_pool := w_pool w; w_sched := w_sched w; w_handlers := w_handlers w;
     w_fibers := f (w_fibers w); w_stops := w_stops w; w_pool_stop := w_pool_stop w;
     w_fiber_stop := w_fiber_stop w |}.
Definition upd_stops (f : gmap nat (stop_state (list Z)) → gmap nat (stop_state (list Z)))
    (w : worker) : worker :=
  {| w_pool := w_pool w; w_sched := w_sched w; w_handlers := w_handlers w;
     w_fibers := w_fibers w; w_stops := f (w_stops w); w_pool_stop := w_pool_stop w;
     w_fiber_stop := w_fiber_stop w |}.

Definition upd_ring (f : uring → uring) : worker → worker :=
  upd_sched (λ s, {| ring_ := f (ring_ s); ready_ := ready_ s;
    cancel_queue_ := cancel_queue_ s; notify_fd_ := notify_fd_ s |}).
Definition upd_ready (f : list nat → list nat) : worker → worker :=
  upd_sched (λ s, {| ring_ := ring_ s; ready_ := f (ready_ s);
    cancel_queue_ := cancel_queue_ s; notify_fd_ := notify_fd_ s |}).
Definition upd_cancel (f : list Z → list Z) : worker → worker :=
  upd_sched (λ s, {| ring_ := ring_ s; ready_ := ready_ s;
    cancel_queue_ := f (cancel_queue_ s); notify_fd_ := notify_fd_ s |}).
Definition upd_notify (f : nat → nat) : worker → worker :=
  upd_sched (λ s, {| ring_ := ring_ s; ready_ := ready_ s;
    cancel_queue_ := cancel_queue_ s; notify_fd_ := f (notify_fd_ s) |}).

Definition w_ring (w : worker) : uring := ring_ (w_sched w).

(** ** The ready queue *)

(** [void awakened(context* ctx)]: [ready_.push(ctx)] *)
Definition awakened (ctx : nat) : cxx worker () := modify (upd_ready (λ q, q ++ [ctx])).

(** [context* pick_next()]; [None] is [nullptr] *)
Definition pick_next : cxx worker (option nat) := λ w,
  match ready_ (w_sched w) with
  | [] => (Ret None, w)
  | ctx :: q => (Ret (Some ctx), upd_ready (λ _, q) w)
  end.

Definition has_ready_fibers : cxx worker bool :=
  gets (λ w, negb (bool_decide (ready_ (w_sched w) = []))).

(** ** Cancellation requests *)

(** [void notify()]: write 1 to the notify eventfd *)
Definition notify : cxx worker () := modify (upd_notify S).

(** [void request_cancel(void* user_data)] *)
Definition request_cancel (user_data : Z) : cxx worker () :=
  _ ← modify (upd_cancel (λ q, q ++ [user_data]));
  modify (upd_notify S).

(** the body of a stop callback: [for (j < n) sched->request_cancel(targets[j])] *)
Fixpoint request_cancel_all (targets : list Z) : cxx worker () :=
  match targets with
  | [] => mret ()
  | t :: ts => _ ← request_cancel t; request_cancel_all ts
  end.

(** ** Submissions *)

(** [sqe = io_uring_get_sqe(&ring_)], the entry filled with [e]: a NULL entry
    is written through, which is undefined *)
Definition fill_sqe (e : sqe) : cxx worker () := λ w,
  match claim e (w_ring w) with
  | None => (Undef, w)
  | Some r => (Ret (), upd_ring (λ _, r) w)
  end.

(** [io_uring_submit(&ring_)] *)
Definition submit : cxx worker Z := λ w,
  let '(n, r) := io_uring_submit (w_ring w) in (Ret n, upd_ring (λ _, r) w).

Context (fds : efd_bufs).

Definition work_sqe : sqe :=
  set_data k_work_tag (prepped (PrepRead (work_fd fds) (work_efd_val_ fds) 8 0)).
Definition notify_sqe : sqe :=
  set_data k_notify_tag (prepped (PrepRead (notify_fd fds) (notify_val_ fds) 8 0)).
Definition cancel_sqe (target : Z) : sqe :=
  set_data k_cancel_tag (prepped (PrepCancel target 0)).

Definition arm_work_efd : cxx worker () := _ ← fill_sqe work_sqe; _ ← submit; mret ().
Definition arm_notify : cxx worker () := _ ← fill_sqe notify_sqe; _ ← submit; mret ().

(** the loop of [flush_cancel_queue]: it stops at a NULL entry and leaves the
    rest of the queue *)
Fixpoint flush_cancels (q : list Z) (r : uring) : list Z * uring :=
  match q with
  | [] => ([], r)
  | target :: q' =>
      match claim (cancel_sqe target) r with
      | None => (q, r)
      | Some r' => flush_cancels q' r'
      end
  end.

Definition flush_cancel_queue : cxx worker () := λ w,
  let '(q, r) := flush_cancels (cancel_queue_ (w_sched w)) (w_ring w) in
  (Ret (), upd_cancel (λ _, q) (upd_ring (λ _, r) w)).

(** ** Dispatch *)

(** [launch_fiber]: count the fiber and post it; its context is its index *)
Definition launch_fiber (work : nat) : cxx worker () :=
  _ ← modify (upd_pool (λ p, {| running_ := running_ p; work_queue_ := work_queue_ p;
         eventfd_ := eventfd_ p; in_flight_ := S (in_flight_ p) |}));
  ctx ← gets (λ w, length (w_fibers w));
  _ ← modify (upd_fibers (λ fs, fs ++ [work]));
  awakened ctx.

(** what the fiber [tracked] of [launch_fiber] does after [fn()] returns: the
    result says whether it calls [shutdown_cv_.notify_all()] *)
Definition fiber_finished : cxx worker bool := λ w,
  (Ret (bool_decide (in_flight_ (w_pool w) = 1%nat)),
   upd_pool (λ p, {| running_ := running_ p; work_queue_ := work_queue_ p;
     eventfd_ := eventfd_ p; in_flight_ := pred (in_flight_ p) |}) w).

(** the queue's front, moved out under [mtx_]; an empty task when the queue is *)
Definition pop_work : cxx worker (option nat) := λ w,
  match work_queue_ (w_pool w) with
  | [] => (Ret None, w)
  | t :: q => (Ret t, upd_pool (λ p, {| running_ := running_ p; work_queue_ := q;
                eventfd_ := eventfd_ p; in_flight_ := in_flight_ p |}) w)
  end.

Definition is_running : cxx worker bool := gets (λ w, running_ (w_pool w)).

(** the virtual call [reinterpret_cast<cqe_handler*>(tag)->complete(...)]; no
    live object at that address is undefined *)
Definition dispatch_handler (tag res flags : Z) : cxx worker () := λ w,
  match w_handlers w !! tag with
  | None => (Undef, w)
  | Some h =>
      let '(o, (h', r)) := complete tag res flags (h, w_ring w) in
      (o, upd_handlers <[tag := h']> (upd_ring (λ _, r) w))
  end.

(** one iteration of the loop of [drain_cqes] *)
Definition handle_cqe (c : cqe) : cxx worker () :=
  if decide (cqe_data c = k_work_tag) then
    run1 ← is_running;
    _ ← (if (0 <=? cqe_res c) && run1 then
           work ← pop_work;
           match work with Some fn => launch_fiber fn | None => mret () end
         else mret ());
    run2 ← is_running;
    if run2 : bool then arm_work_efd else mret ()
  else if decide (cqe_data c = k_notify_tag) then
    _ ← flush_cancel_queue; arm_notify
  else if decide (cqe_data c = k_cancel_tag) then mret ()
  else dispatch_handler (cqe_data c) (cqe_res c) (cqe_flags c).

(** [drain_cqes], over the entries the kernel offers *)
Fixpoint drain_cqes (cs : list cqe) : cxx worker () :=
  match cs with
  | [] => mret ()
  | c :: cs => _ ← handle_cqe c; drain_cqes cs
  end.

(** [suspend_until(abs_time)], in nanoseconds; [None] is [time_point::max()] *)
Definition suspend_until (abs_time : option Z) (e : wait_env) : cxx worker () :=
  if we_peek e then drain_cqes (we_cqes e)
  else
    match abs_time with
    | None => if decide (we_wait e ≠ 0) then mret () else drain_cqes (we_cqes e)
    | Some t =>
        if t <=? we_now e then mret ()
        else if decide (we_wait_timeout e (timespec_of_ns (t - we_now e)) ≠ 0) then mret ()
        else drain_cqes (we_cqes e)
    end.

(** the constructor: [efd] is the eventfd, [init1] and [init2] the two ring
    initialisations with the rings they made; [init2] is tried on -EINVAL *)
Definition scheduler_ctor (efd errno : Z) (init1 init2 : Z * uring) (p : pool)
    (stops : gmap nat (stop_state (list Z))) (ps : nat) : outcome worker :=
  if efd <? 0 then Exn (SystemError errno)
  else
    let '(ret, r) := if decide (init1.1 = - EINVAL) then init2 else init1 in
    if ret <? 0 then Exn (SystemError (- ret))
    else
      let w := {| w_pool := p;
        w_sched := {| ring_ := r; ready_ := []; cancel_queue_ := []; notify_fd_ := 0 |};
        w_handlers := ∅; w_fibers := []; w_stops := stops; w_pool_stop := ps;
        w_fiber_stop := None |} in
      match (_ ← arm_work_efd; arm_notify) w with
      | (Ret _, w') => Ret w'
      | (Exn e, _) => Exn e
      | (Undef, _) => Undef
      | (Abort, _) => Abort
      | (Hang, _) => Hang
      end.
End scheduler.
Arguments sched : clear implicits.
Arguments sched L : rename.
Arguments worker : clear implicits.
Arguments worker L H : rename.

(** ** Lemmas *)

Section theory.
Context {L : Liburing} {HL : LiburingLaws L} {P : Promise} {H : Type} {HC : CqeHandler H}.
Context (fds : efd_bufs).
Implicit Types w : worker L H.

Abbreviation pending w := (sq_pending (w_ring w)).
Abbreviation submitted w := (sq_submitted (w_ring w)).

Lemma flush_cancels_spec q r :
  let k := (sq_entries r - length (sq_pending r))%nat in
  ∃ r', flush_cancels q r = (drop k q, r')
    ∧ sq_pending r' = sq_pending r ++ (cancel_sqe <$> take k q)
    ∧ sq_submitted r' = sq_submitted r ∧ sq_entries r' = sq_entries r.
Proof.
  revert r. induction q as [|u q IH]; intros r; simpl.
  { exists r. by rewrite drop_nil, take_nil, app_nil_r. }
  destruct (claim (cancel_sqe u) r) as [r1|] eqn:E.
  - destruct (claim_some _ _ _ E) as (Hp & Hs & He).
    assert (length (sq_pending r) < sq_entries r)%nat.
    { destruct (decide (length (sq_pending r) < sq_entries r)%nat) as [?|Hn]; [done|].
      rewrite (proj2 (claim_null (cancel_sqe u) r)) in E; [done|lia]. }
    destruct (IH r1) as (r' & -> & Hp' & Hs' & He').
    rewrite Hp, He, length_app in *. simpl in *.
    replace (sq_entries r - length (sq_pending r))%nat
      with (S (sq_entries r - (length (sq_pending r) + 1))) by lia. simpl.
    exists r'. split; [done|]. rewrite Hp', Hs', <-app_assoc, He'. done.
  - apply claim_null in E. exists r.
    replace (sq_entries r - length (sq_pending r))%nat with 0%nat by lia. simpl.
    by rewrite app_nil_r.
Qed.

Lemma fill_sqe_room e w :
  (length (pending w) < sq_entries (w_ring w))%nat →
  ∃ r, fill_sqe e w = (Ret (), upd_ring (λ _, r) w)
    ∧ sq_pending r = pending w ++ [e] ∧ sq_submitted r = submitted w
    ∧ sq_entries r = sq_entries (w_ring w).
Proof.
  intros Hlt. destruct (claim_room e (w_ring w) Hlt) as [r Hr].
  exists r. unfold fill_sqe. rewrite Hr. split; [done|]. by apply claim_some.
Qed.

Lemma fill_sqe_full e w :
  (sq_entries (w_ring w) ≤ length (pending w))%nat → fill_sqe e w = (Undef, w).
Proof.
  intros Hge. unfold fill_sqe.
  by rewrite (proj2 (claim_null e (w_ring w))).
Qed.

(** filling one entry and submitting it *)
Lemma fill_submit_room e w :
  (∀ r, submits_all r) → (length (pending w) < sq_entries (w_ring w))%nat →
  ∃ r, (_ ← fill_sqe e; _ ← submit; mret ()) w = (Ret (), upd_ring (λ _, r) w)
    ∧ sq_pending r = [] ∧ sq_submitted r = submitted w ++ pending w ++ [e]
    ∧ sq_entries r = sq_entries (w_ring w).
Proof.
  intros Hall Hlt. destruct (fill_sqe_room e w Hlt) as (r & Hf & Hp & Hs & He).
  destruct (submit_all r (Hall r)) as (Hs' & Hp' & He').
  exists (io_uring_submit r).2. split; [|rewrite Hs', Hp', He', Hs, Hp, He; done].
  bind_ret.
  unfold mbind, cxx_mbind, cxx_bind, submit, w_ring, upd_ring, upd_sched. simpl.
  by destruct (io_uring_submit r).
Qed.

Lemma handle_notify c w :
  cqe_data c = k_notify_tag →
  handle_cqe fds c w = (_ ← flush_cancel_queue; arm_notify fds) w.
Proof. intros Hc. unfold handle_cqe. rewrite Hc. done. Qed.

(** a worker after its cancel queue was flushed *)
Lemma flush_cancel_queue_spec w :
  let q := cancel_queue_ (w_sched w) in
  let k := (sq_entries (w_ring w) - length (pending w))%nat in
  ∃ r, flush_cancel_queue w = (Ret (), upd_cancel (λ _, drop k q) (upd_ring (λ _, r) w))
    ∧ sq_pending r = pending w ++ (cancel_sqe <$> take k q)
    ∧ sq_submitted r = submitted w ∧ sq_entries r = sq_entries (w_ring w).
Proof.
  simpl. unfold flush_cancel_queue.
  destruct (flush_cancels_spec (cancel_queue_ (w_sched w)) (w_ring w)) as (r & -> & Hr).
  by exists r.
Qed.

(** a notify completion with room for every queued cancellation *)
Lemma notify_flushes c w :
  (∀ r : uring, submits_all r) → cqe_data c = k_notify_tag → pending w = [] →
  (length (cancel_queue_ (w_sched w)) < sq_entries (w_ring w))%nat →
  ∃ r, handle_cqe fds c w = (Ret (), upd_cancel (λ _, []) (upd_ring (λ _, r) w))
    ∧ sq_submitted r = submitted w ++ (cancel_sqe <$> cancel_queue_ (w_sched w)) ++ [notify_sqe fds]
    ∧ sq_pending r = [] ∧ sq_entries r = sq_entries (w_ring w).
Proof.
  intros Hall Hc Hp Hlen.
  destruct (flush_cancel_queue_spec w) as (r & Hf & Hp2 & Hs2 & He2).
  rewrite Hp in *. simpl in *. rewrite Nat.sub_0_r in *.
  rewrite take_ge in Hp2 by lia. rewrite drop_ge in Hf by lia.
  set (w2 := upd_cancel (λ _, []) (upd_ring (λ _, r) w)) in *.
  destruct (fill_submit_room (notify_sqe fds) w2) as (r3 & Ha & Hp3 & Hs3 & He3); [done| |].
  { change (w_ring w2) with r. rewrite Hp2, He2, length_fmap. lia. }
  change (w_ring w2) with r in *.
  exists r3. split; [|by rewrite Hs3, Hp2, Hs2, He3, He2].
  rewrite handle_notify by done. bind_ret. exact Ha.
Qed.

(** a notify completion with as many cancellations queued as the ring has
    entries: none is left for [arm_notify] *)
Lemma notify_overflows c w :
  cqe_data c = k_notify_tag → (sq_entries (w_ring w) ≤ length (cancel_queue_ (w_sched w)))%nat →
  ∃ w', handle_cqe fds c w = (Undef, w').
Proof.
  intros Hc Hlen. destruct (flush_cancel_queue_spec w) as (r & Hf & Hp2 & Hs2 & He2).
  eexists. rewrite handle_notify by done. bind_ret. unfold arm_notify.
  apply cxx_bind_undef, fill_sqe_full.
  change (w_ring (upd_cancel _ (upd_ring (λ _, r) w))) with r.
  rewrite Hp2, He2, length_app, length_fmap, length_take. lia.
Qed.

Lemma handle_dispatch c w :
  k_cancel_tag < cqe_data c →
  handle_cqe fds c w = dispatch_handler (cqe_data c) (cqe_res c) (cqe_flags c) w.
Proof.
  intros Hc. unfold handle_cqe.
  rewrite !decide_False by (unfold k_work_tag, k_notify_tag, k_cancel_tag in *; lia). done.
Qed.

Lemma request_cancel_all_spec ts w :
  ∃ w', request_cancel_all ts w = (Ret (), w')
    ∧ cancel_queue_ (w_sched w') = cancel_queue_ (w_sched w) ++ ts
    ∧ notify_fd_ (w_sched w') = (notify_fd_ (w_sched w) + length ts)%nat
    ∧ w_ring w' = w_ring w ∧ ready_ (w_sched w') = ready_ (w_sched w)
    ∧ w_handlers w' = w_handlers w ∧ w_stops w' = w_stops w ∧ w_pool w' = w_pool w
    ∧ w_fiber_stop w' = w_fiber_stop w ∧ w_pool_stop w' = w_pool_stop w.
Proof.
  revert w. induction ts as [|t ts IH]; intros w; simpl.
  { exists w. rewrite app_nil_r. split; [done|]. split; [done|]. split; [lia|done]. }
  bind_ret.
  destruct (IH (upd_notify S (upd_cancel (λ q, q ++ [t]) w)))
    as (w' & -> & Hc & Hn & Hrest).
  exists w'. split; [done|]. rewrite Hc, Hn. simpl. rewrite <-app_assoc.
  split; [done|]. split; [lia|done].
Qed.

Lemma drain_one c w w' : handle_cqe fds c w = (Ret (), w') → drain_cqes fds [c] w = (Ret (), w').
Proof. intros E. simpl. by bind_ret. Qed.

(** the task a successful work completion takes from a queue *)
Definition taken (res : Z) (q : list (option nat)) : option nat :=
  if 0 <=? res then mjoin (head q) else None.

(** one work completion *)
Lemma handle_work res flags w :
  (∀ r : uring, submits_all r) → pending w = [] → (0 < sq_entries (w_ring w))%nat →
  ∃ w', handle_cqe fds (Cqe k_work_tag res flags) w = (Ret (), w') ∧
    (if running_ (w_pool w) then
      let t := taken res (work_queue_ (w_pool w)) in
      w_fibers w' = w_fibers w ++ option_list t
      ∧ in_flight_ (w_pool w') = (in_flight_ (w_pool w) + length (option_list t))%nat
      ∧ ready_ (w_sched w') =
          ready_ (w_sched w) ++ (if t is Some _ then [length (w_fibers w)] else [])
      ∧ work_queue_ (w_pool w') =
          (if 0 <=? res then tail (work_queue_ (w_pool w)) else work_queue_ (w_pool w))
      ∧ running_ (w_pool w') = true
      ∧ submitted w' = submitted w ++ [work_sqe fds]
    else w' = w)
    ∧ w_handlers w' = w_handlers w ∧ pending w' = [] ∧ sq_entries (w_ring w') = sq_entries (w_ring w)
    ∧ cancel_queue_ (w_sched w') = cancel_queue_ (w_sched w)
    ∧ eventfd_ (w_pool w') = eventfd_ (w_pool w).
Proof.
  intros Hall Hp He. unfold handle_cqe. rewrite decide_True by done. cbn [cqe_res].
  bind_ret. destruct (running_ (w_pool w)) eqn:Hrun; last first.
  { rewrite andb_false_r. bind_ret.
    bind_ret. rewrite Hrun. by exists w. }
  rewrite andb_true_r.
  (* the task taken, if any, and then the re-arm on the same ring *)
  assert (∃ w1, (if 0 <=? res then work ← pop_work;
      match work with Some fn => launch_fiber fn | None => mret () end else mret ()) w
      = (Ret (), w1)
    ∧ w_fibers w1 = w_fibers w ++ option_list (taken res (work_queue_ (w_pool w)))
    ∧ in_flight_ (w_pool w1) = (in_flight_ (w_pool w)
        + length (option_list (taken res (work_queue_ (w_pool w)))))%nat
    ∧ ready_ (w_sched w1) = ready_ (w_sched w) ++
        (if taken res (work_queue_ (w_pool w)) is Some _ then [length (w_fibers w)] else [])
    ∧ work_queue_ (w_pool w1) =
        (if 0 <=? res then tail (work_queue_ (w_pool w)) else work_queue_ (w_pool w))
    ∧ running_ (w_pool w1) = true ∧ w_ring w1 = w_ring w ∧ w_handlers w1 = w_handlers w
    ∧ cancel_queue_ (w_sched w1) = cancel_queue_ (w_sched w)
    ∧ eventfd_ (w_pool w1) = eventfd_ (w_pool w))
    as (w1 & Hw1 & Hfib & Hinf & Hrdy & Hq & Hr1 & Hring & Hhd & Hcq & Hefd).
  { unfold taken, pop_work. destruct (0 <=? res).
    - unfold mbind, cxx_mbind, cxx_bind.
      destruct (work_queue_ (w_pool w)) as [|[fn|] q] eqn:Eq; eexists; (split; [done|]); simpl;
        rewrite ?Eq, ?app_nil_r, ?Nat.add_0_r, ?Nat.add_1_r; done.
    - exists w. simpl. by rewrite !app_nil_r, Nat.add_0_r. }
  bind_ret. bind_ret. rewrite Hr1.
  destruct (fill_submit_room (work_sqe fds) w1) as (r & Ha & Hp' & Hs & He');
    [done|rewrite Hring, Hp; done|].
  exists (upd_ring (λ _, r) w1). split; [exact Ha|]. simpl.
  change (w_ring (upd_ring (λ _, r) w1)) with r. rewrite Hs, Hp', He', Hring, Hp. done.
Qed.

(** one completion for a handler of a derived class *)
Lemma handle_derived {X} {D : DerivedHandler H X} {f} {DL : DerivedHandlerLaws H X D f} c w x :
  k_cancel_tag < cqe_data c → w_handlers w !! cqe_data c = Some (upcast x) →
  handle_cqe fds c w =
  let '(o, (x', r)) := f (cqe_data c) (cqe_res c) (cqe_flags c) (x, w_ring w) in
  (o, upd_handlers <[cqe_data c := upcast x']> (upd_ring (λ _, r) w)).
Proof.
  intros Hc Hh. rewrite handle_dispatch by done. unfold dispatch_handler. rewrite Hh.
  rewrite complete_upcast. by destruct (f _ _ _ _) as [? [? ?]].
Qed.

(** one completion for an awaitable that has none yet *)
Lemma handle_awaitable {HP : PromiseLaws P} {HCL : CqeHandlerLaws H HC} c w p :
  k_cancel_tag < cqe_data c →
  w_handlers w !! cqe_data c = Some (io_awaitable p) → promise_value p = None →
  ∃ p', promise_value p' = Some (cqe_res c)
    ∧ handle_cqe fds c w =
        (Ret (), upd_handlers <[cqe_data c := io_awaitable p']> (upd_ring id w)).
Proof.
  intros Hc Hh Hp. rewrite handle_dispatch by done. unfold dispatch_handler. rewrite Hh.
  rewrite complete_awaitable. unfold io_awaitable_complete.
  destruct (promise_set_fresh _ (cqe_res c) p Hp) as (p' & -> & Hp'). by exists p'.
Qed.
End theory.

(** ** Properties *)

Section properties.
Context {L : Liburing} {P : Promise} {H : Type} {HC : CqeHandler H}.
Context (fds : efd_bufs).
Implicit Types w : worker L H.

(** A cancellation request reaches the kernel: when stop callbacks have
    queued requests for [targets] on a worker whose ring has room for them
    and for one entry more, the worker's next notify completion passes one
    IORING_OP_ASYNC_CANCEL per request to the kernel, in the order of the
    requests, arms the notify read again, and leaves the queue empty. *)
Theorem cancel_requests_submitted (HL : LiburingLaws L) (Hall : ∀ r : uring, submits_all r)
    targets c w :
  cqe_data c = k_notify_tag →
  cancel_queue_ (w_sched w) = [] → sq_pending (w_ring w) = [] →
  (length targets < sq_entries (w_ring w))%nat →
  ∃ w', (_ ← request_cancel_all targets; drain_cqes fds [c]) w = (Ret (), w')
    ∧ sq_submitted (w_ring w') =
        sq_submitted (w_ring w) ++ (cancel_sqe <$> targets) ++ [notify_sqe fds]
    ∧ sq_pending (w_ring w') = [] ∧ cancel_queue_ (w_sched w') = [].
Proof.
  intros Hc Hq Hp Hlen.
  destruct (request_cancel_all_spec targets w) as (w1 & Hr & Hq1 & _ & Hring & _).
  rewrite Hq in Hq1. simpl in Hq1.
  destruct (notify_flushes fds c w1) as (r & E & Hs & Hp' & _); [done..| | |].
  { by rewrite Hring. }
  { by rewrite Hq1, Hring. }
  rewrite Hq1, Hring in Hs. exists (upd_cancel (λ _, []) (upd_ring (λ _, r) w1)).
  bind_ret. simpl. by bind_ret.
Qed.

(** The flush has no bound on the entries it takes: once the queued
    cancellation requests fill the submission queue, the notify handler
    re-arms its read through the NULL entry [io_uring_get_sqe] returns.  A
    worker with 256 or more requests queued, as when a pool stop cancels 256
    operations in flight on one thread, reaches undefined behaviour in
    [arm_notify] instead of leaving the rest for the next wakeup. *)
Theorem cancel_storm_null_sqe (HL : LiburingLaws L) targets c w :
  cqe_data c = k_notify_tag →
  cancel_queue_ (w_sched w) = [] → sq_entries (w_ring w) = k_ring_entries →
  (k_ring_entries ≤ length targets)%nat →
  ((_ ← request_cancel_all targets; drain_cqes fds [c]) w).1 = Undef.
Proof.
  intros Hc Hq He Hlen.
  destruct (request_cancel_all_spec targets w) as (w1 & Hr & Hq1 & _ & Hring & _).
  bind_ret. simpl. rewrite Hq in Hq1. simpl in Hq1.
  destruct (notify_overflows fds c w1 Hc) as [w2 E]; [rewrite Hring, He, Hq1; lia|].
  by erewrite cxx_bind_undef by exact E.
Qed.

(** Completions are delivered: draining any batch of completions of
    distinct operations whose awaitables are alive and unfulfilled succeeds,
    and fulfils each awaitable's promise with its own result; no other
    handler, no queue and no submission is touched. *)
Theorem drain_delivers (HP : PromiseLaws P) (HCL : CqeHandlerLaws H HC) cs w :
  NoDup (cqe_data <$> cs) →
  (∀ c, c ∈ cs → k_cancel_tag < cqe_data c ∧
    ∃ p, w_handlers w !! cqe_data c = Some (io_awaitable p) ∧ promise_value p = None) →
  ∃ w', drain_cqes fds cs w = (Ret (), w') ∧ w_ring w' = w_ring w
    ∧ w_pool w' = w_pool w ∧ w_sched w' = w_sched w
    ∧ (∀ c, c ∈ cs → ∃ p, w_handlers w' !! cqe_data c = Some (io_awaitable p)
                           ∧ promise_value p = Some (cqe_res c))
    ∧ (∀ a, a ∉ cqe_data <$> cs → w_handlers w' !! a = w_handlers w !! a).
Proof.
  revert w. induction cs as [|c cs IH]; intros w Hnd Hlive; simpl.
  { exists w. repeat split; try done. by intros c ?%not_elem_of_nil. }
  rewrite fmap_cons, NoDup_cons in Hnd. destruct Hnd as [Hnotin Hnd].
  destruct (Hlive c) as (Ht & p & Hh & Hp); [by left|].
  destruct (handle_awaitable fds c w p Ht Hh Hp) as (p' & Hp' & Hstep).
  bind_ret.
  set (w1 := upd_handlers _ (upd_ring id w)) in *.
  assert (w_sched w1 = w_sched w) as Hs1.
  { unfold w1. simpl. by destruct (w_sched w). }
  destruct (IH w1) as (w' & Hd & Hring & Hpool & Hsch & Hdel & Hfr); [done| |].
  { intros d Hd. destruct (Hlive d) as (? & q & ? & ?); [by right|]. split; [done|].
    exists q. split; [|done]. unfold w1. simpl.
    rewrite lookup_insert_ne; [done|]. intros He. rewrite He in Hnotin.
    by apply Hnotin, list_elem_of_fmap_2. }
  exists w'. split; [done|]. split; [by rewrite Hring; unfold w_ring; rewrite Hs1|].
  split; [by rewrite Hpool|]. split; [by rewrite Hsch|]. split.
  - intros d [->|Hd']%elem_of_cons; [|by apply Hdel]. exists p'. split; [|done].
    rewrite Hfr by done. unfold w1. simpl. by rewrite lookup_insert_eq.
  - intros a. rewrite not_elem_of_cons. intros [Ha ?]. rewrite Hfr by done.
    unfold w1. simpl. by rewrite lookup_insert_ne.
Qed.

(** What one work completion does, on every branch.  A stopped pool does
    nothing: no task is taken and the work read is not armed again.  A
    running pool takes one task off the shared queue when the read
    succeeded, starts exactly one fiber for it, counted in [in_flight_] and
    put last in the ready queue, starts none for an empty queue or an empty
    task, and always arms the read of the work eventfd again. *)
Theorem work_cqe_dispatch (HL : LiburingLaws L) (Hall : ∀ r : uring, submits_all r)
    res flags w :
  sq_pending (w_ring w) = [] → (0 < sq_entries (w_ring w))%nat →
  ∃ w', handle_cqe fds (Cqe k_work_tag res flags) w = (Ret (), w') ∧
    if running_ (w_pool w) then
      let t := taken res (work_queue_ (w_pool w)) in
      w_fibers w' = w_fibers w ++ option_list t
      ∧ in_flight_ (w_pool w') = (in_flight_ (w_pool w) + length (option_list t))%nat
      ∧ ready_ (w_sched w') =
          ready_ (w_sched w) ++ (if t is Some _ then [length (w_fibers w)] else [])
      ∧ work_queue_ (w_pool w') =
          (if 0 <=? res then tail (work_queue_ (w_pool w)) else work_queue_ (w_pool w))
      ∧ running_ (w_pool w') = true
      ∧ sq_submitted (w_ring w') = sq_submitted (w_ring w) ++ [work_sqe fds]
      ∧ w_handlers w' = w_handlers w
    else w' = w.
Proof.
  intros Hp He. destruct (handle_work fds res flags w Hall Hp He) as (w' & E & Hw' & Hhd & _).
  exists w'. split; [exact E|]. destruct (running_ (w_pool w)); [|done].
  destruct Hw' as (? & ? & ? & ? & ? & ?). by split_and!.
Qed.

(** The scheduler sleeps for the time that is left and no longer: with no
    completion ready, a deadline that has passed returns at once and
    untouched; otherwise the timed wait is given a normalised timespec equal
    to the time left, and the completions are drained exactly when that wait
    reports one. *)
Theorem suspend_until_deadline t e w :
  we_peek e = false →
  if t <=? we_now e then suspend_until fds (Some t) e w = (Ret (), w)
  else ∃ ts, tv_sec ts * 1000000000 + tv_nsec ts = t - we_now e
    ∧ 0 ≤ tv_sec ts ∧ 0 ≤ tv_nsec ts < 1000000000
    ∧ suspend_until fds (Some t) e w =
        if decide (we_wait_timeout e ts = 0) then drain_cqes fds (we_cqes e) w else (Ret (), w).
Proof.
  intros Hp. unfold suspend_until. rewrite Hp.
  destruct (Z.leb_spec t (we_now e)) as [?|Hlt]; [done|].
  exists (timespec_of_ns (t - we_now e)).
  split; [apply timespec_of_ns_total|].
  destruct (timespec_of_ns_normal (t - we_now e)) as [? ?]; [lia|].
  split; [done|]. split; [done|]. repeat case_decide; done.
Qed.

(** The constructor: a failed eventfd or a failed ring initialisation is
    reported as a [std::system_error] with its errno; a kernel that rejects
    the setup flags with EINVAL gets a second, plain initialisation; and on
    success both eventfd reads have been passed to the kernel. *)
Theorem scheduler_ctor_arms (HL : LiburingLaws L) (Hall : ∀ r : uring, submits_all r)
    efd errno init1 init2 p stops ps :
  let '(ret, r) := if decide (init1.1 = - EINVAL) then init2 else init1 in
  (0 ≤ ret → sq_pending r = [] ∧ sq_submitted r = [] ∧ (0 < sq_entries r)%nat) →
  if efd <? 0 then
    scheduler_ctor (H := H) fds efd errno init1 init2 p stops ps = Exn (SystemError errno)
  else if ret <? 0 then
    scheduler_ctor (H := H) fds efd errno init1 init2 p stops ps = Exn (SystemError (- ret))
  else ∃ w, scheduler_ctor (H := H) fds efd errno init1 init2 p stops ps = Ret w
    ∧ sq_submitted (w_ring w) = [work_sqe fds; notify_sqe fds]
    ∧ sq_pending (w_ring w) = [] ∧ w_pool w = p.
Proof.
  destruct (if decide (init1.1 = - EINVAL) then init2 else init1) as [ret r] eqn:Ei.
  intros Hok. unfold scheduler_ctor. rewrite Ei.
  destruct (efd <? 0); [done|]. destruct (Z.ltb_spec ret 0) as [?|Hge]; [done|].
  destruct (Hok Hge) as (Hp & Hs & He).
  match goal with |- context [Worker p ?s ∅ [] stops ps None] =>
    set (w := Worker p s ∅ [] stops ps None : worker L H) end.
  destruct (fill_submit_room (work_sqe fds) w) as (r1 & H1 & Hp1 & Hs1 & He1);
    [done|by change (w_ring w) with r; rewrite Hp|].
  change (w_ring w) with r in *. rewrite Hp, Hs in Hs1. simpl in Hs1.
  destruct (fill_submit_room (notify_sqe fds) (upd_ring (λ _, r1) w)) as (r2 & H2 & Hp2 & Hs2 & _);
    [done|by change (w_ring (upd_ring _ w)) with r1; rewrite Hp1, He1|].
  change (w_ring (upd_ring (λ _, r1) w)) with r1 in *. rewrite Hp1, Hs1 in Hs2.
  exists (upd_ring (λ _, r2) w).
  assert ((_ ← arm_work_efd fds; arm_notify fds) w = (Ret (), upd_ring (λ _, r2) w)) as ->.
  { erewrite cxx_bind_ret by exact H1. exact H2. }
  change (w_ring (upd_ring (λ _, r2) w)) with r2. by rewrite Hs2, Hp2.
Qed.
End properties.

(** ** Witnesses *)

(** the interface with no handler but [io_awaitable] *)
Module OnlyAwaitable.
Import ListUring CellPromise.

Definition complete (this res flags : Z) : cxx (option Z * ring) () := λ '(p, r),
  match io_awaitable_complete res p with
  | Ret p' => (Ret (), (p', r))
  | _ => (Abort, (p, r))
  end.

#[export] Instance only_awaitable : CqeHandler (L := list_uring) (P := cell_promise) (option Z) := {|
  Scheduler.complete := complete; io_awaitable p := p; as_awaitable p := Some p |}.

#[export] Instance only_awaitable_laws :
  CqeHandlerLaws (L := list_uring) (P := cell_promise) (option Z) only_awaitable.
Proof. by split. Qed.

Definition bufs : efd_bufs := EfdBufs 3 4096 4 4104.

(** a worker of a running pool, with one task queued and one read in flight *)
Definition one_worker (awaiting : gmap Z (option Z)) : worker list_uring (option Z) :=
  {| w_pool := {| running_ := true; work_queue_ := [Some 7%nat]; eventfd_ := 0; in_flight_ := 0 |};
     w_sched := {| ring_ := fresh k_ring_entries; ready_ := []; cancel_queue_ := [];
                   notify_fd_ := 0 |};
     w_handlers := awaiting; w_fibers := []; w_stops := ∅; w_pool_stop := 0%nat;
     w_fiber_stop := None |}.
End OnlyAwaitable.

Section witnesses.
Import ListUring CellPromise OnlyAwaitable.

Lemma cancel_requests_submitted_witness :
  ∃ w', (_ ← request_cancel_all [4096; 8192]; drain_cqes bufs [Cqe k_notify_tag 8 0])
          (one_worker ∅) = (Ret (), w')
    ∧ sq_submitted (w_ring w') = [cancel_sqe 4096; cancel_sqe 8192; notify_sqe bufs]
    ∧ sq_pending (w_ring w') = [] ∧ cancel_queue_ (w_sched w') = [].
Proof.
  apply (cancel_requests_submitted bufs list_uring_laws list_uring_submits_all
           [4096; 8192] (Cqe k_notify_tag 8 0) (one_worker ∅)); try reflexivity.
  all: simpl; unfold k_ring_entries; lia.
Defined.

Lemma cancel_storm_null_sqe_witness :
  ((_ ← request_cancel_all (replicate 256 4096); drain_cqes bufs [Cqe k_notify_tag 8 0])
     (one_worker ∅)).1 = Undef.
Proof.
  apply (cancel_storm_null_sqe bufs list_uring_laws); try reflexivity.
  all: rewrite length_replicate; unfold k_ring_entries; lia.
Defined.

Lemma drain_delivers_witness :
  ∃ w', drain_cqes bufs [Cqe 4096 64 0; Cqe 8192 (-125) 0]
          (one_worker {[ 4096 := None; 8192 := None ]}) = (Ret (), w')
    ∧ w_ring w' = fresh k_ring_entries
    ∧ (∀ c, c ∈ [Cqe 4096 64 0; Cqe 8192 (-125) 0] →
         ∃ p : option Z, w_handlers w' !! cqe_data c = Some p ∧ p = Some (cqe_res c)).
Proof.
  destruct (drain_delivers bufs cell_promise_laws only_awaitable_laws
    [Cqe 4096 64 0; Cqe 8192 (-125) 0] (one_worker {[ 4096 := None; 8192 := None ]}))
    as (w' & Hd & Hr & _ & _ & Hdel & _).
  - simpl. repeat constructor; set_solver.
  - intros c [->|[->|[]%not_elem_of_nil]%elem_of_cons]%elem_of_cons;
      (split; [unfold k_cancel_tag; simpl; lia|exists None; split; reflexivity]).
  - exists w'. split; [exact Hd|]. split; [exact Hr|exact Hdel].
Defined.

Lemma work_cqe_dispatch_witness :
  ∃ w', handle_cqe bufs (Cqe k_work_tag 8 0) (one_worker ∅) = (Ret (), w')
    ∧ w_fibers w' = [7%nat] ∧ in_flight_ (w_pool w') = 1%nat
    ∧ sq_submitted (w_ring w') = [work_sqe bufs].
Proof.
  destruct (work_cqe_dispatch bufs list_uring_laws list_uring_submits_all 8 0 (one_worker ∅))
    as (w' & He & Hw'); [reflexivity|simpl; unfold k_ring_entries; lia|].
  simpl in Hw'. destruct Hw' as (Hf & Hi & _ & _ & _ & Hs & _).
  exists w'. split; [exact He|]. split; [exact Hf|]. split; [exact Hi|exact Hs].
Defined.

Definition timed_out : wait_env := WaitEnv false 100 0 (λ _, - ETIME) [Cqe k_cancel_tag 0 0].

Lemma suspend_until_deadline_witness :
  ∃ ts, tv_sec ts * 1000000000 + tv_nsec ts = 1500000000
    ∧ 0 ≤ tv_sec ts ∧ 0 ≤ tv_nsec ts < 1000000000
    ∧ suspend_until bufs (Some 1500000100) timed_out (one_worker ∅) =
        if decide (we_wait_timeout timed_out ts = 0)
        then drain_cqes bufs [Cqe k_cancel_tag 0 0] (one_worker ∅) else (Ret (), one_worker ∅).
Proof. exact (suspend_until_deadline bufs 1500000100 timed_out (one_worker ∅) eq_refl). Defined.

Lemma scheduler_ctor_arms_witness :
  ∃ w, scheduler_ctor (H := option Z) bufs 5 0 (- EINVAL, fresh 0) (0, fresh 256)
         (Pool true [] 0 0) ∅ 0 = Ret w
    ∧ sq_submitted (w_ring w) = [work_sqe bufs; notify_sqe bufs]
    ∧ sq_pending (w_ring w) = [] ∧ w_pool w = Pool true [] 0 0.
Proof.
  apply (scheduler_ctor_arms bufs list_uring_laws list_uring_submits_all 5 0
           (- EINVAL, fresh 0) (0, fresh 256) (Pool true [] 0 0) ∅ 0%nat).
  intros _. simpl. repeat split; lia.
Defined.
End witnesses.
