(* ===== verification/Pool.v ===== *)
(** * Pool: [fiber_pool] and its worker threads (src/fiber_context.cpp)

    The pool's shared state and the steps of the threads that share it, at the
    grain of the code's atomic operations and critical sections: [post] and its
    two halves, [stop], the main fiber of [worker] that waits for shutdown, the
    handling of a work completion in [drain_cqes], and the end of a fiber
    started by [launch_fiber].  Each is a function that performs the next
    atomic action; [step] interleaves them arbitrarily with the kernel's
    completions of the work read.

    The condition variable and the mutex are Boost's: [wait] gives up the
    mutex and joins the wait queue in one step, [notify_all] empties the wait
    queue, and a fiber that leaves it has to take the mutex again.  A fiber that
    waits for the mutex does not hold up its thread. *)

From S2P Require Import Prelude Cxx.

(** ** State *)

(** Where [worker]'s main fiber is: before [lock()], at the two reads of the
    predicate of [shutdown_cv_.wait], between a false predicate and the wait
    queue, in the wait queue, and past the end of [worker]. *)
Inductive main_pc := MLock | MCheckRun | MCheckFlight | MSleep | MBlocked | MExit.

(** What the thread is doing: nothing in particular, running its main fiber,
    handling a work completion (before the first [running_.load], about to pop,
    about to launch the popped task, about to re-arm), or a finished fiber
    about to call [notify_all]. *)
Inductive act := ALoop | AMain | AWork | AWorkPop | AWorkLaunch (t : nat) | AWorkRearm | ANotify.

(** The thread's read of the work eventfd: in flight, completed and not yet
    drained ([true] when it read a token), or not armed. *)
Inductive rd := RArmed | RDone (ok : bool) | ROff.

Record thread := Thread {
  th_main : main_pc;
  th_act : act;
  th_read : rd;
  th_fibers : nat             (** fibers of this thread that have not finished *)
}.

(** Where [stop] is. *)
Inductive stop_pc := SIdle | SRequested | SLocked | SStored | SNotified | SDone.

Inductive owner := OStop | OThread (i : nat).

Record st := St {
  running : bool;
  queue : list nat;           (** [work_queue_] *)
  efd : nat;                  (** the work eventfd's count *)
  in_flight : nat;
  mtx : option owner;         (** [shutdown_mtx_] *)
  stopper : stop_pc;
  posters : nat;              (** calls of [post] between the push and the write *)
  threads : list thread;
  posted : list nat;          (** every task ever posted, oldest first *)
  popped : list nat;          (** every task ever popped, oldest first *)
  launched : list nat         (** every task a fiber was started for *)
}.

#[export] Instance main_pc_eq_dec : EqDecision main_pc.
Proof. solve_decision. Defined.
#[export] Instance act_eq_dec : EqDecision act.
Proof. solve_decision. Defined.
#[export] Instance rd_eq_dec : EqDecision rd.
Proof. solve_decision. Defined.
#[export] Instance stop_pc_eq_dec : EqDecision stop_pc.
Proof. solve_decision. Defined.
#[export] Instance owner_eq_dec : EqDecision owner.
Proof. solve_decision. Defined.

Definition set_threads (ths : list thread) (s : st) : st :=
  {| running := running s; queue := queue s; efd := efd s; in_flight := in_flight s;
     mtx := mtx s; stopper := stopper s; posters := posters s; threads := ths;
     posted := posted s; popped := popped s; launched := launched s |}.
Definition set_thread (i : nat) (th : thread) (s : st) : st :=
  set_threads (<[i := th]> (threads s)) s.
Definition set_mtx (o : option owner) (s : st) : st :=
  {| running := running s; queue := queue s; efd := efd s; in_flight := in_flight s;
     mtx := o; stopper := stopper s; posters := posters s; threads := threads s;
     posted := posted s; popped := popped s; launched := launched s |}.
Definition set_flight (n : nat) (s : st) : st :=
  {| running := running s; queue := queue s; efd := efd s; in_flight := n;
     mtx := mtx s; stopper := stopper s; posters := posters s; threads := threads s;
     posted := posted s; popped := popped s; launched := launched s |}.
Definition set_efd (n : nat) (s : st) : st :=
  {| running := running s; queue := queue s; efd := n; in_flight := in_flight s;
     mtx := mtx s; stopper := stopper s; posters := posters s; threads := threads s;
     posted := posted s; popped := popped s; launched := launched s |}.
Definition set_stop (b : bool) (pc : stop_pc) (s : st) : st :=
  {| running := b; queue := queue s; efd := efd s; in_flight := in_flight s;
     mtx := mtx s; stopper := pc; posters := posters s; threads := threads s;
     posted := posted s; popped := popped s; launched := launched s |}.

(** [shutdown_cv_.notify_all()]: every main fiber in the wait queue goes on to
    take the mutex *)
Definition wake (th : thread) : thread :=
  match th_main th with
  | MBlocked => {| th_main := MLock; th_act := th_act th; th_read := th_read th;
                   th_fibers := th_fibers th |}
  | _ => th
  end.
Definition notify_all (s : st) : st := set_threads (wake <$> threads s) s.

(** ** The code *)

(** [post]: the push under [mtx_] ... *)
Definition post_push (t : nat) (s : st) : st :=
  {| running := running s; queue := queue s ++ [t]; efd := efd s; in_flight := in_flight s;
     mtx := mtx s; stopper := stopper s; posters := S (posters s); threads := threads s;
     posted := posted s ++ [t]; popped := popped s; launched := launched s |}.

(** ... and the write of 1 to the eventfd *)
Definition post_write (s : st) : option st :=
  match posters s with
  | O => None
  | S n => Some {| running := running s; queue := queue s; efd := S (efd s);
      in_flight := in_flight s; mtx := mtx s; stopper := stopper s; posters := n;
      threads := threads s; posted := posted s; popped := popped s; launched := launched s |}
  end.

(** [stop]: request the stop of the pool's stop source, lock, store false,
    notify, unlock *)
Definition stop_step (s : st) : option st :=
  match stopper s with
  | SIdle => Some (set_stop (running s) SRequested s)
  | SRequested =>
      match mtx s with
      | None => Some (set_mtx (Some OStop) (set_stop (running s) SLocked s))
      | Some _ => None
      end
  | SLocked => Some (set_stop false SStored s)
  | SStored => Some (notify_all (set_stop (running s) SNotified s))
  | SNotified => Some (set_mtx None (set_stop (running s) SDone s))
  | SDone => None
  end.

Definition with_main (pc : main_pc) (a : act) (th : thread) : thread :=
  {| th_main := pc; th_act := a; th_read := th_read th; th_fibers := th_fibers th |}.
Definition with_act (a : act) (r : rd) (th : thread) : thread :=
  {| th_main := th_main th; th_act := a; th_read := r; th_fibers := th_fibers th |}.

(** the main fiber of thread [i]: [lock]; [while (!pred()) cv.wait(lk)]; return *)
Definition main_step (i : nat) (s : st) : option st :=
  th ← threads s !! i;
  match th_main th, th_act th with
  | MLock, ALoop =>
      match mtx s with
      | None => Some (set_mtx (Some (OThread i)) (set_thread i (with_main MCheckRun AMain th) s))
      | Some _ => None
      end
  | MCheckRun, AMain =>
      Some (set_thread i (with_main (if running s then MSleep else MCheckFlight) AMain th) s)
  | MCheckFlight, AMain =>
      if decide (in_flight s = 0)
      then Some (set_mtx None (set_thread i (with_main MExit ALoop th) s))
      else Some (set_thread i (with_main MSleep AMain th) s)
  | MSleep, AMain => Some (set_mtx None (set_thread i (with_main MBlocked ALoop th) s))
  | _, _ => None
  end.

(** the work branch of [drain_cqes] on thread [i] *)
Definition drain_step (i : nat) (s : st) : option st :=
  th ← threads s !! i;
  match th_act th, th_read th with
  | ALoop, RDone ok =>
      if decide (th_main th = MExit) then None
      else Some (set_thread i (with_act (if ok then AWork else AWorkRearm) ROff th) s)
  | AWork, r =>
      Some (set_thread i (with_act (if running s then AWorkPop else AWorkRearm) r th) s)
  | AWorkPop, r =>
      match queue s with
      | [] => Some (set_thread i (with_act AWorkRearm r th) s)
      | t :: q =>
          Some (set_thread i (with_act (AWorkLaunch t) r th)
            {| running := running s; queue := q; efd := efd s; in_flight := in_flight s;
               mtx := mtx s; stopper := stopper s; posters := posters s; threads := threads s;
               posted := posted s; popped := popped s ++ [t]; launched := launched s |})
      end
  | AWorkLaunch t, r =>
      Some (set_thread i {| th_main := th_main th; th_act := AWorkRearm; th_read := r;
                            th_fibers := S (th_fibers th) |}
        {| running := running s; queue := queue s; efd := efd s; in_flight := S (in_flight s);
           mtx := mtx s; stopper := stopper s; posters := posters s; threads := threads s;
           posted := posted s; popped := popped s; launched := launched s ++ [t] |})
  | AWorkRearm, r =>
      Some (set_thread i (with_act ALoop (if running s then RArmed else r) th) s)
  | _, _ => None
  end.

(** a fiber of thread [i] after [fn()] returned: [fetch_sub], and [notify_all]
    when it was the last.  A task that does not return never takes this step;
    the theorems that say what holds once no step is left are about tasks that
    do *)
Definition fiber_step (i : nat) (s : st) : option st :=
  th ← threads s !! i;
  match th_act th, th_fibers th with
  | ALoop, S n =>
      Some (set_flight (pred (in_flight s)) (set_thread i
        {| th_main := th_main th; th_act := if decide (in_flight s = 1) then ANotify else ALoop;
           th_read := th_read th; th_fibers := n |} s))
  | ANotify, _ => Some (notify_all (set_thread i (with_act ALoop (th_read th) th) s))
  | _, _ => None
  end.

(** the kernel completes the work read of thread [i], with a token or with an
    error *)
Definition kernel_read (i : nat) (ok : bool) (s : st) : option st :=
  th ← threads s !! i;
  match th_read th with
  | RArmed =>
      if ok then
        match efd s with
        | O => None
        | S n => Some (set_efd n (set_thread i (with_act (th_act th) (RDone true) th) s))
        end
      else Some (set_thread i (with_act (th_act th) (RDone false) th) s)
  | _ => None
  end.

Inductive step (s : st) : st → Prop :=
  | step_post t : step s (post_push t s)
  | step_write s' : post_write s = Some s' → step s s'
  | step_stop s' : stop_step s = Some s' → step s s'
  | step_main i s' : main_step i s = Some s' → step s s'
  | step_drain i s' : drain_step i s = Some s' → step s s'
  | step_fiber i s' : fiber_step i s = Some s' → step s s'
  | step_kernel i ok s' : kernel_read i ok s = Some s' → step s s'.

(** the members after construction, with [thread_count] workers started, each
    with its reads armed *)
Definition pool_init (thread_count : nat) : st :=
  {| running := true; queue := []; efd := 0; in_flight := 0; mtx := None; stopper := SIdle;
     posters := 0;
     threads := replicate thread_count
       {| th_main := MLock; th_act := ALoop; th_read := RArmed; th_fibers := 0 |};
     posted := []; popped := []; launched := [] |}.

(** the constructor; [efd] is what [::eventfd] returned *)
Definition pool_ctor (efd errno : Z) (thread_count : nat) : outcome st :=
  if (efd <? 0)%Z then Exn (SystemError errno) else Ret (pool_init thread_count).

(** the states of a pool whose constructor did not throw *)
Definition reachable (n : nat) (s : st) : Prop :=
  ∃ efd errno s0, pool_ctor efd errno n = Ret s0 ∧ rtc step s0 s.

(** the destructor's [join] returns when every worker has *)
Definition joined (s : st) : Prop := Forall (λ th, th_main th = MExit) (threads s).

(** ** Invariants *)

(** a token of the work eventfd that thread [th] has taken and not yet used *)
Definition tok (th : thread) : nat :=
  match th_read th with RDone true => 1 | _ => 0 end +
  match th_act th with AWork | AWorkPop => 1 | _ => 0 end.

(** the task thread [th] has popped and not yet launched *)
Definition in_hand (th : thread) : list nat :=
  match th_act th with AWorkLaunch t => [t] | _ => [] end.

Definition working (th : thread) : bool :=
  match th_act th with AWork | AWorkPop | AWorkLaunch _ | AWorkRearm => true | _ => false end.

Definition holding (th : thread) : bool :=
  match th_main th with MCheckRun | MCheckFlight | MSleep => true | _ => false end.

(** [stop] holds the mutex; [stop] has not cleared [running_] yet *)
Definition stop_holds (pc : stop_pc) : bool :=
  match pc with SLocked | SStored | SNotified => true | _ => false end.
Definition stop_before (pc : stop_pc) : bool :=
  match pc with SIdle | SRequested | SLocked => true | _ => false end.

(** Who holds what, thread by thread. *)
Record thread_ok (s : st) (i : nat) (th : thread) : Prop := {
  ok_main : th_act th = AMain ↔ holding th = true;
  ok_owner : holding th = true ↔ mtx s = Some (OThread i);
  ok_read : working th = true → th_read th = ROff;
  ok_armed : running s = true → working th = false → th_read th ≠ ROff;
  ok_flight : th_main th = MCheckFlight → running s = false;
  ok_exit : th_main th = MExit → th_fibers th = 0 ∧ th_act th = ALoop ∧ running s = false
}.

Record inv (s : st) : Prop := {
  inv_log : posted s = popped s ++ queue s;
  inv_hand : popped s ≡ₚ launched s ++ (threads s ≫= in_hand);
  inv_tok : efd s + posters s + sum_list_with tok (threads s) ≤ length (queue s);
  inv_tok_run : running s = true →
    efd s + posters s + sum_list_with tok (threads s) = length (queue s);
  inv_flight : in_flight s = sum_list_with th_fibers (threads s);
  inv_thread i th : threads s !! i = Some th → thread_ok s i th;
  inv_owner i : mtx s = Some (OThread i) → is_Some (threads s !! i);
  inv_stop : mtx s = Some OStop ↔ stop_holds (stopper s) = true;
  inv_run : running s = stop_before (stopper s)
}.

Section invariant.
Implicit Types s : st.

(** a step of one thread keeps the invariant if its own contribution does *)
Lemma inv_thread_step s s' i th th' :
  inv s → threads s !! i = Some th → threads s' = <[i := th']> (threads s) →
  running s' = running s → stopper s' = stopper s →
  (∀ o, o ≠ OThread i → mtx s' = Some o ↔ mtx s = Some o) →
  posted s' = popped s' ++ queue s' →
  popped s' ++ launched s ++ in_hand th ≡ₚ popped s ++ launched s' ++ in_hand th' →
  efd s' + posters s' + tok th' + length (queue s) ≤
    efd s + posters s + tok th + length (queue s') →
  (running s = true → efd s' + posters s' + tok th' + length (queue s) =
    efd s + posters s + tok th + length (queue s')) →
  in_flight s' + th_fibers th = in_flight s + th_fibers th' →
  thread_ok s' i th' →
  inv s'.
Proof.
  intros Hinv Hi Hths Hrun Hstop Hmtx Hlog Hhand Htok Htokr Hfl Hok.
  pose proof (sum_list_with_insert tok _ _ _ th' Hi) as Hst.
  pose proof (sum_list_with_insert th_fibers _ _ _ th' Hi) as Hsf.
  pose proof (bind_insert_Permutation in_hand _ _ _ th' Hi) as Hb.
  destruct Hinv as [_ Hh Ht Htr Hf Hthr Ho Hs Hr].
  split; rewrite ?Hths, ?Hrun, ?Hstop; try done; try lia.
  - apply (Permutation_app_inv_r (launched s ++ in_hand th)).
    etrans; [exact Hhand|]. rewrite Hh.
    transitivity (launched s ++ launched s' ++ ((threads s ≫= in_hand) ++ in_hand th'));
      [solve_Permutation|].
    rewrite <-Hb. solve_Permutation.
  - intros Hrn. specialize (Htokr Hrn). specialize (Htr Hrn). lia.
  - intros j thj [(<- & -> & _)|[Hne Hj]]%list_lookup_insert_cases; [done|].
    destruct (Hthr j thj Hj) as [H1 H2 H3 H4 H5 H6].
    split; rewrite ?Hrun; try done. rewrite Hmtx; [done|congruence].
  - intros j Hj. destruct (decide (j = i)) as [->|Hne].
    + rewrite list_lookup_insert_eq; [done|]. by eapply lookup_lt_Some.
    + rewrite list_lookup_insert_ne by done. apply Ho. rewrite <-Hmtx; [done|congruence].
  - by rewrite Hmtx.
Qed.

Lemma thread_ok_ext s s' i th :
  mtx s' = mtx s → running s' = running s → thread_ok s i th → thread_ok s' i th.
Proof. intros Hm Hr [H1 H2 H3 H4 H5 H6]. split; by rewrite ?Hm, ?Hr. Qed.

Lemma wake_facts th :
  tok (wake th) = tok th ∧ in_hand (wake th) = in_hand th ∧ th_fibers (wake th) = th_fibers th
  ∧ holding (wake th) = holding th ∧ working (wake th) = working th
  ∧ th_act (wake th) = th_act th ∧ th_read (wake th) = th_read th.
Proof. unfold tok, in_hand, holding, working, wake. by destruct (th_main th) eqn:E; simpl; rewrite ?E. Qed.

Lemma wake_ok s i th : thread_ok s i th → thread_ok s i (wake th).
Proof.
  destruct (wake_facts th) as (_ & _ & Hf & Hh & Hw & Ha & Hr).
  intros [H1 H2 H3 H4 H5 H6].
  split; rewrite ?Hf, ?Hh, ?Hw, ?Ha, ?Hr; try done.
  - unfold wake. by destruct (th_main th) eqn:E; simpl; rewrite ?E in *.
  - unfold wake. by destruct (th_main th) eqn:E; simpl; rewrite ?E in *.
Qed.

Lemma notify_all_inv s : inv s → inv (notify_all s).
Proof.
  intros [Hl Hh Ht Htr Hf Hthr Ho Hs Hr].
  assert (∀ f : thread → nat, (∀ th, f (wake th) = f th) →
    sum_list_with f (wake <$> threads s) = sum_list_with f (threads s)) as Hsum.
  { intros f Hfw. by apply sum_list_with_fmap. }
  assert ((wake <$> threads s) ≫= in_hand = threads s ≫= in_hand) as Hb.
  { clear. induction (threads s) as [|th l IH]; csimpl; [done|].
    rewrite IH. f_equal. apply wake_facts. }
  split; simpl; rewrite ?Hb, ?Hsum; try done; try apply wake_facts.
  - intros i th. rewrite list_lookup_fmap. intros (th0 & Hi & ->)%fmap_Some.
    apply (thread_ok_ext s); [done..|]. by apply wake_ok, Hthr.
  - intros i Hi%Ho. rewrite list_lookup_fmap. by apply fmap_is_Some.
Qed.

Lemma post_inv s t : inv s → inv (post_push t s).
Proof.
  intros [Hl Hh Ht Htr Hf Hthr Ho Hs Hr]. split; simpl; try done.
  - rewrite Hl. by rewrite app_assoc.
  - rewrite length_app. simpl. lia.
  - rewrite length_app. simpl. intros ?%Htr. lia.
  - intros i th Hi. destruct (Hthr i th Hi). by split.
Qed.

Lemma write_inv s s' : inv s → post_write s = Some s' → inv s'.
Proof.
  intros [Hl Hh Ht Htr Hf Hthr Ho Hs Hr]. unfold post_write.
  destruct (posters s) as [|n]; [done|]. intros [= <-].
  split; simpl; try done; try lia.
  - intros ?%Htr. lia.
  - intros i th Hi. destruct (Hthr i th Hi). by split.
Qed.

Lemma stop_inv s s' : inv s → stop_step s = Some s' → inv s'.
Proof.
  intros Hinv. unfold stop_step.
  destruct (stopper s) eqn:Es; intros Hs'.
  all: pose proof Hinv as [Hl Hh Ht Htr Hf Hthr Ho Hs Hr]; rewrite Es in Hs, Hr; simpl in Hs, Hr.
  - injection Hs' as <-. split; simpl; try done.
    intros i th Hi. destruct (Hthr i th Hi). by split.
  - destruct (mtx s) as [|] eqn:Em; [done|]. injection Hs' as <-.
    split; simpl; try done.
    intros i th Hi. destruct (Hthr i th Hi) as [H1 H2 H3 H4 H5 H6].
    split; simpl; try done. rewrite H2. naive_solver.
  - injection Hs' as <-. split; simpl; try done.
    intros i th Hi. destruct (Hthr i th Hi) as [H1 H2 H3 H4 H5 H6].
    split; simpl; try done. naive_solver.
  - injection Hs' as <-. apply notify_all_inv. split; simpl; try done.
    intros i th Hi. destruct (Hthr i th Hi). by split.
  - injection Hs' as <-. assert (mtx s = Some OStop) as Hm by (by apply Hs).
    split; simpl; try done.
    intros i th Hi. destruct (Hthr i th Hi) as [H1 H2 H3 H4 H5 H6].
    split; simpl; try done. rewrite H2, Hm. naive_solver.
  - done.
Qed.

(** case analysis on the control state of one thread *)
Ltac ctl := split; unfold holding, working in *; simpl in *; intuition (congruence || auto).

(** the side conditions of [inv_thread_step] that hold by computation *)
Ltac pool_step Hinv Hi :=
  eapply (inv_thread_step _ _ _ _ _ Hinv Hi); [reflexivity|..];
  cbn [running queue efd in_flight mtx stopper posters posted popped launched
       set_thread set_threads set_mtx set_flight set_efd th_main th_act th_read th_fibers
       with_main with_act in_hand tok];
  try reflexivity; try (apply (inv_log _ Hinv)); try lia.

Lemma main_inv s s' i : inv s → main_step i s = Some s' → inv s'.
Proof.
  intros Hinv. unfold main_step. destruct (threads s !! i) as [[m a r n]|] eqn:Hi; [|done]. simpl.
  pose proof (inv_thread s Hinv i _ Hi) as [H1 H2 H3 H4 H5 H6]. simpl in *.
  destruct m, a; try done.
  - destruct (mtx s) as [o|] eqn:Em; [done|]. intros [= <-]. pool_step Hinv Hi.
    + naive_solver.
    + ctl.
  - intros [= <-]. pool_step Hinv Hi.
    destruct (running s) eqn:Er; ctl.
  - intros Hs'. case_decide as Hz; injection Hs' as <-; pool_step Hinv Hi.
    + unfold holding in *; intuition congruence.
    + pose proof (sum_list_with_lookup th_fibers _ _ _ Hi) as Hle.
      rewrite <-(inv_flight s Hinv) in Hle. simpl in Hle.
      ctl; lia.
    + ctl.
  - intros [= <-]. pool_step Hinv Hi.
    + unfold holding in *; intuition congruence.
    + ctl.
Qed.

Lemma drain_inv s s' i : inv s → drain_step i s = Some s' → inv s'.
Proof.
  intros Hinv. unfold drain_step. destruct (threads s !! i) as [[m a r n]|] eqn:Hi; [|done]. simpl.
  pose proof (inv_thread s Hinv i _ Hi) as [H1 H2 H3 H4 H5 H6]. simpl in *.
  destruct a; try done.
  - destruct r as [|ok|]; try done. case_decide as Hm; [done|]. intros [= <-].
    destruct ok; pool_step Hinv Hi; ctl.
  - rewrite (H3 eq_refl) in *. intros [= <-].
    destruct (running s) eqn:Er; pool_step Hinv Hi; try (by ctl); try (unfold tok; simpl; lia);
      intros; congruence.
  - rewrite (H3 eq_refl) in *. destruct (queue s) as [|t q] eqn:Eq.
    + exfalso. pose proof (sum_list_with_lookup tok _ _ _ Hi) as Hle.
      pose proof (inv_tok s Hinv) as Ht. rewrite Eq in Ht. unfold tok in Hle at 1. simpl in Hle, Ht. lia.
    + intros [= <-]. pool_step Hinv Hi.
      * rewrite (inv_log _ Hinv), Eq. by rewrite <-app_assoc.
      * solve_Permutation.
      * rewrite Eq. unfold tok. simpl. lia.
      * rewrite Eq. unfold tok. simpl. lia.
      * ctl.
  - rewrite (H3 eq_refl) in *. intros [= <-]. pool_step Hinv Hi.
    + solve_Permutation.
    + ctl.
  - rewrite (H3 eq_refl) in *. intros [= <-]. pool_step Hinv Hi.
    + unfold tok; simpl. by destruct (running s).
    + unfold tok; simpl. by destruct (running s).
    + destruct (running s) eqn:Er; ctl.
Qed.

Lemma fiber_inv s s' i : inv s → fiber_step i s = Some s' → inv s'.
Proof.
  intros Hinv. unfold fiber_step. destruct (threads s !! i) as [[m a r n]|] eqn:Hi; [|done]. simpl.
  pose proof (inv_thread s Hinv i _ Hi) as [H1 H2 H3 H4 H5 H6]. simpl in *.
  pose proof (sum_list_with_lookup th_fibers _ _ _ Hi) as Hle.
  rewrite <-(inv_flight s Hinv) in Hle. simpl in Hle.
  destruct a; try done.
  - destruct n as [|n]; [done|]. intros [= <-].
    case_decide; pool_step Hinv Hi; ctl.
  - intros [= <-]. apply notify_all_inv.
    pool_step Hinv Hi. ctl.
Qed.

Lemma kernel_inv s s' i ok : inv s → kernel_read i ok s = Some s' → inv s'.
Proof.
  intros Hinv. unfold kernel_read. destruct (threads s !! i) as [[m a r n]|] eqn:Hi; [|done]. simpl.
  pose proof (inv_thread s Hinv i _ Hi) as [H1 H2 H3 H4 H5 H6]. simpl in *.
  destruct r; try done. destruct ok.
  - destruct (efd s) as [|k] eqn:Ee; [done|]. intros [= <-].
    pool_step Hinv Hi; [unfold tok; simpl; lia..|ctl].
  - intros [= <-]. pool_step Hinv Hi. ctl.
Qed.

Lemma step_inv s s' : inv s → step s s' → inv s'.
Proof.
  intros Hinv []; eauto using post_inv, write_inv, stop_inv, main_inv, drain_inv, fiber_inv, kernel_inv.
Qed.

Lemma pool_init_inv n : inv (pool_init n).
Proof.
  split; simpl; try done.
  - induction n; [done|]. by simpl.
  - induction n; simpl in *; lia.
  - intros _. induction n; simpl in *; lia.
  - induction n; simpl in *; lia.
  - intros i th [-> _]%lookup_replicate. split; simpl; naive_solver.
Qed.

Lemma reachable_init n s : reachable n s ↔ rtc step (pool_init n) s.
Proof.
  split.
  - intros (e & err & s0 & Hc & Hr). unfold pool_ctor in Hc. by destruct (e <? 0)%Z; simplify_eq.
  - intros Hr. by exists 0%Z, 0%Z, (pool_init n).
Qed.

Lemma reachable_step n s s' : reachable n s → rtc step s s' → reachable n s'.
Proof. rewrite !reachable_init. intros. by etrans. Qed.

Lemma reachable_inv n s : reachable n s → inv s.
Proof.
  intros Hr%reachable_init. pose proof (pool_init_inv n) as Hi.
  induction Hr; eauto using step_inv.
Qed.

(** with one worker, tasks are launched in the order they are popped *)
Definition in_order (s : st) : Prop :=
  length (threads s) = 1 → popped s = launched s ++ (threads s ≫= in_hand).

Lemma in_order_thread s s' i th th' :
  in_order s → threads s !! i = Some th → threads s' = <[i := th']> (threads s) →
  (popped s = launched s ++ in_hand th → popped s' = launched s' ++ in_hand th') → in_order s'.
Proof.
  unfold in_order. intros Ho Hi Hths Hth. rewrite Hths, length_insert.
  destruct (threads s) as [|th0 [|]]; try done. destruct i; simplify_eq/=.
  rewrite !app_nil_r in *. intros H1. auto.
Qed.

Lemma in_order_wake s : in_order s → in_order (notify_all s).
Proof.
  unfold in_order. simpl. rewrite length_fmap. intros Ho Hl. rewrite (Ho Hl). f_equal.
  clear. induction (threads s) as [|th l IH]; csimpl; [done|]. rewrite IH. f_equal. symmetry. apply wake_facts.
Qed.

Lemma in_order_step s s' : in_order s → step s s' → in_order s'.
Proof.
  intros Ho [t|s1 H|s1 H|i s1 H|i s1 H|i s1 H|i ok s1 H]; [exact Ho|revert H..];
    unfold post_write, stop_step, main_step, drain_step, fiber_step, kernel_read.
  { destruct (posters s); [done|]. by intros [= <-]. }
  { destruct (stopper s); repeat case_match; intros; simplify_eq; try exact Ho. by apply in_order_wake. }
  all: destruct (threads s !! i) as [[m a r k]|] eqn:Hi; [|done]; simpl.
  1, 4: repeat case_match; intros; simplify_eq; (eapply (in_order_thread _ _ _ _ _ Ho Hi); [reflexivity|done]).
  - destruct a; repeat case_match; intros; simplify_eq;
      (eapply (in_order_thread _ _ _ _ _ Ho Hi); [reflexivity|]); simpl; intros Heq;
      rewrite ?app_nil_r, ?Heq in *; try done; rewrite ?app_nil_r; done.
  - destruct a; repeat case_match; intros; simplify_eq; try apply in_order_wake;
      (eapply (in_order_thread _ _ _ _ _ Ho Hi); [reflexivity|done]).
Qed.

Lemma reachable_in_order n s : reachable n s → in_order s.
Proof.
  intros Hr%reachable_init. assert (in_order (pool_init n)) as Hi.
  { intros Hn. simpl in *. rewrite length_replicate in Hn. by subst n. }
  induction Hr; eauto using in_order_step.
Qed.
End invariant.

(** ** Progress of the workers

    [quiet] is [step] without new work ([post]'s push), without [stop], and
    with reads of the eventfd that succeed.  Fibers finish. *)

Inductive quiet (s : st) : st → Prop :=
  | quiet_write s' : post_write s = Some s' → quiet s s'
  | quiet_main i s' : main_step i s = Some s' → quiet s s'
  | quiet_drain i s' : drain_step i s = Some s' → quiet s s'
  | quiet_fiber i s' : fiber_step i s = Some s' → quiet s s'
  | quiet_kernel i s' : kernel_read i true s = Some s' → quiet s s'.

Definition main_weight (pc : main_pc) : nat :=
  match pc with MLock => 4 | MCheckRun => 3 | MCheckFlight => 2 | MSleep => 1 | _ => 0 end.
Definition fiber_weight (n : nat) : nat := 4 * n + 2.
Definition act_weight (n : nat) (a : act) : nat :=
  match a with
  | ALoop | AMain => 0
  | AWork => fiber_weight n + 4
  | AWorkPop => fiber_weight n + 3
  | AWorkLaunch _ => fiber_weight n + 2
  | AWorkRearm => 1
  | ANotify => 4 * n + 1
  end.
Definition read_weight (n : nat) (r : rd) : nat :=
  match r with RDone true => fiber_weight n + 5 | RDone false => 2 | _ => 0 end.
Definition thread_weight (n : nat) (th : thread) : nat :=
  main_weight (th_main th) + act_weight n (th_act th) + read_weight n (th_read th)
  + th_fibers th * fiber_weight n.

(** an upper bound on the number of quiet steps left *)
Definition weight (s : st) : nat :=
  let n := length (threads s) in
  posters s * (fiber_weight n + 7) + efd s * (fiber_weight n + 6)
  + sum_list_with (thread_weight n) (threads s).

Section progress.
Implicit Types s : st.

Lemma sum_wake n ths :
  sum_list_with (thread_weight n) (wake <$> ths) ≤ sum_list_with (thread_weight n) ths + 4 * length ths.
Proof.
  induction ths as [|th ths IH]; csimpl; [lia|].
  assert (thread_weight n (wake th) ≤ thread_weight n th + 4); [|lia].
  unfold thread_weight, wake. destruct (th_main th) eqn:E; simpl; rewrite ?E; simpl; lia.
Qed.

Lemma weight_notify_all s : weight (notify_all s) ≤ weight s + 4 * length (threads s).
Proof.
  unfold weight; simpl. rewrite length_fmap.
  pose proof (sum_wake (length (threads s)) (threads s)). lia.
Qed.

(** a step of thread [i] lowers the weight if it lowers the thread's share *)
Lemma weight_thread_step s s' i th th' d :
  threads s !! i = Some th → threads s' = <[i := th']> (threads s) → posters s' = posters s →
  let n := length (threads s) in
  d + efd s' * (fiber_weight n + 6) + thread_weight n th' <
    efd s * (fiber_weight n + 6) + thread_weight n th →
  d + weight s' < weight s.
Proof.
  intros Hi Hths Hp n Hlt. unfold weight. rewrite Hths, Hp, length_insert. fold n.
  pose proof (sum_list_with_insert (thread_weight n) _ _ _ th' Hi). lia.
Qed.

Ltac lighter Hi :=
  intros [= <-]; eapply (weight_thread_step _ _ _ _ _ 0 Hi); [reflexivity..|];
  cbn [efd set_thread set_threads set_mtx set_flight set_efd with_main with_act];
  unfold thread_weight; simpl; unfold fiber_weight; simpl.

Lemma main_weight_lt s s' i : main_step i s = Some s' → weight s' < weight s.
Proof.
  unfold main_step. destruct (threads s !! i) as [[m a r k]|] eqn:Hi; [|done]. simpl.
  destruct m, a; try done.
  - destruct (mtx s); [done|]. lighter Hi; lia.
  - destruct (running s); lighter Hi; lia.
  - case_decide; lighter Hi; lia.
  - lighter Hi; lia.
Qed.

Lemma drain_weight_lt s s' i : inv s → drain_step i s = Some s' → weight s' < weight s.
Proof.
  intros Hinv. unfold drain_step. destruct (threads s !! i) as [[m a r k]|] eqn:Hi; [|done]. simpl.
  pose proof (ok_read _ _ _ (inv_thread s Hinv i _ Hi)) as Hro. simpl in Hro.
  destruct a; try done; [|rewrite (Hro eq_refl)..].
  - destruct r as [|ok|]; try done. case_decide; [done|]. destruct ok; lighter Hi; lia.
  - destruct (running s); lighter Hi; lia.
  - destruct (queue s); lighter Hi; lia.
  - lighter Hi; lia.
  - destruct (running s); lighter Hi; lia.
Qed.

Lemma fiber_weight_lt s s' i : fiber_step i s = Some s' → weight s' < weight s.
Proof.
  unfold fiber_step. destruct (threads s !! i) as [[m a r k]|] eqn:Hi; [|done]. simpl.
  destruct a; try done.
  - destruct k; [done|]. case_decide; lighter Hi; lia.
  - intros [= <-]. eapply Nat.le_lt_trans; [apply weight_notify_all|]. simpl.
    rewrite length_insert, Nat.add_comm.
    eapply (weight_thread_step _ _ _ _ _ _ Hi); [reflexivity..|].
    unfold thread_weight; simpl. lia.
Qed.

Lemma kernel_weight_lt s s' i : kernel_read i true s = Some s' → weight s' < weight s.
Proof.
  unfold kernel_read. destruct (threads s !! i) as [[m a r k]|] eqn:Hi; [|done]. simpl.
  destruct r; try done. destruct (efd s) eqn:He; [done|].
  lighter Hi. rewrite He. lia.
Qed.

Lemma quiet_weight s s' : inv s → quiet s s' → weight s' < weight s.
Proof.
  intros Hinv [? Hs| | | |];
    eauto using main_weight_lt, drain_weight_lt, fiber_weight_lt, kernel_weight_lt.
  revert Hs. unfold post_write. destruct (posters s) eqn:E; [done|]. intros [= <-].
  unfold weight; simpl. rewrite E. lia.
Qed.

Lemma quiet_step s s' : quiet s s' → step s s'.
Proof. intros []; eauto using step. Qed.

(** ** States in which the workers have nothing left to do *)

Definition blocked (s : st) : Prop := ∀ s', ¬ quiet s s'.

(** a step function is not enabled in a blocked state *)
Lemma blocked_none s i :
  blocked s → main_step i s = None ∧ drain_step i s = None ∧ fiber_step i s = None
  ∧ kernel_read i true s = None ∧ post_write s = None.
Proof.
  intros Hb. split_and!; apply eq_None_not_Some; intros [s' Hs']; eapply Hb; eauto using quiet.
Qed.

Lemma blocked_mtx s :
  inv s → blocked s → stop_holds (stopper s) = false → mtx s = None.
Proof.
  intros Hinv Hb Hst. destruct (mtx s) as [[|i]|] eqn:Hm; [|exfalso|done].
  { apply (inv_stop s Hinv) in Hm. congruence. }
  destruct (inv_owner s Hinv i Hm) as [th Hi].
  pose proof (inv_thread s Hinv i _ Hi) as [H1 H2 _ _ _ _].
  apply H2 in Hm. apply H1 in Hm as Ha.
  destruct (blocked_none s i Hb) as [Hn _]. revert Hn. unfold main_step. rewrite Hi. simpl.
  rewrite Ha. unfold holding in Hm. destruct (th_main th); try done. by case_decide.
Qed.

(** the worker is parked in the condition variable, or gone *)
Lemma blocked_thread s i th :
  inv s → blocked s → stop_holds (stopper s) = false → threads s !! i = Some th →
  th_act th = ALoop ∧ (th_main th = MBlocked ∨ th_main th = MExit) ∧ th_fibers th = 0
  ∧ (th_read th = RArmed ∧ efd s = 0 ∨ running s = false).
Proof.
  intros Hinv Hb Hst Hi. pose proof (blocked_mtx s Hinv Hb Hst) as Hm.
  pose proof (inv_thread s Hinv i _ Hi) as [H1 H2 H3 H4 H5 H6].
  destruct (blocked_none s i Hb) as (Hbm & Hbd & Hbf & Hbk & _).
  revert Hbm Hbd Hbf Hbk. unfold main_step, drain_step, fiber_step, kernel_read.
  rewrite Hi, Hm in *; simpl. destruct th as [m a r k]; simpl in *.
  assert (a ≠ AMain) as Ha. { intros E. apply H1, H2 in E. done. }
  intros Hbm Hbd Hbf Hbk.
  assert (a = ALoop) as -> by (destruct a; try done; destruct (queue s); done).
  split; [done|]. split_and!.
  - unfold holding in *. destruct m; simpl in *; try done; auto; exfalso; apply Ha, H1; done.
  - by destruct k.
  - destruct r as [|ok|].
    + left. by destruct (efd s).
    + right. case_decide; [|done]. by apply H6.
    + right. destruct (running s); [|done]. by destruct H4.
Qed.

Lemma sum_list_with_zero {A} (f : A → nat) l :
  (∀ i x, l !! i = Some x → f x = 0) → sum_list_with f l = 0.
Proof.
  induction l as [|x l IH]; simpl; [done|]. intros H.
  rewrite (H 0 x), IH; [done|intros i y; apply (H (S i))|done].
Qed.

Lemma quiet_keeps s s' :
  quiet s s' → stopper s' = stopper s ∧ running s' = running s ∧ posted s' = posted s.
Proof.
  intros [s1 H|i s1 H|i s1 H|i s1 H|i s1 H]; revert H;
    unfold post_write, main_step, drain_step, fiber_step, kernel_read;
    try (destruct (threads s !! i); [|done]); simpl; repeat case_match; intros [= <-]; done.
Qed.

Lemma quiets_keep s s' :
  rtc quiet s s' → inv s →
  inv s' ∧ stopper s' = stopper s ∧ running s' = running s ∧ posted s' = posted s.
Proof.
  induction 1 as [|s s1 s2 Hq _ IH]; [done|]. intros Hinv.
  destruct (quiet_keeps _ _ Hq) as (<- & <- & <-). apply IH.
  by eapply step_inv, quiet_step.
Qed.

Lemma quiet_runs_bounded k s s' : inv s → nsteps quiet k s s' → k + weight s' ≤ weight s.
Proof.
  intros Hinv Hk. eapply (weighted_run quiet inv weight); [|done|done].
  intros x y Hx Hq. split; [by eapply step_inv, quiet_step|by apply quiet_weight].
Qed.

Lemma blocked_running s :
  inv s → blocked s → running s = true → stop_holds (stopper s) = false →
  threads s ≠ [] → launched s ≡ₚ posted s ∧ in_flight s = 0.
Proof.
  intros Hinv Hb Hr Hst Hne.
  pose proof (λ i th Hi, blocked_thread s i th Hinv Hb Hst Hi) as Hth.
  assert (sum_list_with tok (threads s) = 0) as Htok.
  { apply sum_list_with_zero. intros i th Hi.
    destruct (Hth i th Hi) as (Ha & _ & _ & [[Hrd _]|?]); [|congruence].
    unfold tok. by rewrite Ha, Hrd. }
  assert (efd s = 0) as He.
  { destruct (threads s) as [|th ths]; [done|].
    destruct (Hth 0 th eq_refl) as (_ & _ & _ & [[_ ?]|?]); congruence. }
  assert (posters s = 0) as Hp.
  { destruct (blocked_none s 0 Hb) as (_ & _ & _ & _ & Hw). revert Hw. unfold post_write.
    by destruct (posters s). }
  assert (threads s ≫= in_hand = []) as Hh.
  { apply elem_of_nil_inv. intros t (th & Ht & [i Hi]%list_elem_of_lookup_1)%list_elem_of_bind.
    destruct (Hth i th Hi) as (Ha & _). unfold in_hand in Ht. rewrite Ha in Ht. by apply not_elem_of_nil in Ht. }
  pose proof (inv_tok_run s Hinv Hr) as Hq.
  assert (queue s = []) as Hqe by (apply nil_length_inv; lia).
  split.
  - rewrite (inv_log s Hinv), Hqe, app_nil_r, (inv_hand s Hinv), Hh. by rewrite app_nil_r.
  - rewrite (inv_flight s Hinv). apply sum_list_with_zero. intros i th Hi. by apply (Hth i th Hi).
Qed.
End progress.

(** ** Schedules, to build reachable states *)

Inductive move :=
  | Post (t : nat) | Write | Stop | Main (i : nat) | Drain (i : nat) | Fiber (i : nat)
  | Kernel (i : nat) (ok : bool).

Definition exec_move (m : move) (s : st) : option st :=
  match m with
  | Post t => Some (post_push t s)
  | Write => post_write s
  | Stop => stop_step s
  | Main i => main_step i s
  | Drain i => drain_step i s
  | Fiber i => fiber_step i s
  | Kernel i ok => kernel_read i ok s
  end.

Fixpoint exec_moves (ms : list move) (s : st) : option st :=
  match ms with
  | [] => Some s
  | m :: ms => s' ← exec_move m s; exec_moves ms s'
  end.

Lemma exec_move_step m s s' : exec_move m s = Some s' → step s s'.
Proof. destruct m; simpl; intros; simplify_eq; eauto using step. Qed.

Lemma exec_moves_reachable ms n s : exec_moves ms (pool_init n) = Some s → reachable n s.
Proof.
  rewrite reachable_init. generalize (pool_init n). induction ms as [|m ms IH]; simpl; intros s0 Hs.
  - simplify_eq. apply rtc_refl.
  - apply bind_Some in Hs as (s1 & H1 & H2). eapply rtc_l; [by eapply exec_move_step|eauto].
Qed.

Lemma step_threads s s' : step s s' → length (threads s') = length (threads s).
Proof.
  intros [t|s1 H|s1 H|i s1 H|i s1 H|i s1 H|i ok s1 H]; [done|revert H..];
    unfold post_write, stop_step, main_step, drain_step, fiber_step, kernel_read;
    try (destruct (threads s !! i); [|done]); simpl; repeat case_match; intros [= <-]; simpl;
    rewrite ?length_fmap, ?length_insert; done.
Qed.

Lemma reachable_threads n s : reachable n s → length (threads s) = n.
Proof.
  intros Hr%reachable_init.
  replace n with (length (threads (pool_init n))) by (simpl; apply length_replicate).
  induction Hr as [|? ? ? Hs%step_threads _ IH]; congruence.
Qed.

(** ** Properties *)

(** C1: a fiber is started for every task at most once, and tasks leave the queue
    in posting order.  At every reachable state the tasks posted are those
    popped, in the order they were posted, followed by those still queued; and
    the tasks popped are exactly those a fiber was started for together with
    the ones a worker holds between its pop and its launch.  No task is
    duplicated, and none is lost on the way.  With a single worker the fibers
    are also started in posting order; several workers may start the tasks they
    have popped in another order. *)
Theorem pool_dispatch_exact n s :
  reachable n s →
  posted s = popped s ++ queue s ∧ popped s ≡ₚ launched s ++ (threads s ≫= in_hand)
  ∧ (n = 1 → posted s = launched s ++ (threads s ≫= in_hand) ++ queue s).
Proof.
  intros Hr. pose proof (reachable_inv n s Hr) as Hinv. split; [apply Hinv|]. split; [apply Hinv|].
  intros ->. rewrite (inv_log s Hinv), (reachable_in_order 1 s Hr), <-app_assoc; [done|].
  by apply reachable_threads.
Qed.

(** C7: posted work runs.  From any state a running pool can reach, with at
    least one worker and [stop] not called: whatever the interleaving of the
    workers, they take at most [weight s] steps when nothing more is posted,
    and once they can take no more, a fiber has been started for every task
    ever posted, exactly once each, and all of them have finished. *)
Theorem posted_work_runs n s :
  reachable n s → 0 < n → stopper s = SIdle →
  (∀ k s', nsteps quiet k s s' → k ≤ weight s) ∧
  (∀ s', rtc quiet s s' → blocked s' → launched s' ≡ₚ posted s ∧ in_flight s' = 0).
Proof.
  intros Hr Hn Hst. pose proof (reachable_threads _ _ Hr) as Hlen.
  apply reachable_inv in Hr as Hinv. split.
  - intros k s' Hk%quiet_runs_bounded; [lia|done].
  - intros s' Hq Hb. destruct (quiets_keep _ _ Hq Hinv) as (Hinv' & Hst' & Hrun & Hpost).
    rewrite <-Hpost. apply blocked_running; [done..| | |].
    + by rewrite Hrun, (inv_run s Hinv), Hst.
    + by rewrite Hst', Hst.
    + intros Hnil.
      assert (reachable n s') as Hr'.
      { eapply reachable_step; [done|]. eapply rtc_subrel; [|done]. apply quiet_step. }
      apply reachable_threads in Hr'. rewrite Hnil in Hr'. simpl in *. lia.
Qed.

Definition two_posted : st := post_push 8 (post_push 7 (pool_init 2)).
Lemma posted_work_runs_witness :
  weight two_posted = 42 ∧
  (∀ k s', nsteps quiet k two_posted s' → k ≤ weight two_posted) ∧
  (∀ s', rtc quiet two_posted s' → blocked s' → launched s' ≡ₚ [7; 8] ∧ in_flight s' = 0).
Proof.
  split; [reflexivity|].
  apply (posted_work_runs 2 two_posted); [|lia|reflexivity].
  by apply (exec_moves_reachable [Post 7; Post 8]).
Defined.

(** two workers start the tasks they popped in the other order; one worker holds
    a task between its pop and its launch *)
Definition overtaken : list move :=
  [Post 7; Post 8; Write; Write; Kernel 0 true; Kernel 1 true; Drain 0; Drain 0; Drain 0;
   Drain 1; Drain 1; Drain 1; Drain 1; Drain 0].
Definition overtaken_st : st :=
  Eval vm_compute in default (pool_init 0) (exec_moves overtaken (pool_init 2)).
Definition one_in_hand : list move := [Post 7; Post 8; Write; Kernel 0 true; Drain 0; Drain 0; Drain 0].
Definition one_in_hand_st : st :=
  Eval vm_compute in default (pool_init 0) (exec_moves one_in_hand (pool_init 1)).
Lemma pool_dispatch_exact_witness :
  (launched overtaken_st = [8; 7] ∧ popped overtaken_st = [7; 8] ∧
   popped overtaken_st ≡ₚ launched overtaken_st ++ (threads overtaken_st ≫= in_hand)) ∧
  (launched one_in_hand_st = [] ∧ queue one_in_hand_st = [8] ∧
   posted one_in_hand_st = launched one_in_hand_st ++ (threads one_in_hand_st ≫= in_hand) ++ queue one_in_hand_st).
Proof.
  split.
  - split; [reflexivity|]. split; [reflexivity|].
    apply (pool_dispatch_exact 2 overtaken_st). apply (exec_moves_reachable overtaken). vm_compute. reflexivity.
  - split; [reflexivity|]. split; [reflexivity|].
    apply (pool_dispatch_exact 1 one_in_hand_st); [|reflexivity].
    apply (exec_moves_reachable one_in_hand). vm_compute. reflexivity.
Defined.

(** [~fiber_pool]'s [join] means what it should.  When every worker has
    returned, [stop] has been called, no fiber is left unfinished, every task
    that left the queue had a fiber started for it, and no thread holds the
    shutdown mutex or is still running anything; the tasks never started are
    exactly those still in the queue. *)
Theorem join_drained n s :
  reachable n s → 0 < n → joined s →
  running s = false ∧ in_flight s = 0 ∧ posted s ≡ₚ launched s ++ queue s ∧
  Forall (λ th, th_act th = ALoop ∧ th_fibers th = 0) (threads s) ∧
  ∀ i, mtx s ≠ Some (OThread i).
Proof.
  intros Hr Hn Hj. pose proof (reachable_threads _ _ Hr) as Hlen.
  apply reachable_inv in Hr as Hinv. unfold joined in Hj. rewrite Forall_lookup in Hj.
  pose proof (λ i th Hi, ok_exit _ _ _ (inv_thread s Hinv i th Hi) (Hj i th Hi)) as Hex.
  split_and!.
  - destruct (threads s) as [|th ths] eqn:E; [simpl in Hlen; lia|].
    by destruct (Hex 0 th eq_refl) as (_ & _ & ?).
  - rewrite (inv_flight s Hinv). apply sum_list_with_zero. intros i th Hi. by apply (Hex i th Hi).
  - rewrite (inv_log s Hinv), (inv_hand s Hinv).
    assert (threads s ≫= in_hand = []) as ->; [|by rewrite app_nil_r].
    apply elem_of_nil_inv. intros t (th & Ht & [i Hi]%list_elem_of_lookup_1)%list_elem_of_bind.
    destruct (Hex i th Hi) as (_ & Ha & _). unfold in_hand in Ht. rewrite Ha in Ht.
    by apply not_elem_of_nil in Ht.
  - apply Forall_lookup. intros i th Hi. destruct (Hex i th Hi) as (? & ? & _). done.
  - intros i Hm. destruct (inv_owner s Hinv i Hm) as [th Hi].
    apply (ok_owner _ _ _ (inv_thread s Hinv i th Hi)) in Hm. unfold holding in Hm.
    by rewrite (Hj i th Hi) in Hm.
Qed.

(** one worker: a task runs, a second one is posted and never started, and the
    pool is stopped *)
Definition graceful : list move :=
  [Main 0; Main 0; Main 0; Post 7; Write; Kernel 0 true; Drain 0; Drain 0; Drain 0; Drain 0; Drain 0;
   Post 8; Stop; Stop; Stop; Stop; Stop; Main 0; Main 0; Main 0; Main 0; Fiber 0; Fiber 0;
   Main 0; Main 0; Main 0].
Definition graceful_st : st :=
  Eval vm_compute in default (pool_init 0) (exec_moves graceful (pool_init 1)).
Lemma join_drained_witness :
  launched graceful_st = [7] ∧
  running graceful_st = false ∧ in_flight graceful_st = 0 ∧
  posted graceful_st ≡ₚ launched graceful_st ++ queue graceful_st ∧
  Forall (λ th, th_act th = ALoop ∧ th_fibers th = 0) (threads graceful_st) ∧
  ∀ i, mtx graceful_st ≠ Some (OThread i).
Proof.
  split; [reflexivity|].
  apply (join_drained 1); [|lia|repeat constructor].
  apply (exec_moves_reachable graceful). vm_compute. reflexivity.
Defined.

(** ** Shutdown of a pool of one worker *)

(** what a single worker's main fiber knows when it goes to sleep: a stopped
    pool still has a fiber in flight, so a [notify_all] is still to come *)
Definition due (s : st) (th : thread) : Prop :=
  (th_main th = MSleep → running s = false → in_flight s ≠ 0) ∧
  (th_main th = MBlocked → stopper s = SNotified ∨ stopper s = SDone →
    in_flight s ≠ 0 ∨ th_act th = ANotify).

Section one_worker.
Context (s : st) (th : thread).
Hypothesis Hinv : inv s.
Hypothesis Hone : threads s = [th].
Hypothesis Hdue : due s th.

Lemma one_ok : thread_ok s 0 th.
Proof using Hinv Hone. apply (inv_thread s Hinv). by rewrite Hone. Qed.

Ltac one_worker :=
  destruct Hdue as [Hsl Hbl]; destruct one_ok as [H1 H2 H3 H4 H5 H6];
  pose proof (inv_run s Hinv) as Hrun; pose proof (inv_stop s Hinv) as Hstop;
  destruct th as [m a r k]; unfold holding in *; simpl in *.

Ltac next := intros [= <-]; eexists; simpl; rewrite ?Hone; simpl; split; [reflexivity|]; split; simpl.

Lemma due_stop s' : stop_step s = Some s' → ∃ th', threads s' = [th'] ∧ due s' th'.
Proof using All.
  one_worker. unfold stop_step. destruct (stopper s) eqn:Est; simpl in *.
  - next; intuition congruence.
  - destruct (mtx s); [done|]. next; intuition congruence.
  - next; rewrite (proj2 Hstop eq_refl) in H2; destruct m; intuition congruence.
  - next; unfold wake; simpl; rewrite (proj2 Hstop eq_refl) in H2;
      destruct m; simpl; intuition congruence.
  - next; intuition congruence.
  - done.
Qed.

Lemma due_main i s' : main_step i s = Some s' → ∃ th', threads s' = [th'] ∧ due s' th'.
Proof using All.
  one_worker. unfold main_step. rewrite Hone. destruct i; [|done]. simpl.
  destruct m, a; try done.
  - destruct (mtx s); [done|]. next; done.
  - next; destruct (running s); congruence.
  - case_decide; next; done.
  - next; [done|]. intros _ Hst. left. apply Hsl; [done|].
    rewrite Hrun. by destruct Hst as [-> | ->].
Qed.

Lemma due_drain i s' : drain_step i s = Some s' → ∃ th', threads s' = [th'] ∧ due s' th'.
Proof using All.
  one_worker. unfold drain_step. rewrite Hone. destruct i; [|done]. simpl.
  assert (a ≠ AMain → m ≠ MSleep) as Hm by (intros ? ->; intuition congruence).
  destruct a; try done.
  - destruct r; try done. case_decide; [done|]. next; [by intros ?; destruct Hm|].
    intros Hmb Hst. destruct (Hbl Hmb Hst); [by left|done].
  - next; [by intros ?; destruct Hm|]. intros Hmb Hst. destruct (Hbl Hmb Hst); [by left|done].
  - destruct (queue s); next; try (by intros ?; destruct Hm);
      intros Hmb Hst; (destruct (Hbl Hmb Hst); [by left|done]).
  - next; [by intros ?; destruct Hm|]. by left.
  - next; [by intros ?; destruct Hm|]. intros Hmb Hst. destruct (Hbl Hmb Hst); [by left|done].
Qed.

Lemma due_fiber i s' : fiber_step i s = Some s' → ∃ th', threads s' = [th'] ∧ due s' th'.
Proof using All.
  one_worker. unfold fiber_step. rewrite Hone. destruct i; [|done]. simpl.
  assert (a ≠ AMain → m ≠ MSleep) as Hm by (intros ? ->; intuition congruence).
  destruct a; try done.
  - destruct k; [done|]. next; [by intros ?; destruct Hm|].
    intros Hmb Hst. destruct (Hbl Hmb Hst); [|done]. case_decide; [by right|left; lia].
  - next; unfold wake; simpl; destruct m; try done.
Qed.

Lemma due_kernel i ok s' : kernel_read i ok s = Some s' → ∃ th', threads s' = [th'] ∧ due s' th'.
Proof using All.
  one_worker. unfold kernel_read. rewrite Hone. destruct i; [|done]. simpl.
  destruct r; try done. destruct ok; [destruct (efd s); [done|]|]; next; done.
Qed.

Lemma due_step s' : step s s' → ∃ th', threads s' = [th'] ∧ due s' th'.
Proof using All.
  intros [t|s1 Hs|s1|i s1|i s1|i s1|i ok s1];
    eauto using due_stop, due_main, due_drain, due_fiber, due_kernel.
  revert Hs. unfold post_write. destruct (posters s); [done|]. intros [= <-].
  exists th. split; [exact Hone|exact Hdue].
Qed.
End one_worker.

Lemma reachable_due s : reachable 1 s → ∃ th, threads s = [th] ∧ due s th.
Proof.
  intros Hr%reachable_init. pose proof (pool_init_inv 1) as Hinv.
  assert (∃ th, threads (pool_init 1) = [th] ∧ due (pool_init 1) th) as Hd
    by (eexists; split; [reflexivity|done]).
  induction Hr as [|s1 s2 s3 Hs _ IH]; [done|]. destruct Hd as (th & Hth & Hdue).
  apply IH; [by eapply step_inv|by eapply due_step].
Qed.

(** A pool of one worker shuts down.  Once [stop] has returned, however
    the worker, its fibers and the kernel go on, after finitely many steps the
    worker can take none, and then it has returned from [worker]: the
    destructor's [join] does not hang. *)
Theorem single_worker_shutdown s :
  reachable 1 s → stopper s = SDone →
  (∀ k s', nsteps quiet k s s' → k ≤ weight s) ∧
  (∀ s', rtc quiet s s' → blocked s' → joined s').
Proof.
  intros Hr Hst. apply reachable_inv in Hr as Hinv. split.
  { intros k s' Hk%quiet_runs_bounded; [lia|done]. }
  intros s' Hq Hb. destruct (quiets_keep _ _ Hq Hinv) as (Hinv' & Hst' & _ & _).
  assert (reachable 1 s') as Hr'.
  { eapply reachable_step; [done|]. eapply rtc_subrel; [|done]. apply quiet_step. }
  destruct (reachable_due s' Hr') as (th & Hth & _ & Hdue). rewrite Hst', Hst in Hdue.
  destruct (blocked_thread s' 0 th Hinv' Hb) as (Ha & Hm & Hf & _);
    [by rewrite Hst', Hst|by rewrite Hth|].
  unfold joined. rewrite Hth. constructor; [|done].
  destruct Hm as [Hm|Hm]; [exfalso|done].
  pose proof (inv_flight s' Hinv') as Hfl. rewrite Hth in Hfl. simpl in Hfl.
  destruct (Hdue Hm (or_intror eq_refl)); [lia|congruence].
Qed.

(** the stop arrives while the worker's fiber is running *)
Definition stop_busy : list move :=
  [Main 0; Main 0; Main 0; Post 7; Write; Kernel 0 true; Drain 0; Drain 0; Drain 0; Drain 0; Drain 0;
   Stop; Stop; Stop; Stop; Stop].
Definition stop_busy_st : st :=
  Eval vm_compute in default (pool_init 0) (exec_moves stop_busy (pool_init 1)).
Lemma single_worker_shutdown_witness :
  in_flight stop_busy_st = 1 ∧
  (∀ k s', nsteps quiet k stop_busy_st s' → k ≤ weight stop_busy_st) ∧
  (∀ s', rtc quiet stop_busy_st s' → blocked s' → joined s').
Proof.
  split; [reflexivity|]. apply single_worker_shutdown; [|reflexivity].
  apply (exec_moves_reachable stop_busy). vm_compute. reflexivity.
Defined.

(** ** Shutdown of a pool of several workers *)

(** no notification under way and no task about to be started *)
Definition idle (th : thread) : Prop :=
  match th_act th with ANotify | AWorkPop | AWorkLaunch _ => False | _ => True end.

(** a worker sleeps in the condition variable of a stopped pool with no fiber
    in flight *)
Definition lost (s : st) : Prop :=
  stopper s = SDone ∧ in_flight s = 0 ∧ Forall idle (threads s) ∧
  ∃ i th, threads s !! i = Some th ∧ th_main th = MBlocked.

Lemma lost_thread s s' j th th' :
  lost s → threads s !! j = Some th → threads s' = <[j := th']> (threads s) →
  stopper s' = stopper s → in_flight s' = in_flight s → idle th' →
  (th_main th = MBlocked → th_main th' = MBlocked) → lost s'.
Proof.
  intros (Hst & Hfl & Hall & i & th0 & Hi & Hm) Hj Hths Hst' Hfl' Hid Hmb.
  unfold lost. rewrite Hst', Hfl', Hths. split; [done|]. split; [done|].
  split; [by apply Forall_insert|].
  destruct (decide (i = j)) as [->|Hne].
  - simplify_eq. exists j, th'. rewrite list_lookup_insert_eq; [auto|by eapply lookup_lt_Some].
  - exists i, th0. by rewrite list_lookup_insert_ne.
Qed.

Ltac lost_at Hl Hj := eapply (lost_thread _ _ _ _ _ Hl Hj); try reflexivity; simpl; try done.

Lemma lost_step s s' : inv s → lost s → step s s' → lost s'.
Proof.
  intros Hinv Hl Hs. pose proof Hl as (Hst & Hfl & Hall & _).
  assert (running s = false) as Hrun by (by rewrite (inv_run s Hinv), Hst).
  destruct Hs as [t|s' Hs|s' Hs|j s' Hs|j s' Hs|j s' Hs|j ok s' Hs]; [exact Hl|revert Hs..].
  { unfold post_write. destruct (posters s); [done|]. intros [= <-]. exact Hl. }
  { unfold stop_step. by rewrite Hst. }
  all: unfold main_step, drain_step, fiber_step, kernel_read.
  all: destruct (threads s !! j) as [[m a r k]|] eqn:Hj; [|done]; simpl.
  all: pose proof (Forall_lookup_1 _ _ _ _ Hall Hj) as Hid; simpl in Hid.
  - destruct m, a; try done; repeat case_match; intros [= <-]; lost_at Hl Hj.
  - rewrite Hrun. destruct a; try done; repeat case_match; intros [= <-]; lost_at Hl Hj.
  - pose proof (sum_list_with_lookup th_fibers _ _ _ Hj) as Hle.
    rewrite <-(inv_flight s Hinv), Hfl in Hle. simpl in Hle.
    destruct a; try done. destruct k; [done|lia].
  - destruct r; try done. destruct ok; [destruct (efd s); [done|]|]; intros [= <-]; lost_at Hl Hj.
Qed.

Lemma lost_forever s s' : inv s → lost s → rtc step s s' → ¬ joined s'.
Proof.
  intros Hinv Hl Hr. induction Hr as [s|s1 s2 s3 Hs _ IH].
  - intros Hj. destruct Hl as (_ & _ & _ & i & th & Hi & Hm).
    unfold joined in Hj. rewrite Forall_lookup in Hj. specialize (Hj i th Hi). congruence.
  - apply IH; [by eapply step_inv|by eapply lost_step].
Qed.

(** thread 1 has evaluated the predicate of [shutdown_cv_.wait] while a fiber
    of thread 0 was in flight; the fiber finishes and notifies before thread 1
    is in the wait queue *)
Definition lost_wakeup : list move :=
  [Post 7; Write; Kernel 0 true; Drain 0; Drain 0; Drain 0; Drain 0; Drain 0;
   Stop; Stop; Stop; Stop; Stop;
   Main 1; Main 1; Main 1; Fiber 0; Fiber 0; Main 1; Main 0; Main 0; Main 0].
Definition lost_wakeup_st : st :=
  Eval vm_compute in default (pool_init 0) (exec_moves lost_wakeup (pool_init 2)).

(** C37: the destructor of a pool of two workers can hang.  The last fiber's
    [fetch_sub] and [notify_all] are not under [shutdown_mtx_], so they can fall
    between another worker's evaluation of the predicate and its entry into the
    wait queue: [stop] has returned, nothing is in flight, and in no
    continuation does that worker return from [worker]. *)
Theorem shutdown_lost_wakeup :
  ∃ s, reachable 2 s ∧ stopper s = SDone ∧ in_flight s = 0 ∧ launched s = posted s ∧
    ∀ s', rtc step s s' → ¬ joined s'.
Proof.
  assert (reachable 2 lost_wakeup_st) as Hr.
  { apply (exec_moves_reachable lost_wakeup). vm_compute. reflexivity. }
  exists lost_wakeup_st. split; [exact Hr|]. split_and!; [reflexivity..|].
  intros s'. apply lost_forever; [by eapply reachable_inv|].
  split_and!; [reflexivity..| |].
  - repeat constructor.
  - exists 1. eexists. split; reflexivity.
Qed.

(** ** Shutdown of an idle pool *)

(** [quiet] steps and those of [stop] *)
Inductive closing (s s' : st) : Prop :=
  | closing_quiet : quiet s s' → closing s s'
  | closing_stop : stop_step s = Some s' → closing s s'.

(** how many steps of [stop] are left, with the main fibers its [notify_all]
    wakes *)
Definition stop_weight (n : nat) (pc : stop_pc) : nat :=
  match pc with
  | SIdle => 4 * n + 5 | SRequested => 4 * n + 4 | SLocked => 4 * n + 3 | SStored => 4 * n + 2
  | SNotified => 1 | SDone => 0
  end.
Definition closing_weight (s : st) : nat := weight s + stop_weight (length (threads s)) (stopper s).

(** the worker is not about to pop or to launch a task *)
Definition empty_handed (th : thread) : Prop :=
  match th_act th with AWorkPop | AWorkLaunch _ => False | _ => True end.

(** [running_] is false and no fiber is left, or will be started: a main fiber
    that evaluates the predicate leaves, and one still in the wait queue has
    the [notify_all] of [stop] to come *)
Record draining (s : st) : Prop := {
  dr_stop : stopper s = SStored ∨ stopper s = SNotified ∨ stopper s = SDone;
  dr_flight : in_flight s = 0;
  dr_thread i th : threads s !! i = Some th →
    empty_handed th ∧ th_main th ≠ MSleep ∧ (th_main th = MBlocked → stopper s = SStored)
}.

Section idle.
Implicit Types s : st.

Lemma draining_running s : inv s → draining s → running s = false.
Proof. intros Hinv [Hst _ _]. rewrite (inv_run s Hinv). by destruct Hst as [-> | [-> | ->]]. Qed.

(** a step of one thread *)
Lemma draining_thread s s' i th th' :
  draining s → threads s !! i = Some th → threads s' = <[i := th']> (threads s) →
  stopper s' = stopper s → in_flight s' = in_flight s → empty_handed th' → th_main th' ≠ MSleep →
  (th_main th' = MBlocked → th_main th = MBlocked) → draining s'.
Proof.
  intros [Hst Hfl Hth] Hi Hths Hst' Hfl' He Hm Hb. split; rewrite ?Hst', ?Hfl', ?Hths; try done.
  intros j thj [(<- & -> & _)|[_ Hj]]%list_lookup_insert_cases; [|by apply (Hth j)].
  split_and!; [done..|]. intros Hm'. by apply (Hth i th Hi), Hb.
Qed.

Lemma draining_wake s : draining s → draining (notify_all s).
Proof.
  intros [Hst Hfl Hth]. split; [done..|]. intros j th'. simpl. rewrite list_lookup_fmap.
  intros (th & Hj & ->)%fmap_Some. destruct (Hth j th Hj) as (He & Hm & Hb).
  unfold wake, empty_handed in *. destruct (th_main th) eqn:E; simpl; rewrite ?E; done.
Qed.

Lemma draining_stop s s' : draining s → stop_step s = Some s' → draining s'.
Proof.
  intros Hd. pose proof (draining_wake s Hd) as [_ _ Hw]. destruct Hd as [Hst Hfl Hth].
  unfold stop_step. destruct Hst as [Est|[Est|Est]]; rewrite Est in *; [| |done];
    intros [= <-]; (split; simpl; [by auto|done|]); intros j th' Hj.
  - destruct (Hw j th' Hj) as (He & Hm & _). split_and!; [done..|]. intros Hm'. exfalso.
    simpl in Hj. rewrite list_lookup_fmap in Hj. apply fmap_Some in Hj as (th & _ & ->).
    revert Hm'. unfold wake. destruct (th_main th) eqn:E; simpl; congruence.
  - destruct (Hth j th' Hj) as (He & Hm & Hb). split_and!; [done..|]. intros Hm'. by specialize (Hb Hm').
Qed.

Ltac drains_at Hd Hi := intros [= <-]; eapply (draining_thread _ _ _ _ _ Hd Hi); try reflexivity; simpl; done.

Lemma draining_step s s' : inv s → draining s → step s s' → draining s'.
Proof.
  intros Hinv Hd Hs. pose proof (draining_running s Hinv Hd) as Hrun. pose proof Hd as [Hst Hfl Hth].
  destruct Hs as [t|s' Hs|s' Hs|j s' Hs|j s' Hs|j s' Hs|j ok s' Hs]; [done|revert Hs..];
    [| by apply draining_stop| | | |].
  { unfold post_write. destruct (posters s); [done|]. intros [= <-]. done. }
  all: unfold main_step, drain_step, fiber_step, kernel_read.
  all: destruct (threads s !! j) as [[m a r k]|] eqn:Hj; [|done]; simpl.
  all: pose proof (Hth j _ Hj) as (He & Hm & Hb); simpl in *.
  - rewrite Hrun, Hfl. destruct m, a; try done; [destruct (mtx s); [done|]| |]; drains_at Hd Hj.
  - rewrite Hrun. destruct a; try done; [destruct r; try done; case_decide; [done|]; destruct ok| |]; drains_at Hd Hj.
  - pose proof (sum_list_with_lookup th_fibers _ _ _ Hj) as Hle.
    rewrite <-(inv_flight s Hinv), Hfl in Hle. simpl in Hle.
    destruct a; try done; [destruct k; [done|lia]|].
    intros [= <-]. apply draining_wake. eapply (draining_thread _ _ _ _ _ Hd Hj); try reflexivity; simpl; done.
  - destruct r; try done. destruct ok; [destruct (efd s); [done|]|]; drains_at Hd Hj.
Qed.

Lemma closing_step s s' : closing s s' → step s s'.
Proof. intros []; [by apply quiet_step|by apply step_stop]. Qed.

Lemma closing_weight_lt s s' : inv s → closing s s' → closing_weight s' < closing_weight s.
Proof.
  intros Hinv Hc. pose proof (step_threads _ _ (closing_step _ _ Hc)) as Hlen.
  unfold closing_weight. rewrite Hlen. destruct Hc as [Hq|Hs].
  - destruct (quiet_keeps _ _ Hq) as (-> & _). pose proof (quiet_weight _ _ Hinv Hq). lia.
  - revert Hs. unfold stop_step. destruct (stopper s) eqn:E;
      [|destruct (mtx s); [done|]| | | |done]; intros [= <-]; try (unfold weight; simpl; lia).
    pose proof (weight_notify_all (set_stop (running s) SNotified s)) as Hw.
    change (weight (set_stop (running s) SNotified s)) with (weight s) in Hw. simpl in *. lia.
Qed.

Lemma closing_runs k s s' :
  inv s → draining s → nsteps closing k s s' →
  inv s' ∧ draining s' ∧ k + closing_weight s' ≤ closing_weight s.
Proof.
  intros Hinv Hd Hk.
  destruct (weighted_run closing (λ s, inv s ∧ draining s) closing_weight) with k s s' as [[? ?] ?]; [|done..].
  intros x y [Hx Hdx] Hc. pose proof (closing_weight_lt _ _ Hx Hc). apply closing_step in Hc.
  split; [split; [by eapply step_inv|by eapply draining_step]|done].
Qed.

(** where [stop] and the workers can go no further *)
Lemma closed_joined s : inv s → draining s → (∀ s', ¬ closing s s') → stopper s = SDone ∧ joined s.
Proof.
  intros Hinv [Hst _ Hth] Hstuck.
  assert (stopper s = SDone) as Hdone.
  { destruct (stop_step s) as [s'|] eqn:E; [by destruct (Hstuck s'); apply closing_stop|].
    revert E. unfold stop_step. by destruct Hst as [-> | [-> | ->]]. }
  split; [done|]. apply Forall_lookup. intros i th Hi.
  assert (blocked s) as Hb by (intros s' Hq; by apply (Hstuck s'), closing_quiet).
  destruct (blocked_thread s i th Hinv Hb) as (_ & [Hm|Hm] & _); [by rewrite Hdone|done| |done].
  destruct (Hth i th Hi) as (_ & _ & Hbl). rewrite Hdone in Hbl. by specialize (Hbl Hm).
Qed.
End idle.

(** C13: a pool with no fiber left shuts down, whatever the number of workers.
    At the moment [stop] has cleared [running_], let no fiber be in flight and
    no worker be about to start one; tasks may be queued and work completions
    on their way.  Then however [stop], the workers and the kernel go on, after
    a bounded number of steps nothing can move, and then [stop] has returned
    and every worker has left [worker]: the destructor returns.  (A fiber still
    in flight at that moment is what [shutdown_lost_wakeup] needs.) *)
Theorem idle_pool_shutdown n s :
  reachable n s → stopper s = SStored → in_flight s = 0 → Forall empty_handed (threads s) →
  (∀ k s', nsteps closing k s s' → k ≤ closing_weight s) ∧
  (∀ s', rtc closing s s' → (∀ s'', ¬ closing s' s'') → stopper s' = SDone ∧ joined s').
Proof.
  intros Hr Hst Hfl Hall. apply reachable_inv in Hr as Hinv.
  assert (draining s) as Hd.
  { split; [by left|done|]. intros i th Hi. split; [by eapply Forall_lookup_1|]. split; [|done].
    intros Hm. destruct (inv_thread s Hinv i th Hi) as [_ Ho _ _ _ _]. unfold holding in Ho.
    rewrite Hm in Ho. pose proof (proj1 Ho eq_refl) as Hown.
    rewrite (proj2 (inv_stop s Hinv)) in Hown; [done|by rewrite Hst]. }
  split.
  - intros k s' Hk. destruct (closing_runs k s s' Hinv Hd Hk) as (_ & _ & ?). lia.
  - intros s' [k Hk]%rtc_nsteps Hstuck. destruct (closing_runs k s s' Hinv Hd Hk) as (? & ? & _).
    by apply closed_joined.
Qed.

(** three workers, one of them asleep in the condition variable, one task run
    and one still queued when the stop arrives *)
Definition stop_idle : list move :=
  [Main 0; Main 0; Main 0; Post 7; Write; Kernel 1 true; Drain 1; Drain 1; Drain 1; Drain 1; Drain 1;
   Fiber 1; Fiber 1; Main 2; Post 8; Main 2; Main 2; Stop; Stop; Write; Stop].
Definition stop_idle_st : st :=
  Eval vm_compute in default (pool_init 0) (exec_moves stop_idle (pool_init 3)).
Lemma idle_pool_shutdown_witness :
  queue stop_idle_st = [8] ∧
  (∀ k s', nsteps closing k stop_idle_st s' → k ≤ closing_weight stop_idle_st) ∧
  (∀ s', rtc closing stop_idle_st s' → (∀ s'', ¬ closing s' s'') → stopper s' = SDone ∧ joined s').
Proof.
  split; [reflexivity|].
  apply (idle_pool_shutdown 3); [|reflexivity|reflexivity|repeat constructor].
  apply (exec_moves_reachable stop_idle). vm_compute. reflexivity.
Defined.
