(* ===== verification/Submit.v ===== *)
(** * Submit: the fiber-side half of an operation (src/fiber_context.cpp, [detail])

    The functions of namespace [detail] that a fiber calls to pass entries to
    its worker's ring and to wait for their completions: [submit_and_wait],
    [submit_and_wait_with_timeout], [submit_linked_and_wait], [submit_cancel],
    and the fiber-local stop token.

    The state is that of the calling thread: [None] on a thread that is not a
    worker, whose [tl_ring] and [tl_scheduler] are null, and the [worker]
    otherwise.  A pointer to a submission entry is its index among the pending
    entries of the ring.  The stack objects a function shares with the kernel
    (its awaitables) live in [w_handlers] at addresses the caller passes.

    A fiber that waits in [future::get] gives up its thread.  What the worker
    and other threads do until it is resumed is an argument of the function: a
    list of actions on the worker, run in order.  A fiber whose promise is not
    fulfilled by them stays suspended ([Hang]). *)

From S2P Require Import Prelude Cxx Uring Boost Scheduler.

Local Open Scope Z_scope.

Definition k_max_linked_ops : nat := 8.

Section submit.
Context {L : Liburing} {P : Promise} {H : Type} {HC : CqeHandler H}.

Abbreviation thread := (option (worker L H)).
Abbreviation action := (cxx (worker L H) ()).

(** code that goes through [tl_ring] or [tl_scheduler] *)
Definition on_worker {A} (m : cxx (worker L H) A) : cxx thread A := λ t,
  match t with
  | None => (Undef, None)
  | Some w => let '(o, w') := m w in (o, Some w')
  end.

(** ** The fiber's stop token *)

(** [stop_possible] of a token; the states of [w_stops] are those with a stop
    source left *)
Definition stop_possible (tok : option nat) (w : worker L H) : bool :=
  match tok with
  | None => false
  | Some id => bool_decide (is_Some (w_stops w !! id))
  end.

Definition stop_requested (tok : option nat) (w : worker L H) : bool :=
  match tok with
  | None => false
  | Some id => if w_stops w !! id is Some s then ss_requested s else false
  end.

Definition set_fiber_stop (tok : option nat) (w : worker L H) : worker L H :=
  {| w_pool := w_pool w; w_sched := w_sched w; w_handlers := w_handlers w;
     w_fibers := w_fibers w; w_stops := w_stops w; w_pool_stop := w_pool_stop w;
     w_fiber_stop := tok |}.

Definition install_fiber_stop_token (tok : option nat) : action := λ w,
  if stop_possible tok w then (Ret (), set_fiber_stop tok w) else (Ret (), w).

Definition current_fiber_stop_token : cxx (worker L H) (option nat) := gets w_fiber_stop.

(** ** Stop callbacks *)

Fixpoint run_callbacks (cbs : list (list Z)) : action :=
  match cbs with
  | [] => mret ()
  | targets :: cbs => _ ← request_cancel_all targets; run_callbacks cbs
  end.

(** [std::stop_callback cb{token, cancel}] and its destructor, where [cancel]
    requests the cancellation of [targets] *)
Definition stop_callback_new (id : nat) (targets : list Z) : cxx (worker L H) nat := λ w,
  match w_stops w !! id with
  | None => (Ret 0%nat, w)
  | Some s =>
      let '(h, now, s') := stop_callback_ctor targets s in
      (_ ← run_callbacks now; mret h) (upd_stops <[id := s']> w)
  end.
Definition stop_callback_delete (id h : nat) : action :=
  modify (upd_stops (alter (stop_callback_dtor h) id)).

(** [request_stop()] on a stop source, by whatever thread *)
Definition stop_source_request (id : nat) : action := λ w,
  match w_stops w !! id with
  | None => (Ret (), w)
  | Some s => let '(cbs, s') := request_stop s in run_callbacks cbs (upd_stops <[id := s']> w)
  end.

(** ** Awaitables *)

Definition awaitable_new (a : Z) : action := modify (upd_handlers <[a := io_awaitable promise_new]>).
Definition awaitable_delete (a : Z) : action := modify (upd_handlers (delete a)).

(** the value [future::get] returns, once there is one *)
Definition fulfilled (a : Z) (w : worker L H) : option Z :=
  h ← w_handlers w !! a; p ← as_awaitable h; promise_value p.

Fixpoint run_actions (acts : list action) : action :=
  match acts with
  | [] => mret ()
  | act :: acts => _ ← act; run_actions acts
  end.

Definition future_value (a : Z) : cxx (worker L H) Z := λ w,
  match fulfilled a w with Some v => (Ret v, w) | None => (Hang, w) end.

(** [future.get()]; [acts] is what happens while the fiber is suspended *)
Definition future_get (a : Z) (acts : list action) : cxx (worker L H) Z := λ w,
  match fulfilled a w with
  | Some v => (Ret v, w)
  | None => (_ ← run_actions acts; future_value a) w
  end.

(** a write to the entry [sqe] points to *)
Definition sqe_update (sqe : nat) (f : Uring.sqe → Uring.sqe) : action := λ w,
  match sq_pending (w_ring w) !! sqe with
  | None => (Undef, w)
  | Some e => (Ret (), upd_ring (sqe_store sqe (f e)) w)
  end.

(** [io_uring_submit(tl_ring)], checked *)
Definition submit_or_throw : action :=
  ret ← submit;
  if ret <? 0 then throw (SystemError (- ret)) else mret ().

(** wait with the pool's stop callback, and the fiber's if it has one,
    registered around [wait] *)
Definition with_stop_callbacks {A} (targets : list Z) (wait : cxx (worker L H) A) :
    cxx (worker L H) A :=
  pool_id ← gets w_pool_stop;
  pool_cb ← stop_callback_new pool_id targets;
  scoped (
    fiber_st ← current_fiber_stop_token;
    possible ← gets (stop_possible fiber_st);
    match fiber_st, possible with
    | Some id, true =>
        fiber_cb ← stop_callback_new id targets;
        scoped wait (stop_callback_delete id fiber_cb)
    | _, _ => wait
    end)
  (stop_callback_delete pool_id pool_cb).

Definition submit_and_wait (awaitable : Z) (sqe : nat) (acts : list action) : cxx thread Z :=
  on_worker (
    _ ← awaitable_new awaitable;
    scoped (
      _ ← sqe_update sqe (set_data awaitable);
      _ ← submit_or_throw;
      with_stop_callbacks [awaitable] (future_get awaitable acts))
    (awaitable_delete awaitable)).

Definition link_timeout_sqe (timeout : Z) : Uring.sqe :=
  set_data k_cancel_tag (prepped (PrepLinkTimeout (timespec_of_ns timeout) 0)).

Definition submit_and_wait_with_timeout (awaitable : Z) (sqe : nat) (timeout : Z)
    (acts : list action) : cxx thread Z :=
  on_worker (
    _ ← sqe_update sqe (or_flags IOSQE_IO_LINK);
    _ ← awaitable_new awaitable;
    scoped (
      _ ← sqe_update sqe (set_data awaitable);
      w ← gets id;
      match claim (link_timeout_sqe timeout) (w_ring w) with
      | None => throw RuntimeError
      | Some r =>
          _ ← modify (upd_ring (λ _, r));
          _ ← submit_or_throw;
          with_stop_callbacks [awaitable] (future_get awaitable acts)
      end)
    (awaitable_delete awaitable)).

(** the loops of [submit_linked_and_wait]: one awaitable per entry, the link
    flag on every entry but the last, and the results in order *)
Fixpoint wire (aws : list Z) (sqes : list nat) : action :=
  match aws, sqes with
  | aw :: aws, sqe :: sqes => _ ← sqe_update sqe (set_data aw); wire aws sqes
  | _, _ => mret ()
  end.
Fixpoint link (sqes : list nat) : action :=
  match sqes with
  | [] => mret ()
  | sqe :: sqes => _ ← sqe_update sqe (or_flags IOSQE_IO_LINK); link sqes
  end.
Fixpoint wait_all (aws : list Z) (acts : list (list action)) : cxx (worker L H) (list Z) :=
  match aws with
  | [] => mret []
  | aw :: aws =>
      r ← future_get aw (default [] (head acts));
      rs ← wait_all aws (tail acts);
      mret (r :: rs)
  end.
Fixpoint each (f : Z → action) (aws : list Z) : action :=
  match aws with [] => mret () | aw :: aws => _ ← f aw; each f aws end.

(** [aws] are the addresses of the [k_max_linked_ops] awaitables, [out_size]
    is [out.size()]; the result is [out] *)
Definition submit_linked_and_wait (aws : list Z) (sqes : list nat) (out_size : nat)
    (acts : list (list action)) : cxx thread (list Z) :=
  let n := length sqes in
  if decide (n = 0 ∨ k_max_linked_ops < n ∨ n ≠ out_size)%nat then throw InvalidArgument
  else on_worker (
    _ ← each awaitable_new aws;
    scoped (
      let targets := take n aws in
      _ ← wire targets sqes;
      _ ← link (take (n - 1) sqes);
      _ ← submit_or_throw;
      with_stop_callbacks targets (wait_all targets acts))
    (each awaitable_delete aws)).

Definition submit_cancel (handler : Z) : cxx thread () := λ t,
  match t with
  | None => (Ret (), None)
  | Some w =>
      match claim (cancel_sqe handler) (w_ring w) with
      | None => (Ret (), Some w)
      | Some r => let '(_, r') := io_uring_submit r in (Ret (), Some (upd_ring (λ _, r') w))
      end
  end.

(** ** Entry to an operation (include/fiberexec/detail/async_helpers.hpp) *)

Definition begin_async_op : cxx thread () := λ t,
  match t with
  | None => (Exn RuntimeError, None)
  | Some w =>
      if stop_requested (w_fiber_stop w) w then (Exn (SystemError ECANCELED), Some w)
      else (Ret (), Some w)
  end.

Definition dispatch (awaitable : Z) (sqe : nat) (timeout : option Z) (acts : list action) :
    cxx thread Z :=
  match timeout with
  | Some t => submit_and_wait_with_timeout awaitable sqe t acts
  | None => submit_and_wait awaitable sqe acts
  end.
End submit.

(** ** Lemmas *)

(** the callback's handle, and the stop states with it registered *)
Definition cb_handle (id : nat) (stops : gmap nat (stop_state (list Z))) : nat :=
  default 0%nat (ss_next <$> stops !! id).
Definition cb_register (id : nat) (targets : list Z) (stops : gmap nat (stop_state (list Z))) :
    gmap nat (stop_state (list Z)) :=
  alter (λ s, (stop_callback_ctor targets s).2) id stops.
Definition cb_requested (id : nat) (stops : gmap nat (stop_state (list Z))) : bool :=
  if stops !! id is Some s then ss_requested s else false.

Section theory.
Context {L : Liburing} {P : Promise} {H : Type} {HC : CqeHandler H}.
Implicit Types w : worker L H.

(** a stop nobody has registered a callback for *)
Lemma stop_request_unheard id s w :
  w_stops w !! id = Some s → ss_requested s = false → ss_callbacks s = [] →
  stop_source_request id w = (Ret (), upd_stops <[id := (request_stop s).2]> w).
Proof.
  intros Hs Hr Hc. unfold stop_source_request. rewrite Hs. unfold request_stop. rewrite Hr, Hc. done.
Qed.

(** equal but for stop states, queued cancellations and their notifications *)
Record only_cancels (w w' : worker L H) : Prop := {
  oc_ring : w_ring w' = w_ring w;
  oc_ready : ready_ (w_sched w') = ready_ (w_sched w);
  oc_handlers : w_handlers w' = w_handlers w;
  oc_pool : w_pool w' = w_pool w;
  oc_pool_stop : w_pool_stop w' = w_pool_stop w;
  oc_fiber_stop : w_fiber_stop w' = w_fiber_stop w
}.

#[export] Instance only_cancels_preorder : PreOrder only_cancels.
Proof.
  split; [by split|]. intros w1 w2 w3 [] []. split; congruence.
Qed.

Lemma run_actions_cons (act : cxx (worker L H) ()) acts w w' :
  act w = (Ret (), w') → run_actions (act :: acts) w = run_actions acts w'.
Proof. intros E. simpl. by bind_ret. Qed.

Lemma run_callbacks_spec cbs w :
  ∃ w', run_callbacks cbs w = (Ret (), w') ∧ only_cancels w w' ∧ w_stops w' = w_stops w
    ∧ cancel_queue_ (w_sched w') = cancel_queue_ (w_sched w) ++ concat cbs.
Proof.
  revert w. induction cbs as [|ts cbs IH]; intros w; simpl.
  { exists w. by rewrite app_nil_r. }
  destruct (request_cancel_all_spec ts w)
    as (w1 & E1 & Hc & _ & Hring & Hready & Hh & Hst & Hpool & Hfs & Hps).
  bind_ret.
  destruct (IH w1) as (w' & E' & Hoc & Hst' & Hc'). exists w'. split; [done|].
  split; [etrans; [|done]; by split|].
  split; [congruence|]. by rewrite Hc', Hc, app_assoc.
Qed.

(** the callbacks a stop request would invoke *)
Definition to_invoke (id : nat) w : list (list Z) :=
  if w_stops w !! id is Some s then (request_stop s).1 else [].

Lemma stop_source_request_spec id w :
  ∃ w', stop_source_request id w = (Ret (), w') ∧ only_cancels w w'
    ∧ w_stops w' = alter (λ s, (request_stop s).2) id (w_stops w)
    ∧ cancel_queue_ (w_sched w') = cancel_queue_ (w_sched w) ++ concat (to_invoke id w).
Proof.
  unfold stop_source_request, to_invoke. destruct (w_stops w !! id) as [s|] eqn:Es.
  - rewrite (alter_present _ _ _ _ Es). destruct (request_stop s) as [cbs s'].
    destruct (run_callbacks_spec cbs (upd_stops <[id := s']> w)) as (w' & E & Hoc & Hst & Hc).
    exists w'. split; [done|]. split; [etrans; [|done]; by split|]. split; [done|]. by rewrite Hc.
  - exists w. rewrite alter_absent, app_nil_r by done. done.
Qed.

Lemma stop_callback_new_spec id targets w :
  ∃ w', stop_callback_new id targets w = (Ret (cb_handle id (w_stops w)), w')
    ∧ only_cancels w w' ∧ w_stops w' = cb_register id targets (w_stops w)
    ∧ cancel_queue_ (w_sched w') = cancel_queue_ (w_sched w) ++
        (if cb_requested id (w_stops w) then targets else []).
Proof.
  unfold stop_callback_new, cb_handle, cb_register, cb_requested.
  destruct (w_stops w !! id) as [s|] eqn:Es; simpl; last first.
  { exists w. by rewrite app_nil_r, alter_absent. }
  rewrite (alter_present _ _ _ _ Es). unfold stop_callback_ctor.
  destruct (ss_requested s).
  - destruct (run_callbacks_spec [targets] (upd_stops <[id := {| ss_requested := true;
      ss_next := S (ss_next s); ss_callbacks := ss_callbacks s |}]> w)) as (w' & E' & Hoc & Hst & Hc).
    exists w'. bind_ret. split; [done|]. split; [etrans; [|done]; by split|].
    split; [done|]. rewrite Hc. simpl. by rewrite app_nil_r.
  - simpl. eexists. split; [done|]. split; [by split|]. simpl. by rewrite app_nil_r.
Qed.
(** ** The state of a worker around a suspension *)

(** the fiber's token, if a stop of it is possible *)
Definition fiber_id (w : worker L H) : option nat :=
  match w_fiber_stop w with
  | Some f => if w_stops w !! f is Some _ then Some f else None
  | None => None
  end.

(** the stop states while the fiber is suspended: [targets]'s callback is
    registered with the pool's source and with the fiber's *)
Definition parked_stops (targets : list Z) (w : worker L H) : gmap nat (stop_state (list Z)) :=
  let stops := cb_register (w_pool_stop w) targets (w_stops w) in
  if fiber_id w is Some f then cb_register f targets stops else stops.

(** the cancellations requested right away, by sources already stopped *)
Definition parked_cancels (targets : list Z) (w : worker L H) : list Z :=
  (if cb_requested (w_pool_stop w) (w_stops w) then targets else []) ++
  (if fiber_id w is Some f then if cb_requested f (w_stops w) then targets else [] else []).

(** [w2], the worker when the fiber is resumed, with the callbacks that were
    registered in [w] gone *)
Definition unpark (targets : list Z) (w w2 : worker L H) : worker L H :=
  let stops := cb_register (w_pool_stop w) targets (w_stops w) in
  upd_stops (alter (stop_callback_dtor (cb_handle (w_pool_stop w) (w_stops w))) (w_pool_stop w))
    (if fiber_id w is Some f then upd_stops (alter (stop_callback_dtor (cb_handle f stops)) f) w2
     else w2).

(** the state in which the fiber is suspended *)
Record parked (targets : list Z) (w w1 : worker L H) : Prop := {
  pk_only : only_cancels w w1;
  pk_stops : w_stops w1 = parked_stops targets w;
  pk_cancels : cancel_queue_ (w_sched w1) = cancel_queue_ (w_sched w) ++ parked_cancels targets w
}.

Lemma unpark_ring targets w w2 : w_ring (unpark targets w w2) = w_ring w2.
Proof. unfold unpark. by destruct (fiber_id w). Qed.

Lemma cb_register_requested f id targets stops :
  cb_requested f (cb_register id targets stops) = cb_requested f stops.
Proof.
  unfold cb_requested, cb_register. destruct (decide (f = id)) as [->|].
  - rewrite lookup_alter_eq. destruct (stops !! id) as [s|]; simpl; [|done].
    unfold stop_callback_ctor. by destruct (ss_requested s).
  - by rewrite lookup_alter_ne.
Qed.

Lemma cb_register_possible f id targets stops :
  is_Some (cb_register id targets stops !! f) ↔ is_Some (stops !! f).
Proof. unfold cb_register. apply lookup_alter_is_Some. Qed.

Lemma with_stop_callbacks_spec targets w :
  ∃ w1, parked targets w w1 ∧ ∀ A (wait : cxx (worker L H) A),
    with_stop_callbacks targets wait w =
    match wait w1 with
    | (Ret a, w2) => (Ret a, unpark targets w w2)
    | (Exn e, w2) => (Exn e, unpark targets w w2)
    | r => r
    end.
Proof.
  destruct (stop_callback_new_spec (w_pool_stop w) targets w) as (w1 & E1 & Hoc & Hst & Hc).
  assert (fiber_id w = None ∧ (match w_fiber_stop w with Some f => w_stops w !! f = None | _ => True end)
    ∨ ∃ f, fiber_id w = Some f ∧ w_fiber_stop w = Some f ∧ is_Some (w_stops w !! f))
    as [[Hf Hn]|(f & Hf & Hfs & Hp)].
  { unfold fiber_id. destruct (w_fiber_stop w) as [f|]; [|by left].
    destruct (w_stops w !! f) eqn:E; [right; exists f|left]; by rewrite ?E. }
  - exists w1. split.
    { split; [done|..]; unfold parked_stops, parked_cancels; rewrite Hf; rewrite ?app_nil_r; done. }
    intros A wait. unfold with_stop_callbacks, unpark. rewrite Hf.
    bind_ret. bind_ret. unfold scoped.
    bind_ret. bind_ret.
    rewrite (oc_fiber_stop _ _ Hoc) in *. destruct (w_fiber_stop w) as [f|]; simpl.
    + unfold stop_possible. rewrite bool_decide_false; [by destruct (wait w1) as [[] ?]|].
      rewrite Hst, cb_register_possible, Hn. by intros [? ?].
    + by destruct (wait w1) as [[] ?].
  - destruct (stop_callback_new_spec f targets w1) as (w2 & E2 & Hoc2 & Hst2 & Hc2).
    exists w2. split.
    { split; [by etrans|..]; unfold parked_stops, parked_cancels; rewrite Hf.
      - by rewrite Hst2, Hst.
      - by rewrite Hc2, Hc, Hst, cb_register_requested, app_assoc. }
    intros A wait. unfold with_stop_callbacks, unpark. rewrite Hf.
    bind_ret. bind_ret. unfold scoped at 1.
    bind_ret. bind_ret.
    rewrite (oc_fiber_stop _ _ Hoc), Hfs. unfold stop_possible.
    rewrite bool_decide_true by (by rewrite Hst, cb_register_possible).
    bind_ret. rewrite Hst. unfold scoped.
    by destruct (wait w2) as [[] ?].
Qed.
(** ** The submission itself *)

Lemma sqe_update_spec {HL : LiburingLaws L} i f e w :
  sq_pending (w_ring w) !! i = Some e →
  ∃ r, sqe_update i f w = (Ret (), upd_ring (λ _, r) w)
    ∧ sq_pending r = <[i := f e]> (sq_pending (w_ring w))
    ∧ sq_submitted r = sq_submitted (w_ring w) ∧ sq_entries r = sq_entries (w_ring w).
Proof.
  intros Hi. exists (sqe_store i (f e) (w_ring w)). unfold sqe_update. rewrite Hi.
  split; [done|]. apply sqe_store_frame.
Qed.

Lemma submit_or_throw_ok {HL : LiburingLaws L} w :
  submits_all (w_ring w) →
  ∃ r, submit_or_throw w = (Ret (), upd_ring (λ _, r) w)
    ∧ sq_submitted r = sq_submitted (w_ring w) ++ sq_pending (w_ring w)
    ∧ sq_pending r = [] ∧ sq_entries r = sq_entries (w_ring w).
Proof.
  intros Hall. destruct (submit_all _ Hall) as (Hs & Hp & He).
  exists (io_uring_submit (w_ring w)).2. split; [|done].
  unfold submits_all in Hall. unfold submit_or_throw, mbind, cxx_mbind, cxx_bind, submit.
  destruct (io_uring_submit (w_ring w)) as [n r]. simpl in *.
  destruct (Z.ltb_spec n 0); [lia|done].
Qed.

Lemma fulfilled_new {HP : PromiseLaws P} {HCL : CqeHandlerLaws H HC} a w :
  w_handlers w !! a = Some (io_awaitable promise_new) → fulfilled a w = None.
Proof. intros Ha. unfold fulfilled. rewrite Ha. simpl. rewrite as_awaitable_io. apply promise_value_new. Qed.

(** a call whose fiber is suspended in [w1]: once what happens meanwhile has
    fulfilled its awaitable it returns the result, and until then it stays
    suspended; undefined behaviour meanwhile is its own *)
Definition resumes (a : Z) (w w1 : worker L H)
    (call : list (cxx (worker L H) ()) → outcome Z * option (worker L H)) : Prop :=
  (∀ acts w2, run_actions acts w1 = (Ret (), w2) → call acts =
     match fulfilled a w2 with
     | Some res => (Ret res, Some (upd_handlers (delete a) (unpark [a] w w2)))
     | None => (Hang, Some w2)
     end) ∧
  (∀ acts w2, run_actions acts w1 = (Undef, w2) → call acts = (Undef, Some w2)).

(** a fiber that waits for its own, unfulfilled, awaitable *)
Lemma wait_one {HP : PromiseLaws P} {HCL : CqeHandlerLaws H HC} a w w1 :
  w_handlers w !! a = Some (io_awaitable promise_new) → parked [a] w w1 →
  (∀ A (wait : cxx (worker L H) A), with_stop_callbacks [a] wait w =
    match wait w1 with
    | (Ret x, w2) => (Ret x, unpark [a] w w2)
    | (Exn e, w2) => (Exn e, unpark [a] w w2)
    | r => r
    end) →
  (∀ acts w2, run_actions acts w1 = (Ret (), w2) →
     with_stop_callbacks [a] (future_get a acts) w =
     match fulfilled a w2 with
     | Some res => (Ret res, unpark [a] w w2)
     | None => (Hang, w2)
     end) ∧
  (∀ acts w2, run_actions acts w1 = (Undef, w2) →
     with_stop_callbacks [a] (future_get a acts) w = (Undef, w2)).
Proof.
  intros Ha Hpk Hw. split; intros acts w2 Hr; rewrite Hw; unfold future_get;
    rewrite (fulfilled_new a w1) by (by rewrite (oc_handlers _ _ (pk_only _ _ _ Hpk))).
  - bind_ret. unfold future_value. by destruct (fulfilled a w2).
  - by erewrite cxx_bind_undef by exact Hr.
Qed.
Lemma submit_and_wait_run {HL : LiburingLaws L} {HP : PromiseLaws P} {HCL : CqeHandlerLaws H HC}
    a i e w :
  (∀ r : uring, submits_all r) → sq_pending (w_ring w) !! i = Some e →
  ∃ r w1, sq_submitted r = sq_submitted (w_ring w) ++ <[i := set_data a e]> (sq_pending (w_ring w))
    ∧ sq_pending r = [] ∧ sq_entries r = sq_entries (w_ring w)
    ∧ parked [a] (upd_ring (λ _, r) (upd_handlers <[a := io_awaitable promise_new]> w)) w1
    ∧ resumes a w w1 (λ acts, submit_and_wait a i acts (Some w)).
Proof.
  intros Hall Hi. set (w0 := upd_handlers <[a := io_awaitable promise_new]> w).
  destruct (sqe_update_spec i (set_data a) e w0 Hi) as (r1 & E1 & Hp1 & Hs1 & He1).
  destruct (submit_or_throw_ok (upd_ring (λ _, r1) w0) (Hall _)) as (r & E2 & Hs2 & Hp2 & He2).
  destruct (with_stop_callbacks_spec [a] (upd_ring (λ _, r) w0)) as (w1 & Hpk & Hw).
  change (w_ring (upd_ring (λ _, r1) w0)) with r1 in *.
  exists r, w1. split; [by rewrite Hs2, Hs1, Hp1|].
  split; [done|]. split; [by rewrite He2, He1|].
  split; [done|].
  assert (w_handlers (upd_ring (λ _, r) w0) !! a = Some (io_awaitable promise_new)) as Ha
    by apply lookup_insert_eq.
  destruct (wait_one a _ w1 Ha Hpk Hw) as [Hret Hund].
  unfold submit_and_wait, on_worker, awaitable_delete. split; intros acts w2 Hrun; bind_ret; fold w0.
  - specialize (Hret acts w2 Hrun). destruct (fulfilled a w2) as [res|].
    + erewrite scoped_ret; [reflexivity|]. do 2 bind_ret. exact Hret.
    + erewrite scoped_hang; [reflexivity|]. do 2 bind_ret. exact Hret.
  - erewrite scoped_undef; [reflexivity|]. do 2 bind_ret. by apply Hund.
Qed.
(** [submit_and_wait_with_timeout] up to its second entry *)
Lemma submit_timeout_prefix {HL : LiburingLaws L} a i e timeout w :
  sq_pending (w_ring w) !! i = Some e →
  ∃ r2, sq_pending r2 = <[i := set_data a (or_flags IOSQE_IO_LINK e)]> (sq_pending (w_ring w))
    ∧ sq_submitted r2 = sq_submitted (w_ring w) ∧ sq_entries r2 = sq_entries (w_ring w)
    ∧ ∀ acts,
      let w0 := upd_ring (λ _, r2) (upd_handlers <[a := io_awaitable promise_new]> w) in
      let w00 := upd_handlers <[a := io_awaitable promise_new]> w in
      submit_and_wait_with_timeout a i timeout acts (Some w) =
      on_worker (scoped
        match claim (link_timeout_sqe timeout) r2 with
        | None => λ _, throw RuntimeError w0
        | Some r => λ _, (_ ← submit_or_throw;
            with_stop_callbacks [a] (future_get a acts)) (upd_ring (λ _, r) w00)
        end (awaitable_delete a)) (Some w0).
Proof.
  intros Hi.
  destruct (sqe_update_spec i (or_flags IOSQE_IO_LINK) e w Hi) as (r1 & E1 & Hp1 & Hs1 & He1).
  set (w0 := upd_handlers <[a := io_awaitable promise_new]> (upd_ring (λ _, r1) w)).
  destruct (sqe_update_spec i (set_data a) (or_flags IOSQE_IO_LINK e) w0) as (r2 & E2 & Hp2 & Hs2 & He2).
  { change (w_ring w0) with r1. rewrite Hp1. apply list_lookup_insert_eq. by eapply lookup_lt_Some. }
  change (w_ring w0) with r1 in *. rewrite Hp1, list_insert_insert_eq in Hp2.
  exists r2. split; [done|]. split; [congruence|]. split; [congruence|].
  intros acts. unfold submit_and_wait_with_timeout, on_worker.
  bind_ret. bind_ret. fold w0. unfold scoped.
  bind_ret. bind_ret. simpl.
  change (w_ring (upd_ring _ w0)) with r2.
  by destruct (claim (link_timeout_sqe timeout) r2) as [r3|].
Qed.

Lemma submit_timeout_full {HL : LiburingLaws L} a i e timeout w :
  sq_pending (w_ring w) !! i = Some e →
  (sq_entries (w_ring w) ≤ length (sq_pending (w_ring w)))%nat →
  ∃ w', (∀ acts, submit_and_wait_with_timeout a i timeout acts (Some w) = (Exn RuntimeError, Some w'))
    ∧ sq_pending (w_ring w') = <[i := set_data a (or_flags IOSQE_IO_LINK e)]> (sq_pending (w_ring w))
    ∧ w_handlers w' = delete a (w_handlers w).
Proof.
  intros Hi Hfull. destruct (submit_timeout_prefix a i e timeout w Hi) as (r2 & Hp & Hs & He & Hrun).
  eexists. split; [intros acts; rewrite Hrun|].
  - rewrite (proj2 (claim_null (link_timeout_sqe timeout) r2)) by (rewrite Hp, He, length_insert; lia).
    unfold on_worker, awaitable_delete. by erewrite scoped_exn by done.
  - split; [exact Hp|]. simpl. apply delete_insert_eq.
Qed.

Lemma submit_timeout_room {HL : LiburingLaws L} {HP : PromiseLaws P} {HCL : CqeHandlerLaws H HC}
    a i e timeout w :
  (∀ r : uring, submits_all r) → sq_pending (w_ring w) !! i = Some e →
  (length (sq_pending (w_ring w)) < sq_entries (w_ring w))%nat →
  ∃ r w1, sq_submitted r = sq_submitted (w_ring w) ++
      <[i := set_data a (or_flags IOSQE_IO_LINK e)]> (sq_pending (w_ring w)) ++ [link_timeout_sqe timeout]
    ∧ sq_pending r = [] ∧ sq_entries r = sq_entries (w_ring w)
    ∧ parked [a] (upd_ring (λ _, r) (upd_handlers <[a := io_awaitable promise_new]> w)) w1
    ∧ resumes a w w1 (λ acts, submit_and_wait_with_timeout a i timeout acts (Some w)).
Proof.
  intros Hall Hi Hroom. destruct (submit_timeout_prefix a i e timeout w Hi) as (r2 & Hp2 & Hs2 & He2 & Hpre).
  destruct (claim_room (link_timeout_sqe timeout) r2) as [r3 E3]; [rewrite Hp2, He2, length_insert; lia|].
  destruct (claim_some _ _ _ E3) as (Hp3 & Hs3 & He3).
  set (w0 := upd_handlers <[a := io_awaitable promise_new]> w) in *.
  destruct (submit_or_throw_ok (upd_ring (λ _, r3) w0) (Hall _)) as (r & E4 & Hs4 & Hp4 & He4).
  change (w_ring (upd_ring (λ _, r3) w0)) with r3 in *.
  destruct (with_stop_callbacks_spec [a] (upd_ring (λ _, r) w0)) as (w1 & Hpk & Hw).
  exists r, w1. split; [by rewrite Hs4, Hs3, Hs2, Hp3, Hp2|].
  split; [done|]. split; [congruence|]. split; [done|].
  assert (w_handlers (upd_ring (λ _, r) w0) !! a = Some (io_awaitable promise_new)) as Ha
    by apply lookup_insert_eq.
  destruct (wait_one a _ w1 Ha Hpk Hw) as [Hret Hund].
  unfold awaitable_delete in Hpre. split; intros acts w2 Hrun; rewrite Hpre, E3; unfold on_worker.
  - specialize (Hret acts w2 Hrun). destruct (fulfilled a w2) as [res|].
    + erewrite scoped_ret; [reflexivity|]. bind_ret. exact Hret.
    + erewrite scoped_hang; [reflexivity|]. bind_ret. exact Hret.
  - erewrite scoped_undef; [reflexivity|]. bind_ret. by apply Hund.
Qed.

(** a suspended fiber while [req] queues cancellations: the worker handles its
    notify completion, and then the completion of the fiber's entry *)
Lemma cancel_wait {HL : LiburingLaws L} {HP : PromiseLaws P} {HCL : CqeHandlerLaws H HC}
    (Hall : ∀ r : uring, submits_all r) fds a flags (req : cxx (worker L H) ()) w1 w2 :
  k_cancel_tag < a → w_handlers w1 !! a = Some (io_awaitable promise_new) →
  sq_pending (w_ring w1) = [] → req w1 = (Ret (), w2) → only_cancels w1 w2 →
  let q := cancel_queue_ (w_sched w2) in
  let acts := [req; drain_cqes fds [Cqe k_notify_tag 8 0]; drain_cqes fds [Cqe a (- ECANCELED) flags]] in
  if decide (length q < sq_entries (w_ring w1))%nat then
    ∃ w4, run_actions acts w1 = (Ret (), w4) ∧ fulfilled a w4 = Some (- ECANCELED)
      ∧ sq_submitted (w_ring w4) = sq_submitted (w_ring w1) ++ (cancel_sqe <$> q) ++ [notify_sqe fds]
  else ∃ w4, run_actions acts w1 = (Undef, w4).
Proof.
  intros Ha Hh Hp Ereq Hoc q acts. unfold acts.
  rewrite <-(oc_ring _ _ Hoc) in Hp |- *. rewrite <-(oc_handlers _ _ Hoc) in Hh.
  erewrite run_actions_cons by exact Ereq. case_decide as Hlen.
  - destruct (notify_flushes fds (Cqe k_notify_tag 8 0) w2 Hall eq_refl Hp) as (r3 & E3 & Hs3 & _ & _); [done|].
    set (w3 := upd_cancel (λ _, []) (upd_ring (λ _, r3) w2)) in *.
    destruct (handle_awaitable fds (Cqe a (- ECANCELED) flags) w3 promise_new Ha Hh)
      as (p & Hpv & E4); [apply promise_value_new|].
    eexists. erewrite run_actions_cons by (by apply drain_one). erewrite run_actions_cons by (by apply drain_one).
    split; [done|]. split; [|exact Hs3].
    unfold fulfilled. simpl. rewrite lookup_insert_eq. simpl. by rewrite as_awaitable_io.
  - destruct (notify_overflows fds (Cqe k_notify_tag 8 0) w2 eq_refl) as [w3 E3]; [fold q; lia|].
    exists w3. by do 2 (apply cxx_bind_undef).
Qed.

(** how many callbacks a suspended fiber has with the source [id] *)
Definition own_callbacks (id : nat) (w : worker L H) : nat :=
  (if decide (id = w_pool_stop w) then 1 else 0) + (if decide (fiber_id w = Some id) then 1 else 0).

Lemma cb_register_lookup j targets stops id s :
  stops !! id = Some s → ss_requested s = false →
  ∃ s1, cb_register j targets stops !! id = Some s1 ∧ ss_requested s1 = false
    ∧ (ss_callbacks s1).*2 = (ss_callbacks s).*2 ++ if decide (id = j) then [targets] else [].
Proof.
  intros Hs Hr. unfold cb_register. destruct (decide (id = j)) as [->|Hne].
  - rewrite lookup_alter_eq, Hs. simpl. unfold stop_callback_ctor. rewrite Hr. eexists.
    split; [done|]. split; [done|]. simpl. by rewrite fmap_app.
  - exists s. rewrite lookup_alter_ne by done. by rewrite app_nil_r.
Qed.

(** the callbacks of a source while the fiber is suspended: those it had, and
    the fiber's *)
Lemma parked_stops_lookup targets id s w :
  w_stops w !! id = Some s → ss_requested s = false →
  ∃ s1, parked_stops targets w !! id = Some s1 ∧ ss_requested s1 = false
    ∧ (ss_callbacks s1).*2 = (ss_callbacks s).*2 ++ replicate (own_callbacks id w) targets.
Proof.
  intros Hs Hr. unfold parked_stops, own_callbacks.
  destruct (cb_register_lookup (w_pool_stop w) targets _ id s Hs Hr) as (s1 & Hl1 & Hr1 & Hc1).
  destruct (fiber_id w) as [f|].
  - destruct (cb_register_lookup f targets _ id s1 Hl1 Hr1) as (s2 & Hl2 & Hr2 & Hc2).
    exists s2. split; [done|]. split; [done|]. rewrite Hc2, Hc1, <-app_assoc. f_equal.
    repeat case_decide; simplify_eq; try done; congruence.
  - exists s1. split; [done|]. split; [done|]. rewrite Hc1. f_equal. by repeat case_decide.
Qed.

(** a stop of [id]'s source while the fiber waits for [targets]: what is queued *)
Definition stop_queue (targets : list Z) (id : nat) (s : stop_state (list Z)) (w : worker L H) : list Z :=
  cancel_queue_ (w_sched w) ++ parked_cancels targets w
  ++ concat (ss_callbacks s).*2 ++ concat (replicate (own_callbacks id w) targets).

Lemma parked_stop targets id s w w1 :
  parked targets w w1 → w_stops w !! id = Some s → ss_requested s = false →
  ∃ w2, stop_source_request id w1 = (Ret (), w2) ∧ only_cancels w1 w2
    ∧ cancel_queue_ (w_sched w2) = stop_queue targets id s w.
Proof.
  intros [Hoc Hst Hcq] Hs Hr. destruct (parked_stops_lookup targets id s w Hs Hr) as (s1 & Hs1 & Hr1 & Hcb).
  destruct (stop_source_request_spec id w1) as (w2 & E & Hoc2 & _ & Hcq2). exists w2. split; [done|].
  split; [done|]. rewrite Hcq2, Hcq. unfold to_invoke, request_stop. rewrite Hst, Hs1, Hr1. simpl.
  unfold stop_queue. by rewrite Hcb, concat_app, <-app_assoc.
Qed.

Lemma stop_queue_targets targets id s w :
  id = w_pool_stop w ∨ fiber_id w = Some id → targets ⊆ stop_queue targets id s w.
Proof.
  intros Hid. unfold stop_queue. do 3 (apply list_subseteq_app_r).
  unfold own_callbacks. destruct Hid as [Hid|Hid]; [rewrite decide_True by done|rewrite (decide_True (P := fiber_id w = _)), Nat.add_comm by done];
    simpl; apply list_subseteq_app_l; done.
Qed.
End theory.

(** ** Chains *)

(** the entries of a linked chain: each tagged with its awaitable, each but
    the last linked to the next *)
Fixpoint chain (aws : list Z) (es : list sqe) : list sqe :=
  match aws, es with
  | aw :: aws, e :: es =>
      (if es is [] then set_data aw e else or_flags IOSQE_IO_LINK (set_data aw e)) :: chain aws es
  | _, _ => []
  end.

Section chains.
Context {L : Liburing} {HL : LiburingLaws L} {P : Promise} {H : Type} {HC : CqeHandler H}.
Implicit Types w : worker L H.

Lemma chain_links aws es :
  length aws = length es → es ≠ [] →
  chain aws es =
    (or_flags IOSQE_IO_LINK <$> take (length es - 1) (zip_with set_data aws es))
    ++ drop (length es - 1) (zip_with set_data aws es).
Proof.
  revert aws. induction es as [|e [|e' es] IH]; intros [|aw aws]; try done.
  { by destruct aws. }
  intros [= Hlen] _.
  change (chain (aw :: aws) (e :: e' :: es))
    with (or_flags IOSQE_IO_LINK (set_data aw e) :: chain aws (e' :: es)).
  rewrite (IH aws Hlen) by done. simpl. by rewrite !Nat.sub_0_r.
Qed.

(** the entries at the indices of [sqes] are [es], behind [pre] *)
Lemma wire_spec aws es pre w :
  length aws = length es → sq_pending (w_ring w) = pre ++ es →
  ∃ r, wire aws (seq (length pre) (length es)) w = (Ret (), upd_ring (λ _, r) w)
    ∧ sq_pending r = pre ++ zip_with set_data aws es
    ∧ sq_submitted r = sq_submitted (w_ring w) ∧ sq_entries r = sq_entries (w_ring w).
Proof.
  revert aws pre w. induction es as [|e es IH]; intros [|aw aws] pre w; try done.
  { intros _ Hp. exists (w_ring w). split; [|done]. simpl. unfold mret, cxx_mret, cxx_ret.
    destruct w as [? [] ? ? ? ? ?]. done. }
  intros [= Hlen] Hp. simpl.
  destruct (sqe_update_spec (length pre) (set_data aw) e w) as (r1 & E1 & Hp1 & Hs1 & He1).
  { by rewrite Hp, list_lookup_middle. }
  bind_ret. rewrite Hp in Hp1.
  rewrite insert_app_r_alt, Nat.sub_diag in Hp1 by lia. simpl in Hp1.
  rewrite cons_middle, app_assoc in Hp1.
  destruct (IH aws (pre ++ [set_data aw e]) (upd_ring (λ _, r1) w) Hlen Hp1)
    as (r & E & Hpr & Hsr & Her).
  rewrite length_app, Nat.add_1_r in E. exists r. split; [exact E|].
  rewrite Hpr, Hsr, Her, <-app_assoc. done.
Qed.

Lemma link_spec m es pre w :
  (m ≤ length es)%nat → sq_pending (w_ring w) = pre ++ es →
  ∃ r, link (seq (length pre) m) w = (Ret (), upd_ring (λ _, r) w)
    ∧ sq_pending r = pre ++ (or_flags IOSQE_IO_LINK <$> take m es) ++ drop m es
    ∧ sq_submitted r = sq_submitted (w_ring w) ∧ sq_entries r = sq_entries (w_ring w).
Proof.
  revert m pre w. induction es as [|e es IH]; intros [|m] pre w; try (simpl; lia).
  1, 2: intros _ Hp; exists (w_ring w); split; [|done]; simpl; unfold mret, cxx_mret, cxx_ret;
    by destruct w as [? [] ? ? ? ? ?].
  intros Hm%le_S_n Hp. simpl.
  destruct (sqe_update_spec (length pre) (or_flags IOSQE_IO_LINK) e w) as (r1 & E1 & Hp1 & Hs1 & He1).
  { by rewrite Hp, list_lookup_middle. }
  bind_ret. rewrite Hp in Hp1.
  rewrite insert_app_r_alt, Nat.sub_diag in Hp1 by lia. simpl in Hp1.
  rewrite cons_middle, app_assoc in Hp1.
  destruct (IH m (pre ++ [or_flags IOSQE_IO_LINK e]) (upd_ring (λ _, r1) w) Hm Hp1)
    as (r & E & Hpr & Hsr & Her).
  rewrite length_app, Nat.add_1_r in E. exists r. split; [exact E|].
  rewrite Hpr, Hsr, Her, <-app_assoc. done.
Qed.

(** the handlers with awaitables made, or destroyed, at [aws] *)
Definition with_new (aws : list Z) (hs : gmap Z H) : gmap Z H :=
  foldl (λ hs a, <[a := io_awaitable promise_new]> hs) hs aws.
Definition without (aws : list Z) (hs : gmap Z H) : gmap Z H :=
  foldl (λ hs a, delete a hs) hs aws.

Lemma each_new_spec aws w :
  each awaitable_new aws w = (Ret (), upd_handlers (with_new aws) w).
Proof.
  revert w. induction aws as [|a aws IH]; intros w; simpl; [by destruct w|].
  bind_ret. by rewrite IH.
Qed.
Lemma each_delete_spec aws w :
  each awaitable_delete aws w = (Ret (), upd_handlers (without aws) w).
Proof.
  revert w. induction aws as [|a aws IH]; intros w; simpl; [by destruct w|].
  bind_ret. by rewrite IH.
Qed.

Lemma with_new_keep a aws hs :
  hs !! a = Some (io_awaitable promise_new) →
  with_new aws hs !! a = Some (io_awaitable promise_new).
Proof.
  unfold with_new. revert hs. induction aws as [|b aws IH]; intros hs Hs; simpl; [done|]. apply IH.
  destruct (decide (a = b)) as [->|]; [apply lookup_insert_eq|by rewrite lookup_insert_ne].
Qed.

Lemma with_new_lookup a aws hs :
  a ∈ aws → with_new aws hs !! a = Some (io_awaitable promise_new).
Proof.
  revert hs. induction aws as [|b aws IH]; intros hs; [by intros ?%not_elem_of_nil|].
  change (with_new (b :: aws) hs) with (with_new aws (<[b := io_awaitable promise_new]> hs)).
  intros [->|Hin]%elem_of_cons; [apply with_new_keep, lookup_insert_eq|by apply IH].
Qed.

Lemma without_keep a aws hs : hs !! a = None → without aws hs !! a = None.
Proof.
  unfold without. revert hs. induction aws as [|b aws IH]; intros hs Hs; simpl; [done|].
  apply IH. by rewrite lookup_delete_None; right.
Qed.

Lemma without_lookup a aws hs : a ∈ aws → without aws hs !! a = None.
Proof.
  revert hs. induction aws as [|b aws IH]; intros hs; [by intros ?%not_elem_of_nil|].
  change (without (b :: aws) hs) with (without aws (delete b hs)).
  intros [->|Hin]%elem_of_cons; [apply without_keep, lookup_delete_eq|by apply IH].
Qed.

(** futures that are fulfilled are read off in order *)
Lemma wait_all_ready aws acts w rs :
  Forall2 (λ a v, fulfilled a w = Some v) aws rs → wait_all aws acts w = (Ret rs, w).
Proof.
  revert acts rs. induction aws as [|a aws IH]; intros acts rs Hf; inversion Hf; subst; simpl; [done|].
  erewrite cxx_bind_ret; [|unfold future_get; by match goal with E : fulfilled _ _ = _ |- _ => rewrite E end].
  by erewrite cxx_bind_ret by (by apply IH).
Qed.

Lemma wait_all_suspended aws acts w w2 rs :
  aws ≠ [] → (∀ a, a ∈ aws → fulfilled a w = None) → run_actions acts w = (Ret (), w2) →
  Forall2 (λ a v, fulfilled a w2 = Some v) aws rs → wait_all aws [acts] w = (Ret rs, w2).
Proof.
  intros Hne Hnone Hrun Hf. destruct Hf as [|a v aws rs Hv Hf]; [done|]. simpl.
  erewrite cxx_bind_ret; last first.
  { unfold future_get. rewrite Hnone by (by left). bind_ret.
    unfold future_value. by rewrite Hv. }
  by erewrite cxx_bind_ret by (by apply wait_all_ready).
Qed.
Lemma submit_linked_run {HP : PromiseLaws P} {HCL : CqeHandlerLaws H HC} aws pre es w :
  (∀ r : uring, submits_all r) →
  sq_pending (w_ring w) = pre ++ es → (length es ≤ k_max_linked_ops)%nat → es ≠ [] →
  length aws = k_max_linked_ops →
  let n := length es in
  let targets := take n aws in
  let sqes := seq (length pre) n in
  ∃ r w1, sq_submitted r = sq_submitted (w_ring w) ++ pre ++ chain targets es
    ∧ sq_pending r = [] ∧ sq_entries r = sq_entries (w_ring w)
    ∧ parked targets (upd_ring (λ _, r) (upd_handlers (with_new aws) w)) w1
    ∧ ∀ acts w2 rs, run_actions acts w1 = (Ret (), w2) →
        Forall2 (λ a v, fulfilled a w2 = Some v) targets rs →
        submit_linked_and_wait aws sqes n [acts] (Some w) =
        (Ret rs, Some (upd_handlers (without aws) (unpark targets w w2))).
Proof.
  intros Hall Hp Hle Hne Haws n targets sqes.
  assert (length targets = n) as Ht by (unfold targets; rewrite length_take; lia).
  assert (0 < n)%nat by (unfold n; destruct es; simpl; [done|lia]).
  assert (length sqes = n) as Hsq by apply length_seq.
  set (w0 := upd_handlers (with_new aws) w).
  destruct (wire_spec targets es pre w0 Ht Hp) as (r1 & E1 & Hp1 & Hs1 & He1).
  destruct (link_spec (n - 1) (zip_with set_data targets es) pre (upd_ring (λ _, r1) w0))
    as (r2 & E2 & Hp2 & Hs2 & He2); [rewrite length_zip_with; lia|exact Hp1|].
  change (w_ring (upd_ring (λ _, r1) w0)) with r1 in *. unfold n in Hp2.
  rewrite <-chain_links in Hp2 by done.
  destruct (submit_or_throw_ok (upd_ring (λ _, r2) w0) (Hall _)) as (r & E3 & Hs3 & Hp3 & He3).
  change (w_ring (upd_ring (λ _, r2) w0)) with r2 in *.
  destruct (with_stop_callbacks_spec targets (upd_ring (λ _, r) w0)) as (w1 & Hpk & Hw).
  exists r, w1. split; [by rewrite Hs3, Hs2, Hs1, Hp2|]. split; [done|]. split; [by rewrite He3, He2, He1|]. split; [done|].
  intros acts w2 rs Hrun Hf.
  unfold submit_linked_and_wait. rewrite Hsq, decide_False by lia.
  unfold on_worker. erewrite cxx_bind_ret by apply each_new_spec. fold w0. unfold scoped.
  bind_ret. replace (take (n - 1) sqes) with (seq (length pre) (n - 1)); last first.
  { unfold sqes. by rewrite take_seq, Nat.min_l by lia. }
  bind_ret. bind_ret. fold targets. rewrite Hw.
  rewrite (wait_all_suspended targets acts w1 w2 rs); [|..].
  - unfold cxx_bind. by rewrite each_delete_spec.
  - intros Hnil. rewrite Hnil in Ht. simpl in Ht. lia.
  - intros a Ha. apply fulfilled_new. rewrite (oc_handlers _ _ (pk_only _ _ _ Hpk)).
    apply with_new_lookup. unfold targets in Ha. by eapply elem_of_submseteq, submseteq_take.
  - done.
  - done.
Qed.

End chains.

Section properties.
Context {L : Liburing} {P : Promise} {H : Type} {HC : CqeHandler H}.
Implicit Types w : worker L H.

(** C3: what [submit_and_wait] does, when [io_uring_submit] accepts the
    entries.  The entry is passed to the kernel tagged with the awaitable's
    address, after everything pending before it; the fiber is then suspended
    with its awaitable alive and one cancel callback registered with the
    pool's stop source and one with the fiber's token (a source already stopped
    has its cancellation queued at once).  Whatever happens meanwhile, if the
    awaitable is fulfilled the result it was given is returned, with the
    callbacks deregistered and the awaitable gone, and otherwise the fiber
    stays suspended. *)
Theorem submit_and_wait_spec (HL : LiburingLaws L) (HP : PromiseLaws P)
    (HCL : CqeHandlerLaws H HC) (Hall : ∀ r : uring, submits_all r) a i e w :
  sq_pending (w_ring w) !! i = Some e →
  ∃ r w1, sq_submitted r = sq_submitted (w_ring w) ++ <[i := set_data a e]> (sq_pending (w_ring w))
    ∧ sq_pending r = []
    ∧ parked [a] (upd_ring (λ _, r) (upd_handlers <[a := io_awaitable promise_new]> w)) w1
    ∧ ∀ acts w2, run_actions acts w1 = (Ret (), w2) →
        submit_and_wait a i acts (Some w) =
        match fulfilled a w2 with
        | Some res => (Ret res, Some (upd_handlers (delete a) (unpark [a] w w2)))
        | None => (Hang, Some w2)
        end.
Proof.
  intros Hi. destruct (submit_and_wait_run a i e w Hall Hi) as (r & w1 & Hs & Hp & _ & Hpk & Hrun & _).
  by exists r, w1.
Qed.

(** C11: a stop request cancels the operation, when [io_uring_submit] accepts
    the entries.  A fiber waits for an entry it submitted; a stop is requested
    on the pool's source or on the fiber's own, by any thread; the worker
    handles its next notify completion, and then the completion of the
    cancelled operation.  The stop adds to the cancellations queued before, if
    any, those of every operation with a callback on that source, the fiber's
    among them.  If they leave the submission ring an entry, the kernel has
    been given, after the operation, one cancellation for each, in order, and
    the wait returns -ECANCELED with the awaitable gone.  If they do not, the
    notify handler writes through the null entry it gets for its own read. *)
Theorem stop_cancels_wait (HL : LiburingLaws L) (HP : PromiseLaws P)
    (HCL : CqeHandlerLaws H HC) (Hall : ∀ r : uring, submits_all r) fds a i e w id s flags :
  sq_pending (w_ring w) !! i = Some e → k_cancel_tag < a →
  id = w_pool_stop w ∨ fiber_id w = Some id → w_stops w !! id = Some s → ss_requested s = false →
  let q := stop_queue [a] id s w in
  let wait := submit_and_wait a i [stop_source_request id; drain_cqes fds [Cqe k_notify_tag 8 0];
      drain_cqes fds [Cqe a (- ECANCELED) flags]] (Some w) in
  a ∈ q ∧
  if decide (length q < sq_entries (w_ring w))%nat then
    ∃ w', wait = (Ret (- ECANCELED), Some w')
      ∧ sq_submitted (w_ring w') = sq_submitted (w_ring w) ++
          <[i := set_data a e]> (sq_pending (w_ring w)) ++ (cancel_sqe <$> q) ++ [notify_sqe fds]
      ∧ w_handlers w' !! a = None
  else wait.1 = Undef.
Proof.
  intros Hi Ha Hid Hs Hr q wait.
  split; [apply (stop_queue_targets [a] id s w Hid); by left|].
  destruct (submit_and_wait_run a i e w Hall Hi) as (r & w1 & Hsub & Hpend & Hent & Hpk & Hrun & Hund).
  destruct (parked_stop [a] id s _ w1 Hpk Hs Hr) as (w2 & Ereq & Hoc2 & Hcq2).
  change (stop_queue [a] id s (upd_ring _ _)) with q in Hcq2. destruct Hpk as [Hoc _ _].
  assert (w_ring w1 = r) as Hr1 by exact (oc_ring _ _ Hoc).
  assert (w_handlers w1 !! a = Some (io_awaitable promise_new)) as Hh
    by (rewrite (oc_handlers _ _ Hoc); apply lookup_insert_eq).
  pose proof (cancel_wait Hall fds a flags (stop_source_request id) w1 w2 Ha Hh) as Hw.
  rewrite Hcq2, Hr1, Hent in Hw. specialize (Hw Hpend Ereq Hoc2). cbv zeta in Hw. case_decide as Hlen.
  - destruct Hw as (w4 & Erun & Hf & Hsub4).
    eexists. split; [unfold wait; by rewrite (Hrun _ _ Erun), Hf|]. split; [|apply lookup_delete_eq].
    change (w_ring (upd_handlers _ ?x)) with (w_ring x). by rewrite unpark_ring, Hsub4, Hsub, <-app_assoc.
  - destruct Hw as (w4 & Erun). unfold wait. by rewrite (Hund _ _ Erun).
Qed.

(** An operation with a timeout is a two-entry chain.  The operation's
    entry gets the link flag and the awaitable's address; right behind the
    pending entries comes a link-timeout entry with the timeout as a
    timespec, tagged so that its completion is ignored; both go to the kernel in
    one call, and the rest is as in [submit_and_wait].  When there is no room
    for the second entry the call throws instead. *)
Theorem submit_with_timeout_spec (HL : LiburingLaws L) (HP : PromiseLaws P)
    (HCL : CqeHandlerLaws H HC) (Hall : ∀ r : uring, submits_all r) a i e timeout w :
  sq_pending (w_ring w) !! i = Some e →
  let es := <[i := set_data a (or_flags IOSQE_IO_LINK e)]> (sq_pending (w_ring w)) in
  if decide (length (sq_pending (w_ring w)) < sq_entries (w_ring w))%nat then
    ∃ r w1, sq_submitted r = sq_submitted (w_ring w) ++ es ++ [link_timeout_sqe timeout]
      ∧ sq_pending r = []
      ∧ parked [a] (upd_ring (λ _, r) (upd_handlers <[a := io_awaitable promise_new]> w)) w1
      ∧ ∀ acts w2, run_actions acts w1 = (Ret (), w2) →
          submit_and_wait_with_timeout a i timeout acts (Some w) =
          match fulfilled a w2 with
          | Some res => (Ret res, Some (upd_handlers (delete a) (unpark [a] w w2)))
          | None => (Hang, Some w2)
          end
  else ∃ w', (∀ acts, submit_and_wait_with_timeout a i timeout acts (Some w) =
                      (Exn RuntimeError, Some w'))
    ∧ sq_pending (w_ring w') = es ∧ w_handlers w' = delete a (w_handlers w).
Proof.
  intros Hi es. case_decide as Hroom.
  - destruct (submit_timeout_room a i e timeout w Hall Hi Hroom) as (r & w1 & Hs & Hp & _ & Hpk & Hrun & _).
    by exists r, w1.
  - apply (submit_timeout_full a i e timeout w Hi). lia.
Qed.

(** C30: a linked chain.  A chain that is empty, too long, or does not match
    [out] is refused before anything is touched.  Otherwise, when
    [io_uring_submit] accepts the entries, the entries [es], the last ones
    pending, go to the kernel in one call and in order, each tagged with the
    address of its own awaitable and each but the last carrying the link flag.
    A stop of the pool's source or the fiber's own while the fiber waits queues
    a cancellation of every one of them, and if the queue leaves the ring an
    entry the worker's next notify completion passes them to the kernel.  When
    every completion has arrived the results come back in the order of the
    entries, with the callbacks deregistered and all the awaitables gone. *)
Theorem submit_linked_spec (HL : LiburingLaws L) (HP : PromiseLaws P)
    (HCL : CqeHandlerLaws H HC) (Hall : ∀ r : uring, submits_all r) fds aws :
  length aws = k_max_linked_ops →
  (∀ sqes out acts (t : option (worker L H)),
     length sqes = 0%nat ∨ (k_max_linked_ops < length sqes)%nat ∨ length sqes ≠ out →
     submit_linked_and_wait aws sqes out acts t = (Exn InvalidArgument, t)) ∧
  ∀ pre es w,
  sq_pending (w_ring w) = pre ++ es → (0 < length es ≤ k_max_linked_ops)%nat →
  let targets := take (length es) aws in
  ∃ r w1, sq_submitted r = sq_submitted (w_ring w) ++ pre ++ chain targets es
    ∧ sq_pending r = []
    ∧ parked targets (upd_ring (λ _, r) (upd_handlers (with_new aws) w)) w1
    ∧ (∀ id s, id = w_pool_stop w ∨ fiber_id w = Some id → w_stops w !! id = Some s → ss_requested s = false →
         let q := stop_queue targets id s w in
         targets ⊆ q ∧ ∃ w2, stop_source_request id w1 = (Ret (), w2) ∧ cancel_queue_ (w_sched w2) = q
           ∧ ((length q < sq_entries (w_ring w))%nat →
              ∃ w3, drain_cqes fds [Cqe k_notify_tag 8 0] w2 = (Ret (), w3)
                ∧ sq_submitted (w_ring w3) = sq_submitted r ++ (cancel_sqe <$> q) ++ [notify_sqe fds]))
    ∧ ∀ acts w2 rs, run_actions acts w1 = (Ret (), w2) →
        Forall2 (λ a v, fulfilled a w2 = Some v) targets rs →
        ∃ w', submit_linked_and_wait aws (seq (length pre) (length es)) (length es) [acts] (Some w)
            = (Ret rs, Some w')
          ∧ w' = upd_handlers (without aws) (unpark targets w w2)
          ∧ ∀ a, a ∈ aws → w_handlers w' !! a = None.
Proof.
  intros Haws. split.
  { intros sqes out acts t Hbad. unfold submit_linked_and_wait. by rewrite decide_True. }
  intros pre es w Hp [Hpos Hle] targets.
  destruct (submit_linked_run aws pre es w Hall Hp Hle) as (r & w1 & Hs & Hpd & He & Hpk & Hrun);
    [by destruct es; [simpl in Hpos; lia|]|done|].
  exists r, w1. split_and!; [done..| |].
  - intros id s Hid Hst Hr q. split; [by apply stop_queue_targets|].
    destruct (parked_stop targets id s _ w1 Hpk Hst Hr) as (w2 & E & Hoc2 & Hcq). exists w2. split_and!; [done..|].
    change (stop_queue targets id s (upd_ring _ _)) with q in Hcq. intros Hlen.
    assert (w_ring w2 = r) as Hr2 by (rewrite (oc_ring _ _ Hoc2); exact (oc_ring _ _ (pk_only _ _ _ Hpk))).
    destruct (notify_flushes fds (Cqe k_notify_tag 8 0) w2 Hall eq_refl) as (r3 & E3 & Hs3 & _);
      [by rewrite Hr2|by rewrite Hr2, Hcq, He|].
    rewrite Hr2, Hcq in Hs3. eexists. split; [by apply drain_one|exact Hs3].
  - intros acts w2 rs Hacts Hf. eexists. split; [by apply (Hrun acts w2 rs)|]. split; [done|].
    intros a Ha. by apply without_lookup.
Qed.

(** A submission the kernel refuses leaves a dangling entry.  When
    [io_uring_submit] fails, [submit_and_wait] throws the error and destroys
    its awaitable, but the entry it filled stays in the ring with the
    awaitable's address; a later submission passes it to the kernel, and
    handling its completion goes through an object that no longer exists. *)
Theorem submit_failure_dangling (HL : LiburingLaws L) fds a i e w n r acts :
  sq_pending (w_ring w) !! i = Some e → k_cancel_tag < a →
  io_uring_submit (sqe_store i (set_data a e) (w_ring w)) = (n, r) → n < 0 →
  ∃ w', submit_and_wait a i acts (Some w) = (Exn (SystemError (- n)), Some w')
    ∧ sq_pending (w_ring w') !! i = Some (set_data a e)
    ∧ ∀ res flags, handle_cqe fds (Cqe a res flags) w' = (Undef, w').
Proof.
  intros Hi Ha Hsub Hn. set (w0 := upd_handlers <[a := io_awaitable promise_new]> w).
  exists (upd_handlers (delete a) (upd_ring (λ _, r) w0)). split_and!.
  - unfold submit_and_wait, on_worker, awaitable_delete. bind_ret. fold w0.
    erewrite scoped_exn; [reflexivity|].
    assert (sqe_update i (set_data a) w0 =
            (Ret (), upd_ring (sqe_store i (set_data a e)) w0)) as E1.
    { unfold sqe_update. change (w_ring w0) with (w_ring w). by rewrite Hi. }
    bind_ret. apply cxx_bind_exn.
    unfold submit_or_throw, mbind, cxx_mbind, cxx_bind, submit.
    change (w_ring (upd_ring _ w0)) with (sqe_store i (set_data a e) (w_ring w)). rewrite Hsub.
    destruct (Z.ltb_spec n 0); [done|lia].
  - change (w_ring _) with r. destruct (submit_error _ _ _ Hsub Hn) as (_ & -> & _).
    destruct (sqe_store_frame i (set_data a e) (w_ring w)) as (-> & _).
    apply list_lookup_insert_eq. by eapply lookup_lt_Some.
  - intros res flags. rewrite handle_dispatch by done. unfold dispatch_handler. simpl.
    by rewrite lookup_delete_eq.
Qed.
End properties.

(** ** Witnesses *)

Section witnesses.
Import ListUring CellPromise OnlyAwaitable.

Definition read_sqe : sqe := prepped (PrepRead 5 1024 64 0).
Definition fsync_sqe : sqe := prepped (PrepFsync 5 0).

(** a worker with [es] pending, whose fiber has a stop token of its own *)
Definition submitting (es : list sqe) : worker list_uring (option Z) :=
  {| w_pool := {| running_ := true; work_queue_ := []; eventfd_ := 0; in_flight_ := 1 |};
     w_sched := {| ring_ := {| entries := k_ring_entries; pending := es; submitted := [] |};
                   ready_ := []; cancel_queue_ := []; notify_fd_ := 0 |};
     w_handlers := ∅; w_fibers := []; w_stops := {[ 0%nat := stop_source_new; 1%nat := stop_source_new ]};
     w_pool_stop := 0%nat; w_fiber_stop := Some 1%nat |}.

Lemma submit_and_wait_spec_witness :
  ∃ r w1, sq_submitted r = [set_data 4096 read_sqe]
    ∧ parked [4096] (upd_ring (λ _, r) (upd_handlers <[4096 := None]> (submitting [read_sqe]))) w1
    ∧ ∀ acts w2, run_actions acts w1 = (Ret (), w2) →
        submit_and_wait 4096 0 acts (Some (submitting [read_sqe])) =
        match fulfilled 4096 w2 with
        | Some res => (Ret res, Some (upd_handlers (delete 4096) (unpark [4096] (submitting [read_sqe]) w2)))
        | None => (Hang, Some w2)
        end.
Proof.
  destruct (submit_and_wait_spec list_uring_laws cell_promise_laws only_awaitable_laws
    list_uring_submits_all 4096 0 read_sqe (submitting [read_sqe]) eq_refl) as (r & w1 & Hs & _ & Hrest).
  exists r, w1. split; [exact Hs|exact Hrest].
Defined.

(** a cancellation is already queued, and another entry pending *)
Definition submitting_busy : worker list_uring (option Z) :=
  upd_cancel (λ _, [8192]) (submitting [fsync_sqe; read_sqe]).

Lemma stop_cancels_wait_witness :
  ∃ w',
    submit_and_wait 4096 1 [stop_source_request 1; drain_cqes bufs [Cqe k_notify_tag 8 0];
      drain_cqes bufs [Cqe 4096 (- ECANCELED) 0]] (Some submitting_busy)
      = (Ret (- ECANCELED), Some w')
    ∧ sq_submitted (w_ring w') =
        [fsync_sqe; set_data 4096 read_sqe; cancel_sqe 8192; cancel_sqe 4096; notify_sqe bufs]
    ∧ w_handlers w' !! 4096 = None.
Proof.
  apply (stop_cancels_wait list_uring_laws cell_promise_laws only_awaitable_laws
    list_uring_submits_all bufs 4096 1 read_sqe submitting_busy 1 stop_source_new 0);
    try reflexivity. right. reflexivity.
Defined.

Lemma submit_with_timeout_spec_witness :
  ∃ r w1, sq_submitted r = [set_data 4096 (or_flags IOSQE_IO_LINK read_sqe); link_timeout_sqe 1500000000]
    ∧ ∀ acts w2, run_actions acts w1 = (Ret (), w2) → fulfilled 4096 w2 = Some (- ECANCELED) →
        (submit_and_wait_with_timeout 4096 0 1500000000 acts (Some (submitting [read_sqe]))).1
        = Ret (- ECANCELED).
Proof.
  destruct (submit_with_timeout_spec list_uring_laws cell_promise_laws only_awaitable_laws
    list_uring_submits_all 4096 0 read_sqe 1500000000 (submitting [read_sqe]) eq_refl)
    as (r & w1 & Hs & _ & _ & Hrun).
  exists r, w1. split; [exact Hs|]. intros acts w2 Hr Hf. rewrite (Hrun acts w2 Hr), Hf. reflexivity.
Defined.

Definition linked_aws : list Z := [4096; 4160; 4224; 4288; 4352; 4416; 4480; 4544].

Lemma submit_linked_spec_witness :
  submit_linked_and_wait linked_aws [] 0 [] (Some (submitting [])) = (Exn InvalidArgument, Some (submitting [])) ∧
  ∃ r w1, sq_submitted r = [or_flags IOSQE_IO_LINK (set_data 4096 read_sqe); set_data 4160 fsync_sqe]
    ∧ (∃ w2, stop_source_request 0 w1 = (Ret (), w2) ∧ cancel_queue_ (w_sched w2) = [4096; 4160])
    ∧ ∀ acts w2, run_actions acts w1 = (Ret (), w2) →
        fulfilled 4096 w2 = Some 64 → fulfilled 4160 w2 = Some 0 →
        (submit_linked_and_wait linked_aws [0; 1]%nat 2 [acts] (Some (submitting [read_sqe; fsync_sqe]))).1
        = Ret [64; 0].
Proof.
  destruct (submit_linked_spec list_uring_laws cell_promise_laws only_awaitable_laws
    list_uring_submits_all bufs linked_aws eq_refl) as (Hbad & Hok).
  split; [apply Hbad; by left|].
  destruct (Hok [] [read_sqe; fsync_sqe] (submitting [read_sqe; fsync_sqe])) as (r & w1 & Hs & _ & _ & Hst & Hrun);
    [reflexivity|simpl; unfold k_max_linked_ops; lia|].
  exists r, w1. split; [exact Hs|]. split.
  - destruct (Hst 0%nat stop_source_new) as (_ & w2 & E & Hq & _); [by left|reflexivity|reflexivity|].
    exists w2. split; [exact E|exact Hq].
  - intros acts w2 Hr H1 H2. destruct (Hrun acts w2 [64; 0] Hr) as (w' & E & _).
    + repeat constructor; assumption.
    + simpl in E. rewrite E. reflexivity.
Defined.
End witnesses.

(** a ring whose submissions the kernel refuses *)
Module BusyUring.
Import ListUring CellPromise.

Definition submit (r : ring) : Z * ring := (- EBUSY, r).

#[export] Instance busy_uring : Liburing := {|
  uring := ring; sq_entries := entries; sq_pending := pending;
  sq_submitted := submitted; io_uring_get_sqe := get_sqe; sqe_store := store;
  io_uring_submit := submit |}.

#[export] Instance busy_uring_laws : LiburingLaws busy_uring.
Proof.
  split; simpl.
  - exact (get_sqe_null (L := list_uring)).
  - exact (get_sqe_next (L := list_uring)).
  - exact (sqe_store_frame (L := list_uring)).
  - intros r n r' [= <- <-] Hn. done.
  - intros r n r' [= <- <-] _. done.
Qed.

#[export] Instance busy_awaitable : CqeHandler (L := busy_uring) (P := cell_promise) (option Z) := {|
  Scheduler.complete := OnlyAwaitable.complete; io_awaitable p := p; as_awaitable p := Some p |}.

Definition busy (es : list sqe) : worker busy_uring (option Z) :=
  {| w_pool := {| running_ := true; work_queue_ := []; eventfd_ := 0; in_flight_ := 1 |};
     w_sched := {| ring_ := {| entries := k_ring_entries; pending := es; submitted := [] |} : @uring busy_uring;
                   ready_ := []; cancel_queue_ := []; notify_fd_ := 0 |};
     w_handlers := ∅; w_fibers := []; w_stops := {[ 0%nat := stop_source_new ]};
     w_pool_stop := 0%nat; w_fiber_stop := None |}.
End BusyUring.

Section busy_witness.
Import CellPromise BusyUring.

Lemma submit_failure_dangling_witness :
  ∃ w', submit_and_wait 4096 0 [] (Some (busy [read_sqe])) = (Exn (SystemError EBUSY), Some w')
    ∧ sq_pending (w_ring w') !! 0%nat = Some (set_data 4096 read_sqe)
    ∧ ∀ res flags, handle_cqe OnlyAwaitable.bufs (Cqe 4096 res flags) w' = (Undef, w').
Proof.
  eapply (submit_failure_dangling busy_uring_laws OnlyAwaitable.bufs 4096 0 read_sqe
    (busy [read_sqe]) (- EBUSY)); reflexivity.
Defined.
End busy_witness.
