(* ===== verification/AsyncIo.v ===== *)
(** * AsyncIo: the asynchronous operations (src/async_io.cpp, include/fiberexec/fd_ref.hpp)

    One definition per operation.  A buffer is its address and its size; an
    operation's awaitable addresses and what happens while its fiber is
    suspended are passed on to the functions of [Submit].  [op] lists the
    operations of a single entry, so that one theorem covers them all. *)

From S2P Require Import Prelude Cxx Uring Boost Scheduler Submit.

Local Open Scope Z_scope.

(** ** File descriptor arguments *)

Record fd_ref := FdRef { index : Z; fixed : bool }.
Definition fd_of_int (fd : Z) : fd_ref := {| index := fd; fixed := false |}.
Definition fd_of_fixed (slot : Z) : fd_ref := {| index := slot; fixed := true |}.

Record span := Span { data : Z; size : Z }.

Section operations.
Context {L : Liburing} {P : Promise} {H : Type} {HC : CqeHandler H}.
Abbreviation thread := (option (worker L H)).
Abbreviation action := (cxx (worker L H) ()).

(** [sqe = io_uring_get_sqe(ring); io_uring_prep_*(sqe, ...)]: the entry is
    written through without a check for NULL *)
Definition prep_sqe (p : prep) : cxx thread nat :=
  on_worker (λ w,
    match io_uring_get_sqe (w_ring w) with
    | None => (Undef, w)
    | Some (sqe, r) => (Ret sqe, upd_ring (λ _, sqe_store sqe (prepped p) r) w)
    end).

(** [if (fd.fixed) { sqe->flags |= IOSQE_FIXED_FILE; }] *)
Definition fixed_file (fd : fd_ref) (sqe : nat) : cxx thread () :=
  if fixed fd then on_worker (sqe_update sqe (or_flags IOSQE_FIXED_FILE)) else mret ().

Definition async_read (fd : fd_ref) (buf : span) (timeout : option Z) (aw : Z) (acts : list action) :
    cxx thread Z :=
  _ ← begin_async_op;
  sqe ← prep_sqe (PrepRead (index fd) (data buf) (to_u32 (size buf)) 0);
  _ ← fixed_file fd sqe;
  res ← dispatch aw sqe timeout acts;
  if res <? 0 then throw (SystemError (- res)) else mret res.

Definition async_write (fd : fd_ref) (buf : span) (timeout : option Z) (aw : Z) (acts : list action) :
    cxx thread Z :=
  _ ← begin_async_op;
  sqe ← prep_sqe (PrepWrite (index fd) (data buf) (to_u32 (size buf)) 0);
  _ ← fixed_file fd sqe;
  res ← dispatch aw sqe timeout acts;
  if res <? 0 then throw (SystemError (- res)) else mret res.

Definition async_accept (fd addr addrlen : Z) (timeout : option Z) (aw : Z) (acts : list action) :
    cxx thread Z :=
  _ ← begin_async_op;
  sqe ← prep_sqe (PrepAccept fd addr addrlen 0);
  res ← dispatch aw sqe timeout acts;
  if res <? 0 then throw (SystemError (- res)) else mret res.

Definition async_openat (dirfd path flags mode : Z) (timeout : option Z) (aw : Z)
    (acts : list action) : cxx thread Z :=
  _ ← begin_async_op;
  sqe ← prep_sqe (PrepOpenat dirfd path flags mode);
  res ← dispatch aw sqe timeout acts;
  if res <? 0 then throw (SystemError (- res)) else mret res.

(** no [begin_async_op]: a stop already requested does not keep a descriptor
    open *)
Definition async_close (fd : Z) (aw : Z) (acts : list action) : cxx thread () := λ t,
  match t with
  | None => (Exn RuntimeError, None)
  | Some _ =>
      (sqe ← prep_sqe (PrepClose fd);
       res ← submit_and_wait aw sqe acts;
       if res <? 0 then throw (SystemError (- res)) else mret ()) t
  end.

Definition async_connect (fd : fd_ref) (addr addrlen : Z) (timeout : option Z) (aw : Z)
    (acts : list action) : cxx thread () :=
  _ ← begin_async_op;
  sqe ← prep_sqe (PrepConnect (index fd) addr addrlen);
  _ ← fixed_file fd sqe;
  res ← dispatch aw sqe timeout acts;
  if res <? 0 then throw (SystemError (- res)) else mret ().

Definition async_recv (fd : fd_ref) (buf : span) (flags : Z) (timeout : option Z) (aw : Z)
    (acts : list action) : cxx thread Z :=
  _ ← begin_async_op;
  sqe ← prep_sqe (PrepRecv (index fd) (data buf) (size buf) flags);
  _ ← fixed_file fd sqe;
  res ← dispatch aw sqe timeout acts;
  if res <? 0 then throw (SystemError (- res)) else mret res.

Definition async_send (fd : fd_ref) (buf : span) (flags : Z) (timeout : option Z) (aw : Z)
    (acts : list action) : cxx thread Z :=
  _ ← begin_async_op;
  sqe ← prep_sqe (PrepSend (index fd) (data buf) (size buf) flags);
  _ ← fixed_file fd sqe;
  res ← dispatch aw sqe timeout acts;
  if res <? 0 then throw (SystemError (- res)) else mret res.

(** the two results of a chain of two *)
Definition both (res : list Z) : Z * Z := (default 0 (res !! 0%nat), default 0 (res !! 1%nat)).

Definition async_send_recv (fd : fd_ref) (send_buf recv_buf : span) (send_flags recv_flags : Z)
    (aws : list Z) (acts : list (list action)) : cxx thread (Z * Z) :=
  _ ← begin_async_op;
  sqe0 ← prep_sqe (PrepSend (index fd) (data send_buf) (size send_buf) send_flags);
  _ ← fixed_file fd sqe0;
  sqe1 ← prep_sqe (PrepRecv (index fd) (data recv_buf) (size recv_buf) recv_flags);
  _ ← fixed_file fd sqe1;
  res ← submit_linked_and_wait aws [sqe0; sqe1] 2 acts;
  let '(front, back) := both res in
  if front <? 0 then throw (SystemError (- front))
  else if back <? 0 then throw (SystemError (- back))
  else mret (front, back).

Definition async_write_fsync (fd : fd_ref) (buf : span) (aws : list Z) (acts : list (list action)) :
    cxx thread Z :=
  _ ← begin_async_op;
  sqe0 ← prep_sqe (PrepWrite (index fd) (data buf) (to_u32 (size buf)) 0);
  _ ← fixed_file fd sqe0;
  sqe1 ← prep_sqe (PrepFsync (index fd) 0);
  _ ← fixed_file fd sqe1;
  res ← submit_linked_and_wait aws [sqe0; sqe1] 2 acts;
  let '(front, back) := both res in
  if front <? 0 then throw (SystemError (- front))
  else if back <? 0 then throw (SystemError (- back))
  else mret front.

Definition async_sleep_for (duration : Z) (aw : Z) (acts : list action) : cxx thread () :=
  _ ← begin_async_op;
  if duration <=? 0 then mret ()
  else
    sqe ← prep_sqe (PrepTimeout (timespec_of_ns duration) 0 0);
    res ← submit_and_wait aw sqe acts;
    if decide (res ≠ - ETIME) then throw (SystemError (- res)) else mret ().

(** ** The operations of a single entry *)

Inductive op :=
  | Read (fd : fd_ref) (buf : span)
  | Write (fd : fd_ref) (buf : span)
  | Accept (fd addr addrlen : Z)
  | Openat (dirfd path flags mode : Z)
  | Connect (fd : fd_ref) (addr addrlen : Z)
  | Recv (fd : fd_ref) (buf : span) (flags : Z)
  | Send (fd : fd_ref) (buf : span) (flags : Z).

(** the operation's result; a [void] operation has none *)
Definition run_op (o : op) (timeout : option Z) (aw : Z) (acts : list action) :
    cxx thread (option Z) :=
  match o with
  | Read fd buf => r ← async_read fd buf timeout aw acts; mret (Some r)
  | Write fd buf => r ← async_write fd buf timeout aw acts; mret (Some r)
  | Accept fd a l => r ← async_accept fd a l timeout aw acts; mret (Some r)
  | Openat d p f m => r ← async_openat d p f m timeout aw acts; mret (Some r)
  | Connect fd a l => _ ← async_connect fd a l timeout aw acts; mret None
  | Recv fd buf f => r ← async_recv fd buf f timeout aw acts; mret (Some r)
  | Send fd buf f => r ← async_send fd buf f timeout aw acts; mret (Some r)
  end.
End operations.

(** what the kernel is asked to do: the call and whether [fd] is an index into
    the registered descriptors *)
Definition request (o : op) : prep * bool :=
  match o with
  | Read fd buf => (PrepRead (index fd) (data buf) (to_u32 (size buf)) 0, fixed fd)
  | Write fd buf => (PrepWrite (index fd) (data buf) (to_u32 (size buf)) 0, fixed fd)
  | Accept fd a l => (PrepAccept fd a l 0, false)
  | Openat d p f m => (PrepOpenat d p f m, false)
  | Connect fd a l => (PrepConnect (index fd) a l, fixed fd)
  | Recv fd buf f => (PrepRecv (index fd) (data buf) (size buf) f, fixed fd)
  | Send fd buf f => (PrepSend (index fd) (data buf) (size buf) f, fixed fd)
  end.
Definition is_void (o : op) : bool := match o with Connect _ _ _ => true | _ => false end.

Definition entry (rq : prep * bool) : sqe :=
  if rq.2 then or_flags IOSQE_FIXED_FILE (prepped rq.1) else prepped rq.1.

(** the entries an operation passes to the kernel *)
Definition entries (e : sqe) (timeout : option Z) (aw : Z) : list sqe :=
  match timeout with
  | None => [set_data aw e]
  | Some t => [set_data aw (or_flags IOSQE_IO_LINK e); link_timeout_sqe t]
  end.

(** ** Lemmas *)

Section theory.
Context {L : Liburing} {HL : LiburingLaws L} {P : Promise} {HP : PromiseLaws P}
  {H : Type} {HC : CqeHandler H} {HCL : CqeHandlerLaws H HC}.
Context (Hall : ∀ r : uring, submits_all r).
Implicit Types w : worker L H.

Lemma begin_ok w :
  stop_requested (w_fiber_stop w) w = false → begin_async_op (Some w) = (Ret (), Some w).
Proof. intros Hs. unfold begin_async_op. by rewrite Hs. Qed.

(** an entry prepared at the end of the pending ones *)
Lemma prep_entry p fd w :
  (length (sq_pending (w_ring w)) < sq_entries (w_ring w))%nat →
  ∃ r, (∀ A (k : nat → cxx (option (worker L H)) A),
      (sqe ← prep_sqe p; _ ← fixed_file fd sqe; k sqe) (Some w) =
      k (length (sq_pending (w_ring w))) (Some (upd_ring (λ _, r) w)))
    ∧ sq_pending r = sq_pending (w_ring w) ++ [entry (p, fixed fd)]
    ∧ sq_submitted r = sq_submitted (w_ring w) ∧ sq_entries r = sq_entries (w_ring w).
Proof using HL.
  intros Hroom. destruct (io_uring_get_sqe (w_ring w)) as [[i r0]|] eqn:Eg; last first.
  { apply get_sqe_null in Eg. lia. }
  destruct (get_sqe_next _ _ _ Eg) as (-> & Hp0 & Hs0 & He0).
  set (n := length (sq_pending (w_ring w))) in *.
  assert (∀ e, sq_pending (sqe_store n e r0) = sq_pending (w_ring w) ++ [e]
    ∧ sq_submitted (sqe_store n e r0) = sq_submitted (w_ring w)
    ∧ sq_entries (sqe_store n e r0) = sq_entries (w_ring w)) as Hst.
  { intros e. destruct (sqe_store_frame n e r0) as (-> & -> & ->). rewrite Hp0.
    unfold n. rewrite insert_app_r_alt, Nat.sub_diag by lia. done. }
  destruct (Hst (prepped p)) as (Hp1 & Hs1 & He1).
  assert (prep_sqe p (Some w) = (Ret n, Some (upd_ring (λ _, sqe_store n (prepped p) r0) w))) as Ep.
  { unfold prep_sqe, on_worker. by rewrite Eg. }
  unfold fixed_file, entry. simpl. destruct (fixed fd).
  - destruct (sqe_update_spec n (or_flags IOSQE_FIXED_FILE) (prepped p)
      (upd_ring (λ _, sqe_store n (prepped p) r0) w)) as (r & E & Hp & Hs & He).
    { change (w_ring (upd_ring _ w)) with (sqe_store n (prepped p) r0).
      rewrite Hp1. by rewrite list_lookup_middle. }
    change (w_ring (upd_ring _ w)) with (sqe_store n (prepped p) r0) in *.
    exists r. split.
    { intros A k. bind_ret.
      by erewrite cxx_bind_ret by (unfold on_worker; by rewrite E). }
    rewrite Hp, Hs, He, Hp1, Hs1, He1. split; [|done].
    unfold n. by rewrite insert_app_r_alt, Nat.sub_diag by lia.
  - eexists. split; [|done]. intros A k. by do 2 (bind_ret).
Qed.

Lemma dispatch_run a e pre timeout w :
  sq_pending (w_ring w) = pre ++ [e] → (length pre + 1 < sq_entries (w_ring w))%nat →
  ∃ r w1, sq_submitted r = sq_submitted (w_ring w) ++ pre ++ entries e timeout a
    ∧ sq_pending r = [] ∧ sq_entries r = sq_entries (w_ring w)
    ∧ parked [a] (upd_ring (λ _, r) (upd_handlers <[a := io_awaitable promise_new]> w)) w1
    ∧ resumes a w w1 (λ acts, dispatch a (length pre) timeout acts (Some w)).
Proof using All.
  intros Hp Hroom.
  assert (sq_pending (w_ring w) !! length pre = Some e) as Hi by (rewrite Hp; by apply list_lookup_middle).
  destruct timeout as [t|]; simpl.
  - destruct (submit_timeout_room a (length pre) e t w Hall Hi) as (r & w1 & Hs & Hpd & He & Hrest).
    { rewrite Hp, length_app. simpl. lia. }
    exists r, w1. split; [|done]. rewrite Hs, Hp, insert_app_r_alt, Nat.sub_diag by lia. simpl.
    by rewrite <-app_assoc.
  - destruct (submit_and_wait_run a (length pre) e w Hall Hi) as (r & w1 & Hs & Hpd & He & Hrest).
    exists r, w1. split; [|done]. by rewrite Hs, Hp, insert_app_r_alt, Nat.sub_diag by lia.
Qed.

(** what the single-entry operations have in common *)
Definition io_op (p : prep) (fd : fd_ref) (timeout : option Z) (aw : Z)
    (acts : list (cxx (worker L H) ())) : cxx (option (worker L H)) Z :=
  _ ← begin_async_op;
  sqe ← prep_sqe p;
  _ ← fixed_file fd sqe;
  dispatch aw sqe timeout acts.

Lemma run_op_io_op o timeout aw acts w o' (t' : option (worker L H)) :
  io_op (request o).1 (FdRef 0 (request o).2) timeout aw acts (Some w) = (o', t') →
  run_op o timeout aw acts (Some w) =
  match o' with
  | Ret res => (if res <? 0 then Exn (SystemError (- res))
                else Ret (if is_void o then None else Some res), t')
  | Exn e => (Exn e, t') | Undef => (Undef, t') | Abort => (Abort, t') | Hang => (Hang, t')
  end.
Proof using Type.
  unfold io_op, mbind, cxx_mbind, cxx_bind.
  destruct o; simpl;
    unfold async_read, async_write, async_accept, async_openat, async_connect, async_recv, async_send,
      fixed_file, throw, mret, cxx_mret, cxx_ret, mbind, cxx_mbind, cxx_bind; simpl;
    repeat (case_match; simpl); intros; simplify_eq; try done; congruence.
Qed.
Lemma io_op_run p fd timeout a w :
  stop_requested (w_fiber_stop w) w = false →
  sq_pending (w_ring w) = [] → (1 < sq_entries (w_ring w))%nat →
  ∃ r w1, sq_submitted r = sq_submitted (w_ring w) ++ entries (entry (p, fixed fd)) timeout a
    ∧ sq_pending r = [] ∧ sq_entries r = sq_entries (w_ring w)
    ∧ parked [a] (upd_ring (λ _, r) (upd_handlers <[a := io_awaitable promise_new]> w)) w1
    ∧ resumes a w w1 (λ acts, io_op p fd timeout a acts (Some w)).
Proof using All.
  intros Hns Hp Hroom.
  destruct (prep_entry p fd w) as (r0 & Hk & Hp0 & Hs0 & He0); [rewrite Hp; simpl; lia|].
  rewrite Hp in Hk, Hp0.
  destruct (dispatch_run a (entry (p, fixed fd)) [] timeout (upd_ring (λ _, r0) w) Hp0)
    as (r & w1 & Hs & Hpd & He & Hpk & Hrun).
  { change (w_ring (upd_ring _ w)) with r0. rewrite He0. simpl. lia. }
  change (w_ring (upd_ring _ w)) with r0 in Hs, He.
  exists r, w1. split; [by rewrite Hs, Hs0|]. split; [done|]. split; [by rewrite He|].
  split; [exact Hpk|].
  split; intros acts w2 Hacts; unfold io_op; erewrite cxx_bind_ret by (by apply begin_ok);
    rewrite Hk; by apply Hrun.
Qed.
(** an entry with no descriptor to mark, submitted on its own *)
Lemma plain_run p a w :
  sq_pending (w_ring w) = [] → (1 < sq_entries (w_ring w))%nat →
  ∃ r w1, sq_submitted r = sq_submitted (w_ring w) ++ [set_data a (prepped p)]
    ∧ sq_pending r = []
    ∧ parked [a] (upd_ring (λ _, r) (upd_handlers <[a := io_awaitable promise_new]> w)) w1
    ∧ ∀ A acts w2 res (k : Z → cxx (option (worker L H)) A),
        run_actions acts w1 = (Ret (), w2) → fulfilled a w2 = Some res →
        (sqe ← prep_sqe p; res ← submit_and_wait a sqe acts; k res) (Some w) =
        k res (Some (upd_handlers (delete a) (unpark [a] w w2))).
Proof using All.
  intros Hp Hroom.
  destruct (prep_entry p (FdRef 0 false) w) as (r0 & Hk & Hp0 & Hs0 & He0); [rewrite Hp; simpl; lia|].
  rewrite Hp in Hk, Hp0.
  destruct (dispatch_run a (prepped p) [] None (upd_ring (λ _, r0) w) Hp0)
    as (r & w1 & Hs & Hpd & _ & Hpk & Hrun & _).
  { change (w_ring (upd_ring _ w)) with r0. rewrite He0. simpl. lia. }
  change (w_ring (upd_ring _ w)) with r0 in Hs.
  exists r, w1. split; [by rewrite Hs, Hs0|]. split; [done|]. split; [exact Hpk|].
  intros A acts w2 res k Hacts Hf.
  specialize (Hrun acts w2 Hacts). rewrite Hf in Hrun. unfold dispatch in Hrun.
  transitivity ((sqe ← prep_sqe p; _ ← fixed_file (FdRef 0 false) sqe;
    res ← submit_and_wait a sqe acts; k res) (Some w)).
  { unfold fixed_file, mbind, cxx_mbind, cxx_bind. by destruct (prep_sqe p (Some w)) as [[] ?]. }
  rewrite Hk. by erewrite cxx_bind_ret by exact Hrun.
Qed.

(** two entries prepared and submitted as a chain *)
Definition linked_op (p0 p1 : prep) (fd : fd_ref) (aws : list Z)
    (acts : list (list (cxx (worker L H) ()))) : cxx (option (worker L H)) (list Z) :=
  _ ← begin_async_op;
  sqe0 ← prep_sqe p0;
  _ ← fixed_file fd sqe0;
  sqe1 ← prep_sqe p1;
  _ ← fixed_file fd sqe1;
  submit_linked_and_wait aws [sqe0; sqe1] 2 acts.

Lemma linked_op_run p0 p1 fd a0 a1 aws w :
  stop_requested (w_fiber_stop w) w = false →
  sq_pending (w_ring w) = [] → (1 < sq_entries (w_ring w))%nat →
  length aws = 6%nat →
  ∃ r w1, sq_submitted r = sq_submitted (w_ring w) ++
      [or_flags IOSQE_IO_LINK (set_data a0 (entry (p0, fixed fd))); set_data a1 (entry (p1, fixed fd))]
    ∧ sq_pending r = []
    ∧ parked [a0; a1] (upd_ring (λ _, r) (upd_handlers (with_new (a0 :: a1 :: aws)) w)) w1
    ∧ ∀ acts w2 x y, run_actions acts w1 = (Ret (), w2) →
        fulfilled a0 w2 = Some x → fulfilled a1 w2 = Some y →
        linked_op p0 p1 fd (a0 :: a1 :: aws) [acts] (Some w) =
        (Ret [x; y], Some (upd_handlers (without (a0 :: a1 :: aws)) (unpark [a0; a1] w w2))).
Proof using All.
  intros Hns Hp Hroom Hlen.
  destruct (prep_entry p0 fd w) as (r0 & Hk0 & Hp0 & Hs0 & He0); [rewrite Hp; simpl; lia|].
  rewrite Hp in Hk0, Hp0.
  destruct (prep_entry p1 fd (upd_ring (λ _, r0) w)) as (r1 & Hk1 & Hp1 & Hs1 & He1);
    change (w_ring (upd_ring _ w)) with r0 in *; [rewrite Hp0, He0; simpl; lia|].
  rewrite Hp0 in Hk1, Hp1.
  destruct (submit_linked_run (a0 :: a1 :: aws) [] [entry (p0, fixed fd); entry (p1, fixed fd)]
    (upd_ring (λ _, r1) w) Hall Hp1) as (r & w1 & Hs & Hpd & _ & Hpk & Hrun);
    [simpl; unfold k_max_linked_ops; lia|done|simpl; by rewrite Hlen|].
  change (w_ring (upd_ring _ w)) with r1 in Hs.
  exists r, w1. split; [by rewrite Hs, Hs1, Hs0|]. split; [done|]. split; [exact Hpk|].
  intros acts w2 x y Hacts Hx Hy. unfold linked_op. erewrite cxx_bind_ret by (by apply begin_ok).
  rewrite Hk0, Hk1. apply (Hrun acts w2 [x; y] Hacts). by repeat constructor.
Qed.

Lemma linked_op_then {A} p0 p1 fd aws acts (k : list Z → cxx (option (worker L H)) A) t o t' :
  linked_op p0 p1 fd aws acts t = (Ret o, t') →
  (_ ← begin_async_op; sqe0 ← prep_sqe p0; _ ← fixed_file fd sqe0; sqe1 ← prep_sqe p1;
   _ ← fixed_file fd sqe1; res ← submit_linked_and_wait aws [sqe0; sqe1] 2 acts; k res) t = k o t'.
Proof using Type.
  unfold linked_op, mbind, cxx_mbind, cxx_bind. repeat (case_match; simpl); intros; by simplify_eq.
Qed.
End theory.

Section properties.
Context {L : Liburing} {P : Promise} {H : Type} {HC : CqeHandler H}.
Implicit Types w : worker L H.

(** C14: every operation of a single entry asks for what it was given, but for
    the size of a read or write, which is cut to the 32 bits of the entry, and
    reports exactly what the kernel answered.  On a worker, with no stop
    requested, nothing pending and [io_uring_submit] accepting the entries: the
    entry passed to the kernel is the operation's own, with the
    fixed-file flag exactly when its descriptor is a registered one, and with
    a linked timeout behind it when one was asked for; the fiber is suspended
    with its cancel callbacks registered; a non-negative result is returned
    and a negative one is thrown as the [std::system_error] of its errno. *)
Theorem async_op_spec (HL : LiburingLaws L) (HP : PromiseLaws P) (HCL : CqeHandlerLaws H HC)
    (Hall : ∀ r : uring, submits_all r) o timeout a w :
  stop_requested (w_fiber_stop w) w = false →
  sq_pending (w_ring w) = [] → (1 < sq_entries (w_ring w))%nat →
  ∃ r w1, sq_submitted r = sq_submitted (w_ring w) ++ entries (entry (request o)) timeout a
    ∧ sq_pending r = []
    ∧ parked [a] (upd_ring (λ _, r) (upd_handlers <[a := io_awaitable promise_new]> w)) w1
    ∧ ∀ acts w2 res, run_actions acts w1 = (Ret (), w2) → fulfilled a w2 = Some res →
        run_op o timeout a acts (Some w) =
        (if res <? 0 then Exn (SystemError (- res))
         else Ret (if is_void o then None else Some res),
         Some (upd_handlers (delete a) (unpark [a] w w2))).
Proof.
  intros Hns Hp Hroom.
  destruct (io_op_run Hall (request o).1 (FdRef 0 (request o).2) timeout a w Hns Hp Hroom)
    as (r & w1 & Hs & Hpd & _ & Hpk & Hrun & _).
  exists r, w1. split; [by rewrite Hs; destruct (request o)|]. split; [done|]. split; [done|].
  intros acts w2 res Hacts Hf. specialize (Hrun acts w2 Hacts). rewrite Hf in Hrun.
  by rewrite (run_op_io_op _ _ _ _ _ _ _ Hrun).
Qed.

(** The guard of every operation.  Off a worker thread each of them throws
    [std::runtime_error]; on a worker whose fiber has been asked to stop, each
    of them but [async_close] throws the [std::system_error] of ECANCELED
    before it takes an entry, and leaves the worker as it was. *)
Theorem async_op_guard timeout a acts acts2 aws :
  (∀ o, run_op o timeout a acts (None : option (worker L H)) = (Exn RuntimeError, None)) ∧
  (∀ fd, async_close fd a acts (None : option (worker L H)) = (Exn RuntimeError, None)) ∧
  (∀ w, stop_requested (w_fiber_stop w) w = true →
    (∀ o, run_op o timeout a acts (Some w) = (Exn (SystemError ECANCELED), Some w)) ∧
    (∀ d, async_sleep_for d a acts (Some w) = (Exn (SystemError ECANCELED), Some w)) ∧
    (∀ fd b, async_write_fsync fd b aws acts2 (Some w) = (Exn (SystemError ECANCELED), Some w)) ∧
    (∀ fd b1 b2 f1 f2, async_send_recv fd b1 b2 f1 f2 aws acts2 (Some w)
      = (Exn (SystemError ECANCELED), Some w))).
Proof.
  split; [by intros []|]. split; [done|]. intros w Hs.
  assert (begin_async_op (Some w) = (Exn (SystemError ECANCELED), Some w)) as Hb
    by (unfold begin_async_op; by rewrite Hs).
  split_and!; intros; try (by eauto with cxx).
  destruct o; eauto with cxx.
Qed.
(** [async_send_recv] is one chain of two.  The send, linked to the recv,
    and the recv go to the kernel in one call; a stop cancels both; with both
    results in, a failed send is reported first, then a failed recv, and the
    pair of counts is returned only when both succeeded. *)
Theorem async_send_recv_spec (HL : LiburingLaws L) (HP : PromiseLaws P) (HCL : CqeHandlerLaws H HC)
    (Hall : ∀ r : uring, submits_all r) fd sb rb sf rf a0 a1 aws w :
  stop_requested (w_fiber_stop w) w = false →
  sq_pending (w_ring w) = [] → (1 < sq_entries (w_ring w))%nat → length aws = 6%nat →
  ∃ r w1, sq_submitted r = sq_submitted (w_ring w) ++
      [or_flags IOSQE_IO_LINK (set_data a0 (entry (PrepSend (index fd) (data sb) (size sb) sf, fixed fd)));
       set_data a1 (entry (PrepRecv (index fd) (data rb) (size rb) rf, fixed fd))]
    ∧ parked [a0; a1] (upd_ring (λ _, r) (upd_handlers (with_new (a0 :: a1 :: aws)) w)) w1
    ∧ ∀ acts w2 x y, run_actions acts w1 = (Ret (), w2) →
        fulfilled a0 w2 = Some x → fulfilled a1 w2 = Some y →
        async_send_recv fd sb rb sf rf (a0 :: a1 :: aws) [acts] (Some w) =
        (if x <? 0 then Exn (SystemError (- x)) else if y <? 0 then Exn (SystemError (- y))
         else Ret (x, y), Some (upd_handlers (without (a0 :: a1 :: aws)) (unpark [a0; a1] w w2))).
Proof.
  intros Hns Hp Hroom Hlen.
  destruct (linked_op_run Hall (PrepSend (index fd) (data sb) (size sb) sf)
    (PrepRecv (index fd) (data rb) (size rb) rf) fd a0 a1 aws w Hns Hp Hroom Hlen)
    as (r & w1 & Hs & _ & Hpk & Hrun).
  exists r, w1. split; [done|]. split; [done|]. intros acts w2 x y Hacts Hx Hy.
  unfold async_send_recv. erewrite linked_op_then by (by apply Hrun). simpl.
  by destruct (x <? 0), (y <? 0).
Qed.

(** [async_write_fsync] returns the write's count only when the write and
    the fsync chained behind it both succeeded. *)
Theorem async_write_fsync_spec (HL : LiburingLaws L) (HP : PromiseLaws P) (HCL : CqeHandlerLaws H HC)
    (Hall : ∀ r : uring, submits_all r) fd b a0 a1 aws w :
  stop_requested (w_fiber_stop w) w = false →
  sq_pending (w_ring w) = [] → (1 < sq_entries (w_ring w))%nat → length aws = 6%nat →
  ∃ r w1, sq_submitted r = sq_submitted (w_ring w) ++
      [or_flags IOSQE_IO_LINK
         (set_data a0 (entry (PrepWrite (index fd) (data b) (to_u32 (size b)) 0, fixed fd)));
       set_data a1 (entry (PrepFsync (index fd) 0, fixed fd))]
    ∧ parked [a0; a1] (upd_ring (λ _, r) (upd_handlers (with_new (a0 :: a1 :: aws)) w)) w1
    ∧ ∀ acts w2 x y, run_actions acts w1 = (Ret (), w2) →
        fulfilled a0 w2 = Some x → fulfilled a1 w2 = Some y →
        ((async_write_fsync fd b (a0 :: a1 :: aws) [acts] (Some w)).1 = Ret x ↔ 0 ≤ x ∧ 0 ≤ y)
        ∧ (x < 0 ∨ y < 0 → ∃ e, (async_write_fsync fd b (a0 :: a1 :: aws) [acts] (Some w)).1
                                   = Exn (SystemError e)).
Proof.
  intros Hns Hp Hroom Hlen.
  destruct (linked_op_run Hall (PrepWrite (index fd) (data b) (to_u32 (size b)) 0)
    (PrepFsync (index fd) 0) fd a0 a1 aws w Hns Hp Hroom Hlen) as (r & w1 & Hs & _ & Hpk & Hrun).
  exists r, w1. split; [done|]. split; [done|]. intros acts w2 x y Hacts Hx Hy.
  unfold async_write_fsync. erewrite linked_op_then by (by apply Hrun). simpl.
  destruct (Z.ltb_spec x 0), (Z.ltb_spec y 0); simpl; split; try (split; [done|lia]);
    try (by eexists); try lia; split; (done || lia).
Qed.
(** [async_sleep_for] sleeps for its duration.  A duration that is not
    positive returns at once and touches nothing; a positive one is passed to
    the kernel as a timeout whose normalised timespec is exactly the duration;
    the expiry of that timeout is the normal return, and anything else is
    thrown. *)
Theorem async_sleep_spec (HL : LiburingLaws L) (HP : PromiseLaws P) (HCL : CqeHandlerLaws H HC)
    (Hall : ∀ r : uring, submits_all r) d a w :
  stop_requested (w_fiber_stop w) w = false →
  sq_pending (w_ring w) = [] → (1 < sq_entries (w_ring w))%nat →
  if d <=? 0 then ∀ acts, async_sleep_for d a acts (Some w) = (Ret (), Some w)
  else ∃ ts r w1, tv_sec ts * 1000000000 + tv_nsec ts = d ∧ 0 ≤ tv_nsec ts < 1000000000
    ∧ sq_submitted r = sq_submitted (w_ring w) ++ [set_data a (prepped (PrepTimeout ts 0 0))]
    ∧ parked [a] (upd_ring (λ _, r) (upd_handlers <[a := io_awaitable promise_new]> w)) w1
    ∧ ∀ acts w2 res, run_actions acts w1 = (Ret (), w2) → fulfilled a w2 = Some res →
        async_sleep_for d a acts (Some w) =
        (if decide (res = - ETIME) then Ret () else Exn (SystemError (- res)),
         Some (upd_handlers (delete a) (unpark [a] w w2))).
Proof.
  intros Hns Hp Hroom. unfold async_sleep_for.
  destruct (Z.leb_spec d 0) as [Hd|Hd].
  { intros acts. by erewrite cxx_bind_ret by (by apply begin_ok). }
  destruct (plain_run Hall (PrepTimeout (timespec_of_ns d) 0 0) a w Hp Hroom)
    as (r & w1 & Hs & _ & Hpk & Hrun).
  exists (timespec_of_ns d), r, w1. split; [apply timespec_of_ns_total|].
  split; [apply timespec_of_ns_normal; lia|]. split; [done|]. split; [done|].
  intros acts w2 res Hacts Hf. erewrite cxx_bind_ret by (by apply begin_ok).
  rewrite (Hrun _ acts w2 res); [|done..]. by repeat case_decide.
Qed.

(** A descriptor is closed even by a fiber that was asked to stop: whatever
    the stop tokens say, [async_close] passes its entry to the kernel and waits
    for it; a negative result is thrown. *)
Theorem async_close_spec (HL : LiburingLaws L) (HP : PromiseLaws P) (HCL : CqeHandlerLaws H HC)
    (Hall : ∀ r : uring, submits_all r) fd a w :
  sq_pending (w_ring w) = [] → (1 < sq_entries (w_ring w))%nat →
  ∃ r w1, sq_submitted r = sq_submitted (w_ring w) ++ [set_data a (prepped (PrepClose fd))]
    ∧ parked [a] (upd_ring (λ _, r) (upd_handlers <[a := io_awaitable promise_new]> w)) w1
    ∧ ∀ acts w2 res, run_actions acts w1 = (Ret (), w2) → fulfilled a w2 = Some res →
        async_close fd a acts (Some w) =
        (if res <? 0 then Exn (SystemError (- res)) else Ret (),
         Some (upd_handlers (delete a) (unpark [a] w w2))).
Proof.
  intros Hp Hroom. destruct (plain_run Hall (PrepClose fd) a w Hp Hroom)
    as (r & w1 & Hs & _ & Hpk & Hrun).
  exists r, w1. split; [done|]. split; [done|]. intros acts w2 res Hacts Hf.
  unfold async_close. rewrite (Hrun _ acts w2 res); [|done..]. by destruct (res <? 0).
Qed.
End properties.

(** ** Witnesses *)

Section witnesses.
Import ListUring CellPromise OnlyAwaitable.

(** a worker whose fiber has been asked to stop *)
Definition stopping : worker list_uring (option Z) :=
  upd_stops <[1%nat := (request_stop stop_source_new).2]> (submitting []).

Abbreviation idle := (submitting []).
Definition reading : op := Read (fd_of_fixed 3) (Span 1024 64).

Lemma async_op_spec_witness :
  ∃ r w1, sq_submitted r =
      [set_data 4096 (or_flags IOSQE_IO_LINK (or_flags IOSQE_FIXED_FILE (prepped (PrepRead 3 1024 64 0))));
       link_timeout_sqe 5000000]
    ∧ parked [4096] (upd_ring (λ _, r) (upd_handlers <[4096 := None]> idle)) w1
    ∧ ∀ acts w2, run_actions acts w1 = (Ret (), w2) → fulfilled 4096 w2 = Some (-125) →
        (run_op reading (Some 5000000) 4096 acts (Some idle)).1 = Exn (SystemError ECANCELED).
Proof.
  destruct (async_op_spec list_uring_laws cell_promise_laws only_awaitable_laws list_uring_submits_all
    reading (Some 5000000) 4096 idle) as (r & w1 & Hs & _ & Hpk & Hrun);
    [reflexivity|reflexivity|simpl; unfold k_ring_entries; lia|].
  exists r, w1. split; [exact Hs|]. split; [exact Hpk|].
  intros acts w2 Hacts Hf. rewrite (Hrun acts w2 _ Hacts Hf). reflexivity.
Defined.

Lemma async_op_guard_witness :
  run_op reading None 4096 [] (Some stopping) = (Exn (SystemError ECANCELED), Some stopping).
Proof.
  destruct (async_op_guard (H := option Z) None 4096 [] [] []) as (_ & _ & Hg).
  apply (Hg stopping). reflexivity.
Defined.

Lemma async_send_recv_spec_witness :
  ∃ r w1, sq_submitted r =
      [or_flags IOSQE_IO_LINK (set_data 4096 (prepped (PrepSend 5 1024 16 0)));
       set_data 4160 (prepped (PrepRecv 5 2048 32 0))]
    ∧ ∀ acts w2, run_actions acts w1 = (Ret (), w2) →
        fulfilled 4096 w2 = Some 16 → fulfilled 4160 w2 = Some (-104) →
        (async_send_recv (fd_of_int 5) (Span 1024 16) (Span 2048 32) 0 0
          (4096 :: 4160 :: replicate 6 4224) [acts] (Some idle)).1 = Exn (SystemError 104).
Proof.
  destruct (async_send_recv_spec list_uring_laws cell_promise_laws only_awaitable_laws
    list_uring_submits_all (fd_of_int 5) (Span 1024 16) (Span 2048 32) 0 0 4096 4160
    (replicate 6 4224) idle) as (r & w1 & Hs & _ & Hrun);
    [reflexivity|reflexivity|simpl; unfold k_ring_entries; lia|reflexivity|].
  exists r, w1. split; [exact Hs|]. intros acts w2 Hacts Hx Hy.
  rewrite (Hrun acts w2 _ _ Hacts Hx Hy). reflexivity.
Defined.

Lemma async_write_fsync_spec_witness :
  ∃ w1, ∀ acts w2, run_actions acts w1 = (Ret (), w2) →
    fulfilled 4096 w2 = Some 16 → fulfilled 4160 w2 = Some 0 →
    (async_write_fsync (fd_of_int 5) (Span 1024 16) (4096 :: 4160 :: replicate 6 4224)
       [acts] (Some idle)).1 = Ret 16.
Proof.
  destruct (async_write_fsync_spec list_uring_laws cell_promise_laws only_awaitable_laws
    list_uring_submits_all (fd_of_int 5) (Span 1024 16) 4096 4160 (replicate 6 4224) idle)
    as (r & w1 & _ & _ & Hrun);
    [reflexivity|reflexivity|simpl; unfold k_ring_entries; lia|reflexivity|].
  exists w1. intros acts w2 Hacts Hx Hy. apply (Hrun acts w2 _ _ Hacts Hx Hy). lia.
Defined.

Lemma async_sleep_spec_witness :
  ∃ ts r w1, tv_sec ts * 1000000000 + tv_nsec ts = 2500000000
    ∧ sq_submitted r = [set_data 4096 (prepped (PrepTimeout ts 0 0))]
    ∧ ∀ acts w2, run_actions acts w1 = (Ret (), w2) → fulfilled 4096 w2 = Some (- ETIME) →
        (async_sleep_for 2500000000 4096 acts (Some idle)).1 = Ret ().
Proof.
  destruct (async_sleep_spec list_uring_laws cell_promise_laws only_awaitable_laws
    list_uring_submits_all 2500000000 4096 idle) as (ts & r & w1 & Ht & _ & Hs & _ & Hrun);
    [reflexivity|reflexivity|simpl; unfold k_ring_entries; lia|].
  exists ts, r, w1. split; [exact Ht|]. split; [exact Hs|]. intros acts w2 Hacts Hf.
  rewrite (Hrun acts w2 _ Hacts Hf). reflexivity.
Defined.

Lemma async_close_spec_witness :
  ∃ r w1, sq_submitted r = [set_data 4096 (prepped (PrepClose 9))]
    ∧ ∀ acts w2, run_actions acts w1 = (Ret (), w2) → fulfilled 4096 w2 = Some 0 →
        (async_close 9 4096 acts (Some stopping)).1 = Ret ().
Proof.
  destruct (async_close_spec list_uring_laws cell_promise_laws only_awaitable_laws
    list_uring_submits_all 9 4096 stopping) as (r & w1 & Hs & _ & Hrun);
    [reflexivity|simpl; unfold k_ring_entries; lia|].
  exists r, w1. split; [exact Hs|]. intros acts w2 Hacts Hf.
  rewrite (Hrun acts w2 _ Hacts Hf). reflexivity.
Defined.
End witnesses.
