(* ===== verification/Io.v ===== *)
(** * Io: the asynchronous operations as a fiber sees them
    (include/fiberexec/async_io.hpp)

    A fiber that calls an asynchronous operation is suspended and resumed with
    the kernel's answer; how is the subject of [AsyncIo] and the files below
    it.  Here is the contract the header states and programs are written
    against: each call is answered by the kernel (a parameter, [Kernel]), a
    non-negative result is returned, a negative one is thrown.  The state of a
    fiber's run is the list of the calls it has made with their answers.
    [sqe_call] is how the kernel reads a submission entry, and
    [async_op_contract] shows that the entries the operations of [AsyncIo]
    submit are read as the calls made here, and end as they do. *)

From S2P Require Import Prelude Cxx Uring Boost Scheduler Submit AsyncIo.

Local Open Scope Z_scope.

Abbreviation bytes := (list Byte.byte).

(** the implicit conversion [fd_ref(int)] *)
Coercion fd_of_int : Z >-> fd_ref.

(** what the kernel is asked for: the io_uring requests of the asynchronous
    operations, and the system calls the programs make themselves *)
Inductive call :=
  | CRead (fd : fd_ref) (len : Z)
  | CWrite (fd : fd_ref) (bs : bytes) (offset : Z)
  | CAccept (fd : Z)
  | COpenat (dirfd : Z) (path : string) (flags mode : Z)
  | CConnect (fd : fd_ref)
  | CRecv (fd : fd_ref) (len flags : Z)
  | CSend (fd : fd_ref) (bs : bytes) (flags : Z)
  | CClose (fd : Z)
  | CTimeout (ts : timespec)
  | SysSocket
  | SysSetReuseAddr (fd : Z)
  | SysBind (fd : Z)
  | SysListen (fd backlog : Z)
  | SysClose (fd : Z)
  | SysShutdown (fd : Z).

(** an answer: the result, and the bytes written to the caller's buffer *)
Record reply := Reply { r_res : Z; r_data : bytes }.

(** the calls of a run with their answers, oldest first *)
Abbreviation trace := (list (call * reply)).

(** what a call may write to the caller's buffer, and what it takes from it *)
Definition input_len (c : call) : option Z :=
  match c with CRead _ len | CRecv _ len _ => Some len | _ => None end.
Definition output (c : call) : option bytes :=
  match c with CWrite _ bs _ | CSend _ bs _ => Some bs | _ => None end.

(** ** The kernel

    Its answer to a call depends on everything the fiber has asked before and,
    being an arbitrary function, on everything else; [None] is a call that is
    never answered. *)
Class Kernel : Type := { answer : trace → call → option reply }.

(** read(2), recv(2), write(2), send(2): the result counts the bytes
    transferred, and these are no more than asked for *)
Class KernelLaws (K : Kernel) : Prop := {
  answer_input tr c r len :
    answer tr c = Some r → input_len c = Some len → 0 ≤ r_res r →
    r_res r = Z.of_nat (length (r_data r)) ∧ r_res r ≤ len;
  answer_output tr c r bs :
    answer tr c = Some r → output c = Some bs → r_res r ≤ Z.of_nat (length bs)
}.

(** ** The operations *)

Section operations.
Context {K : Kernel}.

Abbreviation fiber := (cxx trace).

Definition issue (c : call) : fiber reply := λ tr,
  match answer tr c with
  | Some r => (Ret r, tr ++ [(c, r)])
  | None => (Hang, tr)
  end.

(** a system call: the caller looks at the result, if anyone does *)
Definition syscall (c : call) : fiber Z := r ← issue c; mret (r_res r).

(** the contract of the asynchronous operations *)
Definition async_call (c : call) : fiber reply :=
  r ← issue c;
  if r_res r <? 0 then throw (SystemError (- r_res r)) else mret r.

(** a buffer whose first bytes have been overwritten *)
Definition fill (bs buf : bytes) : bytes := bs ++ drop (length bs) buf.

(** the part of a buffer that its size, passed as [unsigned], counts *)
Definition take_u32 (bs : bytes) : bytes := take (Z.to_nat (to_u32 (Z.of_nat (length bs)))) bs.

(** the number of bytes read, and the buffer afterwards *)
Definition io_read (fd : fd_ref) (buf : bytes) : fiber (Z * bytes) :=
  r ← async_call (CRead fd (to_u32 (Z.of_nat (length buf)))); mret (r_res r, fill (r_data r) buf).
Definition io_write (fd : fd_ref) (bs : bytes) : fiber Z :=
  r ← async_call (CWrite fd (take_u32 bs) 0); mret (r_res r).
Definition io_accept (fd : Z) : fiber Z := r ← async_call (CAccept fd); mret (r_res r).
Definition io_openat (dirfd : Z) (path : string) (flags mode : Z) : fiber Z :=
  r ← async_call (COpenat dirfd path flags mode); mret (r_res r).
Definition io_close (fd : Z) : fiber () := _ ← async_call (CClose fd); mret ().
Definition io_connect (fd : fd_ref) : fiber () := _ ← async_call (CConnect fd); mret ().
Definition io_recv (fd : fd_ref) (buf : bytes) (flags : Z) : fiber (Z * bytes) :=
  r ← async_call (CRecv fd (Z.of_nat (length buf)) flags); mret (r_res r, fill (r_data r) buf).
Definition io_send (fd : fd_ref) (bs : bytes) (flags : Z) : fiber Z :=
  r ← async_call (CSend fd bs flags); mret (r_res r).
Definition io_sleep_for (duration : Z) : fiber () :=
  if duration <=? 0 then mret ()
  else
    r ← issue (CTimeout (timespec_of_ns duration));
    if decide (r_res r ≠ - ETIME) then throw (SystemError (- r_res r)) else mret ().

(** [try { m } catch (std::system_error const&) { }]; Boost's exceptions
    derive from it *)
Definition try_system_error (m : fiber ()) : fiber () :=
  catch m (λ e, match e with
                | SystemError _ | FiberError | FutureError => mret ()
                | _ => throw e
                end).
End operations.

(** ** What the kernel reads from a submission entry

    io_uring_enter(2): the call an entry stands for, its buffers and strings
    read from memory.  [None] is an entry that is no call of a fiber. *)
Section requests.
Context (mem : Z → Byte.byte) (str : Z → string).

Definition load (a n : Z) : bytes := (λ i, mem (a + Z.of_nat i)) <$> seq 0 (Z.to_nat n).

Definition sqe_file (e : sqe) (fd : Z) : fd_ref :=
  {| index := fd; fixed := negb (Z.land (sqe_flags e) IOSQE_FIXED_FILE =? 0) |}.

Definition sqe_call (e : sqe) : option call :=
  match sqe_prep e with
  | PrepRead fd _ n 0 => Some (CRead (sqe_file e fd) n)
  | PrepWrite fd buf n off => Some (CWrite (sqe_file e fd) (load buf n) off)
  | PrepAccept fd _ _ 0 => if fixed (sqe_file e fd) then None else Some (CAccept fd)
  | PrepOpenat d p f m => Some (COpenat d (str p) f m)
  | PrepClose fd => Some (CClose fd)
  | PrepConnect fd _ _ => Some (CConnect (sqe_file e fd))
  | PrepRecv fd _ n f => Some (CRecv (sqe_file e fd) n f)
  | PrepSend fd buf n f => Some (CSend (sqe_file e fd) (load buf n) f)
  | PrepTimeout ts 0 0 => Some (CTimeout ts)
  | _ => None
  end.

(** an operation of [AsyncIo] as a fiber calls it: its result, if it has one *)
Definition fiber_op {K : Kernel} (o : op) : cxx trace (option Z) :=
  match o with
  | Read fd buf => r ← io_read fd (load (data buf) (size buf)); mret (Some r.1)
  | Write fd buf => r ← io_write fd (load (data buf) (size buf)); mret (Some r)
  | Accept fd _ _ => r ← io_accept fd; mret (Some r)
  | Openat d p f m => r ← io_openat d (str p) f m; mret (Some r)
  | Connect fd _ _ => _ ← io_connect fd; mret None
  | Recv fd buf f => r ← io_recv fd (load (data buf) (size buf)) f; mret (Some r.1)
  | Send fd buf f => r ← io_send fd (load (data buf) (size buf)) f; mret (Some r)
  end.

(** the buffer of an operation has a size ([size_t]) *)
Definition sized (o : op) : Prop :=
  match o with
  | Read _ buf | Write _ buf | Recv _ buf _ | Send _ buf _ => 0 ≤ size buf
  | _ => True
  end.
End requests.

(** ** Lemmas *)

Section theory.
Context {K : Kernel}.
Implicit Types tr : trace.

Lemma issue_ret c r tr : answer tr c = Some r → issue c tr = (Ret r, tr ++ [(c, r)]).
Proof. intros E. unfold issue. by rewrite E. Qed.

Lemma syscall_ret c r tr : answer tr c = Some r → syscall c tr = (Ret (r_res r), tr ++ [(c, r)]).
Proof. intros E. unfold syscall. by erewrite cxx_bind_ret by (by apply issue_ret). Qed.

Lemma async_call_ret c r tr :
  answer tr c = Some r → 0 ≤ r_res r → async_call c tr = (Ret r, tr ++ [(c, r)]).
Proof.
  intros E Hr. unfold async_call. erewrite cxx_bind_ret by (by apply issue_ret).
  destruct (Z.ltb_spec (r_res r) 0); [lia|done].
Qed.

Lemma async_call_exn c r tr :
  answer tr c = Some r → r_res r < 0 →
  async_call c tr = (Exn (SystemError (- r_res r)), tr ++ [(c, r)]).
Proof.
  intros E Hr. unfold async_call. erewrite cxx_bind_ret by (by apply issue_ret).
  destruct (Z.ltb_spec (r_res r) 0); [done|lia].
Qed.

(** an operation that is an asynchronous call and a function of its answer *)
Lemma async_bind_ret {A} c r tr (k : reply → cxx trace A) :
  answer tr c = Some r → 0 ≤ r_res r → (async_call c ≫= k) tr = k r (tr ++ [(c, r)]).
Proof. intros. by erewrite cxx_bind_ret by (by apply async_call_ret). Qed.

Lemma async_bind_exn {A} c r tr (k : reply → cxx trace A) :
  answer tr c = Some r → r_res r < 0 →
  (async_call c ≫= k) tr = (Exn (SystemError (- r_res r)), tr ++ [(c, r)]).
Proof. intros. by apply cxx_bind_exn, async_call_exn. Qed.

Lemma fill_length bs buf : (length bs ≤ length buf)%nat → length (fill bs buf) = length buf.
Proof. intros. unfold fill. rewrite length_app, length_drop. lia. Qed.

Lemma take_u32_small bs : Z.of_nat (length bs) < 2 ^ 32 → take_u32 bs = bs.
Proof using Type. intros. unfold take_u32, to_u32. rewrite wrap_id by lia. by rewrite Nat2Z.id, firstn_all. Qed.

Lemma take_fill bs buf : take (length bs) (fill bs buf) = bs.
Proof. unfold fill. by rewrite take_app_length. Qed.

(** code that returns, throws an exception of [E], or waits for ever *)
Definition throws_only (E : exn → Prop) {A} (m : cxx trace A) : Prop := ∀ tr,
  match (m tr).1 with Ret _ | Hang => True | Exn e => E e | _ => False end.

Definition system_error (e : exn) : Prop := ∃ code, e = SystemError code.

Lemma throws_bind E {A B} (m : cxx trace A) (k : A → cxx trace B) :
  throws_only E m → (∀ a, throws_only E (k a)) → throws_only E (m ≫= k).
Proof.
  intros Hm Hk tr. specialize (Hm tr). unfold mbind, cxx_mbind, cxx_bind.
  destruct (m tr) as [[] tr']; try done. by apply Hk.
Qed.

Lemma throws_ret E {A} (a : A) : throws_only E (mret a).
Proof. by intros tr. Qed.

Lemma throws_issue E c : throws_only E (issue c).
Proof. intros tr. unfold issue. by destruct (answer tr c). Qed.

Lemma throws_async_call c : throws_only system_error (async_call c).
Proof.
  apply throws_bind; [apply throws_issue|]. intros r tr. destruct (r_res r <? 0); [|done].
  by eexists.
Qed.

Lemma throws_if E {A} (b : bool) (m1 m2 : cxx trace A) :
  throws_only E m1 → throws_only E m2 → throws_only E (if b then m1 else m2).
Proof. by destruct b. Qed.

Lemma throws_try E (m : cxx trace ()) :
  throws_only system_error m → throws_only E (try_system_error m).
Proof.
  intros Hm tr. specialize (Hm tr). unfold try_system_error, catch.
  destruct (m tr) as [[] tr']; try done. simpl in Hm. by destruct Hm as [code ->].
Qed.
End theory.

(** ** The entry of an operation is the call a fiber makes *)

Section decode.
Context {K : Kernel} (mem : Z → Byte.byte) (str : Z → string).
Implicit Types tr : trace.

Lemma load_length a n : length (load mem a n) = Z.to_nat n.
Proof. unfold load. by rewrite length_fmap, length_seq. Qed.

Lemma load_u32 a n : 0 ≤ n → take_u32 (load mem a n) = load mem a (to_u32 n).
Proof.
  intros Hn. unfold take_u32. rewrite load_length, Z2Nat.id by done.
  assert (to_u32 n ≤ n) by (unfold to_u32, wrap; apply Z.mod_le; lia).
  unfold load. rewrite <-fmap_take. by rewrite take_seq, Nat.min_l by lia.
Qed.

(** an answered call, and one that is not, as the fiber sees it *)
Lemma async_call_run c tr :
  async_call c tr =
  match answer tr c with
  | Some r => (if r_res r <? 0 then Exn (SystemError (- r_res r)) else Ret r, tr ++ [(c, r)])
  | None => (Hang, tr)
  end.
Proof.
  unfold async_call, issue, mbind, cxx_mbind, cxx_bind. destruct (answer tr c) as [r|]; [|done].
  by destruct (r_res r <? 0).
Qed.

Definition op_call (o : op) (c : call) : Prop := ∀ tr,
  fiber_op mem str o tr = (r ← async_call c; mret (if is_void o then None else Some (r_res r))) tr.

Lemma entry_decodes o timeout a :
  sized o →
  ∃ e rest c, entries (entry (request o)) timeout a = e :: rest ∧ sqe_user_data e = a
    ∧ sqe_call mem str e = Some c ∧ op_call o c.
Proof.
  intros Hs. unfold op_call.
  destruct o as [[fd []] buf|[fd []] buf|fd ? ?|d p f m|[fd []] ? ?|[fd []] buf f|[fd []] buf f];
    destruct timeout; simpl in *; do 3 eexists; (split; [reflexivity|]); (split; [reflexivity|]);
    (split; [reflexivity|]); intros tr; simpl;
    unfold io_read, io_write, io_accept, io_openat, io_connect, io_recv, io_send;
    rewrite ?load_length, ?load_u32, ?Z2Nat.id by done;
    unfold mbind, cxx_mbind, cxx_bind; by destruct (async_call _ tr) as [[] ?].
Qed.
End decode.

Create HintDb io.
#[export] Hint Resolve throws_bind throws_ret throws_issue throws_async_call throws_if throws_try : io.

(** ** Properties *)

(** C15: the operations as programs are written against them are what the
    library does.  On a worker with no stop requested and nothing pending, when
    the ring accepts what is submitted, an operation submits an entry that
    carries its awaitable's address, followed by the link timeout when it has a
    deadline.  Read by the kernel, that entry is the very call that the
    operation of the same name makes in a fiber's run.  Whatever runs while the
    fiber is suspended, when the awaitable is fulfilled with the kernel's
    answer to that call, or is not when the kernel never answers, the operation
    returns, throws or waits exactly as the fiber's operation does. *)
Theorem async_op_contract {L : Liburing} {P : Promise} {H : Type} {HC : CqeHandler H}
    (HL : LiburingLaws L) (HP : PromiseLaws P) (HCL : CqeHandlerLaws H HC)
    (Hall : ∀ r : uring, submits_all r) (K : Kernel) mem str o timeout a (w : worker L H) :
  sized o → stop_requested (w_fiber_stop w) w = false →
  sq_pending (w_ring w) = [] → (1 < sq_entries (w_ring w))%nat →
  ∃ e c r w1,
    sq_submitted r = sq_submitted (w_ring w) ++ e :: (if timeout is Some t then [link_timeout_sqe t] else [])
    ∧ sqe_user_data e = a ∧ sqe_call mem str e = Some c
    ∧ parked [a] (upd_ring (λ _, r) (upd_handlers <[a := io_awaitable promise_new]> w)) w1
    ∧ ∀ tr, (fiber_op mem str o tr).2 = tr ++ (if answer tr c is Some rep then [(c, rep)] else [])
      ∧ ∀ acts w2, run_actions acts w1 = (Ret (), w2) → fulfilled a w2 = r_res <$> answer tr c →
          (run_op o timeout a acts (Some w)).1 = (fiber_op mem str o tr).1.
Proof.
  intros Hsz Hns Hp Hroom.
  destruct (io_op_run Hall (request o).1 (FdRef 0 (request o).2) timeout a w Hns Hp Hroom)
    as (r & w1 & Hs & _ & _ & Hpk & Hrun & _).
  destruct (entry_decodes mem str o timeout a Hsz) as (e & rest & c & He & Ha & Hc & Hop).
  exists e, c, r, w1.
  split; [rewrite Hs; simpl; rewrite <-surjective_pairing, He; destruct timeout; naive_solver|].
  do 3 (split; [done|]). intros tr. specialize (Hop tr). unfold mbind, cxx_mbind, cxx_bind in Hop.
  rewrite async_call_run in Hop. rewrite Hop. clear Hop. split.
  { destruct (answer tr c) as [rep|]; [|by rewrite app_nil_r]. by destruct (r_res rep <? 0). }
  intros acts w2 Hacts Hf. specialize (Hrun acts w2 Hacts). rewrite Hf in Hrun.
  destruct (answer tr c) as [rep|]; simpl in Hrun; rewrite (run_op_io_op _ _ _ _ _ _ _ Hrun); [|done].
  simpl. by destruct (r_res rep <? 0).
Qed.

(** The same contract for the two operations that are not of that shape: a
    [async_close] ends as the fiber's [io_close] does, also in a fiber asked to
    stop, and an [async_sleep_for] in a fiber that is not ends as [io_sleep_for]
    does, without a call when there is nothing to wait for. *)
Theorem async_close_sleep_contract {L : Liburing} {P : Promise} {H : Type} {HC : CqeHandler H}
    (HL : LiburingLaws L) (HP : PromiseLaws P) (HCL : CqeHandlerLaws H HC)
    (Hall : ∀ r : uring, submits_all r) (K : Kernel) fd d a (w : worker L H) tr :
  sq_pending (w_ring w) = [] → (1 < sq_entries (w_ring w))%nat →
  (∀ rep, answer tr (CClose fd) = Some rep →
     ∃ r w1, sq_submitted r = sq_submitted (w_ring w) ++ [set_data a (prepped (PrepClose fd))]
       ∧ parked [a] (upd_ring (λ _, r) (upd_handlers <[a := io_awaitable promise_new]> w)) w1
       ∧ ∀ acts w2, run_actions acts w1 = (Ret (), w2) → fulfilled a w2 = Some (r_res rep) →
           (async_close fd a acts (Some w)).1 = (io_close fd tr).1)
  ∧ (stop_requested (w_fiber_stop w) w = false →
     (d ≤ 0 → ∀ acts, (async_sleep_for d a acts (Some w)).1 = (io_sleep_for d tr).1 ∧ (io_sleep_for d tr).2 = tr)
     ∧ ∀ rep, 0 < d → answer tr (CTimeout (timespec_of_ns d)) = Some rep →
         ∃ w1, ∀ acts w2, run_actions acts w1 = (Ret (), w2) → fulfilled a w2 = Some (r_res rep) →
           (async_sleep_for d a acts (Some w)).1 = (io_sleep_for d tr).1).
Proof.
  intros Hp Hroom. split.
  - intros rep Hans. destruct (async_close_spec HL HP HCL Hall fd a w Hp Hroom) as (r & w1 & Hs & Hpk & Hrun).
    exists r, w1. split; [done|]. split; [done|]. intros acts w2 Hacts Hf.
    rewrite (Hrun acts w2 _ Hacts Hf). unfold io_close. destruct (Z.ltb_spec (r_res rep) 0).
    + by rewrite (async_bind_exn _ _ _ _ Hans).
    + by rewrite (async_bind_ret _ _ _ _ Hans).
  - intros Hns. pose proof (async_sleep_spec HL HP HCL Hall d a w Hns Hp Hroom) as Hsl.
    unfold io_sleep_for. destruct (Z.leb_spec d 0) as [Hd|Hd]; split.
    + intros _ acts. by rewrite Hsl.
    + intros rep Hd'. lia.
    + lia.
    + intros rep _ Hans. destruct Hsl as (ts & r & w1 & _ & _ & _ & _ & Hrun). exists w1.
      intros acts w2 Hacts Hf. rewrite (Hrun acts w2 _ Hacts Hf).
      erewrite cxx_bind_ret by (by apply issue_ret). by repeat case_decide.
Qed.

(** ** Witnesses *)

Section witnesses.
Import ListUring CellPromise OnlyAwaitable.

(** a kernel that answers every call with [n], and 'A's where bytes are asked for *)
Definition constant_kernel (n : Z) : Kernel :=
  {| answer _ c := Some (Reply n (if input_len c is Some _
                                  then replicate (Z.to_nat n) Byte.x41 else [])) |}.

(** a send on a registered descriptor with a deadline: the call made, and the
    exception when the kernel answers -104 *)
Lemma async_op_contract_witness :
  ∃ c (r : @uring list_uring) w1,
    c = CSend (fd_of_fixed 7) [Byte.x41; Byte.x41] 0
    ∧ (∃ e, sq_submitted r = [e; link_timeout_sqe 5] ∧ sqe_user_data e = 4096
        ∧ sqe_call (λ _, Byte.x41) (λ _, EmptyString) e = Some c)
    ∧ ∀ acts w2, run_actions acts w1 = (Ret (), w2) → fulfilled 4096 w2 = Some (-104) →
        (run_op (Send (fd_of_fixed 7) (Span 1024 2) 0) (Some 5) 4096 acts (Some (submitting []))).1 =
        Exn (SystemError 104).
Proof.
  destruct (async_op_contract list_uring_laws cell_promise_laws only_awaitable_laws
    list_uring_submits_all (constant_kernel (-104)) (λ _, Byte.x41) (λ _, EmptyString)
    (Send (fd_of_fixed 7) (Span 1024 2) 0) (Some 5) 4096 (submitting []))
    as (e & c & r & w1 & Hs & Ha & Hc & _ & Hrun);
    [simpl; lia|reflexivity|reflexivity|simpl; unfold k_ring_entries; lia|].
  exists c, r, w1. destruct (Hrun []) as [Htr Hend]. vm_compute in Htr. simplify_eq.
  split; [reflexivity|]. split; [by exists e|]. exact Hend.
Defined.
End witnesses.
