(* ===== verification/Handlers.v ===== *)
(** * Handlers: the connection handlers of the example servers

    [handle_connection] of examples/echo_server_pool.cpp,
    examples/echo_server_multishot.cpp and examples/echo_to_file.cpp, the
    fibers of examples/echo_server.cpp and examples/async_pipeline.cpp, and
    the listening socket of common/tcp_helpers.hpp, over the contract of [Io].
    A loop whose end the kernel decides takes fuel; the theorems ask for more
    of it than the peer sends chunks.  Lines printed are not part of the
    model. *)

From stdpp Require Import pretty.
From S2P Require Import Prelude Cxx AsyncIo Io.

Local Open Scope Z_scope.

#[export] Instance fd_ref_eq_dec : EqDecision fd_ref.
Proof. solve_decision. Defined.

(** ** Definitions *)

Section handlers.
Context {K : Kernel}.
Abbreviation fiber := (cxx trace).

Definition out_of_fuel {A} : fiber A := λ tr, (Hang, tr).

(** [while ((n = async_recv(fd, buf)) > 0) { put(first n of buf); }] *)
Fixpoint recv_loop (fuel : nat) (fd : Z) (put : bytes → fiber Z) (buf : bytes) : fiber () :=
  match fuel with
  | O => out_of_fuel
  | S fuel =>
      '(n, buf) ← io_recv fd buf 0;
      if 0 <? n then
        _ ← put (take (Z.to_nat n) buf);
        recv_loop fuel fd put buf
      else mret ()
  end.

Definition echo_loop (fuel : nat) (fd : Z) (buf : bytes) : fiber () :=
  recv_loop fuel fd (λ bs, io_send fd bs 0) buf.

(** [std::array<char, 256> buf{}] *)
Definition array (n : nat) : bytes := replicate n Byte.x00.

(** [handle_connection] of echo_server_pool.cpp *)
Definition pool_handle_connection (fuel : nat) (fd : Z) : fiber () :=
  _ ← try_system_error (echo_loop fuel fd (array 256));
  _ ← syscall (SysClose fd);
  mret ().

(** [handle_connection] of echo_server_multishot.cpp *)
Definition multishot_handle_connection (fuel : nat) (fd : Z) : fiber () :=
  _ ← try_system_error (echo_loop fuel fd (array 256));
  io_close fd.

Definition log_loop (fuel : nat) (client_fd file_fd : Z) (buf : bytes) : fiber () :=
  recv_loop fuel client_fd (λ bs, io_write file_fd bs) buf.

Definition AT_FDCWD : Z := -100.
Definition O_WRONLY_CREAT_TRUNC : Z := Z.lor 1 (Z.lor 64 512).
Definition log_mode : Z := 420.   (** 0644 *)
Definition log_clients : Z := 6.  (** [kClients] of echo_to_file.cpp *)

Definition log_path (id : Z) : string := "connection_" +:+ pretty id +:+ ".log".

(** the state of the fibers of echo_to_file.cpp: [g_next_id] besides the calls *)
Definition lift {A} (m : fiber A) : cxx (Z * trace) A := λ '(g, tr),
  let '(o, tr') := m tr in (o, (g, tr')).

(** [counter.fetch_add(1)] on a [std::atomic<int>] *)
Definition fetch_add : cxx (Z * trace) Z := λ '(g, tr), (Ret g, (to_i32 (g + 1), tr)).

(** [handle_connection] of echo_to_file.cpp *)
Definition file_handle_connection (fuel : nat) (client_fd server_fd : Z) : cxx (Z * trace) () :=
  id ← fetch_add;
  file_fd ← lift (io_openat AT_FDCWD (log_path id) O_WRONLY_CREAT_TRUNC log_mode);
  _ ← lift (try_system_error (log_loop fuel client_fd file_fd (array 256)));
  _ ← lift (io_close file_fd);
  _ ← lift (io_close client_fd);
  if decide (id = log_clients - 1) then _ ← lift (syscall (SysShutdown server_fd)); mret ()
  else mret ().

(** [make_server_socket] of tcp_helpers.hpp *)
Definition make_server_socket : fiber Z :=
  fd ← syscall SysSocket;
  if fd <? 0 then mret (-1)
  else
    _ ← syscall (SysSetReuseAddr fd);
    _ ← syscall (SysBind fd);
    _ ← syscall (SysListen fd 4096);
    mret fd.

(** the server fiber of echo_server.cpp: [n] connections, one after the other *)
Fixpoint serve (n : nat) (server_fd : Z) : fiber () :=
  match n with
  | O => mret ()
  | S n =>
      conn_fd ← io_accept server_fd;
      '(k, buf) ← io_recv conn_fd (array 128) 0;
      _ ← io_send conn_fd (take (Z.to_nat k) buf) 0;
      _ ← syscall (SysClose conn_fd);
      serve n server_fd
  end.

(** a client fiber of echo_server.cpp: what it received *)
Definition client (msg : bytes) : fiber bytes :=
  fd ← syscall SysSocket;
  _ ← io_connect fd;
  _ ← io_send fd msg 0;
  '(n, buf) ← io_recv fd (array 128) 0;
  _ ← syscall (SysClose fd);
  mret (take (Z.to_nat n) buf).

(** the writer of async_pipeline.cpp: each message, then a pause of 100ms *)
Fixpoint writer (write_fd : Z) (messages : list bytes) : fiber () :=
  match messages with
  | [] => _ ← syscall (SysClose write_fd); mret ()
  | msg :: messages =>
      _ ← io_write write_fd msg;
      _ ← io_sleep_for 100000000;
      writer write_fd messages
  end.

(** the reader of async_pipeline.cpp: what it printed *)
Fixpoint read_loop (fuel : nat) (read_fd : Z) (buf out : bytes) : fiber bytes :=
  match fuel with
  | O => out_of_fuel
  | S fuel =>
      '(n, buf) ← io_read read_fd buf;
      if n =? 0 then mret out
      else read_loop fuel read_fd buf (out ++ take (Z.to_nat n) buf)
  end.

Definition reader (fuel : nat) (read_fd : Z) : fiber bytes :=
  out ← read_loop fuel read_fd (array 256) [];
  _ ← syscall (SysClose read_fd);
  mret out.
End handlers.

(** ** What a run has transferred *)

(** the bytes of one received chunk *)
Definition chunk (fd : fd_ref) (e : call * reply) : bytes :=
  match e.1 with
  | CRecv fd' _ _ | CRead fd' _ =>
      if decide (fd' = fd) then if 0 <? r_res e.2 then r_data e.2 else [] else []
  | _ => []
  end.
(** the bytes a call hands to the kernel, and those of them it takes *)
Definition handed (fd : fd_ref) (e : call * reply) : bytes :=
  match e.1 with
  | CSend fd' bs _ | CWrite fd' bs _ => if decide (fd' = fd) then bs else []
  | _ => []
  end.
Definition taken (fd : fd_ref) (e : call * reply) : bytes := take (Z.to_nat (r_res e.2)) (handed fd e).

Definition received (fd : fd_ref) (tr : trace) : bytes := tr ≫= chunk fd.
Definition posted (fd : fd_ref) (tr : trace) : bytes := tr ≫= handed fd.
Definition delivered (fd : fd_ref) (tr : trace) : bytes := tr ≫= taken fd.

(** the kernel takes every byte it is handed *)
Definition full_transfers (tr : trace) : Prop :=
  Forall (λ e, match output e.1 with
               | Some bs => r_res e.2 = Z.of_nat (length bs) | None => True end) tr.

(** how many chunks were asked for *)
Definition is_input (fd : fd_ref) (c : call) : bool :=
  match c with CRecv fd' _ _ | CRead fd' _ => bool_decide (fd' = fd) | _ => false end.
Definition inputs (fd : fd_ref) (tr : trace) : nat := length (filter (λ e, is_input fd e.1 = true) tr).

(** the contents of a file after a write at an offset, and after the writes of
    a run (pwrite(2), which a write request with an offset follows) *)
Definition pwrite (offset : Z) (bs file : bytes) : bytes :=
  let n := Z.to_nat offset in
  if bs is [] then file
  else take n file ++ replicate (n - length file) Byte.x00 ++ bs ++ drop (n + length bs) file.
Definition write_file (fd : fd_ref) (file : bytes) (e : call * reply) : bytes :=
  match e.1 with
  | CWrite fd' bs offset =>
      if decide (fd' = fd) then
        if 0 <=? r_res e.2 then pwrite offset (take (Z.to_nat (r_res e.2)) bs) file else file
      else file
  | _ => file
  end.
Definition file_after (fd : fd_ref) (tr : trace) (file : bytes) : bytes := foldl (write_file fd) file tr.

(** the chunks received, and the file that holds each of them from its start *)
Definition chunks (fd : fd_ref) (tr : trace) : list bytes :=
  omap (λ e, match chunk fd e with [] => None | bs => Some bs end) tr.
Definition overlay (file bs : bytes) : bytes := bs ++ drop (length bs) file.

(** ** Lemmas *)

Section theory.
Context {K : Kernel} {HK : KernelLaws K}.
Implicit Types tr ext : trace.

(** the kernel answers every call *)
Definition live : Prop := ∀ tr c, is_Some (answer tr c).
(** the peer of [fd] sends at most [n] chunks: the next one is an end of
    stream or an error *)
Definition ends_after (n : nat) (fd : fd_ref) : Prop := ∀ tr c r,
  answer tr c = Some r → is_input fd c = true → (n ≤ inputs fd tr)%nat → r_res r ≤ 0.

Lemma inputs_app fd tr1 tr2 : inputs fd (tr1 ++ tr2) = (inputs fd tr1 + inputs fd tr2)%nat.
Proof. unfold inputs. by rewrite filter_app, length_app. Qed.

Lemma inputs_in fd e : is_input fd e.1 = true → inputs fd [e] = 1%nat.
Proof. intros E. unfold inputs. by rewrite filter_cons_True. Qed.

(** a call that passes [bs] on to [out], and asks nothing of [fd] *)
Definition puts (fd out : fd_ref) (c : bytes → call) : Prop := ∀ bs,
  output (c bs) = Some bs ∧ is_input fd (c bs) = false
  ∧ ∀ r, handed out (c bs, r) = bs ∧ chunk fd (c bs, r) = [].

(** the calls of a loop and how it ends: at the end of the stream, by an error
    of the receiving call, or by an error of the other *)
Inductive rounds (fd : fd_ref) (c : bytes → call) : outcome () → trace → Prop :=
  | rounds_end len r :
      r_res r = 0 → rounds fd c (Ret ()) [(CRecv fd len 0, r)]
  | rounds_recv_error len r :
      r_res r < 0 → rounds fd c (Exn (SystemError (- r_res r))) [(CRecv fd len 0, r)]
  | rounds_put_error len r s :
      0 < r_res r → (length (r_data r) ≤ 256)%nat → r_res s < 0 →
      rounds fd c (Exn (SystemError (- r_res s))) [(CRecv fd len 0, r); (c (r_data r), s)]
  | rounds_more len r s o ext :
      0 < r_res r → (length (r_data r) ≤ 256)%nat → 0 ≤ r_res s → rounds fd c o ext →
      rounds fd c o ((CRecv fd len 0, r) :: (c (r_data r), s) :: ext).

Lemma io_recv_ret fd (buf : bytes) r tr :
  answer tr (CRecv fd (Z.of_nat (length buf)) 0) = Some r → 0 ≤ r_res r →
  io_recv fd buf 0 tr =
    (Ret (r_res r, fill (r_data r) buf), tr ++ [(CRecv fd (Z.of_nat (length buf)) 0, r)]).
Proof using Type. intros. unfold io_recv. by erewrite async_bind_ret. Qed.

Lemma io_recv_exn fd (buf : bytes) r tr :
  answer tr (CRecv fd (Z.of_nat (length buf)) 0) = Some r → r_res r < 0 →
  io_recv fd buf 0 tr =
    (Exn (SystemError (- r_res r)), tr ++ [(CRecv fd (Z.of_nat (length buf)) 0, r)]).
Proof using Type. intros. unfold io_recv. by erewrite async_bind_exn. Qed.

Lemma recv_loop_spec fuel n (fd : Z) out put c buf tr :
  live → ends_after n fd → puts fd out c →
  (∀ bs, (length bs ≤ 256)%nat → put bs = (r ← async_call (c bs); mret (r_res r))) →
  length buf = 256%nat → (0 < fuel)%nat → (n < inputs fd tr + fuel)%nat →
  ∃ ext o, recv_loop fuel fd put buf tr = (o, tr ++ ext) ∧ rounds fd c o ext.
Proof using HK.
  intros Hlive Hend Hput Heq. revert buf tr.
  induction fuel as [|fuel IH]; intros buf tr Hbuf Hf0 Hfuel; [lia|]. simpl.
  set (c0 := CRecv fd (Z.of_nat (length buf)) 0).
  assert (is_input fd c0 = true) as Hin by (by apply bool_decide_eq_true).
  destruct (Hlive tr c0) as [r Hr].
  destruct (Z.lt_ge_cases (r_res r) 0) as [Hneg|Hpos].
  { exists [(c0, r)]. eexists. split; [by apply cxx_bind_exn, io_recv_exn|by constructor]. }
  erewrite cxx_bind_ret by (by apply io_recv_ret). cbv beta iota.
  destruct (answer_input _ _ _ _ Hr eq_refl Hpos) as [Hlen Hle].
  destruct (Z.ltb_spec 0 (r_res r)) as [Hgt|Hz]; last first.
  { exists [(c0, r)]. eexists. split; [done|]. constructor. lia. }
  replace (take (Z.to_nat (r_res r)) (fill (r_data r) buf)) with (r_data r)
    by (by rewrite Hlen, Nat2Z.id, take_fill).
  rewrite (Heq (r_data r)) by lia.
  destruct (Hlive (tr ++ [(c0, r)]) (c (r_data r))) as [s Hs].
  destruct (Z.lt_ge_cases (r_res s) 0) as [Hsneg|Hspos].
  { eexists _, _. split; [|by apply (rounds_put_error _ _ (Z.of_nat (length buf)) r s); [done|lia|]].
    rewrite (cxx_bind_exn _ _ _ _ _ (async_bind_exn _ _ _ _ Hs Hsneg)). by rewrite <-app_assoc. }
  erewrite cxx_bind_ret by (by rewrite (async_bind_ret _ _ _ _ Hs Hspos)).
  assert (inputs fd tr < n)%nat as Hlt.
  { destruct (decide (inputs fd tr < n)%nat); [done|].
    pose proof (Hend _ _ _ Hr Hin ltac:(lia)). lia. }
  rewrite <-app_assoc. simpl.
  destruct (IH (fill (r_data r) buf) (tr ++ [(c0, r); (c (r_data r), s)])) as (ext & o & E & Ho).
  { rewrite fill_length; lia. }
  { lia. }
  { rewrite inputs_app. change [(c0, r); (c (r_data r), s)] with ([(c0, r)] ++ [(c (r_data r), s)]).
    rewrite inputs_app, (inputs_in fd (c0, r)) by done. lia. }
  exists ((c0, r) :: (c (r_data r), s) :: ext), o. split; [by rewrite E, <-app_assoc|].
  apply rounds_more; [done|lia|done..].
Qed.

(** what a loop hands on is what it received *)
Lemma chunk_recv fd len fl r :
  chunk fd (CRecv fd len fl, r) = if 0 <? r_res r then r_data r else [].
Proof using Type. unfold chunk. simpl. by rewrite decide_True. Qed.

Lemma rounds_posted fd out c o ext :
  puts fd out c → rounds fd c o ext → posted out ext = received fd ext.
Proof using Type.
  intros Hput. induction 1 as [len r Hr|len r Hr|len r s Hr ? ?|len r s o ext Hr ? ? _ IH];
    unfold posted, received in *; cbn [mbind list_bind]; rewrite chunk_recv;
    destruct (Z.ltb_spec 0 (r_res r)); try lia; try done;
    destruct (Hput (r_data r)) as (_ & _ & Hh); destruct (Hh s) as [-> ->]; simpl.
  - by rewrite !app_nil_r.
  - by rewrite IH.
Qed.

Lemma delivered_full fd tr : full_transfers tr → delivered fd tr = posted fd tr.
Proof using Type.
  unfold full_transfers, delivered, posted.
  induction 1 as [|[c r] tr Hc _ IH]; [done|]. csimpl. rewrite IH. f_equal.
  unfold taken, handed. simpl in *. destruct c; simpl in *; rewrite ?take_nil; try done;
    case_decide; rewrite ?take_nil, ?Hc, ?Nat2Z.id, ?firstn_all; done.
Qed.

Lemma try_rounds fd c o ext (m : cxx trace ()) tr tr' :
  rounds fd c o ext → m tr = (o, tr') → try_system_error m tr = (Ret (), tr').
Proof using Type.
  intros Hr E. unfold try_system_error, catch. rewrite E. clear E. by induction Hr.
Qed.

(** a write at offset 0 *)
Lemma pwrite_0 bs file : pwrite 0 bs file = overlay file bs.
Proof using Type. unfold pwrite, overlay. by destruct bs. Qed.

Lemma overlay_length bs file : length (overlay file bs) = (length bs `max` length file)%nat.
Proof using Type. unfold overlay. rewrite length_app, length_drop. lia. Qed.

Abbreviation logs out := (λ bs, CWrite out bs 0).

Lemma write_file_put out bs r file :
  0 ≤ r_res r → write_file out file (logs out bs, r) = overlay file (take (Z.to_nat (r_res r)) bs).
Proof using Type.
  intros. unfold write_file. simpl. rewrite decide_True by done.
  destruct (Z.leb_spec 0 (r_res r)); [|lia]. apply pwrite_0.
Qed.

Lemma write_file_failed out bs r file : r_res r < 0 → write_file out file (logs out bs, r) = file.
Proof using Type.
  intros. unfold write_file. simpl. rewrite decide_True by done.
  destruct (Z.leb_spec 0 (r_res r)); [lia|done].
Qed.

(** the log never outgrows the receive buffer *)
Lemma rounds_file_bound fd out o ext file :
  rounds fd (logs out) o ext → (length file ≤ 256)%nat → (length (file_after out ext file) ≤ 256)%nat.
Proof using Type.
  intros Hr. revert file. induction Hr as [| | |len r s o ext ? Hlen ? _ IH]; intros file Hf;
    [done|done|by simpl; rewrite write_file_failed|].
  simpl. rewrite write_file_put by done. apply IH. rewrite overlay_length, length_take. simpl. unfold write_file. simpl. lia.
Qed.

(** what the log holds: each chunk over the ones before it *)
Lemma rounds_file fd out o ext file :
  rounds fd (logs out) o ext → o = Ret () → full_transfers ext →
  file_after out ext file = foldl overlay file (chunks fd ext).
Proof using Type.
  intros Hr. revert file.
  induction Hr as [len r Hz| | |len r s o ext Hpos Hlen Hs _ IH]; intros file Ho Hfull; try done.
  - unfold chunks. csimpl. rewrite chunk_recv, Hz. done.
  - apply Forall_cons in Hfull as [_ Hfull]. apply Forall_cons in Hfull as [Hs' Hfull]. simpl in Hs'.
    simpl. rewrite write_file_put by done. rewrite Hs', Nat2Z.id, firstn_all, (IH _ Ho Hfull).
    unfold chunks. csimpl. rewrite chunk_recv. destruct (Z.ltb_spec 0 (r_res r)); [|lia].
    by destruct (r_data r).
Qed.
End theory.

(** the two loops of the handlers *)
Lemma echo_puts (fd : Z) : puts fd fd (λ bs, CSend fd bs 0).
Proof. split; [done|]. split; [done|]. split; [|done]. unfold handed. simpl. by rewrite decide_True. Qed.

Lemma log_puts (client file : Z) : puts client file (λ bs, CWrite file bs 0).
Proof. split; [done|]. split; [done|]. split; [|done]. unfold handed. simpl. by rewrite decide_True. Qed.

Lemma log_put {K : Kernel} (file : Z) (bs : bytes) :
  (length bs ≤ 256)%nat → io_write file bs = (r ← async_call (CWrite file bs 0); mret (r_res r)).
Proof. intros. unfold io_write. by rewrite take_u32_small by lia. Qed.

(** [lift]ed code *)
Lemma lift_bind_ret {A B} (m : cxx trace A) (k : A → cxx (Z * trace) B) g tr a tr' :
  m tr = (Ret a, tr') → (lift m ≫= k) (g, tr) = k a (g, tr').
Proof. intros E. erewrite cxx_bind_ret; [done|]. unfold lift. by rewrite E. Qed.

Lemma lift_bind_exn {A B} (m : cxx trace A) (k : A → cxx (Z * trace) B) g tr e tr' :
  m tr = (Exn e, tr') → (lift m ≫= k) (g, tr) = (Exn e, (g, tr')).
Proof. intros E. apply cxx_bind_exn. unfold lift. by rewrite E. Qed.

Lemma io_close_ret {K : Kernel} fd r tr :
  answer tr (CClose fd) = Some r →
  io_close fd tr = (if r_res r <? 0 then Exn (SystemError (- r_res r)) else Ret (), tr ++ [(CClose fd, r)]).
Proof.
  intros Hr. unfold io_close. destruct (Z.ltb_spec (r_res r) 0).
  - by rewrite (async_bind_exn _ _ _ _ Hr).
  - by rewrite (async_bind_ret _ _ _ _ Hr).
Qed.

(** ** The pipeline *)

Section pipeline.
Context {K : Kernel} {HK : KernelLaws K}.

Lemma chunk_read fd len r :
  chunk fd (CRead fd len, r) = if 0 <? r_res r then r_data r else [].
Proof using Type. unfold chunk. simpl. by rewrite decide_True. Qed.

Lemma received_app fd tr1 tr2 : received fd (tr1 ++ tr2) = received fd tr1 ++ received fd tr2.
Proof using Type. apply bind_app. Qed.

Lemma delivered_app fd tr1 tr2 : delivered fd (tr1 ++ tr2) = delivered fd tr1 ++ delivered fd tr2.
Proof using Type. apply bind_app. Qed.

(** the reader prints what it receives, or stops at an error *)
Lemma read_loop_spec fuel n (fd : Z) buf out tr :
  live → ends_after n fd → (0 < fuel)%nat → (n < inputs fd tr + fuel)%nat →
  (Z.of_nat (length buf) < 2 ^ 32) →
  ∃ ext, read_loop fuel fd buf out tr = (Ret (out ++ received fd ext), tr ++ ext)
    ∨ ∃ code, read_loop fuel fd buf out tr = (Exn (SystemError code), tr ++ ext).
Proof using HK.
  intros Hlive Hend. revert buf out tr.
  induction fuel as [|fuel IH]; intros buf out tr Hf0 Hfuel Hbuf; [lia|]. simpl.
  set (c := CRead fd (to_u32 (Z.of_nat (length buf)))).
  assert (is_input fd c = true) as Hin by (by apply bool_decide_eq_true).
  destruct (Hlive tr c) as [r Hr]. unfold io_read. fold c.
  destruct (Z.lt_ge_cases (r_res r) 0) as [Hneg|Hpos].
  { exists [(c, r)]. right. eexists. apply cxx_bind_exn. by rewrite (async_bind_exn _ _ _ _ Hr Hneg). }
  erewrite cxx_bind_ret by (by rewrite (async_bind_ret _ _ _ _ Hr Hpos)). cbv beta iota.
  destruct (answer_input _ _ _ _ Hr eq_refl Hpos) as [Hlen Hle].
  unfold to_u32 in Hle. rewrite wrap_id in Hle by lia.
  assert (received fd [(c, r)] = if 0 <? r_res r then r_data r else []) as Hrec.
  { unfold received. cbn [mbind list_bind]. unfold c. rewrite chunk_read. apply app_nil_r. }
  destruct (Z.eqb_spec (r_res r) 0) as [Hz|Hnz].
  { exists [(c, r)]. left. rewrite Hrec, Hz. simpl. by rewrite app_nil_r. }
  rewrite Hlen, Nat2Z.id, take_fill.
  destruct (Z.ltb_spec 0 (r_res r)) in Hrec; [|lia].
  destruct (IH (fill (r_data r) buf) (out ++ r_data r) (tr ++ [(c, r)])) as (ext & E).
  { destruct (decide (inputs fd tr < n)%nat); [lia|]. pose proof (Hend _ _ _ Hr Hin ltac:(lia)). lia. }
  { rewrite inputs_app, inputs_in by done. lia. }
  { rewrite fill_length; lia. }
  exists ((c, r) :: ext). change ((c, r) :: ext) with ([(c, r)] ++ ext).
  rewrite received_app, Hrec, !app_assoc. exact E.
Qed.

(** the kernel takes every write whole, and timers run out *)
Definition smooth : Prop := ∀ tr c r, answer tr c = Some r →
  match c with
  | CWrite _ bs _ => r_res r = Z.of_nat (length bs)
  | CTimeout _ => r_res r = - ETIME
  | _ => True
  end.

Lemma writer_spec (fd : Z) messages tr :
  live → smooth → Forall (λ msg : bytes, Z.of_nat (length msg) < 2 ^ 32) messages →
  ∃ ext r, writer fd messages tr = (Ret (), tr ++ ext ++ [(SysClose fd, r)])
    ∧ delivered fd ext = concat messages.
Proof using Type.
  intros Hlive Hsm Hlt. revert tr. induction Hlt as [|msg messages Hlt _ IH]; intros tr; simpl.
  { destruct (Hlive tr (SysClose fd)) as [r Hr]. exists [], r. split; [|done].
    by erewrite cxx_bind_ret by (by apply syscall_ret). }
  set (c := CWrite fd msg 0). destruct (Hlive tr c) as [r Hr].
  pose proof (Hsm _ _ _ Hr) as Hres. simpl in Hres.
  unfold io_write. rewrite take_u32_small by done. fold c.
  erewrite cxx_bind_ret by (rewrite (async_bind_ret _ _ _ _ Hr) by lia; done).
  set (ct := CTimeout (timespec_of_ns 100000000)).
  destruct (Hlive (tr ++ [(c, r)]) ct) as [s Hs]. pose proof (Hsm _ _ _ Hs) as Hst. simpl in Hst.
  assert (io_sleep_for 100000000 (tr ++ [(c, r)]) = (Ret (), (tr ++ [(c, r)]) ++ [(ct, s)])) as Et.
  { unfold io_sleep_for. simpl. fold ct. erewrite cxx_bind_ret by (by apply issue_ret).
    rewrite decide_False by (intros H; by apply H). done. }
  erewrite cxx_bind_ret by exact Et.
  destruct (IH ((tr ++ [(c, r)]) ++ [(ct, s)])) as (ext & rc & E & Hd).
  exists ([(c, r); (ct, s)] ++ ext), rc. split; [by rewrite E, <-!app_assoc|].
  rewrite delivered_app, Hd. f_equal. unfold delivered. csimpl.
  unfold taken, handed. simpl. rewrite decide_True by done.
  by rewrite Hres, Nat2Z.id, firstn_all, take_nil, !app_nil_r.
Qed.
End pipeline.

(** ** The single-fiber server *)

Section serve.
Context {K : Kernel} {HK : KernelLaws K}.

(** no call fails *)
Definition no_errors : Prop := ∀ tr c r, answer tr c = Some r → 0 ≤ r_res r.

(** the calls of [n] connections, each one received from, sent what was
    received, and closed before the next is accepted *)
Inductive served (server_fd : Z) : nat → trace → Prop :=
  | served_none : served server_fd 0 []
  | served_one n r0 r1 r2 r3 ext :
      served server_fd n ext →
      served server_fd (S n)
        ((CAccept server_fd, r0) :: (CRecv (r_res r0) 128 0, r1)
         :: (CSend (r_res r0) (r_data r1) 0, r2) :: (SysClose (r_res r0), r3) :: ext).

Lemma serve_spec n server_fd tr :
  live → no_errors → ∃ ext, serve n server_fd tr = (Ret (), tr ++ ext) ∧ served server_fd n ext.
Proof using HK.
  intros Hlive Hok. revert tr. induction n as [|n IH]; intros tr; simpl.
  { exists []. split; [by rewrite app_nil_r|constructor]. }
  destruct (Hlive tr (CAccept server_fd)) as [r0 H0]. unfold io_accept.
  erewrite cxx_bind_ret by (rewrite (async_bind_ret _ _ _ _ H0) by (by eapply Hok); done).
  match goal with |- context [(io_recv ?fd ?b ?f ≫= _) ?t] =>
    destruct (Hlive t (CRecv fd (Z.of_nat (length b)) f)) as [r1 H1] end.
  erewrite cxx_bind_ret by (apply io_recv_ret; [done|by eapply Hok]). cbv beta iota.
  destruct (answer_input _ _ _ _ H1 eq_refl (Hok _ _ _ H1)) as [Hlen _].
  rewrite Hlen, Nat2Z.id, take_fill. unfold array in *. rewrite length_replicate in *.
  match goal with |- context [(io_send ?fd ?b ?f ≫= _) ?t] =>
    destruct (Hlive t (CSend fd b f)) as [r2 H2] end. unfold io_send.
  erewrite cxx_bind_ret by (rewrite (async_bind_ret _ _ _ _ H2) by (by eapply Hok); done).
  match goal with |- context [(syscall ?c ≫= _) ?t] => destruct (Hlive t c) as [r3 H3] end.
  erewrite cxx_bind_ret by (by apply syscall_ret).
  match goal with |- context [serve n _ ?t] => destruct (IH t) as (ext & E & Hs) end.
  eexists. split; [rewrite E, <-!app_assoc; done|]. by constructor.
Qed.

(** a client returns what it received, after closing its socket *)
Lemma client_spec msg tr :
  live → no_errors →
  ∃ r0 r1 r2 r3 r4, client msg tr = (Ret (r_data r3), tr ++
    [(SysSocket, r0); (CConnect (r_res r0), r1); (CSend (r_res r0) msg 0, r2);
     (CRecv (r_res r0) 128 0, r3); (SysClose (r_res r0), r4)]).
Proof using HK.
  intros Hlive Hok. unfold client.
  destruct (Hlive tr SysSocket) as [r0 H0]. erewrite cxx_bind_ret by (by apply syscall_ret).
  match goal with |- context [(io_connect ?fd ≫= _) ?t] => destruct (Hlive t (CConnect fd)) as [r1 H1] end.
  unfold io_connect, io_send.
  erewrite cxx_bind_ret by (rewrite (async_bind_ret _ _ _ _ H1) by (by eapply Hok); done).
  match goal with |- context [(_ ≫= _) ?t] => destruct (Hlive t (CSend (r_res r0) msg 0)) as [r2 H2] end.
  erewrite cxx_bind_ret by (rewrite (async_bind_ret _ _ _ _ H2) by (by eapply Hok); done).
  match goal with |- context [(io_recv ?fd ?b ?f ≫= _) ?t] =>
    destruct (Hlive t (CRecv fd (Z.of_nat (length b)) f)) as [r3 H3] end.
  erewrite cxx_bind_ret by (apply io_recv_ret; [done|by eapply Hok]). cbv beta iota.
  match goal with |- context [(syscall ?c ≫= _) ?t] => destruct (Hlive t c) as [r4 H4] end.
  erewrite cxx_bind_ret by (by apply syscall_ret).
  destruct (answer_input _ _ _ _ H3 eq_refl (Hok _ _ _ H3)) as [Hlen _].
  exists r0, r1, r2, r3, r4. rewrite Hlen, Nat2Z.id, take_fill. unfold array.
  rewrite length_replicate, <-!app_assoc. done.
Qed.
End serve.

(** ** Properties *)

(** the listening socket is shut down by the handler of the last connection *)
Definition closing_calls {K : Kernel} (id server_fd : Z) (ext : trace) : Prop :=
  if decide (id = log_clients - 1) then ∃ r, ext = [(SysShutdown server_fd, r)] else ext = [].

Section properties.
Context (K : Kernel).

(** C32: the echo handlers.  For any kernel that answers, and any peer that sends
    finitely many chunks: every chunk received is handed to the kernel for
    sending, in order and whole, until the peer ends the stream or an error
    occurs; then the connection is closed, once, as the last call, whatever
    happened before.  The handler of the pool server returns; that of the
    multishot server throws when the close itself fails.  When the kernel
    takes every byte it is handed, the peer is sent exactly what it sent. *)
Theorem echo_handlers_spec (HK : KernelLaws K) n fuel (fd : Z) tr :
  live → ends_after n fd → (0 < fuel)%nat → (n < inputs fd tr + fuel)%nat →
  ∃ o ext, rounds fd (λ bs, CSend fd bs 0) o ext
    ∧ posted fd ext = received fd ext
    ∧ (full_transfers ext → delivered fd ext = received fd ext)
    ∧ (∃ r, pool_handle_connection fuel fd tr = (Ret (), tr ++ ext ++ [(SysClose fd, r)]))
    ∧ (∃ r, multishot_handle_connection fuel fd tr =
         (if r_res r <? 0 then Exn (SystemError (- r_res r)) else Ret (), tr ++ ext ++ [(CClose fd, r)])).
Proof.
  intros Hlive Hend Hf0 Hfuel.
  destruct (recv_loop_spec fuel n fd fd _ _ (array 256) tr Hlive Hend (echo_puts fd)
    (λ _ _, eq_refl) ltac:(apply length_replicate) Hf0 Hfuel) as (ext & o & E & Hr).
  pose proof (rounds_posted _ _ _ _ _ (echo_puts fd) Hr) as Hp.
  pose proof (try_rounds _ _ _ _ _ _ _ Hr E) as Et.
  exists o, ext. split; [done|]. split; [done|].
  split; [intros Hfull; by rewrite delivered_full|]. split.
  - destruct (Hlive (tr ++ ext) (SysClose fd)) as [r Ha]. exists r.
    unfold pool_handle_connection. erewrite cxx_bind_ret by exact Et.
    erewrite cxx_bind_ret by (by apply syscall_ret). by rewrite app_assoc.
  - destruct (Hlive (tr ++ ext) (CClose fd)) as [r Ha]. exists r.
    unfold multishot_handle_connection. erewrite cxx_bind_ret by exact Et.
    rewrite (io_close_ret _ _ _ Ha). by rewrite app_assoc.
Qed.

(** C36: the handler of echo_to_file.  When the log file opens and the two
    descriptors close: the chunks received are handed to the file whole and in
    order, both descriptors are closed, in this order, and the handler with
    the last of the [kClients] numbers shuts the listening socket down.  Every
    chunk is written at offset 0: the file ends up with each chunk laid over
    the ones before it, and never holds more than the 256 bytes of the
    receive buffer, however much the client sent. *)
Theorem file_handler_spec (HK : KernelLaws K) n fuel (client_fd server_fd : Z) g tr r0 :
  live → ends_after n client_fd → (0 < fuel)%nat → (n < inputs client_fd tr + fuel)%nat →
  let opening := COpenat AT_FDCWD (log_path g) O_WRONLY_CREAT_TRUNC log_mode in
  answer tr opening = Some r0 → 0 ≤ r_res r0 →
  (∀ tr fd r, answer tr (CClose fd) = Some r → 0 ≤ r_res r) →
  let file_fd := r_res r0 in
  ∃ o ext r1 r2 ext', rounds client_fd (λ bs, CWrite file_fd bs 0) o ext
    ∧ file_handle_connection fuel client_fd server_fd (g, tr) =
      (Ret (), (to_i32 (g + 1), tr ++ [(opening, r0)] ++ ext
        ++ [(CClose file_fd, r1); (CClose client_fd, r2)] ++ ext'))
    ∧ closing_calls g server_fd ext'
    ∧ posted file_fd ext = received client_fd ext
    ∧ (length (file_after file_fd ext []) ≤ 256)%nat
    ∧ (o = Ret () → full_transfers ext →
         file_after file_fd ext [] = foldl overlay [] (chunks client_fd ext)).
Proof.
  intros Hlive Hend Hf0 Hfuel opening H0 Hpos Hclose file_fd.
  destruct (recv_loop_spec fuel n client_fd file_fd _ _ (array 256) (tr ++ [(opening, r0)]) Hlive Hend
    (log_puts client_fd file_fd) (log_put file_fd) ltac:(apply length_replicate) Hf0) as (ext & o & E & Hr).
  { rewrite inputs_app. lia. }
  pose proof (try_rounds _ _ _ _ _ _ _ Hr E) as Et.
  set (tr1 := (tr ++ [(opening, r0)]) ++ ext) in *.
  destruct (Hlive tr1 (CClose file_fd)) as [r1 H1].
  destruct (Hlive (tr1 ++ [(CClose file_fd, r1)]) (CClose client_fd)) as [r2 H2].
  pose proof (io_close_ret _ _ _ H1) as E1. pose proof (io_close_ret _ _ _ H2) as E2.
  destruct (Z.ltb_spec (r_res r1) 0); [pose proof (Hclose _ _ _ H1); lia|].
  destruct (Z.ltb_spec (r_res r2) 0); [pose proof (Hclose _ _ _ H2); lia|].
  set (tr2 := (tr1 ++ [(CClose file_fd, r1)]) ++ [(CClose client_fd, r2)]) in *.
  assert (∃ ext', (if decide (g = log_clients - 1)
      then _ ← lift (syscall (SysShutdown server_fd)); mret () else mret ()) (to_i32 (g + 1), tr2) =
      (Ret (), (to_i32 (g + 1), tr2 ++ ext')) ∧ closing_calls g server_fd ext') as (ext' & E3 & Hc).
  { unfold closing_calls. case_decide.
    - destruct (Hlive tr2 (SysShutdown server_fd)) as [r3 Ha]. eexists. split; [|by eexists].
      by erewrite lift_bind_ret by (by apply syscall_ret).
    - exists []. split; [|done]. by rewrite app_nil_r. }
  exists o, ext, r1, r2, ext'. split; [done|]. split.
  { unfold file_handle_connection. erewrite cxx_bind_ret by done.
    erewrite lift_bind_ret by (unfold io_openat; by rewrite (async_bind_ret _ _ _ _ H0 Hpos)).
    erewrite lift_bind_ret by exact Et. erewrite lift_bind_ret by exact E1.
    erewrite lift_bind_ret by exact E2. rewrite E3. unfold tr2, tr1. by rewrite <-!app_assoc. }
  split; [done|]. split; [by apply (rounds_posted _ _ _ _ _ (log_puts _ _) Hr)|].
  split; [apply (rounds_file_bound _ _ _ _ _ Hr); simpl; lia|].
  intros Ho Hfull. by apply (rounds_file _ _ _ _ _ Hr).
Qed.

(** When the log file cannot be opened the handler of echo_to_file lets the
    exception out at once: the connection is neither read nor closed, and the
    handler never comes to the shutdown that ends the program. *)
Theorem file_open_failure_leaks fuel client_fd server_fd g tr r :
  let opening := COpenat AT_FDCWD (log_path g) O_WRONLY_CREAT_TRUNC log_mode in
  answer tr opening = Some r → r_res r < 0 →
  file_handle_connection fuel client_fd server_fd (g, tr) =
    (Exn (SystemError (- r_res r)), (to_i32 (g + 1), tr ++ [(opening, r)])).
Proof.
  intros opening Ha Hneg. unfold file_handle_connection. erewrite cxx_bind_ret by done.
  rewrite (lift_bind_exn _ _ _ _ (SystemError (- r_res r)) (tr ++ [(opening, r)])); [done|].
  unfold io_openat. by rewrite (async_bind_exn _ _ _ _ Ha Hneg).
Qed.

(** [make_server_socket] reports only the failure to make a socket: whatever
    bind and listen answer, errors included, the descriptor is returned. *)
Theorem make_server_socket_spec tr r :
  live → answer tr SysSocket = Some r →
  ∃ ext, make_server_socket tr = (Ret (if r_res r <? 0 then -1 else r_res r), tr ++ (SysSocket, r) :: ext)
    ∧ (r_res r < 0 → ext = [])
    ∧ (0 ≤ r_res r → ∃ r1 r2 r3, ext =
         [(SysSetReuseAddr (r_res r), r1); (SysBind (r_res r), r2); (SysListen (r_res r) 4096, r3)]).
Proof.
  intros Hlive Ha. unfold make_server_socket. erewrite cxx_bind_ret by (by apply syscall_ret).
  destruct (Z.ltb_spec (r_res r) 0); [exists []; split; [done|]; split; [done|lia]|].
  destruct (Hlive (tr ++ [(SysSocket, r)]) (SysSetReuseAddr (r_res r))) as [r1 H1].
  erewrite cxx_bind_ret by (by apply syscall_ret).
  destruct (Hlive ((tr ++ [(SysSocket, r)]) ++ [(SysSetReuseAddr (r_res r), r1)]) (SysBind (r_res r)))
    as [r2 H2].
  erewrite cxx_bind_ret by (by apply syscall_ret).
  match goal with |- context [(syscall ?c ≫= _) ?t] => destruct (Hlive t c) as [r3 H3] end.
  erewrite cxx_bind_ret by (by apply syscall_ret).
  eexists. split; [by rewrite <-!app_assoc|]. split; [lia|]. intros _. by exists r1, r2, r3.
Qed.
End properties.

(** The pipeline of async_pipeline.cpp.  The writer hands every message to
    the pipe, in order, and closes its end; the reader prints what comes out
    of the pipe, up to the end of the stream, and closes its end unless a read
    fails.  Over a pipe that passes on what is written to it, what is printed
    is the messages one after the other. *)
Theorem pipeline_spec (KW KR : Kernel) (HR : KernelLaws KR) n fuel (write_fd read_fd : Z) messages tw tr :
  live (K := KW) → smooth (K := KW) → Forall (λ msg : bytes, Z.of_nat (length msg) < 2 ^ 32) messages →
  live (K := KR) → ends_after (K := KR) n read_fd → (0 < fuel)%nat → (n < inputs read_fd tr + fuel)%nat →
  ∃ extw extr r, writer (K := KW) write_fd messages tw = (Ret (), tw ++ extw ++ [(SysClose write_fd, r)])
    ∧ ((∃ code, reader (K := KR) fuel read_fd tr = (Exn (SystemError code), tr ++ extr))
       ∨ ∃ out r', reader (K := KR) fuel read_fd tr = (Ret out, tr ++ extr ++ [(SysClose read_fd, r')])
           ∧ out = received read_fd extr
           ∧ (received read_fd extr = delivered write_fd extw → out = concat messages)).
Proof.
  intros HlW HsW Hlt HlR HeR Hf0 Hfuel.
  destruct (writer_spec (K := KW) write_fd messages tw HlW HsW Hlt) as (extw & r & Ew & Hd).
  destruct (read_loop_spec (K := KR) fuel n read_fd (array 256) [] tr HlR HeR Hf0 Hfuel) as (extr & Hr).
  { unfold array. rewrite length_replicate. lia. }
  exists extw, extr, r. split; [done|]. destruct Hr as [Er|[code Er]].
  - right. destruct (HlR (tr ++ extr) (SysClose read_fd)) as [r' Hc].
    exists (received read_fd extr), r'. split; [|split; [done|by intros ->]].
    unfold reader. erewrite cxx_bind_ret by exact Er.
    erewrite cxx_bind_ret by (by apply syscall_ret). by rewrite app_assoc.
  - left. exists code. unfold reader. by erewrite cxx_bind_exn by exact Er.
Qed.

(** ** A kernel with a script

    [fd]'s peer sends the chunks of a script and then ends the stream; a write
    or a send takes at most [limit] bytes. *)
Section script.
Context (script : list bytes) (limit : Z).

Definition scripted (tr : trace) (fd : fd_ref) (len : Z) : reply :=
  match script !! inputs fd tr with
  | Some bs => if Z.of_nat (length bs) <=? len then Reply (Z.of_nat (length bs)) bs else Reply 0 []
  | None => Reply 0 []
  end.

Definition talk : Kernel := {| answer tr c := Some
  match c with
  | CRecv fd len _ | CRead fd len => if 0 <=? len then scripted tr fd len else Reply (- EINVAL) []
  | CSend _ bs _ | CWrite _ bs _ => Reply (limit `min` Z.of_nat (length bs)) []
  | CTimeout _ => Reply (- ETIME) []
  | SysSocket | CAccept _ | COpenat _ _ _ _ => Reply 5 []
  | _ => Reply 0 []
  end |}.

Lemma scripted_ok tr fd len :
  0 ≤ len → r_res (scripted tr fd len) = Z.of_nat (length (r_data (scripted tr fd len)))
    ∧ r_res (scripted tr fd len) ≤ len.
Proof.
  intros. unfold scripted. repeat case_match; simpl; try lia.
Qed.

Lemma talk_laws : KernelLaws talk.
Proof.
  split.
  - intros tr c r len Hr Hlen Hres. simpl in Hr. destruct c; simplify_eq/=;
      (destruct (Z.leb_spec 0 len); [by apply scripted_ok|simpl in Hres; unfold EINVAL in *; lia]).
  - intros tr c r bs Hr Hbs. destruct c; simplify_eq/=; lia.
Qed.

Lemma talk_live : live (K := talk).
Proof. intros tr c. by eexists. Qed.

Lemma talk_ends fd : ends_after (K := talk) (length script) fd.
Proof.
  intros tr c r Hr Hin Hn. simpl in Hr.
  destruct c; try done; simplify_eq/=; (case_match; [|simpl; unfold EINVAL; lia]);
    apply bool_decide_eq_true in Hin as ->; unfold scripted; by rewrite lookup_ge_None_2.
Qed.
End script.

(** The echo handlers do not resend what a short send leaves over: there are
    kernels, with the documented behaviour, under which the peer is sent
    strictly less than it sent although no call failed. *)
Theorem echo_short_send :
  ∃ K (fd : Z) fuel tr, KernelLaws K ∧ live (K := K)
    ∧ pool_handle_connection (K := K) fuel fd [] = (Ret (), tr) ∧ Forall (λ e, 0 ≤ r_res e.2) tr
    ∧ (length (delivered fd tr) < length (received fd tr))%nat.
Proof.
  exists (talk [[Byte.x41; Byte.x42]] 1), 4, 2%nat. eexists. split; [apply talk_laws|].
  split; [apply talk_live|]. split; [vm_compute; reflexivity|].
  split; [repeat constructor; vm_compute; done|]. vm_compute. lia.
Qed.

(** ** Witnesses *)

Section witnesses.
Import Byte.
Definition two_chunks : list bytes := [[x41; x42]; [x43]].

Lemma echo_handlers_spec_witness :
  ∃ ext r, pool_handle_connection (K := talk two_chunks 9) 3 4 [] = (Ret (), ext ++ [(SysClose 4, r)])
    ∧ posted 4 ext = received 4 ext.
Proof.
  destruct (echo_handlers_spec (talk two_chunks 9) (talk_laws _ _) 2 3 4 []) as
    (o & ext & _ & Hp & _ & (r & E) & _); [apply talk_live|apply (talk_ends two_chunks)|lia|simpl; lia|].
  exists ext, r. split; [exact E|exact Hp].
Defined.

Lemma file_handler_spec_witness :
  ∃ ext r1 r2 ext', file_handle_connection (K := talk two_chunks 9) 3 4 3 (5, []) =
      (Ret (), (6, (COpenat AT_FDCWD "connection_5.log" O_WRONLY_CREAT_TRUNC log_mode, Reply 5 []) :: ext
        ++ [(CClose 5, r1); (CClose 4, r2)] ++ ext'))
    ∧ closing_calls (K := talk two_chunks 9) 5 3 ext' ∧ (length (file_after (5%Z) ext []) ≤ 256)%nat.
Proof.
  destruct (file_handler_spec (talk two_chunks 9) (talk_laws _ _) 2 3 4 3 5 [] (Reply 5 []))
    as (o & ext & r1 & r2 & ext' & _ & E & Hc & _ & Hl & _);
    [apply talk_live|apply (talk_ends two_chunks)|lia|simpl; lia|reflexivity|simpl; lia| |].
  - intros tr fd r Hr. simpl in Hr. simplify_eq. simpl. lia.
  - exists ext, r1, r2, ext'. split; [exact E|]. split; [exact Hc|exact Hl].
Defined.

Lemma file_open_failure_leaks_witness :
  file_handle_connection (K := constant_kernel (-13)) 3 4 3 (5, []) =
    (Exn (SystemError 13),
     (6, [(COpenat AT_FDCWD "connection_5.log" O_WRONLY_CREAT_TRUNC log_mode, Reply (-13) [])])).
Proof.
  apply (file_open_failure_leaks (constant_kernel (-13)) 3 4 3 5 [] (Reply (-13) [])); [reflexivity|].
  simpl. lia.
Defined.

(** a kernel that makes a socket and refuses the rest *)
Definition refusing : Kernel :=
  {| answer _ c := Some (Reply (match c with SysSocket => 5 | _ => -98 end) []) |}.

Lemma make_server_socket_spec_witness :
  ∃ ext, make_server_socket (K := refusing) [] = (Ret 5, (SysSocket, Reply 5 []) :: ext).
Proof.
  destruct (make_server_socket_spec refusing [] (Reply 5 [])) as (ext & E & _);
    [intros tr c; by eexists|reflexivity|].
  exists ext. exact E.
Defined.

(** a kernel that takes every write *)
Definition accepting : Kernel := {| answer _ c := Some (Reply
  match c with CWrite _ bs _ => Z.of_nat (length bs) | CTimeout _ => - ETIME | _ => 0 end []) |}.

Lemma pipeline_spec_witness :
  ∃ extw r, writer (K := accepting) 7 two_chunks [] = (Ret (), extw ++ [(SysClose 7, r)])
    ∧ ∃ out extr, reader (K := talk two_chunks 9) 3 6 [] = (Ret out, extr).
Proof.
  destruct (pipeline_spec accepting (talk two_chunks 9) (talk_laws _ _) 2 3 7 6 two_chunks [] [])
    as (extw & extr & r & E & [[code E']|(out & r' & E' & _)]);
    [by intros tr c; eexists|by intros tr [] s Hs; simplify_eq/=
    |by repeat apply Forall_cons_2; [simpl; lia..|]|apply talk_live
    |apply (talk_ends two_chunks)|lia|simpl; lia| |].
  - vm_compute in E'. congruence.
  - exists extw, r. split; [exact E|]. exists out. eexists. exact E'.
Defined.
End witnesses.
