(* ===== verification/Pipeline.v ===== *)
(** * Pipeline: examples/async_pipeline.cpp as a whole

    The two fibers of the example, interleaved, with the pipe between them.
    The kernel's pipe is a bounded byte queue: a message shorter than [PIPE_BUF]
    is written whole or not at all, a read takes at least one byte of what is
    there, and ends the stream when nothing is and the write end is closed
    (pipe(7)).  Either fiber's calls may also fail; then [stdexec::when_all]
    asks the other one to stop, which cancels the call it waits for.  The calls
    the fibers make are those of [writer] and [reader] in [Handlers]. *)

From stdpp Require Import list.
From S2P Require Import Prelude Cxx AsyncIo Io Handlers.

Local Open Scope nat_scope.

Definition k_messages : list bytes :=
  String.list_byte_of_string <$> ["ping
"%string; "pong
"%string; "done
"%string].

(** where the writer is: about to write the first of the messages that are left,
    or to close when none is; in its pause; returned; left by an exception *)
Inductive writer_pc := Writing (messages : list bytes) | Pausing (messages : list bytes) | Written | WriteFailed (e : exn).
Inductive reader_pc := Reading | ReadAll | ReadFailed (e : exn).

Record prog := Prog {
  wr : writer_pc;
  rd : reader_pc;
  pipe : bytes;           (** what is in the pipe *)
  pipe_open : bool;       (** the write end is open *)
  printed : bytes;
  passed : bytes          (** everything written, in order *)
}.

(** the size up to which a write is atomic, and the capacity of a pipe *)
Definition PIPE_BUF : nat := Z.to_nat 4096.
Definition capacity : nat := 16 * PIPE_BUF.

(** [async_write(write_fd, msg)] that takes the whole message *)
Definition write_step (g : prog) : option prog :=
  match wr g with
  | Writing (msg :: messages) =>
      if decide (length (pipe g) + length msg ≤ capacity) then
        Some {| wr := Pausing messages; rd := rd g; pipe := pipe g ++ msg; pipe_open := pipe_open g;
                printed := printed g; passed := passed g ++ msg |}
      else None
  | _ => None
  end.

(** [async_sleep_for(100ms)] has ended *)
Definition wake_step (g : prog) : option prog :=
  match wr g with
  | Pausing messages => Some {| wr := Writing messages; rd := rd g; pipe := pipe g; pipe_open := pipe_open g;
                                printed := printed g; passed := passed g |}
  | _ => None
  end.

(** [::close(write_fd)] *)
Definition close_step (g : prog) : option prog :=
  match wr g with
  | Writing [] => Some {| wr := Written; rd := rd g; pipe := pipe g; pipe_open := false;
                          printed := printed g; passed := passed g |}
  | _ => None
  end.

(** [async_read(read_fd, buf)] that takes [n] bytes; 0 ends the loop *)
Definition read_step (n : nat) (g : prog) : option prog :=
  match rd g with
  | Reading =>
      if decide (n = 0) then
        if decide (pipe g = [] ∧ pipe_open g = false) then
          Some {| wr := wr g; rd := ReadAll; pipe := pipe g; pipe_open := pipe_open g; printed := printed g; passed := passed g |}
        else None
      else if decide (n ≤ 256 ∧ n ≤ length (pipe g)) then
        Some {| wr := wr g; rd := Reading; pipe := drop n (pipe g); pipe_open := pipe_open g;
                printed := printed g ++ take n (pipe g); passed := passed g |}
      else None
  | _ => None
  end.

Definition write_fails (e : exn) (g : prog) : option prog :=
  match wr g with
  | Writing (_ :: _) | Pausing _ =>
      Some {| wr := WriteFailed e; rd := rd g; pipe := pipe g; pipe_open := pipe_open g; printed := printed g; passed := passed g |}
  | _ => None
  end.
Definition read_fails (e : exn) (g : prog) : option prog :=
  match rd g with
  | Reading => Some {| wr := wr g; rd := ReadFailed e; pipe := pipe g; pipe_open := pipe_open g; printed := printed g; passed := passed g |}
  | _ => None
  end.

(** [when_all] has requested a stop *)
Definition stopped (g : prog) : Prop := (∃ e, wr g = WriteFailed e) ∨ ∃ e, rd g = ReadFailed e.

(** with [must], a call fails only because a stop was requested *)
Inductive step (must : bool) (g g' : prog) : Prop :=
  | step_write : write_step g = Some g' → step must g g'
  | step_wake : wake_step g = Some g' → step must g g'
  | step_close : close_step g = Some g' → step must g g'
  | step_read n : read_step n g = Some g' → step must g g'
  | step_write_fails e : (must = true → stopped g) → write_fails e g = Some g' → step must g g'
  | step_read_fails e : (must = true → stopped g) → read_fails e g = Some g' → step must g g'.

Definition start (messages : list bytes) : prog :=
  {| wr := Writing messages; rd := Reading; pipe := []; pipe_open := true; printed := []; passed := [] |}.

(** ** Invariant *)

Definition to_write (pc : writer_pc) : list bytes :=
  match pc with Writing ms | Pausing ms => ms | _ => [] end.

Section theory.
Context (messages : list bytes).

Record inv (g : prog) : Prop := {
  inv_pipe : printed g ++ pipe g = passed g;
  inv_passed : (∃ e, wr g = WriteFailed e) ∨ passed g ++ concat (to_write (wr g)) = concat messages;
  inv_prefix : passed g `prefix_of` concat messages;
  inv_small : Forall (λ msg, length msg ≤ PIPE_BUF) (to_write (wr g));
  inv_open : pipe_open g = false ↔ wr g = Written;
  inv_read : rd g = ReadAll → pipe g = [] ∧ wr g = Written
}.

Lemma pipeline_inv_step must g g' : inv g → step must g g' → inv g'.
Proof.
  intros [Hp Hw Hpre Hs Ho Hr] [E|E|E|n E|e _ E|e _ E]; destruct g as [w r p o out ps]; simpl in *.
  - unfold write_step in E. simpl in E. destruct w as [[|msg ms]|ms| |e]; try done. case_decide; simplify_eq/=.
    destruct Hw as [[e [=]]|Hw]. apply Forall_cons in Hs as [_ Hs]. split; simpl; try done.
    + by rewrite app_assoc.
    + right. by rewrite <-!app_assoc in *.
    + exists (concat ms). by rewrite <-Hw, <-!app_assoc.
    + split; [|done]. by intros ?%Ho.
    + by intros [_ [=]]%Hr.
  - unfold wake_step in E. simpl in E. destruct w as [|ms| |e]; simplify_eq/=. split; simpl; try done.
    + destruct Hw as [[e [=]]|Hw]. by right.
    + split; [|done]. by intros ?%Ho.
    + by intros [_ [=]]%Hr.
  - unfold close_step in E. simpl in E. destruct w as [[|]|ms| |e]; simplify_eq/=. split; simpl; try done.
    + destruct Hw as [[e [=]]|Hw]. by right.
    + by intros [_ [=]]%Hr.
  - unfold read_step in E. simpl in E. destruct r; try done. case_decide; case_decide as Hd; simplify_eq/=.
    + destruct Hd as [-> ->]. split; simpl; try done. intros _. split; [done|]. by apply Ho.
    + split; simpl; try done. by rewrite <-app_assoc, take_drop.
  - unfold write_fails in E. simpl in E. destruct w as [[|]|ms| |e']; simplify_eq/=; split; simpl; try done;
      try (by left; eexists); try (by intros [_ [=]]%Hr); try (split; [by intros ?%Ho|done]).
  - unfold read_fails in E. simpl in E. destruct r; simplify_eq/=. by split.
Qed.

(** ** Runs are bounded *)

Definition writer_weight (pc : writer_pc) : nat :=
  match pc with
  | Writing ms => 2 * length ms + length (concat ms) + 1
  | Pausing ms => 2 * length ms + length (concat ms) + 2
  | _ => 0
  end.
Definition pipeline_weight (g : prog) : nat :=
  writer_weight (wr g) + length (pipe g) + (if rd g is Reading then 1 else 0).

Lemma pipeline_step_weight must g g' : step must g g' → pipeline_weight g' < pipeline_weight g.
Proof.
  intros [E|E|E|n E|e _ E|e _ E]; destruct g as [w r p o out ps]; unfold pipeline_weight; simpl in *.
  - unfold write_step in E. simpl in E. destruct w as [[|msg ms]|ms| |e]; try done. case_decide; simplify_eq/=.
    rewrite !length_app. lia.
  - unfold wake_step in E. simpl in E. destruct w as [|ms| |e]; simplify_eq/=. lia.
  - unfold close_step in E. simpl in E. destruct w as [[|]|ms| |e]; simplify_eq/=. lia.
  - unfold read_step in E. simpl in E. destruct r; try done. case_decide; case_decide as Hd; simplify_eq/=; [lia|].
    rewrite length_drop. lia.
  - unfold write_fails in E. simpl in E. destruct w as [[|]|ms| |e']; simplify_eq/=; lia.
  - unfold read_fails in E. simpl in E. destruct r; simplify_eq/=. lia.
Qed.

Lemma pipeline_run must k g g' :
  inv g → nsteps (step must) k g g' → inv g' ∧ k + pipeline_weight g' ≤ pipeline_weight g.
Proof.
  apply weighted_run. intros. split; [by eapply pipeline_inv_step|by eapply pipeline_step_weight].
Qed.

(** a program that cannot go on is over *)
Lemma pipeline_stuck g :
  inv g → (∀ g', ¬ step true g g') →
  (wr g = Written ∨ ∃ e, wr g = WriteFailed e) ∧ (rd g = ReadAll ∨ ∃ e, rd g = ReadFailed e).
Proof.
  intros [Hp Hw Hpre Hs Ho Hr] Hst. destruct g as [w r p o out ps]; simpl in *.
  assert (r = Reading → p = []) as Hread.
  { intros ->. destruct p as [|x p]; [done|exfalso]. eapply Hst, (step_read _ _ _ 1). unfold read_step.
    cbn [rd pipe]. rewrite decide_False, decide_True by (simpl; lia). done. }
  assert (w = Written ∨ ∃ e, w = WriteFailed e) as Hwr.
  { destruct w as [[|msg ms]|ms| |e]; [exfalso; by eapply Hst, step_close|exfalso|exfalso; by eapply Hst, step_wake|by left|right; by eexists].
    apply Forall_cons in Hs as [Hm _]. destruct r as [| |e].
    - rewrite Hread in Hst by done. eapply Hst, step_write. unfold write_step. cbn [wr pipe].
      rewrite decide_True by (unfold capacity, PIPE_BUF in *; cbn [length]; lia). done.
    - by destruct (Hr eq_refl) as [_ [=]].
    - eapply Hst, (step_write_fails _ _ _ RuntimeError); [|done]. intros _. right. by eexists. }
  split; [done|]. destruct r as [| |e]; [exfalso|by left|right; by eexists]. rewrite Hread in Hst by done.
  destruct Hwr as [->|[e ->]].
  - eapply Hst, (step_read _ _ _ 0). unfold read_step. cbn [rd pipe pipe_open].
    rewrite !decide_True by (done || (split; [done|by apply Ho])). done.
  - eapply Hst, (step_read_fails _ _ _ RuntimeError); [|done]. intros _. left. by eexists.
Qed.
End theory.

(** ** Properties *)

(** C34: async_pipeline prints its messages and ends.  However the two fibers
    interleave, in however small pieces the pipe passes on what is in it and
    wherever a call fails: no run is longer than the messages allow; what has
    been printed, followed by what is in the pipe, is always exactly what was
    written, which is a prefix of the messages; a state in which nothing more must happen is one where both
    fibers have ended; and if no call failed, exactly the messages were printed,
    in order, and the pipe is empty. *)
Theorem pipeline_prints messages k g :
  Forall (λ msg, length msg ≤ PIPE_BUF) messages → nsteps (step false) k (start messages) g →
  k ≤ 2 * length messages + length (concat messages) + 2
  ∧ printed g ++ pipe g = passed g ∧ passed g `prefix_of` concat messages
  ∧ ((∀ g', ¬ step true g g') →
     (wr g = Written ∨ ∃ e, wr g = WriteFailed e) ∧ (rd g = ReadAll ∨ ∃ e, rd g = ReadFailed e)
     ∧ (¬ stopped g → printed g = concat messages ∧ pipe g = [] ∧ pipe_open g = false)).
Proof.
  intros Hs Hk. assert (inv messages (start messages)) as Hinv0.
  { split; simpl; try done; [by right|by exists (concat messages)]. }
  destruct (pipeline_run messages _ _ _ _ Hinv0 Hk) as [Hinv Hw]. pose proof Hinv as [Hp Hps Hpre _ Ho Hr].
  split; [unfold pipeline_weight at 2 in Hw; simpl in Hw; lia|].
  split; [done|]. split; [done|]. intros Hst.
  destruct (pipeline_stuck _ _ Hinv Hst) as [Hwr Hrd]. split; [done|]. split; [done|]. intros Hns.
  destruct Hwr as [Hwr|Hwr]; [|destruct Hns; by left]. destruct Hrd as [Hrd|Hrd]; [|destruct Hns; by right].
  destruct (Hr Hrd) as [Hpe _]. destruct Hps as [[e He]|Hps]; [congruence|]. rewrite Hwr in Hps. simpl in Hps.
  rewrite Hpe, app_nil_r in Hp. rewrite app_nil_r in Hps. split; [congruence|]. split; [done|]. by apply Ho.
Qed.

(** ** Witnesses *)

Section witnesses.

Inductive move := MWrite | MWake | MClose | MRead (n : nat).
Definition drive (m : move) : prog → option prog :=
  match m with MWrite => write_step | MWake => wake_step | MClose => close_step | MRead n => read_step n end.

Lemma pipeline_drive_step m g g' : drive m g = Some g' → step false g g'.
Proof. destruct m; [apply step_write|apply step_wake|apply step_close|apply step_read]. Qed.

(** each message is read in two pieces while the writer pauses *)
Definition passing : list move := [MWrite; MRead 2; MWake; MRead 3].
Definition pipeline_moves : list move := passing ++ passing ++ passing ++ [MClose; MRead 0].
Definition printed_all : prog := Eval vm_compute in
  default (start k_messages) (run_schedule drive pipeline_moves (start k_messages)).

Lemma pipeline_prints_witness : 14 ≤ 23 ∧ printed printed_all = concat k_messages.
Proof.
  destruct (pipeline_prints k_messages 14 printed_all) as (Hk & _ & Hend).
  - unfold PIPE_BUF. repeat (apply Forall_cons; split; [cbn; lia|]). apply Forall_nil_2.
  - apply (schedule_nsteps _ drive pipeline_moves); [apply pipeline_drive_step|vm_compute; reflexivity].
  - split; [exact Hk|]. apply Hend.
    + intros g' [E|E|E|n E|e Hs E|e Hs E]; discriminate E.
    + intros [[e E]|[e E]]; discriminate E.
Defined.
End witnesses.
