(* ===== verification/FixedBuffer.v ===== *)
(** * FixedBuffer: registered buffers and zero-copy sends (src/fixed_buffer_pool.cpp)

    [fixed_buffer_pool] with its free list, the move-only handle
    [fixed_buffer] that returns its slot, the two-phase completion handler of a
    zero-copy send, and [async_send_zc].  The program's [fixed_buffer]
    variables are a map; [op] are the statements that create, move and destroy
    them. *)

From S2P Require Import Prelude Cxx Uring Boost Channel Scheduler Submit.

Local Open Scope Z_scope.

(** ** The pool *)

Section pool.
Context {B : BufferedChannel Z}.

Record pool := Pool {
  buf_size_ : Z;
  buf_count_ : Z;
  storage_ : Z;          (** [storage_.size()] *)
  free_list_ : bchan
}.

(** [for (uint16_t i = 0; i < static_cast<uint16_t>(buf_count_); ++i)
    static_cast<void>(free_list_.push(i));] *)
Fixpoint push_indices (idxs : list Z) (ch : bchan) : outcome bchan :=
  match idxs with
  | [] => Ret ch
  | i :: idxs =>
      match push i ch with
      | None => Hang
      | Some (_, ch') => push_indices idxs ch'
      end
  end.

(** the iovec of slot [i], as offset and length in [storage_] *)
Definition iovec (buf_size i : Z) : Z * Z := (mul64 i buf_size, buf_size).

(** the constructor; [on_worker] is [current_ring() != nullptr], and
    [register_buffers] is [io_uring_register_buffers] on that ring *)
Definition fixed_buffer_pool (on_worker : bool) (register_buffers : list (Z * Z) → Z → Z)
    (buf_size buf_count : Z) : outcome pool :=
  match bit_ceil buf_count with
  | None => Undef
  | Some c =>
      let count := Z.max c 2 in
      match channel_new count with
      | Ret ch =>
          if (buf_size =? 0) || (count =? 0) then Exn InvalidArgument
          else if negb on_worker then Exn RuntimeError
          else
            let r := register_buffers (iovec buf_size <$> seqZ 0 count) (to_u32 count) in
            if r <? 0 then Exn (SystemError (- r))
            else
              match push_indices (seqZ 0 (to_u16 count)) ch with
              | Ret ch' => Ret {| buf_size_ := buf_size; buf_count_ := count;
                                  storage_ := mul64 buf_size count; free_list_ := ch' |}
              | Exn e => Exn e | Undef => Undef | Abort => Abort | Hang => Hang
              end
      | Exn e => Exn e | Undef => Undef | Abort => Abort | Hang => Hang
      end
  end.

(** ** Handles *)

(** [pool_ != nullptr], and the slot *)
Record fixed_buffer := FixedBuffer { pool_ : bool; idx_ : Z }.

(** the pool, and the live [fixed_buffer] variables *)
Record state := State { s_pool : pool; s_vars : gmap nat fixed_buffer }.

Definition set_free (ch : bchan) (s : state) : state :=
  {| s_pool := {| buf_size_ := buf_size_ (s_pool s); buf_count_ := buf_count_ (s_pool s);
                  storage_ := storage_ (s_pool s); free_list_ := ch |}; s_vars := s_vars s |}.
Definition upd_vars (f : gmap nat fixed_buffer → gmap nat fixed_buffer) (s : state) : state :=
  {| s_pool := s_pool s; s_vars := f (s_vars s) |}.

Definition borrow : cxx state fixed_buffer := λ s,
  match pop (free_list_ (s_pool s)) with
  | None => (Hang, s)
  | Some (status, idx, ch) =>
      if decide (status = success)
      then (Ret {| pool_ := true; idx_ := default 0 idx |}, set_free ch s)
      else (Exn RuntimeError, set_free ch s)
  end.

(** [~fixed_buffer_pool()] on the pool's own state: [free_list_.close()] *)
Definition pool_dtor (p : pool) : pool :=
  {| buf_size_ := buf_size_ p; buf_count_ := buf_count_ p; storage_ := storage_ p;
     free_list_ := close (free_list_ p) |}.

Definition return_buffer (idx : Z) : cxx state () := λ s,
  match push idx (free_list_ (s_pool s)) with
  | None => (Hang, s)
  | Some (_, ch) => (Ret (), set_free ch s)
  end.

Definition read_var (v : nat) : cxx state fixed_buffer := λ s,
  match s_vars s !! v with Some b => (Ret b, s) | None => (Undef, s) end.
Definition write_var (v : nat) (b : fixed_buffer) : cxx state () := modify (upd_vars <[v := b]>).

(** [fixed_buffer(fixed_buffer&& other)] *)
Definition fb_move_ctor (this other : nat) : cxx state () :=
  o ← read_var other;
  _ ← write_var this {| pool_ := pool_ o; idx_ := idx_ o |};
  write_var other {| pool_ := false; idx_ := idx_ o |}.

(** [operator=(fixed_buffer&& other)] *)
Definition fb_move_assign (this other : nat) : cxx state () :=
  if decide (this = other) then mret ()
  else
    t ← read_var this;
    _ ← (if pool_ t then return_buffer (idx_ t) else mret ());
    o ← read_var other;
    _ ← write_var this {| pool_ := pool_ o; idx_ := idx_ o |};
    write_var other {| pool_ := false; idx_ := idx_ o |}.

(** [~fixed_buffer()] *)
Definition fb_dtor (this : nat) : cxx state () :=
  t ← read_var this;
  _ ← (if pool_ t then return_buffer (idx_ t) else mret ());
  modify (upd_vars (delete this)).

(** [data()]: the offset and length of the span; [subspan] out of range is
    undefined *)
Definition fb_data (b : fixed_buffer) (s : state) : outcome (Z * Z) :=
  if pool_ b then
    let off := mul64 (idx_ b) (buf_size_ (s_pool s)) in
    if (off <=? storage_ (s_pool s)) && (off + buf_size_ (s_pool s) <=? storage_ (s_pool s))
    then Ret (off, buf_size_ (s_pool s)) else Undef
  else Undef.

(** ** Programs *)

Inductive op :=
  | Borrow (v : nat)               (** [fixed_buffer v = pool.borrow();] *)
  | MoveCtor (v other : nat)       (** [fixed_buffer v{std::move(other)};] *)
  | MoveAssign (v other : nat)     (** [v = std::move(other);] *)
  | Drop (v : nat).                (** [v] goes out of scope *)

Definition exec (o : op) : cxx state () :=
  match o with
  | Borrow v => b ← borrow; write_var v b
  | MoveCtor v other => fb_move_ctor v other
  | MoveAssign v other => fb_move_assign v other
  | Drop v => fb_dtor v
  end.

(** the scoping rules of the language *)
Definition legal (o : op) (s : state) : bool :=
  match o with
  | Borrow v => bool_decide (s_vars s !! v = None)
  | MoveCtor v other => bool_decide (s_vars s !! v = None ∧ is_Some (s_vars s !! other))
  | MoveAssign v other => bool_decide (is_Some (s_vars s !! v) ∧ is_Some (s_vars s !! other))
  | Drop v => bool_decide (is_Some (s_vars s !! v))
  end.

Fixpoint exec_all (os : list op) : cxx state () :=
  match os with
  | [] => mret ()
  | o :: os => _ ← exec o; exec_all os
  end.

Fixpoint legal_all (os : list op) (s : state) : bool :=
  match os with
  | [] => true
  | o :: os => legal o s && legal_all os (exec o s).2
  end.
End pool.
Arguments pool {B}.
Arguments state {B}.

(** ** Zero-copy sends *)

Record send_zc_handler {P : Promise} := SendZc { promise_ : promise (); result_ : Z }.
Arguments SendZc {P} promise_ result_.

Section send_zc.
Context {L : Liburing} {P : Promise}.

(** [promise_.set_value()] in a [noexcept] function *)
Definition zc_wake : cxx (send_zc_handler * uring) () := λ '(h, r),
  match promise_set_value () (promise_ h) with
  | inr p => (Ret (), ({| promise_ := p; result_ := result_ h |}, r))
  | inl _ => (Abort, (h, r))
  end.

Definition send_zc_complete (this res flags : Z) : cxx (send_zc_handler * uring) () :=
  if has_flag flags IORING_CQE_F_NOTIF then zc_wake
  else
    _ ← modify (λ '(h, r), ({| promise_ := promise_ h; result_ := res |}, r));
    if negb (has_flag flags IORING_CQE_F_MORE) then zc_wake else mret ().

Context {H : Type} {HC : CqeHandler H} {D : DerivedHandler H send_zc_handler}.

(** what [wait()] returns, once the promise is fulfilled *)
Definition zc_result (a : Z) (w : worker L H) : option Z :=
  h ← w_handlers w !! a; x ← downcast h; _ ← promise_value (promise_ x); Some (result_ x).

Definition zc_wait (a : Z) (acts : list (cxx (worker L H) ())) : cxx (worker L H) Z := λ w,
  match zc_result a w with
  | Some v => (Ret v, w)
  | None =>
      match run_actions acts w with
      | (Ret _, w') => match zc_result a w' with Some v => (Ret v, w') | None => (Hang, w') end
      | (Exn e, w') => (Exn e, w')
      | (Undef, w') => (Undef, w') | (Abort, w') => (Abort, w') | (Hang, w') => (Hang, w')
      end
  end.

(** [addr] is [buf.data().data()], [idx] is [buf.buf_index()], [a] the address
    of the handler *)
Definition async_send_zc (fd addr idx nbytes flags a : Z) (acts : list (cxx (worker L H) ())) :
    cxx (option (worker L H)) Z := λ t,
  match t with
  | None => (Exn RuntimeError, None)
  | Some w =>
      match io_uring_get_sqe (w_ring w) with
      | None => (Exn RuntimeError, t)
      | Some (sqe, r) =>
          on_worker (
            _ ← modify (upd_ring (λ _, r));
            _ ← modify (upd_handlers <[a := upcast (SendZc promise_new 0)]>);
            scoped (
              _ ← modify (upd_ring (sqe_store sqe (prepped
                    (PrepSendZcFixed fd addr nbytes flags 0 idx))));
              _ ← sqe_update sqe (set_data a);
              _ ← submit_or_throw;
              result ← zc_wait a acts;
              if result <? 0 then throw (SystemError (- result)) else mret result)
            (modify (upd_handlers (delete a)))) t
      end
  end.
End send_zc.

(** [borrow_fixed_buffer()]: the calling thread's pool, if it has one *)
Definition borrow_fixed_buffer {B : BufferedChannel Z} : cxx (option state) fixed_buffer := λ t,
  match t with
  | None => (Exn RuntimeError, None)
  | Some s => let '(o, s') := borrow s in (o, Some s')
  end.

(** ** Invariant *)

Section invariant.
Context {B : BufferedChannel Z} {HB : BufferedChannelLaws Z B}.
Implicit Types s : state.

(** the slot a variable owns *)
Definition owned (b : fixed_buffer) : list Z := if pool_ b then [idx_ b] else [].
(** every slot is in the free list or owned by exactly one variable, and the
    free list has room for all of them *)
Record wf (s : state) : Prop := {
  wf_slots : bc_items (free_list_ (s_pool s)) ++ lent owned (s_vars s) ≡ₚ seqZ 0 (buf_count_ (s_pool s));
  wf_open : bc_closed (free_list_ (s_pool s)) = false;
  wf_room : buf_count_ (s_pool s) ≤ bc_capacity (free_list_ (s_pool s)) - 1;
  wf_count : 0 ≤ buf_count_ (s_pool s)
}.

Lemma wf_free_length s :
  wf s → Z.of_nat (length (bc_items (free_list_ (s_pool s))) + length (lent owned (s_vars s)))
         = buf_count_ (s_pool s).
Proof.
  intros [Hs _ _ Hc]. apply Permutation_length in Hs. rewrite length_app, length_seqZ in Hs. lia.
Qed.

(** giving a slot back never suspends, and leaves the variables alone *)
Lemma return_buffer_spec s i :
  wf s → i ∈ lent owned (s_vars s) →
  ∃ ch, return_buffer i s = (Ret (), set_free ch s)
    ∧ bc_items ch = bc_items (free_list_ (s_pool s)) ++ [i]
    ∧ bc_capacity ch = bc_capacity (free_list_ (s_pool s)) ∧ bc_closed ch = false.
Proof.
  intros Hwf Hi. pose proof (wf_free_length s Hwf) as Hlen. destruct Hwf as [_ Ho Hr _].
  assert (0 < length (lent owned (s_vars s)))%nat.
  { destruct (lent owned (s_vars s)); [by apply not_elem_of_nil in Hi|simpl; lia]. }
  destruct (push_room i (free_list_ (s_pool s)) Ho) as (ch & E & Hrest); [lia|].
  exists ch. split; [|done]. unfold return_buffer. by rewrite E.
Qed.

Lemma owned_lent s v b :
  s_vars s !! v = Some b → pool_ b = true → idx_ b ∈ lent owned (s_vars s).
Proof. intros Hv Hb. rewrite (lent_delete owned v b _ Hv). unfold owned. rewrite Hb. by left. Qed.

(** the first half of [operator=] and of the destructor *)
Lemma release_spec s v b :
  wf s → s_vars s !! v = Some b →
  ∃ ch, (if pool_ b then return_buffer (idx_ b) else mret ()) s = (Ret (), set_free ch s)
    ∧ bc_items ch = bc_items (free_list_ (s_pool s)) ++ owned b
    ∧ bc_capacity ch = bc_capacity (free_list_ (s_pool s)) ∧ bc_closed ch = false.
Proof.
  intros Hwf Hv. unfold owned. destruct (pool_ b) eqn:Hb.
  - apply return_buffer_spec; [done|by eapply owned_lent].
  - exists (free_list_ (s_pool s)). rewrite app_nil_r. split; [|by destruct Hwf].
    by destruct s as [[] ?].
Qed.

Lemma fb_read_var_spec s v b : s_vars s !! v = Some b → read_var v s = (Ret b, s).
Proof. intros Hv. unfold read_var. by rewrite Hv. Qed.

(** one statement: it succeeds, or it is a borrow with every slot lent out *)
Lemma fb_exec_wf o s :
  wf s → legal o s = true →
  (∃ s', exec o s = (Ret (), s') ∧ wf s' ∧ buf_count_ (s_pool s') = buf_count_ (s_pool s)
    ∧ buf_size_ (s_pool s') = buf_size_ (s_pool s) ∧ storage_ (s_pool s') = storage_ (s_pool s))
  ∨ (exec o s = (Hang, s) ∧ (∃ v, o = Borrow v)
     ∧ Z.of_nat (length (lent owned (s_vars s))) = buf_count_ (s_pool s)).
Proof.
  intros Hwf Hl. pose proof Hwf as [Hs Ho Hr Hc]. destruct o as [v|v u|v u|v]; simpl in Hl.
  all: apply bool_decide_eq_true in Hl.
  - destruct (bc_items (free_list_ (s_pool s))) as [|i is0] eqn:Hi.
    + right. split; [|split; [by eexists|]].
      * simpl. unfold mbind, cxx_mbind, cxx_bind, borrow. by rewrite pop_blocked.
      * pose proof (wf_free_length s Hwf) as Hlen. rewrite Hi in Hlen. simpl in Hlen. lia.
    + left. destruct (pop_item _ _ _ Hi) as (ch & E & Hi' & Hcap & Hcl).
      eexists. split.
      { simpl. unfold mbind, cxx_mbind, cxx_bind, borrow. rewrite E. simpl. done. }
      split; [|done]. split; simpl; [|congruence..|done].
      rewrite lent_insert, Hi' by done. rewrite <-Hs. unfold owned. simpl. solve_Permutation.
  - left. destruct Hl as [Hv [b Hu]]. eexists. split.
    { simpl. unfold fb_move_ctor. erewrite cxx_bind_ret by (by apply fb_read_var_spec).
      by bind_ret. }
    split; [|done]. split; simpl; try done. rewrite <-Hs. apply Permutation_app_head.
    pose proof (lent_move owned u v b (FixedBuffer (pool_ b) (idx_ b)) (FixedBuffer false (idx_ b))
      (s_vars s)) as Hp. rewrite Hv in Hp. simpl in Hp. rewrite app_nil_r in Hp. apply Hp; done || congruence.
  - left. destruct Hl as [[t Hv] [b Hu]]. simpl. unfold fb_move_assign.
    destruct (decide (v = u)) as [->|Hne]; [by exists s|].
    destruct (release_spec s v t Hwf Hv) as (ch & E & Hi & Hcap & Hcl). eexists. split.
    { erewrite cxx_bind_ret by (by apply fb_read_var_spec). bind_ret.
      erewrite cxx_bind_ret by (by apply fb_read_var_spec). by bind_ret. }
    split; [|done]. split; simpl; [|congruence..|done].
    rewrite Hi, <-Hs, <-app_assoc. apply Permutation_app_head.
    pose proof (lent_move owned u v b (FixedBuffer (pool_ b) (idx_ b)) (FixedBuffer false (idx_ b))
      (s_vars s)) as Hp. rewrite Hv in Hp. simpl in Hp.
    rewrite <-Hp by (done || congruence). apply Permutation_app_comm.
  - left. destruct Hl as [t Hv]. simpl. unfold fb_dtor.
    destruct (release_spec s v t Hwf Hv) as (ch & E & Hi & Hcap & Hcl). eexists. split.
    { erewrite cxx_bind_ret by (by apply fb_read_var_spec). by bind_ret. }
    split; [|done]. split; simpl; [|congruence..|done].
    by rewrite Hi, <-Hs, <-app_assoc, (lent_delete owned v t _ Hv).
Qed.

(** the program is suspended in a borrow, with every slot lent out *)
Definition stuck_borrow (os : list op) (s0 s : state) : Prop :=
  ∃ pre v post, os = pre ++ Borrow v :: post ∧ exec_all pre s0 = (Ret (), s)
    ∧ Z.of_nat (length (lent owned (s_vars s))) = buf_count_ (s_pool s).

Lemma fb_exec_all_wf os s :
  wf s → legal_all os s = true →
  ∃ o s', exec_all os s = (o, s') ∧ wf s'
    ∧ buf_count_ (s_pool s') = buf_count_ (s_pool s) ∧ buf_size_ (s_pool s') = buf_size_ (s_pool s)
    ∧ storage_ (s_pool s') = storage_ (s_pool s)
    ∧ (o = Ret () ∨ o = Hang ∧ stuck_borrow os s s').
Proof.
  revert s. induction os as [|o os IH]; intros s Hwf Hl; simpl.
  { exists (Ret ()), s. auto 10. }
  apply andb_true_iff in Hl as [Hlo Hls].
  destruct (fb_exec_wf o s Hwf Hlo) as [(s1 & E & Hwf1 & Hc & Hz & Hst)|(E & [v ->] & Hall)].
  - rewrite E in Hls. simpl in Hls. bind_ret.
    destruct (IH s1 Hwf1 Hls) as (r & s2 & -> & ? & ? & ? & ? & Hr).
    exists r, s2. split; [done|]. split; [done|]. do 3 (split; [congruence|]).
    destruct Hr as [?|[? (pre & v & post & -> & Epre & Hall)]]; [by left|right]. split; [done|].
    exists (o :: pre), v, post. split; [done|]. split; [simpl; by bind_ret|done].
  - exists Hang, s. split; [unfold mbind, cxx_mbind, cxx_bind; by rewrite E|].
    split; [done|]. do 3 (split; [done|]). right. split; [done|]. by exists [], v, os.
Qed.

Lemma push_indices_room idxs ch :
  bc_closed ch = false →
  Z.of_nat (length (bc_items ch) + length idxs) ≤ bc_capacity ch - 1 →
  ∃ ch', push_indices idxs ch = Ret ch' ∧ bc_items ch' = bc_items ch ++ idxs
    ∧ bc_capacity ch' = bc_capacity ch ∧ bc_closed ch' = false.
Proof.
  revert ch. induction idxs as [|i idxs IH]; intros ch Hc Hlen; simpl in *.
  { exists ch. by rewrite app_nil_r. }
  destruct (push_room i ch Hc) as (ch1 & E & Hi & Hcap & Hcl); [lia|]. rewrite E.
  destruct (IH ch1) as (ch2 & -> & Hi2 & Hcap2 & Hcl2); [done|rewrite Hi, Hcap, length_app; simpl; lia|].
  exists ch2. rewrite Hi2, Hi, <-app_assoc, Hcap2, Hcap. done.
Qed.

(** the constructor gets as far as its checks *)
Lemma pool_ctor_list buf_count :
  0 ≤ buf_count ≤ 2 ^ 15 →
  ∃ c ch, bit_ceil buf_count = Some c ∧ channel_new (Z.max c 2) = Ret ch ∧ Z.max c 2 ≠ 0.
Proof.
  intros Hn. destruct (bit_ceil_defined buf_count) as [c Hb]; [lia|].
  destruct (bit_ceil_spec buf_count c ltac:(lia) Hb) as (_ & _ & ? & Hlt).
  assert (c ≤ 2 ^ 16).
  { destruct (decide (1 < buf_count)); [lia|]. unfold bit_ceil in Hb.
    destruct (Z.leb_spec buf_count 1); [|lia]. injection Hb as <-. lia. }
  destruct (channel_new_ok (T := Z) (Z.max c 2)) as (ch & Hch & _); [lia|].
  exists c, ch. split; [done|]. split; [done|lia].
Qed.

(** the constructor, when the kernel refuses the registration *)
Lemma pool_ctor_refused reg buf_size buf_count e :
  0 ≤ buf_count ≤ 2 ^ 15 → 0 < buf_size → e < 0 → (∀ iovs n, reg iovs n = e) →
  fixed_buffer_pool true reg buf_size buf_count = Exn (SystemError (- e)).
Proof.
  intros Hc Hs He Hreg. destruct (pool_ctor_list buf_count Hc) as (c & ch & Hb & Hn & Hnz).
  unfold fixed_buffer_pool. rewrite Hb, Hn. destruct (Z.eqb_spec buf_size 0); [lia|].
  destruct (Z.eqb_spec (Z.max c 2) 0); [done|]. simpl. rewrite Hreg.
  by destruct (Z.ltb_spec e 0); [|lia].
Qed.

(** the constructor, when everything it asks for is granted *)
Lemma pool_ctor_wf reg buf_size buf_count :
  0 ≤ buf_count ≤ 2 ^ 15 → 0 < buf_size → buf_size * 2 ^ 15 < 2 ^ 64 →
  (∀ iovs n, 0 ≤ reg iovs n) →
  ∃ p, fixed_buffer_pool true reg buf_size buf_count = Ret p ∧ wf {| s_pool := p; s_vars := ∅ |}
    ∧ buf_size_ p = buf_size ∧ storage_ p = buf_count_ p * buf_size
    ∧ buf_count ≤ buf_count_ p ∧ 2 ≤ buf_count_ p ≤ 2 ^ 15
    ∧ bc_items (free_list_ p) = seqZ 0 (buf_count_ p).
Proof.
  intros Hcount Hsize Hprod Hreg. unfold fixed_buffer_pool.
  destruct (bit_ceil_defined buf_count) as [c Hc]; [lia|]. rewrite Hc.
  destruct (bit_ceil_spec buf_count c) as ([k [Hk ->]] & Hle & H1 & Hlt); [lia|done|].
  assert (2 ^ k ≤ 2 ^ 15) as Hub.
  { destruct (decide (k ≤ 15)); [by apply Z.pow_le_mono_r|].
    assert (2 ^ 16 ≤ 2 ^ k) by (apply Z.pow_le_mono_r; lia).
    destruct (decide (1 < buf_count)); [lia|]. unfold bit_ceil in Hc.
    destruct (Z.leb_spec buf_count 1); [|lia]. injection Hc as Hc. lia. }
  set (count := Z.max (2 ^ k) 2).
  destruct (channel_new_ok (T := Z) count) as (ch & -> & Habs & Hcap); [lia|].
  injection Habs as Hi Hcl.
  destruct (Z.eqb_spec buf_size 0); [lia|]. destruct (Z.eqb_spec count 0); [lia|]. simpl.
  destruct (Z.ltb_spec (reg (iovec buf_size <$> seqZ 0 count) (to_u32 count)) 0) as [Hneg|_];
    [specialize (Hreg (iovec buf_size <$> seqZ 0 count) (to_u32 count)); lia|].
  unfold to_u16. rewrite wrap_id by lia.
  destruct (push_indices_room (seqZ 0 count) ch) as (ch' & -> & Hi' & Hcap' & Hcl'); [done| |].
  { rewrite Hi, length_seqZ. simpl. lia. }
  eexists. split; [done|]. simpl.
  split; [|split; [done|]; split; [|split; [lia|]; split; [lia|by rewrite Hi', Hi]]].
  - split; simpl; [|done|lia..]. rewrite Hi', Hi. by rewrite lent_empty, app_nil_r.
  - unfold mul64, to_u64. rewrite wrap_id; [lia|]. nia.
Qed.
End invariant.

(** ** Properties of the pool *)

Section properties.
Context {B : BufferedChannel Z}.

(** C27: a buffer has one owner.  A pool built for [buf_count] buffers has at
    least that many slots.  A well-scoped program that borrows, moves, assigns
    and destroys handles runs to its end, or is suspended in one of its
    borrows, all statements before it done and every slot lent out: no other
    statement suspends, so giving a buffer back never does.  Where it stands,
    the slots in the free list and those owned by live handles are together
    exactly the pool's slots, each once. *)
Theorem buffer_single_owner (HB : BufferedChannelLaws Z B) reg buf_size buf_count os :
  0 ≤ buf_count ≤ 2 ^ 15 → 0 < buf_size → buf_size * 2 ^ 15 < 2 ^ 64 →
  (∀ iovs n, 0 ≤ reg iovs n) →
  ∃ p, fixed_buffer_pool true reg buf_size buf_count = Ret p ∧ buf_count ≤ buf_count_ p ∧
    (legal_all os {| s_pool := p; s_vars := ∅ |} = true →
     ∃ o s, exec_all os {| s_pool := p; s_vars := ∅ |} = (o, s)
       ∧ bc_items (free_list_ (s_pool s)) ++ lent owned (s_vars s) ≡ₚ seqZ 0 (buf_count_ p)
       ∧ (o = Ret () ∨ o = Hang ∧ stuck_borrow os {| s_pool := p; s_vars := ∅ |} s)).
Proof.
  intros Hc Hs Hp Hreg. destruct (pool_ctor_wf reg buf_size buf_count Hc Hs Hp Hreg)
    as (p & E & Hwf & _ & _ & Hle & _).
  exists p. split; [done|]. split; [done|]. intros Hl.
  destruct (fb_exec_all_wf os _ Hwf Hl) as (o & s & Eo & Hwf' & Hcnt & _ & _ & Ho).
  exists o, s. split; [done|]. split; [|done]. rewrite (wf_slots s Hwf'). by rewrite Hcnt.
Qed.

(** The memory of two live handles does not overlap.  After any well-scoped
    program, [data()] of a handle that owns a slot is a span of [buf_size]
    bytes inside the pool's storage, and the spans of two different owning
    handles are disjoint. *)
Theorem buffer_spans_disjoint (HB : BufferedChannelLaws Z B) reg buf_size buf_count os p s o v1 v2 b1 b2 :
  0 ≤ buf_count ≤ 2 ^ 15 → 0 < buf_size → buf_size * 2 ^ 15 < 2 ^ 64 →
  (∀ iovs n, 0 ≤ reg iovs n) →
  fixed_buffer_pool true reg buf_size buf_count = Ret p →
  legal_all os {| s_pool := p; s_vars := ∅ |} = true →
  exec_all os {| s_pool := p; s_vars := ∅ |} = (o, s) →
  s_vars s !! v1 = Some b1 → s_vars s !! v2 = Some b2 → v1 ≠ v2 →
  pool_ b1 = true → pool_ b2 = true →
  ∃ off1 off2, fb_data b1 s = Ret (off1, buf_size) ∧ fb_data b2 s = Ret (off2, buf_size)
    ∧ 0 ≤ off1 ≤ storage_ p - buf_size ∧ 0 ≤ off2 ≤ storage_ p - buf_size
    ∧ (off1 + buf_size ≤ off2 ∨ off2 + buf_size ≤ off1).
Proof.
  intros Hc Hs Hp Hreg Ep Hl Eo Hv1 Hv2 Hne Hb1 Hb2.
  destruct (pool_ctor_wf reg buf_size buf_count Hc Hs Hp Hreg) as (p' & E & Hwf & Hsz & Hst & Hle & Hcnt).
  rewrite Ep in E. injection E as <-.
  destruct (fb_exec_all_wf os _ Hwf Hl) as (o' & s' & Eo' & Hwf' & Hcnt' & Hsz' & Hst' & _).
  rewrite Eo in Eo'. injection Eo' as <- <-. simpl in *.
  pose proof (wf_slots s Hwf') as Hperm. rewrite Hcnt' in Hperm.
  rewrite (lent_delete owned v1 b1 _ Hv1) in Hperm.
  rewrite (lent_delete owned v2 b2 (delete v1 (s_vars s))) in Hperm by (by rewrite lookup_delete_ne).
  unfold owned in Hperm. rewrite Hb1, Hb2 in Hperm. simpl in Hperm.
  assert (∀ i, i ∈ [idx_ b1; idx_ b2] → 0 ≤ i < buf_count_ p) as Hr.
  { intros i Hi. assert (i ∈ seqZ 0 (buf_count_ p)) as Hin by (rewrite <-Hperm; set_solver).
    apply elem_of_seqZ in Hin. lia. }
  assert (idx_ b1 ≠ idx_ b2) as Hd.
  { intros Heq. pose proof (NoDup_seqZ 0 (buf_count_ p)) as Hnd. rewrite <-Hperm, Heq in Hnd.
    apply NoDup_app in Hnd as (_ & _ & Hnd). apply NoDup_cons in Hnd as [Hnd _]. set_solver. }
  assert (∀ b, pool_ b = true → 0 ≤ idx_ b < buf_count_ p →
    fb_data b s = Ret (idx_ b * buf_size, buf_size) ∧ 0 ≤ idx_ b * buf_size ≤ storage_ p - buf_size) as Hd'.
  { intros b Hb Hrb. assert (0 ≤ idx_ b * buf_size ≤ storage_ p - buf_size) by (rewrite Hst; nia).
    split; [|done]. unfold fb_data, mul64, to_u64. rewrite Hb, Hsz', Hst', Hsz, wrap_id by nia.
    rewrite (proj2 (Z.leb_le _ _)), (proj2 (Z.leb_le _ _)) by lia. done. }
  destruct (Hd' b1 Hb1) as [-> ?]; [apply Hr; set_solver|].
  destruct (Hd' b2 Hb2) as [-> ?]; [apply Hr; set_solver|].
  exists (idx_ b1 * buf_size), (idx_ b2 * buf_size). split; [done|]. split; [done|].
  split; [done|]. split; [done|]. nia.
Qed.
(** The constructor's errors, and the check that never fires.  A slot size
    of 0, a thread without a ring and a refused registration are reported as
    [invalid_argument], [runtime_error] and [system_error]; but a [buf_count]
    of 0 is rounded up to two slots before the check that would reject it. *)
Theorem pool_ctor_errors (HB : BufferedChannelLaws Z B) reg buf_size buf_count :
  0 ≤ buf_count ≤ 2 ^ 15 → 0 < buf_size → buf_size * 2 ^ 15 < 2 ^ 64 →
  fixed_buffer_pool true reg 0 buf_count = Exn InvalidArgument ∧
  fixed_buffer_pool false reg buf_size buf_count = Exn RuntimeError ∧
  (∀ e, e < 0 → (∀ iovs n, reg iovs n = e) →
    fixed_buffer_pool true reg buf_size buf_count = Exn (SystemError (- e))) ∧
  ((∀ iovs n, 0 ≤ reg iovs n) →
    ∃ p, fixed_buffer_pool true reg buf_size 0 = Ret p ∧ buf_count_ p = 2
      ∧ bc_items (free_list_ p) = [0; 1]).
Proof.
  intros Hc Hs Hp.
  destruct (pool_ctor_list buf_count Hc) as (c & ch & Hb & Hn & Hnz).
  unfold fixed_buffer_pool. rewrite Hb, Hn. split_and!.
  - done.
  - destruct (Z.eqb_spec buf_size 0); [lia|]. by destruct (Z.eqb_spec (Z.max c 2) 0).
  - intros e He Hreg. pose proof (pool_ctor_refused reg buf_size buf_count e Hc Hs He Hreg) as Hr.
    unfold fixed_buffer_pool in Hr. by rewrite Hb, Hn in Hr.
  - intros Hreg. destruct (channel_new_ok (T := Z) 2) as (ch2 & Hn2 & Habs & Hcap); [lia|].
    injection Habs as Hi Hcl. change (bit_ceil 0) with (Some 1). cbv beta iota zeta.
    change (Z.max 1 2) with 2. rewrite Hn2. destruct (Z.eqb_spec buf_size 0); [lia|].
    cbn [orb negb Z.eqb].
    match goal with |- context [reg ?x ?y <? 0] =>
      destruct (Z.ltb_spec (reg x y) 0) as [Hneg|_]; [specialize (Hreg x y); lia|] end.
    destruct (push_indices_room (seqZ 0 2) ch2) as (ch' & E & Hi' & _); [done|rewrite Hi; simpl; lia|].
    change (seqZ 0 (to_u16 2)) with (seqZ 0 2). rewrite E.
    eexists. split; [done|]. simpl. split; [done|]. rewrite Hi', Hi. reflexivity.
Qed.
End properties.

(** ** Properties of the zero-copy send *)

Section send_zc_theory.
Context {L : Liburing} {HL : LiburingLaws L} {P : Promise} {HP : PromiseLaws P}
  {H : Type} {HC : CqeHandler H} {D : DerivedHandler H send_zc_handler}
  {DL : DerivedHandlerLaws H send_zc_handler D send_zc_complete}.
Context (fds : efd_bufs).
Implicit Types w : worker L H.

(** the first completion, which carries the result *)
Lemma zc_first a res flags w :
  k_cancel_tag < a → w_handlers w !! a = Some (upcast (SendZc promise_new 0)) →
  has_flag flags IORING_CQE_F_NOTIF = false →
  ∃ p, handle_cqe fds (Cqe a res flags) w =
      (Ret (), upd_handlers <[a := upcast (SendZc p res)]> (upd_ring (λ _, w_ring w) w))
    ∧ promise_value p = if has_flag flags IORING_CQE_F_MORE then None else Some ().
Proof.
  intros Ha Hh Hn. rewrite (handle_derived fds (Cqe a res flags) w _ Ha Hh). simpl.
  unfold send_zc_complete. rewrite Hn.
  destruct (has_flag flags IORING_CQE_F_MORE); simpl.
  - exists promise_new. split; [done|]. apply promise_value_new.
  - destruct (promise_set_fresh () () promise_new (promise_value_new ())) as (p & Hp & Hv).
    exists p. split; [|done]. unfold mbind, cxx_mbind, cxx_bind. simpl. by rewrite Hp.
Qed.

(** the notification, which releases the buffer *)
Lemma zc_second a res x flags p w :
  k_cancel_tag < a → w_handlers w !! a = Some (upcast (SendZc p res)) → promise_value p = None →
  has_flag flags IORING_CQE_F_NOTIF = true →
  ∃ p', handle_cqe fds (Cqe a x flags) w =
      (Ret (), upd_handlers <[a := upcast (SendZc p' res)]> (upd_ring (λ _, w_ring w) w))
    ∧ promise_value p' = Some ().
Proof.
  intros Ha Hh Hp Hn. rewrite (handle_derived fds (Cqe a x flags) w _ Ha Hh). simpl.
  unfold send_zc_complete. rewrite Hn. unfold zc_wake. simpl.
  destruct (promise_set_fresh () () p Hp) as (p' & -> & Hv). by exists p'.
Qed.

Lemma zc_result_lookup a p res w :
  w_handlers w !! a = Some (upcast (SendZc p res)) →
  zc_result a w = (_ ← promise_value p; Some res).
Proof. intros Hh. unfold zc_result. rewrite Hh. simpl. by rewrite downcast_upcast. Qed.

(** [async_send_zc] up to its suspension *)
Lemma async_send_zc_run fd addr idx nbytes flags a w :
  (∀ r : uring, submits_all r) → (length (sq_pending (w_ring w)) < sq_entries (w_ring w))%nat →
  ∃ r, sq_submitted r = sq_submitted (w_ring w) ++ sq_pending (w_ring w) ++
      [set_data a (prepped (PrepSendZcFixed fd addr nbytes flags 0 idx))]
    ∧ sq_pending r = [] ∧ sq_entries r = sq_entries (w_ring w)
    ∧ let w1 := upd_ring (λ _, r) (upd_handlers <[a := upcast (SendZc promise_new 0)]> w) in
      ∀ acts o w2, zc_wait a acts w1 = (o, w2) →
        async_send_zc fd addr idx nbytes flags a acts (Some w) =
        match o with
        | Ret res => (if res <? 0 then Exn (SystemError (- res)) else Ret res,
                      Some (upd_handlers (delete a) w2))
        | Exn e => (Exn e, Some (upd_handlers (delete a) w2))
        | Undef => (Undef, Some w2) | Abort => (Abort, Some w2) | Hang => (Hang, Some w2)
        end.
Proof.
  intros Hall Hroom. destruct (io_uring_get_sqe (w_ring w)) as [[i r0]|] eqn:Eg; last first.
  { apply get_sqe_null in Eg. lia. }
  destruct (get_sqe_next _ _ _ Eg) as (-> & Hp0 & Hs0 & He0).
  set (n := length (sq_pending (w_ring w))) in *.
  set (e := prepped (PrepSendZcFixed fd addr nbytes flags 0 idx)).
  destruct (sqe_store_frame n e r0) as (Hp1 & Hs1 & He1). rewrite Hp0 in Hp1.
  unfold n in Hp1 at 2. rewrite insert_app_r_alt, Nat.sub_diag in Hp1 by lia. simpl in Hp1.
  set (w0 := upd_handlers <[a := upcast (SendZc promise_new 0)]> w).
  destruct (sqe_update_spec n (set_data a) e (upd_ring (λ _, sqe_store n e r0) w0)) as (r2 & E2 & Hp2 & Hs2 & He2).
  { change (w_ring (upd_ring _ w0)) with (sqe_store n e r0). rewrite Hp1. by rewrite list_lookup_middle. }
  change (w_ring (upd_ring _ w0)) with (sqe_store n e r0) in *. rewrite Hp1 in Hp2. unfold n in Hp2 at 1.
  rewrite insert_app_r_alt, Nat.sub_diag in Hp2 by lia. simpl in Hp2.
  destruct (submit_or_throw_ok (upd_ring (λ _, r2) w0) (Hall _)) as (r & E3 & Hs3 & Hp3 & He3).
  change (w_ring (upd_ring (λ _, r2) w0)) with r2 in Hs3, He3.
  exists r. split; [by rewrite Hs3, Hs2, Hp2, Hs1, Hs0|]. split; [done|]. split; [congruence|].
  intros w1 acts o w2 Hw. unfold async_send_zc. rewrite Eg. unfold on_worker.
  bind_ret. bind_ret. unfold scoped.
  bind_ret. fold e.
  erewrite cxx_bind_ret by exact E2. erewrite cxx_bind_ret by exact E3.
  unfold mbind, cxx_mbind, cxx_bind.
  match goal with |- context [zc_wait a acts ?x] => change x with w1 end. rewrite Hw.
  destruct o as [res|e'| | |]; try done. by destruct (res <? 0).
Qed.

(** the wait for a send's answer: one completion, or two *)
Lemma zc_wait_answers a res f1 x f2 w :
  k_cancel_tag < a → w_handlers w !! a = Some (upcast (SendZc promise_new 0)) →
  has_flag f1 IORING_CQE_F_NOTIF = false → has_flag f2 IORING_CQE_F_NOTIF = true →
  ∃ w1 w2, w_ring w1 = w_ring w ∧ w_ring w2 = w_ring w ∧
    let first := drain_cqes fds [Cqe a res f1] in
    if has_flag f1 IORING_CQE_F_MORE
    then zc_wait a [first] w = (Hang, w1)
      ∧ zc_wait a [first; drain_cqes fds [Cqe a x f2]] w = (Ret res, w2)
    else zc_wait a [first] w = (Ret res, w1) ∧ w2 = w1.
Proof.
  intros Ha H0 Hn1 Hn2.
  assert (zc_result a w = None) as Hz0.
  { rewrite (zc_result_lookup _ _ _ _ H0). by rewrite promise_value_new. }
  destruct (zc_first a res f1 w Ha H0 Hn1) as (p & E1 & Hp).
  set (w1 := upd_handlers _ (upd_ring _ w)) in E1.
  assert (w_handlers w1 !! a = Some (upcast (SendZc p res))) as H1 by apply lookup_insert_eq.
  assert (drain_cqes fds [Cqe a res f1] w = (Ret (), w1)) as Ed1 by (by apply drain_one).
  exists w1. destruct (has_flag f1 IORING_CQE_F_MORE).
  - destruct (zc_second a res x f2 p w1 Ha H1 Hp Hn2) as (p2 & E2 & Hp2).
    set (w2 := upd_handlers _ (upd_ring _ w1)) in E2.
    assert (w_handlers w2 !! a = Some (upcast (SendZc p2 res))) as H2 by apply lookup_insert_eq.
    assert (drain_cqes fds [Cqe a x f2] w1 = (Ret (), w2)) as Ed2 by (by apply drain_one).
    exists w2. split; [done|]. split; [done|]. unfold zc_wait. rewrite Hz0.
    split; erewrite run_actions_cons by exact Ed1; [|erewrite run_actions_cons by exact Ed2]; simpl.
    + by rewrite (zc_result_lookup _ _ _ _ H1), Hp.
    + by rewrite (zc_result_lookup _ _ _ _ H2), Hp2.
  - exists w1. split; [done|]. split; [done|]. split; [|done]. unfold zc_wait. rewrite Hz0.
    erewrite run_actions_cons by exact Ed1. simpl. by rewrite (zc_result_lookup _ _ _ _ H1), Hp.
Qed.
End send_zc_theory.

Section send_zc_properties.
Context {L : Liburing} {P : Promise} {H : Type} {HC : CqeHandler H}
  {D : DerivedHandler H send_zc_handler}.
Implicit Types w : worker L H.

(** C35: a zero-copy send gives its buffer back only when the kernel has.  The
    entry names the registered buffer and the handler.  When the send's
    completion announces a notification, the fiber stays suspended after it,
    and is resumed by the notification, with the result of the first
    completion; when none is announced, the first completion resumes it.  A
    negative result is thrown either way, and the handler is gone when the
    call ends. *)
Theorem send_zc_two_phase (HL : LiburingLaws L) (HP : PromiseLaws P)
    (DL : DerivedHandlerLaws H send_zc_handler D send_zc_complete)
    (Hall : ∀ r : uring, submits_all r) fds fd addr idx nbytes flags a w res f1 x f2 :
  (length (sq_pending (w_ring w)) < sq_entries (w_ring w))%nat → k_cancel_tag < a →
  has_flag f1 IORING_CQE_F_NOTIF = false → has_flag f2 IORING_CQE_F_NOTIF = true →
  let send acts := async_send_zc fd addr idx nbytes flags a acts (Some w) in
  let reply : outcome Z := if res <? 0 then Exn (SystemError (- res)) else Ret res in
  ∃ w1 w2,
    w_handlers w2 !! a = None ∧
    sq_submitted (w_ring w1) = sq_submitted (w_ring w) ++ sq_pending (w_ring w) ++
      [set_data a (prepped (PrepSendZcFixed fd addr nbytes flags 0 idx))] ∧
    if has_flag f1 IORING_CQE_F_MORE then
      send [drain_cqes fds [Cqe a res f1]] = (Hang, Some w1)
      ∧ send [drain_cqes fds [Cqe a res f1]; drain_cqes fds [Cqe a x f2]] = (reply, Some w2)
    else send [drain_cqes fds [Cqe a res f1]] = (reply, Some w2).
Proof.
  intros Hroom Ha Hn1 Hn2 send reply.
  destruct (async_send_zc_run fd addr idx nbytes flags a w Hall Hroom) as (r & Hs & _ & _ & Hrun).
  set (w0 := upd_ring (λ _, r) (upd_handlers <[a := upcast (SendZc promise_new 0)]> w)) in *.
  destruct (zc_wait_answers fds a res f1 x f2 w0 Ha (lookup_insert_eq _ _ _) Hn1 Hn2)
    as (w1 & w2 & Hr1 & _ & Hw).
  destruct (has_flag f1 IORING_CQE_F_MORE); destruct Hw as [E1 E2].
  - exists w1, (upd_handlers (delete a) w2). split; [apply lookup_delete_eq|].
    split; [by rewrite Hr1|]. unfold send. rewrite (Hrun _ _ _ E1), (Hrun _ _ _ E2). done.
  - exists w1, (upd_handlers (delete a) w1). split; [apply lookup_delete_eq|].
    split; [by rewrite Hr1|]. unfold send. by rewrite (Hrun _ _ _ E1).
Qed.
End send_zc_properties.

(** ** Witnesses *)

Section witnesses.
Import ListUring CellPromise ListChannel.

(** four slots, all lent out when a fifth is asked for *)
Definition five_borrows : list op :=
  [Borrow 0; Borrow 1; MoveCtor 2 0; MoveAssign 1 2; Drop 0; Borrow 3; Borrow 4; Borrow 5; Borrow 6; Drop 1].

Lemma buffer_single_owner_witness :
  ∃ p : pool, fixed_buffer_pool true (λ _ _, 0) 4096 3 = Ret p ∧ buf_count_ p = 4 ∧
    ∃ s, exec_all five_borrows {| s_pool := p; s_vars := ∅ |} = (Hang, s)
      ∧ bc_items (free_list_ (s_pool s)) ++ lent owned (s_vars s) ≡ₚ seqZ 0 (buf_count_ p)
      ∧ stuck_borrow five_borrows {| s_pool := p; s_vars := ∅ |} s.
Proof.
  destruct (buffer_single_owner list_channel_laws (λ _ _, 0) 4096 3 five_borrows) as (p & E & _ & Hrun); [lia..|].
  vm_compute in E. injection E as <-.
  eexists. split; [vm_compute; reflexivity|]. split; [reflexivity|].
  destruct Hrun as (o & s & Es & Hp & Ho); [vm_compute; reflexivity|].
  assert (o = Hang) as -> by (vm_compute in Es; congruence).
  exists s. split; [exact Es|]. split; [exact Hp|]. destruct Ho as [Ho|[_ Ho]]; [discriminate Ho|exact Ho].
Defined.

Definition two_lent : state := Eval vm_compute in
  match fixed_buffer_pool true (λ _ _, 0) 4096 3 with
  | Ret p => (exec_all [Borrow 0; Borrow 1] {| s_pool := p; s_vars := ∅ |}).2
  | _ => {| s_pool := Pool 0 0 0 (Chan [] 2 false); s_vars := ∅ |}
  end.
Definition four_slots : pool := Eval vm_compute in
  match fixed_buffer_pool true (λ _ _, 0) 4096 3 with Ret p => p | _ => Pool 0 0 0 (Chan [] 2 false) end.

Lemma buffer_spans_disjoint_witness :
  ∃ off1 off2, fb_data (FixedBuffer true 0) two_lent = Ret (off1, 4096)
    ∧ fb_data (FixedBuffer true 1) two_lent = Ret (off2, 4096)
    ∧ 0 ≤ off1 ≤ storage_ four_slots - 4096 ∧ 0 ≤ off2 ≤ storage_ four_slots - 4096
    ∧ (off1 + 4096 ≤ off2 ∨ off2 + 4096 ≤ off1).
Proof.
  apply (buffer_spans_disjoint list_channel_laws (λ _ _, 0) 4096 3 [Borrow 0; Borrow 1]
    four_slots two_lent (Ret ()) 0 1); try lia; try (vm_compute; reflexivity).
Defined.

Lemma pool_ctor_errors_witness :
  ∃ p : pool, fixed_buffer_pool true (λ _ _, 0) 4096 0 = Ret p ∧ buf_count_ p = 2
    ∧ bc_items (free_list_ p) = [0; 1].
Proof.
  destruct (pool_ctor_errors list_channel_laws (λ _ _, 0) 4096 4) as (_ & _ & _ & Hz); [lia..|].
  apply Hz. lia.
Defined.

Definition zc_handlers : CqeHandler (option Z + send_zc_handler) :=
  one_more (L := list_uring) (P := cell_promise) send_zc_complete.

Definition zc_worker : worker list_uring (option Z + send_zc_handler) :=
  {| w_pool := {| running_ := true; work_queue_ := []; eventfd_ := 0; in_flight_ := 1 |};
     w_sched := {| ring_ := fresh k_ring_entries; ready_ := []; cancel_queue_ := []; notify_fd_ := 0 |};
     w_handlers := ∅; w_fibers := []; w_stops := ∅; w_pool_stop := 0%nat; w_fiber_stop := None |}.

Abbreviation zc_drain := (drain_cqes (HC := zc_handlers) OnlyAwaitable.bufs).

Lemma send_zc_two_phase_witness :
  let send acts := async_send_zc (HC := zc_handlers) (D := one_more_derived send_zc_complete)
    5 8192 1 100 0 4096 acts (Some zc_worker) in
  ∃ w1 w2,
    send [zc_drain [Cqe 4096 100 IORING_CQE_F_MORE]] = (Hang, Some w1)
    ∧ send [zc_drain [Cqe 4096 100 IORING_CQE_F_MORE]; zc_drain [Cqe 4096 0 IORING_CQE_F_NOTIF]]
       = (Ret 100, Some w2).
Proof.
  intros send.
  destruct (send_zc_two_phase (HC := zc_handlers) list_uring_laws cell_promise_laws
    (one_more_derived_laws send_zc_complete) list_uring_submits_all OnlyAwaitable.bufs 5 8192 1 100 0 4096
    zc_worker 100 IORING_CQE_F_MORE 0 IORING_CQE_F_NOTIF)
    as (w1 & w2 & _ & _ & E);
    [simpl; unfold k_ring_entries; lia|unfold k_cancel_tag; lia|reflexivity|reflexivity|].
  exists w1, w2. exact E.
Defined.
End witnesses.
