(* ===== verification/FixedFd.v ===== *)
(** * FixedFd: registered file descriptors (src/fixed_fd_table.cpp)

    [fixed_fd_table] with its free list of slots, the move-only handle
    [fd_slot], and [acquire_fd_slot].  The kernel's table of registered
    descriptors is the class [Files]: an update of a slot succeeds and sets it
    (or leaves it, when the descriptor is IORING_REGISTER_FILES_SKIP), or fails
    with a negative errno and changes nothing.  As in [FixedBuffer]
    the program's [fd_slot] variables are a map. *)

From S2P Require Import Prelude Cxx Boost Channel.

Local Open Scope Z_scope.

(** ** The kernel's table *)

Definition IORING_REGISTER_FILES_SKIP : Z := -2.

(** what a slot that held [old] holds after a successful update with [fd] *)
Definition stored (fd old : Z) : Z := if decide (fd = IORING_REGISTER_FILES_SKIP) then old else fd.

Class Files : Type := {
  files : Type;
  (** the descriptor in a slot, -1 when it is empty *)
  file_at : files → Z → Z;
  (** [io_uring_register_files]: a table of [n] empty slots *)
  register_files : Z → Z * files;
  (** [io_uring_register_files_update(ring, slot, &fd, 1)] *)
  files_update : Z → Z → files → Z * files
}.

Class FilesLaws (F : Files) : Prop := {
  register_empty n r fs i : register_files n = (r, fs) → 0 ≤ r → file_at fs i = -1;
  update_sets slot fd fs r fs' :
    files_update slot fd fs = (r, fs') → 0 ≤ r →
    file_at fs' slot = stored fd (file_at fs slot) ∧ ∀ i, i ≠ slot → file_at fs' i = file_at fs i;
  update_fails slot fd fs r fs' : files_update slot fd fs = (r, fs') → r < 0 → fs' = fs
}.

(** a kernel that refuses the descriptors of [bad] with EBADF *)
Module MapFiles.
Definition update (bad : gset Z) (slot fd : Z) (fs : gmap Z Z) : Z * gmap Z Z :=
  if decide (fd ∈ bad) then (- EBADF, fs)
  else if decide (fd = IORING_REGISTER_FILES_SKIP) then (1, fs) else (1, <[slot := fd]> fs).

Definition map_files (bad : gset Z) : Files := {|
  files := gmap Z Z; file_at fs i := default (-1) (fs !! i);
  register_files n := (0, ∅); files_update := update bad |}.

Lemma map_files_laws bad : FilesLaws (map_files bad).
Proof.
  split; simpl.
  - intros n r fs i [= <- <-] _. by rewrite lookup_empty.
  - intros slot fd fs r fs'. unfold update, stored. repeat case_decide; intros [= <- <-] Hr;
      [by unfold EBADF in Hr|by unfold EBADF in Hr|done|].
    rewrite lookup_insert_eq. split; [done|]. intros i Hi. by rewrite lookup_insert_ne.
  - intros slot fd fs r fs'. unfold update. repeat case_decide; intros [= <- <-]; done || lia.
Qed.
End MapFiles.

Section table.
Context {B : BufferedChannel Z} {F : Files}.

Record table := Table { capacity_ : Z; free_list_ : bchan; kernel : files }.

(** [fd_slot]: [table_ != nullptr], and the slot *)
Record fd_slot := FdSlot { table_ : bool; slot_ : Z }.

Record state := State { s_table : table; s_vars : gmap nat fd_slot }.

Definition set_free (ch : bchan) (s : state) : state :=
  {| s_table := {| capacity_ := capacity_ (s_table s); free_list_ := ch; kernel := kernel (s_table s) |};
     s_vars := s_vars s |}.
Definition set_kernel (fs : files) (s : state) : state :=
  {| s_table := {| capacity_ := capacity_ (s_table s); free_list_ := free_list_ (s_table s); kernel := fs |};
     s_vars := s_vars s |}.
Definition upd_vars (f : gmap nat fd_slot → gmap nat fd_slot) (s : state) : state :=
  {| s_table := s_table s; s_vars := f (s_vars s) |}.

(** [for (unsigned i = 0; i < static_cast<unsigned>(capacity_); ++i)
    static_cast<void>(free_list_.try_push(i));] *)
Fixpoint try_push_indices (idxs : list Z) (ch : bchan) : bchan :=
  match idxs with
  | [] => ch
  | i :: idxs => try_push_indices idxs (try_push i ch).2
  end.

(** the constructor: the free list is built before anything is checked *)
Definition fixed_fd_table (on_worker : bool) (capacity : Z) : outcome table :=
  match channel_new capacity with
  | Ret ch =>
      if negb on_worker then Exn RuntimeError
      else if capacity =? 0 then Exn InvalidArgument
      else
        let '(r, fs) := register_files (to_u32 capacity) in
        if r <? 0 then Exn (SystemError (- r))
        else Ret {| capacity_ := capacity;
                    free_list_ := try_push_indices (seqZ 0 (to_u32 capacity)) ch; kernel := fs |}
  | Exn e => Exn e | Undef => Undef | Abort => Abort | Hang => Hang
  end.

(** [~fixed_fd_table()] on the table's own state: [free_list_.close()] *)
Definition table_dtor (t : table) : table :=
  {| capacity_ := capacity_ t; free_list_ := close (free_list_ t); kernel := kernel t |}.

(** [fixed_fd_table::update] *)
Definition table_update (slot fd : Z) : cxx state () := λ s,
  let '(r, fs) := files_update slot fd (kernel (s_table s)) in
  if r <? 0 then (Exn (SystemError (- r)), set_kernel fs s) else (Ret (), set_kernel fs s).

(** [operator[]] *)
Definition table_index (slot : Z) : Z := to_i32 slot.

Definition borrow_slot : cxx state Z := λ s,
  match pop (free_list_ (s_table s)) with
  | None => (Hang, s)
  | Some (status, slot, ch) =>
      if decide (status = success) then (Ret (default 0 slot), set_free ch s)
      else (Exn RuntimeError, set_free ch s)
  end.

Definition release_slot (slot : Z) : cxx state () := λ s,
  match push slot (free_list_ (s_table s)) with
  | None => (Hang, s)
  | Some (_, ch) => (Ret (), set_free ch s)
  end.

Definition read_var (v : nat) : cxx state fd_slot := λ s,
  match s_vars s !! v with Some b => (Ret b, s) | None => (Undef, s) end.
Definition write_var (v : nat) (b : fd_slot) : cxx state () := modify (upd_vars <[v := b]>).

(** what [operator=] and the destructor do with the slot they hold *)
Definition slot_give_back (t : fd_slot) : cxx state () :=
  if table_ t then _ ← table_update (slot_ t) (-1); release_slot (slot_ t) else mret ().

(** [fd_slot(fd_slot&& other)] *)
Definition slot_move_ctor (this other : nat) : cxx state () :=
  o ← read_var other;
  _ ← write_var this {| table_ := table_ o; slot_ := slot_ o |};
  write_var other {| table_ := false; slot_ := slot_ o |}.

(** [operator=(fd_slot&& other) noexcept] *)
Definition slot_move_assign (this other : nat) : cxx state () :=
  noexcept (
    if decide (this = other) then mret ()
    else
      t ← read_var this;
      _ ← slot_give_back t;
      o ← read_var other;
      _ ← write_var this {| table_ := table_ o; slot_ := slot_ o |};
      write_var other {| table_ := false; slot_ := slot_ o |}).

(** [~fd_slot()], implicitly [noexcept] *)
Definition slot_dtor (this : nat) : cxx state () :=
  noexcept (t ← read_var this; _ ← slot_give_back t; modify (upd_vars (delete this))).

(** [fd_slot::update]; a moved-from handle has no table *)
Definition slot_update (this : nat) (fd : Z) : cxx state () :=
  t ← read_var this;
  if table_ t then table_update (slot_ t) fd else undef.

(** [acquire_fd_slot(fd)] on a thread with a table *)
Definition acquire (fd : Z) : cxx state fd_slot :=
  slot ← borrow_slot;
  _ ← table_update slot fd;
  mret {| table_ := true; slot_ := slot |}.

Definition acquire_fd_slot (fd : Z) : cxx (option state) fd_slot := λ t,
  match t with
  | None => (Exn RuntimeError, None)
  | Some s => let '(o, s') := acquire fd s in (o, Some s')
  end.

(** ** Programs *)

Inductive op :=
  | Acquire (v : nat) (fd : Z)     (** [fd_slot v = acquire_fd_slot(fd);] *)
  | MoveCtor (v other : nat)
  | MoveAssign (v other : nat)
  | Update (v : nat) (fd : Z)
  | Drop (v : nat).

Definition exec (o : op) : cxx state () :=
  match o with
  | Acquire v fd => b ← acquire fd; write_var v b
  | MoveCtor v other => slot_move_ctor v other
  | MoveAssign v other => slot_move_assign v other
  | Update v fd => slot_update v fd
  | Drop v => slot_dtor v
  end.

(** scoping; a moved-from handle is not updated *)
Definition legal (o : op) (s : state) : bool :=
  match o with
  | Acquire v _ => bool_decide (s_vars s !! v = None)
  | MoveCtor v other => bool_decide (s_vars s !! v = None ∧ is_Some (s_vars s !! other))
  | MoveAssign v other => bool_decide (is_Some (s_vars s !! v) ∧ is_Some (s_vars s !! other))
  | Update v _ => if s_vars s !! v is Some t then table_ t else false
  | Drop v => bool_decide (is_Some (s_vars s !! v))
  end.

(** the states of programs that run on a table, and go on after an exception *)
Inductive reachable (t : table) : state → Prop :=
  | reach_new : reachable t {| s_table := t; s_vars := ∅ |}
  | reach_step o s : reachable t s → legal o s = true → reachable t (exec o s).2.

(** [n] calls of [acquire_fd_slot(fd)] whose exceptions are caught *)
Fixpoint retry (n : nat) (fd : Z) : cxx state () :=
  match n with
  | O => mret ()
  | S n => _ ← catch (_ ← acquire fd; mret ()) (λ _, mret ()); retry n fd
  end.
End table.
Arguments table {B F}.
Arguments state {B F}.

(** ** Invariant *)

Section invariant.
Context {B : BufferedChannel Z} {HB : BufferedChannelLaws Z B} {F : Files} {FL : FilesLaws F}.
Implicit Types s : state.

(** the slot a variable owns *)
Definition owned (t : fd_slot) : list Z := if table_ t then [slot_ t] else [].

(** no slot is both free and owned, or owned twice; the free list has room for
    all of them; and a free slot is empty in the kernel *)
Record wf (s : state) : Prop := {
  wf_slots : bc_items (free_list_ (s_table s)) ++ lent owned (s_vars s) ⊆+ seqZ 0 (capacity_ (s_table s));
  wf_open : bc_closed (free_list_ (s_table s)) = false;
  wf_room : capacity_ (s_table s) ≤ bc_capacity (free_list_ (s_table s)) - 1;
  wf_clear i : i ∈ bc_items (free_list_ (s_table s)) → file_at (kernel (s_table s)) i = -1;
  wf_pos : 0 ≤ capacity_ (s_table s)
}.

(** clearing a slot always succeeds *)
Definition clears : Prop := ∀ slot fs, 0 ≤ (files_update slot (-1) fs).1.

Lemma table_update_spec slot fd s :
  ∃ fs, (table_update slot fd s = (Ret (), set_kernel fs s)
           ∧ file_at fs slot = stored fd (file_at (kernel (s_table s)) slot)
         ∨ fs = kernel (s_table s) ∧ ∃ e, table_update slot fd s = (Exn (SystemError e), set_kernel fs s)
           ∧ e = - (files_update slot fd (kernel (s_table s))).1 ∧ 0 < e)
    ∧ ∀ i, i ≠ slot → file_at fs i = file_at (kernel (s_table s)) i.
Proof.
  unfold table_update. destruct (files_update slot fd (kernel (s_table s))) as [r fs] eqn:E.
  exists fs. destruct (Z.ltb_spec r 0) as [Hr|Hr].
  - rewrite (update_fails _ _ _ _ _ E Hr). split; [|done]. right. split; [done|].
    exists (- r). split; [done|]. simpl. lia.
  - destruct (update_sets _ _ _ _ _ E Hr) as [Hs Ho]. auto.
Qed.

Lemma read_var_spec s v t : s_vars s !! v = Some t → read_var v s = (Ret t, s).
Proof. intros Hv. unfold read_var. by rewrite Hv. Qed.

Lemma wf_length s :
  wf s → Z.of_nat (length (bc_items (free_list_ (s_table s))) + length (lent owned (s_vars s)))
         ≤ capacity_ (s_table s).
Proof.
  intros [Hs _ _ _ Hc]. apply submseteq_length in Hs. rewrite length_app, length_seqZ in Hs. lia.
Qed.

(** giving back the slot a variable holds clears it and never suspends *)
Lemma slot_give_back_spec s v t :
  clears → wf s → s_vars s !! v = Some t →
  ∃ ch fs, slot_give_back t s = (Ret (), set_free ch (set_kernel fs s))
    ∧ bc_items ch = bc_items (free_list_ (s_table s)) ++ owned t
    ∧ bc_capacity ch = bc_capacity (free_list_ (s_table s)) ∧ bc_closed ch = false
    ∧ (∀ i, i ∈ bc_items ch → file_at fs i = -1)
    ∧ (∀ i, i ∉ owned t → file_at fs i = file_at (kernel (s_table s)) i).
Proof.
  intros Hcl Hwf Hv. pose proof (wf_length s Hwf) as Hlen. pose proof Hwf as [Hs Ho Hr Hclr Hp].
  unfold slot_give_back, owned. destruct (table_ t) eqn:Ht; last first.
  { exists (free_list_ (s_table s)), (kernel (s_table s)). rewrite app_nil_r.
    split; [by destruct s as [[] ?]|]. done. }
  assert (1 ≤ length (lent owned (s_vars s)))%nat.
  { rewrite (lent_delete owned v t _ Hv). unfold owned at 1. rewrite Ht. simpl. lia. }
  destruct (table_update_spec (slot_ t) (-1) s) as (fs & [[E Hfs]|(_ & e & _ & He & Hpos)] & Hoth); last first.
  { specialize (Hcl (slot_ t) (kernel (s_table s))). lia. }
  destruct (push_room (slot_ t) (free_list_ (s_table s)) Ho) as (ch & Ep & Hi & Hcap & Hclo); [lia|].
  exists ch, fs. split.
  { bind_ret. unfold release_slot. simpl. by rewrite Ep. }
  split; [done|]. split; [done|]. split; [done|]. split.
  - intros i. rewrite Hi, elem_of_app, list_elem_of_singleton. intros [Hin| ->]; [|done].
    destruct (decide (i = slot_ t)) as [->|Hne]; [done|]. rewrite Hoth by done. by apply Hclr.
  - intros i Hni. apply Hoth. set_solver.
Qed.
Lemma wf_nodup s : wf s → NoDup (bc_items (free_list_ (s_table s)) ++ lent owned (s_vars s)).
Proof.
  intros [Hs _ _ _ _]. apply submseteq_Permutation in Hs as [k Hk].
  pose proof (NoDup_seqZ 0 (capacity_ (s_table s))) as Hnd. rewrite Hk in Hnd.
  by apply NoDup_app in Hnd as [? _].
Qed.

(** a live handle's slot is not free, and not another handle's *)
Lemma wf_exclusive s u t :
  wf s → s_vars s !! u = Some t → table_ t = true →
  (slot_ t ∉ bc_items (free_list_ (s_table s)))
  ∧ ∀ v t', s_vars s !! v = Some t' → v ≠ u → slot_ t ∉ owned t'.
Proof.
  intros Hwf Hu Ht. pose proof (wf_nodup s Hwf) as Hnd.
  rewrite (lent_delete owned u t _ Hu) in Hnd. unfold owned in Hnd at 1. rewrite Ht in Hnd.
  apply NoDup_app in Hnd as (_ & Hd & Hnd). split.
  - intros Hin. apply (Hd (slot_ t)); [done|]. by left.
  - intros v t' Hv Hne Hin. apply NoDup_cons in Hnd as [Hnd _]. apply Hnd.
    rewrite (lent_delete owned v t') by (by rewrite lookup_delete_ne). apply elem_of_app. by left.
Qed.

Definition op_vars (o : op) : list nat :=
  match o with
  | Acquire v _ | Update v _ | Drop v => [v]
  | MoveCtor v u | MoveAssign v u => [v; u]
  end.

(** the handles that [o] does not name keep their slot and its descriptor *)
Definition isolated (o : op) (s s' : state) : Prop :=
  ∀ u t, u ∉ op_vars o → s_vars s !! u = Some t → table_ t = true →
    s_vars s' !! u = Some t
    ∧ file_at (kernel (s_table s')) (slot_ t) = file_at (kernel (s_table s)) (slot_ t).

(** how a statement may end: an acquire returns with its descriptor in the new
    handle's slot, throws the kernel's error, or suspends, with no slot free; an
    update stores its descriptor or throws; the others return *)
Definition completes (o : op) (s : state) (r : outcome ()) (s' : state) : Prop :=
  match o with
  | Acquire v fd =>
      r = Ret () ∧ (∃ t, s_vars s' !! v = Some t ∧ table_ t = true
                     ∧ file_at (kernel (s_table s')) (slot_ t) = stored fd (-1))
      ∨ (∃ e, r = Exn (SystemError e)) ∨ r = Hang ∧ s' = s ∧ bc_items (free_list_ (s_table s)) = []
  | Update v fd =>
      r = Ret () ∧ (∀ t, s_vars s !! v = Some t → file_at (kernel (s_table s')) (slot_ t)
                     = stored fd (file_at (kernel (s_table s)) (slot_ t)))
      ∨ ∃ e, r = Exn (SystemError e)
  | MoveCtor _ _ | MoveAssign _ _ | Drop _ => r = Ret ()
  end.

(** what every statement guarantees *)
Definition step_ok (o : op) (s : state) (r : outcome ()) (s' : state) : Prop :=
  wf s' ∧ isolated o s s' ∧ capacity_ (s_table s') = capacity_ (s_table s) ∧ completes o s r s'.

Lemma acquire_ok v fd s :
  wf s → s_vars s !! v = None →
  ∃ r s', exec (Acquire v fd) s = (r, s') ∧ step_ok (Acquire v fd) s r s'.
Proof.
  intros Hwf Hv. pose proof (wf_nodup s Hwf) as Hnd. pose proof Hwf as [Hs Ho Hr Hclr Hp].
  destruct (bc_items (free_list_ (s_table s))) as [|i is0] eqn:Hi.
  { exists Hang, s. split.
    { simpl. unfold acquire, borrow_slot, mbind, cxx_mbind, cxx_bind. by rewrite pop_blocked. }
    split; [done|]. split; [done|]. split; [done|]. simpl. auto. }
  destruct (pop_item _ _ _ Hi) as (ch & E & Hi' & Hcap & Hcl).
  assert (borrow_slot s = (Ret i, set_free ch s)) as Eb by (unfold borrow_slot; by rewrite E).
  destruct (table_update_spec i fd (set_free ch s)) as (fs & Hup & Hoth). simpl in Hoth.
  assert (∀ t u, s_vars s !! u = Some t → table_ t = true → slot_ t ≠ i) as Hne.
  { intros t u Hu Ht Heq. destruct (wf_exclusive s u t Hwf Hu Ht) as [Hn _]. rewrite Hi, Heq in Hn. set_solver. }
  assert (∀ j, j ∈ bc_items ch → file_at fs j = -1) as Hclr'.
  { intros j. rewrite Hi'. intros Hj. rewrite Hoth; [apply Hclr; by right|].
    intros ->. apply NoDup_app in Hnd as (Hnd & _). apply NoDup_cons in Hnd as [? _]. done. }
  assert (∀ s', kernel (s_table s') = fs → (∀ u t, u ≠ v → s_vars s !! u = Some t → s_vars s' !! u = Some t)
    → isolated (Acquire v fd) s s') as Hiso.
  { intros s' Hk Hvs u t Hu Hut Htt. split; [apply Hvs; set_solver|]. rewrite Hk. apply Hoth. by eapply Hne. }
  destruct Hup as [[Eu Hfd]|(Hfs & e & Eu & _)].
  - eexists (Ret ()), _. split.
    { simpl. erewrite cxx_bind_ret; [done|]. unfold acquire. bind_ret.
      by bind_ret. }
    split; [|split; [apply Hiso; [done|]|split; [done|]]].
    + split; simpl; [|congruence|by rewrite Hcap|exact Hclr'|done]. rewrite Hi', lent_insert by done. simpl.
      by rewrite <-Permutation_middle.
    + intros u t Hu Hut. simpl. by rewrite lookup_insert_ne.
    + left. split; [done|]. eexists. simpl. rewrite lookup_insert_eq. split; [done|]. split; [done|].
      simpl. rewrite <-(Hclr i); [exact Hfd|by left].
  - eexists (Exn (SystemError e)), _. split.
    { simpl. apply cxx_bind_exn. unfold acquire. bind_ret. by apply cxx_bind_exn. }
    split; [|split; [apply Hiso; done|]].
    + split; simpl; [|congruence|by rewrite Hcap|exact Hclr'|done]. rewrite Hi'. etrans; [|exact Hs].
      simpl. by apply submseteq_cons.
    + split; [done|]. right. left. by eexists.
Qed.
Lemma move_ctor_ok v u s :
  wf s → s_vars s !! v = None → is_Some (s_vars s !! u) →
  ∃ s', exec (MoveCtor v u) s = (Ret (), s') ∧ step_ok (MoveCtor v u) s (Ret ()) s'.
Proof.
  intros Hwf Hv [b Hu]. pose proof Hwf as [Hs Ho Hr Hclr Hp]. eexists. split.
  { simpl. unfold slot_move_ctor. erewrite cxx_bind_ret by (by apply read_var_spec).
    by bind_ret. }
  split; [|split; [|by split]].
  - split; simpl; try done.
    pose proof (lent_move owned u v b (FdSlot (table_ b) (slot_ b)) (FdSlot false (slot_ b))
      (s_vars s)) as Hm. rewrite Hv in Hm. simpl in Hm. rewrite app_nil_r in Hm.
    rewrite Hm; done || congruence.
  - intros j t Hj Hjt Ht. simpl. rewrite !lookup_insert_ne by set_solver. done.
Qed.

Lemma move_assign_ok v u s :
  clears → wf s → is_Some (s_vars s !! v) → is_Some (s_vars s !! u) →
  ∃ s', exec (MoveAssign v u) s = (Ret (), s') ∧ step_ok (MoveAssign v u) s (Ret ()) s'.
Proof.
  intros Hcl Hwf [t Hv] [b Hu]. pose proof Hwf as [Hs Ho Hr Hclr Hp]. simpl. unfold slot_move_assign.
  destruct (decide (v = u)) as [->|Hne].
  { exists s. split; [done|]. split; [done|]. split; [|by split]. by intros ? ? ? ? ?. }
  destruct (slot_give_back_spec s v t Hcl Hwf Hv) as (ch & fs & E & Hi & Hcap & Hclo & Hclr' & Hoth).
  eexists. split.
  { unfold noexcept. erewrite cxx_bind_ret by (by apply read_var_spec). bind_ret.
    erewrite cxx_bind_ret by (by apply read_var_spec). by bind_ret. }
  split; [|split; [|by split]].
  - split; simpl; [|done|by rewrite Hcap|exact Hclr'|done].
    rewrite Hi, <-app_assoc.
    pose proof (lent_move owned u v b (FdSlot (table_ b) (slot_ b)) (FdSlot false (slot_ b))
      (s_vars s)) as Hm. rewrite Hv in Hm. simpl in Hm.
    rewrite (Permutation_app_comm (owned t)), Hm; done || congruence.
  - intros j tj Hj Hjt Ht. simpl. rewrite !lookup_insert_ne by set_solver. split; [done|].
    apply Hoth. eapply (wf_exclusive s j tj Hwf Hjt Ht); [done|set_solver].
Qed.

Lemma drop_ok v s :
  clears → wf s → is_Some (s_vars s !! v) →
  ∃ s', exec (Drop v) s = (Ret (), s') ∧ step_ok (Drop v) s (Ret ()) s'.
Proof.
  intros Hcl Hwf [t Hv]. pose proof Hwf as [Hs Ho Hr Hclr Hp]. simpl. unfold slot_dtor.
  destruct (slot_give_back_spec s v t Hcl Hwf Hv) as (ch & fs & E & Hi & Hcap & Hclo & Hclr' & Hoth).
  eexists. split.
  { unfold noexcept. erewrite cxx_bind_ret by (by apply read_var_spec). by bind_ret. }
  split; [|split; [|by split]].
  - split; simpl; [|done|by rewrite Hcap|exact Hclr'|done].
    rewrite Hi, <-app_assoc. by rewrite <-(lent_delete owned v t _ Hv).
  - intros j tj Hj Hjt Ht. simpl. rewrite lookup_delete_ne by set_solver. split; [done|].
    apply Hoth. eapply (wf_exclusive s j tj Hwf Hjt Ht); [done|set_solver].
Qed.

Lemma update_ok v fd t s :
  wf s → s_vars s !! v = Some t → table_ t = true →
  ∃ r s', exec (Update v fd) s = (r, s') ∧ step_ok (Update v fd) s r s'.
Proof.
  intros Hwf Hv Ht. pose proof Hwf as [Hs Ho Hr Hclr Hp]. simpl. unfold slot_update.
  destruct (wf_exclusive s v t Hwf Hv Ht) as [Hfree _].
  destruct (table_update_spec (slot_ t) fd s) as (fs & Hup & Hoth).
  assert (wf (set_kernel fs s) ∧ isolated (Update v fd) s (set_kernel fs s)) as [Hwf' Hiso].
  { split.
    - split; simpl; try done. intros i Hi. rewrite Hoth; [by apply Hclr|]. by intros ->.
    - intros j tj Hj Hjt Htj. simpl. split; [done|]. apply Hoth. intros Heq.
      destruct (wf_exclusive s j tj Hwf Hjt Htj) as [_ Hex]. apply (Hex v t Hv); [set_solver|].
      unfold owned. rewrite Ht, Heq. by left. }
  destruct Hup as [[E Hfd]|(_ & e & E & _)]; eexists _, _; (split;
    [erewrite cxx_bind_ret by (by apply read_var_spec); rewrite Ht; exact E|]).
  - split; [done|]. split; [done|]. split; [done|]. left. split; [done|]. intros t' Ht'. simplify_eq. exact Hfd.
  - split; [done|]. split; [done|]. split; [done|]. right. by eexists.
Qed.

Lemma exec_ok o s :
  clears → wf s → legal o s = true → ∃ r s', exec o s = (r, s') ∧ step_ok o s r s'.
Proof.
  intros Hcl Hwf Hl. destruct o as [v fd|v u|v u|v fd|v]; unfold legal in Hl;
    try apply bool_decide_eq_true in Hl.
  - by apply acquire_ok.
  - destruct Hl as [? ?]. destruct (move_ctor_ok v u s) as (s' & E & Hok); eauto.
  - destruct Hl as [? ?]. destruct (move_assign_ok v u s) as (s' & E & Hok); eauto.
  - destruct (s_vars s !! v) as [t|] eqn:Hv; [|done].
    by apply (update_ok v fd t s).
  - destruct (drop_ok v s Hcl Hwf Hl) as (s' & E & Hok). eauto.
Qed.

Lemma try_push_indices_room idxs ch :
  bc_closed ch = false →
  Z.of_nat (length (bc_items ch) + length idxs) ≤ bc_capacity ch - 1 →
  let ch' := try_push_indices idxs ch in
  bc_items ch' = bc_items ch ++ idxs ∧ bc_capacity ch' = bc_capacity ch ∧ bc_closed ch' = false.
Proof.
  revert ch. induction idxs as [|i idxs IH]; intros ch Hc Hlen; simpl in *; [by rewrite app_nil_r|].
  unfold try_push. destruct (bc_try_push_room i ch) as (ch1 & -> & Hi & Hcap & Hcl);
    [done|unfold bc_full; lia|]. simpl.
  destruct (IH ch1) as (Hi2 & Hcap2 & Hcl2); [done|rewrite Hi, Hcap, length_app; simpl; lia|].
  by rewrite Hi2, Hi, <-app_assoc, Hcap2, Hcap.
Qed.

Lemma table_ctor_wf capacity :
  1 ≤ capacity < 2 ^ 32 → (∀ n, 0 ≤ (register_files n).1) →
  ∃ t, fixed_fd_table true capacity = Ret t ∧ capacity_ t = capacity
    ∧ bc_items (free_list_ t) = seqZ 0 capacity ∧ wf {| s_table := t; s_vars := ∅ |}.
Proof.
  intros Hc Hreg. unfold fixed_fd_table.
  destruct (channel_new_ok (T := Z) capacity) as (ch & -> & Habs & Hcap); [lia|].
  injection Habs as Hi Hcl. simpl. destruct (Z.eqb_spec capacity 0); [lia|].
  unfold to_u32. rewrite wrap_id by lia. specialize (Hreg capacity).
  destruct (register_files capacity) as [r fs] eqn:Er. simpl in Hreg.
  destruct (Z.ltb_spec r 0); [lia|].
  destruct (try_push_indices_room (seqZ 0 capacity) ch) as (Hi' & Hcap' & Hcl'); [done| |].
  { rewrite Hi, length_seqZ. simpl. lia. }
  rewrite Hi in Hi'. simpl in Hi'. eexists. split; [done|]. split; [done|]. split; [done|].
  split; simpl; [|done|lia| |lia].
  - by rewrite Hi', lent_empty, app_nil_r.
  - intros i _. by eapply register_empty.
Qed.
End invariant.

(** ** Properties *)

Section properties.
Context {B : BufferedChannel Z} {F : Files}.


(** [acquire_fd_slot] loses a slot when the kernel refuses the descriptor.
    The slot leaves the free list before the update that throws, and no handle
    owns it.  After [capacity] acquires of a descriptor the kernel refuses, the
    next acquire, of any descriptor, suspends although no slot is in use, and
    nothing can resume it. *)
Theorem acquire_leaks_slots (HB : BufferedChannelLaws Z B) (FL : FilesLaws F) capacity t bad fd :
  1 ≤ capacity < 2 ^ 32 → (∀ n, 0 ≤ (register_files n).1) →
  fixed_fd_table true capacity = Ret t →
  (∀ slot fs, (files_update slot bad fs).1 < 0) →
  let s0 := {| s_table := t; s_vars := ∅ |} in
  ∃ s, (_ ← retry (Z.to_nat capacity) bad; acquire fd) s0 = (Hang, s) ∧ s_vars s = ∅.
Proof.
  intros Hc Hreg Et Hbad s0.
  destruct (table_ctor_wf capacity Hc Hreg) as (t' & Et' & _ & Hi & Hwf).
  rewrite Et in Et'. injection Et' as <-.
  assert (∀ n s, length (bc_items (free_list_ (s_table s))) = n →
    bc_closed (free_list_ (s_table s)) = false → s_vars s = ∅ →
    ∃ s', retry n bad s = (Ret (), s') ∧ bc_items (free_list_ (s_table s')) = []
      ∧ bc_closed (free_list_ (s_table s')) = false ∧ s_vars s' = ∅) as Hretry.
  { induction n as [|n IH]; intros s Hlen Hcl Hvs; simpl.
    { exists s. apply length_zero_iff_nil in Hlen. done. }
    destruct (bc_items (free_list_ (s_table s))) as [|i is0] eqn:His; [done|].
    destruct (pop_item _ _ _ His) as (ch & Ep & Hi' & _ & Hcl').
    destruct (table_update_spec i bad (set_free ch s)) as (fs & [[E _]|(_ & e & E & _)] & _).
    { exfalso. specialize (Hbad i (kernel (s_table s))). unfold table_update in E. simpl in E.
      destruct (files_update i bad (kernel (s_table s))) as [r fs']. simpl in Hbad.
      destruct (Z.ltb_spec r 0); [done|lia]. }
    erewrite cxx_bind_ret; last first.
    { unfold catch. erewrite cxx_bind_exn; [done|]. unfold acquire.
      erewrite cxx_bind_ret by (unfold borrow_slot; by rewrite Ep). by apply cxx_bind_exn. }
    apply IH; simpl; [by rewrite Hi'; injection Hlen|congruence|done]. }
  destruct (Hretry (Z.to_nat capacity) s0) as (s' & E & Hi' & Hcl' & Hvs).
  { simpl. rewrite Hi, length_seqZ. done. }
  { apply (wf_open _ Hwf). }
  { done. }
  exists s'. split; [|done]. erewrite cxx_bind_ret by exact E.
  unfold acquire, borrow_slot, mbind, cxx_mbind, cxx_bind. by rewrite pop_blocked.
Qed.

(** A slot the kernel will not clear ends the program: the destructor and
    the move assignment of [fd_slot] are [noexcept], and the error that
    [update] throws inside them reaches [std::terminate]. *)
Theorem clear_failure_terminates s v u t b :
  s_vars s !! v = Some t → table_ t = true → s_vars s !! u = Some b → v ≠ u →
  (files_update (slot_ t) (-1) (kernel (s_table s))).1 < 0 →
  (exec (Drop v) s).1 = Abort ∧ (exec (MoveAssign v u) s).1 = Abort.
Proof.
  intros Hv Ht Hu Hne Hup. simpl. unfold slot_dtor, slot_move_assign, noexcept. rewrite decide_False by done.
  assert (∃ e s', slot_give_back t s = (Exn e, s')) as (e & s' & E).
  { unfold slot_give_back. rewrite Ht. unfold table_update, mbind, cxx_mbind, cxx_bind.
    destruct (files_update (slot_ t) (-1) (kernel (s_table s))) as [r fs]. simpl in Hup.
    destruct (Z.ltb_spec r 0); [|lia]. by eexists _, _. }
  assert (read_var v s = (Ret t, s)) as Er by (unfold read_var; by rewrite Hv).
  split; erewrite cxx_bind_ret by exact Er; by erewrite cxx_bind_exn by exact E.
Qed.

(** The constructor's errors.  With a capacity of 0 the free list's own
    constructor throws [fiber_error], on a worker or not, so neither
    documented exception is ever reached for it; otherwise a thread without a
    ring and a refused registration are reported as documented. *)
Theorem table_ctor_errors (HB : BufferedChannelLaws Z B) on_worker capacity :
  fixed_fd_table on_worker 0 = Exn FiberError ∧
  (1 ≤ capacity < 2 ^ 32 →
    fixed_fd_table false capacity = Exn RuntimeError ∧
    ((register_files capacity).1 < 0 →
      fixed_fd_table true capacity = Exn (SystemError (- (register_files capacity).1)))).
Proof.
  split.
  { assert (channel_new (T := Z) 0 = Exn FiberError) as E.
    { unfold channel_new. change (bit_ceil (add64 0 1)) with (Some 1).
      cbv beta iota. by rewrite bc_new_bad by (left; lia). }
    unfold fixed_fd_table. by rewrite E. }
  intros Hc. unfold fixed_fd_table.
  destruct (channel_new_ok (T := Z) capacity) as (ch & -> & _); [lia|]. split; [done|].
  intros Hr. simpl. destruct (Z.eqb_spec capacity 0); [lia|]. unfold to_u32. rewrite wrap_id by lia.
  destruct (register_files capacity) as [r fs]. simpl in *. by destruct (Z.ltb_spec r 0); [|lia].
Qed.
End properties.

(** ** Witnesses *)

Section witnesses.
Import ListChannel MapFiles.

(** a kernel that refuses descriptor 99 *)
Definition no99 : Files := map_files {[ 99 ]}.
#[local] Existing Instance no99.

Definition table3 : table := Eval vm_compute in
  match fixed_fd_table true 3 with Ret t => t | _ => Table 0 (Chan [] 2 false) (∅ : gmap Z Z) end.

Lemma no99_clears : clears (F := no99).
Proof. intros slot fs. simpl. unfold update. rewrite !decide_False by (done || set_solver). simpl. lia. Qed.

(** the state after a failed acquire and a successful one *)
Definition after_two : state :=
  (exec (Acquire 1 7) (exec (Acquire 0 99) {| s_table := table3; s_vars := ∅ |}).2).2.


Lemma acquire_leaks_slots_witness :
  ∃ s, (_ ← retry 3 99; acquire 7) {| s_table := table3; s_vars := ∅ |} = (Hang, s) ∧ s_vars s = ∅.
Proof.
  apply (acquire_leaks_slots list_channel_laws (map_files_laws {[ 99 ]}) 3 table3 99 7);
    [lia|simpl; lia|vm_compute; reflexivity|].
  intros slot fs. simpl. unfold update. rewrite decide_True by set_solver. reflexivity.
Defined.

Lemma table_ctor_errors_witness :
  fixed_fd_table (B := list_channel) true 0 = Exn FiberError ∧
  fixed_fd_table (B := list_channel) false 3 = Exn RuntimeError.
Proof.
  destruct (table_ctor_errors list_channel_laws true 3) as [H0 H1].
  split; [exact H0|]. apply H1. lia.
Defined.
End witnesses.

(** a kernel that will not clear a slot *)
Section clear_witness.
Import ListChannel MapFiles.
Definition no_clear : Files := map_files {[ -1 ]}.
#[local] Existing Instance no_clear.

Definition two_slots : state :=
  {| s_table := Table 3 (Chan [2] 4 false) ({[ 0 := 7; 1 := 8 ]} : gmap Z Z);
     s_vars := {[ 0%nat := FdSlot true 0; 1%nat := FdSlot true 1 ]} |}.

Lemma clear_failure_terminates_witness :
  (exec (Drop 0) two_slots).1 = Abort ∧ (exec (MoveAssign 0 1) two_slots).1 = Abort.
Proof.
  apply (clear_failure_terminates two_slots 0 1 (FdSlot true 0) (FdSlot true 1)); try reflexivity. done.
Defined.
End clear_witness.
