(* ===== verification/Worker.v ===== *)
(** * Worker: a worker thread's life (src/fiber_context.cpp, [fiber_pool::worker])

    A worker makes its scheduler, then the per-thread resources its
    [context_options] ask for, publishes them through thread-local pointers,
    waits for shutdown, and takes everything down again.  The thread's state
    holds the scheduler, the two optionals on [worker]'s stack, the
    thread-local pointers, and what is registered with the ring.  [worker] is
    the list of its steps, so that the theorems speak of every point of the
    thread's life.

    What happens during the shutdown wait (fibers running on the thread, which
    use the resources) is a parameter. *)

From S2P Require Import Prelude Cxx Uring Boost Channel Scheduler Submit FixedBuffer FixedFd.

Local Open Scope Z_scope.

(** [struct context_options] *)
Record context_options := ContextOptions {
  thread_count : Z;
  stack_size : Z;
  fixed_buffer_size : Z;
  fixed_buffer_count : Z;
  registered_fd_capacity : Z
}.

(** [default_stack_size] *)
Definition default_stack_size : Z := 128 * 1024.

(** the default member initialisers; [hw] is [hardware_concurrency()] *)
Definition default_options (hw : Z) : context_options :=
  {| thread_count := to_u32 hw; stack_size := default_stack_size; fixed_buffer_size := 0;
     fixed_buffer_count := 0; registered_fd_capacity := 0 |}.

(** [context(thread_count, stack_size)] delegates with the other members at
    their defaults *)
Definition context_of (count stack : Z) : context_options :=
  {| thread_count := count; stack_size := stack; fixed_buffer_size := 0; fixed_buffer_count := 0;
     registered_fd_capacity := 0 |}.

(** what the system calls of a thread's start return *)
Record start_env {L : Liburing} := StartEnv {
  se_efd : Z;                      (** [eventfd] *)
  se_errno : Z;
  se_init1 : Z * uring;            (** [io_uring_queue_init_params] *)
  se_init2 : Z * uring;            (** [io_uring_queue_init] *)
  se_register_buffers : list (Z * Z) → Z → Z
}.

Section worker.
Context {L : Liburing} {P : Promise} {H : Type} {HC : CqeHandler H}.
Context {B : BufferedChannel Z} {F : FixedFd.Files}.

Record thread := Thread {
  scheduler : option (worker L H);             (** the scheduler; [tl_ring] and [tl_scheduler] point to it *)
  fbp : option FixedBuffer.state;              (** [std::optional<fixed_buffer_pool> fbp] *)
  fdt : option FixedFd.state;                  (** [std::optional<fixed_fd_table> fdt] *)
  tl_fixed_buffer_pool : bool;                 (** [tl_fixed_buffer_pool != nullptr] *)
  tl_fixed_fd_table : bool;
  buffers_registered : bool;                   (** with this thread's ring *)
  files_registered : bool
}.

(** a thread of the pool before [worker] *)
Definition new_thread : thread :=
  {| scheduler := None; fbp := None; fdt := None; tl_fixed_buffer_pool := false;
     tl_fixed_fd_table := false; buffers_registered := false; files_registered := false |}.

Definition set_scheduler (w : option (worker L H)) (t : thread) : thread :=
  {| scheduler := w; fbp := fbp t; fdt := fdt t; tl_fixed_buffer_pool := tl_fixed_buffer_pool t;
     tl_fixed_fd_table := tl_fixed_fd_table t; buffers_registered := buffers_registered t;
     files_registered := files_registered t |}.
Definition set_fbp (p : option FixedBuffer.state) (ptr reg : bool) (t : thread) : thread :=
  {| scheduler := scheduler t; fbp := p; fdt := fdt t; tl_fixed_buffer_pool := ptr;
     tl_fixed_fd_table := tl_fixed_fd_table t; buffers_registered := reg;
     files_registered := files_registered t |}.
Definition set_fdt (p : option FixedFd.state) (ptr reg : bool) (t : thread) : thread :=
  {| scheduler := scheduler t; fbp := fbp t; fdt := p; tl_fixed_buffer_pool := tl_fixed_buffer_pool t;
     tl_fixed_fd_table := ptr; buffers_registered := buffers_registered t; files_registered := reg |}.

(** *** The thread-local pointers *)

(** [detail::current_ring() != nullptr] *)
Definition current_ring (t : thread) : bool := if scheduler t is Some _ then true else false.

(** [detail::current_fixed_buffer_pool()]: dereferencing a pointer to a
    destroyed pool is undefined *)
Definition current_fixed_buffer_pool (t : thread) : outcome (option FixedBuffer.state) :=
  if tl_fixed_buffer_pool t then (if fbp t is Some s then Ret (Some s) else Undef) else Ret None.

Definition current_fd_table (t : thread) : outcome (option FixedFd.state) :=
  if tl_fixed_fd_table t then (if fdt t is Some s then Ret (Some s) else Undef) else Ret None.

(** *** The steps of [worker] *)

Context (opts : context_options) (env : start_env) (fds : efd_bufs)
        (pl : Scheduler.pool) (stops : gmap nat (stop_state (list Z))) (ps : nat).

(** [use_scheduling_algorithm<io_uring_scheduler>(this)] *)
Definition make_scheduler : cxx thread () := λ t,
  match scheduler_ctor fds (se_efd env) (se_errno env) (se_init1 env) (se_init2 env) pl stops ps with
  | Ret w => (Ret (), set_scheduler (Some w) t)
  | Exn e => (Exn e, t)
  | Undef => (Undef, t) | Abort => (Abort, t) | Hang => (Hang, t)
  end.

(** [fbp.emplace(...)], and its address published *)
Definition make_buffer_pool : cxx thread () := λ t,
  if (0 <? fixed_buffer_size opts) && (0 <? fixed_buffer_count opts) then
    match FixedBuffer.fixed_buffer_pool (current_ring t) (se_register_buffers env)
            (fixed_buffer_size opts) (fixed_buffer_count opts) with
    | Ret p => (Ret (), set_fbp (Some (FixedBuffer.State p ∅)) true true t)
    | Exn e => (Exn e, t)
    | Undef => (Undef, t) | Abort => (Abort, t) | Hang => (Hang, t)
    end
  else (Ret (), t).

(** [fdt.emplace(...)], and its address published *)
Definition make_fd_table : cxx thread () := λ t,
  if 0 <? registered_fd_capacity opts then
    match FixedFd.fixed_fd_table (current_ring t) (registered_fd_capacity opts) with
    | Ret p => (Ret (), set_fdt (Some (FixedFd.State p ∅)) true true t)
    | Exn e => (Exn e, t)
    | Undef => (Undef, t) | Abort => (Abort, t) | Hang => (Hang, t)
    end
  else (Ret (), t).

(** the two assignments of [nullptr] *)
Definition clear_pointers : cxx thread () :=
  modify (λ t, set_fdt (fdt t) false (files_registered t)
                 (set_fbp (fbp t) false (buffers_registered t) t)).

(** [~fixed_fd_table]: close the free list; then [io_uring_unregister_files] on
    the ring, which has to be alive *)
Definition close_fd_table : cxx thread () :=
  modify (λ t, set_fdt ((λ s, FixedFd.State (table_dtor (FixedFd.s_table s)) (FixedFd.s_vars s)) <$> fdt t)
                 (tl_fixed_fd_table t) (files_registered t) t).
Definition drop_fd_table : cxx thread () := λ t,
  match fdt t with
  | None => (Ret (), t)
  | Some _ => if current_ring t then (Ret (), set_fdt None (tl_fixed_fd_table t) false t) else (Undef, t)
  end.

(** [~fixed_buffer_pool], likewise *)
Definition close_buffer_pool : cxx thread () :=
  modify (λ t, set_fbp ((λ s, FixedBuffer.State (pool_dtor (FixedBuffer.s_pool s)) (FixedBuffer.s_vars s)) <$> fbp t)
                 (tl_fixed_buffer_pool t) (buffers_registered t) t).
Definition drop_buffer_pool : cxx thread () := λ t,
  match fbp t with
  | None => (Ret (), t)
  | Some _ => if current_ring t then (Ret (), set_fbp None (tl_fixed_buffer_pool t) false t) else (Undef, t)
  end.

(** [~io_uring_scheduler], when the thread ends: the thread-local pointers are
    cleared and the ring is torn down *)
Definition drop_scheduler : cxx thread () := modify (set_scheduler None).

(** [worker()] and the end of the thread; the optionals are destroyed in the
    reverse of the order they are declared in *)
Definition worker_steps (wait : cxx thread ()) : list (cxx thread ()) :=
  [make_scheduler; make_buffer_pool; make_fd_table; wait; clear_pointers;
   close_fd_table; drop_fd_table; close_buffer_pool; drop_buffer_pool; drop_scheduler].

Fixpoint run_steps (steps : list (cxx thread ())) : cxx thread () :=
  match steps with
  | [] => mret ()
  | m :: steps => _ ← m; run_steps steps
  end.

(** the thread's function: an exception that leaves it terminates *)
Definition worker_thread (wait : cxx thread ()) : cxx thread () := noexcept (run_steps (worker_steps wait)).
End worker.
Arguments thread L H {B F}.

(** ** Invariant of a thread's life *)

Section theory.
Context {L : Liburing} {P : Promise} {H : Type} {HC : CqeHandler H}.
Context {B : BufferedChannel Z} {F : FixedFd.Files}.
Implicit Types t : thread L H.

(** no thread-local pointer outlives what it points to, what exists is
    registered, and what is registered is registered with a live ring *)
Record sound t : Prop := {
  sound_pool : tl_fixed_buffer_pool t = true → is_Some (fbp t);
  sound_table : tl_fixed_fd_table t = true → is_Some (fdt t);
  sound_buffers : buffers_registered t = true ↔ is_Some (fbp t);
  sound_files : files_registered t = true ↔ is_Some (fdt t);
  sound_ring : is_Some (fbp t) ∨ is_Some (fdt t) → is_Some (scheduler t)
}.

(** what a step of the thread that is not part of [worker] may do: use the
    resources, and leave their existence alone *)
Definition keeps (wait : cxx (thread L H) ()) : Prop := ∀ t, ∃ t',
  wait t = (Ret (), t') ∧ tl_fixed_buffer_pool t' = tl_fixed_buffer_pool t
  ∧ tl_fixed_fd_table t' = tl_fixed_fd_table t
  ∧ buffers_registered t' = buffers_registered t ∧ files_registered t' = files_registered t
  ∧ (is_Some (fbp t') ↔ is_Some (fbp t)) ∧ (is_Some (fdt t') ↔ is_Some (fdt t))
  ∧ (is_Some (scheduler t') ↔ is_Some (scheduler t)).

Definition preserves (m : cxx (thread L H) ()) : Prop := ∀ t o t', sound t → m t = (o, t') → sound t'.

Lemma run_steps_sound ms t o t' :
  Forall preserves ms → sound t → run_steps ms t = (o, t') → sound t'.
Proof.
  intros Hms. revert t. induction Hms as [|m ms Hm _ IH]; intros t Ht; simpl; [by intros [= _ <-]|].
  unfold mbind, cxx_mbind, cxx_bind. destruct (m t) as [r t1] eqn:E. specialize (Hm t r t1 Ht E).
  destruct r; [by apply IH|intros [= _ <-]; done..].
Qed.

Lemma run_steps_app ms1 ms2 t :
  run_steps (ms1 ++ ms2) t =
  match run_steps ms1 t with (Ret _, t1) => run_steps ms2 t1 | r => r end.
Proof.
  revert t. induction ms1 as [|m ms1 IH]; intros t; simpl; [done|].
  unfold mbind, cxx_mbind, cxx_bind. destruct (m t) as [[] t2]; [apply IH|done..].
Qed.

Lemma keeps_preserves wait : keeps wait → preserves wait.
Proof.
  intros Hk t o t' [] E. destruct (Hk t) as (t2 & E2 & H1 & H2 & H3 & H4 & H5 & H6 & H7).
  rewrite E in E2. simplify_eq. split; rewrite ?H1, ?H2, ?H3, ?H4, ?H5, ?H6, ?H7; done.
Qed.

Lemma make_scheduler_preserves env fds pl stops ps : preserves (make_scheduler env fds pl stops ps).
Proof.
  intros t o t' [] E. unfold make_scheduler in E. case_match; simplify_eq; split; simpl; eauto.
Qed.

(** a resource is built only where there is a ring to register it with *)
Lemma buffer_pool_ring reg size count p :
  FixedBuffer.fixed_buffer_pool false reg size count ≠ Ret p.
Proof. unfold fixed_buffer_pool. by repeat case_match. Qed.
Lemma fd_table_ring count p : FixedFd.fixed_fd_table false count ≠ Ret p.
Proof. unfold fixed_fd_table. by repeat case_match. Qed.

Lemma make_buffer_pool_preserves opts env : preserves (make_buffer_pool opts env).
Proof.
  intros t o t' [] E. unfold make_buffer_pool in E.
  case_match; [|by simplify_eq]. destruct (fixed_buffer_pool _ _ _ _) eqn:Ep; simplify_eq; try done.
  unfold current_ring in Ep. destruct (scheduler t) eqn:Es; [|by apply buffer_pool_ring in Ep].
  split; simpl; rewrite ?Es; naive_solver.
Qed.

Lemma make_fd_table_preserves opts : preserves (make_fd_table opts).
Proof.
  intros t o t' [] E. unfold make_fd_table in E.
  case_match; [|by simplify_eq]. destruct (fixed_fd_table _ _) eqn:Ep; simplify_eq; try done.
  unfold current_ring in Ep. destruct (scheduler t) eqn:Es; [|by apply fd_table_ring in Ep].
  split; simpl; rewrite ?Es; naive_solver.
Qed.

Lemma clear_pointers_preserves : preserves clear_pointers.
Proof. intros t o t' [] [= _ <-]. by split. Qed.

(** the steps of [worker] before and after the pointers are cleared *)
Definition life opts env fds pl stops ps (wait : cxx (thread L H) ()) : list (cxx (thread L H) ()) :=
  [make_scheduler env fds pl stops ps; make_buffer_pool opts env; make_fd_table opts; wait; clear_pointers].
Definition teardown : list (cxx (thread L H) ()) :=
  [close_fd_table; drop_fd_table; close_buffer_pool; drop_buffer_pool; drop_scheduler].

Lemma teardown_spec t j :
  sound t → tl_fixed_buffer_pool t = false → tl_fixed_fd_table t = false →
  ∃ t', run_steps (take j teardown) t = (Ret (), t') ∧ sound t' ∧ ((5 ≤ j)%nat → t' = new_thread).
Proof.
  destruct t as [sc p d ptr1 ptr2 reg1 reg2]. intros [_ _ Hb Hf Hr] ?? ; simpl in *; subst.
  assert (reg1 = if p is Some _ then true else false) as -> by (destruct reg1, p; naive_solver).
  assert (reg2 = if d is Some _ then true else false) as -> by (destruct reg2, d; naive_solver).
  assert (sc ≠ None ∨ (p = None ∧ d = None)) as Hsc by (destruct sc, p, d; naive_solver).
  destruct sc as [w|]; [|destruct Hsc as [?|[-> ->]]; [done|]]; try destruct p, d;
    do 5 (destruct j as [|j]; [eexists; split; [reflexivity|]; split; [|lia]; by split; naive_solver|]);
    (rewrite take_ge by (simpl; lia); eexists; split; [reflexivity|]; split; [by split; naive_solver|done]).
Qed.

Lemma life_sound opts env fds pl stops ps wait k o t :
  keeps wait → run_steps (take k (life opts env fds pl stops ps wait)) new_thread = (o, t) → sound t.
Proof.
  intros Hk. apply run_steps_sound.
  - apply Forall_take. repeat apply Forall_cons_2; [apply make_scheduler_preserves
      |apply make_buffer_pool_preserves|apply make_fd_table_preserves|by apply keeps_preserves
      |apply clear_pointers_preserves|apply Forall_nil_2].
  - split; simpl; naive_solver.
Qed.
End theory.

(** ** Properties *)

Section properties.
Context {L : Liburing} {P : Promise} {H : Type} {HC : CqeHandler H}.
Context {B : BufferedChannel Z} {F : FixedFd.Files}.
Context (opts : context_options) (env : start_env) (fds : efd_bufs)
        (pl : Scheduler.pool) (stops : gmap nat (stop_state (list Z))) (ps : nat).
Implicit Types t : thread L H.
Implicit Types wait : cxx (thread L H) ().
Abbreviation steps wait := (worker_steps opts env fds pl stops ps wait).

Lemma worker_steps_split wait : steps wait = life opts env fds pl stops ps wait ++ teardown.
Proof. reflexivity. Qed.

Lemma setup_life wait t1 :
  keeps wait → run_steps (take 3 (steps wait)) new_thread = (Ret (), t1) →
  ∃ t2, run_steps (life opts env fds pl stops ps wait) new_thread = (Ret (), t2)
    ∧ sound t2 ∧ tl_fixed_buffer_pool t2 = false ∧ tl_fixed_fd_table t2 = false.
Proof.
  intros Hk E. destruct (Hk t1) as (t2 & E2 & _).
  exists (clear_pointers t2).2.
  assert (run_steps (life opts env fds pl stops ps wait) new_thread = (Ret (), (clear_pointers t2).2)) as El.
  { change (life opts env fds pl stops ps wait) with (take 3 (steps wait) ++ [wait; clear_pointers]).
    rewrite run_steps_app, E. simpl. by erewrite cxx_bind_ret by exact E2. }
  split; [done|]. split; [|done].
  eapply (life_sound opts env fds pl stops ps wait 5); [done|exact El].
Qed.

(** what the set-up leaves *)
Lemma setup_view wait t1 :
  run_steps (take 3 (steps wait)) new_thread = (Ret (), t1) →
  (fbp t1 = None ∧ tl_fixed_buffer_pool t1 = false
   ∧ ¬ (0 < fixed_buffer_size opts ∧ 0 < fixed_buffer_count opts)
   ∨ is_Some (fbp t1) ∧ tl_fixed_buffer_pool t1 = true
   ∧ 0 < fixed_buffer_size opts ∧ 0 < fixed_buffer_count opts) ∧
  (fdt t1 = None ∧ tl_fixed_fd_table t1 = false ∧ ¬ 0 < registered_fd_capacity opts
   ∨ is_Some (fdt t1) ∧ tl_fixed_fd_table t1 = true ∧ 0 < registered_fd_capacity opts).
Proof.
  simpl. unfold mbind, cxx_mbind, cxx_bind, make_scheduler, make_buffer_pool, make_fd_table. simpl.
  destruct (scheduler_ctor _ _ _ _ _ _ _ _); simpl; try done.
  destruct (Z.ltb_spec 0 (fixed_buffer_size opts)), (Z.ltb_spec 0 (fixed_buffer_count opts)); simpl;
    try destruct (fixed_buffer_pool _ _ _ _); simpl; try done;
    destruct (Z.ltb_spec 0 (registered_fd_capacity opts)); simpl;
    try destruct (fixed_fd_table _ _); simpl; try done; intros [= <-]; simpl;
    (split; [first [left; split; [done|]; split; [done|lia]|right; split; [by eexists|done]]
            |first [left; split; [done|]; split; [done|lia]|right; split; [by eexists|done]]]).
Qed.

Lemma life_cleared wait t2 :
  keeps wait → run_steps (life opts env fds pl stops ps wait) new_thread = (Ret (), t2) →
  tl_fixed_buffer_pool t2 = false ∧ tl_fixed_fd_table t2 = false.
Proof.
  intros _. change (life opts env fds pl stops ps wait) with (take 4 (steps wait) ++ [clear_pointers]).
  rewrite run_steps_app. destruct (run_steps (take 4 (steps wait)) new_thread) as [[] ?]; [|done..].
  by intros [= <-].
Qed.

(** C26: a worker thread's resources live as long as the pointers to them.  At
    every point of [worker], whatever failed before, a thread-local pointer
    that is set points to a live pool or table, and a pool or table that exists
    is registered with a ring that exists.  Fibers find a pool, or a table,
    exactly when the options ask for one; and a thread whose set-up succeeded
    ends with everything unregistered, cleared and destroyed. *)
Theorem worker_life wait :
  keeps wait →
  (∀ k o t, run_steps (take k (steps wait)) new_thread = (o, t) → sound t) ∧
  (∀ t1, run_steps (take 3 (steps wait)) new_thread = (Ret (), t1) →
    ((∃ s, current_fixed_buffer_pool t1 = Ret (Some s))
       ↔ 0 < fixed_buffer_size opts ∧ 0 < fixed_buffer_count opts) ∧
    ((∃ s, current_fd_table t1 = Ret (Some s)) ↔ 0 < registered_fd_capacity opts) ∧
    worker_thread opts env fds pl stops ps wait new_thread = (Ret (), new_thread)).
Proof.
  intros Hk. split.
  - intros k o t. rewrite worker_steps_split, take_app. destruct (decide (k ≤ 5)%nat) as [Hle|Hgt].
    { replace (k - _)%nat with 0%nat by (simpl; lia). rewrite take_0, app_nil_r. by apply life_sound. }
    rewrite (take_ge (life _ _ _ _ _ _ _)) by (simpl; lia).
    rewrite run_steps_app.
    destruct (run_steps (life opts env fds pl stops ps wait) new_thread) as [r t2] eqn:El.
    pose proof (life_sound opts env fds pl stops ps wait 5 r t2 Hk El) as Hs.
    destruct r as [[]| | | |]; [|by intros [= _ <-]..].
    destruct (life_cleared wait t2 Hk El) as [Hc1 Hc2].
    destruct (teardown_spec t2 (k - length (life opts env fds pl stops ps wait)) Hs Hc1 Hc2)
      as (t3 & -> & Hs3 & _). by intros [= _ <-].
  - intros t1 E. split; [|split].
    + destruct (setup_view wait t1 E) as [Hv _]. unfold current_fixed_buffer_pool.
      destruct Hv as [(-> & -> & ?)|([s ->] & -> & ?)]; naive_solver.
    + destruct (setup_view wait t1 E) as [_ Hv]. unfold current_fd_table.
      destruct Hv as [(-> & -> & ?)|([s ->] & -> & ?)]; naive_solver.
    + destruct (setup_life wait t1 Hk E) as (t2 & El & Hs & Hc1 & Hc2).
      destruct (teardown_spec t2 5 Hs Hc1 Hc2) as (t3 & E3 & _ & Hend).
      unfold worker_thread, noexcept. rewrite worker_steps_split, run_steps_app, El.
      rewrite take_ge in E3 by (simpl; lia). by rewrite E3, Hend.
Qed.

(** A resource that cannot be had ends the process.  [worker] is a thread's
    function and nothing on it catches: when the kernel refuses to register the
    buffers that the options of a [context] ask for, the constructor's
    [std::system_error] is not reported to whoever made the context, but
    [std::terminate] is called. *)
Theorem worker_setup_terminates (HB : BufferedChannelLaws Z B) wait w e :
  scheduler_ctor fds (se_efd env) (se_errno env) (se_init1 env) (se_init2 env) pl stops ps = Ret w →
  0 < fixed_buffer_size opts → fixed_buffer_size opts * 2 ^ 15 < 2 ^ 64 →
  0 < fixed_buffer_count opts ≤ 2 ^ 15 →
  (∀ iovs n, se_register_buffers env iovs n = e) → e < 0 →
  worker_thread opts env fds pl stops ps wait new_thread = (Abort, set_scheduler (Some w) new_thread).
Proof.
  intros Hw Hs1 Hs2 Hc Hreg He. unfold worker_thread, noexcept. simpl.
  erewrite (cxx_bind_ret _ _ _ () (set_scheduler (Some w) new_thread)); last first.
  { unfold make_scheduler. by rewrite Hw. }
  erewrite (cxx_bind_exn _ _ _ (SystemError (- e)) (set_scheduler (Some w) new_thread)); [done|].
  unfold make_buffer_pool. rewrite (proj2 (Z.ltb_lt _ _) Hs1), (proj2 (Z.ltb_lt 0 _)) by lia. simpl.
  rewrite (pool_ctor_refused (se_register_buffers env) _ _ e); [done|lia|done..].
Qed.
End properties.

(** ** Witnesses *)

Section witnesses.
Import ListUring CellPromise OnlyAwaitable MapFiles.

Definition options : context_options := ContextOptions 2 default_stack_size 64 4 3.
Definition granting (r : Z) : start_env (L := list_uring) :=
  @StartEnv list_uring 5 0 (- EINVAL, fresh 0) (0, fresh 256) (λ _ _, r).

#[local] Existing Instance ListChannel.list_channel.
Abbreviation wth := (thread list_uring (option Z) (B := ListChannel.list_channel) (F := map_files ∅)).

(** what the fibers do: one borrows a buffer and keeps it *)
Definition borrowing : cxx wth () :=
  modify (λ t, set_fbp ((λ s, (FixedBuffer.borrow s).2) <$> fbp t) (tl_fixed_buffer_pool t)
                 (buffers_registered t) t).

Lemma borrowing_keeps : keeps borrowing.
Proof.
  intros t. eexists. split; [done|]. simpl. split_and!; try done. apply fmap_is_Some.
Qed.

Definition set_up : wth := Eval vm_compute in
  (run_steps (take 3 (worker_steps options (granting 0) bufs (Scheduler.Pool true [] 0 0) ∅ 0 borrowing)) new_thread).2.
Lemma worker_life_witness :
  (∃ s, current_fixed_buffer_pool set_up = Ret (Some s)) ∧
  worker_thread options (granting 0) bufs (Scheduler.Pool true [] 0 0) ∅ 0 borrowing new_thread = (Ret (), new_thread).
Proof.
  destruct (worker_life options (granting 0) bufs (Scheduler.Pool true [] 0 0) ∅ 0 borrowing borrowing_keeps)
    as [_ Hl]. destruct (Hl set_up) as (Hp & _ & Hw); [vm_compute; reflexivity|].
  split; [apply Hp; simpl; lia|exact Hw].
Defined.

Lemma worker_setup_terminates_witness :
  ∃ w, worker_thread options (granting (-12)) bufs (Scheduler.Pool true [] 0 0) ∅ 0 borrowing new_thread
         = (Abort, set_scheduler (Some w) new_thread).
Proof.
  eexists.
  apply (worker_setup_terminates options (granting (-12)) bufs (Scheduler.Pool true [] 0 0) ∅ 0
           ListChannel.list_channel_laws borrowing _ (-12));
    [vm_compute; reflexivity|simpl; lia|simpl; lia|simpl; lia|done|lia].
Defined.
End witnesses.
