(* ===== verification/MultishotAcceptor.v ===== *)
(** * MultishotAcceptor: [multishot_acceptor] (src/multishot_acceptor.cpp)

    An accept entry that stays armed, a queue of accepted descriptors, and at
    most one fiber waiting for the next.  The object lives at an address of
    [w_handlers], which is also the tag of its entry.

    [next] suspends between installing its waiter and reading its future;
    [next_begin] and [next_end] are the two halves, and [next] composes them
    around what happens meanwhile.  [future_] is the shared state that the
    waiter and the suspended fiber's future point to: it outlives
    [waiter_.reset()]. *)

From S2P Require Import Prelude Cxx Uring Boost Scheduler Submit AsyncIo.

Local Open Scope Z_scope.

Record acceptor {P : Promise} := Acceptor {
  server_fd_ : Z;
  addr_ : Z;
  addrlen_ : Z;
  pending_fds_ : list Z;
  waiter_ : option (promise Z);
  error_ : Z;
  future_ : option (promise Z)
}.
Arguments Acceptor {P} server_fd_ addr_ addrlen_ pending_fds_ waiter_ error_ future_.

(** where a call of [next] is after its first half *)
Inductive progress := Done (r : outcome (option Z)) | Wait.

Section handler.
Context {L : Liburing} {P : Promise}.
Implicit Types x : acceptor.

Definition set_pending (q : list Z) x : acceptor :=
  Acceptor (server_fd_ x) (addr_ x) (addrlen_ x) q (waiter_ x) (error_ x) (future_ x).
Definition set_error (e : Z) x : acceptor :=
  Acceptor (server_fd_ x) (addr_ x) (addrlen_ x) (pending_fds_ x) (waiter_ x) e (future_ x).
Definition set_wait (wt fut : option (promise Z)) x : acceptor :=
  Acceptor (server_fd_ x) (addr_ x) (addrlen_ x) (pending_fds_ x) wt (error_ x) fut.

Definition accept_sqe (this : Z) x : sqe :=
  set_data this (prepped (PrepMultishotAccept (server_fd_ x) (addr_ x) (addrlen_ x) 0)).

(** [waiter_->set_value(res); waiter_.reset();] *)
Definition wake_waiter (p : promise Z) (res : Z) : cxx (acceptor * uring) () := λ '(x, r),
  match promise_set_value res p with
  | inr p' => (Ret (), (set_wait None (Some p') x, r))
  | inl _ => (Abort, (x, r))
  end.

(** the entry armed again, if the ring has room *)
Definition rearm (this : Z) x (r : uring) : uring :=
  match claim (accept_sqe this x) r with
  | None => r
  | Some r' => (io_uring_submit r').2
  end.

(** [complete] *)
Definition acceptor_complete (this res flags : Z) : cxx (acceptor * uring) () :=
  x ← gets fst;
  _ ← (if res <? 0 then
         _ ← modify (λ '(x, r), (set_error res x, r));
         match waiter_ x with Some p => wake_waiter p res | None => mret () end
       else
         match waiter_ x with
         | Some p => wake_waiter p res
         | None => modify (λ '(x, r), (set_pending (pending_fds_ x ++ [res]) x, r))
         end);
  if negb (has_flag flags IORING_CQE_F_MORE) && (0 <=? res) then
    modify (λ '(x, r), (x, rearm this x r))
  else mret ().

(** [next], up to [future.get()]; [stop] is whether the fiber's stop token has
    been triggered *)
Definition next_begin (stop : bool) x : progress * acceptor :=
  match pending_fds_ x with
  | fd :: q => (Done (Ret (Some fd)), set_pending q x)
  | [] =>
      if negb (error_ x =? 0) then
        if (error_ x =? - ECANCELED) || (error_ x =? - EINVAL) then (Done (Ret None), x)
        else (Done (Exn (SystemError (- error_ x))), x)
      else if stop then (Done (Ret None), set_error (- ECANCELED) x)
      else (Wait, set_wait (Some promise_new) None x)
  end.

(** [next], from the value of [future.get()] *)
Definition next_end (res : Z) : outcome (option Z) :=
  if (res =? - ECANCELED) || (res =? - EINVAL) then Ret None
  else if res <? 0 then Exn (SystemError (- res))
  else Ret (Some res).

(** ** On a worker *)

Context {H : Type} {HC : CqeHandler H} {D : DerivedHandler H acceptor}.

Definition self (this : Z) (w : worker L H) : option acceptor :=
  h ← w_handlers w !! this; downcast h.
Definition put_self (this : Z) x (w : worker L H) : worker L H :=
  upd_handlers <[this := upcast x]> w.

Definition next (this : Z) (acts : list (cxx (worker L H) ())) : cxx (worker L H) (option Z) := λ w,
  match self this w with
  | None => (Undef, w)
  | Some x =>
      match next_begin (stop_requested (w_fiber_stop w) w) x with
      | (Done r, x') => (r, put_self this x' w)
      | (Wait, x') =>
          match run_actions acts (put_self this x' w) with
          | (Ret _, w') =>
              match (x ← self this w'; p ← future_ x; promise_value p) with
              | Some res => (next_end res, w')
              | None => (Hang, w')
              end
          | (Exn e, w') => (Exn e, w')
          | (Undef, w') => (Undef, w') | (Abort, w') => (Abort, w') | (Hang, w') => (Hang, w')
          end
      end
  end.

(** the constructor; the object is at [this] *)
Definition multishot_acceptor (this server_fd addr addrlen : Z) : cxx (option (worker L H)) () := λ t,
  match t with
  | None => (Exn RuntimeError, None)
  | Some w =>
      let x := Acceptor server_fd addr addrlen [] None 0 None in
      match claim (accept_sqe this x) (w_ring w) with
      | None => (Exn RuntimeError, t)
      | Some r =>
          let '(ret, r') := io_uring_submit r in
          if ret <? 0 then (Exn (SystemError (- ret)), Some (upd_ring (λ _, r') w))
          else (Ret (), Some (put_self this x (upd_ring (λ _, r') w)))
      end
  end.

(** what happens during the suspensions of the destructor: those of its
    [next] calls and of its [async_close] calls, with the awaitables of the
    latter *)
Record dtor_env := DtorEnv {
  de_next : nat → list (cxx (worker L H) ());
  de_close : nat → Z * list (cxx (worker L H) ())
}.

Definition close_nth (e : dtor_env) (n : nat) (fd : Z) : cxx (option (worker L H)) () :=
  async_close fd (de_close e n).1 (de_close e n).2.

(** [while (!pending_fds_.empty()) { async_close(front); pop(); }] *)
Fixpoint close_pending (this : Z) (e : dtor_env) (fuel n : nat) : cxx (option (worker L H)) () :=
  match fuel with
  | O => λ t, (Hang, t)
  | S fuel =>
      mx ← gets (λ t, w ← t; self this w);
      match mx with
      | None => undef
      | Some x =>
          match pending_fds_ x with
          | [] => mret ()
          | fd :: _ =>
              _ ← close_nth e n fd;
              _ ← modify (fmap (λ w, match self this w with
                     | Some x => put_self this (set_pending (tail (pending_fds_ x)) x) w
                     | None => w end));
              close_pending this e fuel (S n)
          end
      end
  end.

(** [while (auto fd = next()) { async_close( *fd); }] *)
Fixpoint drain_next (this : Z) (e : dtor_env) (fuel n : nat) : cxx (option (worker L H)) () :=
  match fuel with
  | O => λ t, (Hang, t)
  | S fuel =>
      r ← on_worker (next this (de_next e n));
      match r with
      | None => mret ()
      | Some fd => _ ← close_nth e n fd; drain_next this e fuel (S n)
      end
  end.

(** the destructor; [shutdown] is the system call's effect on the worker *)
Definition acceptor_dtor (this : Z) (shutdown : cxx (worker L H) ()) (e : dtor_env) (fuel : nat) :
    cxx (option (worker L H)) () :=
  _ ← catch (
    mx ← gets (λ t, w ← t; self this w);
    match mx with
    | None => undef
    | Some x =>
        if negb (error_ x =? 0) then close_pending this e fuel 0
        else _ ← on_worker shutdown; drain_next this e fuel 0
    end) (λ _, mret ());
  on_worker (modify (upd_handlers (delete this))).
End handler.

(** ** One accepting fiber and its completions, interleaved *)

(** a completion is handled; the fiber calls [next]; the suspended fiber is
    resumed *)
Inductive event := Arrive (res flags : Z) | Call (stop : bool) | Resume.

Section machine.
Context {L : Liburing} {P : Promise}.

Record run := Run {
  r_obj : acceptor;
  r_ring : uring;
  r_suspended : bool;
  r_arrived : list Z;                     (** descriptors the kernel delivered *)
  r_returned : list (outcome (option Z))  (** results of [next], oldest first *)
}.

Definition exec_event (this : Z) (e : event) (s : run) : option run :=
  match e with
  | Arrive res flags =>
      match acceptor_complete this res flags (r_obj s, r_ring s) with
      | (Ret _, (x, r)) => Some (Run x r (r_suspended s)
          (if res <? 0 then r_arrived s else r_arrived s ++ [res]) (r_returned s))
      | _ => None
      end
  | Call stop =>
      if r_suspended s then None
      else
        match next_begin stop (r_obj s) with
        | (Done r, x) => Some (Run x (r_ring s) false (r_arrived s) (r_returned s ++ [r]))
        | (Wait, x) => Some (Run x (r_ring s) true (r_arrived s) (r_returned s))
        end
  | Resume =>
      if r_suspended s then
        res ← (p ← future_ (r_obj s); promise_value p);
        Some (Run (r_obj s) (r_ring s) false (r_arrived s) (r_returned s ++ [next_end res]))
      else None
  end.

Fixpoint exec_events (this : Z) (es : list event) (s : run) : option run :=
  match es with
  | [] => Some s
  | e :: es => s' ← exec_event this e s; exec_events this es s'
  end.

(** a new object, its entry armed on ring [r] *)
Definition new_run (server_fd addr addrlen : Z) (r : uring) : run :=
  Run (Acceptor server_fd addr addrlen [] None 0 None) r false [] [].

(** descriptors among results *)
Definition fds_of (rs : list (outcome (option Z))) : list Z :=
  omap (λ r, match r with Ret o => o | _ => None end) rs.

(** the value on its way to the suspended fiber *)
Definition in_transit (s : run) : list (outcome (option Z)) :=
  if r_suspended s then
    match (p ← future_ (r_obj s); promise_value p) with Some v => [next_end v] | None => [] end
  else [].
End machine.

Section theory.
Context {L : Liburing} {P : Promise} {HP : PromiseLaws P}.
Implicit Types s : run.

(** a waiter belongs to a suspended fiber, has no value yet, and means that
    nothing is queued *)
Record wf (s : run) : Prop := {
  wf_waiter p : waiter_ (r_obj s) = Some p →
    r_suspended s = true ∧ pending_fds_ (r_obj s) = [] ∧ future_ (r_obj s) = None ∧ promise_value p = None;
  wf_suspended : r_suspended s = true → waiter_ (r_obj s) = None →
    ∃ p v, future_ (r_obj s) = Some p ∧ promise_value p = Some v;
  wf_log : r_arrived s = fds_of (r_returned s ++ in_transit s) ++ pending_fds_ (r_obj s)
}.

Lemma next_end_nonneg v : 0 ≤ v → next_end v = Ret (Some v).
Proof.
  intros Hv. unfold next_end.
  rewrite (proj2 (Z.eqb_neq v (- ECANCELED))) by (unfold ECANCELED; lia).
  rewrite (proj2 (Z.eqb_neq v (- EINVAL))) by (unfold EINVAL; lia).
  by destruct (Z.ltb_spec v 0); [lia|].
Qed.
Lemma next_end_neg v : v < 0 → fds_of [next_end v] = [].
Proof.
  intros Hv. unfold next_end. destruct (_ || _); [done|]. by destruct (Z.ltb_spec v 0); [|lia].
Qed.

Lemma fds_of_app rs rs' : fds_of (rs ++ rs') = fds_of rs ++ fds_of rs'.
Proof. apply omap_app. Qed.

(** the effect of a completion on the object *)
Lemma acceptor_complete_obj this res flags x r :
  (∀ p, waiter_ x = Some p → promise_value p = None) →
  ∃ x' r', acceptor_complete this res flags (x, r) = (Ret (), (x', r'))
    ∧ error_ x' = (if res <? 0 then res else error_ x)
    ∧ waiter_ x' = None
    ∧ match waiter_ x with
      | Some p => pending_fds_ x' = pending_fds_ x
          ∧ ∃ p', future_ x' = Some p' ∧ promise_value p' = Some res
      | None => future_ x' = future_ x
          ∧ pending_fds_ x' = (if res <? 0 then pending_fds_ x else pending_fds_ x ++ [res])
      end
    ∧ r' = (if negb (has_flag flags IORING_CQE_F_MORE) && (0 <=? res) then rearm this x r else r).
Proof.
  intros Hp.
  assert (∀ x0 p, promise_value p = None → ∃ p', wake_waiter p res (x0, r) =
    (Ret (), (set_wait None (Some p') x0, r)) ∧ promise_value p' = Some res) as Hwake.
  { intros x0 p Hnone. destruct (promise_set_fresh _ res p Hnone) as (p' & E & Hv).
    exists p'. unfold wake_waiter. by rewrite E. }
  set (cond := negb (has_flag flags IORING_CQE_F_MORE) && (0 <=? res)).
  assert (∀ x0 : acceptor, (if cond then modify (λ '(x, r), (x, rearm this x r)) else mret ()) (x0, r)
    = (Ret (), (x0, if cond then rearm this x0 r else r))) as Hre by (by intros; destruct cond).
  unfold acceptor_complete. fold cond. destruct (Z.ltb_spec res 0) as [Hneg|Hpos];
    destruct (waiter_ x) as [p|] eqn:Hw.
  - destruct (Hwake (set_error res x) p (Hp p eq_refl)) as (p' & E & Hv).
    eexists _, _. split.
    { bind_ret. simpl. rewrite Hw. erewrite cxx_bind_ret; [apply Hre|].
      bind_ret. exact E. }
    simpl. eauto 10.
  - eexists _, _. split.
    { bind_ret. simpl. rewrite Hw. erewrite cxx_bind_ret; [apply Hre|].
      by bind_ret. }
    simpl. auto.
  - destruct (Hwake x p (Hp p eq_refl)) as (p' & E & Hv).
    eexists _, _. split.
    { bind_ret. simpl. rewrite Hw. erewrite cxx_bind_ret; [apply Hre|]. exact E. }
    simpl. eauto 10.
  - eexists _, _. split.
    { bind_ret. simpl. rewrite Hw. erewrite cxx_bind_ret; [apply Hre|]. done. }
    simpl. auto.
Qed.

Lemma arrive_wf this res flags s :
  wf s → ∃ s', exec_event this (Arrive res flags) s = Some s' ∧ wf s'.
Proof.
  intros [Hw Hs Hl]. destruct s as [x r susp arr ret]. simpl in *.
  destruct (acceptor_complete_obj this res flags x r) as (x' & r' & E & He & Hw' & Hq & _).
  { intros p Hp. by apply (Hw p Hp). }
  rewrite E. eexists. split; [done|]. unfold in_transit in *. simpl in *.
  destruct (waiter_ x) as [p|].
  - destruct (Hw p eq_refl) as (-> & Hpend & Hf & Hv). destruct Hq as [Hq (p' & Hf' & Hv')].
    rewrite Hf, Hpend in Hl. simpl in Hl. rewrite !app_nil_r in Hl.
    split; simpl; unfold in_transit; simpl; rewrite ?Hw', ?Hf'; try done.
    + intros _ _. eauto.
    + simpl. rewrite Hv', Hq, Hpend, app_nil_r, fds_of_app, Hl.
      destruct (Z.ltb_spec res 0); [by rewrite next_end_neg, app_nil_r by done|].
      by rewrite next_end_nonneg.
  - destruct Hq as [Hf Hq].
    split; simpl; unfold in_transit; simpl; rewrite ?Hw', ?Hf; try done.
    rewrite Hq, Hl. destruct (res <? 0); [done|]. by rewrite <-app_assoc.
Qed.

Lemma call_wf this stop s s' : wf s → exec_event this (Call stop) s = Some s' → wf s'.
Proof.
  intros [Hw Hs Hl]. destruct s as [x r susp arr ret]. simpl in *. unfold in_transit in *. simpl in *.
  destruct susp; [done|]. rewrite app_nil_r in Hl.
  assert (waiter_ x = None) as Hnw.
  { destruct (waiter_ x) as [p|]; [|done]. by destruct (Hw p eq_refl). }
  unfold next_begin. destruct (pending_fds_ x) as [|fd q] eqn:Hq.
  - destruct (negb (error_ x =? 0)); [|destruct stop].
    + destruct (_ || _); intros [= <-]; split; simpl; unfold in_transit; simpl; rewrite ?Hnw; try done;
        rewrite Hq, Hl, !app_nil_r, fds_of_app; simpl; by rewrite app_nil_r.
    + intros [= <-]; split; simpl; unfold in_transit; simpl; rewrite ?Hnw; try done.
      rewrite Hq, Hl, !app_nil_r, fds_of_app; simpl; by rewrite app_nil_r.
    + intros [= <-]. split; simpl; unfold in_transit; simpl; try done.
      * intros p [= <-]. split; [done|]. split; [done|]. split; [done|]. apply promise_value_new.
      * by rewrite Hq, Hl, !app_nil_r.
  - intros [= <-]. split; simpl; unfold in_transit; simpl; rewrite ?Hnw; try done.
    by rewrite Hl, app_nil_r, fds_of_app, <-app_assoc.
Qed.

Lemma resume_wf this s s' : wf s → exec_event this Resume s = Some s' → wf s'.
Proof.
  intros [Hw Hs Hl]. destruct s as [x r susp arr ret]. simpl in *. unfold in_transit in *. simpl in *.
  destruct susp; [|done]. destruct (future_ x) as [p|] eqn:Hf; [|done]. simpl in *.
  destruct (promise_value p) as [v|] eqn:Hv; [|done]. simpl. intros [= <-].
  assert (waiter_ x = None) as Hnw.
  { destruct (waiter_ x) as [q|]; [|done]. by destruct (Hw q eq_refl) as (_ & _ & ? & _). }
  split; simpl; unfold in_transit; simpl; rewrite ?Hnw; try done. by rewrite app_nil_r.
Qed.

Lemma exec_events_wf this es s s' : wf s → exec_events this es s = Some s' → wf s'.
Proof.
  revert s. induction es as [|e es IH]; intros s Hwf; simpl; [by intros [= <-]|].
  intros (s1 & E & Hs')%bind_Some. apply (IH s1); [|done].
  destruct e as [res flags|stop|]; [|by eapply call_wf|by eapply resume_wf].
  destruct (arrive_wf this res flags s Hwf) as (s2 & E2 & Hwf2). congruence.
Qed.

Lemma new_run_wf fd a l r : wf (new_run fd a l r).
Proof. by split. Qed.
End theory.

(** ** Properties *)

Section properties.
Context {L : Liburing} {P : Promise}.

(** C29: every accepted connection is handed out once, in order.  Over any
    interleaving of completions, calls of [next] and resumptions of the fiber
    suspended in it, with a stop requested at any time: the descriptors the
    kernel delivered are those [next] returned, followed by the one on its way
    to a suspended fiber, followed by those still queued; and no completion
    ever finds a promise that already has a value. *)
Theorem acceptor_delivers (HP : PromiseLaws P) this fd addr addrlen (r : uring) es s :
  exec_events this es (new_run fd addr addrlen r) = Some s →
  r_arrived s = fds_of (r_returned s ++ in_transit s) ++ pending_fds_ (r_obj s) ∧
  ∀ res flags, is_Some (exec_event this (Arrive res flags) s).
Proof.
  intros Hs. pose proof (exec_events_wf this es _ s (new_run_wf fd addr addrlen r) Hs) as Hwf.
  split; [apply Hwf|]. intros res flags.
  destruct (arrive_wf this res flags s Hwf) as (s' & E & _). by rewrite E.
Qed.

(** The entry stays armed.  A completion that accepted a connection and
    says the kernel is done with the entry passes a new one, for the same
    socket and the same object, to the kernel; one that says more will come, or
    that reports an error, leaves the ring alone.  An error is remembered. *)
Theorem acceptor_rearms (HL : LiburingLaws L) (HP : PromiseLaws P) (Hall : ∀ r : uring, submits_all r)
    this res flags x (r : uring) :
  (∀ p, waiter_ x = Some p → promise_value p = None) →
  (length (sq_pending r) < sq_entries r)%nat →
  ∃ x' r', acceptor_complete this res flags (x, r) = (Ret (), (x', r'))
    ∧ error_ x' = (if res <? 0 then res else error_ x)
    ∧ if (0 <=? res) && negb (has_flag flags IORING_CQE_F_MORE)
      then sq_submitted r' = sq_submitted r ++ sq_pending r ++ [accept_sqe this x] ∧ sq_pending r' = []
      else r' = r.
Proof.
  intros Hp Hroom. destruct (acceptor_complete_obj this res flags x r Hp) as (x' & r' & E & He & _ & _ & Hr).
  exists x', r'. split; [done|]. split; [done|]. rewrite Hr, andb_comm. destruct (_ && _); [|done].
  unfold rearm. destruct (claim_room (accept_sqe this x) r Hroom) as [r1 Ec]. rewrite Ec.
  destruct (claim_some _ _ _ Ec) as (Hpd & Hsub & _).
  destruct (submit_all r1 (Hall r1)) as (-> & -> & _). by rewrite Hpd, Hsub.
Qed.

(** A stopped acceptor is destroyed while the kernel still has it.  When
    [next] finds that a stop was requested it records -ECANCELED although the
    entry is still armed.  The destructor takes that for a terminated entry: it
    neither shuts the socket down nor waits, whatever its environment would do,
    and the completion of the next connection is then dispatched through the
    address of an object that is gone. *)
Theorem acceptor_stop_dangling {H : Type} {HC : CqeHandler H} {D : DerivedHandler H acceptor}
    (DL : DerivedHandlerLaws H acceptor D acceptor_complete) fds this x (w : worker L H) acts shutdown e fuel :
  k_cancel_tag < this → w_handlers w !! this = Some (upcast x) →
  pending_fds_ x = [] → error_ x = 0 → stop_requested (w_fiber_stop w) w = true →
  ∃ w1 w2, next this acts w = (Ret None, w1)
    ∧ acceptor_dtor this shutdown e (S fuel) (Some w1) = (Ret (), Some w2)
    ∧ w_ring w2 = w_ring w
    ∧ ∀ res flags, handle_cqe fds (Cqe this res flags) w2 = (Undef, w2).
Proof.
  intros Ht Hh Hq He Hs.
  assert (self this w = Some x) as Hself by (unfold self; rewrite Hh; simpl; apply downcast_upcast).
  set (x1 := set_error (- ECANCELED) x). set (w1 := put_self this x1 w).
  assert (self this w1 = Some x1) as Hself1.
  { unfold self, w1. simpl. rewrite lookup_insert_eq. simpl. apply downcast_upcast. }
  exists w1, (upd_handlers (delete this) w1). split_and!.
  - unfold next. rewrite Hself. unfold next_begin. by rewrite Hq, He, Hs.
  - unfold acceptor_dtor. erewrite (cxx_bind_ret _ _ _ () (Some w1)); [done|]. unfold catch.
    bind_ret. simpl. rewrite Hself1.
    unfold mbind, cxx_mbind, cxx_bind. simpl. rewrite Hself1. simpl. by rewrite Hq.
  - done.
  - intros res flags. rewrite handle_dispatch by done. unfold dispatch_handler. simpl.
    by rewrite lookup_delete_eq.
Qed.

(** A fiber suspended in [multishot_acceptor::next] does not notice a stop.
    [next] looks at the stop token only before it suspends and registers no
    callback: a stop requested while the fiber waits (its own or the pool's)
    queues no cancellation and submits nothing, and the fiber stays suspended
    until the kernel delivers a connection or an error. *)
Theorem acceptor_ignores_stop {H : Type} {HC : CqeHandler H} {D : DerivedHandler H acceptor}
    (DL : DerivedHandlerLaws H acceptor D acceptor_complete) this x (w : worker L H) id s :
  w_handlers w !! this = Some (upcast x) → pending_fds_ x = [] → error_ x = 0 →
  stop_requested (w_fiber_stop w) w = false →
  w_stops w !! id = Some s → ss_requested s = false → ss_callbacks s = [] →
  ∃ w', next this [stop_source_request id] w = (Hang, w') ∧ stop_requested (Some id) w' = true
    ∧ w_ring w' = w_ring w ∧ cancel_queue_ (w_sched w') = cancel_queue_ (w_sched w).
Proof.
  intros Hh Hq He Hns Hs Hr Hcb.
  assert (self this w = Some x) as Hself by (unfold self; rewrite Hh; simpl; apply downcast_upcast).
  set (w1 := put_self this (set_wait (Some promise_new) None x) w).
  assert (w_stops w1 !! id = Some s) as Hs1 by done.
  exists (upd_stops <[id := (request_stop s).2]> w1). split; [|split; [|done]].
  - unfold next. rewrite Hself, Hns. unfold next_begin. rewrite Hq, He. simpl. fold w1.
    erewrite cxx_bind_ret by (by apply stop_request_unheard).
    unfold self, w1. simpl. rewrite lookup_insert_eq. simpl. by rewrite downcast_upcast.
  - simpl. rewrite lookup_insert_eq. unfold request_stop. by rewrite Hr.
Qed.
End properties.

(** ** Witnesses *)

Section witnesses.
Import ListUring CellPromise.

(** two connections arrive before the first call, a third while the fiber is
    suspended, and then the entry is cancelled *)
Definition accepting : list event :=
  [Arrive 7 IORING_CQE_F_MORE; Arrive 8 IORING_CQE_F_MORE; Call false; Call false; Call false;
   Arrive 9 IORING_CQE_F_MORE; Arrive 10 IORING_CQE_F_MORE; Resume; Arrive (- ECANCELED) 0].

Definition fresh_run : run := new_run (L := list_uring) (P := cell_promise) 3 0 0 (fresh 256).
Definition accepted : run := Eval vm_compute in
  default fresh_run (exec_events 4096 accepting fresh_run).

Lemma acceptor_delivers_witness :
  r_arrived accepted = [7; 8; 9; 10] ∧ r_returned accepted = [Ret (Some 7); Ret (Some 8); Ret (Some 9)] ∧
  r_arrived accepted = fds_of (r_returned accepted ++ in_transit accepted) ++ pending_fds_ (r_obj accepted) ∧
  ∀ res flags, is_Some (exec_event 4096 (Arrive res flags) accepted).
Proof.
  split; [reflexivity|]. split; [reflexivity|].
  apply (acceptor_delivers (L := list_uring) cell_promise_laws 4096 3 0 0 (fresh 256) accepting). vm_compute. reflexivity.
Defined.

Lemma acceptor_rearms_witness :
  ∃ x' r', acceptor_complete (L := list_uring) 4096 7 0 (Acceptor 3 0 0 [] None 0 None, fresh 256)
      = (Ret (), (x', r'))
    ∧ sq_submitted r' = [accept_sqe 4096 (Acceptor 3 0 0 [] None 0 None)].
Proof.
  destruct (acceptor_rearms list_uring_laws cell_promise_laws list_uring_submits_all 4096 7 0
    (Acceptor 3 0 0 [] None 0 None) (fresh 256)) as (x' & r' & E & _ & Hs & _); [done|simpl; lia|].
  exists x', r'. split; [exact E|exact Hs].
Defined.

Definition acc_handlers : CqeHandler (option Z + acceptor) :=
  one_more (L := list_uring) (P := cell_promise) acceptor_complete.

(** a worker with an armed acceptor, whose fiber was asked to stop *)
Definition acc_worker : worker list_uring (option Z + acceptor) :=
  {| w_pool := {| running_ := true; work_queue_ := []; eventfd_ := 0; in_flight_ := 1 |};
     w_sched := {| ring_ := fresh k_ring_entries; ready_ := []; cancel_queue_ := []; notify_fd_ := 0 |};
     w_handlers := {[ 4096 := inr (Acceptor 3 0 0 [] None 0 None) ]}; w_fibers := [];
     w_stops := {[ 1%nat := (request_stop stop_source_new).2 ]}; w_pool_stop := 0%nat;
     w_fiber_stop := Some 1%nat |}.

Lemma acceptor_stop_dangling_witness :
  ∃ w1 w2, next (HC := acc_handlers) (D := one_more_derived acceptor_complete) 4096 [] acc_worker = (Ret None, w1)
    ∧ acceptor_dtor (HC := acc_handlers) (D := one_more_derived acceptor_complete) 4096 (mret ())
        {| de_next := λ _, []; de_close := λ _, (0, []) |} 1 (Some w1) = (Ret (), Some w2)
    ∧ w_ring w2 = w_ring acc_worker
    ∧ ∀ res flags, handle_cqe (HC := acc_handlers) OnlyAwaitable.bufs (Cqe 4096 res flags) w2 = (Undef, w2).
Proof.
  apply (acceptor_stop_dangling (HC := acc_handlers) (one_more_derived_laws acceptor_complete)
    OnlyAwaitable.bufs 4096 (Acceptor 3 0 0 [] None 0 None) acc_worker []); reflexivity.
Defined.

(** the same worker before the stop *)
Definition acc_waiting : worker list_uring (option Z + acceptor) := upd_stops (λ _, {[ 1%nat := stop_source_new ]}) acc_worker.

Lemma acceptor_ignores_stop_witness :
  ∃ w', next (HC := acc_handlers) (D := one_more_derived acceptor_complete) 4096 [stop_source_request 1] acc_waiting
      = (Hang, w')
    ∧ cancel_queue_ (w_sched w') = [].
Proof.
  destruct (acceptor_ignores_stop (HC := acc_handlers) (one_more_derived_laws acceptor_complete)
    4096 (Acceptor 3 0 0 [] None 0 None) acc_waiting 1 stop_source_new) as (w' & E & _ & _ & Hc); try reflexivity.
  exists w'. split; [exact E|exact Hc].
Defined.
End witnesses.
