(* ===== verification/Server.v ===== *)
(** * Server: accept loop, bounded queue, worker fibers

    The structure the example servers share (examples/echo_server_pool.cpp,
    examples/echo_server_multishot.cpp, examples/echo_to_file.cpp), and
    examples/channel_backpressure.cpp with one consumer: one fiber pushes what
    it accepts into a [channel], worker fibers pop and handle, and the first
    closes the channel when it is done.  The fibers run on several threads;
    the model interleaves their channel operations, which Boost makes atomic,
    with everything else.  A [program] says what the accepting call can
    answer, what the loop does with the answer and how handling a connection
    can end; the programs below take those from [Io], [MultishotAcceptor] and
    [Handlers]. *)

From S2P Require Import Prelude Cxx Uring Boost Channel Scheduler Submit AsyncIo Io Handlers.
From S2P Require Import MultishotAcceptor.

Local Open Scope Z_scope.

(** ** State *)

(** where the accepting fiber is: before the accepting call; before [push];
    about to close a descriptor the channel refused; past the loop; returned;
    left by an exception *)
Inductive accept_pc :=
  Accepting | Pushing (fd : Z) | Refused (fd : Z) | Closing | Returned | Threw (e : exn).

(** where a worker is: before [pop]; in the handler; returned; left by an
    exception while it handled [fd] *)
Inductive worker_pc := Popping | Handling (fd : Z) | Done | Failed (fd : Z) (e : exn).

(** what distinguishes the programs *)
Record program := Program {
  answer_type : Type;
  (** what the accepting call can answer, after the connections so far *)
  answers : list Z → answer_type → Prop;
  on_answer : answer_type → accept_pc;
  (** after a [push] that was not a success *)
  on_refused : Z → accept_pc;
  (** how closing a refused descriptor can end, and how handling one can *)
  rejects : outcome () → Prop;
  handles : Z → outcome () → Prop
}.

Section server.
Context {B : BufferedChannel Z} (p : program).

Record st := St {
  conn_ch : bchan;
  acc : accept_pc;
  workers : list worker_pc;
  accepted : list Z;   (** every descriptor accepted, in order *)
  popped : list Z;      (** every descriptor popped, in order *)
  handled : list Z     (** those whose handler returned *)
}.

Definition set_acc (ch : bchan) (pc : accept_pc) (s : st) : st :=
  {| conn_ch := ch; acc := pc; workers := workers s; accepted := accepted s; popped := popped s;
     handled := handled s |}.
Definition log_accepted (pc : accept_pc) (s : st) : st :=
  {| conn_ch := conn_ch s; acc := acc s; workers := workers s;
     accepted := accepted s ++ (if pc is Pushing fd then [fd] else []); popped := popped s;
     handled := handled s |}.
Definition set_worker (ch : bchan) (i : nat) (pc : worker_pc) (t h : list Z) (s : st) : st :=
  {| conn_ch := ch; acc := acc s; workers := <[i := pc]> (workers s); accepted := accepted s;
     popped := popped s ++ t; handled := handled s ++ h |}.

(** ** Steps *)

(** one step of the accepting fiber; [a] is the accepting call's answer *)
Definition accept_step (a : answer_type p) (s : st) : option st :=
  match acc s with
  | Accepting => Some (log_accepted (on_answer p a) (set_acc (conn_ch s) (on_answer p a) s))
  | _ => None
  end.

Definition push_step (s : st) : option st :=
  match acc s with
  | Pushing fd =>
      '(r, ch) ← push fd (conn_ch s);
      Some (set_acc ch (if decide (r = success) then Accepting else on_refused p fd) s)
  | _ => None
  end.

Definition reject_step (o : outcome ()) (s : st) : option st :=
  match acc s, o with
  | Refused fd, Ret _ => Some (set_acc (conn_ch s) Closing s)
  | Refused fd, Exn e => Some (set_acc (conn_ch s) (Threw e) s)
  | _, _ => None
  end.

Definition close_step (s : st) : option st :=
  match acc s with
  | Closing => Some (set_acc (close (conn_ch s)) Returned s)
  | _ => None
  end.

(** [while (conn_ch.pop(fd) == success) { handle_connection(fd); }] *)
Definition pop_step (i : nat) (s : st) : option st :=
  pc ← workers s !! i;
  match pc with
  | Popping =>
      '(r, v, ch) ← pop (conn_ch s);
      Some (match r, v with
            | success, Some fd => set_worker ch i (Handling fd) [fd] [] s
            | _, _ => set_worker ch i Done [] [] s
            end)
  | _ => None
  end.

Definition handle_step (i : nat) (o : outcome ()) (s : st) : option st :=
  pc ← workers s !! i;
  match pc, o with
  | Handling fd, Ret _ => Some (set_worker (conn_ch s) i Popping [] [fd] s)
  | Handling fd, Exn e => Some (set_worker (conn_ch s) i (Failed fd e) [] [] s)
  | _, _ => None
  end.

Inductive step (s s' : st) : Prop :=
  | step_accept a : answers p (accepted s) a → accept_step a s = Some s' → step s s'
  | step_push : push_step s = Some s' → step s s'
  | step_reject o : rejects p o → reject_step o s = Some s' → step s s'
  | step_close : close_step s = Some s' → step s s'
  | step_pop i : pop_step i s = Some s' → step s s'
  | step_handle i fd o : workers s !! i = Some (Handling fd) → handles p fd o →
      handle_step i o s = Some s' → step s s'.

(** the channel is new, [n] workers wait on it *)
Definition init (n : nat) (ch : bchan) : st :=
  {| conn_ch := ch; acc := Accepting; workers := replicate n Popping; accepted := []; popped := [];
     handled := [] |}.

Definition reachable (capacity : Z) (n : nat) (s : st) : Prop :=
  ∃ ch, channel_new capacity = Ret ch ∧ rtc step (init n ch) s.

(** what a fiber holds *)
Definition held (pc : accept_pc) : list Z :=
  match pc with Pushing fd | Refused fd => [fd] | _ => [] end.
Definition busy (pc : worker_pc) : list Z := match pc with Handling fd => [fd] | _ => [] end.
Definition dropped (pc : worker_pc) : list Z := match pc with Failed fd _ => [fd] | _ => [] end.
End server.
Arguments St {B} conn_ch acc workers accepted popped handled.
Arguments set_acc {B} ch pc s.

(** ** Lemmas *)

Section theory.
Context {B : BufferedChannel Z} {HB : BufferedChannelLaws Z B}.
Implicit Types ch : bchan.

Lemma push_open v ch r ch' :
  bc_closed ch = false → push v ch = Some (r, ch') →
  r = success ∧ Z.of_nat (length (bc_items ch)) < bc_capacity ch - 1
  ∧ bc_items ch' = bc_items ch ++ [v] ∧ bc_capacity ch' = bc_capacity ch ∧ bc_closed ch' = false.
Proof using HB.
  intros Hc E. destruct (decide (Z.of_nat (length (bc_items ch)) < bc_capacity ch - 1)) as [Hlt|Hge].
  - destruct (push_room v ch Hc Hlt) as (ch1 & E1 & ?). rewrite E1 in E. by simplify_eq.
  - unfold push in E. rewrite bc_push_blocks in E; [done|done|]. unfold bc_full. lia.
Qed.

Lemma pop_cases ch r v ch' :
  pop ch = Some (r, v, ch') →
  (∃ fd fds, bc_items ch = fd :: fds ∧ r = success ∧ v = Some fd ∧ bc_items ch' = fds
     ∧ bc_capacity ch' = bc_capacity ch ∧ bc_closed ch' = bc_closed ch)
  ∨ bc_items ch = [] ∧ bc_closed ch = true ∧ r = closed ∧ v = None ∧ ch' = ch.
Proof using HB.
  intros E. destruct (bc_items ch) as [|fd fds] eqn:Hi.
  - right. destruct (bc_closed ch) eqn:Hc; [|by rewrite pop_blocked in E].
    unfold pop in E. rewrite bc_pop_try, bc_try_pop_none, Hc in E by auto. by simplify_eq/=.
  - left. destruct (pop_item ch fd fds Hi) as (ch1 & E1 & ?). rewrite E1 in E. simplify_eq.
    by exists fd, fds.
Qed.

Lemma close_spec ch :
  bc_items (close ch) = bc_items ch ∧ bc_capacity (close ch) = bc_capacity ch
  ∧ bc_closed (close ch) = true.
Proof using HB. apply bc_close_spec. Qed.

Context (p : program).

(** the loop goes to [push], leaves, or is left by an exception *)
Definition proper : Prop := ∀ a, match on_answer p a with Refused _ | Returned => False | _ => True end.

Record inv (n : nat) (cap : Z) (s : st) : Prop := {
  inv_order : accepted s = popped s ++ bc_items (conn_ch s) ++ held (acc s);
  inv_hands : popped s ≡ₚ handled s ++ (workers s ≫= busy) ++ (workers s ≫= dropped);
  inv_refused fd : acc s ≠ Refused fd;
  inv_closed : bc_closed (conn_ch s) = true ↔ acc s = Returned;
  inv_room : Z.of_nat (length (bc_items (conn_ch s))) ≤ cap - 1;
  inv_capacity : bc_capacity (conn_ch s) = cap;
  inv_done : Done ∈ workers s → acc s = Returned ∧ bc_items (conn_ch s) = [];
  inv_workers : length (workers s) = n
}.

Lemma inv_init n ch :
  bc_items ch = [] → bc_closed ch = false → 1 ≤ bc_capacity ch → inv n (bc_capacity ch) (init n ch).
Proof using Type.
  intros Hi Hc Hcap.
  assert ((replicate n Popping ≫= busy) ++ (replicate n Popping ≫= dropped) = []) as Hw.
  { induction n; simpl; [done|]. simpl in *. done. }
  split; simpl; rewrite ?Hi, ?Hc, ?Hw; try done; simpl; [lia| |by rewrite length_replicate].
  by intros [? ?]%elem_of_replicate.
Qed.

(** a worker of [s] moves *)
Lemma workers_move (ws : list worker_pc) i x y t h (hd : list Z) (pd : list Z) :
  ws !! i = Some x →
  pd ≡ₚ hd ++ (ws ≫= busy) ++ (ws ≫= dropped) →
  t ++ busy x ++ dropped x ≡ₚ h ++ busy y ++ dropped y →
  pd ++ t ≡ₚ (hd ++ h) ++ (<[i := y]> ws ≫= busy) ++ (<[i := y]> ws ≫= dropped).
Proof using Type.
  intros Hi Hpd Hm.
  pose proof (bind_insert_Permutation busy ws i x y Hi) as Hb.
  pose proof (bind_insert_Permutation dropped ws i x y Hi) as Hd.
  apply (Permutation_app_inv_r (busy x ++ dropped x)).
  trans (pd ++ t ++ busy x ++ dropped x); [by rewrite <-app_assoc|]. rewrite Hm, Hpd.
  trans (hd ++ h ++ ((<[i:=y]> ws ≫= busy) ++ busy x) ++ ((<[i:=y]> ws ≫= dropped) ++ dropped x));
    [rewrite Hb, Hd|]; solve_Permutation.
Qed.

Lemma done_insert (ws : list worker_pc) i y : y ≠ Done → Done ∈ <[i := y]> ws → Done ∈ ws.
Proof using Type.
  intros Hy (j & Hj)%list_elem_of_lookup. apply list_lookup_insert_cases in Hj as [(_ & ? & _)|[_ Hj]];
    [congruence|]. by eapply list_elem_of_lookup_2.
Qed.

Lemma inv_accept n cap a s s' : proper → inv n cap s → accept_step p a s = Some s' → inv n cap s'.
Proof using Type.
  intros Hp [Ho Hh Hr Hc Hrm Hcp Hd Hw] E. unfold accept_step in E. destruct (acc s) eqn:Ha; simplify_eq.
  specialize (Hp a). split; simpl; try done.
  - rewrite Ho. simpl. destruct (on_answer p a); simpl; try done; by rewrite !app_nil_r, <-?app_assoc.
  - intros fd. by destruct (on_answer p a).
  - rewrite Hc. by destruct (on_answer p a).
  - intros [? ?]%Hd. done.
Qed.

Lemma inv_push n cap s s' : inv n cap s → push_step p s = Some s' → inv n cap s'.
Proof using HB.
  intros [Ho Hh Hr Hc Hrm Hcp Hd Hw] E. unfold push_step in E. destruct (acc s) as [|fd| | | |] eqn:Ha; simplify_eq.
  destruct (push fd (conn_ch s)) as [[r ch]|] eqn:Ep; simplify_eq/=.
  assert (bc_closed (conn_ch s) = false) as Hcl by (destruct (bc_closed (conn_ch s)); naive_solver).
  destruct (push_open _ _ _ _ Hcl Ep) as (-> & Hlt & Hi & Hcap & Hcl'). split; simpl; try done.
  - rewrite Ho, Hi. simpl. by rewrite app_nil_r.
  - by rewrite Hcl'.
  - rewrite Hi, length_app. simpl. lia.
  - intros [? ?]%Hd. done.
Qed.

Lemma inv_close n cap s s' : inv n cap s → close_step s = Some s' → inv n cap s'.
Proof using HB.
  intros [Ho Hh Hr Hc Hrm Hcp Hd Hw] E. unfold close_step in E. destruct (acc s) eqn:Ha; simplify_eq.
  destruct (close_spec (conn_ch s)) as (Hi & Hcap & Hcl). split; simpl; rewrite ?Hi, ?Hcap, ?Hcl; try done.
  intros [? ?]%Hd. done.
Qed.

Lemma inv_pop n cap i s s' : inv n cap s → pop_step i s = Some s' → inv n cap s'.
Proof using HB.
  intros [Ho Hh Hr Hc Hrm Hcp Hd Hw] E. unfold pop_step in E.
  destruct (workers s !! i) as [[]|] eqn:Hi; simplify_eq/=.
  destruct (pop (conn_ch s)) as [[[r v] ch]|] eqn:Ep; simplify_eq/=.
  destruct (pop_cases _ _ _ _ Ep) as [(fd & fds & Hit & -> & -> & Hit' & Hcap & Hcl)|(Hit & Hcl & -> & -> & ->)].
  - split; simpl; rewrite ?Hit', ?Hcap, ?Hcl; try done.
    + rewrite Ho, Hit, <-app_assoc. done.
    + by apply (workers_move _ _ Popping).
    + rewrite Hit in Hrm. simpl in Hrm. lia.
    + intros Hdone. apply done_insert in Hdone; [|done]. destruct (Hd Hdone) as [_ Hnil]. congruence.
    + by rewrite length_insert.
  - split; simpl; rewrite ?app_nil_r; try done.
    + pose proof (workers_move _ _ Popping Done [] [] _ _ Hi Hh (Permutation_refl _)) as Hm.
      by rewrite !app_nil_r in Hm.
    + intros _. split; [by apply Hc|done].
    + by rewrite length_insert.
Qed.

Lemma inv_handle n cap i o s s' : inv n cap s → handle_step i o s = Some s' → inv n cap s'.
Proof using Type.
  intros [Ho Hh Hr Hc Hrm Hcp Hd Hw] E. unfold handle_step in E.
  destruct (workers s !! i) as [[|fd| |]|] eqn:Hi; simplify_eq/=.
  destruct o as [[]|e| | |]; simplify_eq/=; split; simpl; rewrite ?length_insert, ?app_nil_r; try done.
  - pose proof (workers_move _ _ (Handling fd) Popping [] [fd] _ _ Hi Hh (Permutation_refl _)) as Hm.
    by rewrite app_nil_r in Hm.
  - intros Hdone. apply done_insert in Hdone; [|done]. by apply Hd.
  - pose proof (workers_move _ _ (Handling fd) (Failed fd e) [] [] _ _ Hi Hh (Permutation_refl _)) as Hm.
    by rewrite !app_nil_r in Hm.
  - intros Hdone. apply done_insert in Hdone; [|done]. by apply Hd.
Qed.

Lemma inv_step n cap s s' : proper → inv n cap s → step p s s' → inv n cap s'.
Proof using HB.
  intros Hp Hinv [a _ E|E|o _ E|E|i E|i fd o _ _ E].
  - by eapply inv_accept.
  - by eapply inv_push.
  - unfold reject_step in E. pose proof (inv_refused _ _ _ Hinv). destruct (acc s), o; simplify_eq.
    all: naive_solver.
  - by eapply inv_close.
  - by eapply inv_pop.
  - by eapply inv_handle.
Qed.

Lemma inv_steps n cap s s' : proper → inv n cap s → rtc (step p) s s' → inv n cap s'.
Proof using HB. intros Hp Hinv. induction 1; [done|]. by eauto using inv_step. Qed.


(** ** After the accept loop *)

Definition ended (pc : accept_pc) : Prop := pc = Closing ∨ pc = Returned.

Definition worker_weight (pc : worker_pc) : nat :=
  match pc with Handling _ => 2 | Popping => 1 | _ => 0 end.
Definition weight (s : st) : nat :=
  3 * length (bc_items (conn_ch s)) + sum_list_with worker_weight (workers s)
  + (if acc s is Closing then 1 else 0).

Lemma ended_step s s' : ended (acc s) → step p s s' → ended (acc s') ∧ (weight s' < weight s)%nat.
Proof using HB.
  intros Hend [a _ E|E|o _ E|E|i E|i fd o _ _ E].
  1-3: unfold accept_step, push_step, reject_step in E; destruct Hend as [He|He]; by rewrite He in E.
  - unfold close_step in E. destruct (acc s) eqn:Ha; simplify_eq. split; [by right|].
    unfold weight. simpl. destruct (close_spec (conn_ch s)) as (-> & _). rewrite Ha. lia.
  - unfold pop_step in E. destruct (workers s !! i) as [[]|] eqn:Hi; simplify_eq/=.
    destruct (pop (conn_ch s)) as [[[r v] ch]|] eqn:Ep; simplify_eq/=.
    destruct (pop_cases _ _ _ _ Ep) as [(fd & fds & Hit & -> & -> & Hit' & _)|(Hit & _ & -> & -> & ->)];
      (split; [done|]); unfold weight; simpl; rewrite ?Hit, ?Hit'; simpl.
    + pose proof (sum_list_with_insert worker_weight _ _ _ (Handling fd) Hi). simpl in *. lia.
    + pose proof (sum_list_with_insert worker_weight _ _ _ Done Hi). simpl in *. lia.
  - unfold handle_step in E. destruct (workers s !! i) as [[]|] eqn:Hi; simplify_eq/=.
    destruct o as [[]|e| | |]; simplify_eq/=; (split; [done|]); unfold weight; simpl;
      [pose proof (sum_list_with_insert worker_weight _ _ _ Popping Hi)
      |pose proof (sum_list_with_insert worker_weight _ _ _ (Failed fd0 e) Hi)]; simpl in *; lia.
Qed.

Lemma ended_bounded k s s' :
  ended (acc s) → nsteps (step p) k s s' → ended (acc s') ∧ (k + weight s' ≤ weight s)%nat.
Proof using HB.
  apply (weighted_run _ (λ s, ended (acc s))), ended_step.
Qed.

(** every connection's handler can end *)
Definition handlers_end : Prop := ∀ fd, (∃ u, handles p fd (Ret u)) ∨ ∃ e, handles p fd (Exn e).

Definition finished (pc : worker_pc) : Prop := match pc with Done | Failed _ _ => True | _ => False end.

Lemma stuck_finished n cap s :
  handlers_end → inv n cap s → ended (acc s) → (∀ s', ¬ step p s s') →
  acc s = Returned ∧ Forall finished (workers s).
Proof using HB.
  intros Hh Hinv Hend Hstuck. assert (acc s = Returned) as Ha.
  { destruct Hend as [Ha|Ha]; [|done]. exfalso. eapply Hstuck, step_close. unfold close_step. by rewrite Ha. }
  split; [done|]. apply Forall_lookup_2. intros i pc Hi. destruct pc as [|fd| |]; try done; exfalso.
  - pose proof (proj2 (inv_closed _ _ _ Hinv) Ha) as Hcl.
    destruct (pop (conn_ch s)) as [[[r v] ch]|] eqn:Ep.
    + eapply Hstuck, (step_pop _ _ _ i). unfold pop_step. rewrite Hi. simpl. by rewrite Ep.
    + unfold pop in Ep. rewrite bc_pop_try in Ep by auto. simpl in Ep.
      by destruct (bc_try_pop (conn_ch s)) as [[??]?].
  - destruct (Hh fd) as [[u Ho]|[e Ho]];
      (eapply Hstuck, (step_handle _ _ _ i fd _ Hi Ho)); unfold handle_step; by rewrite Hi.
Qed.

(** a state in which all workers have stopped, one of them by returning *)
Lemma finished_accounts n cap s :
  inv n cap s → Forall finished (workers s) → Done ∈ workers s →
  bc_items (conn_ch s) = [] ∧ accepted s ≡ₚ handled s ++ (workers s ≫= dropped).
Proof using Type.
  intros Hinv Hf Hd. destruct (inv_done _ _ _ Hinv Hd) as [Ha Hi]. split; [done|].
  rewrite (inv_order _ _ _ Hinv), Hi, Ha. simpl. rewrite app_nil_r, (inv_hands _ _ _ Hinv).
  assert (workers s ≫= busy = []) as ->; [|done].
  clear -Hf. induction Hf as [|pc ws Hpc _ IH]; [done|]. csimpl. rewrite IH. by destruct pc.
Qed.

Lemma all_done_dropped (ws : list worker_pc) : Forall (eq Done) ws → ws ≫= dropped = [].
Proof using Type. induction 1 as [|pc ws <- _ IH]; [done|]. csimpl. by rewrite IH. Qed.

Lemma hands_length s : (length (workers s ≫= busy) + length (workers s ≫= dropped) ≤ length (workers s))%nat.
Proof using Type.
  induction (workers s) as [|pc ws IH]; csimpl; [lia|]. rewrite !length_app. destruct pc; simpl; lia.
Qed.
End theory.

(** ** The programs *)

(** what the loop of echo_server_pool.cpp, and that of echo_to_file.cpp, does
    with the outcome of [async_accept]: [push], or break out of the loop *)
Definition on_accept (o : outcome Z) : accept_pc :=
  match o with
  | Ret fd => Pushing fd
  | Exn (SystemError _) | Exn FiberError | Exn FutureError => Closing
  | Exn e => Threw e
  | _ => Accepting
  end.

(** the outcomes of a fiber's code under any kernel *)
Definition outcome_of {A} (m : Kernel → cxx trace A) (o : outcome A) : Prop :=
  ∃ (K : Kernel) tr, (m K tr).1 = o.

(** examples/echo_server_pool.cpp *)
Definition pool_program (server_fd : Z) : program := {|
  answer_type := outcome Z;
  answers _ o := o ≠ Hang ∧ outcome_of (λ K, io_accept server_fd) o;
  on_answer := on_accept;
  on_refused := Refused;
  rejects o := o = Ret ();
  handles fd o := ∃ fuel, outcome_of (λ K, pool_handle_connection fuel fd) o |}.

(** examples/echo_to_file.cpp; [g] is the value of [g_next_id] *)
Definition file_program (server_fd : Z) : program := {|
  answer_type := outcome Z;
  answers _ o := o ≠ Hang ∧ outcome_of (λ K, io_accept server_fd) o;
  on_answer := on_accept;
  on_refused := Refused;
  rejects o := o = Ret ();
  handles fd o := ∃ fuel (K : Kernel) g tr, (file_handle_connection fuel fd server_fd (g, tr)).1 = o |}.

(** [while (auto fd = acc.next())]: no [try] around it *)
Definition on_next (o : outcome (option Z)) : accept_pc :=
  match o with
  | Ret (Some fd) => Pushing fd
  | Ret None => Closing
  | Exn e => Threw e
  | _ => Accepting
  end.

(** examples/echo_server_multishot.cpp; [next] ends as [next_end] says for the
    result it was woken with *)
Definition multishot_program : program := {|
  answer_type := outcome (option Z);
  answers _ o := ∃ res, next_end res = o;
  on_answer := on_next;
  on_refused := Refused;
  rejects o := ∃ fd, outcome_of (λ K, io_close fd) o;
  handles fd o := ∃ fuel, outcome_of (λ K, multishot_handle_connection fuel fd) o |}.

(** examples/channel_backpressure.cpp: the producer pushes 0, 1, ... and ignores
    the status; the consumer sleeps 30ms for each item *)
Definition kItems : Z := 12.
Definition producer_program : program := {|
  answer_type := option Z;
  answers produced a :=
    a = let i := Z.of_nat (length produced) in if i <? kItems then Some i else None;
  on_answer a := match a with Some i => Pushing i | None => Closing end;
  on_refused _ := Accepting;
  rejects _ := False;
  handles _ o := outcome_of (λ K, io_sleep_for 30000000) o |}.

Lemma pool_proper server_fd : proper (pool_program server_fd).
Proof. intros a. simpl. by destruct a as [| [] | | |]. Qed.
Lemma file_proper server_fd : proper (file_program server_fd).
Proof. intros a. simpl. by destruct a as [| [] | | |]. Qed.
Lemma multishot_proper : proper multishot_program.
Proof. intros a. simpl. by destruct a as [[] | | | |]. Qed.
Lemma producer_proper : proper producer_program.
Proof. intros a. simpl. by destruct a. Qed.

Lemma recv_loop_throws {K : Kernel} fuel fd c buf :
  throws_only system_error (recv_loop fuel fd (λ bs, r ← async_call (c bs); mret (r_res r)) buf).
Proof.
  revert buf. induction fuel as [|fuel IH]; intros buf; [by intros tr|]. simpl. unfold io_recv.
  apply throws_bind; [auto with io|]. intros [n buf']. auto with io.
Qed.

(** the handler of the pool server never throws *)
Lemma pool_handler_outcome fuel fd o :
  outcome_of (λ K, pool_handle_connection fuel fd) o → o = Ret () ∨ o = Hang.
Proof.
  intros (K & tr & <-).
  assert (throws_only (λ _, False) (pool_handle_connection fuel fd)) as Ht.
  { apply throws_bind; [apply throws_try, recv_loop_throws|].
    intros _. unfold syscall. auto 6 with io. }
  specialize (Ht tr). destruct (pool_handle_connection fuel fd tr) as [[[]|e| | |] ?]; naive_solver.
Qed.

Lemma pool_handlers_end server_fd : handlers_end (pool_program server_fd).
Proof. intros fd. left. exists (). exists 1%nat. by exists (constant_kernel 0), []. Qed.

(** in the pool server nothing is left by an exception *)
Definition clean {B : BufferedChannel Z} (s : st) : Prop :=
  (∀ e, acc s ≠ Threw e) ∧ Forall (λ pc, ∀ fd e, pc ≠ Failed fd e) (workers s).

Lemma pool_clean_step {B : BufferedChannel Z} server_fd s s' :
  clean s → step (pool_program server_fd) s s' → clean s'.
Proof.
  intros [Ha Hw] [a Hans E|E|o Ho E|E|i E|i fd o Hi Ho E].
  - unfold accept_step in E. destruct (acc s); simplify_eq. split; [|done].
    destruct Hans as [Hh (K & tr & <-)]. simpl in *.
    assert (throws_only system_error (io_accept server_fd)) as Ht by (unfold io_accept; auto with io).
    specialize (Ht tr). destruct (io_accept server_fd tr) as [[|e'| | |] ?]; try done. simpl in Ht. by destruct Ht as [code ->].
  - unfold push_step in E. destruct (acc s); simplify_eq.
    destruct (push _ _) as [[r ch]|]; simplify_eq/=. split; [|done]. simpl. by case_decide.
  - simpl in Ho. subst o. unfold reject_step in E. by destruct (acc s); simplify_eq.
  - unfold close_step in E. by destruct (acc s); simplify_eq.
  - unfold pop_step in E. destruct (workers s !! i) as [[]|]; simplify_eq/=.
    destruct (pop _) as [[[r v] ch]|]; simplify_eq/=.
    split; [by destruct r, v|]. destruct r, v; simpl; by apply Forall_insert.
  - destruct Ho as [fuel Ho]. unfold handle_step in E. rewrite Hi in E. simpl in E.
    destruct (pool_handler_outcome _ _ _ Ho) as [-> | ->]; simplify_eq.
    split; [done|]. simpl. by apply Forall_insert.
Qed.

Lemma pool_clean {B : BufferedChannel Z} server_fd s s' :
  clean s → rtc (step (pool_program server_fd)) s s' → clean s'.
Proof. intros Hc. induction 1; [done|]. by eauto using pool_clean_step. Qed.

(** an accepting fiber left by an exception stays so *)
Lemma threw_step {B : BufferedChannel Z} p e s s' : acc s = Threw e → step p s s' → acc s' = Threw e.
Proof.
  intros Ha [a _ E|E|o _ E|E|i E|i fd o Hi _ E];
    try (unfold accept_step, push_step, reject_step, close_step in E; by rewrite Ha in E).
  - unfold pop_step in E. destruct (workers s !! i) as [[]|]; simplify_eq/=.
    destruct (pop _) as [[[r v] ch]|]; simplify_eq/=. by destruct r, v.
  - unfold handle_step in E. rewrite Hi in E. by destruct o; simplify_eq/=.
Qed.

Lemma threw_steps {B : BufferedChannel Z} p e s s' :
  acc s = Threw e → rtc (step p) s s' → acc s' = Threw e.
Proof. intros Ha Hs. revert Ha. induction Hs; [done|]. eauto using threw_step. Qed.

(** what the producer has produced *)
Definition produced {B : BufferedChannel Z} (s : st) : Prop :=
  accepted s = Z.of_nat <$> seq 0 (length (accepted s)) ∧ Z.of_nat (length (accepted s)) ≤ kItems
  ∧ (ended (acc s) → Z.of_nat (length (accepted s)) = kItems).

Lemma produced_step {B : BufferedChannel Z} s s' : produced s → step producer_program s s' → produced s'.
Proof.
  intros (Hseq & Hle & Hend) [a Hans E|E|o Ho E|E|i E|i fd o Hi Ho E].
  - unfold accept_step in E. destruct (acc s); simplify_eq. simpl in Hans. subst a.
    unfold produced. simpl. destruct (Z.ltb_spec (Z.of_nat (length (accepted s))) kItems).
    + rewrite length_app. simpl. rewrite Nat.add_1_r, seq_S, fmap_app, <-Hseq. simpl.
      split; [done|]. split; [lia|]. by intros [].
    + rewrite app_nil_r. split; [done|]. split; [done|]. intros _. lia.
  - unfold push_step in E. destruct (acc s); simplify_eq.
    destruct (push _ _) as [[r ch]|]; simplify_eq/=. split; [done|]. split; [done|]. simpl.
    case_decide; by intros [].
  - done.
  - unfold close_step in E. destruct (acc s); simplify_eq. split; [done|]. split; [done|].
    intros _. apply Hend. by left.
  - unfold pop_step in E. destruct (workers s !! i) as [[]|]; simplify_eq/=.
    destruct (pop _) as [[[r v] ch]|]; simplify_eq/=. by destruct r, v.
  - unfold handle_step in E. rewrite Hi in E. by destruct o; simplify_eq/=.
Qed.

(** ** Runs of a whole server *)

Lemma constant_accept server_fd fd :
  0 ≤ fd → (io_accept (K := constant_kernel fd) server_fd []).1 = Ret fd.
Proof.
  intros Hfd. unfold io_accept.
  by rewrite (async_bind_ret (K := constant_kernel fd) (CAccept server_fd) (Reply fd []) [] _ eq_refl Hfd).
Qed.

(** what the programs have in common: a connection is pushed, the end of the
    connections ends the loop, and a handler can return *)
Class Serving (p : program) : Prop := {
  serving_proper : proper p;
  serving_conn l fd : 0 ≤ fd → ∃ a, answers p l a ∧ on_answer p a = Pushing fd;
  serving_end l : ∃ a, answers p l a ∧ on_answer p a = Closing;
  serving_handles fd : handles p fd (Ret ())
}.

Lemma next_end_fd fd : 0 ≤ fd → next_end fd = Ret (Some fd).
Proof.
  intros Hfd. unfold next_end.
  destruct (Z.eqb_spec fd (- ECANCELED)), (Z.eqb_spec fd (- EINVAL)); try (unfold ECANCELED, EINVAL in *; lia).
  simpl. destruct (Z.ltb_spec fd 0); [lia|done].
Qed.

#[export] Instance pool_serving server_fd : Serving (pool_program server_fd).
Proof.
  split.
  - apply pool_proper.
  - intros l fd Hfd. exists (Ret fd). split; [|done]. split; [done|].
    exists (constant_kernel fd), []. by apply constant_accept.
  - intros l. exists (Exn (SystemError 22)). split; [|done]. split; [done|]. by exists (constant_kernel (-22)), [].
  - intros fd. exists 1%nat. by exists (constant_kernel 0), [].
Qed.

#[export] Instance multishot_serving : Serving multishot_program.
Proof.
  split.
  - apply multishot_proper.
  - intros l fd Hfd. exists (Ret (Some fd)). split; [|done]. exists fd. by apply next_end_fd.
  - intros l. exists (Ret None). split; [|done]. by exists (- EINVAL).
  - intros fd. exists 1%nat. by exists (constant_kernel 0), [].
Qed.

Section frames.
Context {B : BufferedChannel Z} {HB : BufferedChannelLaws Z B} (p : program).

Lemma push_frame n cap s s' :
  inv n cap s → push_step p s = Some s' →
  accepted s' = accepted s ∧ popped s' = popped s ∧ acc s' = Accepting ∧ workers s' = workers s
  ∧ length (bc_items (conn_ch s')) = S (length (bc_items (conn_ch s))).
Proof using HB.
  intros Hinv. unfold push_step. destruct (acc s) as [|fd| | | |] eqn:Ha; try done.
  destruct (push fd (conn_ch s)) as [[r ch]|] eqn:Ep; try done. intros [= <-].
  assert (bc_closed (conn_ch s) = false) as Hop.
  { destruct (bc_closed _) eqn:Hc; [|done]. apply (inv_closed _ _ _ Hinv) in Hc. congruence. }
  destruct (push_open _ _ _ _ Hop Ep) as (-> & _ & Hi & _). simpl. rewrite Hi, length_app. simpl.
  split; [done|]. split; [done|]. split; [done|]. split; [done|lia].
Qed.

Lemma pop_frame i s s' :
  pop_step i s = Some s' → accepted s' = accepted s ∧ acc s' = acc s ∧ popped s ⊆ popped s'
  ∧ (∀ k fd e, workers s !! k = Some (Failed fd e) → workers s' !! k = Some (Failed fd e)).
Proof using HB.
  unfold pop_step. destruct (workers s !! i) as [[]|] eqn:Hi; try done. simpl.
  destruct (pop _) as [[[r v] ch]|]; try done. intros [= <-].
  assert (∀ pc k fd e, workers s !! k = Some (Failed fd e) → <[i := pc]> (workers s) !! k = Some (Failed fd e)) as Hf.
  { intros pc k fd e Hk. rewrite list_lookup_insert_ne; [done|congruence]. }
  destruct r, v; simpl; (split; [done|]); (split; [done|]); (split; [set_solver|]); apply Hf.
Qed.

Lemma served_frame i o s s' :
  handle_step i o s = Some s' → accepted s' = accepted s ∧ acc s' = acc s ∧ popped s' = popped s
  ∧ (∀ k fd e, workers s !! k = Some (Failed fd e) → workers s' !! k = Some (Failed fd e)).
Proof using Type.
  unfold handle_step. destruct (workers s !! i) as [[]|] eqn:Hi; try done; simpl.
  destruct o; try done; intros [= <-]; simpl; rewrite app_nil_r; (repeat (split; [done|]));
    intros k fd' e' Hk; (rewrite list_lookup_insert_ne; [done|congruence]).
Qed.

Lemma no_reject n cap o s s' : inv n cap s → reject_step o s = Some s' → False.
Proof using Type.
  intros Hs. unfold reject_step. pose proof (inv_refused _ _ _ Hs). destruct (acc s), o; naive_solver.
Qed.

(** what is left of a run in which [n] connections are made; [called] says that
    the accepting call has suspended *)
Definition acc_weight (pc : accept_pc) (called : bool) : nat :=
  match pc with Accepting => if called then 3 else 4 | Pushing _ => 7 | Refused _ => 2 | Closing => 1 | _ => 0 end.

Definition server_weight (n : nat) (s : st) (called : bool) : nat :=
  5 * (n - length (accepted s)) + acc_weight (acc s) called + 2 * length (bc_items (conn_ch s))
  + sum_list_with worker_weight (workers s).

Lemma pop_weight n i s s' b : pop_step i s = Some s' → (server_weight n s' b < server_weight n s b)%nat.
Proof using HB.
  unfold pop_step. destruct (workers s !! i) as [[]|] eqn:Hi; try done. simpl.
  destruct (pop (conn_ch s)) as [[[r v] ch]|] eqn:Ep; try done. intros [= <-].
  pose proof (λ y, sum_list_with_insert worker_weight _ _ _ y Hi) as Hw. unfold server_weight.
  destruct (pop_cases _ _ _ _ Ep) as [(fd & fds & Hit & -> & -> & Hit' & _)|(Hit & _ & -> & -> & ->)]; simpl.
  - specialize (Hw (Handling fd)). rewrite Hit, Hit'. simpl in *. lia.
  - specialize (Hw Done). simpl in *. lia.
Qed.

Lemma handle_weight n i o s s' b : handle_step i o s = Some s' → (server_weight n s' b < server_weight n s b)%nat.
Proof using Type.
  unfold handle_step. destruct (workers s !! i) as [[|fd| |]|] eqn:Hw; try done. simpl.
  pose proof (λ y, sum_list_with_insert worker_weight _ _ _ y Hw) as Hws. unfold server_weight.
  destruct o; try done; intros [= <-]; simpl; [specialize (Hws Popping)|specialize (Hws (Failed fd e))];
    simpl in Hws; lia.
Qed.
End frames.

Section reachability.
Context {B : BufferedChannel Z} {HB : BufferedChannelLaws Z B}.

Lemma server_inv p capacity n s :
  proper p → 1 ≤ capacity < 2 ^ 63 → reachable p capacity n s →
  ∃ cap, inv n cap s ∧ capacity ≤ cap - 1 ≤ 2 * capacity.
Proof using HB.
  intros Hp Hcap (ch & Hch & Hs).
  destruct (channel_new_ok capacity Hcap) as (ch' & Hch' & Habs & Hlim).
  rewrite Hch in Hch'. simplify_eq. unfold Spec.abs in Habs. injection Habs as Hi Hcl.
  exists (bc_capacity ch'). split; [|done]. eapply inv_steps; [done| |done].
  apply inv_init; [done|done|lia].
Qed.
End reachability.

(** ** Properties *)

Section properties.
Context (B : BufferedChannel Z) (HB : BufferedChannelLaws Z B).

(** C21: in every one of the example servers, in every state it can reach, each
    accepted connection is in exactly one place: handled, with the worker
    that is handling it or was left by its handler's exception, in the
    channel, or with the accepting fiber.  Workers take connections in the
    order they were accepted, [push] never fails, and the channel bounds how
    far accepting runs ahead of handling. *)
Theorem server_exactly_once p capacity n s :
  proper p → 1 ≤ capacity < 2 ^ 63 → reachable p capacity n s →
  accepted s = popped s ++ bc_items (conn_ch s) ++ held (acc s)
  ∧ popped s ≡ₚ handled s ++ (workers s ≫= busy) ++ (workers s ≫= dropped)
  ∧ (∀ fd, acc s ≠ Refused fd)
  ∧ capacity ≤ bc_capacity (conn_ch s) - 1 ≤ 2 * capacity
  ∧ Z.of_nat (length (accepted s)) ≤ Z.of_nat (length (handled s) + n) + bc_capacity (conn_ch s).
Proof using HB.
  intros Hp Hcap Hreach. destruct (server_inv p capacity n s Hp Hcap Hreach) as (cap & Hinv & Hlim).
  pose proof (inv_order _ _ _ Hinv) as Ho. pose proof (inv_hands _ _ _ Hinv) as Hh.
  rewrite (inv_capacity _ _ _ Hinv). repeat split; try done; [by apply (inv_refused _ _ _ Hinv)|lia|lia|].
  apply (f_equal length) in Ho. rewrite !length_app in Ho. apply Permutation_length in Hh.
  rewrite !length_app in Hh. pose proof (hands_length s) as Hl. pose proof (inv_workers _ _ _ Hinv).
  pose proof (inv_room _ _ _ Hinv).
  assert (length (held (acc s)) ≤ 1)%nat by (destruct (acc s); simpl; lia). lia.
Qed.

(** Shutdown.  Once the accepting fiber has left its loop the rest is
    bounded: whatever the interleaving, at most [weight] steps are left, and
    when no step is, the accepting fiber and every worker have ended.  If one
    of the workers returned, the channel is empty and every accepted
    connection was handled, or was in the hands of a worker its handler threw
    out of. *)
Theorem server_drains p capacity n s :
  proper p → handlers_end p → 1 ≤ capacity < 2 ^ 63 → reachable p capacity n s → ended (acc s) →
  (∀ k s', nsteps (step p) k s s' → (k ≤ weight s)%nat)
  ∧ ∀ s', rtc (step p) s s' → (∀ s'', ¬ step p s' s'') →
      acc s' = Returned ∧ Forall finished (workers s')
      ∧ (Done ∈ workers s' →
           bc_items (conn_ch s') = [] ∧ accepted s' ≡ₚ handled s' ++ (workers s' ≫= dropped)).
Proof using HB.
  intros Hp Hh Hcap Hreach Hend. destruct (server_inv p capacity n s Hp Hcap Hreach) as (cap & Hinv & _).
  split; [intros k s' Hn; destruct (ended_bounded p k s s' Hend Hn); lia|].
  intros s' Hs Hstuck. pose proof (inv_steps p _ _ _ _ Hp Hinv Hs) as Hinv'.
  apply rtc_nsteps in Hs as [k Hk]. destruct (ended_bounded p k s s' Hend Hk) as [Hend' _].
  destruct (stuck_finished p n cap s' Hh Hinv' Hend' Hstuck) as [Ha Hf]. split; [done|]. split; [done|].
  intros Hd. by eapply finished_accounts.
Qed.

(** Echo_server_pool end to end.  Its handler and its accept loop let no
    exception out; so, once accepting has failed (the listening socket was
    shut down), every run ends with all workers returned and every accepted
    connection handled, none lost and none twice. *)
Theorem pool_server_returns server_fd capacity n s s' :
  1 ≤ capacity < 2 ^ 63 → (0 < n)%nat →
  reachable (pool_program server_fd) capacity n s → ended (acc s) →
  rtc (step (pool_program server_fd)) s s' → (∀ s'', ¬ step (pool_program server_fd) s' s'') →
  Forall (eq Done) (workers s') ∧ acc s' = Returned ∧ accepted s' ≡ₚ handled s'.
Proof using HB.
  intros Hcap Hn Hreach Hend Hs Hstuck. set (p := pool_program server_fd) in *.
  assert (proper p) as Hp by apply pool_proper.
  destruct (server_inv p capacity n s Hp Hcap Hreach) as (cap & Hinv & _).
  pose proof (inv_steps p _ _ _ _ Hp Hinv Hs) as Hinv'.
  assert (clean s') as [_ Hclean].
  { destruct Hreach as (ch & _ & Hs0). apply (pool_clean server_fd (init n ch)); [|by etrans].
    split; [done|]. by apply Forall_replicate. }
  apply rtc_nsteps in Hs as [k Hk]. destruct (ended_bounded p k s s' Hend Hk) as [Hend' _].
  destruct (stuck_finished p n cap s' (pool_handlers_end _) Hinv' Hend' Hstuck) as [Ha Hf].
  assert (Forall (eq Done) (workers s')) as Hdone.
  { apply Forall_forall. intros pc Hpc. rewrite Forall_forall in Hf, Hclean.
    specialize (Hf pc Hpc). specialize (Hclean pc Hpc). destruct pc; naive_solver. }
  split; [done|]. split; [done|].
  assert (Done ∈ workers s') as Hin.
  { destruct (lookup_lt_is_Some_2 (workers s') 0) as [pc Hpc]; [by rewrite (inv_workers _ _ _ Hinv')|].
    rewrite Forall_lookup in Hdone. rewrite (Hdone _ _ Hpc). by eapply list_elem_of_lookup_2. }
  destruct (finished_accounts n cap s' Hinv' Hf Hin) as [_ Hacc].
  rewrite Hacc, all_done_dropped by done. by rewrite app_nil_r.
Qed.

(** Echo_server_multishot does not survive an accept error.  When accepting
    fails with anything but EINVAL or ECANCELED (EMFILE, say), [next] throws
    out of the accepting fiber before it closes the channel; from then on,
    whatever happens, the channel is open and no worker ever returns: the
    program, which waits for all of them, hangs. *)
Theorem multishot_accept_error_hangs capacity n s res :
  1 ≤ capacity < 2 ^ 63 → reachable multishot_program capacity n s → acc s = Accepting →
  res < 0 → res ≠ - EINVAL → res ≠ - ECANCELED →
  ∃ s1, accept_step multishot_program (next_end res) s = Some s1 ∧ step multishot_program s s1
    ∧ acc s1 = Threw (SystemError (- res))
    ∧ ∀ s', rtc (step multishot_program) s1 s' →
        bc_closed (conn_ch s') = false ∧ Done ∉ workers s'.
Proof using HB.
  intros Hcap Hreach Ha Hneg He1 He2. set (p := multishot_program) in *.
  assert (proper p) as Hp by apply multishot_proper.
  destruct (server_inv p capacity n s Hp Hcap Hreach) as (cap & Hinv & _).
  assert (next_end res = Exn (SystemError (- res))) as Hn.
  { unfold next_end. rewrite !(proj2 (Z.eqb_neq _ _)) by done. by rewrite (proj2 (Z.ltb_lt _ _)). }
  eexists. split; [unfold accept_step; by rewrite Ha|]. rewrite Hn.
  match goal with |- step p s ?x ∧ _ => set (s1 := x) end.
  assert (step p s s1) as Hs1.
  { apply (step_accept p s s1 (next_end res)); [by exists res|].
    unfold accept_step. by rewrite Ha, Hn. }
  split; [done|]. split; [done|]. intros s' Hs.
  pose proof (inv_steps p _ _ _ _ Hp (inv_step p _ _ _ _ Hp Hinv Hs1) Hs) as Hinv'.
  assert (acc s' = Threw (SystemError (- res))) as Ha'.
  { by apply (threw_steps p _ s1). }
  split.
  - pose proof (inv_closed _ _ _ Hinv') as Hc. destruct (bc_closed (conn_ch s')); [|done].
    rewrite Ha' in Hc. naive_solver.
  - intros Hd. destruct (inv_done _ _ _ Hinv' Hd). congruence.
Qed.

(** Channel_backpressure.  In every state the producer has produced an
    initial segment of 0, 1, ..., 11, the consumers have taken an initial
    segment of that, and the two differ by at most the seven items the channel
    holds and one in the producer's hands; once the producer is done and the
    channel is empty, 0, ..., 11 have been taken, in this order. *)
Theorem backpressure_in_order n s :
  reachable producer_program 4 n s →
  accepted s = Z.of_nat <$> seq 0 (length (accepted s)) ∧ Z.of_nat (length (accepted s)) ≤ kItems
  ∧ popped s `prefix_of` accepted s
  ∧ (length (accepted s) ≤ length (popped s) + 8)%nat
  ∧ (ended (acc s) → bc_items (conn_ch s) = [] → popped s = Z.of_nat <$> seq 0 12).
Proof using HB.
  intros (ch & Hch & Hs).
  destruct (channel_new_pow2 2) as (ch' & Hch' & Hi & Hcap & Hcl); [lia|].
  change (2 ^ 2) with 4 in *. rewrite Hch in Hch'. simplify_eq.
  assert (inv n 8 s) as Hinv.
  { eapply (inv_steps producer_program); [apply producer_proper| |done].
    replace 8 with (bc_capacity ch') by (rewrite Hcap; reflexivity). apply inv_init; [done|done|lia]. }
  assert (produced s) as (Hseq & Hle & Hend).
  { clear -Hs. assert (produced (init n ch')) as H0.
    { split; [done|]. split; [done|]. by intros []. }
    revert H0. induction Hs; [done|]. eauto using produced_step. }
  pose proof (inv_order _ _ _ Hinv) as Ho. pose proof (inv_room _ _ _ Hinv) as Hr.
  split; [done|]. split; [done|]. split; [rewrite Ho; by apply prefix_app_r|]. split.
  - apply (f_equal length) in Ho. rewrite !length_app in Ho.
    assert (length (held (acc s)) ≤ 1)%nat by (destruct (acc s); simpl; lia). lia.
  - intros He Hit. rewrite Hit in Ho. rewrite (Nat2Z.inj _ 12 (Hend He)) in Hseq.
    assert (held (acc s) = []) as Hh by (by destruct He as [-> | ->]).
    rewrite Hh, !app_nil_r in Ho. congruence.
Qed.
End properties.

(** ** Witnesses *)

Section witnesses.
Import ListChannel.
#[local] Existing Instance list_channel.

(** one connection, served by one worker of the pool server *)
Abbreviation pool := (pool_program 3).
Abbreviation state items shut := (St (B := list_channel) (Chan items 16 shut)).

Definition s_new := Eval vm_compute in init (B := list_channel) 1 (Chan [] 16 false).
Definition s_pushing := state [] false (Pushing 5) [Popping] [5] [] [].
Definition s_queued := state [5] false Accepting [Popping] [5] [] [].
Definition s_closing := state [5] false Closing [Popping] [5] [] [].
Definition s_closed := state [5] true Returned [Popping] [5] [] [].
Definition s_handling := state [] true Returned [Handling 5] [5] [5] [].
Definition s_handled := state [] true Returned [Popping] [5] [5] [5].
Definition s_final := state [] true Returned [Done] [5] [5] [5].


Lemma reach_queued : reachable pool 8 1 s_queued.
Proof.
  exists (Chan [] 16 false). split; [reflexivity|].
  eapply rtc_l; [apply (step_accept pool _ s_pushing (Ret 5)); [|reflexivity]|].
  { split; [done|]. by exists (constant_kernel 5), []. }
  eapply rtc_l; [apply (step_push pool _ s_queued); reflexivity|]. reflexivity.
Qed.

Lemma reach_closing : reachable pool 8 1 s_closing.
Proof.
  destruct reach_queued as (ch & Hch & Hs). exists ch. split; [done|]. eapply rtc_r; [exact Hs|].
  apply (step_accept pool _ _ (Exn (SystemError EINVAL))); [|reflexivity].
  split; [done|]. by exists (constant_kernel (-22)), [].
Qed.

Lemma run_to_final : rtc (step pool) s_closing s_final.
Proof.
  eapply rtc_l; [apply (step_close pool _ s_closed); reflexivity|].
  eapply rtc_l; [apply (step_pop pool _ s_handling 0); reflexivity|].
  eapply rtc_l; [apply (step_handle pool _ s_handled 0 5 (Ret ())); [reflexivity| |reflexivity]|].
  { exists 1%nat. by exists (constant_kernel 0), []. }
  eapply rtc_l; [apply (step_pop pool _ s_final 0); reflexivity|]. reflexivity.
Qed.

Lemma final_stuck s : ¬ step pool s_final s.
Proof.
  intros [a _ E|E|o _ E|E|i E|i fd o Hi _ E]; try done.
  - by destruct i as [|[|i]].
  - by destruct i as [|[|i]].
Qed.

Lemma server_exactly_once_witness : accepted s_queued = popped s_queued ++ [5] ++ held (acc s_queued).
Proof.
  destruct (server_exactly_once list_channel list_channel_laws pool 8 1 s_queued)
    as (H & _); [apply pool_proper|lia|apply reach_queued|]. exact H.
Defined.

Lemma server_drains_witness :
  (∀ k s', nsteps (step pool) k s_closing s' → (k ≤ 5)%nat)
  ∧ accepted s_final ≡ₚ handled s_final.
Proof.
  destruct (server_drains list_channel list_channel_laws pool 8 1 s_closing) as [Hk Hf];
    [apply pool_proper|apply pool_handlers_end|lia|apply reach_closing|by left|].
  split; [exact Hk|]. destruct (Hf s_final run_to_final final_stuck) as (_ & _ & Ha).
  destruct Ha as [_ Ha]; [by left|]. exact Ha.
Defined.

Lemma pool_server_returns_witness : Forall (eq Done) (workers s_final) ∧ accepted s_final ≡ₚ handled s_final.
Proof.
  destruct (pool_server_returns list_channel list_channel_laws 3 8 1 s_closing s_final)
    as (Hd & _ & Ha);
    [lia|lia|apply reach_closing|by left|apply run_to_final|apply final_stuck|].
  split; [exact Hd|exact Ha].
Defined.

Lemma multishot_accept_error_hangs_witness :
  ∃ s1, step multishot_program s_new s1 ∧ ∀ s', rtc (step multishot_program) s1 s' → Done ∉ workers s'.
Proof.
  destruct (multishot_accept_error_hangs list_channel list_channel_laws 8 1 s_new (-24))
    as (s1 & _ & Hs & _ & Hh); try (unfold EINVAL, ECANCELED; lia).
  - exists (Chan [] 16 false). split; [reflexivity|]. reflexivity.
  - reflexivity.
  - exists s1. split; [exact Hs|]. intros s' Hs'. apply (Hh s' Hs').
Defined.

Definition p_pushing := St (B := list_channel) (Chan [] 8 false) (Pushing 0) [Popping] [0] [] [].

Lemma backpressure_in_order_witness : accepted p_pushing = [0] ∧ popped p_pushing `prefix_of` [0].
Proof.
  destruct (backpressure_in_order list_channel list_channel_laws 1 p_pushing) as (Ha & _ & Hp & _).
  - exists (Chan [] 8 false). split; [reflexivity|]. eapply rtc_l; [|reflexivity].
    apply (step_accept producer_program _ p_pushing (Some 0)); reflexivity.
  - split; [exact Ha|exact Hp].
Defined.
End witnesses.
