(* ===== verification/Clients.v ===== *)
(** * Clients: the test clients of the example servers

    Eight client fibers of examples/echo_server_pool.cpp (those of
    examples/echo_server_multishot.cpp are the same) connect, send a message,
    receive the echo and disconnect; the one that brings [clients_done] to its
    final value shuts the listening socket down, which is what ends the
    server.  A client's own calls are sequential code over a kernel, as in
    [Handlers]; the clients share a counter and run on several threads, so
    their accesses to it are interleaved. *)

From stdpp Require Import pretty.
From S2P Require Import Prelude Cxx AsyncIo Io Handlers.

Local Open Scope Z_scope.

(** ** One client *)

Definition kClients : Z := 8.

(** the bytes of ["hello from client " + std::to_string(id)] *)
Definition greeting (id : Z) : bytes := String.list_byte_of_string ("hello from client " +:+ pretty id).

Section client.
Context {K : Kernel}.

(** the lambda of [make_client], up to the counter; its result is what it
    prints *)
Definition pool_client (id : Z) : cxx trace bytes :=
  fd ← syscall SysSocket;
  _ ← io_connect fd;
  _ ← io_send fd (greeting id) 0;
  '(n, buf) ← io_recv fd (array 256) 0;
  _ ← syscall (SysClose fd);
  mret (take (Z.to_nat n) buf).

(** the lambda of [make_client] of examples/echo_to_file.cpp *)
Definition file_client (id : Z) : cxx trace () :=
  fd ← syscall SysSocket;
  _ ← io_connect fd;
  _ ← io_send fd (greeting id ++ [Byte.x0a]) 0;
  io_close fd.
End client.

(** ** The clients together *)

(** where a client is: before the counter; about to shut the socket down; done;
    left by an exception *)
Inductive client_pc := Talking | Shutting | Gone | Left (e : exn).

#[export] Instance client_pc_eq_dec : EqDecision client_pc.
Proof. solve_decision. Defined.

Record st := St {
  clients : list client_pc;
  clients_done : Z;           (** [std::atomic<int>] *)
  shutdowns : list nat        (** who has called [shutdown(server_fd)] *)
}.

Definition set_client (i : nat) (pc : client_pc) (s : st) : st :=
  {| clients := <[i := pc]> (clients s); clients_done := clients_done s; shutdowns := shutdowns s |}.

(** how the body of client [i] ended: the [fetch_add] follows at once, or the
    exception leaves the fiber *)
Definition talk_step (i : nat) (o : outcome bytes) (s : st) : option st :=
  pc ← clients s !! i;
  match pc, o with
  | Talking, Ret _ =>
      Some {| clients := <[i := if decide (clients_done s = kClients - 1) then Shutting else Gone]> (clients s);
              clients_done := to_i32 (clients_done s + 1); shutdowns := shutdowns s |}
  | Talking, Exn e => Some (set_client i (Left e) s)
  | _, _ => None
  end.

(** [::shutdown(server_fd, SHUT_RDWR)] *)
Definition shut_step (i : nat) (s : st) : option st :=
  pc ← clients s !! i;
  match pc with
  | Shutting => Some {| clients := <[i := Gone]> (clients s); clients_done := clients_done s;
                        shutdowns := shutdowns s ++ [i] |}
  | _ => None
  end.

(** [make_client(0), ..., make_client(7)] *)
Definition init : st :=
  {| clients := replicate (Z.to_nat kClients) Talking; clients_done := 0; shutdowns := [] |}.

(** an outcome of client [i], over some kernel *)
Definition ends_with (i : nat) (o : outcome bytes) : Prop :=
  ∃ (K : Kernel) tr, (pool_client (Z.of_nat i) tr).1 = o.

Inductive step (s s' : st) : Prop :=
  | step_talk i o : ends_with i o → talk_step i o s = Some s' → step s s'
  | step_shut i : shut_step i s = Some s' → step s s'.

(** ** Invariant *)

Definition counted (pc : client_pc) : nat := match pc with Shutting | Gone => 1 | _ => 0 end.
Definition shutting (pc : client_pc) : nat := match pc with Shutting => 1 | _ => 0 end.

(** the counter counts the clients past it, and the last of them shuts down *)
Record inv (s : st) : Prop := {
  inv_clients : length (clients s) = Z.to_nat kClients;
  inv_count : clients_done s = Z.of_nat (sum_list_with counted (clients s));
  inv_last : (length (shutdowns s) + sum_list_with shutting (clients s))%nat =
    if decide (clients_done s = kClients) then 1%nat else 0%nat
}.

Lemma clients_inv_init : inv init.
Proof. by split. Qed.

Lemma clients_counted_le pcs : (sum_list_with counted pcs ≤ length pcs)%nat.
Proof. induction pcs as [|pc pcs IH]; simpl; [done|]. destruct pc; simpl; lia. Qed.

Lemma clients_inv_step s s' : inv s → step s s' → inv s'.
Proof.
  intros [Hn Hc Hl] Hs. pose proof (clients_counted_le (clients s)) as Hle. unfold kClients in *.
  destruct Hs as [i o _ Hs|i Hs]; revert Hs; unfold talk_step, shut_step;
    destruct (clients s !! i) as [pc|] eqn:Hi; try done; simpl.
  - pose proof (λ y, sum_list_with_insert counted _ _ _ y Hi) as Hci.
    pose proof (λ y, sum_list_with_insert shutting _ _ _ y Hi) as Hsi.
    destruct pc; try done. destruct o as [?|e| | |]; try done; intros [= <-].
    + assert (sum_list_with counted (clients s) < length (clients s))%nat.
      { pose proof (Hci Gone) as Hg. simpl in Hg. pose proof (clients_counted_le (<[i:=Gone]> (clients s))).
        rewrite length_insert in *. lia. }
      unfold to_i32, to_u32, wrap. rewrite Z.mod_small by lia.
      destruct (Z.ltb_spec (clients_done s + 1) (2 ^ 31)); [|lia].
      split; simpl; unfold kClients; rewrite ?length_insert; [done| |].
      * specialize (Hci (if decide (clients_done s = 8 - 1) then Shutting else Gone)).
        case_decide; simpl in Hci; lia.
      * specialize (Hsi (if decide (clients_done s = 8 - 1) then Shutting else Gone)).
        rewrite decide_False in Hl by lia.
        destruct (decide (clients_done s = 8 - 1)); [rewrite decide_True by lia|rewrite decide_False by lia];
          simpl in Hsi; lia.
    + split; simpl; unfold kClients; rewrite ?length_insert; [done| |].
      * specialize (Hci (Left e)). simpl in Hci. lia.
      * specialize (Hsi (Left e)). simpl in Hsi. lia.
  - pose proof (sum_list_with_insert counted _ _ _ Gone Hi) as Hci.
    pose proof (sum_list_with_insert shutting _ _ _ Gone Hi) as Hsi.
    destruct pc; try done. intros [= <-]. simpl in *.
    split; simpl; unfold kClients; rewrite ?length_insert, ?length_app; simpl; [done|lia|lia].
Qed.

Lemma reach_inv s : rtc step init s → inv s.
Proof. intros Hr. pose proof clients_inv_init as Hi. induction Hr; eauto using clients_inv_step. Qed.

(** all past the counter, none about to shut down: all gone *)
Lemma all_gone pcs :
  sum_list_with counted pcs = length pcs → sum_list_with shutting pcs = 0%nat → Forall (eq Gone) pcs.
Proof.
  induction pcs as [|pc pcs IH]; simpl; [done|]. intros Hc Hs. pose proof (clients_counted_le pcs).
  destruct pc; simpl in *; try lia. constructor; [done|]. apply IH; lia.
Qed.

Definition pc_weight (pc : client_pc) : nat := match pc with Talking => 2 | Shutting => 1 | _ => 0 end.

Lemma clients_step_weight s s' :
  step s s' → (sum_list_with pc_weight (clients s') < sum_list_with pc_weight (clients s))%nat.
Proof.
  intros [i o _ Hs|i Hs]; revert Hs; unfold talk_step, shut_step;
    destruct (clients s !! i) as [pc|] eqn:Hi; try done; simpl;
    pose proof (λ y, sum_list_with_insert pc_weight _ _ _ y Hi) as Hw; destruct pc; try done.
  - destruct o as [?|e| | |]; try done; intros [= <-]; simpl.
    + specialize (Hw (if decide (clients_done s = kClients - 1) then Shutting else Gone)).
      case_decide; simpl in Hw; lia.
    + specialize (Hw (Left e)). simpl in Hw. lia.
  - intros [= <-]. specialize (Hw Gone). simpl in *. lia.
Qed.

(** a client that talks to a kernel which answers can end *)
Lemma can_end i : ∃ bs, ends_with i (Ret bs).
Proof. eexists. exists (constant_kernel 0), []. reflexivity. Qed.

Lemma stuck_over s i pc :
  (∀ s', ¬ step s s') → clients s !! i = Some pc → pc = Gone ∨ ∃ e, pc = Left e.
Proof.
  intros Hst Hi. destruct pc; [exfalso|exfalso|by left|right; by eexists].
  - destruct (can_end i) as [bs Hb]. eapply Hst, (step_talk _ _ i (Ret bs) Hb).
    unfold talk_step. by rewrite Hi.
  - eapply Hst, (step_shut _ _ i). unfold shut_step. by rewrite Hi.
Qed.

(** ** Properties *)

(** The calls of a client.  Over a kernel that answers and lets nothing fail, a
    client of the echo servers connects, sends its greeting in one call, and
    prints what one receive of at most 256 bytes returned; a client of
    echo_to_file sends its greeting with a newline; either closes its socket
    last.  A client of either kind that fails throws a [std::system_error]. *)
Theorem client_calls (K : Kernel) (HK : KernelLaws K) id tr :
  (live → no_errors →
   (∃ r0 r1 r2 r3 r4, let fd := fd_of_int (r_res r0) in
      pool_client id tr = (Ret (r_data r3), tr ++ [(SysSocket, r0); (CConnect fd, r1);
        (CSend fd (greeting id) 0, r2); (CRecv fd 256 0, r3); (SysClose (r_res r0), r4)])
      ∧ (length (r_data r3) ≤ 256)%nat)
   ∧ ∃ r0 r1 r2 r3, let fd := fd_of_int (r_res r0) in
      file_client id tr = (Ret (), tr ++ [(SysSocket, r0); (CConnect fd, r1);
        (CSend fd (greeting id ++ [Byte.x0a]) 0, r2); (CClose (r_res r0), r3)]))
  ∧ throws_only system_error (pool_client id) ∧ throws_only system_error (file_client id).
Proof.
  split; [|split].
  - intros Hl Hn.
    destruct (Hl tr SysSocket) as [r0 H0]. set (fd := fd_of_int (r_res r0)).
    destruct (Hl (tr ++ [(SysSocket, r0)]) (CConnect fd)) as [r1 H1].
    set (tr2 := (tr ++ [(SysSocket, r0)]) ++ [(CConnect fd, r1)]).
    assert (∀ A (k : Z → cxx trace A), (fd ← syscall SysSocket; _ ← io_connect fd; k fd) tr = k (r_res r0) tr2) as Hpre.
    { intros A k. erewrite cxx_bind_ret by (by apply syscall_ret).
      by erewrite cxx_bind_ret by (unfold io_connect; rewrite (async_bind_ret _ _ _ _ H1 (Hn _ _ _ H1)); done). }
    split.
    + destruct (Hl tr2 (CSend fd (greeting id) 0)) as [r2 H2].
      set (tr3 := tr2 ++ [(CSend fd (greeting id) 0, r2)]).
      destruct (Hl tr3 (CRecv fd 256 0)) as [r3 H3]. pose proof (Hn _ _ _ H3) as Hp3.
      destruct (answer_input _ _ _ _ H3 eq_refl Hp3) as [Hlen Hle].
      destruct (Hl (tr3 ++ [(CRecv fd 256 0, r3)]) (SysClose (r_res r0))) as [r4 H4].
      exists r0, r1, r2, r3, r4. split; [|lia]. unfold pool_client. rewrite Hpre.
      erewrite cxx_bind_ret by (unfold io_send; rewrite (async_bind_ret _ _ _ _ H2 (Hn _ _ _ H2)); done).
      erewrite cxx_bind_ret by (apply io_recv_ret; [exact H3|done]). cbv beta iota.
      erewrite cxx_bind_ret by (by apply syscall_ret).
      rewrite Hlen, Nat2Z.id, take_fill. unfold tr3, tr2. by rewrite <-!app_assoc.
    + destruct (Hl tr2 (CSend fd (greeting id ++ [Byte.x0a]) 0)) as [r2 H2].
      set (tr3 := tr2 ++ [(CSend fd (greeting id ++ [Byte.x0a]) 0, r2)]).
      destruct (Hl tr3 (CClose (r_res r0))) as [r3 H3].
      exists r0, r1, r2, r3. unfold file_client. rewrite Hpre.
      erewrite cxx_bind_ret by (unfold io_send; rewrite (async_bind_ret _ _ _ _ H2 (Hn _ _ _ H2)); done).
      cbv beta. change (tr2 ++ [_]) with tr3. rewrite (io_close_ret _ _ _ H3). destruct (Z.ltb_spec (r_res r3) 0); [pose proof (Hn _ _ _ H3); lia|].
      unfold tr3, tr2. by rewrite <-!app_assoc.
  - unfold pool_client, syscall, io_connect, io_send, io_recv.
    repeat first [apply throws_ret | apply throws_issue | apply throws_async_call
                 | apply throws_bind | intros [n buf] | intros ?].
  - unfold file_client, syscall, io_connect, io_send, io_close. auto 12 with io.
Qed.

(** The clients of the echo servers end the server once, and not too early.
    Whatever the interleaving and however the clients' calls end, the listening
    socket is shut down at most once, and when it has been, every client has
    received its echo and closed its connection.  The clients take at most 16
    steps; when they can take no more, each has finished or was left by an
    exception, and the socket has been shut down exactly when none was. *)
Theorem clients_shut_down_once k s :
  nsteps step k init s →
  (k ≤ 16)%nat ∧ (length (shutdowns s) ≤ 1)%nat
  ∧ (shutdowns s ≠ [] → Forall (eq Gone) (clients s))
  ∧ ((∀ s', ¬ step s s') →
     Forall (λ pc, pc = Gone ∨ ∃ e, pc = Left e) (clients s)
     ∧ (Forall (eq Gone) (clients s) ↔ length (shutdowns s) = 1%nat)).
Proof.
  intros Hk. assert (rtc step init s) as Hr by (apply rtc_nsteps; by exists k).
  apply reach_inv in Hr as [Hn Hc Hl]. unfold kClients in *.
  assert (shutdowns s ≠ [] → Forall (eq Gone) (clients s)) as Hshut.
  { intros Hne. apply all_gone; destruct (shutdowns s); simpl in *; try done; case_decide; lia. }
  split; [|split; [case_decide; lia|split; [done|]]].
  - assert (k + sum_list_with pc_weight (clients s) ≤ sum_list_with pc_weight (clients init))%nat as Hw;
      [|vm_compute (sum_list_with pc_weight (clients init)) in Hw; lia].
    by apply (weighted_run step (λ _, True) _ (λ x y _ Hs, conj I (clients_step_weight x y Hs))).
  - intros Hst. split; [apply Forall_lookup; intros i pc; by apply stuck_over|]. split.
    + intros Hg. assert (sum_list_with counted (clients s) = length (clients s)
        ∧ sum_list_with shutting (clients s) = 0%nat) as [Hg1 Hg2].
      { clear -Hg. induction Hg as [|? ? <- _ [IH1 IH2]]; simpl; lia. }
      rewrite decide_True in Hl; lia.
    + intros Hone. apply Hshut. by destruct (shutdowns s).
Qed.

(** ** Witnesses *)

(** the clients end one after the other, and the last one shuts down *)
Definition talk_all : list nat → st → option st := run_schedule (λ i, talk_step i (Ret [])).
Definition all_talked : st := Eval vm_compute in default init (talk_all (seq 0 8) init).
Definition all_done : st := Eval vm_compute in default init (shut_step 7 all_talked).

Lemma talk_all_nsteps is_ s s' : talk_all is_ s = Some s' → nsteps step (length is_) s s'.
Proof.
  apply schedule_nsteps. intros i s1 s2 Hi. apply (step_talk _ _ i (Ret [])); [|done].
  exists (constant_kernel 0), []. reflexivity.
Qed.

Lemma clients_shut_down_once_witness : shutdowns all_done = [7%nat] ∧ Forall (eq Gone) (clients all_done).
Proof.
  split; [reflexivity|].
  destruct (clients_shut_down_once 9 all_done) as (_ & _ & Hg & _); [|by apply Hg].
  eapply (nsteps_r 8 init all_talked); [by apply (talk_all_nsteps (seq 0 8))|].
  apply (step_shut _ _ 7). reflexivity.
Defined.
