(* ===== verification/EchoServer.v ===== *)
(** * EchoServer: echo_server_pool.cpp and echo_server_multishot.cpp as a whole

    The accept loop, the worker fibers and the eight test clients of each
    program together, with what ties them: a connection is accepted once its
    client has made it; a client gets its echo from the worker that handles its
    connection; that worker is done with it when the client has closed; the
    last client shuts the listening socket down, which makes accepting fail;
    and when a fiber fails, [stdexec::when_all] asks the others to stop, which
    cancels the operations they wait for.  The programs differ in the
    accepting call: [async_accept] is cancelled by a stop, and a fiber
    suspended in [multishot_acceptor::next] is not. *)

From S2P Require Import Prelude Cxx Uring Boost Channel AsyncIo Io Handlers MultishotAcceptor Server Clients.

Local Open Scope Z_scope.

Definition kWorkers : nat := 4.

(** [p] is the server, [obeys] whether a stop ends an accepting call that has
    suspended, [fails] whether the call may also fail of itself (EMFILE,
    ECONNABORTED), and [conn j] the descriptor the server has for the connection
    of client [j] *)
Section program.
Context {B : BufferedChannel Z} (p : program) (obeys fails : bool) (conn : nat → Z).

Record prog := Prog {
  srv : Server.st;
  cli : Clients.st;
  in_call : bool     (** the accepting fiber is suspended in its call *)
}.

(** [when_all] has requested a stop: a client or a worker has failed *)
Definition stopped (g : prog) : Prop :=
  (∃ j e, clients (cli g) !! j = Some (Left e)) ∨ ∃ i fd e, workers (srv g) !! i = Some (Failed fd e).

(** what the accepting call can answer: a connection that was made and not yet
    accepted (a client that failed may have made its own before); or an error
    that ends the loop, once the socket is shut down, or once a stop was
    requested if the call looks at it, or at any time if it may fail of itself *)
Definition can_answer (must : bool) (a : answer_type p) (g : prog) : Prop :=
  match on_answer p a with
  | Pushing fd => ∃ j, fd = conn j ∧ (fd ∉ accepted (srv g))
      ∧ (clients (cli g) !! j = Some Talking ∨ must = false ∧ ∃ e, clients (cli g) !! j = Some (Left e))
  | Closing => shutdowns (cli g) ≠ [] ∨ (stopped g ∧ (in_call g = true → obeys = true))
      ∨ (must = false ∧ fails = true)
  | _ => False
  end.

(** a step of the program.  With [must], only those nothing else is needed for:
    a worker whose client has closed, a client whose connection is handled or
    that has been asked to stop.  Without it, a connection may also end early,
    and a client may fail at any time; but it gets its echo only from the
    worker that handles its connection. *)
Inductive step (must : bool) (g : prog) : prog → Prop :=
  | step_call : acc (srv g) = Accepting → in_call g = false → step must g (Prog (srv g) (cli g) true)
  | step_accept a s' : can_answer must a g → answers p (accepted (srv g)) a →
      accept_step p a (srv g) = Some s' → step must g (Prog s' (cli g) false)
  | step_push s' : push_step p (srv g) = Some s' → step must g (Prog s' (cli g) (in_call g))
  | step_reject o s' : rejects p o → reject_step o (srv g) = Some s' → step must g (Prog s' (cli g) (in_call g))
  | step_close s' : close_step (srv g) = Some s' → step must g (Prog s' (cli g) (in_call g))
  | step_pop i s' : pop_step i (srv g) = Some s' → step must g (Prog s' (cli g) (in_call g))
  | step_handle i fd o s' : workers (srv g) !! i = Some (Handling fd) → handles p fd o →
      (must = true → ∀ j, fd = conn j → clients (cli g) !! j ≠ Some Talking) →
      handle_step i o (srv g) = Some s' → step must g (Prog s' (cli g) (in_call g))
  | step_talk j o c' : ends_with j o →
      (∀ bs, o = Ret bs → conn j ∈ popped (srv g)) →
      (must = true → conn j ∈ popped (srv g) ∨ stopped g) →
      talk_step j o (cli g) = Some c' → step must g (Prog (srv g) c' (in_call g))
  | step_shut j c' : shut_step j (cli g) = Some c' → step must g (Prog (srv g) c' (in_call g)).

(** the channel is new, [n] workers wait on it *)
Definition start (n : nat) (ch : bchan) : prog := Prog (Server.init n ch) Clients.init false.
End program.
Arguments Prog {B} srv cli in_call.

(** ** What steps leave alone *)

(** a stop, once requested, and a shutdown are not taken back *)
Lemma clients_frame c c' :
  Clients.step c c' →
  (∀ j e, clients c !! j = Some (Left e) → clients c' !! j = Some (Left e)) ∧ (shutdowns c ≠ [] → shutdowns c' ≠ []).
Proof.
  intros [i o _ E|i E]; revert E; unfold talk_step, shut_step;
    destruct (clients c !! i) as [pc|] eqn:Hi; try done; simpl; destruct pc; try done.
  - destruct o; try done; intros [= <-]; (split; [|done]); intros j e' Hj; simpl;
      (rewrite list_lookup_insert_ne; [done|congruence]).
  - intros [= <-]. split.
    + intros j e Hj. simpl. rewrite list_lookup_insert_ne; [done|congruence].
    + simpl. by destruct (shutdowns c).
Qed.
Lemma gone_shutting pcs : Forall (eq Gone) pcs → sum_list_with shutting pcs = 0%nat.
Proof. induction 1 as [|? ? <- _ IH]; done. Qed.

Lemma gone_counted pcs : Forall (eq Gone) pcs → sum_list_with counted pcs = length pcs.
Proof. induction 1 as [|? ? <- _ IH]; simpl; lia. Qed.

(** ** Invariant *)

Section theory.
Context {B : BufferedChannel Z} {HB : BufferedChannelLaws Z B} (p : program) {SP : Serving p} (obeys fails : bool).
Context (conn : nat → Z) (conn_inj : Inj (=) (=) conn) (conn_pos : ∀ j, 0 ≤ conn j).
Abbreviation step := (step p obeys fails conn).
Implicit Types g : prog.

(** the connections there are *)
Definition conns : list Z := conn <$> seq 0 (Z.to_nat kClients).

Record inv (n : nat) (cap : Z) g : Prop := {
  inv_srv : Server.inv n cap (srv g);
  inv_cli : Clients.inv (cli g);
  inv_call : in_call g = true → acc (srv g) = Accepting;
  inv_threw e : acc (srv g) ≠ Threw e;
  inv_once : NoDup (accepted (srv g));
  inv_conns : accepted (srv g) ⊆ conns;
  inv_end : ended (acc (srv g)) → shutdowns (cli g) ≠ [] ∨ stopped g ∨ fails = true;
  (** a client that got its echo was served *)
  inv_echo j : (clients (cli g) !! j = Some Gone ∨ clients (cli g) !! j = Some Shutting) → conn j ∈ popped (srv g)
}.

(** a step of the server *)
Lemma inv_server n cap g s' b :
  inv n cap g → Server.step p (srv g) s' → popped (srv g) ⊆ popped s' →
  (∀ k fd e, workers (srv g) !! k = Some (Failed fd e) → workers s' !! k = Some (Failed fd e)) →
  (b = true → acc s' = Accepting) → (∀ e, acc s' ≠ Threw e) → NoDup (accepted s') → accepted s' ⊆ conns →
  (ended (acc s') → shutdowns (cli g) ≠ [] ∨ stopped g ∨ fails = true) →
  inv n cap (Prog s' (cli g) b).
Proof using HB SP.
  intros [Hs Hc _ _ _ _ _ He] Hst Hp Hf Hb Ht Hn Hi Hend. split; simpl; try done.
  - eapply Server.inv_step; [apply serving_proper|done|done].
  - intros [H1|[[H1|(i & fd & e & H1)]|H1]]%Hend; [by left|right; left; by left|right; left; right|by do 2 right].
    exists i, fd, e. by apply Hf.
  - intros j Hj. by apply Hp, He.
Qed.

(** a step of the clients *)
Lemma inv_client n cap g c' :
  inv n cap g → Clients.step (cli g) c' →
  (∀ j, (clients c' !! j = Some Gone ∨ clients c' !! j = Some Shutting) → conn j ∈ popped (srv g)) →
  inv n cap (Prog (srv g) c' (in_call g)).
Proof using Type.
  intros [Hs Hc Hb Ht Hn Hi Hend _] Hst He. destruct (clients_frame _ _ Hst) as [Hl Hsh]. split; simpl; try done.
  - by eapply clients_inv_step.
  - intros [H1|[[(k & e & Hk)|H1]|H1]]%Hend;
      [left; auto|right; left; left; exists k, e; simpl; auto|right; left; by right|by do 2 right].
Qed.

Lemma accept_inv must n cap a g s' :
  inv n cap g → can_answer p obeys fails conn must a g → answers p (accepted (srv g)) a → accept_step p a (srv g) = Some s' →
  inv n cap (Prog s' (cli g) false).
Proof using All.
  intros Hinv Ha Hans E. pose proof Hinv as [_ Hc _ _ Hn Hi Hend _].
  assert (Server.step p (srv g) s') as Hst by (by eapply Server.step_accept).
  unfold accept_step in E. destruct (acc (srv g)) eqn:Hacc; try done. injection E as <-.
  unfold can_answer in Ha. destruct (on_answer p a) as [|fd| | | |] eqn:Hon; try done.
  - destruct Ha as (j & -> & Hnew & Hj). eapply inv_server; try done; simpl.
    + apply NoDup_app. split; [done|]. split; [set_solver|apply NoDup_singleton].
    + assert (j < length (clients (cli g)))%nat as Hlt by (destruct Hj as [?|(_ & e & ?)]; by eapply lookup_lt_Some).
      rewrite (inv_clients _ Hc) in Hlt.
      assert (conn j ∈ conns) by (apply list_elem_of_fmap; exists j; split; [done|apply elem_of_seq; lia]). set_solver.
    + by intros [].
  - eapply inv_server; try done; simpl; [by rewrite app_nil_r..|].
    intros _. destruct Ha as [?|[[? _]|[_ ?]]]; auto.
Qed.

Lemma talk_inv n cap j o g c' :
  inv n cap g → ends_with j o → (∀ bs, o = Ret bs → conn j ∈ popped (srv g)) → talk_step j o (cli g) = Some c' →
  inv n cap (Prog (srv g) c' (in_call g)).
Proof using All.
  intros Hinv Ho Hr E. eapply inv_client; [done|by eapply Clients.step_talk|]. intros k Hk.
  destruct (decide (k = j)) as [->|Hne].
  - unfold talk_step in E. destruct (clients (cli g) !! j) as [[]|] eqn:Hj; try done. simpl in E.
    destruct o as [bs|e| | |]; try done; [by eapply Hr|]. injection E as <-. simpl in Hk.
    rewrite list_lookup_insert_eq in Hk by (by eapply lookup_lt_Some). by destruct Hk.
  - apply (inv_echo _ _ _ Hinv). unfold talk_step in E.
    destruct (clients (cli g) !! j) as [[]|] eqn:Hj; try done. simpl in E.
    destruct o as [bs|e| | |]; try done; injection E as <-; simpl in Hk; by rewrite list_lookup_insert_ne in Hk.
Qed.

Lemma shut_inv n cap j g c' :
  inv n cap g → shut_step j (cli g) = Some c' → inv n cap (Prog (srv g) c' (in_call g)).
Proof using Type.
  intros Hinv E. eapply inv_client; [done|by eapply Clients.step_shut|]. intros k Hk. apply (inv_echo _ _ _ Hinv).
  unfold shut_step in E. destruct (clients (cli g) !! j) as [[]|] eqn:Hj; try done.
  injection E as <-. simpl in Hk. destruct (decide (k = j)) as [->|Hne]; [by right|].
  by rewrite list_lookup_insert_ne in Hk.
Qed.

Lemma echo_inv_step must n cap g g' : inv n cap g → step must g g' → inv n cap g'.
Proof using All.
  intros Hinv Hst. pose proof Hinv as [Hs Hc Hb Ht Hn Hi Hend He].
  destruct Hst as [Ha _|a s' Ha Hans E|s' E|o s' Ho E|s' E|i s' E|i fd o s' Hw Ho _ E|j o c' Ho Hr _ E|j c' E].
  - by split.
  - by eapply accept_inv.
  - destruct (push_frame _ _ _ _ _ Hs E) as (Ha & Hp & Hacc & Hws & _).
    eapply inv_server; [done|by eapply Server.step_push|..]; rewrite ?Ha, ?Hp, ?Hacc, ?Hws; try done. by intros [].
  - by destruct (no_reject _ _ _ _ _ Hs E).
  - assert (Server.step p (srv g) s') as Hst by (by eapply Server.step_close).
    unfold close_step in E. destruct (acc (srv g)) eqn:Hacc; simplify_eq.
    eapply inv_server; try done; [intros Hin; by apply Hb in Hin|]. intros _. apply Hend. by left.
  - destruct (pop_frame i _ _ E) as (Ha & Hacc & Hp & Hf).
    eapply inv_server; [done|by apply (Server.step_pop _ _ _ i)|..]; rewrite ?Ha, ?Hacc; done.
  - destruct (served_frame i _ _ _ E) as (Ha & Hacc & Hp & Hf).
    eapply inv_server; [done|by eapply (Server.step_handle _ _ _ i)|..]; rewrite ?Ha, ?Hacc, ?Hp; done.
  - by eapply talk_inv.
  - by eapply shut_inv.
Qed.

Lemma echo_inv_start n ch :
  bc_items ch = [] → bc_closed ch = false → 1 ≤ bc_capacity ch → inv n (bc_capacity ch) (start n ch).
Proof using All.
  intros Hi Hc Hcap. split; simpl.
  - by apply Server.inv_init.
  - apply clients_inv_init.
  - done.
  - done.
  - apply NoDup_nil_2.
  - set_solver.
  - by intros [].
  - assert (∀ j pc, clients Clients.init !! j = Some pc → pc = Talking) as Ht.
    { intros j pc Hj. by apply lookup_replicate in Hj as [-> _]. }
    intros j [Hj|Hj]; by apply Ht in Hj.
Qed.
(** ** Runs are bounded *)

Definition echo_weight g : nat := server_weight (Z.to_nat kClients) (srv g) (in_call g) + sum_list_with pc_weight (clients (cli g)).

Lemma accept_weight must n cap a g s' :
  inv n cap g → can_answer p obeys fails conn must a g → answers p (accepted (srv g)) a → accept_step p a (srv g) = Some s' →
  (server_weight (Z.to_nat kClients) s' false < server_weight (Z.to_nat kClients) (srv g) (in_call g))%nat.
Proof using All.
  intros Hinv Ha Hans E. pose proof (accept_inv _ _ _ _ _ _ Hinv Ha Hans E) as [_ _ _ _ Hn Hi _ _]. simpl in Hn, Hi.
  assert (length (accepted s') ≤ Z.to_nat kClients)%nat as Hle.
  { apply NoDup_submseteq, submseteq_length in Hi; [|done]. unfold conns in Hi. by rewrite length_fmap, length_seq in Hi. }
  unfold accept_step in E. destruct (acc (srv g)) eqn:Hacc; simplify_eq. unfold server_weight. simpl in *. rewrite Hacc.
  unfold can_answer in Ha. destruct (on_answer p a) as [|fd| | | |]; try done; simpl in *;
    rewrite length_app in *; simpl in *; destruct (in_call g); lia.
Qed.

Lemma echo_step_weight must n cap g g' : inv n cap g → step must g g' → (echo_weight g' < echo_weight g)%nat.
Proof using All.
  intros Hinv Hst. pose proof Hinv as [Hs Hcl Hb _ _ _ _ _]. unfold echo_weight.
  destruct Hst as [Ha Hb'|a s' Ha Hans E|s' E|o s' Ho E|s' E|i s' E|i fd o s' Hw Ho _ E|j o c' Ho _ _ E|j c' E]; simpl.
  - unfold server_weight. rewrite Ha, Hb'. simpl. lia.
  - pose proof (accept_weight _ _ _ _ _ _ Hinv Ha Hans E). lia.
  - destruct (push_frame _ _ _ _ _ Hs E) as (Ha & _ & Hacc & Hws & Hl). unfold server_weight. rewrite Ha, Hacc, Hws, Hl.
    unfold push_step in E. destruct (acc (srv g)) as [|fd| | | |]; try done.
    destruct (in_call g); [by discriminate Hb|]. simpl. lia.
  - by destruct (no_reject _ _ _ _ _ Hs E).
  - unfold close_step in E. destruct (acc (srv g)) eqn:Ha; try done. injection E as <-. unfold server_weight. simpl.
    rewrite Ha, (proj1 (close_spec _)). simpl. lia.
  - pose proof (pop_weight (Z.to_nat kClients) i _ _ (in_call g) E). lia.
  - pose proof (handle_weight (Z.to_nat kClients) i _ _ _ (in_call g) E). lia.
  - assert (Clients.step (cli g) c') as Hc by (by eapply Clients.step_talk). apply clients_step_weight in Hc. lia.
  - assert (Clients.step (cli g) c') as Hc by (by eapply Clients.step_shut). apply clients_step_weight in Hc. lia.
Qed.

Lemma echo_run must n cap k g g' :
  inv n cap g → nsteps (step must) k g g' → inv n cap g' ∧ (k + echo_weight g' ≤ echo_weight g)%nat.
Proof using All.
  apply weighted_run. intros. split; [by eapply echo_inv_step|by eapply echo_step_weight].
Qed.

(** ** A program that cannot go on is over *)

Section stuck.
Context (n : nat) (cap : Z) (g : prog) (Hinv : inv n cap g) (Hn : (0 < n)%nat) (Hcap : 2 ≤ cap).
Context (Hstuck : ∀ g', ¬ step true g g').
(** no worker has failed, and a stop ends the accepting call *)
Context (Hworkers : ∀ i fd e, workers (srv g) !! i ≠ Some (Failed fd e)) (Hobeys : stopped g → obeys = true).

Lemma popped_conn fd : fd ∈ popped (srv g) → ∃ j, fd = conn j ∧ (j < Z.to_nat kClients)%nat.
Proof using All.
  intros Hp. assert (fd ∈ conns) as Hc.
  { apply (inv_conns _ _ _ Hinv). rewrite (inv_order _ _ _ (inv_srv _ _ _ Hinv)). apply elem_of_app. by left. }
  apply list_elem_of_fmap in Hc as (j & -> & Hj%elem_of_seq). exists j. split; [done|lia].
Qed.

(** no worker is handling: its client would go on, or it would *)
Lemma none_handling i fd : workers (srv g) !! i ≠ Some (Handling fd).
Proof using All.
  intros Hw. assert (fd ∈ popped (srv g)) as Hp.
  { rewrite (inv_hands _ _ _ (inv_srv _ _ _ Hinv)). apply elem_of_app. right. apply elem_of_app. left.
    apply list_elem_of_bind. exists (Handling fd). split; [by left|by eapply list_elem_of_lookup_2]. }
  destruct (popped_conn fd Hp) as (j & -> & Hj).
  destruct (decide (clients (cli g) !! j = Some Talking)) as [Ht|Ht].
  - destruct (can_end j) as [bs Hb]. eapply Hstuck, (step_talk _ _ _ _ _ _ j (Ret bs)); [done|done|by left|].
    unfold talk_step. by rewrite Ht.
  - eapply Hstuck, (step_handle _ _ _ _ _ _ i (conn j) (Ret ())); [done| | |].
    + apply serving_handles.
    + intros _ k Hk. apply conn_inj in Hk. by subst k.
    + unfold handle_step. by rewrite Hw.
Qed.

(** a worker is waiting for a connection, or has returned after the last one *)
Lemma worker_idle i pc : workers (srv g) !! i = Some pc → pc = Popping ∨ pc = Done ∧ bc_items (conn_ch (srv g)) = [].
Proof using All.
  intros Hw. destruct pc as [|fd| |fd e]; [by left|by destruct (none_handling i fd)| |].
  - right. split; [done|]. apply (inv_done _ _ _ (inv_srv _ _ _ Hinv)). by eapply list_elem_of_lookup_2.
  - by destruct (Hworkers i fd e).
Qed.

Lemma queue_empty : bc_items (conn_ch (srv g)) = [].
Proof using All.
  destruct (lookup_lt_is_Some_2 (workers (srv g)) 0) as [pc Hw]; [by rewrite (inv_workers _ _ _ (inv_srv _ _ _ Hinv))|].
  destruct (worker_idle _ _ Hw) as [->|[_ ?]]; [|done].
  destruct (bc_items (conn_ch (srv g))) as [|fd fds] eqn:Hi; [done|]. exfalso.
  destruct (pop_item _ _ _ Hi) as (ch & E & _). eapply Hstuck, (step_pop _ _ _ _ _ _ 0).
  unfold pop_step. rewrite Hw. simpl. by rewrite E.
Qed.

(** every accepted connection has been popped, unless one is being pushed *)
Lemma client_settled j :
  clients (cli g) !! j = Some Talking → conn j ∈ accepted (srv g) → held (acc (srv g)) = [] → False.
Proof using All.
  intros Ht Ha Hh. rewrite (inv_order _ _ _ (inv_srv _ _ _ Hinv)), queue_empty, Hh, app_nil_r in Ha.
  destruct (can_end j) as [bs Hb]. eapply Hstuck, (step_talk _ _ _ _ _ _ j (Ret bs)); [done|done|by left|].
  unfold talk_step. by rewrite Ht.
Qed.

Lemma none_shutting j : clients (cli g) !! j ≠ Some Shutting.
Proof using All.
  intros Hj. eapply Hstuck, (step_shut _ _ _ _ _ _ j). unfold shut_step. by rewrite Hj.
Qed.

(** the accept loop does not wait: a client is still to come, or all are gone *)
Lemma not_accepting : acc (srv g) ≠ Accepting.
Proof using All.
  intros Ha. assert (¬ (shutdowns (cli g) ≠ [] ∨ stopped g)) as Hno.
  { intros Hc. destruct (serving_end (p := p) (accepted (srv g))) as (a & Hans & Hon).
    eapply Hstuck, (step_accept _ _ _ _ _ _ a); [|done|unfold accept_step; by rewrite Ha].
    unfold can_answer. rewrite Hon. destruct Hc as [?|Hc]; [by left|right; left]. split; [done|]. intros _. by apply Hobeys. }
  destruct (decide (Forall (eq Gone) (clients (cli g)))) as [Hg|Hg].
  - apply Hno. left. destruct (inv_cli _ _ _ Hinv) as [Hlen Hc Hl].
    rewrite decide_True in Hl; [intros He; rewrite He in Hl; simpl in Hl; by rewrite gone_shutting in Hl|].
    rewrite Hc, gone_counted, Hlen by done. done.
  - apply not_Forall_Exists, Exists_exists in Hg as (pc & (j & Hj)%list_elem_of_lookup & Hpc); [|apply _].
    destruct pc as [| | |e]; [|by destruct (none_shutting j)|done|apply Hno; right; left; by exists j, e].
    destruct (decide (conn j ∈ accepted (srv g))) as [Hin|Hnin].
    + by apply (client_settled j); [..|rewrite Ha].
    + destruct (serving_conn (p := p) (accepted (srv g)) (conn j)) as (a & Hans & Hon); [done|].
      eapply Hstuck, (step_accept _ _ _ _ _ _ a); [|done|unfold accept_step; by rewrite Ha].
      unfold can_answer. rewrite Hon. exists j. auto.
Qed.

Lemma loop_returned : acc (srv g) = Returned.
Proof using All.
  pose proof (inv_srv _ _ _ Hinv) as Hs. destruct (acc (srv g)) as [|fd|fd| | |e] eqn:Ha; [| | | |done|].
  - by destruct not_accepting.
  - exfalso. assert (bc_closed (conn_ch (srv g)) = false) as Hop.
    { destruct (bc_closed _) eqn:Hc; [|done]. apply (inv_closed _ _ _ Hs) in Hc. congruence. }
    destruct (push_room fd (conn_ch (srv g)) Hop) as (ch & E & _);
      [rewrite queue_empty, (inv_capacity _ _ _ Hs); simpl; lia|].
    eapply Hstuck, step_push. unfold push_step. rewrite Ha. simpl. by rewrite E.
  - by destruct (inv_refused _ _ _ Hs fd).
  - exfalso. eapply Hstuck, step_close. unfold close_step. by rewrite Ha.
  - by destruct (inv_threw _ _ _ Hinv e).
Qed.

Lemma workers_returned : Forall (eq Done) (workers (srv g)).
Proof using All.
  apply Forall_lookup. intros i pc Hw. destruct (worker_idle _ _ Hw) as [->|[-> _]]; [|done]. exfalso.
  eapply Hstuck, (step_pop _ _ _ _ _ _ i). unfold pop_step. rewrite Hw. simpl.
  assert (bc_closed (conn_ch (srv g)) = true) as Hc by apply (inv_closed _ _ _ (inv_srv _ _ _ Hinv)), loop_returned.
  unfold pop. by rewrite bc_pop_try, bc_try_pop_none by (apply queue_empty || by (left + right)).
Qed.

(** a client that the loop left behind when accepting failed *)
Definition left_out (j : nat) : Prop :=
  fails = true ∧ (conn j ∉ accepted (srv g)) ∧ shutdowns (cli g) = [] ∧ ¬ stopped g.

Lemma client_over j pc :
  clients (cli g) !! j = Some pc → pc = Gone ∨ (∃ e, pc = Left e) ∨ (pc = Talking ∧ left_out j).
Proof using All.
  intros Hj. destruct pc as [| | |e]; [|by destruct (none_shutting j)|by left|right; left; by exists e].
  assert (¬ stopped g) as Hns.
  { intros Hst. eapply Hstuck, (step_talk _ _ _ _ _ _ j (Exn (SystemError 125)));
      [|done|by right|unfold talk_step; by rewrite Hj].
    by exists (constant_kernel (-125)), []. }
  assert (shutdowns (cli g) = []) as Hsh.
  { destruct (inv_cli _ _ _ Hinv) as [Hlen Hc Hl]. pose proof (clients_counted_le (clients (cli g))).
    destruct (shutdowns (cli g)) eqn:Es; [done|exfalso].
    assert (Forall (eq Gone) (clients (cli g))) as Hg.
    { apply all_gone; simpl in *; try done; case_decide; unfold kClients in *; lia. }
    rewrite Forall_lookup in Hg. by specialize (Hg _ _ Hj). }
  right. right. split; [done|]. split.
  - by destruct (inv_end _ _ _ Hinv) as [?|[?|?]]; [right; apply loop_returned|..].
  - split; [|done]. intros Ha. apply (client_settled j Hj Ha). by rewrite loop_returned.
Qed.

Lemma all_handled : accepted (srv g) ≡ₚ handled (srv g) ∧ accepted (srv g) = popped (srv g).
Proof using All.
  pose proof (inv_srv _ _ _ Hinv) as Hs. pose proof workers_returned as Hd.
  assert (workers (srv g) ≫= busy = []) as Hb by (clear -Hd; induction Hd as [|? ? <- _ IH]; done).
  rewrite (inv_order _ _ _ Hs), queue_empty, loop_returned. simpl. rewrite app_nil_r. split; [|done].
  by rewrite (inv_hands _ _ _ Hs), Hb, all_done_dropped, !app_nil_r.
Qed.

Definition client_end (pc : client_pc) : Prop := pc = Gone ∨ ∃ e, pc = Left e.

(** all clients are over, unless accepting failed of itself *)
Lemma clients_over : fails = false ∨ shutdowns (cli g) ≠ [] ∨ stopped g → Forall client_end (clients (cli g)).
Proof using All.
  intros Hno. apply Forall_lookup. intros j pc Hj. unfold client_end, left_out in *.
  destruct (client_over _ _ Hj) as [?|[?|(_ & Hf & _ & Hsh & Hns)]]; [by left|by right|].
  destruct Hno as [?|[?|?]]; congruence.
Qed.

(** with no failure, everyone was served *)
Lemma all_served :
  Forall client_end (clients (cli g)) → ¬ stopped g →
  handled (srv g) ≡ₚ conns ∧ length (shutdowns (cli g)) = 1%nat.
Proof using All.
  intros Hover Hns. assert (Forall (eq Gone) (clients (cli g))) as Hg.
  { apply Forall_lookup. intros j pc Hj. rewrite Forall_lookup in Hover.
    destruct (Hover _ _ Hj) as [->|[e ->]]; [done|]. destruct Hns. left. by exists j, e. }
  destruct all_handled as [Hh Hp]. destruct (inv_cli _ _ _ Hinv) as [Hlen Hcnt Hl]. split.
  - rewrite <-Hh. apply NoDup_Permutation; [by apply (inv_once _ _ _ Hinv)| |].
    { apply NoDup_fmap; [done|]. apply NoDup_seq. }
    intros fd. split; [by apply (inv_conns _ _ _ Hinv)|]. rewrite Hp.
    intros (j & -> & Hj%elem_of_seq)%list_elem_of_fmap. apply (inv_echo _ _ _ Hinv). left.
    destruct (lookup_lt_is_Some_2 (clients (cli g)) j) as [pc Hpc]; [lia|].
    rewrite Forall_lookup in Hg. by rewrite <-(Hg _ _ Hpc) in Hpc.
  - rewrite gone_shutting, decide_True in Hl; [lia| |done]. by rewrite Hcnt, gone_counted, Hlen.
Qed.

Lemma all_over :
  acc (srv g) = Returned ∧ Forall (eq Done) (workers (srv g)) ∧ accepted (srv g) ≡ₚ handled (srv g).
Proof using All. split; [apply loop_returned|]. split; [apply workers_returned|]. apply all_handled. Qed.
End stuck.

(** a run from the start keeps the invariant and is short *)
Lemma echo_bound must ch k g :
  channel_new 8 = Ret ch → nsteps (step must) k (start kWorkers ch) g →
  inv kWorkers (bc_capacity ch) g ∧ (k ≤ 64)%nat ∧ 2 ≤ bc_capacity ch.
Proof using All.
  intros Hch Hk. destruct (channel_new_ok (T := Z) 8) as (ch' & Hch' & Habs & Hlim); [lia|].
  rewrite Hch in Hch'. injection Hch' as <-. injection Habs as Hi Hc.
  destruct (echo_run must kWorkers (bc_capacity ch) k (start kWorkers ch) g) as [Hinv Hw];
    [by apply echo_inv_start; [done..|lia]|done|].
  split; [done|]. split; [|lia].
  unfold echo_weight at 2, server_weight in Hw. simpl in Hw. rewrite Hi in Hw. simpl in Hw. lia.
Qed.
End theory.

(** a step of the program is one of the server, or leaves it alone *)
Lemma step_cases {B : BufferedChannel Z} p obeys fails conn must g g' :
  step p obeys fails conn must g g' → Server.step p (srv g) (srv g') ∨ srv g' = srv g.
Proof.
  intros [Ha Hb|a s' Ha Hans E|s' E|o s' Ho E|s' E|i s' E|i fd o s' Hw Ho _ E|j o c' Ho Hr _ E|j c' E]; simpl;
    [by right|left..|by right|by right].
  - by eapply Server.step_accept.
  - by eapply Server.step_push.
  - by eapply Server.step_reject.
  - by eapply Server.step_close.
  - by apply (Server.step_pop _ _ _ i).
  - by eapply (Server.step_handle _ _ _ i).
Qed.

Lemma pool_run_clean {B : BufferedChannel Z} server_fd obeys fails conn must k g g' :
  clean (srv g) → nsteps (step (pool_program server_fd) obeys fails conn must) k g g' → clean (srv g').
Proof.
  intros Hc Hk. induction Hk as [|k g1 g2 g3 Hst _ IH]; [done|]. apply IH.
  destruct (step_cases _ _ _ _ _ _ _ Hst) as [Hs| ->]; [by eapply pool_clean_step|done].
Qed.

(** the loop has left with nothing accepted, and every client waits *)
Definition stranded {B : BufferedChannel Z} (g : prog) : Prop :=
  ended (acc (srv g)) ∧ cli g = Clients.init ∧ accepted (srv g) = [] ∧ popped (srv g) = []
  ∧ bc_items (conn_ch (srv g)) = [] ∧ Forall (λ pc, pc = Popping ∨ pc = Done) (workers (srv g)).

Lemma stranded_step {B : BufferedChannel Z} {HB : BufferedChannelLaws Z B} p obeys fails conn g1 g2 :
  stranded g1 → step p obeys fails conn true g1 g2 → stranded g2.
Proof.
  intros (He & Hc & Ha & Hp & Hit & Hf) Hst. unfold stranded. rewrite Forall_lookup in Hf.
  assert (∀ j pc, clients (cli g1) !! j = Some pc → pc = Talking) as Ht.
  { intros j pc Hj. rewrite Hc in Hj. by apply lookup_replicate in Hj as [-> _]. }
  destruct Hst as [Hacc _|a s' _ _ E|s' E|o s' _ E|s' E|i s' E|i fd o s' Hw _ _ _|j o c' Ho _ Hr E|j c' E]; simpl.
  - by destruct He as [He|He]; rewrite He in Hacc.
  - unfold accept_step in E. by destruct He as [He|He]; rewrite He in E.
  - unfold push_step in E. by destruct He as [He|He]; rewrite He in E.
  - unfold reject_step in E. by destruct He as [He|He]; rewrite He in E.
  - unfold close_step in E. destruct (acc (srv g1)); simplify_eq. simpl. rewrite (proj1 (close_spec _)), Forall_lookup.
    split; [by right|done].
  - unfold pop_step in E. destruct (workers (srv g1) !! i) as [[]|]; simplify_eq/=.
    destruct (pop (conn_ch (srv g1))) as [[[r v] ch']|] eqn:Ep; simplify_eq/=.
    destruct (pop_cases _ _ _ _ Ep) as [(fd & fds & Hit' & _)|(_ & _ & -> & -> & ->)]; [congruence|].
    simpl. rewrite Hp. repeat (split; [done|]). apply Forall_insert; [by apply Forall_lookup|by right].
  - by destruct (Hf _ _ Hw).
  - exfalso. destruct (Hr eq_refl) as [Hin|[(k & e & Hk)|(k & fd & e & Hk)]];
      [rewrite Hp in Hin; set_solver|by apply Ht in Hk|by destruct (Hf _ _ Hk)].
  - exfalso. unfold shut_step in E. destruct (clients (cli g1) !! j) as [pc|] eqn:Hj; [|done].
    by rewrite (Ht _ _ Hj) in E.
Qed.

(** the accepting fiber is suspended, every connection was accepted, and a
    client has failed before it was counted *)
Definition abandoned {B : BufferedChannel Z} (conn : nat → Z) (g : prog) : Prop :=
  in_call g = true ∧ conns conn ⊆ accepted (srv g) ∧ ∃ j e, clients (cli g) !! j = Some (Left e).

(** a failed client is never counted, so nobody shuts the socket down *)
Lemma left_no_shutdown c j e : Clients.inv c → clients c !! j = Some (Left e) → shutdowns c = [].
Proof.
  intros [Hlen Hc Hl] Hj. destruct (shutdowns c) eqn:Hsh; [done|exfalso]. simpl in Hl.
  pose proof (clients_counted_le (clients c)).
  assert (Forall (eq Gone) (clients c)) as Hg by (apply all_gone; case_decide; unfold kClients in *; lia).
  rewrite Forall_lookup in Hg. by specialize (Hg _ _ Hj).
Qed.

Lemma abandoned_step {B : BufferedChannel Z} {HB : BufferedChannelLaws Z B} p {SP : Serving p} conn must n cap g g' :
  inv false conn n cap g → abandoned conn g → step p false false conn must g g' → abandoned conn g'.
Proof.
  intros Hinv (Hcall & Hall & Hleft) Hst. pose proof Hleft as (j & e & Hj). pose proof (inv_call _ _ _ _ _ Hinv Hcall) as Hacc.
  destruct Hst as [_ Hb|a s' Ha _ _|s' E|o s' _ E|s' E|i s' E|i fd o s' Hw _ _ E|k o c' Ho _ _ E|k c' E]; simpl.
  - congruence.
  - exfalso. unfold can_answer in Ha. destruct (on_answer p a) as [|fd| | | |]; try done.
    + destruct Ha as (k & -> & Hnew & Hk). apply Hnew, Hall, list_elem_of_fmap. exists k. split; [done|].
      apply elem_of_seq. rewrite <-(inv_clients _ (inv_cli _ _ _ _ _ Hinv)).
      split; [lia|]. destruct Hk as [?|(_ & e' & ?)]; by eapply lookup_lt_Some.
    + destruct Ha as [Ha|[[_ Ha]|[_ Ha]]]; [|by discriminate Ha|done].
      apply Ha. by apply (left_no_shutdown _ _ _ (inv_cli _ _ _ _ _ Hinv) Hj).
  - unfold push_step in E. by rewrite Hacc in E.
  - unfold reject_step in E. by rewrite Hacc in E.
  - unfold close_step in E. by rewrite Hacc in E.
  - destruct (pop_frame i _ _ E) as (Ha & _). split; [done|]. simpl. by rewrite Ha.
  - destruct (served_frame i _ _ _ E) as (Ha & _). split; [done|]. simpl. by rewrite Ha.
  - split; [done|]. split; [done|]. exists j, e. assert (Clients.step (cli g) c') as Hs by (by eapply Clients.step_talk).
    by apply (proj1 (clients_frame _ _ Hs)).
  - split; [done|]. split; [done|]. exists j, e. assert (Clients.step (cli g) c') as Hs by (by eapply Clients.step_shut).
    by apply (proj1 (clients_frame _ _ Hs)).
Qed.

(** ** Properties *)

Section properties.
Context {B : BufferedChannel Z}.

(** C8: echo_server_pool terminates, and serves everyone.  With its four
    workers, its channel and its eight clients, however the fibers interleave
    and however the clients' calls, the connections and the accepting calls end:
    no run is longer than 64 steps.  In a state in which nothing more must
    happen, the accept loop and all workers have returned, and every accepted
    connection has been handled exactly once.  That state is the end of the
    program, with every client finished or failed, unless an [async_accept]
    failed of itself ([fails]) before the socket was shut down and with no stop
    requested: the loop has then left, and the clients that wait for ever are
    ones whose connection it never accepted.  If all clients are over and none
    failed, all eight connections were handled, and the listening socket was
    shut down exactly once. *)
Theorem echo_server_terminates (HB : BufferedChannelLaws Z B) server_fd fails conn ch k g :
  Inj (=) (=) conn → (∀ j, 0 ≤ conn j) → channel_new 8 = Ret ch →
  nsteps (step (pool_program server_fd) true fails conn false) k (start kWorkers ch) g →
  (k ≤ 64)%nat
  ∧ ((∀ g', ¬ step (pool_program server_fd) true fails conn true g g') →
     (acc (srv g) = Returned ∧ Forall (eq Done) (workers (srv g)) ∧ accepted (srv g) ≡ₚ handled (srv g))
     ∧ (fails = false ∨ shutdowns (cli g) ≠ [] ∨ stopped g → Forall client_end (clients (cli g)))
     ∧ (∀ j, clients (cli g) !! j = Some Talking → conn j ∉ accepted (srv g))
     ∧ (Forall client_end (clients (cli g)) → ¬ stopped g →
          handled (srv g) ≡ₚ conns conn ∧ length (shutdowns (cli g)) = 1%nat)).
Proof.
  intros Hinj Hpos Hch Hk. destruct (echo_bound _ _ _ _ Hinj Hpos _ _ _ _ Hch Hk) as (Hinv & Hw & Hcap). split; [done|].
  intros Hstuck. assert (0 < kWorkers)%nat as Hn by (unfold kWorkers; lia).
  assert (∀ i fd e, workers (srv g) !! i ≠ Some (Failed fd e)) as Hf.
  { destruct (pool_run_clean server_fd true fails conn false k (start kWorkers ch) g) as [_ Hc];
      [split; [done|by apply Forall_replicate]|done|].
    intros i fd e Hi. rewrite Forall_lookup in Hc. by destruct (Hc _ _ Hi fd e). }
  split; [exact (all_over _ _ _ _ Hinj Hpos _ _ g Hinv Hn Hcap Hstuck Hf (λ _, eq_refl))|].
  split; [exact (clients_over _ _ _ _ Hinj Hpos _ _ g Hinv Hn Hcap Hstuck Hf (λ _, eq_refl))|].
  split; [|exact (all_served _ _ _ _ Hinj Hpos _ _ g Hinv Hn Hcap Hstuck Hf (λ _, eq_refl))].
  intros j Hj. destruct (client_over _ _ _ _ Hinj Hpos _ _ g Hinv Hn Hcap Hstuck Hf (λ _, eq_refl) _ _ Hj)
    as [|[[e ?]|(_ & _ & ? & _)]]; done.
Qed.

(** C10: echo_server_multishot terminates when nothing fails.  Its accept loop
    takes the connections from a multishot accept, which ends only by the
    shutdown or a stop; no run of the program is
    longer than 64 steps, however its fibers interleave and fail; and a state in
    which nothing more must happen, with no client and no worker failed, is the
    end of the program: the loop and the workers have returned, every client
    has its echo, each of the eight connections was handled exactly once, and
    the listening socket was shut down exactly once. *)
Theorem multishot_server_terminates (HB : BufferedChannelLaws Z B) conn ch k g :
  Inj (=) (=) conn → (∀ j, 0 ≤ conn j) → channel_new 8 = Ret ch →
  nsteps (step multishot_program false false conn false) k (start kWorkers ch) g →
  (k ≤ 64)%nat
  ∧ ((∀ g', ¬ step multishot_program false false conn true g g') → ¬ stopped g →
     acc (srv g) = Returned ∧ Forall (eq Done) (workers (srv g)) ∧ Forall (eq Gone) (clients (cli g))
     ∧ handled (srv g) ≡ₚ conns conn ∧ length (shutdowns (cli g)) = 1%nat).
Proof.
  intros Hinj Hpos Hch Hk. destruct (echo_bound _ _ _ _ Hinj Hpos _ _ _ _ Hch Hk) as (Hinv & Hw & Hcap). split; [done|].
  intros Hstuck Hns. assert (0 < kWorkers)%nat as Hn by (unfold kWorkers; lia).
  assert (∀ i fd e, workers (srv g) !! i ≠ Some (Failed fd e)) as Hf.
  { intros i fd e Hi. apply Hns. right. by exists i, fd, e. }
  assert (stopped g → false = true) as Hob by done.
  destruct (all_over _ _ _ _ Hinj Hpos _ _ g Hinv Hn Hcap Hstuck Hf Hob) as (? & ? & _).
  pose proof (clients_over _ _ _ _ Hinj Hpos _ _ g Hinv Hn Hcap Hstuck Hf Hob (or_introl eq_refl)) as Hover.
  split; [done|]. split; [done|].
  split; [|exact (all_served _ _ _ _ Hinj Hpos _ _ g Hinv Hn Hcap Hstuck Hf Hob Hover Hns)].
  apply Forall_lookup. intros j pc Hj. rewrite Forall_lookup in Hover.
  destruct (Hover _ _ Hj) as [->|[e ->]]; [done|]. destruct Hns. left. by exists j, e.
Qed.

(** C39: a failing client hangs echo_server_multishot.  Once the eight
    connections are accepted and the accepting fiber is suspended in [next]
    again, a client whose call fails leaves without being counted: the last
    client never shuts the socket down, and the stop [when_all] requests does
    not end the wait.  From then on, whatever the fibers do, the accepting fiber
    stays suspended, the channel stays open and no worker returns, so
    [sync_wait] never does. *)
Theorem multishot_client_failure_hangs (HB : BufferedChannelLaws Z B) conn ch g g' :
  Inj (=) (=) conn → (∀ j, 0 ≤ conn j) → channel_new 8 = Ret ch →
  rtc (step multishot_program false false conn false) (start kWorkers ch) g →
  in_call g = true → conns conn ⊆ accepted (srv g) → (∃ j e, clients (cli g) !! j = Some (Left e)) →
  rtc (step multishot_program false false conn false) g g' →
  acc (srv g') = Accepting ∧ in_call g' = true ∧ bc_closed (conn_ch (srv g')) = false ∧ Done ∉ workers (srv g').
Proof.
  intros Hinj Hpos Hch (k & Hk)%rtc_nsteps Hcall Hall Hleft Hrun.
  destruct (echo_bound _ _ _ _ Hinj Hpos _ _ _ _ Hch Hk) as (Hinv & _ & _).
  assert (abandoned conn g) as Hab by done. clear Hk Hcall Hall Hleft.
  assert (inv false conn kWorkers (bc_capacity ch) g' ∧ abandoned conn g') as [Hinv' (Hcall & _)].
  { induction Hrun as [|g1 g2 g3 Hst _ IH]; [done|]. apply IH;
      [by apply (echo_inv_step multishot_program false false conn Hinj Hpos false _ _ g1)|by apply (abandoned_step multishot_program conn false kWorkers (bc_capacity ch) g1)]. }
  pose proof (inv_call _ _ _ _ _ Hinv' Hcall) as Hacc. split; [done|]. split; [done|].
  destruct (inv_srv _ _ _ _ _ Hinv') as [_ _ _ Hcl _ _ Hd _]. split.
  - destruct (bc_closed _); [|done]. apply proj1 in Hcl. specialize (Hcl eq_refl). congruence.
  - intros [Hr _]%Hd. congruence.
Qed.

(** An accept error that is not the shutdown strands the clients.  The loop
    catches every [std::system_error] and leaves.  When the first
    [async_accept] fails (with EMFILE, say), nothing that must happen from
    then on ends a client: all eight wait for an echo for ever, and
    [when_all] with them. *)
Theorem accept_error_strands (HB : BufferedChannelLaws Z B) server_fd fails conn ch code n s1 g :
  accept_step (pool_program server_fd) (Exn (SystemError code)) (Server.init n ch) = Some s1 →
  bc_items ch = [] →
  rtc (step (pool_program server_fd) true fails conn true) (Prog s1 Clients.init false) g →
  cli g = Clients.init ∧ accepted (srv g) = [].
Proof.
  intros E Hi Hrun. injection E as <-.
  assert (stranded g) as (_ & ? & ? & _); [|done].
  assert (stranded (Prog (log_accepted Closing (set_acc ch Closing (Server.init n ch))) Clients.init false)) as H0.
  { split; [by left|]. repeat (split; [done|]). apply Forall_replicate. by left. }
  induction Hrun; eauto using stranded_step.
Qed.
End properties.

(** ** Witnesses *)

Section witnesses.
Import ListChannel.
Abbreviation program := (@prog list_channel).

Inductive move :=
  | MCall | MAccept (j : nat) | MPush | MPop (i : nat) | MTalk (j : nat) | MHandle (i : nat) | MShut (j : nat)
  | MLeave (j : nat) | MEnd | MFail | MClose.

(** the moves on a program [p]: [got fd] and [over] are answers of its accepting call *)
Section driver.
Context (p : Server.program) (obeys fails : bool) {SP : Serving p}.
Context (got : Z → answer_type p) (over : answer_type p).
Context (Hgot : ∀ l fd, 0 ≤ fd → answers p l (got fd) ∧ on_answer p (got fd) = Pushing fd).
Context (Hover : ∀ l, answers p l over ∧ on_answer p over = Closing).

Definition on_srv (b : bool) (g : program) (s : option Server.st) : option program := s ← s; Some (Prog s (cli g) b).
Definition on_cli (g : program) (c : option Clients.st) : option program := c ← c; Some (Prog (srv g) c (in_call g)).

Definition drive (m : move) (g : program) : option program :=
  match m with
  | MCall => match acc (srv g), in_call g with
             | Accepting, false => Some (Prog (srv g) (cli g) true)
             | _, _ => None
             end
  | MAccept j =>
      if bool_decide (clients (cli g) !! j = Some Talking ∧ Z.of_nat j ∉ accepted (srv g))
      then on_srv false g (accept_step p (got (Z.of_nat j)) (srv g)) else None
  | MPush => on_srv (in_call g) g (push_step p (srv g))
  | MPop i => on_srv (in_call g) g (pop_step i (srv g))
  | MTalk j => if bool_decide (Z.of_nat j ∈ popped (srv g)) then on_cli g (talk_step j (Ret []) (cli g)) else None
  | MHandle i => match workers (srv g) !! i with
                 | Some (Handling _) => on_srv (in_call g) g (handle_step i (Ret ()) (srv g))
                 | _ => None
                 end
  | MShut j => on_cli g (shut_step j (cli g))
  | MLeave j => on_cli g (talk_step j (Exn (SystemError 104)) (cli g))
  | MEnd => if bool_decide (shutdowns (cli g) ≠ []) then on_srv false g (accept_step p over (srv g)) else None
  | MFail => if fails then on_srv false g (accept_step p over (srv g)) else None
  | MClose => on_srv (in_call g) g (close_step (srv g))
  end.

Lemma drive_step m g g' : drive m g = Some g' → step p obeys fails Z.of_nat false g g'.
Proof using All.
  destruct m as [|j| |i|j|i|j|j| | |]; simpl; unfold on_srv, on_cli.
  - destruct (acc (srv g)) eqn:Ha; try done. destruct (in_call g) eqn:Hc; [done|]. intros [= <-]. by apply step_call.
  - case_bool_decide as Hj; [|done]. intros (s & E & [= <-])%bind_Some. destruct Hj as [Hj Hnew].
    destruct (Hgot (accepted (srv g)) (Z.of_nat j)) as [Hans Hon]; [lia|].
    eapply (step_accept _ _ _ _ _ _ (got (Z.of_nat j))); [|done|done]. unfold can_answer. rewrite Hon. exists j. auto.
  - intros (s & E & [= <-])%bind_Some. by apply step_push.
  - intros (s & E & [= <-])%bind_Some. by apply (step_pop _ _ _ _ _ _ i).
  - case_bool_decide as Hj; [|done]. intros (s & E & [= <-])%bind_Some.
    apply (step_talk _ _ _ _ _ _ j (Ret [])); [by exists (constant_kernel 0), []|done..].
  - destruct (workers (srv g) !! i) as [[]|] eqn:Hw; try done. intros (s & E & [= <-])%bind_Some.
    eapply (step_handle _ _ _ _ _ _ i _ (Ret ())); [done|apply serving_handles|done|done].
  - intros (s & E & [= <-])%bind_Some. by apply (step_shut _ _ _ _ _ _ j).
  - intros (s & E & [= <-])%bind_Some.
    apply (step_talk _ _ _ _ _ _ j (Exn (SystemError 104))); [by exists (constant_kernel (-104)), []|done..].
  - case_bool_decide as Hj; [|done]. intros (s & E & [= <-])%bind_Some.
    destruct (Hover (accepted (srv g))) as [Hans Hon].
    eapply (step_accept _ _ _ _ _ _ over); [|done|done]. unfold can_answer. rewrite Hon. by left.
  - destruct fails eqn:Hf; [|done]. intros (s & E & [= <-])%bind_Some.
    destruct (Hover (accepted (srv g))) as [Hans Hon].
    eapply (step_accept _ _ _ _ _ _ over); [|done|done]. unfold can_answer. rewrite Hon. by do 2 right.
  - intros (s & E & [= <-])%bind_Some. by apply step_close.
Qed.

Definition drive_all : list move → program → option program := run_schedule drive.

Lemma drive_nsteps ms g g' : drive_all ms g = Some g' → nsteps (step p obeys fails Z.of_nat false) (length ms) g g'.
Proof using All. apply schedule_nsteps, drive_step. Qed.
End driver.

(** the clients come one after the other, and take turns with the workers *)
Definition serving (j : nat) : list move :=
  [MCall; MAccept j; MPush; MPop (j `mod` 4); MTalk j; MHandle (j `mod` 4)].
Definition whole_run : list move :=
  (seq 0 8 ≫= serving) ++ [MShut 7; MCall; MEnd; MClose] ++ (MPop <$> seq 0 4).

(** the second [async_accept] fails, with no client left behind in the queue *)
Definition cut_short : list move := serving 0 ++ [MCall; MFail; MClose] ++ (MPop <$> seq 0 4).

(** the connection of the last client is reset before its echo *)
Definition failing_run : list move :=
  (seq 0 7 ≫= serving) ++ [MCall; MAccept 7; MPush; MCall; MLeave 7].

Definition fresh_channel : bchan (T := Z) := Eval vm_compute in
  match channel_new (T := Z) 8 with Ret ch => ch | _ => Chan [] 2 false end.
Abbreviation fresh := (start kWorkers fresh_channel).

Definition at_end : program := Eval vm_compute in
  default fresh (drive_all (pool_program 3) true Ret (Exn (SystemError 22)) whole_run fresh).
Definition at_cut : program := Eval vm_compute in
  default fresh (drive_all (pool_program 3) true Ret (Exn (SystemError 24)) cut_short fresh).

Abbreviation multishot_drive := (drive_all multishot_program false (λ fd, Ret (Some fd)) (Ret None)).
Definition multishot_left : program := Eval vm_compute in default fresh (multishot_drive failing_run fresh).

Lemma pool_got l fd :
  0 ≤ fd → answers (pool_program 3) l (Ret fd) ∧ on_answer (pool_program 3) (Ret fd) = Pushing fd.
Proof. intros Hfd. split; [|done]. split; [done|]. exists (constant_kernel fd), []. by apply constant_accept. Qed.

Lemma pool_over code l :
  0 < code →
  answers (pool_program 3) l (Exn (SystemError code)) ∧ on_answer (pool_program 3) (Exn (SystemError code)) = Closing.
Proof.
  intros Hc. split; [|done]. split; [done|]. exists (constant_kernel (- code)), []. simpl.
  unfold io_accept. erewrite async_bind_exn by (try done; simpl; lia). simpl. by rewrite Z.opp_involutive.
Qed.

Lemma multishot_got l fd :
  0 ≤ fd → answers multishot_program l (Ret (Some fd)) ∧ on_answer multishot_program (Ret (Some fd)) = Pushing fd.
Proof. intros Hfd. split; [|done]. exists fd. by apply next_end_fd. Qed.

Lemma multishot_over l : answers multishot_program l (Ret None) ∧ on_answer multishot_program (Ret None) = Closing.
Proof. split; [|done]. by exists (- EINVAL). Qed.

Lemma at_end_stuck p obeys fails g' : ¬ step p obeys fails Z.of_nat true at_end g'.
Proof.
  intros Hst.
  assert (∀ i pc, workers (srv at_end) !! i = Some pc → pc = Done) as Hw.
  { intros i pc Hi. do 4 (destruct i as [|i]; [by injection Hi as <-|]). done. }
  assert (∀ j pc, clients (cli at_end) !! j = Some pc → pc = Gone) as Hc.
  { intros j pc Hj. do 8 (destruct j as [|j]; [by injection Hj as <-|]). done. }
  destruct Hst as [Ha _|a s' _ _ E|s' E|o s' _ E|s' E|i s' E|i fd o s' Hi _ _ _|j o c' _ _ _ E|j c' E]; try done.
  - unfold pop_step in E. destruct (workers (srv at_end) !! i) as [pc|] eqn:Hi; [|done]. by rewrite (Hw _ _ Hi) in E.
  - by apply Hw in Hi.
  - unfold talk_step in E. destruct (clients (cli at_end) !! j) as [pc|] eqn:Hj; [|done]. by rewrite (Hc _ _ Hj) in E.
  - unfold shut_step in E. destruct (clients (cli at_end) !! j) as [pc|] eqn:Hj; [|done]. by rewrite (Hc _ _ Hj) in E.
Qed.

Lemma at_end_fine : ¬ stopped at_end.
Proof.
  intros [(j & e & Hj)|(i & fd & e & Hi)].
  - do 8 (destruct j as [|j]; [by injection Hj|]). done.
  - do 4 (destruct i as [|i]; [by injection Hi|]). done.
Qed.

(** the loop has left, and the clients after the first wait for an echo *)
Lemma at_cut_stuck g' : ¬ step (pool_program 3) true true Z.of_nat true at_cut g'.
Proof.
  intros Hst.
  assert (∀ i pc, workers (srv at_cut) !! i = Some pc → pc = Done) as Hw.
  { intros i pc Hi. do 4 (destruct i as [|i]; [by injection Hi as <-|]). done. }
  assert (∀ j pc, clients (cli at_cut) !! j = Some pc → pc = Gone ∨ pc = Talking ∧ j ≠ 0%nat) as Hc.
  { intros j pc Hj. destruct j as [|j]; [injection Hj as <-; by left|].
    do 7 (destruct j as [|j]; [injection Hj as <-; by right|]). done. }
  destruct Hst as [Ha _|a s' _ _ E|s' E|o s' _ E|s' E|i s' E|i fd o s' Hi _ _ _|j o c' _ _ Hr E|j c' E]; try done.
  - unfold pop_step in E. destruct (workers (srv at_cut) !! i) as [pc|] eqn:Hi; [|done]. by rewrite (Hw _ _ Hi) in E.
  - by apply Hw in Hi.
  - unfold talk_step in E. destruct (clients (cli at_cut) !! j) as [pc|] eqn:Hj; [|done].
    destruct (Hc _ _ Hj) as [->|[-> Hj0]]; [done|].
    destruct (Hr eq_refl) as [Hp|[(k & e & Hk)|(k & fd & e & Hk)]]; [|by destruct (Hc _ _ Hk) as [?|[? _]]|by apply Hw in Hk].
    apply list_elem_of_singleton in Hp. lia.
  - unfold shut_step in E. destruct (clients (cli at_cut) !! j) as [pc|] eqn:Hj; [|done].
    by destruct (Hc _ _ Hj) as [->|[-> _]].
Qed.

Lemma echo_server_terminates_witness :
  ((56 ≤ 64)%nat ∧ acc (srv at_end) = Returned
   ∧ handled (srv at_end) ≡ₚ conns Z.of_nat ∧ length (shutdowns (cli at_end)) = 1%nat)
  ∧ (accepted (srv at_cut) ≡ₚ handled (srv at_cut) ∧ clients (cli at_cut) !! 1%nat = Some Talking
     ∧ Z.of_nat 1 ∉ accepted (srv at_cut)).
Proof.
  split.
  - destruct (echo_server_terminates list_channel_laws 3 true Z.of_nat fresh_channel 56 at_end) as (Hk & Hend);
      [apply _|lia|reflexivity|
       apply (drive_nsteps _ _ true _ _ pool_got (λ l, pool_over 22 l eq_refl) whole_run); vm_compute; reflexivity|].
    destruct (Hend (at_end_stuck _ _ _)) as ((Ha & _) & Hcl & _ & Hall). split; [exact Hk|]. split; [exact Ha|].
    apply Hall; [|apply at_end_fine]. apply Hcl. right. left. discriminate.
  - destruct (echo_server_terminates list_channel_laws 3 true Z.of_nat fresh_channel 13 at_cut) as (_ & Hend);
      [apply _|lia|reflexivity|
       apply (drive_nsteps _ _ true _ _ pool_got (λ l, pool_over 24 l eq_refl) cut_short); vm_compute; reflexivity|].
    destruct (Hend at_cut_stuck) as ((_ & _ & Hh) & _ & Hout & _). split; [exact Hh|].
    split; [reflexivity|]. apply Hout. reflexivity.
Defined.

Lemma multishot_server_terminates_witness :
  acc (srv at_end) = Returned ∧ handled (srv at_end) ≡ₚ conns Z.of_nat ∧ length (shutdowns (cli at_end)) = 1%nat.
Proof.
  destruct (multishot_server_terminates list_channel_laws Z.of_nat fresh_channel 56 at_end) as (_ & Hend);
    [apply _|lia|reflexivity|
     apply (drive_nsteps _ _ false _ _ multishot_got multishot_over whole_run); vm_compute; reflexivity|].
  destruct (Hend (at_end_stuck _ _ _) at_end_fine) as (Ha & _ & _ & Hall). split; [exact Ha|exact Hall].
Defined.

Lemma multishot_client_failure_hangs_witness :
  clients (cli multishot_left) !! 7%nat = Some (Left (SystemError 104)) ∧ acc (srv multishot_left) = Accepting
  ∧ Done ∉ workers (srv multishot_left).
Proof.
  destruct (multishot_client_failure_hangs list_channel_laws Z.of_nat fresh_channel multishot_left multishot_left)
    as (Ha & _ & _ & Hd); [apply _|lia|reflexivity| |reflexivity| |exists 7%nat, (SystemError 104); reflexivity|reflexivity|].
  - apply rtc_nsteps. eexists.
    apply (drive_nsteps _ _ false _ _ multishot_got multishot_over failing_run). vm_compute. reflexivity.
  - intros fd Hfd. vm_compute in Hfd |- *. exact Hfd.
  - split; [reflexivity|]. split; [exact Ha|exact Hd].
Defined.
End witnesses.
