(* ===== verification/FileServer.v ===== *)
(** * FileServer: examples/echo_to_file.cpp as a whole

    The accept loop, the four workers and the six test clients of the program.
    A handler draws a number from [g_next_id], writes what it receives to the
    log of that number, and the one that drew the last number shuts the
    listening socket down; the clients connect, send and close without waiting
    for the server.  As in [EchoServer], a fiber that fails makes
    [stdexec::when_all] ask the others to stop, which cancels the operations
    they wait for. *)

From S2P Require Import Prelude Cxx Uring Boost Channel AsyncIo Io Handlers MultishotAcceptor Server Clients.

Local Open Scope Z_scope.

(** ** The handler's shutdown *)

Definition is_shutdown (c : call) : bool := if c is SysShutdown _ then true else false.

(** how the handler that drew [id] ends, and whether it has shut the listening
    socket down *)
Definition handler_ends (server_fd id fd : Z) (o : outcome ()) (shut : bool) : Prop :=
  ∃ fuel (K : Kernel) g tr ext,
    file_handle_connection fuel fd server_fd (id, tr) = (o, (g, tr ++ ext)) ∧ shut = existsb is_shutdown ext.*1.

(** code that makes no [shutdown] call *)
Definition quiet {A} (m : cxx trace A) : Prop := ∀ tr, ∃ ext, (m tr).2 = tr ++ ext ∧ existsb is_shutdown ext.*1 = false.

Section quiet.
Context {K : Kernel}.

Lemma quiet_ret {A} (a : A) : quiet (mret a).
Proof. intros tr. exists []. by rewrite app_nil_r. Qed.

Lemma quiet_throw {A} e : quiet (throw e : cxx trace A).
Proof. intros tr. exists []. by rewrite app_nil_r. Qed.

Lemma quiet_bind {A C} (m : cxx trace A) (k : A → cxx trace C) :
  quiet m → (∀ a, quiet (k a)) → quiet (m ≫= k).
Proof.
  intros Hm Hk tr. destruct (Hm tr) as (ext & E & He). unfold mbind, cxx_mbind, cxx_bind.
  destruct (m tr) as [[a| | | |] tr']; simpl in *; subst tr'; try by exists ext.
  destruct (Hk a (tr ++ ext)) as (ext' & -> & He'). exists (ext ++ ext').
  by rewrite app_assoc, fmap_app, existsb_app, He, He'.
Qed.

Lemma quiet_issue c : is_shutdown c = false → quiet (issue c).
Proof.
  intros Hc tr. unfold issue. destruct (answer tr c); simpl; [|exists []; by rewrite app_nil_r].
  eexists. split; [done|]. simpl. by rewrite Hc.
Qed.

Lemma quiet_async_call c : is_shutdown c = false → quiet (async_call c).
Proof.
  intros Hc. apply quiet_bind; [by apply quiet_issue|]. intros r.
  destruct (r_res r <? 0); [apply quiet_throw|apply quiet_ret].
Qed.

Lemma quiet_try (m : cxx trace ()) : quiet m → quiet (try_system_error m).
Proof.
  intros Hm tr. destruct (Hm tr) as (ext & E & He). unfold try_system_error, catch.
  destruct (m tr) as [[| [] | | |] tr']; simpl in *; subst; by exists ext.
Qed.

Lemma quiet_log_loop fuel fd file_fd buf : quiet (log_loop fuel fd file_fd buf).
Proof.
  unfold log_loop. revert buf. induction fuel as [|fuel IH]; intros buf; simpl; [intros tr; exists []; by rewrite app_nil_r|].
  apply quiet_bind; [apply quiet_bind; [by apply quiet_async_call|intros; apply quiet_ret]|]. intros [n buf'].
  destruct (0 <? n); [|apply quiet_ret].
  apply quiet_bind; [apply quiet_bind; [by apply quiet_async_call|intros; apply quiet_ret]|]. intros _. apply IH.
Qed.

(** code of a fiber of the program, by how it ends and whether it has made a
    [shutdown] call *)
Definition ends_by (P : outcome () → bool → Prop) (m : cxx (Z * trace) ()) : Prop := ∀ g tr,
  ∃ g' ext, (m (g, tr)).2 = (g', tr ++ ext) ∧ P (m (g, tr)).1 (existsb is_shutdown ext.*1).

Lemma ends_quiet P {A} (m : cxx trace A) (k : A → cxx (Z * trace) ()) :
  quiet m → (∀ o, (∀ a, o ≠ Ret a) → P o false) → (∀ a, ends_by P (k a)) → ends_by P (lift m ≫= k).
Proof.
  intros Hm HP Hk g tr. destruct (Hm tr) as (ext & E & He). unfold mbind, cxx_mbind, cxx_bind, lift.
  destruct (m tr) as [[a|e| | |] tr1]; simpl in *; subst tr1;
    [|exists g, ext; (split; [done|]); rewrite He; by apply HP..].
  destruct (Hk a g (tr ++ ext)) as (g' & ext' & -> & HPk). exists g', (ext ++ ext').
  by rewrite app_assoc, fmap_app, existsb_app, He.
Qed.
End quiet.

(** a handler that returns has shut the socket down exactly when it drew the
    last number; one that does not return has not *)
Lemma handler_shuts server_fd id fd o shut :
  handler_ends server_fd id fd o shut →
  shut = match o with Ret _ => bool_decide (id = log_clients - 1) | _ => false end.
Proof.
  intros (fuel & K & g & tr & ext & E & ->). unfold file_handle_connection in E.
  set (P o shut := shut = match o : outcome () with Ret _ => bool_decide (id = log_clients - 1) | _ => false end).
  assert (∀ o, (∀ a, o ≠ Ret a) → P o false) as HP by (intros [[]| | | |] Ho; [by destruct (Ho ())|done..]).
  assert (∀ fd, quiet (io_close fd)) as Hclose.
  { intros fd'. apply quiet_bind; [by apply quiet_async_call|]. intros. apply quiet_ret. }
  match type of E with (_ ≫= ?k) _ = ?r => pose (m := k id); change (m (to_i32 (id + 1), tr) = r) in E end.
  assert (ends_by P m) as Hk.
  { apply ends_quiet; [apply quiet_bind; [by apply quiet_async_call|intros; apply quiet_ret]|done|]. intros file_fd.
    apply ends_quiet; [apply quiet_try, quiet_log_loop|done|]. intros _.
    apply ends_quiet; [done..|]. intros _. apply ends_quiet; [done..|]. intros _ g1 tr1. unfold P.
    destruct (decide (id = log_clients - 1)) as [Hid|Hid].
    - unfold mbind, cxx_mbind, cxx_bind, lift, syscall, issue, mbind, cxx_mbind, cxx_bind.
      destruct (answer tr1 _) as [r|]; simpl; [|exists g1, []; by rewrite app_nil_r].
      eexists g1, _. split; [done|]. simpl. by rewrite bool_decide_true.
    - exists g1, []. rewrite app_nil_r. split; [done|]. simpl. by rewrite bool_decide_false. }
  destruct (Hk (to_i32 (id + 1)) tr) as (g' & ext' & E1 & HP1).
  rewrite E in E1, HP1. simpl in E1, HP1. injection E1 as _ ->%app_inv_head. done.
Qed.

Lemma handler_can_end server_fd id fd : handler_ends server_fd id fd (Ret ()) (bool_decide (id = log_clients - 1)).
Proof.
  assert (∃ g ext, file_handle_connection (K := constant_kernel 0) 1 fd server_fd (id, []) = (Ret (), (g, [] ++ ext)))
    as (g & ext & E).
  { unfold file_handle_connection. destruct (decide (id = log_clients - 1)) as [Hid|Hid] eqn:Hd; eexists _, _.
    all: erewrite cxx_bind_ret by reflexivity; rewrite Hd; reflexivity. }
  assert (handler_ends server_fd id fd (Ret ()) (existsb is_shutdown ext.*1)) as H by (by exists 1%nat, (constant_kernel 0), g, [], ext).
  by rewrite <-(handler_shuts _ _ _ _ _ H).
Qed.

(** ** The program *)

(** where a client is: in its calls; returned; left by an exception *)
Inductive sender_pc := Sending | Sent | Lost (e : exn).

Definition kWorkers : nat := 4.

(** [fails] says whether [async_accept] may fail of itself (EMFILE,
    ECONNABORTED); [conn j] is the descriptor the server has for the connection
    of client [j] *)
Section program.
Context {B : BufferedChannel Z} (server_fd : Z) (fails : bool) (conn : nat → Z).
Abbreviation p := (file_program server_fd).

Record prog := Prog {
  srv : Server.st;
  ids : list (option Z);        (** the local [id] of each worker's handler *)
  g_next_id : Z;                (** [std::atomic<int>] *)
  senders : list sender_pc;
  shuts : list nat;             (** the workers that have called [shutdown(server_fd)] *)
  logs : list (Z * Z)           (** the connections and the numbers drawn for them, in order *)
}.

Definition set_srv (s : Server.st) (g : prog) : prog :=
  {| srv := s; ids := ids g; g_next_id := g_next_id g; senders := senders g; shuts := shuts g; logs := logs g |}.

(** line 57: [g_next_id.fetch_add(1)] by the handler of worker [i] *)
Definition draw_step (i : nat) (g : prog) : option prog :=
  match workers (srv g) !! i, ids g !! i with
  | Some (Handling fd), Some None =>
      Some {| srv := srv g; ids := <[i := Some (g_next_id g)]> (ids g); g_next_id := to_i32 (g_next_id g + 1);
              senders := senders g; shuts := shuts g; logs := logs g ++ [(fd, g_next_id g)] |}
  | _, _ => None
  end.

(** the handler of worker [i] ends *)
Definition finish_step (i : nat) (o : outcome ()) (shut : bool) (g : prog) : option prog :=
  s ← handle_step i o (srv g);
  Some {| srv := s; ids := if o is Ret _ then <[i := None]> (ids g) else ids g; g_next_id := g_next_id g;
          senders := senders g; shuts := if shut then shuts g ++ [i] else shuts g; logs := logs g |}.

(** the body of client [j] ends *)
Definition send_step (j : nat) (o : outcome ()) (g : prog) : option prog :=
  pc ← senders g !! j;
  match pc, o with
  | Sending, Ret _ => Some {| srv := srv g; ids := ids g; g_next_id := g_next_id g; senders := <[j := Sent]> (senders g);
                              shuts := shuts g; logs := logs g |}
  | Sending, Exn e => Some {| srv := srv g; ids := ids g; g_next_id := g_next_id g; senders := <[j := Lost e]> (senders g);
                              shuts := shuts g; logs := logs g |}
  | _, _ => None
  end.

(** [when_all] has requested a stop: a client or a worker has failed *)
Definition stopped (g : prog) : Prop :=
  (∃ j e, senders g !! j = Some (Lost e)) ∨ ∃ i fd e, workers (srv g) !! i = Some (Failed fd e).

(** what [async_accept] can answer: a connection that was made and not yet
    accepted; or an error, once the socket is shut down or a stop was requested,
    or at any time if it may fail of itself *)
Definition can_answer (must : bool) (a : answer_type p) (g : prog) : Prop :=
  match on_answer p a with
  | Pushing fd => ∃ j, fd = conn j ∧ (fd ∉ accepted (srv g))
      ∧ (senders g !! j = Some Sent ∨ must = false ∧ is_Some (senders g !! j))
  | Closing => shuts g ≠ [] ∨ stopped g ∨ (must = false ∧ fails = true)
  | _ => False
  end.

(** a step of the program.  With [must], only those nothing else is needed for:
    the connection of a client that has returned is accepted, and a handler ends
    once its client has closed or was asked to stop. *)
Inductive step (must : bool) (g : prog) : prog → Prop :=
  | step_accept a s' : can_answer must a g → answers p (accepted (srv g)) a →
      accept_step p a (srv g) = Some s' → step must g (set_srv s' g)
  | step_push s' : push_step p (srv g) = Some s' → step must g (set_srv s' g)
  | step_reject o s' : rejects p o → reject_step o (srv g) = Some s' → step must g (set_srv s' g)
  | step_close s' : close_step (srv g) = Some s' → step must g (set_srv s' g)
  | step_pop i s' : pop_step i (srv g) = Some s' → step must g (set_srv s' g)
  | step_draw i g' : draw_step i g = Some g' → step must g g'
  | step_finish i fd id o shut g' :
      workers (srv g) !! i = Some (Handling fd) → ids g !! i = Some (Some id) → handler_ends server_fd id fd o shut →
      (must = true → ∀ j, fd = conn j → senders g !! j ≠ Some Sending) →
      finish_step i o shut g = Some g' → step must g g'
  | step_send j o g' : outcome_of (λ K, file_client (Z.of_nat j)) o → send_step j o g = Some g' → step must g g'.

Definition start (n : nat) (ch : bchan) : prog :=
  {| srv := Server.init n ch; ids := replicate n None; g_next_id := 0;
     senders := replicate (Z.to_nat log_clients) Sending; shuts := []; logs := [] |}.
End program.
Arguments Prog {B} srv ids g_next_id senders shuts logs.

#[export] Instance file_serving server_fd : Serving (file_program server_fd).
Proof.
  split.
  - apply file_proper.
  - intros l fd Hfd. exists (Ret fd). split; [|done]. split; [done|].
    exists (constant_kernel fd), []. by apply constant_accept.
  - intros l. exists (Exn (SystemError 22)). split; [|done]. split; [done|]. by exists (constant_kernel (-22)), [].
  - intros fd. destruct (handler_can_end server_fd 0 fd) as (fuel & K & g & tr & ext & E & _).
    exists fuel, K, 0, tr. by rewrite E.
Qed.

(** ** Invariant *)

(** the connection of a handler that has not drawn its number *)
Definition undrawn (w : worker_pc * option Z) : list Z :=
  match w with (Handling fd, None) => [fd] | _ => [] end.
Definition last_number (id : option Z) : nat := if decide (id = Some (log_clients - 1)) then 1 else 0.

Section theory.
Context {B : BufferedChannel Z} {HB : BufferedChannelLaws Z B} (server_fd : Z) (fails : bool).
Context (conn : nat → Z) (conn_inj : Inj (=) (=) conn) (conn_pos : ∀ j, 0 ≤ conn j).
Abbreviation p := (file_program server_fd).
Abbreviation step := (step server_fd fails conn).
Implicit Types g : prog.

Definition conns : list Z := conn <$> seq 0 (Z.to_nat log_clients).

Record inv (n : nat) (cap : Z) g : Prop := {
  inv_srv : Server.inv n cap (srv g);
  inv_ids : length (ids g) = n;
  (** the numbers are drawn in order, one for each popped connection *)
  inv_next : g_next_id g = Z.of_nat (length (logs g));
  inv_numbers : (logs g).*2 = Z.of_nat <$> seq 0 (length (logs g));
  inv_logs : (logs g).*1 ++ (zip (workers (srv g)) (ids g) ≫= undrawn) ≡ₚ popped (srv g);
  (** the last number is with a handler, or its handler has shut down *)
  inv_last : (length (shuts g) + sum_list_with last_number (ids g))%nat =
    if decide (g_next_id g = log_clients) then 1%nat else 0%nat;
  inv_idle i id : ids g !! i = Some (Some id) →
    ∃ fd, workers (srv g) !! i = Some (Handling fd) ∨ ∃ e, workers (srv g) !! i = Some (Failed fd e);
  inv_senders : length (senders g) = Z.to_nat log_clients;
  inv_threw e : acc (srv g) ≠ Threw e;
  inv_once : NoDup (accepted (srv g));
  inv_conns : accepted (srv g) ⊆ conns;
  inv_end : ended (acc (srv g)) → shuts g ≠ [] ∨ stopped g ∨ fails = true
}.

Lemma conns_length : length conns = 6%nat.
Proof. unfold conns. by rewrite length_fmap, length_seq. Qed.

Lemma conn_in j g : length (senders g) = Z.to_nat log_clients → is_Some (senders g !! j) → conn j ∈ conns.
Proof. intros Hl Hj%lookup_lt_is_Some. apply list_elem_of_fmap. exists j. split; [done|]. apply elem_of_seq. lia. Qed.

(** no more is popped, or drawn, than there are clients *)
Lemma inv_bounds n cap g :
  inv n cap g → (length (popped (srv g)) ≤ length (accepted (srv g)) ≤ 6)%nat
  ∧ (length (logs g) + length (zip (workers (srv g)) (ids g) ≫= undrawn) = length (popped (srv g)))%nat.
Proof using conn.
  intros [Hs _ _ _ Hl _ _ _ _ Hn Hi _]. apply NoDup_submseteq, submseteq_length in Hi; [|done].
  rewrite conns_length in Hi. apply Permutation_length in Hl. rewrite length_app, length_fmap in Hl.
  pose proof (inv_order _ _ _ Hs) as Ho. apply (f_equal length) in Ho. rewrite length_app in Ho. lia.
Qed.

Lemma zip_move (ws : list worker_pc) (l : list (option Z)) i x y a b :
  ws !! i = Some x → l !! i = Some a →
  (zip (<[i := y]> ws) (<[i := b]> l) ≫= undrawn) ++ undrawn (x, a) ≡ₚ (zip ws l ≫= undrawn) ++ undrawn (y, b).
Proof.
  intros Hx Ha. rewrite <-(insert_zip_with pair ws l i y b). apply bind_insert_Permutation.
  apply lookup_zip_with_Some. by exists x, a.
Qed.

(** the accepting fiber moves *)
Lemma inv_accepting n cap g s' :
  inv n cap g → Server.step p (srv g) s' → workers s' = workers (srv g) → popped s' = popped (srv g) →
  (∀ e, acc s' ≠ Threw e) → NoDup (accepted s') → accepted s' ⊆ conns →
  (ended (acc s') → shuts g ≠ [] ∨ stopped g ∨ fails = true) → inv n cap (set_srv s' g).
Proof using HB.
  intros [Hs Hids Hnx Hnum Hl Hla Hidle Hsd _ _ _ _] Hst Hw Hp Ht Hn Hi Hend. split; simpl; rewrite ?Hw, ?Hp; try done.
  - eapply Server.inv_step; [apply serving_proper|done|done].
  - intros [?|[[?|Hf]|?]]%Hend; [by left|right; left; by left|right; left; right|by do 2 right]. simpl. by rewrite Hw.
Qed.

(** a stop stays requested while a worker that has not failed moves *)
Lemma stopped_worker g g' :
  senders g' = senders g →
  (∀ k fd e, workers (srv g) !! k = Some (Failed fd e) → workers (srv g') !! k = Some (Failed fd e)) →
  stopped g → stopped g'.
Proof. intros Hs Hf [Hl|(i & fd & e & Hi)]; [left; by rewrite Hs|right; exists i, fd, e; auto]. Qed.

Lemma file_accept_inv must n cap a g s' :
  inv n cap g → can_answer server_fd fails conn must a g → answers p (accepted (srv g)) a →
  accept_step p a (srv g) = Some s' → inv n cap (set_srv s' g).
Proof using All.
  intros Hinv Ha Hans E.
  assert (Server.step p (srv g) s') as Hst by (by eapply Server.step_accept).
  unfold accept_step in E. destruct (acc (srv g)) eqn:Hacc; try done. injection E as <-.
  unfold can_answer in Ha. simpl in Ha. destruct (on_accept a) as [|fd| | | |]; try done.
  - destruct Ha as (j & -> & Hnew & Hj). eapply inv_accepting; try done; simpl.
    + pose proof (inv_once _ _ _ Hinv). apply NoDup_app. split; [done|]. split; [set_solver|apply NoDup_singleton].
    + assert (conn j ∈ conns).
      { apply (conn_in _ g); [by apply (inv_senders _ _ _ Hinv)|]. destruct Hj as [->|[_ ?]]; [by eexists|done]. }
      pose proof (inv_conns _ _ _ Hinv). set_solver.
    + by intros [].
  - pose proof (inv_once _ _ _ Hinv). pose proof (inv_conns _ _ _ Hinv).
    eapply inv_accepting; try done; simpl; [by rewrite app_nil_r..|]. intros _. destruct Ha as [?|[?|[_ ?]]]; auto.
Qed.

Lemma pop_inv n cap i g s' : inv n cap g → pop_step i (srv g) = Some s' → inv n cap (set_srv s' g).
Proof using All.
  intros [Hs Hids Hnx Hnum Hl Hla Hidle Hsd Ht Hn Hi Hend] E.
  assert (Server.step p (srv g) s') as Hst by (by apply (Server.step_pop _ _ _ i)).
  destruct (pop_frame i _ _ E) as (Ha & Hacc & _ & Hf).
  assert (∃ y t, workers (srv g) !! i = Some Popping ∧ workers s' = <[i := y]> (workers (srv g))
    ∧ popped s' = popped (srv g) ++ t ∧ undrawn (y, None) = t) as (y & t & Hw & Hw' & Hp & Hy).
  { unfold pop_step in E. destruct (workers (srv g) !! i) as [[]|] eqn:Hw; try done. simpl in E.
    destruct (pop _) as [[[r v] ch]|]; try done. injection E as <-.
    destruct r, v as [fd|]; simpl; [by exists (Handling fd), [fd]|by exists Done, []..]. }
  assert (ids g !! i = Some None) as Hid.
  { destruct (lookup_lt_is_Some_2 (ids g) i) as [[id|] Hid]; [|exfalso|done].
    - rewrite Hids, <-(inv_workers _ _ _ Hs). by eapply lookup_lt_Some.
    - apply Hidle in Hid as (fd & [Hid|[e Hid]]); congruence. }
  split; simpl; try done.
  - eapply Server.inv_step; [apply serving_proper|done|done].
  - pose proof (zip_move _ _ i _ y _ None Hw Hid) as Hz. rewrite (list_insert_id (ids g)) in Hz by done.
    change (undrawn (Popping, None)) with (@nil Z) in Hz. rewrite app_nil_r in Hz. by rewrite Hw', Hp, Hz, Hy, app_assoc, Hl.
  - intros k id Hk. destruct (Hidle _ _ Hk) as (fd & Hk'). exists fd. rewrite Hw'.
    destruct (decide (k = i)) as [->|Hne]; [congruence|]. by rewrite list_lookup_insert_ne.
  - by rewrite Hacc.
  - by rewrite Ha.
  - by rewrite Ha.
  - rewrite Hacc. intros [?|[?|?]]%Hend; [by left|right; left|by do 2 right]. by eapply (stopped_worker g).
Qed.

Lemma draw_inv n cap i g g' : inv n cap g → draw_step i g = Some g' → inv n cap g'.
Proof using All.
  intros Hinv E. pose proof (inv_bounds _ _ _ Hinv) as [Hle Hlen].
  destruct Hinv as [Hs Hids Hnx Hnum Hl Hla Hidle Hsd Ht Hn Hi Hend].
  unfold draw_step in E. destruct (workers (srv g) !! i) as [[|fd| |]|] eqn:Hw; try done.
  destruct (ids g !! i) as [[]|] eqn:Hid; try done. injection E as <-.
  pose proof (zip_move _ _ i _ (Handling fd) _ (Some (g_next_id g)) Hw Hid) as Hz.
  rewrite (list_insert_id (workers _)) in Hz by done. simpl in Hz. rewrite app_nil_r in Hz.
  assert (length (logs g) < 6)%nat as Hlt.
  { apply Permutation_length in Hz. rewrite length_app in Hz. simpl in Hz. lia. }
  assert (to_i32 (g_next_id g + 1) = g_next_id g + 1) as Hto.
  { unfold to_i32, to_u32, wrap. rewrite Z.mod_small by lia. destruct (Z.ltb_spec (g_next_id g + 1) (2 ^ 31)); [done|lia]. }
  pose proof (sum_list_with_insert last_number _ _ _ (Some (g_next_id g)) Hid) as Hsum.
  split; simpl; rewrite ?Hto, ?length_insert, ?length_app; simpl; try done.
  - lia.
  - rewrite fmap_app, Nat.add_1_r, seq_S, fmap_app, Hnum. simpl. by rewrite Hnx.
  - rewrite fmap_app. simpl. by rewrite <-app_assoc, (Permutation_app_comm [fd]), Hz, Hl.
  - rewrite decide_False in Hla by (unfold log_clients; lia). change (last_number None) with 0%nat in Hsum. unfold last_number at 3 in Hsum. unfold log_clients in *.
    destruct (decide (g_next_id g + 1 = 6)); [rewrite decide_True in Hsum by (f_equal; lia)|
      rewrite decide_False in Hsum by (intros [= ?]; lia)]; lia.
  - intros k id Hk. destruct (decide (k = i)) as [->|Hne]; [exists fd; by left|].
    rewrite list_lookup_insert_ne in Hk by done. by eapply Hidle.
Qed.

Lemma finish_inv n cap i fd id o shut g g' :
  inv n cap g → workers (srv g) !! i = Some (Handling fd) → ids g !! i = Some (Some id) →
  handler_ends server_fd id fd o shut → finish_step i o shut g = Some g' → inv n cap g'.
Proof using All.
  intros [Hs Hids Hnx Hnum Hl Hla Hidle Hsd Ht Hn Hi Hend] Hw Hid Ho E.
  pose proof (handler_shuts _ _ _ _ _ Ho) as Hsh. apply bind_Some in E as (s' & E & [= <-]).
  assert (Server.inv n cap s') as Hs'.
  { eapply (Server.inv_step p); [apply serving_proper|exact Hs|]. eapply (Server.step_handle _ _ _ i); [done| |done].
    destruct Ho as (fuel & K & gg & tr & ext & Eh & _). exists fuel, K, id, tr. by rewrite Eh. }
  destruct (served_frame i _ _ _ E) as (Ha & Hacc & Hp & Hf).
  unfold handle_step in E. rewrite Hw in E. simpl in E. destruct o as [[]|e| | |]; try done; injection E as <-.
  - pose proof (zip_move _ _ i _ Popping _ None Hw Hid) as Hz. simpl in Hz. rewrite !app_nil_r in Hz.
    pose proof (sum_list_with_insert last_number _ _ _ None Hid) as Hsum. change (last_number None) with 0%nat in Hsum.
    split; simpl in *; rewrite ?Ha, ?Hacc, ?Hp, ?length_insert; try done.
    + by rewrite Hz.
    + subst shut. unfold last_number at 2 in Hsum.
      destruct (decide (id = log_clients - 1)) as [->|Hne]; [rewrite bool_decide_true, decide_True in * by done|
        rewrite bool_decide_false, (decide_False (P := Some id = _)) in * by (done || congruence)];
        rewrite ?length_app; simpl; lia.
    + intros k id' Hk. destruct (decide (k = i)) as [->|Hne].
      { rewrite list_lookup_insert_eq in Hk by (by eapply lookup_lt_Some). done. }
      rewrite list_lookup_insert_ne in Hk by done. rewrite list_lookup_insert_ne by done. by eapply Hidle.
    + intros [?|[?|?]]%Hend;
        [left; destruct shut; [by destruct (shuts g)|done]|right; left; by eapply (stopped_worker g)|by do 2 right].
  - pose proof (zip_move _ _ i _ (Failed fd e) _ (Some id) Hw Hid) as Hz. rewrite (list_insert_id (ids g)) in Hz by done.
    simpl in Hz. rewrite !app_nil_r in Hz. subst shut.
    split; simpl in *; rewrite ?Ha, ?Hacc, ?Hp; try done.
    + by rewrite Hz.
    + intros k id' Hk. destruct (decide (k = i)) as [->|Hne].
      { exists fd. right. exists e. rewrite list_lookup_insert_eq; [done|]. by eapply lookup_lt_Some. }
      rewrite list_lookup_insert_ne by done. by eapply Hidle.
    + intros [?|[?|?]]%Hend; [by left|right; left; by eapply (stopped_worker g)|by do 2 right].
Qed.

Lemma send_inv n cap j o g g' : inv n cap g → send_step j o g = Some g' → inv n cap g'.
Proof using Type.
  intros [Hs Hids Hnx Hnum Hl Hla Hidle Hsd Ht Hn Hi Hend] E. unfold send_step in E.
  destruct (senders g !! j) as [[]|] eqn:Hj; try done. simpl in E.
  assert (∀ pc k e, senders g !! k = Some (Lost e) → <[j := pc]> (senders g) !! k = Some (Lost e)) as Hk.
  { intros pc k e Hk. rewrite list_lookup_insert_ne; [done|congruence]. }
  destruct o as [|e| | |]; try done; injection E as <-; split; simpl; try done; try by rewrite length_insert.
  all: intros [?|[[(k & e' & ?)|?]|?]]%Hend;
    [by left|right; left; left; exists k, e'; by apply Hk|right; left; by right|by do 2 right].
Qed.

Lemma file_inv_step must n cap g g' : inv n cap g → step must g g' → inv n cap g'.
Proof using All.
  intros Hinv Hst. pose proof (inv_srv _ _ _ Hinv) as Hs.
  destruct Hst as [a s' Ha Hans E|s' E|o s' Ho E|s' E|i s' E|i g' E|i fd id o shut g' Hw Hid Ho _ E|j o g' Ho E].
  - by eapply file_accept_inv.
  - destruct (push_frame _ _ _ _ _ Hs E) as (Ha & Hp & Hacc & Hws & _). pose proof (inv_once _ _ _ Hinv).
    pose proof (inv_conns _ _ _ Hinv).
    eapply inv_accepting; [done|by eapply Server.step_push|..]; rewrite ?Ha, ?Hp, ?Hacc, ?Hws; try done. by intros [].
  - by destruct (no_reject _ _ _ _ _ Hs E).
  - assert (Server.step p (srv g) s') as Hst by (by eapply Server.step_close). pose proof (inv_once _ _ _ Hinv).
    pose proof (inv_conns _ _ _ Hinv). pose proof (inv_end _ _ _ Hinv) as Hend.
    unfold close_step in E. destruct (acc (srv g)) eqn:Hacc; simplify_eq.
    eapply inv_accepting; try done. intros _. apply Hend. by left.
  - by eapply pop_inv.
  - by eapply draw_inv.
  - by eapply finish_inv.
  - by eapply send_inv.
Qed.

Lemma file_inv_start n ch :
  bc_items ch = [] → bc_closed ch = false → 1 ≤ bc_capacity ch → inv n (bc_capacity ch) (start n ch).
Proof using All.
  intros Hi Hc Hcap.
  assert (zip (replicate n Popping) (replicate n (None : option Z)) ≫= undrawn = []) as Hu by (by induction n).
  assert (sum_list_with last_number (replicate n None) = 0%nat) as Hn by (clear; induction n as [|n IH]; simpl; [done|by rewrite IH]).
  split; simpl; rewrite ?length_replicate, ?Hu, ?Hn; try done.
  - by apply Server.inv_init.
  - intros i id [? _]%lookup_replicate. done.
  - apply NoDup_nil_2.
  - set_solver.
  - by intros [].
Qed.

(** ** Runs are bounded *)

Definition sender_weight (pc : sender_pc) : nat := if pc is Sending then 1 else 0.
Definition file_weight g : nat :=
  2 * server_weight (Z.to_nat log_clients) (srv g) true + length (zip (workers (srv g)) (ids g) ≫= undrawn)
  + sum_list_with sender_weight (senders g).

Lemma file_accept_weight must n cap a g s' :
  inv n cap g → can_answer server_fd fails conn must a g → answers p (accepted (srv g)) a →
  accept_step p a (srv g) = Some s' → (file_weight (set_srv s' g) < file_weight g)%nat.
Proof using All.
  intros Hinv Ha Hans E. destruct (inv_bounds _ _ _ (file_accept_inv _ _ _ _ _ _ Hinv Ha Hans E)) as [[_ Hle] _].
  unfold accept_step in E. destruct (acc (srv g)) eqn:Hacc; simplify_eq. unfold file_weight, server_weight. simpl in *.
  rewrite Hacc. unfold can_answer in Ha. simpl in Ha. unfold log_clients.
  destruct (on_accept a) as [|fd| | | |]; try done; simpl in *; rewrite length_app in *; simpl in *; lia.
Qed.

Lemma zip_move_length (ws : list worker_pc) (l : list (option Z)) i x y a b :
  ws !! i = Some x → l !! i = Some a →
  (length (zip (<[i := y]> ws) (<[i := b]> l) ≫= undrawn) + length (undrawn (x, a))
   = length (zip ws l ≫= undrawn) + length (undrawn (y, b)))%nat.
Proof. intros Hx Ha. rewrite <-!length_app. by apply Permutation_length, zip_move. Qed.

Lemma pop_file_weight n cap i g s' :
  inv n cap g → pop_step i (srv g) = Some s' → (file_weight (set_srv s' g) < file_weight g)%nat.
Proof using All.
  intros Hinv E. pose proof (pop_weight (Z.to_nat log_clients) i _ _ true E) as Hw.
  assert (length (zip (workers s') (ids g) ≫= undrawn) ≤ S (length (zip (workers (srv g)) (ids g) ≫= undrawn)))%nat;
    [|unfold file_weight; simpl; lia].
  unfold pop_step in E. destruct (workers (srv g) !! i) as [[]|] eqn:Hi; try done. simpl in E.
  destruct (pop _) as [[[r v] ch]|]; try done. injection E as <-.
  destruct (lookup_lt_is_Some_2 (ids g) i) as [id Hid].
  { rewrite (inv_ids _ _ _ Hinv), <-(inv_workers _ _ _ (inv_srv _ _ _ Hinv)). by eapply lookup_lt_Some. }
  assert (∀ y, length (zip (<[i := y]> (workers (srv g))) (ids g) ≫= undrawn)
    ≤ S (length (zip (workers (srv g)) (ids g) ≫= undrawn)))%nat as Hy.
  { intros y. pose proof (zip_move_length _ _ i _ y _ id Hi Hid) as Hz. rewrite (list_insert_id (ids g)) in Hz by done.
    assert (length (undrawn (y, id)) ≤ 1)%nat by (destruct y, id; simpl; lia). lia. }
  destruct r, v; apply Hy.
Qed.

Lemma file_step_weight must n cap g g' : inv n cap g → step must g g' → (file_weight g' < file_weight g)%nat.
Proof using All.
  intros Hinv Hst. pose proof (inv_srv _ _ _ Hinv) as Hs.
  destruct Hst as [a s' Ha Hans E|s' E|o s' Ho E|s' E|i s' E|i g' E|i fd id o shut g' Hw Hid Ho _ E|j o g' Ho E].
  - by eapply file_accept_weight.
  - destruct (push_frame _ _ _ _ _ Hs E) as (Ha & _ & Hacc & Hws & Hl). unfold file_weight, server_weight. simpl.
    rewrite Ha, Hacc, Hws, Hl. unfold push_step in E. destruct (acc (srv g)); try done. simpl. lia.
  - by destruct (no_reject _ _ _ _ _ Hs E).
  - unfold close_step in E. destruct (acc (srv g)) eqn:Ha; try done. injection E as <-.
    unfold file_weight, server_weight. simpl. rewrite Ha, (proj1 (close_spec _)). simpl. lia.
  - by eapply pop_file_weight.
  - unfold draw_step in E. destruct (workers (srv g) !! i) as [[|fd| |]|] eqn:Hw; try done.
    destruct (ids g !! i) as [[]|] eqn:Hid; try done. injection E as <-. unfold file_weight. simpl.
    pose proof (zip_move_length _ _ i _ (Handling fd) _ (Some (g_next_id g)) Hw Hid) as Hz.
    rewrite (list_insert_id (workers _)) in Hz by done. simpl in Hz. lia.
  - apply bind_Some in E as (s' & E & [= <-]). pose proof (handle_weight (Z.to_nat log_clients) i _ _ _ true E).
    unfold file_weight. simpl. unfold handle_step in E. rewrite Hw in E. simpl in E.
    destruct o as [[]|e| | |]; try done; injection E as <-; simpl.
    + pose proof (zip_move_length _ _ i _ Popping _ None Hw Hid) as Hz. simpl in Hz. lia.
    + pose proof (zip_move_length _ _ i _ (Failed fd e) _ (Some id) Hw Hid) as Hz.
      rewrite (list_insert_id (ids g)) in Hz by done. simpl in Hz. lia.
  - unfold send_step in E. destruct (senders g !! j) as [[]|] eqn:Hj; try done. simpl in E.
    pose proof (λ y, sum_list_with_insert sender_weight _ _ _ y Hj) as Hsum.
    destruct o as [|e| | |]; try done; injection E as <-; unfold file_weight; simpl;
      [specialize (Hsum Sent)|specialize (Hsum (Lost e))]; simpl in Hsum; lia.
Qed.

Lemma file_run must n cap k g g' :
  inv n cap g → nsteps (step must) k g g' → inv n cap g' ∧ (k + file_weight g' ≤ file_weight g)%nat.
Proof using All.
  apply weighted_run. intros. split; [by eapply file_inv_step|by eapply file_step_weight].
Qed.

(** a run from the start keeps the invariant and is short *)
Lemma file_bound must ch k g :
  channel_new 8 = Ret ch → nsteps (step must) k (start kWorkers ch) g →
  inv kWorkers (bc_capacity ch) g ∧ (k ≤ 80)%nat ∧ 8 ≤ bc_capacity ch - 1.
Proof using All.
  intros Hch Hk. destruct (channel_new_ok (T := Z) 8) as (ch' & Hch' & Habs & Hlim); [lia|].
  rewrite Hch in Hch'. injection Hch' as <-. injection Habs as Hi Hc.
  destruct (file_run must kWorkers (bc_capacity ch) k (start kWorkers ch) g) as [Hinv Hw];
    [by apply file_inv_start; [done..|lia]|done|].
  split; [done|]. split; [|lia].
  unfold file_weight at 2, server_weight in Hw. simpl in Hw. rewrite Hi in Hw. simpl in Hw. lia.
Qed.

(** the socket is shut down only after every connection was taken by a handler *)
Lemma shut_all_popped n cap g : inv n cap g → shuts g ≠ [] → popped (srv g) ≡ₚ conns ∧ (logs g).*1 ≡ₚ conns.
Proof using All.
  intros Hinv Hsh. destruct (inv_bounds _ _ _ Hinv) as [[Hpa Ha6] Hlen].
  pose proof (inv_last _ _ _ Hinv) as Hl. pose proof (inv_next _ _ _ Hinv) as Hx.
  pose proof (inv_order _ _ _ (inv_srv _ _ _ Hinv)) as Ho.
  assert (length (logs g) = 6%nat) as H6.
  { destruct (shuts g); [done|]. simpl in Hl. case_decide; unfold log_clients in *; lia. }
  assert (popped (srv g) ≡ₚ conns) as Hp.
  { apply submseteq_length_Permutation; [|rewrite conns_length; lia]. apply NoDup_submseteq.
    - pose proof (inv_once _ _ _ Hinv) as Hn. rewrite Ho in Hn. by apply NoDup_app in Hn as [? _].
    - pose proof (inv_conns _ _ _ Hinv) as Hi. rewrite Ho in Hi. set_solver. }
  split; [done|]. rewrite <-Hp, <-(inv_logs _ _ _ Hinv).
  destruct (zip (workers (srv g)) (ids g) ≫= undrawn) eqn:Hu; [by rewrite app_nil_r|simpl in Hlen; lia].
Qed.

(** ** A program that cannot go on is over *)

Section stuck.
Context (n : nat) (cap : Z) (g : prog) (Hinv : inv n cap g) (Hn : (0 < n)%nat) (Hcap : 8 ≤ cap - 1).
Context (Hstuck : ∀ g', ¬ step true g g').

Lemma sender_over j pc : senders g !! j = Some pc → pc ≠ Sending.
Proof using Hstuck.
  intros Hj ->. eapply Hstuck, (step_send _ _ _ _ _ j (Ret ())); [by exists (constant_kernel 0), []|].
  unfold send_step. by rewrite Hj.
Qed.

Lemma file_none_handling i fd : workers (srv g) !! i ≠ Some (Handling fd).
Proof using All.
  intros Hw. destruct (lookup_lt_is_Some_2 (ids g) i) as [[id|] Hid].
  { rewrite (inv_ids _ _ _ Hinv), <-(inv_workers _ _ _ (inv_srv _ _ _ Hinv)). by eapply lookup_lt_Some. }
  - eapply Hstuck, (step_finish _ _ _ _ _ i fd id (Ret ())); [done|done|apply handler_can_end| |].
    + intros _ j _ Hj. by apply sender_over in Hj.
    + unfold finish_step, handle_step. by rewrite Hw.
  - eapply Hstuck, (step_draw _ _ _ _ _ i). unfold draw_step. by rewrite Hw, Hid.
Qed.

Lemma none_undrawn : zip (workers (srv g)) (ids g) ≫= undrawn = [].
Proof using All.
  destruct (_ ≫= undrawn) as [|fd l] eqn:Hu; [done|exfalso].
  assert (fd ∈ zip (workers (srv g)) (ids g) ≫= undrawn) as Hin by (rewrite Hu; by left).
  apply list_elem_of_bind in Hin as ([pc id] & Hfd & (i & Hi)%list_elem_of_lookup).
  apply lookup_zip_with_Some in Hi as (pc' & id' & [= <- <-] & Hw & _).
  destruct pc as [|fd'| |], id; simpl in Hfd; try set_solver. by destruct (file_none_handling i fd').
Qed.

(** all six have drawn a number and no handler is left: the last one shut down *)
Lemma last_shut :
  (∀ i fd e, workers (srv g) !! i ≠ Some (Failed fd e)) → length (logs g) = 6%nat → shuts g ≠ [].
Proof using All.
  intros Hf H6 Hsh. pose proof (inv_last _ _ _ Hinv) as Hla.
  rewrite Hsh, (inv_next _ _ _ Hinv), H6, decide_True in Hla by done. simpl in Hla.
  assert (Forall (eq None) (ids g)) as Hnone.
  { apply Forall_lookup. intros i [id|] Hid; [exfalso|done].
    apply (inv_idle _ _ _ Hinv) in Hid as (fd & [Hw|[e Hw]]); [by destruct (file_none_handling i fd)|by destruct (Hf i fd e)]. }
  clear -Hla Hnone. induction Hnone as [|? ? <- _ IH]; simpl in Hla; [done|]. by apply IH.
Qed.

(** the accept loop does not wait *)
Lemma file_not_accepting : acc (srv g) ≠ Accepting.
Proof using All.
  intros Ha. pose proof (inv_srv _ _ _ Hinv) as Hs.
  assert (¬ (shuts g ≠ [] ∨ stopped g)) as Hno.
  { intros Hc. destruct (serving_end (p := p) (accepted (srv g))) as (a & Hans & Hon).
    eapply Hstuck, (step_accept _ _ _ _ _ a); [|done|unfold accept_step; by rewrite Ha]. unfold can_answer. rewrite Hon. naive_solver. }
  assert (∀ i pc, workers (srv g) !! i = Some pc → pc = Popping) as Hw.
  { intros i [|fd| |fd e] Hi; [done|by destruct (file_none_handling i fd)| |].
    - apply list_elem_of_lookup_2, (inv_done _ _ _ Hs) in Hi as [Hi _]. congruence.
    - destruct Hno. right. right. by exists i, fd, e. }
  assert (bc_items (conn_ch (srv g)) = []) as Hq.
  { destruct (lookup_lt_is_Some_2 (workers (srv g)) 0) as [pc H0]; [by rewrite (inv_workers _ _ _ Hs)|].
    rewrite (Hw _ _ H0) in H0. destruct (bc_items (conn_ch (srv g))) as [|fd fds] eqn:Hi; [done|exfalso].
    destruct (pop_item _ _ _ Hi) as (ch & E & _). eapply Hstuck, (step_pop _ _ _ _ _ 0).
    unfold pop_step. rewrite H0. simpl. by rewrite E. }
  assert (conns ⊆ popped (srv g)) as Hall.
  { intros fd (j & -> & Hj%elem_of_seq)%list_elem_of_fmap. pose proof (inv_order _ _ _ Hs) as Ho.
    rewrite Hq, Ha, app_nil_r in Ho. rewrite <-Ho. destruct (decide (conn j ∈ accepted (srv g))) as [|Hnew]; [done|exfalso].
    destruct (lookup_lt_is_Some_2 (senders g) j) as [pc Hpc]; [rewrite (inv_senders _ _ _ Hinv); lia|].
    destruct pc as [| |e]; [by apply sender_over in Hpc| |by destruct Hno; right; left; exists j, e].
    destruct (serving_conn (p := p) (accepted (srv g)) (conn j)) as (a & Hans & Hon); [done|].
    eapply Hstuck, (step_accept _ _ _ _ _ a); [|done|unfold accept_step; by rewrite Ha].
    unfold can_answer. rewrite Hon. exists j. auto. }
  apply NoDup_submseteq, submseteq_length in Hall; [|by apply NoDup_fmap; [|apply NoDup_seq]]. rewrite conns_length in Hall.
  destruct (inv_bounds _ _ _ Hinv) as [[Hpa Ha6] Hlen].
  rewrite none_undrawn in Hlen. simpl in Hlen. apply Hno. left. apply last_shut; [|lia].
  intros i fd e Hi. by apply Hw in Hi.
Qed.

Lemma file_loop_returned : acc (srv g) = Returned.
Proof using All.
  pose proof (inv_srv _ _ _ Hinv) as Hs. destruct (acc (srv g)) as [|fd|fd| | |e] eqn:Ha; [| | | |done|].
  - by destruct file_not_accepting.
  - exfalso. assert (bc_closed (conn_ch (srv g)) = false) as Hop.
    { destruct (bc_closed _) eqn:Hc; [|done]. apply (inv_closed _ _ _ Hs) in Hc. congruence. }
    destruct (inv_bounds _ _ _ Hinv) as [[_ Ha6] _]. pose proof (inv_order _ _ _ Hs) as Ho.
    apply (f_equal length) in Ho. rewrite !length_app in Ho.
    destruct (push_room fd (conn_ch (srv g)) Hop) as (ch & E & _); [rewrite (inv_capacity _ _ _ Hs); lia|].
    eapply Hstuck, step_push. unfold push_step. rewrite Ha. simpl. by rewrite E.
  - by destruct (inv_refused _ _ _ Hs fd).
  - exfalso. eapply Hstuck, step_close. unfold close_step. by rewrite Ha.
  - by destruct (inv_threw _ _ _ Hinv e).
Qed.

Lemma workers_over : Forall finished (workers (srv g)).
Proof using All.
  pose proof (inv_srv _ _ _ Hinv) as Hs. apply Forall_lookup. intros i [|fd| |fd e] Hw; simpl; [|by destruct (file_none_handling i fd)|done|done].
  assert (bc_closed (conn_ch (srv g)) = true) as Hc by apply (inv_closed _ _ _ Hs), file_loop_returned.
  destruct (bc_items (conn_ch (srv g))) as [|fd fds] eqn:Hi.
  - eapply Hstuck, (step_pop _ _ _ _ _ i). unfold pop_step. rewrite Hw. simpl. unfold pop.
    by rewrite bc_pop_try, bc_try_pop_none by (done || by (left + right)).
  - destruct (pop_item _ _ _ Hi) as (ch & E & _). eapply Hstuck, (step_pop _ _ _ _ _ i).
    unfold pop_step. rewrite Hw. simpl. by rewrite E.
Qed.

(** with no client or worker failed, every accepted connection was logged *)
Lemma accepted_logged :
  ¬ stopped g → Forall (eq Done) (workers (srv g)) ∧ handled (srv g) ≡ₚ accepted (srv g)
  ∧ (logs g).*1 ≡ₚ accepted (srv g) ∧ (logs g).*2 = Z.of_nat <$> seq 0 (length (accepted (srv g))).
Proof using All.
  intros Hns. pose proof (inv_srv _ _ _ Hinv) as Hs. pose proof workers_over as Hw.
  assert (Forall (eq Done) (workers (srv g))) as Hd.
  { apply Forall_lookup. intros i pc Hi. rewrite Forall_lookup in Hw. specialize (Hw _ _ Hi).
    destruct pc as [| | |fd e]; try done. destruct Hns. right. by exists i, fd, e. }
  assert (workers (srv g) ≫= busy = []) as Hb by (clear -Hd; induction Hd as [|? ? <- _ IH]; done).
  destruct (lookup_lt_is_Some_2 (workers (srv g)) 0) as [pc H0]; [by rewrite (inv_workers _ _ _ Hs)|].
  assert (accepted (srv g) = popped (srv g)) as Ha.
  { rewrite (inv_order _ _ _ Hs), file_loop_returned. simpl. rewrite app_nil_r.
    rewrite Forall_lookup in Hd. rewrite <-(Hd _ _ H0) in H0. apply list_elem_of_lookup_2 in H0.
    by rewrite (proj2 (inv_done _ _ _ Hs H0)), app_nil_r. }
  pose proof (inv_logs _ _ _ Hinv) as Hl. rewrite none_undrawn, app_nil_r in Hl.
  split; [done|]. rewrite Ha. split; [by rewrite (inv_hands _ _ _ Hs), Hb, all_done_dropped, !app_nil_r|].
  split; [done|]. by rewrite (inv_numbers _ _ _ Hinv), <-Hl, length_fmap.
Qed.

(** and all six were accepted, unless accepting failed of itself *)
Lemma all_logged :
  ¬ stopped g → fails = false ∨ shuts g ≠ [] → accepted (srv g) ≡ₚ conns ∧ length (shuts g) = 1%nat.
Proof using All.
  intros Hns Hno. assert (shuts g ≠ []) as Hsh.
  { destruct Hno as [Hf|?]; [|done].
    destruct (inv_end _ _ _ Hinv) as [?|[?|?]]; [right; apply file_loop_returned|done..|congruence]. }
  destruct (shut_all_popped _ _ _ Hinv Hsh) as [Hp Hl]. split.
  - apply (anti_symm submseteq).
    + apply NoDup_submseteq; [apply (inv_once _ _ _ Hinv)|apply (inv_conns _ _ _ Hinv)].
    + rewrite <-Hp, (inv_order _ _ _ (inv_srv _ _ _ Hinv)). by apply submseteq_inserts_r.
  - pose proof (inv_last _ _ _ Hinv) as Hla. destruct (shuts g) as [|x [|]]; [done|done|].
    simpl in Hla. case_decide; lia.
Qed.
End stuck.
End theory.

(** ** Properties *)

Section properties.
Context {B : BufferedChannel Z}.

(** C9: echo_to_file terminates, and logs every connection it accepts.  With its
    four workers, its channel and its six clients, however the fibers interleave
    and however their calls end, an [async_accept] that fails of itself at any
    time included ([fails]): no run is longer than 80 steps; the listening
    socket is never shut down before a handler has taken each of the six
    connections; and a state in which nothing more must happen is the end of
    the program, where the accept loop has returned and every worker and every
    client has returned or failed.  If no client and no worker failed, each
    accepted connection was handled exactly once and has a log of its own, the
    numbers being 0, 1, ... in order.  If moreover accepting did not fail of
    itself, or the socket was shut down, these are all six connections, and the
    socket was shut down exactly once. *)
Theorem file_server_terminates (HB : BufferedChannelLaws Z B) server_fd fails conn ch k g :
  Inj (=) (=) conn → (∀ j, 0 ≤ conn j) → channel_new 8 = Ret ch →
  nsteps (step server_fd fails conn false) k (start kWorkers ch) g →
  (k ≤ 80)%nat
  ∧ (shuts g ≠ [] → popped (srv g) ≡ₚ conns conn)
  ∧ ((∀ g', ¬ step server_fd fails conn true g g') →
     acc (srv g) = Returned ∧ Forall finished (workers (srv g)) ∧ Forall (λ pc, pc ≠ Sending) (senders g)
     ∧ (¬ stopped g →
          (Forall (eq Done) (workers (srv g)) ∧ handled (srv g) ≡ₚ accepted (srv g)
           ∧ (logs g).*1 ≡ₚ accepted (srv g) ∧ (logs g).*2 = Z.of_nat <$> seq 0 (length (accepted (srv g))))
          ∧ (fails = false ∨ shuts g ≠ [] → accepted (srv g) ≡ₚ conns conn ∧ length (shuts g) = 1%nat))).
Proof.
  intros Hinj Hpos Hch Hk. destruct (file_bound _ _ _ Hinj Hpos _ _ _ _ Hch Hk) as (Hinv & Hw & Hcap). split; [done|].
  split; [intros Hsh; by apply (shut_all_popped server_fd fails conn Hinj Hpos _ _ _ Hinv Hsh)|].
  intros Hstuck. assert (0 < kWorkers)%nat as Hn by (unfold kWorkers; lia).
  split; [exact (file_loop_returned _ _ _ Hinj Hpos _ _ g Hinv Hn Hcap Hstuck)|].
  split; [exact (workers_over _ _ _ Hinj Hpos _ _ g Hinv Hn Hcap Hstuck)|].
  split; [apply Forall_lookup; by eapply sender_over|]. intros Hns.
  split; [exact (accepted_logged _ _ _ Hinj Hpos _ _ g Hinv Hn Hcap Hstuck Hns)|].
  exact (all_logged _ _ _ Hinj Hpos _ _ g Hinv Hn Hcap Hstuck Hns).
Qed.
End properties.

(** ** Witnesses *)

Section witnesses.
Import ListChannel.
Abbreviation program := (@prog list_channel).

Inductive move := MSend (j : nat) | MAccept (j : nat) | MPush | MPop (i : nat) | MDraw (i : nat) | MFinish (i : nat) | MEnd | MFail | MClose.

Definition on_srv (g : program) (s : option Server.st) : option program := s ← s; Some (set_srv s g).

Definition drive (m : move) (g : program) : option program :=
  match m with
  | MSend j => send_step j (Ret ()) g
  | MAccept j =>
      match senders g !! j with
      | Some Sent => if bool_decide (Z.of_nat j ∉ accepted (srv g))
                     then on_srv g (accept_step (file_program 3) (Ret (Z.of_nat j)) (srv g)) else None
      | _ => None
      end
  | MPush => on_srv g (push_step (file_program 3) (srv g))
  | MPop i => on_srv g (pop_step i (srv g))
  | MDraw i => draw_step i g
  | MFinish i => match workers (srv g) !! i, ids g !! i with
                 | Some (Handling _), Some (Some id) => finish_step i (Ret ()) (bool_decide (id = log_clients - 1)) g
                 | _, _ => None
                 end
  | MEnd => match shuts g with
            | [] => None
            | _ => on_srv g (accept_step (file_program 3) (Exn (SystemError 22)) (srv g))
            end
  | MFail => on_srv g (accept_step (file_program 3) (Exn (SystemError 22)) (srv g))
  | MClose => on_srv g (close_step (srv g))
  end.

Lemma file_drive_step m g g' : drive m g = Some g' → step 3 true Z.of_nat false g g'.
Proof.
  destruct m as [j|j| |i|i|i| | |]; simpl; unfold on_srv.
  - intros E. apply (step_send _ _ _ _ _ j (Ret ())); [by exists (constant_kernel 0), []|done].
  - destruct (senders g !! j) as [[]|] eqn:Hj; try done. case_bool_decide as Hnew; [|done].
    intros (s & E & [= <-])%bind_Some. eapply (step_accept _ _ _ _ _ (Ret (Z.of_nat j))); [| |done].
    + exists j. auto.
    + split; [done|]. exists (constant_kernel (Z.of_nat j)), []. apply constant_accept. lia.
  - intros (s & E & [= <-])%bind_Some. by apply step_push.
  - intros (s & E & [= <-])%bind_Some. by apply (step_pop _ _ _ _ _ i).
  - apply step_draw.
  - destruct (workers (srv g) !! i) as [[|fd| |]|] eqn:Hw; try done. destruct (ids g !! i) as [[id|]|] eqn:Hid; try done.
    intros E. by eapply (step_finish _ _ _ _ _ i fd id); [..|apply handler_can_end| |].
  - destruct (shuts g) eqn:Hs; [done|]. intros (s & E & [= <-])%bind_Some.
    eapply (step_accept _ _ _ _ _ (Exn (SystemError 22))); [left; by rewrite Hs| |done].
    split; [done|]. by exists (constant_kernel (-22)), [].
  - intros (s & E & [= <-])%bind_Some. eapply (step_accept _ _ _ _ _ (Exn (SystemError 22))); [by do 2 right| |done].
    split; [done|]. by exists (constant_kernel (-22)), [].
  - intros (s & E & [= <-])%bind_Some. by apply step_close.
Qed.

Definition drive_all : list move → program → option program := run_schedule drive.

Lemma file_drive_nsteps ms g g' : drive_all ms g = Some g' → nsteps (step 3 true Z.of_nat false) (length ms) g g'.
Proof. apply schedule_nsteps, file_drive_step. Qed.

Definition logging (j : nat) : list move :=
  [MSend j; MAccept j; MPush; MPop (j `mod` 4); MDraw (j `mod` 4); MFinish (j `mod` 4)].
Definition whole_run : list move := (seq 0 6 ≫= logging) ++ [MEnd; MClose] ++ (MPop <$> seq 0 4).

Definition fresh_channel : bchan (T := Z) := Eval vm_compute in
  match channel_new (T := Z) 8 with Ret ch => ch | _ => Chan [] 2 false end.
Definition at_end : program := Eval vm_compute in
  default (start kWorkers fresh_channel) (drive_all whole_run (start kWorkers fresh_channel)).

(** the third [async_accept] fails; all clients have sent and closed *)
Definition cut_short : list move :=
  (seq 0 2 ≫= logging) ++ (MSend <$> seq 2 4) ++ [MFail; MClose] ++ (MPop <$> seq 0 4).
Definition at_cut : program := Eval vm_compute in
  default (start kWorkers fresh_channel) (drive_all cut_short (start kWorkers fresh_channel)).

(** every fiber has returned *)
Definition all_back (g : program) : Prop :=
  acc (srv g) = Returned ∧ Forall (eq Done) (workers (srv g)) ∧ Forall (eq Sent) (senders g).

Lemma back_stuck g g' : all_back g → ¬ step 3 true Z.of_nat true g g'.
Proof.
  intros (Ha & Hw & Hc) Hst. rewrite Forall_lookup in Hw. rewrite Forall_lookup in Hc.
  destruct Hst as [a s' _ _ E|s' E|o s' _ E|s' E|i s' E|i g' E|i fd id o shut g' Hi _ _ _ _|j o g' _ E].
  - unfold accept_step in E. by rewrite Ha in E.
  - unfold push_step in E. by rewrite Ha in E.
  - unfold reject_step in E. by rewrite Ha in E.
  - unfold close_step in E. by rewrite Ha in E.
  - unfold pop_step in E. destruct (workers (srv g) !! i) as [pc|] eqn:Hi; [|done]. by rewrite <-(Hw _ _ Hi) in E.
  - unfold draw_step in E. destruct (workers (srv g) !! i) as [pc|] eqn:Hi; [|done]. by rewrite <-(Hw _ _ Hi) in E.
  - by apply Hw in Hi.
  - unfold send_step in E. destruct (senders g !! j) as [pc|] eqn:Hj; [|done]. by rewrite <-(Hc _ _ Hj) in E.
Qed.

Lemma back_fine g : all_back g → ¬ stopped g.
Proof.
  intros (_ & Hw & Hc). rewrite Forall_lookup in Hw. rewrite Forall_lookup in Hc.
  intros [(j & e & Hj)|(i & fd & e & Hi)]; [by apply Hc in Hj|by apply Hw in Hi].
Qed.

Lemma file_server_terminates_witness :
  ((42 ≤ 80)%nat ∧ popped (srv at_end) ≡ₚ conns Z.of_nat ∧ length (shuts at_end) = 1%nat
   ∧ (logs at_end).*2 = [0; 1; 2; 3; 4; 5])
  ∧ (accepted (srv at_cut) = [0; 1] ∧ handled (srv at_cut) ≡ₚ accepted (srv at_cut) ∧ (logs at_cut).*2 = [0; 1]).
Proof.
  assert (all_back at_end ∧ all_back at_cut) as [He Hc] by (split; (split; [reflexivity|]); split; repeat constructor).
  split.
  - destruct (file_server_terminates list_channel_laws 3 true Z.of_nat fresh_channel 42 at_end) as (Hk & Hsh & Hend);
      [apply _|lia|reflexivity|apply (file_drive_nsteps whole_run); vm_compute; reflexivity|].
    split; [exact Hk|]. split; [apply Hsh; discriminate|].
    destruct (Hend (λ g', back_stuck at_end g' He)) as (_ & _ & _ & Hall).
    destruct (Hall (back_fine _ He)) as ((_ & _ & _ & H2) & H1).
    split; [apply H1; right; discriminate|exact H2].
  - destruct (file_server_terminates list_channel_laws 3 true Z.of_nat fresh_channel 22 at_cut) as (_ & _ & Hend);
      [apply _|lia|reflexivity|apply (file_drive_nsteps cut_short); vm_compute; reflexivity|].
    destruct (Hend (λ g', back_stuck at_cut g' Hc)) as (_ & _ & _ & Hall).
    destruct (Hall (back_fine _ Hc)) as ((_ & H1 & _ & H2) & _).
    split; [reflexivity|]. split; [exact H1|exact H2].
Defined.
End witnesses.
