(* ===== verification/MultishotRecv.v ===== *)
(** * MultishotRecv: [multishot_recv] (src/multishot_recv.cpp)

    A receive entry that stays armed, a ring of buffers the kernel picks from,
    a queue of received buffers, and at most one fiber waiting for the next.
    The buffer ring is liburing's and the kernel's: the class [BufRing], in
    which a buffer that is added comes last and the kernel takes the first.

    As in [MultishotAcceptor], [future_] is the shared state of the suspended
    fiber's future, and [next] is composed of its two halves. *)

From S2P Require Import Prelude Cxx Uring Boost Scheduler Submit.

Local Open Scope Z_scope.

(** ** The kernel's buffer ring *)

(** offset in the storage, length, identifier *)
Record buf := Buf { b_off : Z; b_len : Z; b_id : Z }.

Class BufRing : Type := {
  bufring : Type;
  (** the buffers the kernel may pick, first to be picked first *)
  br_avail : bufring → list buf;
  (** [io_uring_setup_buf_ring(ring, n, bgid, 0, &ret)]: a ring, or [-ret] *)
  br_setup : Z → Z → Z + bufring;
  (** [io_uring_buf_ring_add] of these buffers at offsets 0, 1, ... and
      [io_uring_buf_ring_advance] over them *)
  br_add : list buf → bufring → bufring;
  (** the kernel picks a buffer *)
  br_pick : bufring → option (buf * bufring)
}.

Class BufRingLaws (BR : BufRing) : Prop := {
  br_setup_empty n g br : br_setup n g = inr br → br_avail br = [];
  br_add_last bs br : br_avail (br_add bs br) = br_avail br ++ bs;
  br_pick_first br b br' : br_pick br = Some (b, br') → br_avail br = b :: br_avail br'
}.

Module ListBufRing.
#[export] Instance list_buf_ring : BufRing := {|
  bufring := list buf; br_avail l := l; br_setup _ _ := inr []; br_add bs l := l ++ bs;
  br_pick l := match l with [] => None | b :: l => Some (b, l) end |}.
#[export] Instance list_buf_ring_laws : BufRingLaws list_buf_ring.
Proof.
  split; simpl.
  - by intros n g br [= <-].
  - done.
  - by intros [|b l] b' br' [= <- <-].
Qed.
End ListBufRing.

(** ** The object *)

Record mrecv {P : Promise} {BR : BufRing} := MRecv {
  fd_ : Z;
  bgid_ : Z;
  buf_size_ : Z;
  buf_count_ : Z;
  buf_ring_ : option bufring;
  pending_ : list (Z * Z);            (** buffer identifier and size *)
  waiter_ : option (promise ());
  error_ : Z;
  future_ : option (promise ())
}.
Arguments MRecv {P BR} fd_ bgid_ buf_size_ buf_count_ buf_ring_ pending_ waiter_ error_ future_.

(** a handle: [owner_ != nullptr], the buffer and the number of bytes in it *)
Record received_buffer := Received { owner_ : bool; buf_id_ : Z; size_ : Z }.

(** where a call of [next] is after its first half *)
Inductive progress := Done (r : outcome (option received_buffer)) | Wait.

Section handler.
Context {L : Liburing} {P : Promise} {BR : BufRing}.
Implicit Types x : mrecv.

Definition set_ring (br : option bufring) x : mrecv :=
  MRecv (fd_ x) (bgid_ x) (buf_size_ x) (buf_count_ x) br (pending_ x) (waiter_ x) (error_ x) (future_ x).
Definition set_pending (q : list (Z * Z)) x : mrecv :=
  MRecv (fd_ x) (bgid_ x) (buf_size_ x) (buf_count_ x) (buf_ring_ x) q (waiter_ x) (error_ x) (future_ x).
Definition set_error (e : Z) x : mrecv :=
  MRecv (fd_ x) (bgid_ x) (buf_size_ x) (buf_count_ x) (buf_ring_ x) (pending_ x) (waiter_ x) e (future_ x).
Definition set_wait (wt fut : option (promise ())) x : mrecv :=
  MRecv (fd_ x) (bgid_ x) (buf_size_ x) (buf_count_ x) (buf_ring_ x) (pending_ x) wt (error_ x) fut.

(** the slot of buffer [i] *)
Definition slot (buf_size i : Z) : buf := Buf (mul64 i buf_size) (to_u32 buf_size) i.

(** [return_buffer]; with no buffer ring the pointer is null *)
Definition return_buffer (buf_id : Z) x : option mrecv :=
  match buf_ring_ x with
  | None => None
  | Some br => Some (set_ring (Some (br_add [slot (buf_size_ x) buf_id] br)) x)
  end.

Definition recv_sqe (this : Z) x : sqe :=
  set_data this (set_buf_group (bgid_ x)
    (or_flags IOSQE_BUFFER_SELECT (prepped (PrepRecvMultishot (fd_ x) 0 0 0)))).

(** [arm] *)
Definition arm (this : Z) x (r : uring) : uring :=
  match claim (recv_sqe this x) r with
  | None => r
  | Some r' => (io_uring_submit r').2
  end.

(** [waiter_->set_value(); waiter_.reset();] *)
Definition wake_waiter : cxx (mrecv * uring) () := λ '(x, r),
  match waiter_ x with
  | None => (Ret (), (x, r))
  | Some p =>
      match promise_set_value () p with
      | inr p' => (Ret (), (set_wait None (Some p') x, r))
      | inl _ => (Abort, (x, r))
      end
  end.

(** [complete] *)
Definition recv_complete (this res flags : Z) : cxx (mrecv * uring) () :=
  let has_buf := has_flag flags IORING_CQE_F_BUFFER in
  let buf_id := to_u16 (Z.shiftr flags IORING_CQE_BUFFER_SHIFT) in
  _ ← (if 0 <? res then modify (λ '(x, r), (set_pending (pending_ x ++ [(buf_id, res)]) x, r))
       else
         _ ← (λ '(x, r),
                if has_buf then
                  match return_buffer buf_id x with
                  | Some x' => (Ret (), (x', r))
                  | None => (Undef, (x, r))
                  end
                else (Ret (), (x, r)));
         modify (λ '(x, r), (set_error (if res =? 0 then - ENODATA else res) x, r)));
  _ ← wake_waiter;
  if negb (has_flag flags IORING_CQE_F_MORE) && (0 <? res)
  then modify (λ '(x, r), (x, arm this x r)) else mret ().

(** [error_ == -ENODATA || error_ == -ECANCELED || error_ == -EINVAL] *)
Definition ended (e : Z) : bool := (e =? - ENODATA) || (e =? - ECANCELED) || (e =? - EINVAL).

(** [next], up to [future.get()] *)
Definition next_begin (stop : bool) x : progress * mrecv :=
  match pending_ x with
  | (id, n) :: q => (Done (Ret (Some (Received true id n))), set_pending q x)
  | [] =>
      if negb (error_ x =? 0) then
        if ended (error_ x) then (Done (Ret None), x) else (Done (Exn (SystemError (- error_ x))), x)
      else if stop then (Done (Ret None), set_error (- ECANCELED) x)
      else (Wait, set_wait (Some promise_new) None x)
  end.

(** [next], after [future.get()] *)
Definition next_end x : outcome (option received_buffer) * mrecv :=
  match pending_ x with
  | (id, n) :: q => (Ret (Some (Received true id n)), set_pending q x)
  | [] => if ended (error_ x) then (Ret None, x) else (Exn (SystemError (- error_ x)), x)
  end.

(** [received_buffer::data()]: offset and length in the storage *)
Definition rb_data (b : received_buffer) x : outcome (Z * Z) :=
  if owner_ b then
    let off := mul64 (buf_id_ b) (buf_size_ x) in
    let total := mul64 (buf_size_ x) (buf_count_ x) in
    if (off <=? total) && (off + size_ b <=? total) then Ret (off, size_ b) else Undef
  else Undef.

(** ** On a worker *)

Context {H : Type} {HC : CqeHandler H} {D : DerivedHandler H mrecv}.

Definition self (this : Z) (w : worker L H) : option mrecv := h ← w_handlers w !! this; downcast h.
Definition put_self (this : Z) x (w : worker L H) : worker L H := upd_handlers <[this := upcast x]> w.

Definition next (this : Z) (acts : list (cxx (worker L H) ())) : cxx (worker L H) (option received_buffer) := λ w,
  match self this w with
  | None => (Undef, w)
  | Some x =>
      match next_begin (stop_requested (w_fiber_stop w) w) x with
      | (Done r, x') => (r, put_self this x' w)
      | (Wait, x') =>
          match run_actions acts (put_self this x' w) with
          | (Ret _, w') =>
              match self this w' with
              | Some x =>
                  if (p ← future_ x; promise_value p) is Some _
                  then let '(r, x') := next_end x in (r, put_self this x' w')
                  else (Hang, w')
              | None => (Undef, w')
              end
          | (Exn e, w') => (Exn e, w')
          | (Undef, w') => (Undef, w') | (Abort, w') => (Abort, w') | (Hang, w') => (Hang, w')
          end
      end
  end.

(** the constructor; [bgid] is the thread's counter [tl_next_bgid], and the
    result carries its new value *)
Definition multishot_recv (this fd buf_size buf_count bgid : Z) :
    cxx (option (worker L H)) () * Z :=
  (λ t,
    match bit_ceil buf_count with
    | None => (Undef, t)
    | Some count =>
        if (buf_size =? 0) || (buf_count =? 0) then (Exn InvalidArgument, t)
        else
          match t with
          | None => (Exn RuntimeError, t)
          | Some w =>
              match br_setup (to_u32 count) bgid with
              | inl ret => (Exn (SystemError (- ret)), t)
              | inr br =>
                  let br' := br_add (slot buf_size <$> seqZ 0 count) br in
                  let x := MRecv fd bgid buf_size count (Some br') [] None 0 None in
                  match claim (recv_sqe this x) (w_ring w) with
                  | None => (Exn RuntimeError, t)
                  | Some r =>
                      let '(ret, r') := io_uring_submit r in
                      if ret <? 0 then (Exn (SystemError (- ret)), Some (upd_ring (λ _, r') w))
                      else (Ret (), Some (put_self this x (upd_ring (λ _, r') w)))
                  end
              end
          end
    end, to_u16 (bgid + 1)).

(** [while (!pending_.empty()) { return_buffer(front); pop(); }] *)
Fixpoint return_pending (q : list (Z * Z)) x : option mrecv :=
  match q with
  | [] => Some (set_pending [] x)
  | (id, _) :: q => x' ← return_buffer id x; return_pending q x'
  end.

(** [while (next()) {}]: each temporary gives its buffer back at once *)
Fixpoint drain_next (this : Z) (acts : nat → list (cxx (worker L H) ())) (fuel n : nat) :
    cxx (worker L H) () :=
  match fuel with
  | O => λ w, (Hang, w)
  | S fuel =>
      r ← next this (acts n);
      match r with
      | None => mret ()
      | Some b =>
          _ ← (λ w, match (x ← self this w; return_buffer (buf_id_ b) x) with
                    | Some x' => (Ret (), put_self this x' w)
                    | None => (Undef, w) end);
          drain_next this acts fuel (S n)
      end
  end.

(** the [try] block of the destructor and its [catch (...)] *)
Definition recv_quiesce (this : Z) (acts : nat → list (cxx (worker L H) ())) (fuel : nat) :
    cxx (option (worker L H)) () :=
  catch (
    _ ← on_worker (λ w,
      match (x ← self this w; return_pending (pending_ x) x) with
      | Some x' => (Ret (), put_self this x' w)
      | None => (Undef, w)
      end);
    mx ← gets (λ t, w ← t; self this w);
    match mx with
    | Some x =>
        if error_ x =? 0 then _ ← submit_cancel this; on_worker (drain_next this acts fuel 0)
        else mret ()
    | None => undef
    end) (λ _, mret ()).

(** the destructor *)
Definition recv_dtor (this : Z) (acts : nat → list (cxx (worker L H) ())) (fuel : nat) :
    cxx (option (worker L H)) () :=
  _ ← recv_quiesce this acts fuel;
  on_worker (modify (upd_handlers (delete this))).
End handler.

(** ** One receiving fiber, its handles and its completions, interleaved *)

(** the kernel's completion flags: buffer [id] selected, and whether more
    completions will come *)
Definition buf_flags (id : Z) (more : bool) : Z :=
  Z.lor (Z.shiftl id 16) (if more then 3 else 1).

Inductive event :=
  | Data (n : Z) (more : bool)       (** [n] bytes arrive in the buffer the kernel picks *)
  | End (res : Z)                    (** end of stream or an error, no buffer picked *)
  | EndBuf (res : Z)                 (** the same, with a buffer picked and unused *)
  | Call (v : nat) (stop : bool)     (** [auto v = next();] *)
  | Resume (v : nat)                 (** the suspended call returns, into [v] *)
  | MoveCtor (v other : nat)         (** [received_buffer v{std::move(other)};] *)
  | MoveAssign (v other : nat)       (** [v = std::move(other);] *)
  | Drop (v : nat).                  (** [v] goes out of scope *)

Section machine.
Context {L : Liburing} {P : Promise} {BR : BufRing}.

Record run := Run {
  m_obj : mrecv;
  m_ring : uring;
  m_suspended : bool;
  m_vars : gmap nat received_buffer;
  m_arrived : list (Z * Z);          (** buffers the kernel filled, oldest first *)
  m_returned : list (Z * Z)          (** buffers [next] returned, oldest first *)
}.

Definition log_of (r : outcome (option received_buffer)) : list (Z * Z) :=
  match r with Ret (Some b) => [(buf_id_ b, size_ b)] | _ => [] end.
Definition bind_var (v : nat) (r : outcome (option received_buffer)) (vars : gmap nat received_buffer) :
    gmap nat received_buffer :=
  match r with Ret (Some b) => <[v := b]> vars | _ => vars end.

(** what [operator=] and the destructor of a handle do with its buffer *)
Definition give_back (b : received_buffer) (x : mrecv) : option mrecv :=
  if owner_ b then return_buffer (buf_id_ b) x else Some x.

Definition with_obj (x : mrecv) (vars : gmap nat received_buffer) (s : run) : run :=
  Run x (m_ring s) (m_suspended s) vars (m_arrived s) (m_returned s).

(** a completion is handled *)
Definition handle (this res flags : Z) (x : mrecv) (arrived : list (Z * Z)) (s : run) : option run :=
  match recv_complete this res flags (x, m_ring s) with
  | (Ret _, (x', r)) => Some (Run x' r (m_suspended s) (m_vars s) arrived (m_returned s))
  | _ => None
  end.

Definition exec_event (this : Z) (e : event) (s : run) : option run :=
  match e with
  | Data n more =>
      br ← buf_ring_ (m_obj s);
      '(b, br') ← br_pick br;
      if (0 <? n) && (n <=? b_len b) then
        handle this n (buf_flags (b_id b) more) (set_ring (Some br') (m_obj s))
          (m_arrived s ++ [(b_id b, n)]) s
      else None
  | End res => if res <=? 0 then handle this res 0 (m_obj s) (m_arrived s) s else None
  | EndBuf res =>
      br ← buf_ring_ (m_obj s);
      '(b, br') ← br_pick br;
      if res <=? 0 then
        handle this res (buf_flags (b_id b) false) (set_ring (Some br') (m_obj s)) (m_arrived s) s
      else None
  | Call v stop =>
      if m_suspended s || bool_decide (is_Some (m_vars s !! v)) then None
      else
        match next_begin stop (m_obj s) with
        | (Done r, x) => Some (Run x (m_ring s) false (bind_var v r (m_vars s)) (m_arrived s)
                                (m_returned s ++ log_of r))
        | (Wait, x) => Some (Run x (m_ring s) true (m_vars s) (m_arrived s) (m_returned s))
        end
  | Resume v =>
      if m_suspended s && negb (bool_decide (is_Some (m_vars s !! v))) then
        _ ← (p ← future_ (m_obj s); promise_value p);
        let '(r, x) := next_end (m_obj s) in
        Some (Run x (m_ring s) false (bind_var v r (m_vars s)) (m_arrived s) (m_returned s ++ log_of r))
      else None
  | MoveCtor v other =>
      if bool_decide (is_Some (m_vars s !! v)) then None
      else
        o ← m_vars s !! other;
        Some (with_obj (m_obj s) (<[other := Received false (buf_id_ o) (size_ o)]>
          (<[v := Received (owner_ o) (buf_id_ o) (size_ o)]> (m_vars s))) s)
  | MoveAssign v other =>
      if decide (v = other) then (_ ← m_vars s !! v; Some s)
      else
        t ← m_vars s !! v;
        o ← m_vars s !! other;
        x ← give_back t (m_obj s);
        Some (with_obj x (<[other := Received false (buf_id_ o) (size_ o)]>
          (<[v := Received (owner_ o) (buf_id_ o) (size_ o)]> (m_vars s))) s)
  | Drop v =>
      t ← m_vars s !! v;
      x ← give_back t (m_obj s);
      Some (with_obj x (delete v (m_vars s)) s)
  end.

Fixpoint exec_events (this : Z) (es : list event) (s : run) : option run :=
  match es with
  | [] => Some s
  | e :: es => s' ← exec_event this e s; exec_events this es s'
  end.

(** a new object over a buffer ring with all its slots *)
Definition new_run (fd bgid buf_size count : Z) (br : bufring) (r : uring) : run :=
  Run (MRecv fd bgid buf_size count (Some br) [] None 0 None) r false ∅ [] [].
End machine.

(** ** Completion flags *)

Lemma shiftl_land_low id k : 0 ≤ k < 2 ^ 16 → Z.land (Z.shiftl id 16) k = 0.
Proof.
  intros Hk. apply Z.bits_inj_0. intros n. rewrite Z.land_spec.
  destruct (Z.ltb_spec n 16); [by rewrite Z.shiftl_spec_low|].
  destruct (decide (k = 0)) as [->|]; [by rewrite Z.bits_0, andb_false_r|].
  rewrite (Z.bits_above_log2 k n), andb_false_r; [done|lia|].
  apply Z.log2_lt_pow2; [lia|]. assert (2 ^ 16 ≤ 2 ^ n) by (apply Z.pow_le_mono_r; lia). lia.
Qed.

Lemma buf_flags_has id more :
  has_flag (buf_flags id more) IORING_CQE_F_BUFFER = true
  ∧ has_flag (buf_flags id more) IORING_CQE_F_MORE = more.
Proof.
  unfold has_flag, buf_flags, IORING_CQE_F_BUFFER, IORING_CQE_F_MORE.
  rewrite !Z.land_lor_distr_l, !shiftl_land_low by lia. by destruct more.
Qed.

Lemma buf_flags_id id more :
  0 ≤ id < 2 ^ 16 → to_u16 (Z.shiftr (buf_flags id more) IORING_CQE_BUFFER_SHIFT) = id.
Proof.
  intros Hid. unfold buf_flags, IORING_CQE_BUFFER_SHIFT.
  rewrite Z.shiftr_lor, Z.shiftr_shiftl_l by lia. replace (16 - 16) with 0 by lia.
  rewrite Z.shiftl_0_r. replace (Z.shiftr (if more then 3 else 1) 16) with 0 by (by destruct more).
  rewrite Z.lor_0_r. by apply wrap_id.
Qed.

(** ** Invariant *)

Definition owned (b : received_buffer) : list Z := if owner_ b then [buf_id_ b] else [].

Section theory.
Context {L : Liburing} {P : Promise} {HP : PromiseLaws P} {BR : BufRing} {HBR : BufRingLaws BR}.
Context (size count : Z).
Implicit Types (x : mrecv) (s : run).

(** where the buffers are: with the kernel, queued, or owned by a handle *)
Definition held (x : mrecv) (vars : gmap nat received_buffer) (br : bufring) : list Z :=
  (b_id <$> br_avail br) ++ (pending_ x).*1 ++ lent owned vars.

Record wf (s : run) : Prop := {
  wf_ring : ∃ br, buf_ring_ (m_obj s) = Some br
    ∧ Forall (λ b, b = slot size (b_id b)) (br_avail br)
    ∧ held (m_obj s) (m_vars s) br ≡ₚ seqZ 0 count;
  wf_log : m_arrived s = m_returned s ++ pending_ (m_obj s);
  wf_sizes : Forall (λ p, 0 < p.2 ≤ size) (pending_ (m_obj s))
    ∧ ∀ v b, m_vars s !! v = Some b → 0 < size_ b ≤ size;
  wf_waiter p : waiter_ (m_obj s) = Some p →
    m_suspended s = true ∧ pending_ (m_obj s) = [] ∧ error_ (m_obj s) = 0 ∧ promise_value p = None
    ∧ future_ (m_obj s) = None;
  wf_suspended : m_suspended s = true → waiter_ (m_obj s) = None →
    (∃ p, future_ (m_obj s) = Some p ∧ promise_value p = Some ())
    ∧ (pending_ (m_obj s) ≠ [] ∨ error_ (m_obj s) ≠ 0);
  wf_params : buf_size_ (m_obj s) = size ∧ buf_count_ (m_obj s) = count
}.

(** a completion wakes the waiter and leaves the rest of the object alone *)
Lemma wake_spec x r :
  (∀ p, waiter_ x = Some p → promise_value p = None) →
  ∃ x', wake_waiter (x, r) = (Ret (), (x', r)) ∧ waiter_ x' = None
    ∧ pending_ x' = pending_ x ∧ error_ x' = error_ x ∧ buf_ring_ x' = buf_ring_ x
    ∧ buf_size_ x' = buf_size_ x ∧ buf_count_ x' = buf_count_ x
    ∧ (waiter_ x = None ∧ future_ x' = future_ x
       ∨ is_Some (waiter_ x) ∧ ∃ p, future_ x' = Some p ∧ promise_value p = Some ()).
Proof.
  intros Hp. unfold wake_waiter. destruct (waiter_ x) as [p|] eqn:Hw.
  - destruct (promise_set_fresh _ () p (Hp p eq_refl)) as (p' & -> & Hv).
    eexists. split; [done|]. simpl. eauto 15.
  - exists x. eauto 15.
Qed.

(** what a completion does to the object *)
Lemma recv_complete_obj this res flags x r br :
  (∀ p, waiter_ x = Some p → promise_value p = None) → buf_ring_ x = Some br →
  let id := to_u16 (Z.shiftr flags IORING_CQE_BUFFER_SHIFT) in
  ∃ x' r', recv_complete this res flags (x, r) = (Ret (), (x', r'))
    ∧ waiter_ x' = None ∧ buf_size_ x' = buf_size_ x ∧ buf_count_ x' = buf_count_ x
    ∧ (waiter_ x = None ∧ future_ x' = future_ x
       ∨ is_Some (waiter_ x) ∧ ∃ p, future_ x' = Some p ∧ promise_value p = Some ())
    ∧ (if 0 <? res then pending_ x' = pending_ x ++ [(id, res)] ∧ error_ x' = error_ x
                        ∧ buf_ring_ x' = Some br
       else pending_ x' = pending_ x ∧ error_ x' = (if res =? 0 then - ENODATA else res)
            ∧ buf_ring_ x' = Some (if has_flag flags IORING_CQE_F_BUFFER
                                   then br_add [slot (buf_size_ x) id] br else br))
    ∧ (negb (has_flag flags IORING_CQE_F_MORE) && (0 <? res) = false → r' = r).
Proof.
  intros Hp Hbr id. unfold recv_complete. fold id.
  set (cond := negb (has_flag flags IORING_CQE_F_MORE) && (0 <? res)).
  assert (∀ x0 : mrecv, (if cond then modify (λ '(x, r), (x, arm this x r)) else mret ()) (x0, r)
    = (Ret (), (x0, if cond then arm this x0 r else r))) as Hre by (by intros; destruct cond).
  destruct (0 <? res) eqn:Hres.
  - destruct (wake_spec (set_pending (pending_ x ++ [(id, res)]) x) r) as (x' & E & Hw & Hq & He & Hb & Hs & Hc & Hf);
      [done|]. eexists x', _. split.
    { bind_ret. erewrite cxx_bind_ret by exact E. apply Hre. }
    split; [done|]. split; [done|]. split; [done|]. split; [done|]. split; [by rewrite Hq, He, Hb|].
    by intros ->.
  - set (x1 := set_error (if res =? 0 then - ENODATA else res)
      (set_ring (Some (if has_flag flags IORING_CQE_F_BUFFER then br_add [slot (buf_size_ x) id] br else br)) x)).
    destruct (wake_spec x1 r) as (x' & E & Hw & Hq & He & Hb & Hs & Hc & Hf); [done|].
    eexists x', _. split.
    { erewrite (cxx_bind_ret _ _ _ () (x1, r)); [erewrite cxx_bind_ret by exact E; apply Hre|].
      unfold mbind, cxx_mbind, cxx_bind. destruct (has_flag flags IORING_CQE_F_BUFFER).
      - unfold return_buffer. by rewrite Hbr.
      - unfold x1. destruct x. simpl in *. by rewrite Hbr. }
    split; [done|]. split; [done|]. split; [done|]. split; [done|]. split; [by rewrite Hq, He, Hb|].
    by intros ->.
Qed.
Hypothesis Hsize : 0 < size.
Hypothesis Hcount : 0 ≤ count ≤ 2 ^ 16.

(** the buffer the kernel picks *)
Lemma pick_spec s br b br' :
  wf s → buf_ring_ (m_obj s) = Some br → br_pick br = Some (b, br') →
  br_avail br = b :: br_avail br' ∧ Forall (λ b, b = slot size (b_id b)) (br_avail br')
  ∧ 0 ≤ b_id b < 2 ^ 16 ∧ b_len b ≤ size
  ∧ b_id b :: held (m_obj s) (m_vars s) br' ≡ₚ seqZ 0 count.
Proof using All.
  intros [(br0 & Hbr & Hsl & Hh) _ _ _ _ _] Hbr' Hp. rewrite Hbr in Hbr'. injection Hbr' as ->.
  pose proof (br_pick_first _ _ _ Hp) as Hav. unfold held in *. rewrite Hav in Hsl, Hh. simpl in Hh.
  apply Forall_cons in Hsl as [Hb Hsl]. split; [done|]. split; [done|].
  assert (b_id b ∈ seqZ 0 count) as Hin%elem_of_seqZ by (rewrite <-Hh; by left).
  split; [lia|]. split; [|done]. rewrite Hb. unfold slot, to_u32, wrap. simpl.
  apply Z.mod_le; lia.
Qed.

(** the part of the invariant about the waiter, after any completion *)
Lemma complete_waiter s x x' :
  wf s → waiter_ x = waiter_ (m_obj s) → future_ x = future_ (m_obj s) → waiter_ x' = None →
  waiter_ x = None ∧ future_ x' = future_ x
    ∨ is_Some (waiter_ x) ∧ (∃ p, future_ x' = Some p ∧ promise_value p = Some ()) →
  m_suspended s = true → ∃ p, future_ x' = Some p ∧ promise_value p = Some ().
Proof using Type.
  intros Hwf Hwx Hfx _ [[Hn Hf]|[_ Hf]] Hs; [|done].
  rewrite Hf, Hfx. apply (wf_suspended s Hwf); [done|congruence].
Qed.

Lemma data_wf this n more s s' : wf s → exec_event this (Data n more) s = Some s' → wf s'.
Proof using All.
  intros Hwf. simpl. destruct (buf_ring_ (m_obj s)) as [br|] eqn:Hbr; [|done]. simpl.
  destruct (br_pick br) as [[b br']|] eqn:Hp; [|done]. simpl.
  destruct (Z.ltb_spec 0 n) as [Hn|]; [|done]. destruct (Z.leb_spec n (b_len b)) as [Hle|]; [|done]. simpl.
  destruct (pick_spec s br b br' Hwf Hbr Hp) as (Hav & Hsl & Hid & Hlen & Hh).
  unfold handle. set (x := set_ring (Some br') (m_obj s)).
  destruct (recv_complete_obj this n (buf_flags (b_id b) more) x (m_ring s) br')
    as (x' & r' & -> & Hw & Hsz & Hcn & Hf & Hx & _); [|done|].
  { intros p Hpw. by apply (wf_waiter s Hwf p). }
  rewrite (proj2 (Z.ltb_lt 0 n)) in Hx by done. destruct Hx as (Hq & He & Hr).
  rewrite buf_flags_id in Hq by done. intros [= <-].
  split; simpl.
  - exists br'. split; [done|]. split; [done|]. unfold held in *. rewrite Hq. simpl.
    rewrite <-Hh, fmap_app. simpl. solve_Permutation.
  - rewrite Hq, (wf_log s Hwf). by rewrite app_assoc.
  - rewrite Hq. split; [|by apply (wf_sizes s Hwf)]. apply Forall_app. split; [by apply (wf_sizes s Hwf)|].
    repeat constructor; simpl; lia.
  - by rewrite Hw.
  - intros Hs _. split; [by eapply (complete_waiter s x)|]. left. rewrite Hq. by destruct (pending_ x).
  - rewrite Hsz, Hcn. apply (wf_params s Hwf).
Qed.

(** an end of stream or an error, with buffer ring [br] afterwards *)
Lemma end_wf this res flags x br s s' :
  wf s → res ≤ 0 → x = set_ring (buf_ring_ x) (m_obj s) →
  (let id := to_u16 (Z.shiftr flags IORING_CQE_BUFFER_SHIFT) in
   ∃ br0, buf_ring_ x = Some br0
     ∧ br = (if has_flag flags IORING_CQE_F_BUFFER then br_add [slot size id] br0 else br0)) →
  Forall (λ b, b = slot size (b_id b)) (br_avail br) →
  held (m_obj s) (m_vars s) br ≡ₚ seqZ 0 count →
  handle this res flags x (m_arrived s) s = Some s' → wf s'.
Proof using HP.
  intros Hwf Hres Hx (br0 & Hbr0 & Hbr) Hsl Hh. unfold handle.
  destruct (recv_complete_obj this res flags x (m_ring s) br0)
    as (x' & r' & -> & Hw & Hsz & Hcn & Hf & Hx' & _); [|done|].
  { intros p Hpw. rewrite Hx in Hpw. by apply (wf_waiter s Hwf p). }
  rewrite (proj2 (Z.ltb_ge 0 res)) in Hx' by done. destruct Hx' as (Hq & He & Hr).
  assert (buf_size_ x = size ∧ buf_count_ x = count) as [Hs1 Hc1].
  { rewrite Hx. apply (wf_params s Hwf). }
  assert (pending_ x = pending_ (m_obj s)) as Hqx by (by rewrite Hx).
  rewrite Hs1, <-Hbr in Hr. intros [= <-]. split; simpl.
  - exists br. split; [done|]. split; [done|]. unfold held in *. by rewrite Hq, Hqx.
  - by rewrite Hq, Hqx, (wf_log s Hwf).
  - rewrite Hq, Hqx. apply (wf_sizes s Hwf).
  - by rewrite Hw.
  - intros Hs _. split.
    { apply (complete_waiter s x x'); try done; rewrite Hx; done. }
    right. rewrite He. destruct (Z.eqb_spec res 0); unfold ENODATA; lia.
  - by rewrite Hsz, Hcn.
Qed.

Lemma ends_wf this e s s' :
  match e with End _ | EndBuf _ => True | _ => False end →
  wf s → exec_event this e s = Some s' → wf s'.
Proof using All.
  intros He Hwf. pose proof (wf_ring s Hwf) as (br & Hbr & Hsl & Hh).
  destruct e as [| res|res| | | | |]; try done; simpl.
  - destruct (Z.leb_spec res 0); [|done]. apply (end_wf this res 0 (m_obj s) br); try done.
    + by destruct (m_obj s).
    + by exists br.
  - rewrite Hbr. simpl. destruct (br_pick br) as [[b br']|] eqn:Hp; [|done]. simpl.
    destruct (Z.leb_spec res 0); [|done].
    destruct (pick_spec s br b br' Hwf Hbr Hp) as (Hav & Hsl' & Hid & Hlen & Hh').
    apply (end_wf this res (buf_flags (b_id b) false) (set_ring (Some br') (m_obj s))
      (br_add [slot size (b_id b)] br')); try done.
    + exists br'. destruct (buf_flags_has (b_id b) false) as [-> _]. by rewrite buf_flags_id.
    + rewrite br_add_last. apply Forall_app. split; [done|]. by repeat constructor.
    + unfold held in *. rewrite br_add_last, fmap_app. simpl. rewrite <-Hh'. solve_Permutation.
Qed.
(** the front of the queue is handed to variable [v] *)
Lemma hand_out_wf s v id n q susp :
  wf s → waiter_ (m_obj s) = None → m_vars s !! v = None → pending_ (m_obj s) = (id, n) :: q →
  susp = false →
  wf (Run (set_pending q (m_obj s)) (m_ring s) susp (<[v := Received true id n]> (m_vars s))
    (m_arrived s) (m_returned s ++ [(id, n)])).
Proof using Type.
  intros Hwf Hw Hv Hq ->. pose proof Hwf as [(br & Hbr & Hsl & Hh) Hl [Hs1 Hs2] _ _ Hp].
  rewrite Hq in *. apply Forall_cons in Hs1 as [Hn Hs1]. split; simpl; try done.
  - exists br. split; [done|]. split; [done|]. unfold held in *. simpl. rewrite Hq in Hh. simpl in Hh.
    rewrite <-Hh, lent_insert by done. simpl. solve_Permutation.
  - by rewrite Hl, <-app_assoc.
  - split; [done|]. intros u b. destruct (decide (u = v)) as [->|].
    + rewrite lookup_insert_eq. by intros [= <-].
    + rewrite lookup_insert_ne by done. apply Hs2.
  - by rewrite Hw.
Qed.

(** a call that returns nothing, or throws *)
Lemma no_buffer_wf s x :
  wf s → waiter_ (m_obj s) = None → x = set_error (error_ x) (m_obj s) →
  wf (Run x (m_ring s) false (m_vars s) (m_arrived s) (m_returned s ++ [])).
Proof using Type.
  intros Hwf Hw Hx. rewrite app_nil_r, Hx. destruct Hwf. split; simpl; try done. by rewrite Hw.
Qed.

Lemma recv_call_wf this v stop s s' : wf s → exec_event this (Call v stop) s = Some s' → wf s'.
Proof using HP.
  intros Hwf. simpl. destruct (m_suspended s) eqn:Hsu; [done|]. simpl.
  case_bool_decide as Hv; [done|]. apply eq_None_not_Some in Hv.
  assert (waiter_ (m_obj s) = None) as Hw.
  { destruct (waiter_ (m_obj s)) as [p|] eqn:E; [|done]. destruct (wf_waiter s Hwf p E). congruence. }
  unfold next_begin. destruct (pending_ (m_obj s)) as [|[id n] q] eqn:Hq.
  - destruct (negb (error_ (m_obj s) =? 0)) eqn:He; [|destruct stop].
    + destruct (ended _); intros [= <-]; apply no_buffer_wf; try done; by destruct (m_obj s).
    + intros [= <-]. by apply no_buffer_wf.
    + intros [= <-]. destruct Hwf as [Hr Hl Hs _ _ Hp]. split; simpl; try done.
      intros p [= <-]. split; [done|]. split; [done|]. split; [|split; [apply promise_value_new|done]].
      apply negb_false_iff, Z.eqb_eq in He. done.
  - intros [= <-]. by apply hand_out_wf.
Qed.

Lemma recv_resume_wf this v s s' : wf s → exec_event this (Resume v) s = Some s' → wf s'.
Proof using HP.
  intros Hwf. simpl. destruct (m_suspended s) eqn:Hsu; [|done]. simpl.
  case_bool_decide as Hv; [done|]. apply eq_None_not_Some in Hv. simpl.
  destruct (p ← future_ (m_obj s); promise_value p) as [[]|] eqn:Hf; [|done]. simpl.
  destruct (waiter_ (m_obj s)) as [p|] eqn:Hw.
  { destruct (wf_waiter s Hwf p Hw) as (_ & _ & _ & _ & Hnf). by rewrite Hnf in Hf. }
  unfold next_end. destruct (pending_ (m_obj s)) as [|[id n] q] eqn:Hq.
  - destruct (ended _); intros [= <-]; apply no_buffer_wf; try done; by destruct (m_obj s).
  - intros [= <-]. by apply hand_out_wf.
Qed.

(** a handle gives its buffer back to the kernel *)
Lemma give_back_spec s v t :
  wf s → m_vars s !! v = Some t →
  ∃ br x, give_back t (m_obj s) = Some x ∧ buf_ring_ x = Some br
    ∧ x = set_ring (Some br) (m_obj s)
    ∧ Forall (λ b, b = slot size (b_id b)) (br_avail br)
    ∧ held (m_obj s) (delete v (m_vars s)) br ≡ₚ seqZ 0 count
    ∧ ∀ br0, buf_ring_ (m_obj s) = Some br0 → br_avail br = br_avail br0 ++ (slot size <$> owned t).
Proof using HBR.
  intros Hwf Hv. destruct Hwf as [(br & Hbr & Hsl & Hh) _ _ _ _ [Hsz _]].
  unfold give_back, held, owned in *. rewrite (lent_delete _ v t _ Hv) in Hh. destruct (owner_ t) eqn:Ho.
  - exists (br_add [slot size (buf_id_ t)] br). unfold return_buffer. rewrite Hbr, Hsz.
    eexists. split; [done|]. split; [done|]. split; [done|]. rewrite br_add_last. split_and!.
    + apply Forall_app. split; [done|]. by repeat constructor.
    + rewrite <-Hh, fmap_app. simpl. solve_Permutation.
    + by intros br0 [= <-].
  - exists br, (m_obj s). split; [done|]. split; [done|]. split; [by destruct (m_obj s); simpl in *; rewrite Hbr|].
    split; [done|]. split; [done|]. intros br0 Hbr0. rewrite Hbr in Hbr0. injection Hbr0 as <-. by rewrite app_nil_r.
Qed.

Lemma with_obj_wf s br vars :
  wf s → Forall (λ b, b = slot size (b_id b)) (br_avail br) →
  held (m_obj s) vars br ≡ₚ seqZ 0 count → (∀ v b, vars !! v = Some b → 0 < size_ b ≤ size) →
  wf (with_obj (set_ring (Some br) (m_obj s)) vars s).
Proof using Type.
  intros [_ Hl [Hs _] Hw Hsu Hp] Hsl Hh Hv. split; simpl; try done. by exists br.
Qed.

Lemma handles_wf this e s s' :
  match e with MoveCtor _ _ | MoveAssign _ _ | Drop _ => True | _ => False end →
  wf s → exec_event this e s = Some s' → wf s'.
Proof using HBR.
  intros He Hwf. pose proof (wf_sizes s Hwf) as [_ Hsz]. pose proof (wf_ring s Hwf) as (br & Hbr & Hsl & Hh).
  destruct e as [| | | | |v u|v u|v]; try done; simpl.
  - case_bool_decide as Hv; [done|]. apply eq_None_not_Some in Hv.
    destruct (m_vars s !! u) as [o|] eqn:Hu; [|done]. simpl. intros [= <-].
    replace (m_obj s) with (set_ring (Some br) (m_obj s)) by (destruct (m_obj s); simpl in *; by rewrite Hbr).
    apply with_obj_wf; try done.
    + unfold held in *. rewrite <-Hh. do 2 apply Permutation_app_head.
      pose proof (lent_move owned u v o (Received (owner_ o) (buf_id_ o) (size_ o))
        (Received false (buf_id_ o) (size_ o)) (m_vars s)) as Hm.
      rewrite Hv in Hm. simpl in Hm. rewrite app_nil_r in Hm. apply Hm; done || congruence.
    + intros j b. rewrite !lookup_insert_Some. intros [[<- <-]|[_ [[<- <-]|[_ ?]]]]; simpl; eauto.
  - case_decide as Hd; [destruct (m_vars s !! v); [by intros [= <-]|done]|].
    destruct (m_vars s !! v) as [t|] eqn:Hv; [|done]. simpl.
    destruct (m_vars s !! u) as [o|] eqn:Hu; [|done]. simpl.
    destruct (give_back_spec s v t Hwf Hv) as (br' & x & -> & _ & -> & Hsl' & _ & Hav). simpl. intros [= <-].
    apply with_obj_wf; try done.
    + unfold held in *. rewrite (Hav br Hbr), fmap_app, <-Hh, <-!app_assoc. apply Permutation_app_head.
      rewrite (Permutation_app_comm (b_id <$> _)), <-app_assoc. apply Permutation_app_head.
      pose proof (lent_move owned u v o (Received (owner_ o) (buf_id_ o) (size_ o))
        (Received false (buf_id_ o) (size_ o)) (m_vars s)) as Hm.
      rewrite Hv in Hm. simpl in Hm. rewrite <-Hm by (done || congruence).
      apply Permutation_app_head. unfold owned. by destruct (owner_ t).
    + intros j b. rewrite !lookup_insert_Some. intros [[<- <-]|[_ [[<- <-]|[_ ?]]]]; simpl; eauto.
  - destruct (m_vars s !! v) as [t|] eqn:Hv; [|done]. simpl.
    destruct (give_back_spec s v t Hwf Hv) as (br' & x & -> & _ & -> & Hsl' & Hh' & _). simpl. intros [= <-].
    apply with_obj_wf; try done. intros j b. rewrite lookup_delete_Some. intros [_ ?]; eauto.
Qed.

Lemma recv_exec_events_wf this es s s' : wf s → exec_events this es s = Some s' → wf s'.
Proof using All.
  revert s. induction es as [|e es IH]; intros s Hwf; simpl; [by intros [= <-]|].
  intros (s1 & E & Hs')%bind_Some. apply (IH s1); [|done].
  destruct e; (by eapply data_wf) || (by eapply recv_call_wf) || (by eapply recv_resume_wf)
    || (eapply ends_wf; [| |exact E]; done) || (eapply handles_wf; [| |exact E]; done).
Qed.

(** [data()] of a handle that owns a buffer *)
Lemma rb_data_spec s v b :
  wf s → size * count < 2 ^ 64 → m_vars s !! v = Some b → owner_ b = true →
  rb_data b (m_obj s) = Ret (buf_id_ b * size, size_ b)
  ∧ 0 ≤ buf_id_ b < count ∧ 0 ≤ buf_id_ b * size ∧ 0 < size_ b ≤ size ∧ buf_id_ b * size + size_ b ≤ size * count.
Proof using All.
  intros [(br & _ & _ & Hh) _ [_ Hsz] _ _ [Hsz1 Hcn1]] Hprod Hv Ho.
  pose proof (Hsz v b Hv) as Hn. unfold held in Hh. rewrite (lent_delete owned v b _ Hv) in Hh.
  unfold owned in Hh. rewrite Ho in Hh.
  assert (buf_id_ b ∈ seqZ 0 count) as Hin by (rewrite <-Hh; set_solver). apply elem_of_seqZ in Hin. clear Hh Hsz.
  assert (0 ≤ buf_id_ b * size ∧ buf_id_ b * size + size_ b ≤ size * count) by nia.
  split; [|lia]. unfold rb_data, mul64, to_u64. rewrite Ho, Hsz1, Hcn1, !wrap_id by (clear Hsz1 Hcn1; lia || nia).
  rewrite (proj2 (Z.leb_le _ _)), (proj2 (Z.leb_le _ _)) by lia. done.
Qed.

Lemma recv_new_run_wf fd bgid br r :
  br_avail br = slot size <$> seqZ 0 count → wf (new_run fd bgid size count br r).
Proof using Type.
  intros Hav. split; simpl; try done.
  - exists br. split; [done|]. rewrite Hav. split.
    + apply Forall_fmap, Forall_forall. done.
    + unfold held. simpl. rewrite lent_empty, app_nil_r, Hav.
      clear. induction (seqZ 0 count) as [|i l IH]; [done|]. by apply (Permutation_skip i).
Qed.
End theory.

(** ** Destruction on a live fiber *)

Section destruction.
Context {L : Liburing} {P : Promise} {HP : PromiseLaws P} {BR : BufRing} {HBR : BufRingLaws BR}
  {H : Type} {HC : CqeHandler H} {D : DerivedHandler H mrecv}
  {DL : DerivedHandlerLaws H mrecv D recv_complete}.
Context (fds : efd_bufs) (this : Z) (Hthis : k_cancel_tag < this).
Implicit Types (x : mrecv) (w : worker L H).

Lemma self_upcast x w : w_handlers w !! this = Some (upcast x) → self this w = Some x.
Proof using DL. intros Hx. unfold self. rewrite Hx. simpl. apply downcast_upcast. Qed.

(** the buffers [ids] have been given back to the kernel, in this order *)
Definition given_back (ids : list Z) (x x' : mrecv) : Prop :=
  buf_size_ x' = buf_size_ x ∧ ∃ br br', buf_ring_ x = Some br ∧ buf_ring_ x' = Some br'
    ∧ br_avail br' = br_avail br ++ (slot (buf_size_ x) <$> ids).

Lemma given_back_none x x' :
  is_Some (buf_ring_ x) → buf_ring_ x' = buf_ring_ x → buf_size_ x' = buf_size_ x → given_back [] x x'.
Proof using Type. intros [br Hbr] Hr Hs. split; [done|]. exists br, br. by rewrite Hr, app_nil_r. Qed.

Lemma given_back_trans ids1 ids2 x1 x2 x3 :
  given_back ids1 x1 x2 → given_back ids2 x2 x3 → given_back (ids1 ++ ids2) x1 x3.
Proof using Type.
  intros [Hs1 (br1 & br2 & H1 & H2 & Ha)] [Hs2 (br2' & br3 & H2' & H3 & Hb)]. simplify_eq.
  split; [congruence|]. exists br1, br3. split; [done|]. split; [done|].
  by rewrite Hb, Ha, Hs1, fmap_app, <-app_assoc.
Qed.

Lemma recv_return_spec id x :
  is_Some (buf_ring_ x) →
  ∃ x', return_buffer id x = Some x' ∧ given_back [id] x x' ∧ pending_ x' = pending_ x ∧ error_ x' = error_ x.
Proof using HBR.
  intros [br Hbr]. unfold return_buffer. rewrite Hbr. eexists. split; [done|]. split; [|done].
  split; [done|]. exists br. eexists. split; [done|]. split; [done|]. by rewrite br_add_last.
Qed.

Lemma given_back_ring ids x x' : given_back ids x x' → is_Some (buf_ring_ x').
Proof using Type. intros [_ (? & br & _ & ? & _)]. by eexists. Qed.

Lemma return_pending_spec q x :
  is_Some (buf_ring_ x) →
  ∃ x', return_pending q x = Some x' ∧ given_back q.*1 x x' ∧ pending_ x' = [] ∧ error_ x' = error_ x.
Proof using HBR.
  revert x. induction q as [|[id n] q IH]; intros x Hx; simpl.
  { eexists. split; [done|]. split; [by apply given_back_none|done]. }
  destruct (recv_return_spec id x Hx) as (x1 & -> & Hb & _ & He). simpl.
  destruct (IH x1) as (x' & -> & Hb' & Hq' & He'); [by eapply given_back_ring|].
  exists x'. split; [done|]. split; [by apply (given_back_trans [id] q.*1 x x1 x')|]. split; congruence.
Qed.

(** data that arrives, each in a buffer, while the entry stays armed, and the
    entry's last completion, if it comes *)
Definition data_cqes (ds : list (Z * Z)) : list cqe := (λ '(id, n), Cqe this n (buf_flags id true)) <$> ds.
Definition data_ok (ds : list (Z * Z)) : Prop := Forall (λ '(id, n), 0 ≤ id < 2 ^ 16 ∧ 0 < n) ds.
Definition last_cqe (end_ : option Z) : list cqe := if end_ is Some res then [Cqe this res 0] else [].
Definition end_ok (end_ : option Z) : Prop := if end_ is Some res then res ≤ 0 else True.

(** [error_] after that *)
Definition end_error (end_ : option Z) (e : Z) : Z :=
  if end_ is Some res then if res =? 0 then - ENODATA else res else e.

Lemma end_error_nonzero res e : end_ok (Some res) → end_error (Some res) e ≠ 0.
Proof using Type. simpl. unfold ENODATA. destruct (Z.eqb_spec res 0); lia. Qed.

Abbreviation ready x := (is_Some (p ← future_ x; promise_value p)).

(** the object after these completions: the data queued, the end recorded, a
    waiter woken *)
Record arrived (ds : list (Z * Z)) (end_ : option Z) (x x' : mrecv) : Prop := {
  ar_pending : pending_ x' = pending_ x ++ ds;
  ar_error : error_ x' = end_error end_ (error_ x);
  ar_ring : buf_ring_ x' = buf_ring_ x;
  ar_size : buf_size_ x' = buf_size_ x;
  ar_ready : ready x → ready x';
  ar_woken : is_Some (waiter_ x) → ds ≠ [] ∨ is_Some end_ → ready x'
}.

(** one completion for the object *)
Lemma recv_cqe_step res flags x w br :
  w_handlers w !! this = Some (upcast x) → buf_ring_ x = Some br →
  (∀ p, waiter_ x = Some p → promise_value p = None) →
  negb (has_flag flags IORING_CQE_F_MORE) && (0 <? res) = false →
  ∃ x', handle_cqe fds (Cqe this res flags) w = (Ret (), put_self this x' (upd_ring (λ _, w_ring w) w))
    ∧ waiter_ x' = None ∧ buf_size_ x' = buf_size_ x ∧ (ready x → ready x') ∧ (is_Some (waiter_ x) → ready x')
    ∧ (if 0 <? res then pending_ x' = pending_ x ++ [(to_u16 (Z.shiftr flags IORING_CQE_BUFFER_SHIFT), res)]
         ∧ error_ x' = error_ x ∧ buf_ring_ x' = Some br
       else pending_ x' = pending_ x ∧ error_ x' = (if res =? 0 then - ENODATA else res)
         ∧ (has_flag flags IORING_CQE_F_BUFFER = false → buf_ring_ x' = Some br)).
Proof using HP DL Hthis.
  intros Hh Hbr Hw Hre.
  destruct (recv_complete_obj this res flags x (w_ring w) br Hw Hbr)
    as (x' & r' & E & Hw' & Hs & _ & Hf & Hif & Hr). rewrite (Hr Hre) in E.
  exists x'. split; [rewrite (handle_derived fds (Cqe this res flags) w x Hthis Hh); simpl; by rewrite E|].
  split; [done|]. split; [done|]. split_and!.
  - destruct Hf as [[_ ->]|[_ (p & -> & Hp)]]; [done|]. intros _. simpl. by eexists.
  - destruct Hf as [[Hn _]|[_ (p & -> & Hp)]]; [rewrite Hn; by intros []|]. intros _. simpl. by eexists.
  - destruct (0 <? res); [done|]. destruct Hif as (? & ? & Hb). split_and!; [done..|]. intros Hn. by rewrite Hn in Hb.
Qed.

Lemma drain_arrived ds end_ x w :
  data_ok ds → end_ok end_ → w_handlers w !! this = Some (upcast x) → is_Some (buf_ring_ x) →
  (∀ p, waiter_ x = Some p → promise_value p = None) →
  ∃ w' x', drain_cqes fds (data_cqes ds ++ last_cqe end_) w = (Ret (), w')
    ∧ w_handlers w' !! this = Some (upcast x') ∧ arrived ds end_ x x'
    ∧ w_ring w' = w_ring w ∧ w_stops w' = w_stops w ∧ w_fiber_stop w' = w_fiber_stop w.
Proof using HP DL Hthis.
  intros Hds Hend. revert x w. induction Hds as [|[id n] ds [Hid Hn] _ IH]; intros x w Hh [br Hbr] Hw; simpl.
  - destruct end_ as [res|]; simpl.
    + destruct (recv_cqe_step res 0 x w br Hh Hbr Hw) as (x' & E & _ & Hs & Hr & Hk & Hif);
        [simpl in *; lia|].
      rewrite (proj2 (Z.ltb_ge 0 res)) in Hif by (simpl in Hend; lia). destruct Hif as (Hq & He & Hb).
      erewrite cxx_bind_ret by exact E. eexists _, x'. split; [done|]. simpl. rewrite lookup_insert_eq.
      split; [done|]. split; [|done]. split; [by rewrite Hq, app_nil_r|done|by rewrite (Hb eq_refl)|auto..].
    + exists w, x. split_and!; try done. split; simpl; rewrite ?app_nil_r; try done. by intros _ [].
  - destruct (recv_cqe_step n (buf_flags id true) x w br Hh Hbr Hw) as (x1 & E & Hw1 & Hs & Hr & Hk & Hif);
      [by rewrite (proj2 (buf_flags_has id true))|].
    rewrite (proj2 (Z.ltb_lt _ _) Hn), buf_flags_id in Hif by done. destruct Hif as (Hq & He & Hb).
    erewrite cxx_bind_ret by exact E.
    destruct (IH x1 (put_self this x1 (upd_ring (λ _, w_ring w) w))) as (w' & x' & E' & Hh' & Har & Hrest);
      [apply lookup_insert_eq|by eexists|by intros p; rewrite Hw1|].
    exists w', x'. split; [exact E'|]. split; [done|]. split; [|done].
    destruct Har as [Hq' He' Hb' Hs' Hr' Hk'].
    split; [by rewrite Hq', Hq, <-app_assoc|by rewrite He', He|by rewrite Hb', Hb|by rewrite Hs', Hs|auto..].
Qed.

(** how the loop [while (next()) {}] ends, by [error_] *)
Definition drained (e : Z) : outcome () :=
  if e =? 0 then Hang else if ended e then Ret () else Exn (SystemError (- e)).

(** what the loop leaves: nothing queued, every buffer with the kernel *)
Record emptied (ids : list Z) (x : mrecv) (w w' : worker L H) : Prop := {
  em_obj : ∃ x', w_handlers w' !! this = Some (upcast x') ∧ given_back ids x x' ∧ pending_ x' = [];
  em_ring : w_ring w' = w_ring w
}.

(** the queued buffers given back one by one; then the end is found, or, when
    it has not come, waited for *)
Lemma drain_next_queued acts fuel n ds x w :
  w_handlers w !! this = Some (upcast x) → pending_ x = ds → is_Some (buf_ring_ x) →
  stop_requested (w_fiber_stop w) w = false → (error_ x = 0 → ∀ m, acts (n + m)%nat = []) → (length ds < fuel)%nat →
  ∃ w', drain_next this acts fuel n w = (drained (error_ x), w') ∧ emptied ds.*1 x w w'.
Proof using HBR HP DL.
  revert fuel n x w. induction ds as [|[id k] ds IH]; intros fuel n x w Hh Hq Hb Hns Hno Hfuel;
    (destruct fuel as [|fuel]; [simpl in Hfuel; lia|]); simpl.
  - unfold mbind, cxx_mbind, cxx_bind, next. rewrite (self_upcast x w Hh), Hns. unfold next_begin.
    rewrite Hq. unfold drained. destruct (Z.eqb_spec (error_ x) 0) as [He|He]; simpl.
    + specialize (Hno He 0%nat). rewrite Nat.add_0_r in Hno. rewrite Hno. simpl.
      rewrite (self_upcast (set_wait (Some promise_new) None x)) by apply lookup_insert_eq. simpl.
      eexists. split; [done|]. split; [|done]. eexists. split; [apply lookup_insert_eq|].
      split; [by apply given_back_none|done].
    + destruct (ended (error_ x)); (eexists; split; [done|]; split; [|done]; exists x;
        split; [apply lookup_insert_eq|]; split; [by apply given_back_none|done]).
  - set (w1 := put_self this (set_pending ds x) w).
    erewrite (cxx_bind_ret _ _ _ (Some (Received true id k)) w1); last first.
    { unfold next. rewrite (self_upcast x w Hh). unfold next_begin. by rewrite Hq. }
    assert (self this w1 = Some (set_pending ds x)) as Hs1 by (apply self_upcast, lookup_insert_eq).
    destruct (recv_return_spec id (set_pending ds x) Hb) as (x2 & E2 & Hb2 & Hq2 & He2).
    erewrite (cxx_bind_ret _ _ _ () (put_self this x2 w1)) by (rewrite Hs1; simpl; by rewrite E2).
    destruct (IH fuel (S n) x2 (put_self this x2 w1)) as (w' & E & [(x' & Hx' & Hb' & Hp') Hr]);
      [apply lookup_insert_eq|done|by eapply given_back_ring|done| |simpl in Hfuel; lia|].
    { intros He m. rewrite He2 in He. replace (S n + m)%nat with (n + S m)%nat by lia. by apply Hno. }
    exists w'. split; [by rewrite E, He2|]. split; [|by rewrite Hr].
    exists x'. split; [done|]. split; [|done]. by apply (given_back_trans [id] ds.*1 x x2 x').
Qed.

(** the destructor's loop, suspended in its first [next] while completions
    arrive *)
Lemma drain_next_waits acts fuel ds end_ x w :
  data_ok ds → end_ok end_ → w_handlers w !! this = Some (upcast x) → pending_ x = [] → error_ x = 0 →
  is_Some (buf_ring_ x) → stop_requested (w_fiber_stop w) w = false →
  acts 0%nat = [drain_cqes fds (data_cqes ds ++ last_cqe end_)] →
  (end_ = None → ∀ m, acts (S m) = []) → (length ds < fuel)%nat →
  ∃ w', drain_next this acts fuel 0 w = (drained (end_error end_ 0), w') ∧ emptied ds.*1 x w w'.
Proof using All.
  intros Hds Hend Hh Hq He Hb Hns Hacts Hno Hfuel. destruct fuel as [|fuel]; [lia|]. simpl.
  set (x1 := set_wait (Some promise_new) None x). set (w1 := put_self this x1 w).
  destruct (drain_arrived ds end_ x1 w1 Hds Hend) as (w2 & x2 & E & Hh2 & [Hq2 He2 Hb2 Hs2 _ Hwk] & Hring & Hst & Hfs);
    [apply lookup_insert_eq|done|by intros p [= <-]; apply promise_value_new|].
  change (pending_ x1) with (pending_ x) in Hq2. rewrite Hq in Hq2. simpl in Hq2.
  change (error_ x1) with (error_ x) in He2. rewrite He in He2.
  assert (next this (acts 0%nat) w =
    if (p ← future_ x2; promise_value p) is Some _ then let '(r, x') := next_end x2 in (r, put_self this x' w2)
    else (Hang, w2)) as En.
  { unfold next. rewrite (self_upcast x w Hh), Hns, Hacts. unfold next_begin. rewrite Hq, He. simpl.
    fold x1 w1. erewrite cxx_bind_ret by exact E. simpl. by rewrite (self_upcast x2 w2 Hh2). }
  assert (given_back [] x x2) as Hgb by (by apply given_back_none).
  destruct (decide (ds = [] ∧ end_ = None)) as [[-> ->]|Hsome].
  { assert (drained (end_error None 0) = Hang) as -> by done.
    assert (w2 = w1) as -> by (by injection E).
    assert (x2 = x1) as ->.
    { pose proof (self_upcast x1 w1 (lookup_insert_eq _ _ _)) as H1. rewrite (self_upcast x2 w1 Hh2) in H1. congruence. }
    simpl in En. exists w1. split; [unfold mbind, cxx_mbind, cxx_bind; by rewrite En|].
    split; [|done]. exists x1. split_and!; done. }
  destruct Hwk as [u Hu]; [by eexists|destruct ds, end_; naive_solver|]. rewrite Hu in En.
  unfold next_end in En. rewrite Hq2, He2 in En. destruct ds as [|[id k] ds].
  - unfold mbind, cxx_mbind, cxx_bind. rewrite En. destruct end_ as [res|]; [|naive_solver].
    unfold drained. rewrite (proj2 (Z.eqb_neq _ _)) by (by apply end_error_nonzero).
    assert (emptied [] x w (put_self this x2 w2)) as Hem.
    { split; [|done]. exists x2. split; [apply lookup_insert_eq|done]. }
    destruct (ended _); eexists; (split; [done|exact Hem]).
  - erewrite cxx_bind_ret by exact En. cbv beta iota. set (w3 := put_self this (set_pending ds x2) w2).
    assert (self this w3 = Some (set_pending ds x2)) as Hs3 by (apply self_upcast, lookup_insert_eq).
    destruct (recv_return_spec id (set_pending ds x2)) as (x4 & E4 & Hb4 & Hq4 & He4); [exact (given_back_ring _ _ _ Hgb)|].
    erewrite (cxx_bind_ret _ _ _ () (put_self this x4 w3)) by (rewrite Hs3; simpl; by rewrite E4).
    destruct (drain_next_queued acts fuel 1 ds x4 (put_self this x4 w3)) as (w' & Ew & [(x' & Hx' & Hb' & Hp') Hr]);
      [apply lookup_insert_eq|done|by eapply given_back_ring| | |simpl in Hfuel; lia|].
    { unfold stop_requested in *. simpl. by rewrite Hst, Hfs. }
    { intros H0. rewrite He4 in H0. change (error_ (set_pending ds x2)) with (error_ x2) in H0. rewrite He2 in H0.
      destruct end_; [|by apply Hno]. by apply end_error_nonzero in H0. }
    exists w'. split; [rewrite Ew, He4; simpl; by rewrite He2|]. split; [|by rewrite Hr].
    exists x'. split; [done|]. split; [|done].
    change ((id, k) :: ds).*1 with ([] ++ [id] ++ ds.*1). apply (given_back_trans [] ([id] ++ ds.*1) x x2 x'); [done|]. by apply (given_back_trans [id] ds.*1 x2 x4 x').
Qed.
End destruction.

(** ** Properties *)

Section properties.
Context {L : Liburing} {P : Promise} {BR : BufRing}.

(** C4: received data is handed out once and in order, and no buffer is lost.
    Over any interleaving of completions, calls of [next], resumptions, moves
    and destructions of handles on a receiver of [count] buffers: the buffers
    the kernel filled are those [next] returned followed by those queued, in
    order; every buffer is with the kernel, queued, or owned by exactly one
    handle; the buffers the kernel may pick have the address and length of
    their slot; and a suspended fiber that was woken finds data or an error. *)
Theorem recv_conserves (HP : PromiseLaws P) (HBR : BufRingLaws BR) this fd bgid size count br0 (r : uring) es s n :
  0 < size → 0 ≤ count ≤ 2 ^ 16 → br_setup n bgid = inr br0 →
  exec_events this es (new_run fd bgid size count (br_add (slot size <$> seqZ 0 count) br0) r) = Some s →
  m_arrived s = m_returned s ++ pending_ (m_obj s) ∧
  (∃ br, buf_ring_ (m_obj s) = Some br
    ∧ (b_id <$> br_avail br) ++ (pending_ (m_obj s)).*1 ++ lent owned (m_vars s) ≡ₚ seqZ 0 count
    ∧ Forall (λ b, b = slot size (b_id b)) (br_avail br)) ∧
  (m_suspended s = true → waiter_ (m_obj s) = None → pending_ (m_obj s) ≠ [] ∨ error_ (m_obj s) ≠ 0).
Proof.
  intros Hs Hc Hbr He.
  assert (wf size count s) as Hwf.
  { eapply recv_exec_events_wf; [done..| |exact He]. apply recv_new_run_wf.
    by rewrite br_add_last, (br_setup_empty _ _ _ Hbr). }
  split; [apply Hwf|]. split.
  - destruct (wf_ring _ _ s Hwf) as (br & ? & ? & ?). by exists br.
  - intros Hsu Hw. by apply (wf_suspended _ _ s Hwf).
Qed.

(** The bytes of two live handles do not overlap.  Under the same
    conditions, [data()] of a handle that owns a buffer is a non-empty span
    inside the receiver's storage, no longer than a buffer, and the spans of
    different owning handles are disjoint. *)
Theorem recv_spans_disjoint (HP : PromiseLaws P) (HBR : BufRingLaws BR) this fd bgid size count br0 (r : uring)
    es s n v1 v2 b1 b2 :
  0 < size → 0 ≤ count ≤ 2 ^ 16 → size * count < 2 ^ 64 → br_setup n bgid = inr br0 →
  exec_events this es (new_run fd bgid size count (br_add (slot size <$> seqZ 0 count) br0) r) = Some s →
  m_vars s !! v1 = Some b1 → m_vars s !! v2 = Some b2 → v1 ≠ v2 → owner_ b1 = true → owner_ b2 = true →
  ∃ o1 o2 n1 n2, rb_data b1 (m_obj s) = Ret (o1, n1) ∧ rb_data b2 (m_obj s) = Ret (o2, n2)
    ∧ 0 ≤ o1 ∧ 0 < n1 ≤ size ∧ o1 + n1 ≤ size * count ∧ 0 ≤ o2 ∧ 0 < n2 ≤ size ∧ o2 + n2 ≤ size * count
    ∧ (o1 + n1 ≤ o2 ∨ o2 + n2 ≤ o1).
Proof.
  intros Hs Hc Hprod Hbr He Hv1 Hv2 Hne Ho1 Ho2.
  assert (wf size count s) as Hwf.
  { eapply recv_exec_events_wf; [done..| |exact He]. apply recv_new_run_wf.
    by rewrite br_add_last, (br_setup_empty _ _ _ Hbr). }
  destruct (rb_data_spec _ _ Hs Hc s v1 b1 Hwf Hprod Hv1 Ho1) as (E1 & ?).
  destruct (rb_data_spec _ _ Hs Hc s v2 b2 Hwf Hprod Hv2 Ho2) as (E2 & ?).
  assert (buf_id_ b1 ≠ buf_id_ b2) as Hd.
  { intros Heq. destruct Hwf as [(br & _ & _ & Hh) _ _ _ _ _]. unfold held in Hh.
    rewrite (lent_delete owned v1 b1 _ Hv1) in Hh.
    rewrite (lent_delete owned v2 b2 (delete v1 (m_vars s))) in Hh by (by rewrite lookup_delete_ne).
    unfold owned in Hh. rewrite Ho1, Ho2 in Hh. simpl in Hh.
    pose proof (NoDup_seqZ 0 count) as Hnd. rewrite <-Hh, Heq in Hnd.
    apply NoDup_app in Hnd as (_ & _ & Hnd). apply NoDup_app in Hnd as (_ & _ & Hnd).
    apply NoDup_cons in Hnd as [Hnd _]. set_solver. }
  exists (buf_id_ b1 * size), (buf_id_ b2 * size), (size_ b1), (size_ b2).
  split; [done|]. split; [done|]. repeat (split; [tauto|]). nia.
Qed.

(** The entry stays armed while there is room.  A completion that carried
    data and says the kernel is done with the entry passes a new one to the
    kernel when the ring has room, and silently arms nothing when it has none;
    any other completion leaves the ring alone. *)
Theorem recv_rearms (HL : LiburingLaws L) (HP : PromiseLaws P) (Hall : ∀ r : uring, submits_all r)
    this res flags x (r : uring) br :
  (∀ p, waiter_ x = Some p → promise_value p = None) → buf_ring_ x = Some br →
  ∃ x' r', recv_complete this res flags (x, r) = (Ret (), (x', r'))
    ∧ if (0 <? res) && negb (has_flag flags IORING_CQE_F_MORE) then
        if decide (length (sq_pending r) < sq_entries r)%nat
        then sq_submitted r' = sq_submitted r ++ sq_pending r ++ [recv_sqe this x]
        else r' = r ∧ error_ x' = error_ x
      else r' = r.
Proof.
  intros Hp Hbr.
  destruct (recv_complete_obj this res flags x r br Hp Hbr) as (x' & r' & E & _ & _ & _ & _ & Hx & Hsame).
  exists x', r'. split; [done|]. rewrite andb_comm in Hsame.
  destruct ((0 <? res) && _) eqn:Hc; [|by apply Hsame].
  apply andb_true_iff in Hc as [Hres Hmore]. rewrite Hres in Hx. destruct Hx as (_ & He & _).
  assert (r' = arm this x r) as ->.
  { revert E. unfold recv_complete. rewrite Hres, Hmore. unfold wake_waiter, mbind, cxx_mbind, cxx_bind. simpl.
    destruct (waiter_ x) as [p|]; [destruct (promise_set_value () p)|]; intros [= _ <-]; done. }
  unfold arm. case_decide as Hroom.
  - destruct (claim_room (recv_sqe this x) r Hroom) as [r1 Ec]. rewrite Ec.
    destruct (claim_some _ _ _ Ec) as (Hpd & Hsub & _).
    destruct (submit_all r1 (Hall r1)) as (-> & _ & _). by rewrite Hpd, Hsub.
  - by rewrite (proj2 (claim_null (recv_sqe this x) r)) by lia.
Qed.

(** C38: a receiver destroyed by a stopped fiber leaves the kernel a dangling
    pointer.  The destructor submits a cancellation for its armed entry and
    then drains; but its first [next] sees the stop request and returns at once
    instead of waiting for the entry to end.  The object is gone when the
    completion that the cancellation itself causes is dispatched to it. *)
Theorem recv_stop_dangling (HL : LiburingLaws L) (Hall : ∀ r : uring, submits_all r)
    {H : Type} {HC : CqeHandler H} {D : DerivedHandler H mrecv}
    (DL : DerivedHandlerLaws H mrecv D recv_complete) fds this x (w : worker L H) acts fuel :
  k_cancel_tag < this → w_handlers w !! this = Some (upcast x) →
  pending_ x = [] → error_ x = 0 → stop_requested (w_fiber_stop w) w = true →
  (length (sq_pending (w_ring w)) < sq_entries (w_ring w))%nat →
  ∃ w2, recv_dtor this acts (S fuel) (Some w) = (Ret (), Some w2)
    ∧ sq_submitted (w_ring w2) = sq_submitted (w_ring w) ++ sq_pending (w_ring w) ++ [cancel_sqe this]
    ∧ ∀ res flags, handle_cqe fds (Cqe this res flags) w2 = (Undef, w2).
Proof.
  intros Ht Hh Hq He Hs Hroom.
  assert (∀ w' x', w_handlers w' !! this = Some (upcast x') → self this w' = Some x') as Hself.
  { intros w' x' Hx'. unfold self. rewrite Hx'. simpl. apply downcast_upcast. }
  destruct (claim_room (cancel_sqe this) (w_ring w) Hroom) as [r1 Ec].
  destruct (claim_some _ _ _ Ec) as (Hpd & Hsub & _).
  destruct (submit_all r1 (Hall r1)) as (Hs1 & _ & _).
  set (x1 := set_pending [] x). set (w1 := put_self this x1 w).
  set (w2 := upd_ring (λ _, (io_uring_submit r1).2) w1).
  set (w3 := put_self this (set_error (- ECANCELED) x1) w2).
  assert (self this w1 = Some x1) as H1 by (apply Hself, lookup_insert_eq).
  assert (self this w2 = Some x1) as H2 by (apply Hself, lookup_insert_eq).
  exists (upd_handlers (delete this) w3). split_and!.
  - unfold recv_dtor. erewrite (cxx_bind_ret _ _ _ () (Some w3)); [done|]. unfold recv_quiesce, catch.
    erewrite (cxx_bind_ret _ _ _ () (Some w1)); last first.
    { unfold on_worker. rewrite (Hself w x Hh). simpl. by rewrite Hq. }
    erewrite (cxx_bind_ret _ _ _ (Some x1) (Some w1)) by (unfold gets; simpl; by rewrite H1).
    change (error_ x1) with (error_ x). rewrite He. simpl (0 =? 0). cbv iota.
    erewrite (cxx_bind_ret _ _ _ () (Some w2)); last first.
    { unfold submit_cancel. change (w_ring w1) with (w_ring w). rewrite Ec.
      by destruct (io_uring_submit r1) as [? ?]. }
    unfold on_worker. simpl. erewrite (cxx_bind_ret _ _ _ None w3); [done|].
    unfold next. rewrite H2. change (stop_requested (w_fiber_stop w2) w2) with (stop_requested (w_fiber_stop w) w).
    rewrite Hs. unfold next_begin. simpl. by rewrite He.
  - change (w_ring (upd_handlers _ w3)) with (io_uring_submit r1).2. by rewrite Hs1, Hpd, Hsub.
  - intros res flags. rewrite handle_dispatch by done. unfold dispatch_handler. simpl.
    by rewrite lookup_delete_eq.
Qed.

(** C31: a receiver destroyed by a live fiber is drained first, when the ring has
    an entry for the cancellation and [io_uring_submit] accepts it.  The
    destructor gives the queued buffers back, submits a cancellation of its
    entry and waits: whatever data still arrives while it first waits is
    received and its buffers given back, in order.  Once the entry's last completion has come, with
    whatever error, nothing is left queued, every one of those buffers is with
    the kernel, and only then is the object destroyed; as long as that
    completion has not come the destructor does not return and the object is
    there to take it. *)
Theorem recv_dtor_drains (HL : LiburingLaws L) (HP : PromiseLaws P) (HBR : BufRingLaws BR)
    (Hall : ∀ r : uring, submits_all r)
    {H : Type} {HC : CqeHandler H} {D : DerivedHandler H mrecv}
    (DL : DerivedHandlerLaws H mrecv D recv_complete) fds this x (w : worker L H) acts ds end_ fuel :
  k_cancel_tag < this → w_handlers w !! this = Some (upcast x) →
  error_ x = 0 → is_Some (buf_ring_ x) → stop_requested (w_fiber_stop w) w = false →
  (length (sq_pending (w_ring w)) < sq_entries (w_ring w))%nat →
  data_ok ds → end_ok end_ →
  acts 0%nat = [drain_cqes fds (data_cqes this ds ++ last_cqe this end_)] →
  (end_ = None → ∀ m, acts (S m) = []) → (length ds < fuel)%nat →
  ∃ w2 x2, w_handlers w2 !! this = Some (upcast x2)
    ∧ given_back (pending_ x ++ ds).*1 x x2 ∧ pending_ x2 = []
    ∧ sq_submitted (w_ring w2) = sq_submitted (w_ring w) ++ sq_pending (w_ring w) ++ [cancel_sqe this]
    ∧ recv_dtor this acts fuel (Some w) =
        if end_ is Some _ then (Ret (), Some (upd_handlers (delete this) w2)) else (Hang, Some w2).
Proof.
  intros Ht Hh He Hb Hns Hroom Hds Hend Hacts Hno Hfuel.
  destruct (return_pending_spec (pending_ x) x Hb) as (x1 & Erp & Hgb & Hq1 & He1).
  destruct (claim_room (cancel_sqe this) (w_ring w) Hroom) as [r1 Ec].
  destruct (claim_some _ _ _ Ec) as (Hpd & Hsub & _).
  destruct (submit_all r1 (Hall r1)) as (Hs1 & _ & _).
  set (w1 := put_self this x1 w). set (w2 := upd_ring (λ _, (io_uring_submit r1).2) w1).
  assert (self this w1 = Some x1) as H1 by (apply self_upcast, lookup_insert_eq).
  destruct (drain_next_waits fds this Ht acts fuel ds end_ x1 w2) as (w3 & Ed & [(x3 & Hx3 & Hb3 & Hp3) Hr3]);
    [done|done|apply lookup_insert_eq|done|by rewrite He1|by eapply given_back_ring|done..|].
  exists w3, x3. split; [done|]. split; [rewrite fmap_app; by eapply given_back_trans|]. split; [done|]. split.
  { rewrite Hr3. change (w_ring w2) with (io_uring_submit r1).2. by rewrite Hs1, Hpd, Hsub. }
  assert (recv_quiesce this acts fuel (Some w) = (if end_ is Some _ then Ret () else Hang, Some w3)) as Eq.
  { unfold recv_quiesce, catch. erewrite (cxx_bind_ret _ _ _ () (Some w1)); last first.
    { unfold on_worker. rewrite (self_upcast this x w Hh). simpl. by rewrite Erp. }
    erewrite (cxx_bind_ret _ _ _ (Some x1) (Some w1)) by (unfold gets; simpl; by rewrite H1).
    rewrite He1, He. simpl (0 =? 0). cbv iota.
    erewrite (cxx_bind_ret _ _ _ () (Some w2)); last first.
    { unfold submit_cancel. change (w_ring w1) with (w_ring w). rewrite Ec.
      by destruct (io_uring_submit r1) as [? ?]. }
    unfold on_worker. rewrite Ed. unfold drained. destruct end_ as [res|]; [|done].
    rewrite (proj2 (Z.eqb_neq _ _)) by (by apply end_error_nonzero). by destruct (ended _). }
  unfold recv_dtor, mbind, cxx_mbind, cxx_bind. rewrite Eq. by destruct end_.
Qed.

(** A fiber suspended in [multishot_recv::next] does not notice a stop either:
    none is registered for, nothing is cancelled, and the fiber stays
    suspended. *)
Theorem recv_ignores_stop {H : Type} {HC : CqeHandler H} {D : DerivedHandler H mrecv}
    (DL : DerivedHandlerLaws H mrecv D recv_complete) this x (w : worker L H) id s :
  w_handlers w !! this = Some (upcast x) → pending_ x = [] → error_ x = 0 →
  stop_requested (w_fiber_stop w) w = false →
  w_stops w !! id = Some s → ss_requested s = false → ss_callbacks s = [] →
  ∃ w', next this [stop_source_request id] w = (Hang, w') ∧ stop_requested (Some id) w' = true
    ∧ w_ring w' = w_ring w ∧ cancel_queue_ (w_sched w') = cancel_queue_ (w_sched w).
Proof.
  intros Hh Hq He Hns Hs Hr Hcb.
  assert (self this w = Some x) as Hself by (unfold self; rewrite Hh; simpl; apply downcast_upcast).
  set (w1 := put_self this (set_wait (Some promise_new) None x) w).
  assert (w_stops w1 !! id = Some s) as Hs1 by done.
  exists (upd_stops <[id := (request_stop s).2]> w1). split; [|split; [|done]].
  - unfold next. rewrite Hself, Hns. unfold next_begin. rewrite Hq, He. simpl. fold w1.
    erewrite cxx_bind_ret by (by apply stop_request_unheard).
    unfold self, w1. simpl. rewrite lookup_insert_eq. simpl. by rewrite downcast_upcast.
  - simpl. rewrite lookup_insert_eq. unfold request_stop. by rewrite Hr.
Qed.
End properties.

(** ** Buffer group identifiers *)

(** [tl_next_bgid] after [k] constructions on a thread whose counter was [g] *)
Definition next_bgid {L : Liburing} {P : Promise} {BR : BufRing} {H : Type} {HC : CqeHandler H}
    {D : DerivedHandler H mrecv} (k : nat) (g : Z) : Z :=
  Nat.iter k (λ g, (multishot_recv (L := L) (H := H) 0 0 0 0 g).2) g.

(** The receivers of a thread have different buffer groups as long as fewer
    than 2^16 constructions lie between them; the counter then starts over, so
    a receiver that is still alive after 2^16 more constructions, failed ones
    included, shares its group identifier with the next one. *)
Theorem bgid_distinct {L : Liburing} {P : Promise} {BR : BufRing} {H : Type} {HC : CqeHandler H}
    {D : DerivedHandler H mrecv} g i j :
  0 ≤ g < 2 ^ 16 → (i < j)%nat →
  next_bgid (L := L) (H := H) i g = next_bgid (L := L) (H := H) j g ↔ (2 ^ 16 | Z.of_nat j - Z.of_nat i).
Proof.
  intros Hg Hij.
  assert (∀ k, next_bgid (L := L) (H := H) k g = (g + Z.of_nat k) mod 2 ^ 16) as Hk.
  { induction k as [|k IH]; [simpl; rewrite Z.mod_small by lia; lia|].
    change (next_bgid (S k) g) with (to_u16 (next_bgid (L := L) (H := H) k g + 1)). rewrite IH.
    unfold to_u16, wrap. rewrite Z.add_mod_idemp_l by lia. f_equal. lia. }
  rewrite !Hk. split.
  - intros E. apply Z.mod_divide; [lia|]. replace (Z.of_nat j - Z.of_nat i) with ((g + Z.of_nat j) - (g + Z.of_nat i)) by lia.
    by rewrite Zminus_mod, E, Z.sub_diag.
  - intros [q Hq]. replace (g + Z.of_nat j) with (g + Z.of_nat i + q * 2 ^ 16) by lia. by rewrite Z.mod_add by lia.
Qed.

(** ** Witnesses *)

Section witnesses.
Import ListUring CellPromise ListBufRing.

(** three messages, handles that are moved, assigned over and dropped, and the
    end of the stream *)
Definition receiving : list event :=
  [Data 10 true; Call 0 false; Call 1 false; Data 20 true; Resume 1; Data 30 false; Call 2 false;
   MoveAssign 0 1; MoveCtor 3 2; Drop 1; EndBuf 0].

Abbreviation four := (slot 64 <$> seqZ 0 4).
Definition fresh_run : run :=
  new_run (L := list_uring) (P := cell_promise) (BR := list_buf_ring) 5 0 64 4 ([] ++ four) (fresh 256).
Definition received : run := Eval vm_compute in default fresh_run (exec_events 4096 receiving fresh_run).

Lemma recv_conserves_witness :
  m_returned received = [(0, 10); (1, 20); (2, 30)] ∧
  m_arrived received = m_returned received ++ pending_ (m_obj received) ∧
  (∃ br, buf_ring_ (m_obj received) = Some br
    ∧ (b_id <$> br_avail br) ++ (pending_ (m_obj received)).*1 ++ lent owned (m_vars received) ≡ₚ seqZ 0 4
    ∧ Forall (λ b, b = slot 64 (b_id b)) (br_avail br)) ∧
  (m_suspended received = true → waiter_ (m_obj received) = None →
    pending_ (m_obj received) ≠ [] ∨ error_ (m_obj received) ≠ 0).
Proof.
  split; [reflexivity|].
  apply (recv_conserves (L := list_uring) cell_promise_laws list_buf_ring_laws 4096 5 0 64 4 [] (fresh 256)
    receiving received 4); [lia|lia|reflexivity|vm_compute; reflexivity].
Defined.

Lemma recv_spans_disjoint_witness :
  ∃ o1 o2 n1 n2, rb_data (Received true 1 20) (m_obj received) = Ret (o1, n1)
    ∧ rb_data (Received true 2 30) (m_obj received) = Ret (o2, n2)
    ∧ 0 ≤ o1 ∧ 0 < n1 ≤ 64 ∧ o1 + n1 ≤ 64 * 4 ∧ 0 ≤ o2 ∧ 0 < n2 ≤ 64 ∧ o2 + n2 ≤ 64 * 4
    ∧ (o1 + n1 ≤ o2 ∨ o2 + n2 ≤ o1).
Proof.
  apply (recv_spans_disjoint (L := list_uring) cell_promise_laws list_buf_ring_laws 4096 5 0 64 4 [] (fresh 256)
    receiving received 4 0 3); [lia|lia|lia|reflexivity|vm_compute; reflexivity|..]; try reflexivity. done.
Defined.

Definition armed : mrecv := MRecv (P := cell_promise) (BR := list_buf_ring) 5 0 64 4 (Some four) [] None 0 None.

Lemma recv_rearms_witness :
  ∃ x' r', recv_complete (L := list_uring) 4096 10 (buf_flags 0 false) (armed, fresh 256) = (Ret (), (x', r'))
    ∧ sq_submitted r' = [recv_sqe 4096 armed].
Proof.
  destruct (recv_rearms list_uring_laws cell_promise_laws list_uring_submits_all 4096 10 (buf_flags 0 false)
    armed (fresh 256) four) as (x' & r' & E & Hs); [done|reflexivity|].
  exists x', r'. split; [exact E|exact Hs].
Defined.

Definition recv_handlers : CqeHandler (option Z + mrecv) :=
  one_more (L := list_uring) (P := cell_promise) recv_complete.

(** a worker with an armed receiver, whose fiber was asked to stop *)
Definition recv_worker : worker list_uring (option Z + mrecv) :=
  {| w_pool := {| running_ := true; work_queue_ := []; eventfd_ := 0; in_flight_ := 1 |};
     w_sched := {| ring_ := fresh k_ring_entries; ready_ := []; cancel_queue_ := []; notify_fd_ := 0 |};
     w_handlers := {[ 4096 := inr armed ]}; w_fibers := [];
     w_stops := {[ 1%nat := (request_stop stop_source_new).2 ]}; w_pool_stop := 0%nat;
     w_fiber_stop := Some 1%nat |}.

Lemma recv_stop_dangling_witness :
  ∃ w2, recv_dtor (HC := recv_handlers) (D := one_more_derived recv_complete) 4096 (λ _, []) 1 (Some recv_worker)
      = (Ret (), Some w2)
    ∧ sq_submitted (w_ring w2) = [cancel_sqe 4096]
    ∧ ∀ res flags, handle_cqe (HC := recv_handlers) OnlyAwaitable.bufs (Cqe 4096 res flags) w2 = (Undef, w2).
Proof.
  apply (recv_stop_dangling (HC := recv_handlers) list_uring_laws list_uring_submits_all
    (one_more_derived_laws recv_complete) OnlyAwaitable.bufs 4096 armed recv_worker); try reflexivity.
  simpl. unfold k_ring_entries. lia.
Defined.

Definition recv_waiting : worker list_uring (option Z + mrecv) := upd_stops (λ _, {[ 1%nat := stop_source_new ]}) recv_worker.

(** a buffer is queued, another arrives, and the entry ends, or does not *)
Definition recv_queued : mrecv := set_pending [(1, 5)] armed.
Definition recv_destroying : worker list_uring (option Z + mrecv) :=
  upd_handlers <[4096 := inr recv_queued]> recv_waiting.
Definition dtor_acts (cs : list cqe) (n : nat) : list (cxx (worker list_uring (option Z + mrecv)) ()) :=
  if n is O then [drain_cqes (HC := recv_handlers) OnlyAwaitable.bufs cs] else [].

Lemma recv_dtor_drains_witness :
  (∃ w2 x2, given_back [1; 0] recv_queued x2
    ∧ recv_dtor (HC := recv_handlers) (D := one_more_derived recv_complete) 4096
      (dtor_acts [Cqe 4096 10 (buf_flags 0 true); Cqe 4096 (- 104) 0]) 2 (Some recv_destroying)
      = (Ret (), Some (upd_handlers (delete 4096) w2)))
  ∧ ∃ w2 x2, w_handlers w2 !! 4096 = Some (inr x2)
    ∧ recv_dtor (HC := recv_handlers) (D := one_more_derived recv_complete) 4096
      (dtor_acts [Cqe 4096 10 (buf_flags 0 true)]) 2 (Some recv_destroying) = (Hang, Some w2).
Proof.
  split.
  - destruct (recv_dtor_drains (HC := recv_handlers) list_uring_laws cell_promise_laws list_buf_ring_laws
      list_uring_submits_all (one_more_derived_laws recv_complete) OnlyAwaitable.bufs 4096 recv_queued recv_destroying
      (dtor_acts [Cqe 4096 10 (buf_flags 0 true); Cqe 4096 (- 104) 0]) [(0, 10)] (Some (- 104)) 2)
      as (w2 & x2 & _ & Hb & _ & _ & E);
      [reflexivity|reflexivity|reflexivity|by eexists|reflexivity|simpl; unfold k_ring_entries; lia
      |apply Forall_singleton; lia|simpl; lia|reflexivity|done|simpl; lia|].
    exists w2, x2. split; [exact Hb|exact E].
  - destruct (recv_dtor_drains (HC := recv_handlers) list_uring_laws cell_promise_laws list_buf_ring_laws
      list_uring_submits_all (one_more_derived_laws recv_complete) OnlyAwaitable.bufs 4096 recv_queued recv_destroying
      (dtor_acts [Cqe 4096 10 (buf_flags 0 true)]) [(0, 10)] None 2)
      as (w2 & x2 & Hh & _ & _ & _ & E);
      [reflexivity|reflexivity|reflexivity|by eexists|reflexivity|simpl; unfold k_ring_entries; lia
      |apply Forall_singleton; lia|done|reflexivity|done|simpl; lia|].
    exists w2, x2. split; [exact Hh|exact E].
Defined.

Lemma recv_ignores_stop_witness :
  ∃ w', next (HC := recv_handlers) (D := one_more_derived recv_complete) 4096 [stop_source_request 1] recv_waiting
      = (Hang, w').
Proof.
  destruct (recv_ignores_stop (HC := recv_handlers) (one_more_derived_laws recv_complete)
    4096 armed recv_waiting 1 stop_source_new) as (w' & E & _); try reflexivity.
  exists w'. exact E.
Defined.
End witnesses.
