(* ===== verification/Stream.v ===== *)
(** * Stream: zero-copy streaming (examples/stream_recv_multishot.cpp)

    The consumer drains a [multishot_recv] and adds up what it received; the
    producer sends records from registered buffers.  The consumer's loop is
    interleaved with the completions of its receive entry, over the machine of
    [MultishotRecv]; the producer's loop runs over the pool and the zero-copy
    send of [FixedBuffer]. *)

From S2P Require Import Prelude Cxx Uring Boost Channel Scheduler Submit AsyncIo FixedBuffer MultishotRecv.

Local Open Scope Z_scope.

Definition kMessages : nat := Z.to_nat 10000.
Definition kRecordSize : Z := 64.
Definition kBufSize : Z := 4096.
Definition kBufCount : Z := 256.
Definition kExpected : Z := mul64 (Z.of_nat kMessages) kRecordSize.

(** ** The consumer *)

Section consumer.
Context {L : Liburing} {P : Promise} {BR : BufRing} (this : Z).

(** at [mr.next()]; suspended in it; in the loop's body; past the loop; left
    by an exception *)
Inductive consumer_pc := CNext | CWaiting | CBody | CClosing | CThrew (e : exn).

#[export] Instance consumer_pc_eq_dec : EqDecision consumer_pc.
Proof using Type. solve_decision. Defined.

Record st := St {
  mr : run;
  pc : consumer_pc;
  total_bytes : Z;          (** [std::atomic<std::size_t>] *)
  cqe_count : Z;            (** [std::atomic<int>] *)
  open_ : bool              (** the kernel has not ended the stream *)
}.

(** where the result of [next()] leads *)
Definition landed (r : outcome (option received_buffer)) : consumer_pc :=
  match r with
  | Ret (Some _) => CBody
  | Ret None => CClosing
  | Exn e => CThrew e
  | _ => CWaiting
  end.

Definition after_next (p : progress) : consumer_pc :=
  match p with Done r => landed r | Wait => CWaiting end.

(** the loop; [stop] is whether the fiber's stop has been requested *)
Definition consumer_step (stop : bool) (s : st) : option st :=
  match pc s with
  | CNext =>
      r ← exec_event this (Call 0 stop) (mr s);
      Some (St r (after_next (next_begin stop (m_obj (mr s))).1) (total_bytes s) (cqe_count s) (open_ s))
  | CWaiting =>
      r ← exec_event this (Resume 0) (mr s);
      Some (St r (landed (next_end (m_obj (mr s))).1) (total_bytes s) (cqe_count s) (open_ s))
  | CBody =>
      b ← m_vars (mr s) !! 0%nat;
      match rb_data b (m_obj (mr s)) with
      | Ret (_, n) =>
          r ← exec_event this (Drop 0) (mr s);
          Some (St r CNext (to_u64 (total_bytes s + n)) (to_i32 (cqe_count s + 1)) (open_ s))
      | _ => None
      end
  | CClosing | CThrew _ => None
  end.

(** the completions of the receive entry: none comes after the one that ends
    the stream *)
Definition kernel_step (e : event) (s : st) : option st :=
  if open_ s then
    match e with
    | Data _ _ => r ← exec_event this e (mr s); Some (St r (pc s) (total_bytes s) (cqe_count s) true)
    | End _ | EndBuf _ => r ← exec_event this e (mr s); Some (St r (pc s) (total_bytes s) (cqe_count s) false)
    | _ => None
    end
  else None.

(** a step of the two; a stop is requested only where one may be *)
Inductive step (stoppable : bool) (s s' : st) : Prop :=
  | step_kernel e : kernel_step e s = Some s' → step stoppable s s'
  | step_consumer stop : (stop = true → stoppable = true) → consumer_step stop s = Some s' → step stoppable s s'.

(** after [multishot_recv mr{conn_fd, kBufSize, kBufCount}] *)
Definition consumer_init (conn_fd bgid : Z) (br : bufring) (r : uring) : st :=
  St (new_run conn_fd bgid kBufSize kBufCount br r) CNext 0 0 true.

Definition over (s : st) : bool := match pc s with CClosing | CThrew _ => true | _ => false end.

(** [total_bytes.load() == kExpected] *)
Definition ok (s : st) : bool := total_bytes s =? kExpected.
End consumer.
Arguments st {L P BR}.

(** ** Its invariant *)

Section theory.
Context {L : Liburing} {P : Promise} {HP : PromiseLaws P} {BR : BufRing} {HBR : BufRingLaws BR} (this : Z).
Implicit Types s : st.

Abbreviation wf_recv := (MultishotRecv.wf kBufSize kBufCount).

(** the bytes in these buffers *)
Definition sum_bytes (l : list (Z * Z)) : Z := foldr (λ p, Z.add p.2) 0 l.

(** the buffer the loop's body has *)
Definition current s : list (Z * Z) :=
  match m_vars (mr s) !! 0%nat with Some b => [(buf_id_ b, size_ b)] | None => [] end.

(** the handles, and whether [next] is suspended, as the loop is written *)
Definition shape s : Prop :=
  match pc s with
  | CBody => m_suspended (mr s) = false ∧ ∃ b, m_vars (mr s) = {[ 0%nat := b ]} ∧ owner_ b = true
  | CWaiting => m_suspended (mr s) = true ∧ m_vars (mr s) = ∅
  | _ => m_suspended (mr s) = false ∧ m_vars (mr s) = ∅
  end.

Record inv (stoppable : bool) s : Prop := {
  inv_wf : wf_recv (mr s);
  inv_shape : shape s;
  inv_counted : ∃ counted, m_returned (mr s) = counted ++ current s
    ∧ total_bytes s = to_u64 (sum_bytes counted) ∧ cqe_count s = to_i32 (Z.of_nat (length counted));
  inv_ended : open_ s = false → error_ (m_obj (mr s)) ≠ 0;
  inv_quiet : stoppable = false → error_ (m_obj (mr s)) ≠ 0 → open_ s = false;
  inv_over : stoppable = false → over s = true → open_ s = false ∧ pending_ (m_obj (mr s)) = []
}.

Lemma consumer_init_inv stoppable conn_fd bgid br r :
  br_avail br = slot kBufSize <$> seqZ 0 kBufCount → inv stoppable (consumer_init conn_fd bgid br r).
Proof using Type.
  intros Hav. split; simpl; try done.
  - by apply recv_new_run_wf.
  - by exists [].
Qed.

(** a completion leaves the fiber's side alone; one without data records why *)
Lemma handle_frame res flags x arrived r r' :
  handle this res flags x arrived r = Some r' →
  m_vars r' = m_vars r ∧ m_suspended r' = m_suspended r ∧ m_returned r' = m_returned r
  ∧ error_ (m_obj r') = if 0 <? res then error_ x else if res =? 0 then - ENODATA else res.
Proof using Type.
  unfold handle. destruct (recv_complete _ _ _ _) as [[] [x' u]] eqn:E; [|done..]. intros [= <-].
  repeat (split; [done|]). simpl. revert E.
  unfold recv_complete, wake_waiter, mbind, cxx_mbind, cxx_bind, modify, mret, cxx_mret, cxx_ret.
  destruct (0 <? res); [|destruct (has_flag flags IORING_CQE_F_BUFFER); unfold return_buffer];
    repeat (simpl; case_match; simplify_eq); intros; simplify_eq; done.
Qed.

Lemma completion_frame e r r' :
  match e with Data _ _ | End _ | EndBuf _ => True | _ => False end → exec_event this e r = Some r' →
  m_vars r' = m_vars r ∧ m_suspended r' = m_suspended r ∧ m_returned r' = m_returned r
  ∧ match e with Data _ _ => error_ (m_obj r') = error_ (m_obj r) | _ => error_ (m_obj r') ≠ 0 end.
Proof using Type.
  intros He. destruct e as [n more|res|res| | | | |]; try done; simpl.
  - intros (br & _ & ([b br'] & _ & E)%bind_Some)%bind_Some. revert E.
    destruct (Z.ltb_spec 0 n) as [Hn|]; [|done]. destruct (n <=? b_len b); [|done]. simpl.
    intros (? & ? & ? & Herr)%handle_frame. by rewrite (proj2 (Z.ltb_lt 0 n)) in Herr by done.
  - destruct (Z.leb_spec res 0); [|done]. intros (? & ? & ? & Herr)%handle_frame. repeat (split; [done|]).
    rewrite Herr. destruct (Z.ltb_spec 0 res); [lia|]. destruct (Z.eqb_spec res 0); unfold ENODATA; lia.
  - intros (br & _ & ([b br'] & _ & E)%bind_Some)%bind_Some. revert E.
    destruct (Z.leb_spec res 0); [|done]. intros (? & ? & ? & Herr)%handle_frame. repeat (split; [done|]).
    rewrite Herr. destruct (Z.ltb_spec 0 res); [lia|]. destruct (Z.eqb_spec res 0); unfold ENODATA; lia.
Qed.

Lemma event_wf e r r' : wf_recv r → exec_event this e r = Some r' → wf_recv r'.
Proof using HP HBR.
  intros Hwf E. eapply (recv_exec_events_wf kBufSize kBufCount ltac:(done) ltac:(done) this [e]); [exact Hwf|].
  simpl. by rewrite E.
Qed.

Lemma stream_kernel_inv stoppable e s s' : inv stoppable s → kernel_step this e s = Some s' → inv stoppable s'.
Proof using All.
  intros [Hwf Hsh Hc He Hq Ho]. unfold kernel_step. destruct (open_ s) eqn:Hop; [|done].
  assert (over s = true → stoppable = false → False) as Hno by (intros H1 H2; by destruct (Ho H2 H1)).
  destruct e as [n more|res|res| | | | |]; try done; intros (r & E & [= <-])%bind_Some;
    pose proof (event_wf _ _ _ Hwf E); apply completion_frame in E as (Hv & Hs & Hr & Herr); try done;
    (split; simpl; [done|by unfold shape; simpl; rewrite Hv, Hs|by unfold current; simpl; rewrite Hv, Hr|try done..]).
  - rewrite Herr. done.
  - intros. exfalso. eauto.
  - intros. exfalso. eauto.
  - intros. exfalso. eauto.
Qed.

Lemma sum_bytes_app l1 l2 : sum_bytes (l1 ++ l2) = sum_bytes l1 + sum_bytes l2.
Proof using Type. unfold sum_bytes. induction l1 as [|p l1 IH]; simpl; [done|]. rewrite IH. lia. Qed.

(** where a call of [next] leads, whether it suspended or not *)
Lemma next_lands stop (suspended : bool) r r' p :
  m_vars r = ∅ → m_suspended r = suspended →
  (if suspended then exec_event this (Resume 0) r = Some r' ∧ p = landed (next_end (m_obj r)).1
   else exec_event this (Call 0 stop) r = Some r' ∧ p = after_next (next_begin stop (m_obj r)).1) →
  (∃ id n q, pending_ (m_obj r) = (id, n) :: q ∧ p = CBody ∧ m_suspended r' = false
     ∧ m_obj r' = set_pending q (m_obj r)
     ∧ m_vars r' = {[ 0%nat := Received true id n ]} ∧ m_returned r' = m_returned r ++ [(id, n)])
  ∨ pending_ (m_obj r) = [] ∧ m_vars r' = ∅ ∧ m_returned r' = m_returned r ∧ pending_ (m_obj r') = []
    ∧ ((p = CClosing ∨ ∃ e, p = CThrew e) ∧ m_suspended r' = false
         ∧ (error_ (m_obj r') = error_ (m_obj r) ∧ (suspended = false → error_ (m_obj r) ≠ 0)
            ∨ stop = true ∧ error_ (m_obj r) = 0)
       ∨ p = CWaiting ∧ suspended = false ∧ stop = false ∧ m_suspended r' = true
         ∧ error_ (m_obj r') = 0 ∧ error_ (m_obj r) = 0).
Proof using Type.
  intros Hv Hs. destruct suspended; intros [E ->]; revert E; simpl; rewrite Hs, Hv; simpl.
  - intros (_ & _ & E)%bind_Some. revert E. unfold next_end.
    destruct (pending_ (m_obj r)) as [|[id n] q] eqn:Hq.
    + intros E. right. split; [done|].
      destruct (ended _); injection E as <-; simpl; rewrite app_nil_r; repeat (split; [done|]); left;
        (split; [by (left + (right; eexists))|]); (split; [done|]); by left.
    + intros [= <-]. left. by exists id, n, q.
  - unfold next_begin. destruct (pending_ (m_obj r)) as [|[id n] q] eqn:Hq.
    + intros E. right. split; [done|]. revert E. destruct (Z.eqb_spec (error_ (m_obj r)) 0); simpl.
      * destruct stop; intros [= <-]; simpl; rewrite ?app_nil_r; repeat (split; [done|]); [left|by right].
        split; [by left|]. split; [done|]. by right.
      * destruct (ended _); intros [= <-]; simpl; rewrite app_nil_r; repeat (split; [done|]); left;
        (split; [by (left + (right; eexists))|]); (split; [done|]); by left.
    + intros [= <-]. left. by exists id, n, q.
Qed.

Lemma resumed_reason r r' :
  wf_recv r → exec_event this (Resume 0) r = Some r' → pending_ (m_obj r) ≠ [] ∨ error_ (m_obj r) ≠ 0.
Proof using Type.
  intros Hwf. simpl. destruct (m_suspended r) eqn:Hs; [|done]. simpl. case_match; [|done].
  intros (u & Hf & _)%bind_Some. apply (wf_suspended _ _ r Hwf Hs).
  destruct (waiter_ (m_obj r)) eqn:Hw; [|done].
  destruct (wf_waiter _ _ r Hwf _ Hw) as (_ & _ & _ & _ & Hn). by rewrite Hn in Hf.
Qed.

Lemma next_inv stoppable stop s r' p :
  (stop = true → stoppable = true) → inv stoppable s → over s = false → pc s ≠ CBody →
  (if m_suspended (mr s) then exec_event this (Resume 0) (mr s) = Some r' ∧ p = landed (next_end (m_obj (mr s))).1
   else exec_event this (Call 0 stop) (mr s) = Some r' ∧ p = after_next (next_begin stop (m_obj (mr s))).1) →
  inv stoppable (St r' p (total_bytes s) (cqe_count s) (open_ s)).
Proof using HP HBR.
  intros Hst [Hwf Hsh (l & Hl & Ht & Hn) He Hq Ho] Hov Hnb E.
  assert (m_vars (mr s) = ∅) as Hv by (unfold shape in Hsh; by destruct (pc s), Hsh).
  assert (wf_recv r') as Hwf' by (destruct (m_suspended (mr s)); by eapply event_wf, E).
  unfold current in Hl. rewrite Hv, lookup_empty, app_nil_r in Hl.
  assert (m_suspended (mr s) = true → pending_ (m_obj (mr s)) ≠ [] ∨ error_ (m_obj (mr s)) ≠ 0) as Hre.
  { intros Hs. rewrite Hs in E. eapply resumed_reason; [exact Hwf|apply E]. }
  destruct (next_lands stop _ _ _ _ Hv eq_refl E) as
    [(id & n & q & Hp & -> & Hs & Hob & Hv' & Hr)|(Hp & Hv' & Hr & Hp' & Hcase)].
  - split; simpl; [done| | |by rewrite Hob..|done].
    { split; [done|]. by eexists. }
    exists l. unfold current. simpl. rewrite Hv', lookup_singleton_eq, Hr, Hl. done.
  - assert (∃ counted, m_returned r' = counted ++ current (St r' p (total_bytes s) (cqe_count s) (open_ s))
      ∧ total_bytes s = to_u64 (sum_bytes counted) ∧ cqe_count s = to_i32 (Z.of_nat (length counted))) as Hcnt.
    { exists l. unfold current. simpl. by rewrite Hv', lookup_empty, app_nil_r, Hr. }
    destruct Hcase as [(Hend & Hs & Herr)|(-> & _ & -> & Hs & He' & He0)].
    + assert (open_ s = false → error_ (m_obj r') ≠ 0) as He1.
      { intros Hop. specialize (He Hop). by destruct Herr as [[-> _]|[_ ?]]. }
      assert (stoppable = false → open_ s = false) as Hq1.
      { intros Hns. destruct Herr as [[_ Hne]|[Hstop _]]; [|by rewrite (Hst Hstop) in Hns].
        apply (Hq Hns). destruct (m_suspended (mr s)); [|by apply Hne]. by destruct (Hre eq_refl). }
      split; simpl; auto. destruct Hend as [->|[e ->]]; done.
    + split; simpl; [done|done|done| |by rewrite He'|done]. intros Hop. by destruct (He Hop).
Qed.

Lemma to_u64_add a b : to_u64 (to_u64 a + b) = to_u64 (a + b).
Proof using Type. unfold to_u64, wrap. by rewrite Z.add_mod_idemp_l. Qed.

Lemma to_i32_add a b : to_i32 (to_i32 a + b) = to_i32 (a + b).
Proof using Type.
  unfold to_i32. assert (∀ k, to_u32 (to_u32 a + k * 2 ^ 32 + b) = to_u32 (a + b)) as Hk.
  { intros k. unfold to_u32, wrap. replace (a mod 2 ^ 32 + k * 2 ^ 32 + b) with (a mod 2 ^ 32 + b + k * 2 ^ 32) by lia.
    rewrite Z_mod_plus_full. by rewrite Z.add_mod_idemp_l. }
  pose proof (Hk 0) as H0. pose proof (Hk (-1)) as H1. destruct (to_u32 a <? 2 ^ 31).
  - rewrite Z.add_0_r in H0. by rewrite H0.
  - replace (to_u32 a - 2 ^ 32) with (to_u32 a + -1 * 2 ^ 32) by lia. by rewrite H1.
Qed.

(** the body of the loop: the span is inside the storage, and its buffer goes
    back to the kernel *)
Lemma body_step stoppable stop s :
  inv stoppable s → pc s = CBody →
  ∃ r' id n, current s = [(id, n)] ∧ exec_event this (Drop 0) (mr s) = Some r'
    ∧ consumer_step this stop s = Some (St r' CNext (to_u64 (total_bytes s + n)) (to_i32 (cqe_count s + 1)) (open_ s))
    ∧ m_vars r' = ∅ ∧ m_returned r' = m_returned (mr s) ∧ m_suspended r' = false
    ∧ pending_ (m_obj r') = pending_ (m_obj (mr s)) ∧ error_ (m_obj r') = error_ (m_obj (mr s)).
Proof using HBR HP.
  intros [Hwf Hsh _ _ _ _] Hpc. unfold shape in Hsh. rewrite Hpc in Hsh. destruct Hsh as (Hs & b & Hv & Ho).
  assert (m_vars (mr s) !! 0%nat = Some b) as Hb by (rewrite Hv; apply lookup_singleton_eq).
  destruct (rb_data_spec kBufSize kBufCount ltac:(done) ltac:(done) (mr s) 0 b Hwf ltac:(done) Hb Ho) as (Hd & _).
  destruct (give_back_spec kBufSize kBufCount (mr s) 0 b Hwf Hb) as (br & x & Hg & _ & -> & _).
  assert (exec_event this (Drop 0) (mr s) =
    Some (with_obj (set_ring (Some br) (m_obj (mr s))) ∅ (mr s))) as E.
  { simpl. rewrite Hb. simpl. rewrite Hg. simpl. by rewrite Hv, delete_singleton_eq. }
  eexists _, (buf_id_ b), (size_ b). split; [unfold current; by rewrite Hb|]. split; [exact E|].
  split; [|done]. unfold consumer_step. rewrite Hpc, Hb. cbn [mbind option_bind]. by rewrite Hd, E.
Qed.

(** outside the body, a step is a half of [next] *)
Lemma next_step stoppable stop s s' :
  inv stoppable s → over s = false → pc s ≠ CBody →
  consumer_step this stop s = Some s' ↔
  ∃ r' p, s' = St r' p (total_bytes s) (cqe_count s) (open_ s)
    ∧ if m_suspended (mr s) then exec_event this (Resume 0) (mr s) = Some r' ∧ p = landed (next_end (m_obj (mr s))).1
      else exec_event this (Call 0 stop) (mr s) = Some r' ∧ p = after_next (next_begin stop (m_obj (mr s))).1.
Proof using Type.
  intros Hinv Hov Hnb. pose proof (inv_shape _ _ Hinv) as Hsh.
  unfold shape, over, consumer_step in *. destruct (pc s); try done; destruct Hsh as [-> _];
    (split; [intros (r & E & [= <-])%bind_Some; by eexists _, _|intros (r & p & -> & -> & ->); done]).
Qed.

Lemma consumer_inv stoppable stop s s' :
  (stop = true → stoppable = true) → inv stoppable s → consumer_step this stop s = Some s' → inv stoppable s'.
Proof using HBR HP.
  intros Hst Hinv Hstep. destruct (over s) eqn:Hov.
  { unfold over, consumer_step in *. by destruct (pc s). }
  destruct (decide (pc s = CBody)) as [Hpc|Hpc].
  - destruct (body_step stoppable stop s Hinv Hpc) as (r & id & n & Hc & E & Hst' & Hv & Hr & Hs & Hp & He).
    rewrite Hst' in Hstep. injection Hstep as <-. pose proof (event_wf _ _ _ (inv_wf _ _ Hinv) E).
    destruct Hinv as [_ _ (l & Hl & Ht & Hn) Hi1 Hi2 _].
    split; simpl; [done|done| |by rewrite He..|done].
    exists (l ++ [(id, n)]). unfold current. simpl. rewrite Hv, lookup_empty, app_nil_r, Hr, Hl, Hc, Ht, Hn.
    split; [done|]. rewrite to_u64_add, to_i32_add, sum_bytes_app, length_app, Nat2Z.inj_add. simpl.
    by rewrite Z.add_0_r.
  - apply (next_step stoppable) in Hstep as (r & p & -> & E); [|done..].
    by apply (next_inv stoppable stop).
Qed.

Lemma stream_inv stoppable s0 s : inv stoppable s0 → rtc (step this stoppable) s0 s → inv stoppable s.
Proof using HBR HP.
  intros H0. induction 1 as [|s s1 s2 Hst _ IH]; [done|]. apply IH.
  destruct Hst as [e E|stop Hs E]; [by eapply stream_kernel_inv|by eapply consumer_inv].
Qed.

(** ** The loop ends *)

Definition left_to_do s : nat :=
  2 * length (pending_ (m_obj (mr s))) + match pc s with CNext | CWaiting => 1 | CBody => 2 | _ => 0 end.

Lemma consumer_frame stop s s' :
  consumer_step this stop s = Some s' → m_arrived (mr s') = m_arrived (mr s) ∧ open_ s' = open_ s.
Proof using Type.
  unfold consumer_step. destruct (pc s); [| | |done..].
  - intros (r & E & [= <-])%bind_Some. split; [|done]. revert E. simpl. case_match; [done|].
    by destruct (next_begin _ _) as [[] ?]; intros [= <-].
  - intros (r & E & [= <-])%bind_Some. split; [|done]. revert E. simpl. case_match; [|done].
    intros (_ & _ & E)%bind_Some. revert E. by destruct (next_end _) as [? ?]; intros [= <-].
  - intros (b & _ & E)%bind_Some. revert E. destruct (rb_data _ _) as [[] | | | |]; [|done..].
    intros (r & E & [= <-])%bind_Some. split; [|done]. revert E. simpl.
    intros (? & _ & (? & _ & [= <-])%bind_Some)%bind_Some. done.
Qed.

(** once the kernel has ended the stream, a call of [next] does not wait *)
Lemma next_defined stoppable stop s :
  inv stoppable s → open_ s = false → over s = false → pc s ≠ CBody →
  ∃ r' p, if m_suspended (mr s)
    then exec_event this (Resume 0) (mr s) = Some r' ∧ p = landed (next_end (m_obj (mr s))).1
    else exec_event this (Call 0 stop) (mr s) = Some r' ∧ p = after_next (next_begin stop (m_obj (mr s))).1.
Proof using Type.
  intros [Hwf Hsh _ He _ _] Hop Hov Hnb. specialize (He Hop).
  assert (m_vars (mr s) = ∅) as Hv by (unfold shape, over in *; by destruct (pc s), Hsh).
  destruct (m_suspended (mr s)) eqn:Hs; simpl; rewrite Hs, Hv; simpl.
  - destruct (wf_suspended _ _ _ Hwf Hs) as [(p & -> & Hp) _].
    { destruct (waiter_ (m_obj (mr s))) eqn:Hw; [|done]. by destruct (wf_waiter _ _ _ Hwf _ Hw) as (_ & _ & ? & _). }
    simpl. rewrite Hp. simpl. destruct (next_end _). by eexists _, _.
  - destruct (next_begin _ _) as [[] ?]; by eexists _, _.
Qed.

Lemma ended_progress stoppable stop s :
  inv stoppable s → open_ s = false → over s = false →
  ∃ s', consumer_step this stop s = Some s' ∧ (left_to_do s' < left_to_do s)%nat
    ∧ (over s' = true → pending_ (m_obj (mr s')) = []).
Proof using HBR HP.
  intros Hinv Hop Hov. destruct (decide (pc s = CBody)) as [Hpc|Hpc].
  - destruct (body_step stoppable stop s Hinv Hpc) as (r & id & n & _ & _ & E & _ & _ & _ & Hp & _).
    eexists. split; [exact E|]. unfold left_to_do. simpl. rewrite Hp, Hpc. split; [lia|done].
  - destruct (next_defined stoppable stop s Hinv Hop Hov Hpc) as (r' & p & E).
    assert (m_vars (mr s) = ∅) as Hv.
    { pose proof (inv_shape _ _ Hinv) as Hsh. unfold shape, over in *. by destruct (pc s), Hsh. }
    pose proof (inv_ended _ _ Hinv Hop) as He.
    eexists. split; [by apply (next_step stoppable); [..|eexists _, _; split; [done|exact E]]|].
    assert (left_to_do s = 2 * length (pending_ (m_obj (mr s))) + 1)%nat as ->.
    { unfold left_to_do, over in *. by destruct (pc s). }
    unfold left_to_do. simpl. destruct (next_lands stop _ _ r' p Hv eq_refl E) as
      [(id & n & q & Hp & -> & _ & Hob & _)|(Hp & _ & _ & Hp' & [([->|[e ->]] & _)|(-> & _ & _ & _ & _ & ?)])].
    + rewrite Hp, Hob. simpl. split; [lia|done].
    + rewrite Hp, Hp'. simpl. split; [lia|done].
    + rewrite Hp, Hp'. simpl. split; [lia|done].
    + done.
Qed.

Lemma ended_finishes stoppable stop s :
  (stop = true → stoppable = true) → inv stoppable s → open_ s = false → over s = false →
  ∃ n s', (n ≤ left_to_do s)%nat ∧ nsteps (λ a b, consumer_step this stop a = Some b) n s s'
    ∧ inv stoppable s' ∧ over s' = true ∧ m_arrived (mr s') = m_arrived (mr s) ∧ pending_ (m_obj (mr s')) = [].
Proof using HBR HP.
  intros Hst. remember (left_to_do s) as k eqn:Hk. revert s Hk.
  induction k as [k IH] using lt_wf_ind. intros s -> Hinv Hop Hov.
  destruct (ended_progress stoppable stop s Hinv Hop Hov) as (s1 & E & Hlt & Hpd).
  destruct (consumer_frame stop s s1 E) as [Ha Ho1]. pose proof (consumer_inv _ _ _ _ Hst Hinv E) as Hinv1.
  destruct (over s1) eqn:Hov1.
  - exists 1%nat, s1. split; [lia|]. split; [by apply nsteps_once|]. auto.
  - destruct (IH _ Hlt s1 eq_refl Hinv1 ltac:(congruence) Hov1) as (n & s2 & Hn & Hsteps & ? & ? & Ha2 & ?).
    exists (S n), s2. split; [lia|]. split; [by eapply nsteps_l|]. split; [done|]. split; [done|].
    split; [congruence|done].
Qed.

(** what the counters say, when nothing is queued and no handle is live *)
Lemma inv_totals stoppable s :
  inv stoppable s → over s = true → pending_ (m_obj (mr s)) = [] →
  total_bytes s = to_u64 (sum_bytes (m_arrived (mr s)))
  ∧ cqe_count s = to_i32 (Z.of_nat (length (m_arrived (mr s))))
  ∧ ∃ br, buf_ring_ (m_obj (mr s)) = Some br ∧ b_id <$> br_avail br ≡ₚ seqZ 0 kBufCount.
Proof using Type.
  intros [Hwf Hsh (l & Hl & Ht & Hn) _ _ _] Hov Hp.
  assert (m_vars (mr s) = ∅) as Hv by (unfold shape, over in *; by destruct (pc s), Hsh).
  rewrite (wf_log _ _ _ Hwf), Hp, app_nil_r, Hl. unfold current. rewrite Hv, lookup_empty, app_nil_r.
  split; [done|]. split; [done|]. destruct (wf_ring _ _ _ Hwf) as (br & Hbr & _ & Hh). exists br. split; [done|].
  unfold held in Hh. by rewrite Hp, Hv, lent_empty, !app_nil_r in Hh.
Qed.

(** a loop that is over and was not stopped *)
Lemma quiet_totals conn_fd bgid br0 (r : uring) n s :
  br_setup n bgid = inr br0 →
  rtc (step this false) (consumer_init conn_fd bgid (br_add (slot kBufSize <$> seqZ 0 kBufCount) br0) r) s →
  over s = true →
  total_bytes s = to_u64 (sum_bytes (m_arrived (mr s)))
  ∧ cqe_count s = to_i32 (Z.of_nat (length (m_arrived (mr s))))
  ∧ ∃ br, buf_ring_ (m_obj (mr s)) = Some br ∧ b_id <$> br_avail br ≡ₚ seqZ 0 kBufCount.
Proof using HBR HP.
  intros Hbr Hrun Hov. assert (inv false s) as Hinv.
  { eapply stream_inv, Hrun. apply consumer_init_inv. by rewrite br_add_last, (br_setup_empty _ _ _ Hbr). }
  apply (inv_totals false); [done|done|]. by apply (inv_over _ _ Hinv).
Qed.
End theory.

(** ** Properties of the consumer *)

Section properties.
Context {L : Liburing} {P : Promise} {BR : BufRing}.

(** C19: the consumer of a stream counts what arrived.  Over every interleaving
    of its loop with the completions of its receive entry, and with stop
    requests where they are made: the buffers that arrived are those counted,
    the one in the loop's body and those queued, in order; [total_bytes] and
    [cqe_count] are the bytes and the number of those counted, at the widths
    of their counters; the body never runs without a valid span.  Once the
    kernel has ended the stream the loop ends within two steps a queued
    buffer and two more, with everything that arrived counted.  A loop that is
    over and was not stopped, whether it left by the end of the stream or by
    an exception, has counted everything, and every buffer is back with the
    kernel. *)
Theorem stream_consumes (HP : PromiseLaws P) (HBR : BufRingLaws BR) this conn_fd bgid br0 (r : uring) n stoppable s :
  br_setup n bgid = inr br0 →
  rtc (step this stoppable) (consumer_init conn_fd bgid (br_add (slot kBufSize <$> seqZ 0 kBufCount) br0) r) s →
  (∃ counted, m_arrived (mr s) = counted ++ current s ++ pending_ (m_obj (mr s))
     ∧ total_bytes s = to_u64 (sum_bytes counted) ∧ cqe_count s = to_i32 (Z.of_nat (length counted)))
  ∧ (pc s = CBody → ∀ stop, is_Some (consumer_step this stop s))
  ∧ (open_ s = false → over s = false → ∀ stop, (stop = true → stoppable = true) →
       ∃ n s', (n ≤ 2 * length (pending_ (m_obj (mr s))) + 2)%nat
         ∧ nsteps (λ a b, consumer_step this stop a = Some b) n s s' ∧ over s' = true
         ∧ m_arrived (mr s') = m_arrived (mr s)
         ∧ total_bytes s' = to_u64 (sum_bytes (m_arrived (mr s))))
  ∧ (over s = true → stoppable = false →
       total_bytes s = to_u64 (sum_bytes (m_arrived (mr s)))
       ∧ cqe_count s = to_i32 (Z.of_nat (length (m_arrived (mr s))))
       ∧ ∃ br, buf_ring_ (m_obj (mr s)) = Some br ∧ b_id <$> br_avail br ≡ₚ seqZ 0 kBufCount).
Proof.
  intros Hbr Hrun. assert (inv stoppable s) as Hinv.
  { eapply stream_inv, Hrun. apply consumer_init_inv. by rewrite br_add_last, (br_setup_empty _ _ _ Hbr). }
  pose proof Hinv as [Hwf _ (l & Hl & Ht & Hn) _ _ _]. split; [|split; [|split]].
  - exists l. by rewrite (wf_log _ _ _ Hwf), Hl, <-app_assoc.
  - intros Hpc stop. destruct (body_step this stoppable stop s Hinv Hpc) as (r' & id & k & _ & _ & E & _). by eexists.
  - intros Hop Hov stop Hst.
    destruct (ended_finishes this stoppable stop s Hst Hinv Hop Hov) as (k & s' & Hk & Hsteps & Hinv' & Hov' & Ha & Hp).
    exists k, s'. split; [|split; [done|]; split; [done|]; split; [done|]].
    + unfold left_to_do in Hk. destruct (pc s); lia.
    + rewrite <-Ha. by apply (inv_totals stoppable).
  - intros Hov ->. by eapply quiet_totals.
Qed.
End properties.

(** ** The producer *)

Section producer.
Context {L : Liburing} {P : Promise} {B : BufferedChannel Z} {H : Type} {HC : CqeHandler H}
  {D : DerivedHandler H send_zc_handler}.

Abbreviation action := (cxx (worker L H) ()).

(** what the producer's thread has of its own: the buffer pool and the worker *)
Record thread := Thread { th_pool : option FixedBuffer.state; th_worker : option (worker L H) }.

Definition on_pool {A} (m : cxx (option FixedBuffer.state) A) : cxx thread A := λ t,
  let '(o, p) := m (th_pool t) in (o, Thread p (th_worker t)).
Definition on_ring {A} (m : cxx (option (worker L H)) A) : cxx thread A := λ t,
  let '(o, w) := m (th_worker t) in (o, Thread (th_pool t) w).
(** a statement on a pool that exists *)
Definition in_pool {A} (m : cxx FixedBuffer.state A) : cxx (option FixedBuffer.state) A := λ t,
  match t with Some s => let '(o, s') := m s in (o, Some s') | None => (Undef, None) end.

(** the body of the loop, with [fb] in variable 0; [storage] is the address of
    the pool's storage, [a] that of the send's handler *)
Definition send_record (fd storage a : Z) (acts : list action) : cxx thread () :=
  fb ← on_pool borrow_fixed_buffer;
  _ ← on_pool (in_pool (write_var 0 fb));
  scoped (
    '(off, _) ← on_pool (in_pool (λ s, (fb_data fb s, s)));
    _ ← on_ring (async_send_zc fd (storage + off) (idx_ fb) kRecordSize 0 a acts);
    mret ())
  (on_pool (in_pool (fb_dtor 0))).

(** the loop; [acts i] is what the thread runs while iteration [i] waits *)
Fixpoint send_records (fd storage a : Z) (acts : nat → list action) (i n : nat) : cxx thread () :=
  match n with
  | O => mret ()
  | S n => _ ← send_record fd storage a (acts i); send_records fd storage a acts (S i) n
  end.

(** the loop and [async_close(fd)] *)
Definition produce (fd storage a : Z) (acts : nat → list action) : cxx thread () :=
  _ ← send_records fd storage a acts 0 kMessages;
  on_ring (async_close fd a (acts kMessages)).
End producer.
Arguments thread L {B} H.

Section producer_theory.
Context {L : Liburing} {HL : LiburingLaws L} {P : Promise} {HP : PromiseLaws P}
  {B : BufferedChannel Z} {HB : BufferedChannelLaws Z B} {H : Type} {HC : CqeHandler H}
  {D : DerivedHandler H send_zc_handler} {DL : DerivedHandlerLaws H send_zc_handler D send_zc_complete}.
Context (Hall : ∀ r : uring, submits_all r) (fds : efd_bufs) (fd storage a : Z) (Ha : k_cancel_tag < a).
Implicit Types (s : FixedBuffer.state) (w : worker L H).

(** the kernel's answer to a send: its result, then a notification if the
    completion announced one *)
Definition answered (ans : Z * bool) : list (cxx (worker L H) ()) :=
  let '(res, more) := ans in
  if more then [drain_cqes fds [Cqe a res IORING_CQE_F_MORE]; drain_cqes fds [Cqe a 0 IORING_CQE_F_NOTIF]]
  else [drain_cqes fds [Cqe a res 0]].

(** the entry of a send of slot [i] *)
Definition record_entry (i : Z) : sqe :=
  set_data a (prepped (PrepSendZcFixed fd (storage + i * kRecordSize) kRecordSize 0 0 i)).

(** a pool of records that no one has borrowed from, and a ring with room *)
Record ready (items : list Z) s w : Prop := {
  rd_wf : FixedBuffer.wf s;
  rd_vars : s_vars s = ∅;
  rd_items : bc_items (free_list_ (s_pool s)) = items;
  rd_size : FixedBuffer.buf_size_ (s_pool s) = kRecordSize;
  rd_storage : storage_ (s_pool s) = FixedBuffer.buf_count_ (s_pool s) * kRecordSize;
  rd_count : FixedBuffer.buf_count_ (s_pool s) ≤ 2 ^ 15;
  rd_pending : sq_pending (w_ring w) = [];
  rd_room : (1 < sq_entries (w_ring w))%nat
}.

(** the send alone *)
Lemma send_answered addr i ans w :
  sq_pending (w_ring w) = [] → (0 < sq_entries (w_ring w))%nat →
  ∃ w', async_send_zc fd addr i kRecordSize 0 a (answered ans) (Some w)
      = (if ans.1 <? 0 then Exn (SystemError (- ans.1)) else Ret ans.1, Some w')
    ∧ sq_submitted (w_ring w') = sq_submitted (w_ring w) ++ [set_data a (prepped (PrepSendZcFixed fd addr kRecordSize 0 0 i))]
    ∧ sq_pending (w_ring w') = [] ∧ sq_entries (w_ring w') = sq_entries (w_ring w).
Proof using All.
  intros Hp Hroom. destruct ans as [res more]. unfold answered. cbn [fst].
  destruct (async_send_zc_run fd addr i kRecordSize 0 a w Hall) as (r & Hs & Hpr & Her & Hrun); [by rewrite Hp|].
  rewrite Hp in Hs. set (w0 := upd_ring _ _) in Hrun.
  destruct (zc_wait_answers fds a res (if more then IORING_CQE_F_MORE else 0) 0 IORING_CQE_F_NOTIF w0 Ha
    (lookup_insert_eq _ _ _)) as (w1 & w2 & Hr1 & Hr2 & Hw); [by destruct more|done|].
  exists (upd_handlers (delete a) (if more then w2 else w1)).
  destruct more.
  - change (has_flag IORING_CQE_F_MORE IORING_CQE_F_MORE) with true in Hw. destruct Hw as [_ E].
    rewrite (Hrun _ _ _ E). change (w_ring (upd_handlers _ w2)) with (w_ring w2). by rewrite Hr2.
  - change (has_flag 0 IORING_CQE_F_MORE) with false in Hw. destruct Hw as [E _].
    rewrite (Hrun _ _ _ E). change (w_ring (upd_handlers _ w1)) with (w_ring w1). by rewrite Hr1.
Qed.

Lemma send_record_spec i rest ans s w :
  ready (i :: rest) s w →
  ∃ s' w', send_record fd storage a (answered ans) (Thread (Some s) (Some w))
      = (if ans.1 <? 0 then Exn (SystemError (- ans.1)) else Ret (), Thread (Some s') (Some w'))
    ∧ ready (rest ++ [i]) s' w' ∧ sq_submitted (w_ring w') = sq_submitted (w_ring w) ++ [record_entry i].
Proof using All.
  intros [Hwf Hv Hi Hsz Hst Hcn Hp Hroom].
  destruct (pop_item _ _ _ Hi) as (ch & Epop & Hi1 & Hcap1 & Hcl1).
  set (b := FixedBuffer.FixedBuffer true i). set (s1 := upd_vars <[0%nat := b]> (set_free ch s)).
  assert (borrow s = (Ret b, set_free ch s)) as Eb by (unfold borrow; by rewrite Epop).
  assert (FixedBuffer.wf s1) as Hwf1.
  { destruct (fb_exec_wf (FixedBuffer.Borrow 0) s Hwf) as [(s' & E & ? & _)|(E & _)]; [by simpl; rewrite Hv| |];
      simpl in E; unfold mbind, cxx_mbind, cxx_bind in E; rewrite Eb in E; [|done]. by injection E as <-. }
  assert (s_vars s1 !! 0%nat = Some b) as Hb by apply lookup_insert_eq.
  destruct (release_spec s1 0 b Hwf1 Hb) as (ch2 & Er & Hi2 & Hcap2 & Hcl2).
  assert (fb_data b s1 = Ret (i * kRecordSize, kRecordSize)) as Hd.
  { assert (0 ≤ i < FixedBuffer.buf_count_ (s_pool s)) as Hir.
    { pose proof (wf_slots _ Hwf) as Hsl. rewrite Hi in Hsl.
      assert (i ∈ seqZ 0 (FixedBuffer.buf_count_ (s_pool s))) as Hin by (rewrite <-Hsl; set_solver).
      apply elem_of_seqZ in Hin. lia. }
    unfold fb_data, mul64, to_u64. simpl. rewrite Hsz, Hst. unfold kRecordSize in *.
    rewrite wrap_id by lia. rewrite (proj2 (Z.leb_le _ _)), (proj2 (Z.leb_le _ _)) by lia. done. }
  assert (fb_dtor 0 s1 = (Ret (), upd_vars (delete 0%nat) (set_free ch2 s1))) as Hdt.
  { unfold fb_dtor. erewrite cxx_bind_ret by (by apply fb_read_var_spec). by erewrite cxx_bind_ret by exact Er. }
  destruct (send_answered (storage + i * kRecordSize) i ans w Hp ltac:(lia)) as (w' & Es & Hs' & Hp' & He').
  exists (upd_vars (delete 0%nat) (set_free ch2 s1)), w'. split; [|split; [|done]].
  - unfold send_record. erewrite cxx_bind_ret by (unfold on_pool, borrow_fixed_buffer; simpl; by rewrite Eb).
    erewrite cxx_bind_ret by reflexivity. cbn [th_worker]. fold s1. unfold scoped.
    erewrite cxx_bind_ret by (unfold on_pool, in_pool; cbn [th_pool th_worker]; by rewrite Hd).
    cbv beta iota. unfold mbind, cxx_mbind, cxx_bind, on_ring, on_pool, in_pool. cbn [th_pool th_worker].
    change (idx_ b) with i. rewrite Es. destruct (ans.1 <? 0); cbn [th_pool th_worker cxx_ret mret cxx_mret]; by rewrite Hdt.
  - destruct (fb_exec_wf (FixedBuffer.Drop 0) s1 Hwf1) as [(s2 & E & Hwf2 & _)|(_ & [v Hbad] & _)]; [|simpl in E|done].
    { apply bool_decide_eq_true. by eexists. }
    rewrite Hdt in E. injection E as <-.
    split; simpl; try done.
    + by rewrite Hv, delete_insert_id.
    + rewrite Hi2. simpl. by rewrite Hi1.
    + by rewrite He'.
Qed.

(** the slots of [n] sends, borrowed from the front of the free list and given
    back at its end *)
Fixpoint cycle (n : nat) (items : list Z) : list Z :=
  match n, items with S n, i :: rest => i :: cycle n (rest ++ [i]) | _, _ => [] end.

Lemma cycle_lookup n items k :
  (k < n)%nat → items ≠ [] → cycle n items !! k = items !! (k mod length items)%nat.
Proof using Type.
  revert n items. induction k as [|k IH]; intros [|n] items Hk Hne; try lia; destruct items as [|i rest]; try done.
  - simpl. by rewrite Nat.sub_diag.
  - change (cycle (S n) (i :: rest) !! S k) with (cycle n (rest ++ [i]) !! k).
    rewrite IH by (lia || by destruct rest). rewrite length_app. simpl length. rewrite Nat.add_1_r.
    set (l := S (length rest)). pose proof (Nat.mod_upper_bound k l ltac:(lia)) as Hm.
    pose proof (Nat.div_mod_eq k l) as Hdm.
    destruct (decide (k mod l = length rest)%nat) as [Heq|Hneq].
    + rewrite Heq, list_lookup_middle by done. replace (S k mod l)%nat with 0%nat; [done|].
      symmetry. apply Nat.Div0.mod_divides. exists (S (k / l)%nat). lia.
    + replace (S k mod l)%nat with (S (k mod l))%nat.
      { rewrite lookup_app_l by (unfold l in *; lia). done. }
      apply (Nat.mod_unique _ _ (k / l)%nat); lia.
Qed.

(** the loop: it stops at the first send that fails *)
Lemma send_records_spec ans i n items s w :
  items ≠ [] → ready items s w →
  ∃ m s' w' items', (m ≤ n)%nat
    ∧ (∀ j, (j < m)%nat → 0 ≤ (ans (i + j)%nat).1) ∧ ((m < n)%nat → (ans (i + m)%nat).1 < 0)
    ∧ send_records fd storage a (answered ∘ ans) i n (Thread (Some s) (Some w))
      = (if decide (m = n) then Ret () else Exn (SystemError (- (ans (i + m)%nat).1)), Thread (Some s') (Some w'))
    ∧ ready items' s' w' ∧ items' ≡ₚ items
    ∧ sq_submitted (w_ring w') = sq_submitted (w_ring w) ++ (record_entry <$> cycle (S m `min` n) items).
Proof using All.
  revert i items s w. induction n as [|n IH]; intros i items s w Hne Hrd.
  { exists 0%nat, s, w, items. rewrite Nat.min_0_r, app_nil_r. repeat (split; [done || lia|]). done. }
  destruct items as [|x rest]; [done|].
  destruct (send_record_spec x rest (ans i) s w Hrd) as (s1 & w1 & E & Hrd1 & Hs1).
  destruct (Z.ltb_spec (ans i).1 0) as [Hneg|Hpos].
  - exists 0%nat, s1, w1, (rest ++ [x]). rewrite Nat.add_0_r. split; [lia|]. split; [lia|]. split; [done|].
    split; [by apply cxx_bind_exn|]. split; [done|]. split; [by rewrite Permutation_app_comm|].
    by rewrite Hs1.
  - destruct (IH (S i) (rest ++ [x]) s1 w1 ltac:(by destruct rest) Hrd1)
      as (m & s' & w' & items' & Hm & Hok & Hbad & E' & Hrd' & Hperm & Hs').
    exists (S m), s', w', items'. split; [lia|]. split; [|split; [|split; [|split; [done|split]]]].
    + intros [|j] Hj; [by rewrite Nat.add_0_r|]. rewrite <-Nat.add_succ_comm. apply Hok. lia.
    + rewrite <-Nat.add_succ_comm. intros. apply Hbad. lia.
    + rewrite <-Nat.add_succ_comm. simpl. erewrite cxx_bind_ret by exact E. rewrite E'.
      by repeat case_decide; try lia.
    + by rewrite Hperm, Permutation_app_comm.
    + rewrite Hs', Hs1, <-app_assoc. done.
Qed.
End producer_theory.

(** the bytes the first [m] sends reported *)
Definition sent (ans : nat → Z * bool) (m : nat) : Z := foldr (λ k, Z.add (ans k).1) 0 (seq 0 m).

Lemma sent_S ans m : sent ans (S m) = sent ans m + (ans m).1.
Proof.
  unfold sent. rewrite seq_S, foldr_app. simpl. generalize (seq 0 m) as l.
  induction l as [|k l IH]; simpl; [lia|]. rewrite IH. lia.
Qed.

Lemma sent_full ans m :
  (∀ k, (k < m)%nat → 0 ≤ (ans k).1 ≤ kRecordSize) →
  0 ≤ sent ans m ≤ Z.of_nat m * kRecordSize
  ∧ (sent ans m = Z.of_nat m * kRecordSize ↔ ∀ k, (k < m)%nat → (ans k).1 = kRecordSize).
Proof.
  induction m as [|m IH]; intros Hans; [split; [done|]; split; [lia|done]|].
  rewrite sent_S. destruct IH as [Hb Hf]; [intros; apply Hans; lia|]. pose proof (Hans m ltac:(lia)) as Hm.
  split; [lia|]. split.
  - intros Heq k Hk. destruct (decide (k = m)) as [->|]; [lia|]. apply Hf; lia.
  - intros Hall. rewrite (Hall m) by lia. rewrite (proj2 Hf) by (intros; apply Hall; lia). lia.
Qed.

Lemma sent_expected ans m :
  (m ≤ kMessages)%nat → (∀ k, (k < m)%nat → 0 ≤ (ans k).1 ≤ kRecordSize) →
  to_u64 (sent ans m) = kExpected ↔ m = kMessages ∧ ∀ k, (k < kMessages)%nat → (ans k).1 = kRecordSize.
Proof.
  intros Hm Hans. destruct (sent_full ans m Hans) as [Hb Hf].
  assert (kExpected = Z.of_nat kMessages * kRecordSize) as -> by done.
  assert (Z.of_nat kMessages = 10000) as HN by done. unfold kRecordSize in *.
  unfold to_u64. rewrite wrap_id by lia. split.
  - intros Heq. assert (m = kMessages) as -> by lia. split; [done|]. by apply Hf.
  - intros [-> Hk]. by apply Hf.
Qed.

Lemma cycle_seqZ n c k :
  (k < n)%nat → 0 < c → cycle n (seqZ 0 c) !! k = Some (Z.of_nat k mod c).
Proof.
  intros Hk Hc. assert (length (seqZ 0 c) = Z.to_nat c) as Hl by apply length_seqZ.
  rewrite cycle_lookup, Hl; [|done|intros He; rewrite He in Hl; simpl in Hl; lia].
  apply lookup_seqZ. rewrite Nat2Z.inj_mod, Z2Nat.id by lia.
  split; [lia|]. pose proof (Z.mod_pos_bound (Z.of_nat k) c Hc). lia.
Qed.

Section stream.
Context {L : Liburing} {P : Promise} {B : BufferedChannel Z} {H : Type} {HC : CqeHandler H}
  {D : DerivedHandler H send_zc_handler} {BR : BufRing}.

(** C18: the stream's report is right.  On a thread with nothing pending, when
    the ring accepts what is submitted, the producer sends one record a turn
    from its thread's pool of eight registered buffers, taking the slots in
    turn, each inside the pool's storage; it stops with a
    [std::system_error] at the first send that fails, without closing its
    socket, and in any case every slot is back in the pool.  When the
    connection delivers to the consumer the bytes the sends reported, and the
    consumer is over without having been stopped, the program's check
    [total_bytes == kExpected] holds exactly when all the sends were made and
    each of them was complete: a short send is not made up for. *)
Theorem stream_ok (HL : LiburingLaws L) (HP : PromiseLaws P) (HB : BufferedChannelLaws Z B)
    (DL : DerivedHandlerLaws H send_zc_handler D send_zc_complete) (HBR : BufRingLaws BR)
    (Hall : ∀ r : uring, submits_all r) fds reg fd storage a ans (w : worker L H) :
  (∀ iovs n, 0 ≤ reg iovs n) → k_cancel_tag < a → (∀ k, (ans k).1 ≤ kRecordSize) →
  sq_pending (w_ring w) = [] → (1 < sq_entries (w_ring w))%nat →
  ∃ p m s' w', fixed_buffer_pool true reg kRecordSize 8 = Ret p ∧ (m ≤ kMessages)%nat
    ∧ (∀ k, (k < m)%nat → 0 ≤ (ans k).1) ∧ ((m < kMessages)%nat → (ans m).1 < 0)
    ∧ (∀ o, o = (if decide (m = kMessages) then Ret () else Exn (SystemError (- (ans m).1))) →
        send_records fd storage a (answered fds a ∘ ans) 0 kMessages (Thread (Some (FixedBuffer.State p ∅)) (Some w))
        = (o, Thread (Some s') (Some w'))
        ∧ (m ≠ kMessages → produce fd storage a (answered fds a ∘ ans) (Thread (Some (FixedBuffer.State p ∅)) (Some w))
             = (o, Thread (Some s') (Some w'))))
    ∧ bc_items (free_list_ (s_pool s')) ≡ₚ seqZ 0 (FixedBuffer.buf_count_ p) ∧ s_vars s' = ∅
    ∧ (∃ es, sq_submitted (w_ring w') = sq_submitted (w_ring w) ++ es ∧
        ∀ k, (k < S m `min` kMessages)%nat →
          ∃ i, i = Z.of_nat k mod FixedBuffer.buf_count_ p ∧ es !! k = Some (record_entry fd storage a i)
            ∧ 0 ≤ i * kRecordSize ∧ i * kRecordSize + kRecordSize ≤ storage_ p)
    ∧ ∀ this conn_fd bgid br0 (r : uring) n s, br_setup n bgid = inr br0 →
        rtc (step this false) (consumer_init conn_fd bgid (br_add (slot kBufSize <$> seqZ 0 kBufCount) br0) r) s →
        over s = true → sum_bytes (m_arrived (mr s)) = sent ans m →
        ok s = true ↔ m = kMessages ∧ ∀ k, (k < kMessages)%nat → (ans k).1 = kRecordSize.
Proof.
  intros Hreg Ha Hans Hpd Hroom.
  destruct (pool_ctor_wf reg kRecordSize 8) as (p & Ep & Hwf & Hsz & Hst & Hle & Hcnt & Hit); [done..|].
  destruct (send_records_spec Hall fds fd storage a Ha ans 0 kMessages (seqZ 0 (FixedBuffer.buf_count_ p))
    (FixedBuffer.State p ∅) w) as (m & s' & w' & items' & Hm & Hok & Hbad & E & Hrd & Hperm & Hs').
  { intros He. apply (f_equal length) in He. rewrite length_seqZ in He. simpl in He. lia. }
  { split; try done. simpl. lia. }
  exists p, m, s', w'. do 4 (split; [done|]). split; [|split; [|split; [|split]]].
  - intros o ->. split; [exact E|]. intros Hne. unfold produce. rewrite decide_False in E |- * by done.
    by apply cxx_bind_exn.
  - by rewrite (rd_items _ _ _ Hrd).
  - apply Hrd.
  - eexists. split; [exact Hs'|]. intros k Hk. eexists. split; [reflexivity|].
    rewrite list_lookup_fmap, cycle_seqZ by lia. split; [done|].
    pose proof (Z.mod_pos_bound (Z.of_nat k) (FixedBuffer.buf_count_ p) ltac:(lia)).
    rewrite Hst. unfold kRecordSize. lia.
  - intros this conn_fd bgid br0 r n s Hbr Hrun Hov Hsum. unfold ok.
    destruct (quiet_totals this conn_fd bgid br0 r n s Hbr Hrun Hov) as (-> & _). rewrite Hsum, Z.eqb_eq.
    apply sent_expected; [done|]. intros k Hk. split; [by apply (Hok k)|apply Hans].
Qed.
End stream.

(** ** Witnesses *)

Section witnesses.
Import ListUring CellPromise ListBufRing ListChannel.

Abbreviation all_slots := (slot kBufSize <$> seqZ 0 kBufCount).
Definition begun : st :=
  consumer_init (L := list_uring) (P := cell_promise) (BR := list_buf_ring) 5 0 ([] ++ all_slots) (fresh 256).

(** a schedule: a step of the loop, or a completion *)
Fixpoint schedule (es : list (option event)) (s : st) : option st :=
  match es with
  | [] => Some s
  | e :: es => s' ← match e with None => consumer_step 4096 false s | Some e => kernel_step 4096 e s end; schedule es s'
  end.

Lemma schedule_rtc es (s s' : st (L := list_uring) (P := cell_promise) (BR := list_buf_ring)) :
  schedule es s = Some s' → rtc (step 4096 false) s s'.
Proof.
  revert s. induction es as [|e es IH]; intros s; simpl; [by intros [= ->]|].
  intros (s1 & E & Hs)%bind_Some. eapply rtc_l; [|by apply IH]. destruct e as [e|].
  - by apply (step_kernel _ _ _ _ e).
  - by apply (step_consumer _ _ _ _ false).
Qed.

(** the loop waits, receives 100 bytes, and then finds 28 more and the end *)
Definition draining : list (option event) :=
  [None; Some (Data 100 true); None; None; Some (Data 28 true); Some (End 0); None; None; None].
Definition drained : st := Eval vm_compute in default begun (schedule draining begun).

Lemma stream_consumes_witness :
  pc drained = CClosing ∧ total_bytes drained = 128 ∧ cqe_count drained = 2
  ∧ total_bytes drained = to_u64 (sum_bytes (m_arrived (mr drained)))
  ∧ ∃ br, buf_ring_ (m_obj (mr drained)) = Some br ∧ b_id <$> br_avail br ≡ₚ seqZ 0 kBufCount.
Proof.
  destruct (stream_consumes (L := list_uring) cell_promise_laws list_buf_ring_laws 4096 5 0 [] (fresh 256) 256 false drained)
    as (_ & _ & _ & Hover); [reflexivity|apply (schedule_rtc draining); vm_compute; reflexivity|].
  destruct Hover as (Ht & _ & Hb); [reflexivity..|]. do 3 (split; [reflexivity|]). split; [exact Ht|exact Hb].
Defined.

(** the kernel delivers all the bytes in full buffers, and the loop counts them *)
Definition streaming : list (option event) :=
  [None] ++ replicate 156 (Some (Data 4096 true)) ++ [Some (Data 1024 true); Some (End 0)] ++ replicate 315 None.
Definition streamed : st := Eval vm_compute in default begun (schedule streaming begun).

(** every send is complete and announces its notification *)
Lemma stream_ok_witness :
  ok streamed = true ∧ ∃ p s' w', fixed_buffer_pool (B := list_channel) true (λ _ _, 0) kRecordSize 8 = Ret p
    ∧ send_records (HC := zc_handlers) (D := one_more_derived send_zc_complete) 5 8192 4096
        (answered (HC := zc_handlers) OnlyAwaitable.bufs 4096 ∘ (λ _, (64, true))) 0 kMessages
        (Thread (Some (FixedBuffer.State p ∅)) (Some zc_worker)) = (Ret (), Thread (Some s') (Some w')).
Proof.
  destruct (stream_ok (HC := zc_handlers) (BR := list_buf_ring) list_uring_laws cell_promise_laws list_channel_laws
    (one_more_derived_laws send_zc_complete) list_buf_ring_laws list_uring_submits_all OnlyAwaitable.bufs
    (λ _ _, 0) 5 8192 4096 (λ _, (64, true)) zc_worker)
    as (p & m & s' & w' & Ep & Hm & _ & Hbad & Hrun & _ & _ & _ & Hok);
    [done|unfold k_cancel_tag; lia|done|reflexivity|simpl; unfold k_ring_entries; lia|].
  destruct (decide (m = kMessages)) as [->|Hne]; [|exfalso; assert (64 < 0); [apply Hbad; lia|lia]]. split.
  - apply (Hok 4096 5 0 [] (fresh 256) 256 streamed); [reflexivity|apply (schedule_rtc streaming); vm_compute; reflexivity|
      reflexivity|vm_compute; reflexivity|]. split; reflexivity.
  - exists p, s', w'. split; [exact Ep|]. destruct (Hrun _ eq_refl) as [E _]. exact E.
Defined.
End witnesses.
