(* ===== verification/System.v ===== *)
(** * System: one worker with every handler of the library

    The completion loop dispatches through a [cqe_handler*]; the classes that
    derive from it are [io_awaitable], [send_zc_handler],
    [multishot_acceptor] and [multishot_recv].  [handler] is an object of any
    of them and [system_complete] the virtual call.  [LocalHandler] states what
    the library's handlers have in common, and what makes them compose: what a
    completion does to its object does not depend on the ring, and what it
    submits carries the object's own address.  [drain_isolated] is proved from
    the interface alone: handlers do not interfere. *)

From S2P Require Import Prelude Cxx Uring Boost Scheduler Submit AsyncIo FixedBuffer.
From S2P Require Import MultishotAcceptor MultishotRecv.

Local Open Scope Z_scope.

(** ** The interface *)

Class LocalHandler {L : Liburing} {P : Promise} (H : Type) (HC : CqeHandler H) : Prop := {
  (** the object and the outcome do not depend on the ring *)
  local_state this res flags (h : H) (r1 r2 : uring) :
    (complete this res flags (h, r1)).1 = (complete this res flags (h, r2)).1
    ∧ (complete this res flags (h, r1)).2.1 = (complete this res flags (h, r2)).2.1;
  (** nothing is left unsubmitted, and what is submitted is the object's *)
  local_ring this res flags (h : H) (r : uring) :
    sq_pending r = [] →
    let r' := (complete this res flags (h, r)).2.2 in
    sq_pending r' = [] ∧ sq_entries r' = sq_entries r
    ∧ ∃ es, sq_submitted r' = sq_submitted r ++ es ∧ Forall (λ e, sqe_user_data e = this) es
}.

(** ** Draining *)

Section drain.
Context {L : Liburing} {HL : LiburingLaws L} {P : Promise} {H : Type} {HC : CqeHandler H}
  {LH : LocalHandler H HC}.
Context (fds : efd_bufs) (Hall : ∀ r : uring, submits_all r).
Implicit Types w : worker L H.

(** the completions of one handler *)
Definition mine (a : Z) (cs : list cqe) : list cqe := filter (λ c, cqe_data c = a) cs.

(** the handler at [a] given completions one after the other, with a ring [r0]
    of its own *)
Fixpoint replay (r0 : uring) (a : Z) (cs : list cqe) (h : H) : outcome () * H :=
  match cs with
  | [] => (Ret (), h)
  | c :: cs =>
      match complete a (cqe_res c) (cqe_flags c) (h, r0) with
      | (Ret _, (h', _)) => replay r0 a cs h'
      | (o, (h', _)) => (o, h')
      end
  end.

(** between two completions: nothing pending, and an entry to spare when the
    queued cancellations are flushed *)
Record quiet w : Prop := {
  quiet_pending : sq_pending (w_ring w) = [];
  quiet_room : (length (cancel_queue_ (w_sched w)) < sq_entries (w_ring w))%nat
}.

Definition sentinel (a : Z) : Prop := a = k_work_tag ∨ a = k_notify_tag ∨ a = k_cancel_tag.

(** an entry that completions of [as_] may submit: one of the two eventfd reads,
    a handler's own, or a cancellation *)
Definition own_entry (as_ : list Z) (e : sqe) : Prop :=
  e = work_sqe fds ∨ e = notify_sqe fds ∨ k_cancel_tag < sqe_user_data e ∧ sqe_user_data e ∈ as_
  ∨ ∃ t, e = cancel_sqe t.

Definition cancels (es : list sqe) : list sqe := filter (λ e, sqe_user_data e = k_cancel_tag) es.

(** a completion of the notify read is among those of [as_] *)
Definition notified (as_ : list Z) : bool := bool_decide (k_notify_tag ∈ as_).

(** what handling completions of [as_] does to the queued cancellations: a
    notify completion passes all of them on, in order *)
Record flushes (as_ : list Z) (es : list sqe) w w' : Prop := {
  fl_queue : cancel_queue_ (w_sched w') = if notified as_ then [] else cancel_queue_ (w_sched w);
  fl_cancels : cancels es = if notified as_ then cancel_sqe <$> cancel_queue_ (w_sched w) else []
}.

Lemma cancels_queue (q : list Z) : cancels (cancel_sqe <$> q) = cancel_sqe <$> q.
Proof using Type. unfold cancels. induction q as [|t q IH]; [done|]. csimpl. by rewrite filter_cons_True, IH. Qed.

(** a completion of the scheduler's own *)
Lemma sentinel_step c w :
  quiet w → sentinel (cqe_data c) →
  ∃ w' es, handle_cqe fds c w = (Ret (), w') ∧ quiet w' ∧ w_handlers w' = w_handlers w
    ∧ sq_submitted (w_ring w') = sq_submitted (w_ring w) ++ es ∧ Forall (own_entry []) es
    ∧ flushes [cqe_data c] es w w'.
Proof using HL Hall.
  intros [Hp He] [Hc|[Hc|Hc]].
  - destruct (handle_work fds (cqe_res c) (cqe_flags c) w Hall Hp) as (w' & E & Hw & Hh & Hp' & He' & Hq' & _);
      [lia|].
    exists w'. replace (Cqe k_work_tag (cqe_res c) (cqe_flags c)) with c in E
      by (destruct c; simpl in *; congruence).
    assert (quiet w') as Hqt by (split; [done|by rewrite Hq', He']).
    rewrite Hc. destruct (running_ (w_pool w)).
    + destruct Hw as (_ & _ & _ & _ & _ & Hs). exists [work_sqe fds]. split_and!; [done..| |].
      * apply Forall_singleton. by left.
      * by split.
    + subst w'. exists []. rewrite app_nil_r. split_and!; [done..|by split].
  - destruct (notify_flushes fds c w Hall Hc Hp He) as (r & E & Hs & Hp' & He').
    eexists _, _. split; [exact E|]. split; [split; simpl; [done|change (w_ring _) with r; rewrite He'; lia]|].
    split; [done|]. split; [exact Hs|]. rewrite Hc. split.
    + apply Forall_app. split; [|apply Forall_singleton; right; by left].
      apply Forall_fmap, Forall_true. intros t. right. right. right. by exists t.
    + split; [done|]. unfold cancels. rewrite filter_app, filter_cons_False, filter_nil, app_nil_r by done.
      apply cancels_queue.
  - exists w, []. rewrite app_nil_r, Hc. split; [unfold handle_cqe; by rewrite Hc|]. split_and!; [by split|done|done|done|by split].
Qed.

(** a completion of a live handler *)
Lemma handler_step c w h h' o r :
  quiet w → k_cancel_tag < cqe_data c → w_handlers w !! cqe_data c = Some h →
  complete (cqe_data c) (cqe_res c) (cqe_flags c) (h, w_ring w) = (o, (h', r)) →
  let w' := upd_handlers <[cqe_data c := h']> (upd_ring (λ _, r) w) in
  handle_cqe fds c w = (o, w') ∧ quiet w'
  ∧ ∃ es, sq_submitted (w_ring w') = sq_submitted (w_ring w) ++ es
      ∧ Forall (own_entry [cqe_data c]) es ∧ flushes [cqe_data c] es w w'.
Proof using All.
  intros [Hp He] Hc Hh E w'.
  pose proof (local_ring (cqe_data c) (cqe_res c) (cqe_flags c) h (w_ring w) Hp) as (Hp' & He' & es & Hs & Ho).
  rewrite E in *. simpl in *. split; [|split].
  - rewrite handle_dispatch by done. unfold dispatch_handler. rewrite Hh, E. done.
  - split; simpl; [done|by change (w_ring w') with r; rewrite He'].
  - exists es. split; [done|]. split.
    + eapply Forall_impl; [exact Ho|]. intros e Hd. right. right. left. rewrite Hd. split; [done|set_solver].
    + assert (notified [cqe_data c] = false) as Hn.
      { apply bool_decide_eq_false. rewrite list_elem_of_singleton. unfold k_notify_tag, k_cancel_tag in *. lia. }
      split; rewrite Hn; [done|]. unfold cancels. clear -Ho Hc.
      induction Ho as [|e es Hd _ IH]; [done|]. by rewrite filter_cons_False by lia.
Qed.

Lemma mine_same c cs : mine (cqe_data c) (c :: cs) = c :: mine (cqe_data c) cs.
Proof using Type. unfold mine. by rewrite filter_cons_True. Qed.

Lemma mine_other a c cs : cqe_data c ≠ a → mine a (c :: cs) = mine a cs.
Proof using Type. intros. unfold mine. by rewrite filter_cons_False. Qed.

Lemma replay_step r0 r a c cs h :
  (replay r0 a (c :: cs) h).1 = Ret () →
  ∃ h' r', complete a (cqe_res c) (cqe_flags c) (h, r) = (Ret (), (h', r'))
    ∧ replay r0 a (c :: cs) h = replay r0 a cs h'.
Proof using LH.
  simpl. destruct (local_state a (cqe_res c) (cqe_flags c) h r0 r) as [Ho Hs].
  destruct (complete _ _ _ (h, r0)) as [[[]|e| | |] [h0 r0']]; try done. intros _.
  destruct (complete _ _ _ (h, r)) as [o [h1 r1]]. simpl in *. subst. by exists h1, r1.
Qed.

(** a completion that something is there to take *)
Definition expected w (c : cqe) : Prop :=
  sentinel (cqe_data c) ∨ k_cancel_tag < cqe_data c ∧ is_Some (w_handlers w !! cqe_data c).

Lemma own_entry_mono as1 as2 e : as1 ⊆ as2 → own_entry as1 e → own_entry as2 e.
Proof using Type. intros Hsub [?|[?|[[??]|?]]]; unfold own_entry; auto 10. Qed.

Lemma flushes_app as1 as2 es1 es2 w1 w2 w3 :
  flushes as1 es1 w1 w2 → flushes as2 es2 w2 w3 → flushes (as1 ++ as2) (es1 ++ es2) w1 w3.
Proof using Type.
  intros [Hq1 Hc1] [Hq2 Hc2].
  assert (notified (as1 ++ as2) = notified as1 || notified as2) as Hn
    by (clear; unfold notified; repeat case_bool_decide; set_solver).
  split; unfold cancels in *; rewrite ?filter_app, Hn; [rewrite Hq2, Hq1|rewrite Hc1, Hc2, Hq1];
    by destruct (notified as1), (notified as2); rewrite ?app_nil_r.
Qed.

Lemma sentinel_le a : sentinel a → a ≤ k_cancel_tag.
Proof using Type. unfold sentinel, k_work_tag, k_notify_tag, k_cancel_tag. lia. Qed.

(** one completion: its handler takes a step of its own, the others none *)
Lemma expected_step r0 c cs w :
  quiet w → expected w c →
  (∀ a h, k_cancel_tag < a → w_handlers w !! a = Some h → (replay r0 a (mine a (c :: cs)) h).1 = Ret ()) →
  ∃ w1 es, handle_cqe fds c w = (Ret (), w1) ∧ quiet w1
    ∧ (∀ a h, k_cancel_tag < a → w_handlers w !! a = Some h → ∃ h1, w_handlers w1 !! a = Some h1
         ∧ replay r0 a (mine a (c :: cs)) h = replay r0 a (mine a cs) h1)
    ∧ (∀ a, w_handlers w !! a = None ↔ w_handlers w1 !! a = None)
    ∧ sq_submitted (w_ring w1) = sq_submitted (w_ring w) ++ es
    ∧ Forall (own_entry [cqe_data c]) es ∧ flushes [cqe_data c] es w w1.
Proof using All.
  intros Hq [Hc|[Hc [h Hh]]] Hrep.
  - destruct (sentinel_step c w Hq Hc) as (w1 & es & E & Hq1 & Hh & Hs & Ho & Hfl).
    exists w1, es. split_and!; [done..| | |done| |done].
    + intros a h Ha Hha. exists h. rewrite Hh. split; [done|]. rewrite mine_other; [done|].
      apply sentinel_le in Hc. lia.
    + by rewrite Hh.
    + eapply Forall_impl; [exact Ho|]. intros e. apply own_entry_mono. apply list_subseteq_nil.
  - pose proof (Hrep _ _ Hc Hh) as Hr. rewrite mine_same in Hr.
    destruct (replay_step r0 (w_ring w) _ _ _ _ Hr) as (h' & r' & E & Erep).
    destruct (handler_step c w h h' _ r' Hq Hc Hh E) as (E1 & Hq1 & es & Hs & Ho & Hfl).
    exists (upd_handlers <[cqe_data c := h']> (upd_ring (λ _, r') w)), es. split_and!; [done..| | |done|done|done].
    + intros a g Ha Hg. destruct (decide (a = cqe_data c)) as [->|Hne]; simpl.
      * rewrite lookup_insert_eq. exists h'. split; [done|]. rewrite mine_same. congruence.
      * rewrite lookup_insert_ne, mine_other by done. by exists g.
    + intros a. simpl. destruct (decide (a = cqe_data c)) as [->|Hne].
      * rewrite lookup_insert_eq, Hh. done.
      * by rewrite lookup_insert_ne.
Qed.

Lemma drain_spec r0 cs w :
  quiet w → Forall (expected w) cs →
  (∀ a h, k_cancel_tag < a → w_handlers w !! a = Some h → (replay r0 a (mine a cs) h).1 = Ret ()) →
  ∃ w' es, drain_cqes fds cs w = (Ret (), w') ∧ quiet w'
    ∧ (∀ a, k_cancel_tag < a →
         w_handlers w' !! a = (λ h, (replay r0 a (mine a cs) h).2) <$> w_handlers w !! a)
    ∧ sq_submitted (w_ring w') = sq_submitted (w_ring w) ++ es
    ∧ Forall (own_entry (cqe_data <$> cs)) es ∧ flushes (cqe_data <$> cs) es w w'.
Proof using All.
  revert w. induction cs as [|c cs IH]; intros w Hq Hexp Hrep.
  { exists w, []. rewrite app_nil_r. split_and!; [done..| |done|by constructor|by split].
    intros a _. by destruct (w_handlers w !! a). }
  apply Forall_cons in Hexp as [Hc Hexp].
  destruct (expected_step r0 c cs w Hq Hc Hrep) as (w1 & es1 & E1 & Hq1 & Hh1 & Hd1 & Hs1 & Ho1 & Hf1).
  destruct (IH w1 Hq1) as (w' & es & E & Hq' & Hh' & Hs' & Ho' & Hf').
  { eapply Forall_impl; [exact Hexp|]. intros d [?|[Hd Hl]]; [by left|]. right. split; [done|].
    destruct (w_handlers w1 !! cqe_data d) eqn:En; [done|]. apply Hd1 in En. by rewrite En in Hl. }
  { intros a h1 Ha Hha. destruct (w_handlers w !! a) as [h|] eqn:Ew; [|apply Hd1 in Ew; congruence].
    destruct (Hh1 a h Ha Ew) as (h2 & Hh2 & Erep). rewrite Hha in Hh2. simplify_eq.
    rewrite <-Erep. by apply Hrep. }
  exists w', (es1 ++ es). split; [simpl; by erewrite cxx_bind_ret by exact E1|]. split; [done|]. split.
  - intros a Ha. rewrite Hh' by done. destruct (w_handlers w !! a) as [h|] eqn:Ew.
    + destruct (Hh1 a h Ha Ew) as (h2 & -> & Erep). simpl. by rewrite Erep.
    + apply Hd1 in Ew. by rewrite Ew.
  - split; [by rewrite Hs', Hs1, app_assoc|]. split; [|by apply (flushes_app [cqe_data c] _ es1 es w w1 w')].
    apply Forall_app. split; (eapply Forall_impl; [eassumption|]); intros e; apply own_entry_mono; set_solver.
Qed.
End drain.

(** ** The library's handlers *)

(** an object of a class derived from [cqe_handler] *)
Inductive handler {P : Promise} {BR : BufRing} :=
  | HAwaitable (p : promise Z)
  | HSendZc (z : send_zc_handler)
  | HAcceptor (x : acceptor)
  | HRecv (x : mrecv).
Arguments handler P BR : clear implicits.

Section system.
Context {L : Liburing} {HL : LiburingLaws L} {P : Promise} {BR : BufRing}.

(** the object part of a result *)
Definition wrap_obj {X} (f : X → handler P BR) (r : outcome () * (X * uring)) :
    outcome () * (handler P BR * uring) :=
  let '(o, (x, r')) := r in (o, (f x, r')).

(** the virtual call *)
Definition system_complete (this res flags : Z) : cxx (handler P BR * uring) () := λ '(h, r),
  match h with
  | HAwaitable p =>
      match io_awaitable_complete res p with
      | Ret p' => (Ret (), (HAwaitable p', r))
      | _ => (Abort, (HAwaitable p, r))
      end
  | HSendZc z => wrap_obj HSendZc (send_zc_complete this res flags (z, r))
  | HAcceptor x => wrap_obj HAcceptor (acceptor_complete this res flags (x, r))
  | HRecv x => wrap_obj HRecv (recv_complete this res flags (x, r))
  end.

#[export] Instance system_handlers : CqeHandler (handler P BR) := {|
  complete := system_complete; io_awaitable := HAwaitable;
  as_awaitable h := match h with HAwaitable p => Some p | _ => None end |}.

#[export] Instance system_send_zc : DerivedHandler (handler P BR) send_zc_handler := {|
  upcast := HSendZc; downcast h := match h with HSendZc z => Some z | _ => None end |}.
#[export] Instance system_acceptor : DerivedHandler (handler P BR) acceptor := {|
  upcast := HAcceptor; downcast h := match h with HAcceptor x => Some x | _ => None end |}.
#[export] Instance system_recv : DerivedHandler (handler P BR) mrecv := {|
  upcast := HRecv; downcast h := match h with HRecv x => Some x | _ => None end |}.

(** every class keeps the contract its own file is proved against *)
#[export] Instance system_handlers_laws : CqeHandlerLaws (handler P BR) system_handlers.
Proof using Type. by split. Qed.
#[export] Instance system_send_zc_laws :
  DerivedHandlerLaws (handler P BR) send_zc_handler system_send_zc send_zc_complete.
Proof using Type. by split. Qed.
#[export] Instance system_acceptor_laws :
  DerivedHandlerLaws (handler P BR) acceptor system_acceptor acceptor_complete.
Proof using Type. by split. Qed.
#[export] Instance system_recv_laws :
  DerivedHandlerLaws (handler P BR) mrecv system_recv recv_complete.
Proof using Type. by split. Qed.

(** the two properties, for the [complete] of one class *)
Definition local_class {X} (f : Z → Z → Z → cxx (X * uring) ()) : Prop := ∀ this res flags x,
  (∀ r1 r2, (f this res flags (x, r1)).1 = (f this res flags (x, r2)).1
     ∧ (f this res flags (x, r1)).2.1 = (f this res flags (x, r2)).2.1)
  ∧ ∀ r, sq_pending r = [] →
      let r' := (f this res flags (x, r)).2.2 in
      sq_pending r' = [] ∧ sq_entries r' = sq_entries r
      ∧ ∃ es, sq_submitted r' = sq_submitted r ++ es ∧ Forall (λ e, sqe_user_data e = this) es.

Lemma ring_untouched (r : uring) this :
  sq_pending r = [] →
  sq_pending r = [] ∧ sq_entries r = sq_entries r
  ∧ ∃ es, sq_submitted r = sq_submitted r ++ es ∧ Forall (λ e, sqe_user_data e = this) es.
Proof using Type. intros. split_and!; [done..|]. exists []. by rewrite app_nil_r. Qed.

(** [get_sqe], fill, [submit], when the ring may be full *)
Lemma ring_armed (Hall : ∀ r : uring, submits_all r) e (r : uring) :
  sq_pending r = [] →
  let r' := match claim e r with None => r | Some r1 => (io_uring_submit r1).2 end in
  sq_pending r' = [] ∧ sq_entries r' = sq_entries r
  ∧ ∃ es, sq_submitted r' = sq_submitted r ++ es ∧ Forall (λ e', sqe_user_data e' = sqe_user_data e) es.
Proof using HL.
  intros Hp. simpl. destruct (claim e r) as [r1|] eqn:Ec; [|by apply ring_untouched].
  destruct (claim_some _ _ _ Ec) as (Hp1 & Hs1 & He1).
  destruct (submit_all r1 (Hall r1)) as (Hs2 & Hp2 & He2). split_and!; [done|congruence|].
  exists [e]. rewrite Hs2, Hs1, Hp1, Hp. split; [done|]. by apply Forall_singleton.
Qed.

Lemma send_zc_local : local_class send_zc_complete.
Proof using Type.
  intros this res flags z. split; [intros r1 r2|intros r Hp];
    unfold send_zc_complete, zc_wake, mbind, cxx_mbind, cxx_bind,
      mret, cxx_mret, cxx_ret, modify; simpl;
    repeat (case_match; simplify_eq/=); try done; by apply ring_untouched.
Qed.

Lemma acceptor_local (Hall : ∀ r : uring, submits_all r) : local_class acceptor_complete.
Proof using HL.
  intros this res flags x. split; [intros r1 r2|intros r Hp];
    unfold acceptor_complete, MultishotAcceptor.wake_waiter, mbind, cxx_mbind, cxx_bind,
      mret, cxx_mret, cxx_ret, gets, modify;
    simpl; repeat (case_match; simplify_eq/=); try done;
    first [by apply ring_untouched | by apply (ring_armed Hall (accept_sqe this _))].
Qed.

Lemma recv_local (Hall : ∀ r : uring, submits_all r) : local_class recv_complete.
Proof using HL.
  intros this res flags x. split; [intros r1 r2|intros r Hp];
    unfold recv_complete, MultishotRecv.wake_waiter, mbind, cxx_mbind, cxx_bind,
      mret, cxx_mret, cxx_ret, gets, modify;
    simpl; repeat (case_match; simplify_eq/=); try done;
    first [by apply ring_untouched | by apply (ring_armed Hall (recv_sqe this _))].
Qed.

(** ... and for an object of that class *)
Lemma wrap_obj_local {X} (f : X → handler P BR) (r1 r2 : outcome () * (X * uring)) :
  r1.1 = r2.1 ∧ r1.2.1 = r2.2.1 →
  (wrap_obj f r1).1 = (wrap_obj f r2).1 ∧ (wrap_obj f r1).2.1 = (wrap_obj f r2).2.1.
Proof using Type. destruct r1 as [? [??]], r2 as [? [??]]. simpl. naive_solver. Qed.

Lemma wrap_obj_ring {X} (f : X → handler P BR) (r : outcome () * (X * uring)) :
  (wrap_obj f r).2.2 = r.2.2.
Proof using Type. by destruct r as [? [??]]. Qed.

Lemma system_local (Hall : ∀ r : uring, submits_all r) : LocalHandler (handler P BR) system_handlers.
Proof using HL.
  split.
  - intros this res flags [p|z|x|x] r1 r2; simpl.
    + by destruct (io_awaitable_complete res p).
    + apply wrap_obj_local, send_zc_local.
    + by apply wrap_obj_local, acceptor_local.
    + by apply wrap_obj_local, recv_local.
  - intros this res flags [p|z|x|x] r Hp; simpl.
    + destruct (io_awaitable_complete res p); by apply ring_untouched.
    + rewrite wrap_obj_ring. by apply send_zc_local.
    + rewrite wrap_obj_ring. by apply acceptor_local.
    + rewrite wrap_obj_ring. by apply recv_local.
Qed.
End system.

(** ** Properties *)

Section properties.
Context {L : Liburing} {P : Promise} {BR : BufRing}.

(** C2: the handlers of a worker do not interfere, when [io_uring_submit] accepts
    the entries.  Take a worker with nothing pending whose ring has an entry
    more than cancellations are queued, and any batch of completions, in any
    order, for awaitables, zero-copy sends, acceptors and receivers that are
    alive, mixed with the scheduler's own.  If every handler would take its own
    completions alone, the batch is drained; every handler ends exactly as if
    it had been given only its own completions, in order; and whatever is
    submitted meanwhile is one of the scheduler's two reads, carries the
    address of a handler that was completed, or is a cancellation.  The
    cancellations are exactly the queued ones, in order, if a completion of the
    notify read is among the batch, which empties the queue, and otherwise
    none. *)
Theorem drain_isolated (HL : LiburingLaws L) (Hall : ∀ r : uring, submits_all r) fds r0 cs
    (w : worker L (handler P BR)) :
  quiet w → Forall (expected w) cs →
  (∀ a h, k_cancel_tag < a → w_handlers w !! a = Some h → (replay r0 a (mine a cs) h).1 = Ret ()) →
  ∃ w' es, drain_cqes fds cs w = (Ret (), w') ∧ quiet w'
    ∧ (∀ a, k_cancel_tag < a →
         w_handlers w' !! a = (λ h, (replay r0 a (mine a cs) h).2) <$> w_handlers w !! a)
    ∧ sq_submitted (w_ring w') = sq_submitted (w_ring w) ++ es
    ∧ Forall (own_entry fds (cqe_data <$> cs)) es ∧ flushes (cqe_data <$> cs) es w w'.
Proof. pose proof (system_local (P := P) (BR := BR) Hall). by apply drain_spec. Qed.
End properties.

(** ** Witnesses *)

Section witnesses.
Import ListUring CellPromise ListBufRing.

(** an operation and an acceptor, side by side, and a cancellation queued *)
Definition mixed : worker list_uring (handler cell_promise list_buf_ring) :=
  {| w_pool := {| running_ := true; work_queue_ := []; eventfd_ := 0; in_flight_ := 2 |};
     w_sched := {| ring_ := fresh k_ring_entries; ready_ := []; cancel_queue_ := [12288]; notify_fd_ := 1 |};
     w_handlers := {[ 4096 := HAwaitable (None : promise Z);
                      8192 := HAcceptor (Acceptor 3 0 0 [] None 0 None) ]};
     w_fibers := []; w_stops := ∅; w_pool_stop := 0%nat; w_fiber_stop := None |}.

Definition batch : list cqe :=
  [Cqe 8192 7 IORING_CQE_F_MORE; Cqe k_work_tag 8 0; Cqe 4096 64 0; Cqe k_notify_tag 8 0; Cqe 8192 9 0].

Lemma drain_isolated_witness :
  ∃ w' es, drain_cqes OnlyAwaitable.bufs batch mixed = (Ret (), w')
    ∧ w_handlers w' !! 4096 = Some (HAwaitable (Some 64 : promise Z))
    ∧ w_handlers w' !! 8192 = Some (HAcceptor (Acceptor 3 0 0 [7; 9] None 0 None))
    ∧ sq_submitted (w_ring w') = es ∧ Forall (own_entry OnlyAwaitable.bufs [8192; 0; 4096; 1; 8192]) es
    ∧ cancels es = [cancel_sqe 12288] ∧ cancel_queue_ (w_sched w') = [].
Proof.
  destruct (drain_isolated list_uring_laws list_uring_submits_all OnlyAwaitable.bufs (fresh 1) batch mixed)
    as (w' & es & E & _ & Hh & Hs & Ho & [Hq Hc]).
  - split; [reflexivity|simpl; unfold k_ring_entries; lia].
  - unfold batch, expected, sentinel, k_work_tag, k_cancel_tag. repeat apply Forall_cons_2; [..|constructor]; simpl.
    1,3,5: right; split; [lia|by eexists]. all: left; unfold k_notify_tag; auto.
  - intros a h Ha Hh. simpl in Hh.
    apply lookup_insert_Some in Hh as [[<- <-]|[_ Hh]]; [reflexivity|].
    apply lookup_singleton_Some in Hh as [<- <-]. reflexivity.
  - exists w', es. split; [exact E|]. split; [rewrite (Hh 4096 ltac:(reflexivity)); reflexivity|].
    split; [rewrite (Hh 8192 ltac:(reflexivity)); reflexivity|]. split; [exact Hs|]. split; [exact Ho|].
    split; [exact Hc|exact Hq].
Defined.
End witnesses.
