(* ===== verification/Bulk.v ===== *)
(** * Bulk: the parallel bulk sender (include/fiberexec/detail/fiber_bulk.hpp)

    [fiber_bulk_receiver::set_value] posts one fiber per index; the fibers
    share a countdown, an error flag and an error slot, and the one that takes
    the countdown to zero completes the downstream receiver.  The launcher and
    the fibers run on different threads: the model interleaves their accesses
    to the shared state one at a time.  (The countdown is a sequentially
    consistent read-modify-write, so the relaxed accesses to the flag and the
    plain store of the error happen before the last fiber reads them, and
    interleaving is all there is to see.)  Once the receiver has been completed
    its owner may destroy the operation state at any moment; an access to the
    shared state after that is undefined behaviour. *)

From S2P Require Import Prelude Cxx.

Local Open Scope Z_scope.

(** ** State *)

(** how a sender completes its receiver *)
Inductive completion (A : Type) := SetValue (a : A) | SetError (e : exn) | SetStopped.
Arguments SetValue {A} a.
Arguments SetError {A} e.
Arguments SetStopped {A}.

(** where a worker fiber is: in the pool's queue; in [fun]; back from
    it, returned or thrown out; the winner of the exchange on [has_error], about to
    store its exception; about to count down; the one that reached zero; done *)
Inductive phase :=
  Queued | Running | Called (r : option exn) | Winner (e : exn) | Counting | Last | Finished.

#[export] Instance phase_eq_dec : EqDecision phase.
Proof. solve_decision. Defined.

(** a posted lambda: its captures [i] and [tok], and where it is *)
Record fiber := Fiber { f_i : Z; f_tok : option nat; f_phase : phase }.

(** [fiber_bulk_receiver::set_value]: not called yet; in the loop at [i];
    returned *)
Inductive launcher := Before | Posting (i : Z) | Returned.

Record st := St {
  shape : Z;
  tok : option nat;               (** the launcher fiber's stop token *)
  lpc : launcher;
  fibers : list fiber;            (** in the order they were posted *)
  remaining : Z;
  error : option exn;
  has_error : bool;
  calls : list (Z * Z * option nat);  (** calls of [fun]: arguments, and the token installed *)
  thrown : list exn;                  (** what those calls threw *)
  completions : list (completion ()); (** completions of [rcvr] *)
  destroyed : bool
}.

(** [fiber_bulk_shared(n, fun, rcvr)], in an operation state not yet started *)
Definition fiber_bulk_opstate (n : Z) (tk : option nat) : st :=
  {| shape := n; tok := tk; lpc := Before; fibers := []; remaining := n; error := None;
     has_error := false; calls := []; thrown := []; completions := []; destroyed := false |}.

Definition set_lpc (pc : launcher) (fs : list fiber) (s : st) : st :=
  {| shape := shape s; tok := tok s; lpc := pc; fibers := fs; remaining := remaining s;
     error := error s; has_error := has_error s; calls := calls s; thrown := thrown s;
     completions := completions s; destroyed := destroyed s |}.
Definition set_phase (k : nat) (f : fiber) (ph : phase) (s : st) : st :=
  set_lpc (lpc s) (<[k := Fiber (f_i f) (f_tok f) ph]> (fibers s)) s.
Definition set_shared (rem : Z) (err : option exn) (flag : bool) (s : st) : st :=
  {| shape := shape s; tok := tok s; lpc := lpc s; fibers := fibers s; remaining := rem;
     error := err; has_error := flag; calls := calls s; thrown := thrown s;
     completions := completions s; destroyed := destroyed s |}.
Definition log_call (c : list (Z * Z * option nat)) (r : option exn) (s : st) : st :=
  {| shape := shape s; tok := tok s; lpc := lpc s; fibers := fibers s; remaining := remaining s;
     error := error s; has_error := has_error s; calls := calls s ++ c;
     thrown := thrown s ++ option_list r; completions := completions s; destroyed := destroyed s |}.
Definition complete (c : completion ()) (s : st) : st :=
  {| shape := shape s; tok := tok s; lpc := lpc s; fibers := fibers s; remaining := remaining s;
     error := error s; has_error := has_error s; calls := calls s; thrown := thrown s;
     completions := completions s ++ [c]; destroyed := destroyed s |}.
Definition destroy (s : st) : st :=
  {| shape := shape s; tok := tok s; lpc := lpc s; fibers := fibers s; remaining := remaining s;
     error := error s; has_error := has_error s; calls := calls s; thrown := thrown s;
     completions := completions s; destroyed := true |}.

(** ** Operations *)

(** a step that reads or writes the operation state *)
Definition access (s s' : st) : outcome st := if destroyed s then Undef else Ret s'.

(** [fiber_bulk_receiver::set_value], one iteration of its loop at a time *)
Definition set_value (s : st) : option (outcome st) :=
  match lpc s with
  | Before =>
      Some (access s (if shape s =? 0 then set_lpc Returned (fibers s) (complete (SetValue ()) s)
                      else set_lpc (Posting 0) (fibers s) s))
  | Posting i =>
      if i <? shape s
      then Some (access s (set_lpc (Posting (i + 1)) (fibers s ++ [Fiber i (tok s) Queued]) s))
      else Some (Ret (set_lpc Returned (fibers s) s))   (** [i] and [n] are locals *)
  | Returned => None
  end.

(** [fiber_bulk_receiver::set_error] and [set_stopped]: how else the predecessor
    may complete *)
Definition set_error (e : exn) (s : st) : option (outcome st) :=
  match lpc s with
  | Before => Some (access s (set_lpc Returned (fibers s) (complete (SetError e) s)))
  | _ => None
  end.
Definition set_stopped (s : st) : option (outcome st) :=
  match lpc s with
  | Before => Some (access s (set_lpc Returned (fibers s) (complete SetStopped s)))
  | _ => None
  end.

(** the lambda of fiber [k]; [r] is how its call of [fun] ends, if that is what
    happens next *)
Definition fiber_body (k : nat) (r : option exn) (s : st) : option (outcome st) :=
  f ← fibers s !! k;
  match f_phase f with
  | Queued => Some (access s (set_phase k f Running (log_call [(f_i f, f_i f + 1, f_tok f)] None s)))
  | Running => Some (access s (set_phase k f (Called r) (log_call [] r s)))
  | Called None => Some (Ret (set_phase k f Counting s))
  | Called (Some e) =>
      Some (access s (if has_error s then set_phase k f Counting s
                      else set_phase k f (Winner e) (set_shared (remaining s) (error s) true s)))
  | Winner e => Some (access s (set_phase k f Counting (set_shared (remaining s) (Some e) (has_error s) s)))
  | Counting =>
      let rem := remaining s - 1 in
      Some (access s (set_phase k f (if rem =? 0 then Last else Finished)
                        (set_shared rem (error s) (has_error s) s)))
  | Last =>
      Some (if has_error s
            then if error s is Some e then access s (set_phase k f Finished (complete (SetError e) s))
                 else Undef   (** a null [exception_ptr] *)
            else access s (set_phase k f Finished (complete (SetValue ()) s)))
  | Finished => None
  end.

(** who moves: the launcher, a fiber, or the owner of the operation state *)
Inductive move := Launch | Run (k : nat) (r : option exn) | Destroy.

Definition exec (m : move) (s : st) : option (outcome st) :=
  match m with
  | Launch => set_value s
  | Run k r => fiber_body k r s
  | Destroy => if completions s is [] then None
               else if destroyed s then None else Some (Ret (destroy s))
  end.

Definition step (s s' : st) : Prop := ∃ m, exec m s = Some (Ret s').

Definition reachable (n : Z) (tk : option nat) : st → Prop := rtc step (fiber_bulk_opstate n tk).

Fixpoint exec_all (ms : list move) (s : st) : option st :=
  match ms with
  | [] => Some s
  | m :: ms => match exec m s with Some (Ret s') => exec_all ms s' | _ => None end
  end.

Lemma exec_all_nsteps ms s s' : exec_all ms s = Some s' → nsteps step (length ms) s s'.
Proof.
  revert s. induction ms as [|m ms IH]; simpl; intros s; [intros [= ->]; constructor|].
  destruct (exec m s) as [[s1| | | |]|] eqn:E; try done.
  intros. eapply nsteps_l; [by exists m|by apply IH].
Qed.

(** ** Invariant *)

Definition one (b : bool) : nat := if b then 1%nat else 0%nat.
Definition counted (ph : phase) : nat := match ph with Last | Finished => 1 | _ => 0 end.
Definition last (ph : phase) : nat := if ph is Last then 1 else 0.
(** an exception not yet recorded *)
Definition pending (ph : phase) : nat := match ph with Called (Some _) | Winner _ => 1 | _ => 0 end.
Definition winner (ph : phase) : nat := if ph is Winner _ then 1 else 0.
Definition holds (f : fiber) : list exn :=
  match f_phase f with Called (Some e) | Winner e => [e] | _ => [] end.
Definition call_of (f : fiber) : list (Z * Z * option nat) :=
  if f_phase f is Queued then [] else [(f_i f, f_i f + 1, f_tok f)].
Definition posted (pc : launcher) (n : Z) : Z :=
  match pc with Before => 0 | Posting i => i | Returned => n end.

(** how many fibers are in a phase that [g] counts *)
Definition total (g : phase → nat) (fs : list fiber) : nat := sum_list_with (λ f, g (f_phase f)) fs.

(** the countdown, while a bulk of [0 < n] runs *)
Record counting (s : st) : Prop := {
  inv_posted : 0 ≤ posted (lpc s) (shape s) ≤ shape s;
  inv_index : (λ f, (f_i f, f_tok f)) <$> fibers s
              = (λ i, (i, tok s)) <$> seqZ 0 (posted (lpc s) (shape s));
  inv_count : remaining s + Z.of_nat (total counted (fibers s)) = shape s;
  inv_once : (length (completions s) + total last (fibers s) = one (remaining s =? 0)%Z)%nat;
  inv_calls : calls s ≡ₚ fibers s ≫= call_of;
  inv_destroyed : destroyed s = true → completions s ≠ []
}.

(** a completion that is right for the exceptions thrown *)
Definition sound (th : list exn) (c : completion ()) : Prop :=
  match c with SetValue _ => th = [] | SetError e => e ∈ th | SetStopped => False end.

(** the exceptions *)
Record recording (s : st) : Prop := {
  inv_holds : ∀ e, e ∈ (fibers s ≫= holds) ++ option_list (error s) → e ∈ thrown s;
  inv_thrown : thrown s ≠ [] → has_error s = true ∨ (0 < total pending (fibers s))%nat;
  inv_flag : has_error s = true →
    thrown s ≠ [] ∧ (is_Some (error s) ∨ (0 < total winner (fibers s))%nat);
  inv_winner : (0 < total winner (fibers s))%nat → has_error s = true;
  inv_result : ∀ c, c ∈ completions s → sound (thrown s) c
}.

Lemma counted_le fs : (total counted fs ≤ length fs)%nat.
Proof. induction fs as [|f fs IH]; simpl; [done|]. destruct (f_phase f); simpl; lia. Qed.

Lemma counted_all fs :
  total counted fs = length fs →
  total pending fs = 0%nat ∧ total winner fs = 0%nat
  ∧ fs ≫= call_of = (λ f, (f_i f, f_i f + 1, f_tok f)) <$> fs
  ∧ (total last fs = 0%nat → Forall (λ f, f_phase f = Finished) fs).
Proof.
  unfold total. induction fs as [|f fs IH]; csimpl; intros Hs; [done|].
  pose proof (counted_le fs) as Hle. unfold total in Hle.
  destruct IH as (-> & -> & -> & IHl); [destruct (f_phase f); simpl in *; lia|].
  unfold call_of. destruct (f_phase f) eqn:E; simpl in *; try lia;
    (split_and!; [done..|]); intros; try lia. constructor; auto.
Qed.

Section invariant.
Context (s : st) (Hn : 0 < shape s) (I : counting s).

Lemma inv_length : Z.of_nat (length (fibers s)) = posted (lpc s) (shape s).
Proof using I.
  destruct I. apply (f_equal length) in inv_index0. rewrite !length_fmap, length_seqZ in inv_index0. lia.
Qed.

(** once the countdown is at zero, every fiber was posted and is past it *)
Lemma inv_zero :
  remaining s = 0 → total counted (fibers s) = length (fibers s)
  ∧ posted (lpc s) (shape s) = shape s.
Proof using Hn I.
  intros Hz. pose proof inv_length. pose proof (counted_le (fibers s)). destruct I. lia.
Qed.

Lemma inv_completed : completions s ≠ [] → remaining s = 0 ∧ total last (fibers s) = 0%nat.
Proof using I.
  intros Hc. destruct I. destruct (completions s); [done|]. simpl in *.
  unfold one in *. case_match; lia.
Qed.
End invariant.

Lemma init_inv n tk : 0 < n → counting (fiber_bulk_opstate n tk) ∧ recording (fiber_bulk_opstate n tk).
Proof.
  intros Hn. split; split; simpl; try done; try lia; try set_solver.
  by rewrite (proj2 (Z.eqb_neq n 0)) by lia.
Qed.

(** fiber [k] moves to phase [ph] *)
Section move_fiber.
Context (s : st) (k : nat) (f : fiber) (ph : phase) (Hf : fibers s !! k = Some f).
Let f' := Fiber (f_i f) (f_tok f) ph.
Let fs' := <[k := f']> (fibers s).

Lemma move_index : (λ f, (f_i f, f_tok f)) <$> fs' = (λ f, (f_i f, f_tok f)) <$> fibers s.
Proof using Hf.
  unfold fs'. rewrite list_fmap_insert. apply list_insert_id. by rewrite list_lookup_fmap, Hf.
Qed.

Lemma move_total (g : phase → nat) :
  (total g fs' + g (f_phase f) = total g (fibers s) + g ph)%nat.
Proof using Hf. apply (sum_list_with_insert (λ f, g (f_phase f)) _ _ _ f' Hf). Qed.

Lemma move_bind {B} (g : fiber → list B) :
  (fs' ≫= g) ++ g f ≡ₚ (fibers s ≫= g) ++ g f'.
Proof using Hf. by apply bind_insert_Permutation. Qed.

Lemma move_calls :
  fs' ≫= call_of ≡ₚ
    (fibers s ≫= call_of) ++ (if f_phase f is Queued then call_of f' else [])
  ∨ ph = Queued.
Proof using Hf.
  pose proof (move_bind call_of) as H. unfold call_of in H at 2 4. simpl in H.
  destruct (decide (ph = Queued)) as [->|]; [by right|left].
  destruct (f_phase f); rewrite ?app_nil_r in *; try (unfold call_of at 3; simpl);
    destruct ph; try done; by apply (Permutation_app_inv_r _ _ _ H).
Qed.

Lemma move_holds e : e ∈ fs' ≫= holds → e ∈ fibers s ≫= holds ∨ e ∈ holds f'.
Proof using Hf.
  intros He. rewrite <-elem_of_app, <-(move_bind holds). by apply elem_of_app; left.
Qed.

Lemma held e : e ∈ holds f → e ∈ fibers s ≫= holds.
Proof using Hf. intros. apply list_elem_of_bind. exists f. split; [done|]. by eapply list_elem_of_lookup_2. Qed.
End move_fiber.

(** splits a fiber's step by the phase it leaves *)
Ltac fiber_cases Hb f Hf Ef :=
  unfold fiber_body in Hb;
  destruct (fibers _ !! _) as [f|] eqn:Hf in Hb; [|done]; cbn [mbind option_bind] in Hb;
  destruct (f_phase f) as [| |[?e|]|?e| | |] eqn:Ef; unfold access in Hb;
  repeat case_match; simplify_eq.

Ltac moved s k f Hf Ef :=
  match goal with
  | |- context [<[k := Fiber _ _ ?ph]> _] =>
      pose proof (move_total s k f ph Hf counted); pose proof (move_total s k f ph Hf last);
      pose proof (move_total s k f ph Hf pending); pose proof (move_total s k f ph Hf winner);
      rewrite Ef in *; cbn [counted last pending winner] in *
  end.

Lemma fiber_counting k r s s' :
  0 < shape s → counting s → fiber_body k r s = Some (Ret s') → counting s'.
Proof.
  intros Hn I Hb. pose proof (inv_length s I) as Hlen.
  assert (∀ f, total counted (<[k := f]> (fibers s)) ≤ length (fibers s))%nat as Hle.
  { intros f. rewrite <-(length_insert (fibers s) k f). apply counted_le. }
  destruct I as [Hp Hi Hc Ho Hcs Hd].
  fiber_cases Hb f Hf Ef;
    (split; cbn -[one total]; [done|by rewrite move_index
      |moved s k f Hf Ef; lia
      |moved s k f Hf Ef; specialize (Hle (Fiber (f_i f) (f_tok f) Finished)) as ?;
       rewrite ?length_app; unfold one in *; simpl length; repeat case_match; lia
      |match goal with |- context [<[k := Fiber _ _ ?ph]> _] =>
         destruct (move_calls s k f ph Hf) as [->|]; [rewrite Ef, ?app_nil_r, Hcs; done|done] end
      |first [done|congruence]]).
Qed.

Section recording.
Context (k : nat) (r : option exn) (s s' : st) (Hn : 0 < shape s) (I : counting s) (R : recording s)
  (Hb : fiber_body k r s = Some (Ret s')).

Lemma fiber_holds e : e ∈ (fibers s' ≫= holds) ++ option_list (error s') → e ∈ thrown s'.
Proof using Hb R.
  pose proof (inv_holds s R) as Hh.
  fiber_cases Hb f Hf Ef; cbn; rewrite ?app_nil_r; intros [He|He]%elem_of_app;
    try (apply (move_holds s k f _ Hf) in He as [He|He]);
    try (apply elem_of_app); first [left; apply Hh, elem_of_app; by auto|apply Hh, elem_of_app; by auto|idtac];
    try (by apply not_elem_of_nil in He).
  - right. by destruct r.
  - apply Hh, elem_of_app. left. apply (held s k f Hf). unfold holds. by rewrite Ef.
  - apply Hh, elem_of_app. left. apply (held s k f Hf). unfold holds. by rewrite Ef.
  - apply Hh, elem_of_app. right. congruence.
Qed.

Lemma fiber_thrown : thrown s' ≠ [] → has_error s' = true ∨ (0 < total pending (fibers s'))%nat.
Proof using Hb R.
  fiber_cases Hb f Hf Ef; destruct R as [_ Ht _ Hw _];
    cbn -[total]; rewrite ?app_nil_r; intros Hne; try (by left);
    try destruct r; moved s k f Hf Ef; rewrite ?app_nil_r in Hne; try specialize (Ht Hne) as [?|?];
    try (by left); try (left; apply Hw; lia); right; lia.
Qed.

Lemma fiber_winner : (0 < total winner (fibers s'))%nat → has_error s' = true.
Proof using Hb R.
  fiber_cases Hb f Hf Ef; destruct R as [_ _ _ Hw _];
    cbn -[total]; try done; moved s k f Hf Ef; intros; apply Hw; lia.
Qed.

Lemma fiber_flag :
  has_error s' = true → thrown s' ≠ [] ∧ (is_Some (error s') ∨ (0 < total winner (fibers s'))%nat).
Proof using Hb R.
  fiber_cases Hb f Hf Ef; destruct R as [Hh _ Hfl _ _];
    cbn -[total]; intros Hne; try destruct (Hfl Hne) as [Hth He];
    (split; [|moved s k f Hf Ef; try (by left); try (destruct He; [by left|]); right; lia]);
    try (by destruct (thrown s)).
  intros Hnil. specialize (Hh e). rewrite Hnil in Hh. apply (not_elem_of_nil e), Hh, elem_of_app. left.
  apply (held s k f Hf). unfold holds. rewrite Ef. constructor.
Qed.

Lemma fiber_result c : c ∈ completions s' → sound (thrown s') c.
Proof using Hb R I Hn.
  pose proof (inv_zero s Hn I) as Hz. pose proof (counted_all (fibers s)) as Hall.
  fiber_cases Hb f Hf Ef; pose proof (inv_completed s I) as Hcm; pose proof (inv_once s I) as Ho;
    destruct R as [Hh Ht _ _ Hr]; cbn -[total sound]; rewrite ?app_nil_r; auto.
  - intros Hc. exfalso. destruct Hcm as [Hrem Hl]; [by intros E; rewrite E in Hc; apply not_elem_of_nil in Hc|].
    destruct (Hall (proj1 (Hz Hrem))) as (_ & _ & _ & Hfin).
    pose proof (proj1 (Forall_lookup _ _) (Hfin Hl) _ _ Hf) as Hfk. simpl in Hfk. congruence.
  - intros [Hc| ->%list_elem_of_singleton]%elem_of_app; [by apply Hr|]. simpl. apply Hh, elem_of_app. right.
    match goal with H : error s = _ |- _ => rewrite H end. constructor.
  - intros [Hc| ->%list_elem_of_singleton]%elem_of_app; [by apply Hr|]. simpl.
    pose proof (sum_list_with_lookup (λ f, last (f_phase f)) _ _ _ Hf) as Hl. simpl in Hl. rewrite Ef in Hl.
    assert (remaining s = 0) as Hrem.
    { unfold total, one in Ho. simpl in Hl. destruct (Z.eqb_spec (remaining s) 0); [done|lia]. }
    destruct (Hall (proj1 (Hz Hrem))) as (Hp & _ & _ & _).
    destruct (thrown s); [done|]. destruct Ht as [?|?]; [done|congruence|lia].
Qed.

Lemma fiber_recording : recording s'.
Proof using Hb R I Hn.
  split; [apply fiber_holds|apply fiber_thrown|apply fiber_flag|apply fiber_winner|apply fiber_result].
Qed.
End recording.

Lemma launch_inv s s' :
  0 < shape s → counting s → recording s → set_value s = Some (Ret s') → counting s' ∧ recording s'.
Proof.
  intros Hn [Hp Hi Hc Ho Hcs Hd] [Hh Ht Hfl Hw Hr] Hb. unfold set_value, access in Hb.
  destruct (lpc s) as [|i|] eqn:El; [| |done].
  - destruct (destroyed s) eqn:Ed; [done|]. rewrite (proj2 (Z.eqb_neq _ _)) in Hb by lia.
    simplify_eq. split; split; simpl in *; auto; first [lia|congruence].
  - destruct (Z.ltb_spec i (shape s)) as [Hlt|Hge]; simplify_eq; simpl in *.
    + destruct (destroyed s) eqn:Ed; [done|]. simplify_eq. unfold total in *.
      assert (∀ g, g Queued = 0%nat → sum_list_with (λ f, g (f_phase f)) (fibers s ++ [Fiber i (tok s) Queued])
        = sum_list_with (λ f, g (f_phase f)) (fibers s)) as Hsum.
      { intros g Hg. rewrite sum_list_with_app. simpl. rewrite Hg. lia. }
      split; split; simpl; unfold total; rewrite ?Hsum, ?bind_app, ?app_nil_r by done;
        try done; try lia; try congruence.
      rewrite fmap_app, Hi. rewrite (seqZ_app 0 i 1) by lia. rewrite fmap_app. by rewrite Z.add_0_l, (seqZ_cons i 1) by lia.
    + replace i with (shape s) in * by lia. split; split; simpl in *; auto; lia.
Qed.

Lemma bulk_step_inv s s' :
  0 < shape s → counting s → recording s → step s s' →
  counting s' ∧ recording s' ∧ shape s' = shape s ∧ tok s' = tok s.
Proof.
  intros Hn I R [m Hm]. assert (shape s' = shape s ∧ tok s' = tok s) as [Hs Ht].
  { destruct m; simpl in Hm; unfold set_value, fiber_body, access in Hm;
      repeat first [case_match|progress simplify_option_eq]; done. }
  destruct m as [|k r|]; simpl in Hm.
  - destruct (launch_inv s s' Hn I R Hm). done.
  - split_and!; [by eapply fiber_counting|by eapply fiber_recording|done..].
  - destruct (completions s) eqn:Ec; [done|]. case_match; simplify_eq. destruct I, R.
    split_and!; [split|split|..]; simpl; congruence || done.
Qed.

Lemma bulk_reachable_inv n tk s :
  0 < n → reachable n tk s → counting s ∧ recording s ∧ shape s = n ∧ tok s = tk.
Proof.
  intros Hn Hr. pose proof (init_inv n tk Hn) as [I0 R0].
  refine (rtc_ind_r (R:=step) (λ s, counting s ∧ recording s ∧ shape s = n ∧ tok s = tk)
    (fiber_bulk_opstate n tk) _ _ s Hr); [by split_and!|].
  intros s1 s2 _ Hst (I & R & Hs & Ht).
  rewrite <-Hs, <-Ht. apply bulk_step_inv; [lia|done..].
Qed.

(** with no index to run, [set_value] is passed on *)
Lemma reachable_zero tk s :
  reachable 0 tk s → shape s = 0 ∧ fibers s = [] ∧ thrown s = [] ∧ calls s = []
  ∧ ((lpc s = Before ∧ completions s = [] ∧ destroyed s = false)
     ∨ (lpc s = Returned ∧ completions s = [SetValue ()])).
Proof.
  revert s.
  refine (rtc_ind_r (R:=step) (λ s, shape s = 0 ∧ fibers s = [] ∧ thrown s = [] ∧ calls s = []
    ∧ ((lpc s = Before ∧ completions s = [] ∧ destroyed s = false)
       ∨ (lpc s = Returned ∧ completions s = [SetValue ()]))) (fiber_bulk_opstate 0 tk) _ _).
  { repeat split; by left. }
  intros s1 s2 _ [m Hm] (H1 & H2 & H3 & H4 & H5).
  destruct m as [|k r|]; simpl in Hm; unfold set_value, fiber_body, access in Hm.
  - destruct H5 as [(E & Ec & Ed)|(E & Ec)]; rewrite E, ?H1, ?Ed in Hm; simplify_eq. simpl.
    split_and!; try done. right. by rewrite Ec.
  - by rewrite H2, lookup_nil in Hm.
  - destruct H5 as [(E & Ec & Ed)|(E & Ec)]; rewrite Ec in Hm; [done|].
    case_match; simplify_eq. simpl. split_and!; try done. by right.
Qed.

(** *** No access after destruction *)

Section safe.
Context (s : st) (Hn : 0 < shape s) (I : counting s) (R : recording s).

Lemma completed_finished :
  completions s ≠ [] →
  posted (lpc s) (shape s) = shape s ∧ Forall (λ f, f_phase f = Finished) (fibers s)
  ∧ fibers s ≫= call_of = (λ f, (f_i f, f_i f + 1, f_tok f)) <$> fibers s.
Proof using Hn I.
  intros Hc. destruct (inv_completed s I Hc) as [Hz Hl]. destruct (inv_zero s Hn I Hz) as [Hall Hp].
  destruct (counted_all _ Hall) as (_ & _ & Hcs & Hf). auto.
Qed.

Lemma access_alive : posted (lpc s) (shape s) < shape s → destroyed s = false.
Proof using Hn I.
  intros Hlt. destruct (destroyed s) eqn:Ed; [|done].
  destruct (completed_finished (inv_destroyed s I Ed)). lia.
Qed.

Lemma fiber_alive k f : fibers s !! k = Some f → f_phase f ≠ Finished → destroyed s = false.
Proof using Hn I.
  intros Hk Hne. destruct (destroyed s) eqn:Ed; [|done].
  destruct (completed_finished (inv_destroyed s I Ed)) as (_ & Hf & _).
  by pose proof (proj1 (Forall_lookup _ _) Hf _ _ Hk).
Qed.

Lemma last_error k f :
  fibers s !! k = Some f → f_phase f = Last → has_error s = true → is_Some (error s).
Proof using Hn I R.
  intros Hk Hl Hf. destruct (inv_flag s R Hf) as [_ [?|Hw]]; [done|exfalso].
  pose proof (sum_list_with_lookup (λ f, last (f_phase f)) _ _ _ Hk) as Hs. simpl in Hs. rewrite Hl in Hs.
  pose proof (inv_once s I) as Ho. unfold one, total in Ho. simpl in Hs.
  destruct (Z.eqb_spec (remaining s) 0) as [Hz|]; [|lia].
  destruct (inv_zero s Hn I Hz) as [Hall _]. destruct (counted_all _ Hall). lia.
Qed.

Lemma exec_ret m o : exec m s = Some o → ∃ s', o = Ret s'.
Proof using Hn I R.
  destruct m as [|k r|]; simpl.
  - unfold set_value, access. pose proof access_alive as Ha. destruct (lpc s) as [|i|]; simpl in *; [| |done].
    + rewrite Ha by lia. naive_solver.
    + destruct (Z.ltb_spec i (shape s)); [rewrite Ha by lia|]; naive_solver.
  - unfold fiber_body. destruct (fibers s !! k) as [f|] eqn:Hk; [|done]. cbn [mbind option_bind].
    pose proof (fiber_alive k f Hk) as Ha. pose proof (last_error k f Hk) as Hle. unfold access.
    destruct (f_phase f) as [| |[]| | | |]; try (rewrite Ha by done); try naive_solver.
    destruct (has_error s); [destruct Hle as [? ->]|]; naive_solver.
  - repeat case_match; naive_solver.
Qed.
End safe.

(** *** Termination *)

Definition phase_weight (ph : phase) : nat :=
  match ph with
  | Queued => 6 | Running => 5 | Called _ => 4 | Winner _ => 3 | Counting => 2 | Last => 1 | Finished => 0
  end.
Definition weight (s : st) : nat :=
  (match lpc s with
   | Before => 7 * Z.to_nat (shape s) + 2
   | Posting i => 7 * Z.to_nat (shape s - i) + 1
   | Returned => 0
   end + total phase_weight (fibers s) + one (negb (destroyed s)))%nat.

Lemma step_weight s s' : step s s' → (weight s' < weight s)%nat.
Proof.
  intros [[|k r|] Hm]; simpl in Hm.
  - unfold set_value, access in Hm.
    destruct (lpc s) as [|i|] eqn:El; [| |done].
    + repeat case_match; simplify_eq; unfold weight; rewrite El; cbn -[one total Nat.mul Z.sub Z.add Z.to_nat]; lia.
    + destruct (Z.ltb_spec i (shape s)); repeat case_match; simplify_eq; unfold weight; rewrite El;
        cbn -[one total Nat.mul Z.sub Z.add Z.to_nat]; [|lia].
      unfold total. rewrite sum_list_with_app. cbn -[one Nat.mul]. lia.
  - fiber_cases Hm f Hf Ef; unfold weight; cbn -[one total Nat.mul Z.sub Z.add Z.to_nat];
      match goal with |- context [<[k := Fiber _ _ ?ph]> _] =>
        pose proof (move_total s k f ph Hf phase_weight) end;
      rewrite Ef in *; cbn [phase_weight] in *; lia.
  - destruct (completions s); [done|]. destruct (destroyed s) eqn:Ed; simplify_eq.
    unfold weight. cbn -[one total Nat.mul Z.sub Z.add Z.to_nat]. rewrite Ed. simpl. lia.
Qed.

Lemma steps_weight k s s' : nsteps step k s s' → (k + weight s' ≤ weight s)%nat.
Proof. induction 1 as [|k s1 s2 s3 H1%step_weight _ IH]; lia. Qed.

(** a run that has not completed the receiver goes on *)
Lemma not_stuck s :
  0 < shape s → counting s → recording s → completions s = [] → ∃ s', step s s'.
Proof.
  intros Hn I R Hc. destruct (set_value s) as [o|] eqn:El.
  { destruct (exec_ret s Hn I R Launch o El) as [s' ->]. exists s'. by exists Launch. }
  assert (lpc s = Returned) as Hret by (unfold set_value in El; repeat case_match; done).
  destruct (decide (Forall (λ f, f_phase f = Finished) (fibers s))) as [Hall|Hn0].
  - exfalso. pose proof (inv_length s I) as Hl. rewrite Hret in Hl. simpl in Hl.
    assert (∀ g, total g (fibers s) = length (fibers s) * g Finished)%nat as Htot.
    { intros g. clear -Hall. unfold total. induction Hall as [|f fs Hf _ IH]; simpl; [done|].
      rewrite Hf, IH. done. }
    pose proof (inv_count s I) as Hcnt. pose proof (inv_once s I) as Ho.
    rewrite Htot in Hcnt, Ho. rewrite Hc in Ho. simpl in *.
    unfold one in Ho. destruct (Z.eqb_spec (remaining s) 0); lia.
  - apply not_Forall_Exists in Hn0; [|tc_solve]. apply Exists_exists in Hn0 as (f & [k Hk]%list_elem_of_lookup & Hf).
    destruct (fiber_body k None s) as [o|] eqn:Eb.
    + destruct (exec_ret s Hn I R (Run k None) o Eb) as [s' ->]. exists s'. by exists (Run k None).
    + unfold fiber_body in Eb. rewrite Hk in Eb. simpl in Eb. repeat case_match; done.
Qed.

(** what a completed bulk has called *)
Lemma completed_calls n tk s :
  0 < n → reachable n tk s → completions s ≠ [] →
  calls s ≡ₚ (λ i, (i, i + 1, tk)) <$> seqZ 0 n.
Proof.
  intros Hn Hr Hc. destruct (bulk_reachable_inv n tk s Hn Hr) as (I & R & Hs & Ht).
  assert (0 < shape s) as Hpos by lia.
  destruct (completed_finished s Hpos I Hc) as (Hp & _ & Hcalls).
  rewrite (inv_calls s I), Hcalls. pose proof (inv_index s I) as Hi. rewrite Hp, Hs, Ht in Hi.
  apply (f_equal (fmap (λ p : Z * option nat, (p.1, p.1 + 1, p.2)))) in Hi.
  rewrite <-!list_fmap_compose in Hi. unfold compose in Hi. simpl in Hi. by rewrite Hi.
Qed.

(** a predecessor that does not complete with a value: its completion is passed
    on, once, and nothing is called *)
Lemma bulk_forwards n tk c s1 s :
  (∃ e, c = SetError e ∧ set_error e (fiber_bulk_opstate n tk) = Some (Ret s1))
  ∨ c = SetStopped ∧ set_stopped (fiber_bulk_opstate n tk) = Some (Ret s1) →
  rtc step s1 s → completions s = [c] ∧ calls s = [].
Proof.
  intros H1 Hs.
  enough (lpc s = Returned ∧ fibers s = [] ∧ completions s = [c] ∧ calls s = []) by naive_solver.
  refine (rtc_ind_r (R:=step) (λ s, lpc s = Returned ∧ fibers s = [] ∧ completions s = [c] ∧ calls s = [])
    s1 _ _ s Hs).
  { destruct H1 as [(e & -> & E)|[-> E]]; vm_compute in E; by simplify_eq. }
  intros s2 s3 _ [[|k r|] Hm] (Hl & Hf & Hc & Hcs); simpl in Hm;
    unfold set_value, fiber_body in Hm; rewrite ?Hl, ?Hf, ?Hc, ?lookup_nil in Hm; try done.
  case_match; by simplify_eq.
Qed.

(** ** Properties *)

(** C6: a bulk of [n] indices completes its receiver at most once, and when it
    has, [fun] was called exactly once for every index [i] as [fun(i, i + 1)]
    with the launcher's stop token installed, no fiber is left, and the
    completion is [set_value] when no call threw and [set_error] with the
    exception of a call that threw otherwise.  No step of the launcher or of a
    fiber touches the operation state after its owner destroyed it. *)
Theorem bulk_safe n tk s :
  0 ≤ n → reachable n tk s →
  (∀ m, exec m s ≠ Some Undef) ∧
  (completions s ≠ [] →
   ∃ c, completions s = [c] ∧ sound (thrown s) c
     ∧ calls s ≡ₚ (λ i, (i, i + 1, tk)) <$> seqZ 0 n
     ∧ Forall (λ f, f_phase f = Finished) (fibers s)).
Proof.
  intros Hn Hr. destruct (decide (n = 0)) as [->|Hne].
  - destruct (reachable_zero tk s Hr) as (Hs & Hf & Ht & Hc & Hcase). rewrite Hf, Ht, Hc. split.
    + intros [|k r|]; simpl; unfold set_value, fiber_body, access; rewrite ?Hf, ?lookup_nil; try done.
      * destruct Hcase as [(-> & _ & ->)|(-> & _)]; done.
      * repeat case_match; done.
    + destruct Hcase as [(_ & -> & _)|(_ & ->)]; [done|]. intros _. by exists (SetValue ()).
  - destruct (bulk_reachable_inv n tk s) as (I & R & Hs & Ht); [lia|done|].
    assert (0 < shape s) as Hpos by lia. split.
    + intros m Hm. by destruct (exec_ret s Hpos I R m Undef Hm).
    + intros Hc. pose proof (inv_once s I) as Ho. destruct (inv_completed s I Hc) as [Hz Hl].
      destruct (completed_finished s Hpos I Hc) as (_ & Hfin & _).
      destruct (completions s) as [|c [|c' l]] eqn:Ec; simpl in Ho; [done| |unfold one in Ho; case_match; lia].
      exists c. split_and!; [done| | |done].
      * apply (inv_result s R). rewrite Ec. constructor.
      * apply completed_calls; [lia|done|congruence].
Qed.

(** C22: a bulk of [n] indices always completes its receiver, whatever the
    interleaving: no run of the launcher and the fibers, whose calls of [fun]
    return or throw, is longer than [7 * n + 3] steps, and a run that cannot go
    on has completed it. *)
Theorem bulk_completes n tk k s :
  0 ≤ n → nsteps step k (fiber_bulk_opstate n tk) s →
  Z.of_nat k ≤ 7 * n + 3 ∧ ((∀ s', ¬ step s s') → completions s ≠ []).
Proof.
  intros Hn Hk. split.
  - apply steps_weight in Hk. unfold weight at 2 in Hk. simpl in Hk. lia.
  - intros Hstuck Hc. assert (reachable n tk s) as Hr by (by apply rtc_nsteps; exists k).
    destruct (decide (n = 0)) as [->|Hne].
    + destruct (reachable_zero tk s Hr) as (Hs & _ & _ & _ & [(El & _ & Ed)|(_ & E)]); [|congruence].
      eapply Hstuck. exists Launch. simpl. unfold set_value, access. by rewrite El, Ed.
    + destruct (bulk_reachable_inv n tk s) as (I & R & Hs & _); [lia|done|].
      destruct (not_stuck s) as [s' ?]; [lia|done..|]. by apply (Hstuck s').
Qed.

(** A bulk of a negative number of indices, which a signed [Shape] allows,
    never completes its receiver: [set_value] only treats zero apart, the loop
    posts nothing, and no fiber is there to reach zero. *)
Theorem bulk_negative_hangs n tk s : n < 0 → reachable n tk s → completions s = [].
Proof.
  intros Hn Hr.
  enough (shape s = n ∧ fibers s = [] ∧ completions s = [] ∧ (if lpc s is Posting i then i = 0 else True))
    by naive_solver.
  refine (rtc_ind_r (R:=step) (λ s, shape s = n ∧ fibers s = [] ∧ completions s = []
    ∧ (if lpc s is Posting i then i = 0 else True)) (fiber_bulk_opstate n tk) _ _ s Hr); [done|].
  intros s1 s2 _ [[|k r|] Hm] (H1 & H2 & H3 & H4); simpl in Hm;
    unfold set_value, fiber_body, access in Hm; rewrite ?H2, ?H3, ?lookup_nil in Hm; try done.
  destruct (lpc s1) as [|i|]; [| |done].
  - rewrite (proj2 (Z.eqb_neq _ _)) in Hm by lia. case_match; by simplify_eq.
  - subst i. rewrite (proj2 (Z.ltb_ge _ _)) in Hm by lia. by simplify_eq.
Qed.

(** ** Witnesses *)

Definition two_throw : list move :=
  [Launch; Launch; Run 0 None; Launch; Run 0 (Some (UserError 7)); Run 1 None; Run 1 (Some RuntimeError);
   Run 1 None; Run 0 None; Run 1 None; Launch; Run 0 None; Run 1 None; Run 1 None; Destroy].
Definition two_threw : st := Eval vm_compute in
  default (fiber_bulk_opstate 2 (Some 3%nat)) (exec_all two_throw (fiber_bulk_opstate 2 (Some 3%nat))).

Lemma bulk_safe_witness :
  completions two_threw = [SetError RuntimeError] ∧ destroyed two_threw = true ∧
  (∀ m, exec m two_threw ≠ Some Undef) ∧
  (completions two_threw ≠ [] →
   ∃ c, completions two_threw = [c] ∧ sound (thrown two_threw) c
     ∧ calls two_threw ≡ₚ (λ i, (i, i + 1, Some 3%nat)) <$> seqZ 0 2
     ∧ Forall (λ f, f_phase f = Finished) (fibers two_threw)).
Proof.
  split; [done|]. split; [done|]. apply (bulk_safe 2 (Some 3%nat)); [lia|].
  apply rtc_nsteps. exists 15%nat. by apply (exec_all_nsteps two_throw).
Defined.

Lemma bulk_completes_witness :
  Z.of_nat 15 ≤ 7 * 2 + 3 ∧ ((∀ s', ¬ step two_threw s') → completions two_threw ≠ []).
Proof. apply (bulk_completes 2 (Some 3%nat) 15); [lia|]. by apply (exec_all_nsteps two_throw). Defined.

Lemma bulk_negative_hangs_witness : completions (fiber_bulk_opstate (-1) None) = [].
Proof. apply (bulk_negative_hangs (-1) None); [lia|apply rtc_refl]. Defined.
