(* ===== verification/Senders.v ===== *)
(** * Senders: scheduling onto the pool (include/fiberexec/context.hpp, run.hpp)

    The operation states of [schedule_sender] and of [run_sender]: [start]
    bridges the receiver's stop token into a stop source of the operation's own
    and posts a task; the task installs the bridged token as the new fiber's,
    runs the body and completes the receiver.  The receiver's stop token is a
    P2300 stoppable token, whose callbacks behave as those of
    [std::stop_token]; the callback registered on it carries the stop source it
    forwards to. *)

From S2P Require Import Prelude Cxx Uring Boost Scheduler Submit AsyncIo Bulk.

Local Open Scope Z_scope.

(** ** Schedulers and senders as values

    A [context] is known by its address. *)

(** members of [scheduler], [schedule_sender], [run_sender] and [run_closure] *)
Record scheduler := Scheduler { ctx_ : Z }.
Record schedule_sender := ScheduleSender { sndr_ctx : Z }.
Record run_sender (F : Type) := RunSender { run_ctx : Z; fn_ : F }.
Record run_closure (F : Type) := RunClosure { closure_fn : F }.
Arguments RunSender {F}.
Arguments run_ctx {F}.
Arguments fn_ {F}.
Arguments RunClosure {F}.
Arguments closure_fn {F}.

#[export] Instance scheduler_eq_dec : EqDecision scheduler.
Proof. solve_decision. Defined.

Definition get_scheduler (ctx : Z) : scheduler := {| ctx_ := ctx |}.
Definition schedule (sched : scheduler) : schedule_sender := {| sndr_ctx := ctx_ sched |}.

(** [query(get_completion_scheduler)] on the environments of the two senders *)
Definition schedule_query (s : schedule_sender) : scheduler := {| ctx_ := sndr_ctx s |}.
Definition run_query {F} (s : run_sender F) : scheduler := get_scheduler (run_ctx s).

(** [run(sched, fn)], [run(fn)] and the closure applied to what is piped in *)
Definition run {F} (sched : scheduler) (fn : F) : run_sender F := {| run_ctx := ctx_ sched; fn_ := fn |}.
Definition run_pipe {F} (fn : F) : run_closure F := {| closure_fn := fn |}.
Definition closure_call {F} (c : run_closure F) (s : schedule_sender) : run_sender F :=
  {| run_ctx := sndr_ctx s; fn_ := closure_fn c |}.

(** the pipe form is the direct form, and either completes on its scheduler *)
Lemma pipe_direct {F} sched (fn : F) :
  closure_call (run_pipe fn) (schedule sched) = run sched fn
  ∧ schedule_query (schedule sched) = sched ∧ run_query (run sched fn) = sched.
Proof. by destruct sched. Qed.

(** ** Operation states *)

(** members of [operation], and what its receiver has been told *)
Record operation (A : Type) := Operation {
  env_stop : option (stop_state nat);  (** the receiver's token; [None] when not [stop_possible()] *)
  fiber_stop_ : option nat;            (** the state of the stop source; [None] is [std::nostopstate] *)
  stop_cb_ : option nat;               (** the handle of the callback, when engaged *)
  told : list (completion A)
}.
Arguments Operation {A}.
Arguments env_stop {A}.
Arguments fiber_stop_ {A}.
Arguments stop_cb_ {A}.
Arguments told {A}.

(** [connect(rcvr)], for a receiver with the token [env] *)
Definition connect {A} (env : option (stop_state nat)) : operation A :=
  {| env_stop := env; fiber_stop_ := None; stop_cb_ := None; told := [] |}.

Definition tell {A} (c : completion A) (o : operation A) : operation A :=
  {| env_stop := env_stop o; fiber_stop_ := fiber_stop_ o; stop_cb_ := stop_cb_ o;
     told := told o ++ [c] |}.
Definition set_env {A} (es : stop_state nat) (o : operation A) : operation A :=
  {| env_stop := Some es; fiber_stop_ := fiber_stop_ o; stop_cb_ := stop_cb_ o; told := told o |}.

(** the destructor of [operation]: [stop_cb_] deregisters its callback *)
Definition operation_dtor {A} (o : operation A) : operation A :=
  {| env_stop := match env_stop o, stop_cb_ o with
                 | Some es, Some h => Some (stop_callback_dtor h es)
                 | e, _ => e
                 end;
     fiber_stop_ := None; stop_cb_ := None; told := told o |}.

Section senders.
Context {L : Liburing} {P : Promise} {H : Type} {HC : CqeHandler H} {A : Type}.
Abbreviation action := (cxx (worker L H) ()).
Abbreviation thread := (option (worker L H)).

(** [schedule_task]: push the task, then write one to the pool's eventfd *)
Definition schedule_task (work : nat) : action :=
  modify (upd_pool (λ p, {| running_ := running_ p; work_queue_ := work_queue_ p ++ [Some work];
                            eventfd_ := S (eventfd_ p); in_flight_ := in_flight_ p |})).

(** [stop_forwarder::operator()] of each callback *)
Fixpoint forward (srcs : list nat) : action :=
  match srcs with
  | [] => mret ()
  | id :: srcs => _ ← stop_source_request id; forward srcs
  end.

(** [start()] of both operations; [work] is the task it posts *)
Definition start (work : nat) : cxx (worker L H * operation A) () := λ '(w, o),
  match env_stop o with
  | None => let '(r, w') := schedule_task work w in (r, (w', o))
  | Some es =>
      let id := fresh (dom (w_stops w)) in
      let '(h, now, es') := stop_callback_ctor id es in
      let o' := {| env_stop := Some es'; fiber_stop_ := Some id; stop_cb_ := Some h; told := told o |} in
      let '(r, w') := (_ ← modify (upd_stops <[id := stop_source_new]>); _ ← forward now; schedule_task work) w in
      (r, (w', o'))
  end.

(** [request_stop()] on the source behind the receiver's token *)
Definition env_request_stop : cxx (worker L H * operation A) () := λ '(w, o),
  match env_stop o with
  | None => (Ret (), (w, o))
  | Some es => let '(srcs, es') := request_stop es in
               let '(r, w') := forward srcs w in (r, (w', set_env es' o))
  end.

(** a new fiber: it has no stop token of its own yet *)
Definition new_fiber : action := modify (set_fiber_stop None).

(** the task of [schedule_sender]'s operation *)
Definition schedule_body (a : A) : cxx (worker L H * operation A) () := λ '(w, o),
  match (_ ← new_fiber; install_fiber_stop_token (fiber_stop_ o)) w with
  | (Ret _, w') => (Ret (), (w', tell (SetValue a) o))
  | (r, w') => (r, (w', o))
  end.

(** the [catch] clauses of [run_sender]'s task, in their order: how an exception
    is reported, and whether it goes on *)
Definition caught (e : exn) : completion A * outcome () :=
  match e with
  | ForcedUnwind => (SetStopped, Exn ForcedUnwind)
  | SystemError code => (if code =? ECANCELED then SetStopped else SetError (SystemError code), Ret ())
  | e => (SetError e, Ret ())
  end.

(** the task of [run_sender]'s operation, with the body [fn] *)
Definition run_body (fn : cxx thread A) : cxx (thread * operation A) () := λ '(t, o),
  match on_worker (_ ← new_fiber; install_fiber_stop_token (fiber_stop_ o)) t with
  | (Ret _, t1) =>
      match fn t1 with
      | (Ret a, t2) => (Ret (), (t2, tell (SetValue a) o))
      | (Exn e, t2) => ((caught e).2, (t2, tell (caught e).1 o))
      | (Undef, t2) => (Undef, (t2, o)) | (Abort, t2) => (Abort, (t2, o)) | (Hang, t2) => (Hang, (t2, o))
      end
  | (r, t1) => (r, (t1, o))
  end.
End senders.

(** ** Lemmas *)

Section theory.
Context {L : Liburing} {P : Promise} {H : Type} {HC : CqeHandler H} {A : Type}.
Implicit Types w : worker L H.

(** the cancellations that the callbacks of those sources request *)
Fixpoint forwarded (srcs : list nat) (stops : gmap nat (stop_state (list Z))) : list Z :=
  match srcs with
  | [] => []
  | id :: srcs => concat (if stops !! id is Some s then (request_stop s).1 else [])
      ++ forwarded srcs (alter (λ s, (request_stop s).2) id stops)
  end.

Lemma forwarded_in id srcs stops s :
  id ∈ srcs → stops !! id = Some s → concat (request_stop s).1 ⊆ forwarded srcs stops.
Proof.
  revert stops. induction srcs as [|j srcs IH]; intros stops; [by intros ?%not_elem_of_nil|].
  intros Hin Hs. simpl. destruct (decide (id = j)) as [->|Hne].
  - rewrite Hs. by apply list_subseteq_app_l.
  - apply list_subseteq_app_r, IH; [set_solver|]. by rewrite lookup_alter_ne.
Qed.

Lemma forward_spec srcs w :
  ∃ w', forward srcs w = (Ret (), w') ∧ only_cancels w w'
    ∧ (∀ id, w_stops w' !! id =
         if decide (id ∈ srcs) then (λ s, (request_stop s).2) <$> w_stops w !! id else w_stops w !! id)
    ∧ cancel_queue_ (w_sched w') = cancel_queue_ (w_sched w) ++ forwarded srcs (w_stops w).
Proof.
  revert w. induction srcs as [|j srcs IH]; intros w; simpl.
  { exists w. rewrite app_nil_r. done. }
  destruct (stop_source_request_spec j w) as (w1 & E1 & Hoc1 & Hst1 & Hc1).
  destruct (IH w1) as (w' & E' & Hoc' & Hst' & Hc').
  bind_ret. exists w'. split; [done|]. split; [by etrans|]. split.
  - intros id. rewrite Hst', Hst1. destruct (decide (id = j)) as [->|Hne].
    + rewrite lookup_alter_eq, (decide_True (P := j ∈ j :: srcs)) by set_solver.
      case_decide; [|done]. rewrite <-option_fmap_compose. destruct (w_stops w !! j) as [s|]; [|done].
      simpl. by rewrite request_stop_idem.
    + rewrite lookup_alter_ne by done. repeat case_decide; set_solver.
  - by rewrite Hc', Hc1, Hst1, <-app_assoc.
Qed.

(** the stop source of a started operation *)
Definition bridged (es : stop_state nat) : stop_state (list Z) :=
  {| ss_requested := ss_requested es; ss_next := 0; ss_callbacks := [] |}.

Lemma start_spec work es w :
  ∃ w1 id h es', start (A := A) work (w, connect (Some es)) =
      (Ret (), (w1, {| env_stop := Some es'; fiber_stop_ := Some id; stop_cb_ := Some h; told := [] |}))
    ∧ w_stops w !! id = None ∧ w_stops w1 = <[id := bridged es]> (w_stops w)
    ∧ (ss_requested es = false → ss_requested es' = false ∧ ss_callbacks es' = ss_callbacks es ++ [(h, id)])
    ∧ w_ring w1 = w_ring w ∧ cancel_queue_ (w_sched w1) = cancel_queue_ (w_sched w)
    ∧ w_pool_stop w1 = w_pool_stop w
    ∧ w_pool w1 = {| running_ := running_ (w_pool w); work_queue_ := work_queue_ (w_pool w) ++ [Some work];
                     eventfd_ := S (eventfd_ (w_pool w)); in_flight_ := in_flight_ (w_pool w) |}.
Proof.
  unfold start, connect, bridged. cbn [env_stop told]. set (id := fresh (dom (w_stops w))).
  assert (w_stops w !! id = None) as Hid by (apply not_elem_of_dom, is_fresh).
  unfold stop_callback_ctor. destruct (ss_requested es) eqn:Er.
  - destruct (stop_source_request_spec id (upd_stops <[id := stop_source_new]> w))
      as (w1 & E1 & [Hring _ _ Hpool Hps _] & Hst & Hc).
    unfold to_invoke in Hc. simpl in Hc. rewrite lookup_insert_eq in Hc. simpl in Hc.
    rewrite app_nil_r in Hc. simpl in Hst.
    rewrite (alter_present _ _ _ stop_source_new), insert_insert_eq in Hst by apply lookup_insert_eq.
    bind_ret. erewrite cxx_bind_ret; last first.
    { simpl. by erewrite cxx_bind_ret by exact E1. }
    do 4 eexists. split; [done|]. split; [done|]. simpl in *.
    split; [done|]. split; [done|]. split_and!; [done..|]. by rewrite Hpool.
  - do 4 eexists. split; [done|]. split; [done|]. simpl. split_and!; try done.
Qed.

(** what a suspended fiber adds to a stop forwarded to [srcs]: the operations
    the sources would cancel before are cancelled still, and its own is if its
    source is among them *)
Lemma parked_forwarded targets srcs id s w :
  id ∈ srcs → w_stops w !! id = Some s → ss_requested s = false →
  concat (ss_callbacks s).*2 ++ concat (replicate (own_callbacks id w) targets)
    ⊆ forwarded srcs (parked_stops targets w).
Proof.
  intros Hin Hs Hr. destruct (parked_stops_lookup targets id s w Hs Hr) as (s1 & Hs1 & Hr1 & Hc).
  rewrite <-concat_app, <-Hc. pose proof (forwarded_in id srcs _ s1 Hin Hs1) as Hsub.
  unfold request_stop in Hsub. by rewrite Hr1 in Hsub.
Qed.

(** a stop forwarded by a token with the operation's bridge on it, once the
    operation's fiber waits for [a] *)
Lemma bridged_forwarded a id h es es1 w w1 :
  w_stops w !! id = None → w_stops w1 = <[id := bridged es]> (w_stops w) → ss_requested es = false →
  ss_requested es1 = false → ss_callbacks es1 = ss_callbacks es ++ [(h, id)] →
  let cancels := forwarded (request_stop es1).1 (parked_stops [a] (set_fiber_stop (Some id) w1)) in
  a ∈ cancels ∧ ∀ j, j ∈ (ss_callbacks es).*2 → concat (to_invoke j w) ⊆ cancels.
Proof.
  intros Hid Hst Hr Hr1 Hcbs. set (wf := set_fiber_stop (Some id) w1). intros cancels.
  assert ((request_stop es1).1 = (ss_callbacks es).*2 ++ [id]) as Hsrcs
    by (unfold request_stop; by rewrite Hr1, Hcbs, fmap_app).
  assert (w_stops wf !! id = Some (bridged es)) as Hs1 by (simpl; rewrite Hst; apply lookup_insert_eq).
  assert (fiber_id wf = Some id) as Hfid by (unfold fiber_id; simpl in *; by rewrite Hs1).
  split.
  - apply (parked_forwarded [a] (request_stop es1).1 id (bridged es) wf); [rewrite Hsrcs; set_solver|done..|].
    apply elem_of_app. right. unfold own_callbacks.
    rewrite Hfid, (decide_True (P := Some id = _)), Nat.add_comm by done. by left.
  - intros j Hj. unfold to_invoke. destruct (w_stops w !! j) as [s|] eqn:Es; [|set_solver].
    assert (w_stops wf !! j = Some s) as Es' by (simpl; rewrite Hst, lookup_insert_ne; congruence).
    destruct (ss_requested s) eqn:Er; [unfold request_stop at 1; rewrite Er; set_solver|].
    etrans; [|apply (parked_forwarded [a] (request_stop es1).1 j s wf); [by rewrite Hsrcs; set_solver|done..]].
    unfold request_stop. rewrite Er. by apply list_subseteq_app_l.
Qed.

Lemma env_request_spec es' id h w2 (o : operation A) :
  env_stop o = Some es' → ss_requested es' = false → (h, id) ∈ ss_callbacks es' →
  ∃ w3 o3 l, env_request_stop (w2, o) = (Ret (), (w3, o3))
    ∧ fiber_stop_ o3 = fiber_stop_ o ∧ told o3 = told o ∧ only_cancels w2 w3
    ∧ w_stops w3 !! id = (λ s, (request_stop s).2) <$> w_stops w2 !! id
    ∧ cancel_queue_ (w_sched w3) = cancel_queue_ (w_sched w2) ++ l ∧ concat (to_invoke id w2) ⊆ l.
Proof.
  intros Ho Hr Hin. unfold env_request_stop, request_stop at 1. rewrite Ho, Hr.
  destruct (forward_spec (ss_callbacks es').*2 w2) as (w3 & E & Hoc & Hst & Hc).
  rewrite E. assert (id ∈ (ss_callbacks es').*2) as Hid by (apply list_elem_of_fmap; by exists (h, id)).
  do 3 eexists. split; [done|]. split_and!; [done..| |done|].
  - by rewrite Hst, decide_True.
  - unfold to_invoke. destruct (w_stops w2 !! id) as [s|] eqn:Es; [by apply forwarded_in with id|set_solver].
Qed.

Lemma new_fiber_token w (o : operation A) :
  on_worker (_ ← new_fiber; install_fiber_stop_token (fiber_stop_ o)) (Some w) =
  (Ret (), Some (set_fiber_stop (if stop_possible (fiber_stop_ o) w then fiber_stop_ o else None) w)).
Proof.
  unfold on_worker, new_fiber. bind_ret. unfold install_fiber_stop_token.
  change (stop_possible (fiber_stop_ o) (set_fiber_stop None w)) with (stop_possible (fiber_stop_ o) w).
  by destruct (stop_possible (fiber_stop_ o) w).
Qed.
End theory.

(** ** Properties *)

Section properties.
Context {L : Liburing} {P : Promise} {H : Type} {HC : CqeHandler H} {A : Type}.
Implicit Types w : worker L H.

(** The stop-token bridge.  [start] gives the operation a stop source of its
    own, which is already stopped if the receiver's token is, touches no other
    stop state, and posts its task with one token on the work eventfd.  A stop
    requested later through the receiver's token, when the fiber has cancel
    callbacks registered, stops the fiber's source and queues a cancellation of
    every operation those callbacks name. *)
Theorem stop_bridge work es w :
  ∃ w1 (o1 : operation A) id,
    start work (w, connect (Some es)) = (Ret (), (w1, o1))
    ∧ fiber_stop_ o1 = Some id ∧ told o1 = []
    ∧ w_stops w !! id = None ∧ delete id (w_stops w1) = w_stops w
    ∧ stop_possible (Some id) w1 = true ∧ stop_requested (Some id) w1 = ss_requested es
    ∧ work_queue_ (w_pool w1) = work_queue_ (w_pool w) ++ [Some work]
    ∧ eventfd_ (w_pool w1) = S (eventfd_ (w_pool w))
    ∧ (ss_requested es = false → ∀ w2 s2, w_stops w2 !! id = Some s2 → ss_requested s2 = false →
       ∃ w3 o3 l, env_request_stop (w2, o1) = (Ret (), (w3, o3))
         ∧ stop_requested (Some id) w3 = true
         ∧ cancel_queue_ (w_sched w3) = cancel_queue_ (w_sched w2) ++ l
         ∧ concat (ss_callbacks s2).*2 ⊆ l).
Proof.
  destruct (start_spec (A := A) work es w) as (w1 & id & h & es' & E & Hid & Hst & Hcb & _ & _ & _ & Hpool).
  eexists w1, _, id. split; [done|]. split_and!; try done; simpl.
  - rewrite Hst. by apply delete_insert_id.
  - by rewrite Hst, lookup_insert_eq.
  - by rewrite Hst, lookup_insert_eq.
  - by rewrite Hpool.
  - by rewrite Hpool.
  - intros Hr w2 s2 Hs2 Hr2. destruct (Hcb Hr) as [Hr' Hin].
    assert ((h, id) ∈ ss_callbacks es') by (rewrite Hin; set_solver).
    destruct (env_request_spec es' id h w2 (Operation (Some es') (Some id) (Some h) ([] : list (completion A))))
      as (w3 & o3 & l & E3 & _ & _ & _ & Hst3 & Hc & Hl); [done..|].
    exists w3, o3, l. unfold to_invoke, request_stop in *. rewrite Hs2 in *. simpl in *. rewrite Hr2 in *.
    simpl in *. split_and!; [done| |done..]. by rewrite Hst3.
Qed.

(** An operation leaves no trace on its receiver's stop token.  Started and
    then destroyed, whether or not a stop was requested before, it has
    registered and deregistered its own callback: the token's state holds
    exactly the callbacks it held before, and a stop requested later invokes
    those and none of the operation's, whose memory is gone. *)
Theorem operation_roundtrip work es w :
  stop_state_wf es →
  ∃ w1 o1 es', start (A := A) work (w, connect (Some es)) = (Ret (), (w1, o1))
    ∧ is_Some (stop_cb_ o1) ∧ env_stop (operation_dtor o1) = Some es'
    ∧ ss_callbacks es' = ss_callbacks es ∧ ss_requested es' = ss_requested es ∧ stop_state_wf es'
    ∧ (request_stop es').1 = (request_stop es).1.
Proof.
  intros Hwf. destruct (start_spec (A := A) work es w) as (w1 & id & h & es1 & E & _).
  pose proof E as E0. unfold start, connect in E0. cbn [env_stop] in E0.
  pose proof (stop_callback_dtor_ctor (fresh (dom (w_stops w))) es Hwf) as Hd.
  pose proof (stop_callback_ctor_wf (fresh (dom (w_stops w))) es Hwf) as Hwf1.
  assert ((stop_callback_ctor (fresh (dom (w_stops w))) es).1.1 = ss_next es) as Hh
    by (unfold stop_callback_ctor; by destruct (ss_requested es)).
  assert (ss_requested (stop_callback_ctor (fresh (dom (w_stops w))) es).2 = ss_requested es) as Hr
    by (unfold stop_callback_ctor; by destruct (ss_requested es)).
  destruct (stop_callback_ctor _ es) as [[h0 now] es0]. simpl in Hd, Hwf1, Hh, Hr. subst h0.
  match type of E0 with context [match ?m with (_, _) => _ end] => destruct m as [r w2] end. simplify_eq.
  eexists _, _, (stop_callback_dtor (ss_next es) es1). split; [exact E|]. split; [by eexists|].
  split; [done|]. split; [done|]. split; [done|]. split; [by apply stop_callback_dtor_wf|].
  unfold request_stop. simpl. rewrite Hr, Hd. by destruct (ss_requested es).
Qed.

(** How [run] completes.  The body runs on a fiber whose stop token is the
    operation's (none, if the receiver's was not stoppable).  If it returns,
    the receiver gets its value; if it throws ECANCELED or the fiber is
    unwound, the receiver is told that the operation stopped, and the unwinding
    goes on; any other exception is passed to [set_error].  In each case the
    receiver is completed exactly once. *)
Theorem run_completes (fn : cxx (option (worker L H)) A) w (o : operation A) :
  let w1 := set_fiber_stop (if stop_possible (fiber_stop_ o) w then fiber_stop_ o else None) w in
  (∀ a t, fn (Some w1) = (Ret a, t) → run_body fn (Some w, o) = (Ret (), (t, tell (SetValue a) o))) ∧
  (∀ t, fn (Some w1) = (Exn ForcedUnwind, t) →
    run_body fn (Some w, o) = (Exn ForcedUnwind, (t, tell SetStopped o))) ∧
  (∀ t, fn (Some w1) = (Exn (SystemError ECANCELED), t) →
    run_body fn (Some w, o) = (Ret (), (t, tell SetStopped o))) ∧
  (∀ e t, fn (Some w1) = (Exn e, t) → e ≠ ForcedUnwind → e ≠ SystemError ECANCELED →
    run_body fn (Some w, o) = (Ret (), (t, tell (SetError e) o))).
Proof.
  intros w1. unfold run_body. rewrite new_fiber_token. fold w1.
  split_and!; intros *; intros E; rewrite E; try done.
  intros Hu Hc. destruct e as [code| | | | | |]; try done. simpl.
  destruct (Z.eqb_spec code ECANCELED); [naive_solver|done].
Qed.

(** Cancellation, end to end.  When the receiver of a [run] whose body is
    one of the asynchronous operations is asked to stop after [start] and before
    the fiber gets to run, the operation is not submitted and the receiver is
    told exactly once that it stopped. *)
Theorem run_stopped work es w op timeout aw acts :
  ss_requested es = false →
  ∃ w1 o1 w2 o2 w3 o3,
    start work (w, connect (Some es)) = (Ret (), (w1, o1))
    ∧ env_request_stop (w1, o1) = (Ret (), (w2, o2))
    ∧ run_body (run_op op timeout aw acts) (Some w2, o2) = (Ret (), (Some w3, o3))
    ∧ told o3 = [SetStopped] ∧ w_ring w3 = w_ring w.
Proof.
  intros Hr.
  destruct (start_spec (A := option Z) work es w) as (w1 & id & h & es' & E & Hid & Hst & Hcb & Hring & _).
  destruct (Hcb Hr) as [Hr' Hin]. assert ((h, id) ∈ ss_callbacks es') by (rewrite Hin; set_solver).
  destruct (env_request_spec es' id h w1 (Operation (Some es') (Some id) (Some h) ([] : list (completion (option Z)))))
    as (w2 & o2 & l & E2 & Hf2 & Ht2 & Hoc & Hst2 & _ & _); [done..|].
  rewrite Hst, lookup_insert_eq in Hst2. simpl in Hst2.
  set (w3 := set_fiber_stop (Some id) w2).
  eexists w1, _, w2, o2, w3, (tell SetStopped o2). split; [exact E|]. split; [exact E2|].
  assert (stop_requested (w_fiber_stop w3) w3 = true) as Hsr.
  { simpl. rewrite Hst2. unfold request_stop. simpl. by rewrite Hr. }
  assert (run_op op timeout aw acts (Some w3) = (Exn (SystemError ECANCELED), Some w3)) as Hop.
  { assert (begin_async_op (Some w3) = (Exn (SystemError ECANCELED), Some w3)) as Hb
      by (unfold begin_async_op; by rewrite Hsr).
    destruct op; eauto with cxx. }
  unfold run_body. rewrite new_fiber_token, Hf2. simpl (stop_possible _ _). rewrite Hst2.
  simpl. fold w3. rewrite Hop. split; [done|]. split; [simpl; by rewrite Ht2|].
  change (w_ring w3) with (w_ring w2). by rewrite (oc_ring _ _ Hoc).
Qed.

End properties.

(** ** Witnesses *)

Section witnesses.
Import ListUring CellPromise OnlyAwaitable.

Lemma stop_bridge_witness :
  ∃ w1 (o1 : operation Z), start 7 (submitting [], connect (Some stop_source_new)) = (Ret (), (w1, o1))
    ∧ ∀ w2 : worker list_uring (option Z), w_stops w2 !! 2%nat = Some (StopState false 1 [(0%nat, [4096])]) →
      fiber_stop_ o1 = Some 2%nat → ∃ w3 o3, env_request_stop (w2, o1) = (Ret (), (w3, o3)) ∧ stop_requested (Some 2%nat) w3 = true.
Proof.
  destruct (stop_bridge (A := Z) 7 stop_source_new (submitting []))
    as (w1 & o1 & id & E & Hf & _ & _ & _ & _ & _ & _ & _ & Hb).
  exists w1, o1. split; [exact E|]. intros w2 Hs2 Hf2.
  destruct (Hb eq_refl w2 (StopState false 1 [(0%nat, [4096])])) as (w3 & o3 & l & E3 & H3 & _);
    [congruence|reflexivity|]. exists w3, o3. split; [exact E3|]. congruence.
Defined.

Lemma run_completes_witness :
  told (run_body (λ t : option (worker list_uring (option Z)), (Exn (SystemError 5), t)) (Some (submitting []), connect (A := Z) None)).2.2
  = [SetError (SystemError 5)].
Proof.
  destruct (run_completes (λ t, (Exn (SystemError 5), t)) (submitting []) (connect (A := Z) None))
    as (_ & _ & _ & He). erewrite (He (SystemError 5)) by done. reflexivity.
Defined.

Lemma operation_roundtrip_witness :
  ∃ w1 o1 es', start (A := Z) 7 (submitting [], connect (Some stop_source_new)) = (Ret (), (w1, o1))
    ∧ env_stop (operation_dtor o1) = Some es' ∧ ss_callbacks es' = [].
Proof.
  destruct (operation_roundtrip (A := Z) 7 stop_source_new (submitting []) stop_state_new_wf)
    as (w1 & o1 & es' & E & _ & He & Hc & _).
  exists w1, o1, es'. split; [exact E|]. split; [exact He|exact Hc].
Defined.

Lemma run_stopped_witness :
  ∃ w1 o1 w2 o2 w3 o3,
    start 7 (submitting [], connect (Some stop_source_new)) = (Ret (), (w1, o1))
    ∧ env_request_stop (w1, o1) = (Ret (), (w2, o2))
    ∧ run_body (run_op reading None 4096 []) (Some w2, o2) = (Ret (), (Some w3, o3))
    ∧ told o3 = [SetStopped] ∧ w_ring w3 = w_ring (submitting []).
Proof. apply (run_stopped 7 stop_source_new (submitting []) reading None 4096 []). reflexivity. Defined.

(** a sibling waits for the operation at 8192, and a third operation's
    cancellation is already queued *)
Definition siblings : worker list_uring (option Z) :=
  upd_cancel (λ _, [12288]) (upd_stops <[5%nat := StopState false 1 [(0%nat, [8192])]]> (submitting [])).
Definition both_children : stop_state nat := StopState false 1 [(0%nat, 5%nat)].

End witnesses.
