(* ===== verification/BulkSender.v ===== *)
(** * BulkSender: the bulk sender on a worker
    (include/fiberexec/detail/fiber_bulk.hpp)

    [Bulk] is the fan-out as its fibers interleave; here are the sender that
    [fiber_domain] makes of a [stdexec::bulk] on a [schedule] sender, its
    operation state, and the launcher as the code of one fiber, together with
    the stop token it hands to the fibers it posts. *)

From S2P Require Import Prelude Cxx Uring Boost Scheduler Submit AsyncIo Bulk Senders.

Local Open Scope Z_scope.

(** ** The sender *)

(** the parts of a [bulk_chunked_t] sender over a [schedule] sender *)
Record bulk_chunked (F : Type) := BulkChunked { bc_shape : Z; bc_fun : F; bc_child : schedule_sender }.
Arguments BulkChunked {F}.
Arguments bc_shape {F}.
Arguments bc_fun {F}.
Arguments bc_child {F}.

(** members of [fiber_bulk_sender] *)
Record fiber_bulk_sender (F : Type) := FiberBulkSender { bs_pool : Z; bs_pred : schedule_sender; bs_shape : Z; bs_fun : F }.
Arguments FiberBulkSender {F}.
Arguments bs_pool {F}.
Arguments bs_pred {F}.
Arguments bs_shape {F}.
Arguments bs_fun {F}.

(** [fiber_domain::transform_sender]; [pool] is [context::pool()] *)
Definition transform_sender {F} (pool : Z → Z) (sndr : bulk_chunked F) : fiber_bulk_sender F :=
  let sched := schedule_query (bc_child sndr) in
  {| bs_pool := pool (ctx_ sched); bs_pred := bc_child sndr; bs_shape := bc_shape sndr; bs_fun := bc_fun sndr |}.

(** ** The operation *)

Section operation.
Context {L : Liburing} {P : Promise} {H : Type} {HC : CqeHandler H}.
Abbreviation thread := (option (worker L H)).

(** members of [fiber_bulk_opstate]: the shape in [shared_], and [inner_op_], the
    operation of the [schedule] sender; what the downstream receiver is told
    is recorded in [inner_op_] *)
Record fiber_bulk_op := FiberBulkOp { op_shape : Z; inner_op_ : operation () }.

(** [fiber_bulk_sender::connect]: the receiver passed on to the predecessor has
    the environment of the downstream receiver, whose token is [env] *)
Definition bulk_connect {F} (s : fiber_bulk_sender F) (env : option (stop_state nat)) : fiber_bulk_op :=
  {| op_shape := bs_shape s; inner_op_ := connect env |}.

(** [fiber_bulk_opstate::start]; [work] is the task of the launcher *)
Definition bulk_start (work : nat) : cxx (worker L H * fiber_bulk_op) () := λ '(w, b),
  let '(r, (w', o)) := start work (w, inner_op_ b) in
  (r, (w', {| op_shape := op_shape b; inner_op_ := o |})).

(** the captures of a posted lambda *)
Record bulk_task := BulkTask { t_i : Z; t_tok : option nat }.

(** [for (Shape i = 0; i < n; ++i) schedule_task(pool, [s, i, tok] {...})];
    [task i] names the task of index [i] *)
Fixpoint bulk_post (task : Z → nat) (tok : option nat) (idx : list Z) : cxx (worker L H) (list bulk_task) :=
  match idx with
  | [] => mret []
  | i :: idx => _ ← schedule_task (task i); ts ← bulk_post task tok idx; mret (BulkTask i tok :: ts)
  end.

(** the launcher: the task of the [schedule] operation, whose receiver is
    [fiber_bulk_receiver] *)
Definition bulk_launch (task : Z → nat) : cxx (worker L H * fiber_bulk_op) (list bulk_task) := λ '(w, b),
  let o := inner_op_ b in
  match (_ ← new_fiber; install_fiber_stop_token (fiber_stop_ o)) w with
  | (Ret _, w1) =>
      if op_shape b =? 0 then (Ret [], (w1, {| op_shape := 0; inner_op_ := tell (SetValue ()) o |}))
      else
        let '(r, w2) := (tok ← current_fiber_stop_token; bulk_post task tok (seqZ 0 (op_shape b))) w1 in
        (r, (w2, b))
  | (Exn e, w1) => (Exn e, (w1, b))
  | (Undef, w1) => (Undef, (w1, b)) | (Abort, w1) => (Abort, (w1, b)) | (Hang, w1) => (Hang, (w1, b))
  end.

(** the lambda up to the countdown: the exception it caught, if any *)
Definition bulk_call (t : bulk_task) (fn : Z → Z → cxx thread ()) : cxx thread (option exn) :=
  _ ← on_worker (_ ← new_fiber; install_fiber_stop_token (t_tok t));
  catch (_ ← fn (t_i t) (t_i t + 1); mret None) (λ e, mret (Some e)).
End operation.

(** ** Lemmas *)

Section theory.
Context {L : Liburing} {P : Promise} {H : Type} {HC : CqeHandler H}.
Implicit Types w : worker L H.

Lemma bulk_post_spec task tok idx w :
  ∃ w', bulk_post task tok idx w = (Ret ((λ i, BulkTask i tok) <$> idx), w')
    ∧ w_stops w' = w_stops w ∧ w_ring w' = w_ring w
    ∧ work_queue_ (w_pool w') = work_queue_ (w_pool w) ++ ((λ i, Some (task i)) <$> idx)
    ∧ eventfd_ (w_pool w') = (eventfd_ (w_pool w) + length idx)%nat.
Proof.
  revert w. induction idx as [|i idx IH]; intros w; csimpl.
  { exists w. rewrite app_nil_r. auto with lia. }
  set (w1 := (schedule_task (task i) w).2).
  destruct (IH w1) as (w' & E & Hst & Hr & Hq & He). exists w'.
  erewrite (cxx_bind_ret _ _ _ () w1) by done. erewrite cxx_bind_ret by exact E.
  split_and!; [done..| |]; rewrite ?Hq, ?He; simpl; [by rewrite <-app_assoc|lia].
Qed.

(** the launcher of [Bulk], run to its end *)
Lemma bulk_loop k n tk s :
  shape s = n → tok s = tk → destroyed s = false → lpc s = Posting (n - Z.of_nat k) → Z.of_nat k ≤ n →
  ∃ s', exec_all (replicate (S k) Launch) s = Some s' ∧ lpc s' = Returned
    ∧ (λ f, (f_i f, f_tok f)) <$> fibers s' =
      ((λ f, (f_i f, f_tok f)) <$> fibers s) ++ ((λ i, (i, tk)) <$> seqZ (n - Z.of_nat k) (Z.of_nat k)).
Proof.
  revert s. induction k as [|k IH]; intros s Hn Ht Hd Hl Hk.
  - eexists. simpl. unfold set_value. rewrite Hl, Hn.
    destruct (Z.ltb_spec (n - Z.of_nat 0) n); [lia|]. split; [done|]. split; [done|]. simpl. by rewrite app_nil_r.
  - simpl. unfold set_value. rewrite Hl, Hn. destruct (Z.ltb_spec (n - Z.of_nat (S k)) n); [|lia].
    unfold access. rewrite Hd. simpl.
    destruct (IH (set_lpc (Posting (n - Z.of_nat (S k) + 1))
      (fibers s ++ [Fiber (n - Z.of_nat (S k)) (tok s) Queued]) s)) as (s' & E & Hl' & Hf);
      [done..|simpl; f_equal; lia|lia|].
    exists s'. split; [exact E|]. split; [done|]. rewrite Hf. simpl. rewrite fmap_app, <-app_assoc, Ht.
    rewrite (seqZ_cons (n - Z.of_nat (S k))) by lia. simpl.
    replace (Z.succ (n - Z.of_nat (S k))) with (n - Z.of_nat k) by lia.
    by replace (Z.pred (Z.of_nat (S k))) with (Z.of_nat k) by lia.
Qed.

Lemma bulk_launcher n tk :
  0 < n →
  ∃ s, exec_all (replicate (S (S (Z.to_nat n))) Launch) (fiber_bulk_opstate n tk) = Some s
    ∧ (λ f, (f_i f, f_tok f)) <$> fibers s = (λ i, (i, tk)) <$> seqZ 0 n.
Proof.
  intros Hn. destruct (bulk_loop (Z.to_nat n) n tk (set_lpc (Posting 0) [] (fiber_bulk_opstate n tk)))
    as (s & E & _ & Hf); [done..|simpl; f_equal; lia|lia|].
  exists s. split; [|rewrite Hf; simpl; do 2 f_equal; lia].
  change (replicate (S (S (Z.to_nat n))) Launch) with (Launch :: replicate (S (Z.to_nat n)) Launch).
  simpl exec_all at 1. unfold set_value, access. simpl. by destruct (Z.eqb_spec n 0); [lia|].
Qed.

(** a new fiber with the token of a stop source that exists *)
Lemma install_token id s w :
  w_stops w !! id = Some s →
  (_ ← new_fiber; install_fiber_stop_token (Some id)) w = (Ret (), set_fiber_stop (Some id) w).
Proof.
  intros Hs. unfold new_fiber. bind_ret. unfold install_fiber_stop_token.
  assert (stop_possible (Some id) (set_fiber_stop None w) = true) as ->; [|done].
  apply bool_decide_eq_true. by eexists.
Qed.

(** a body that begins after the stop *)
Lemma call_stopped id s i op timeout aw acts w :
  w_stops w !! id = Some s → ss_requested s = true →
  ∃ w', bulk_call (BulkTask i (Some id)) (λ _ _, _ ← run_op op timeout aw acts; mret ()) (Some w) =
      (Ret (Some (SystemError ECANCELED)), Some w') ∧ w_ring w' = w_ring w.
Proof.
  intros Hs Hr. exists (set_fiber_stop (Some id) w). split; [|done]. unfold bulk_call. cbn [t_tok t_i].
  erewrite cxx_bind_ret by (unfold on_worker; by erewrite install_token). unfold catch.
  assert (begin_async_op (Some (set_fiber_stop (Some id) w)) =
    (Exn (SystemError ECANCELED), Some (set_fiber_stop (Some id) w))) as Hb
    by (unfold begin_async_op; simpl; by rewrite Hs, Hr).
  assert (run_op op timeout aw acts (Some (set_fiber_stop (Some id) w)) =
    (Exn (SystemError ECANCELED), Some (set_fiber_stop (Some id) w))) as Ho
    by (destruct op; eauto with cxx).
  erewrite cxx_bind_exn; [done|]. by erewrite cxx_bind_exn by exact Ho.
Qed.

(** what a bulk of cancelled calls reports *)
Lemma cancelled_error n tk s :
  0 < n → reachable n tk s → completions s ≠ [] → thrown s ≠ [] →
  Forall (λ e, e = SystemError ECANCELED) (thrown s) → completions s = [SetError (SystemError ECANCELED)].
Proof.
  intros Hn Hr Hc Ht Hall. destruct (bulk_reachable_inv n tk s Hn Hr) as (I & R & Hs & _).
  pose proof (inv_once s I) as Ho.
  destruct (completions s) as [|c [|c' l]] eqn:Ec; simpl in Ho; [done| |unfold one in Ho; case_match; lia].
  pose proof (inv_result s R c) as Hc'. rewrite Ec in Hc'. specialize (Hc' ltac:(constructor)).
  destruct c as [?|e|]; simpl in Hc'; [done| |done]. rewrite Forall_forall in Hall. by rewrite (Hall e Hc').
Qed.
End theory.

(** ** Properties *)

Section properties.
Context {L : Liburing} {P : Promise} {H : Type} {HC : CqeHandler H}.
Implicit Types w : worker L H.

(** C23: a stop reaches every index of a bulk.  The bulk's operation is started
    and its launcher runs: it posts one task per index, in order, which are the
    fibers [Bulk] interleaves, each with the token of the operation's own stop
    source.  When the downstream receiver is then asked to stop, every task
    that has not begun finds the stop requested: an asynchronous operation of
    its body throws ECANCELED without an entry being submitted.  The exceptions
    are caught per index, so a bulk all of whose calls were cancelled
    completes with the error ECANCELED, never with [set_stopped]. *)
Theorem bulk_stop_reaches {F} (sndr : fiber_bulk_sender F) work task es w :
  let n := bs_shape sndr in
  0 < n → ss_requested es = false →
  ∃ w1 b1 id w2 w3 o3,
    bulk_start work (w, bulk_connect sndr (Some es)) = (Ret (), (w1, b1))
    ∧ bulk_launch task (w1, b1) = (Ret ((λ i, BulkTask i (Some id)) <$> seqZ 0 n), (w2, b1))
    ∧ work_queue_ (w_pool w2) = work_queue_ (w_pool w1) ++ ((λ i, Some (task i)) <$> seqZ 0 n)
    ∧ eventfd_ (w_pool w2) = (eventfd_ (w_pool w1) + Z.to_nat n)%nat
    ∧ (∃ s, exec_all (replicate (S (S (Z.to_nat n))) Launch) (fiber_bulk_opstate n (Some id)) = Some s
         ∧ (λ f, (f_i f, f_tok f)) <$> fibers s = (λ i, (i, Some id)) <$> seqZ 0 n)
    ∧ env_request_stop (w2, inner_op_ b1) = (Ret (), (w3, o3))
    ∧ (∀ i op timeout aw acts, ∃ w4,
         bulk_call (BulkTask i (Some id)) (λ _ _, _ ← run_op op timeout aw acts; mret ()) (Some w3) =
           (Ret (Some (SystemError ECANCELED)), Some w4) ∧ w_ring w4 = w_ring w3)
    ∧ (∀ s, reachable n (Some id) s → completions s ≠ [] → thrown s ≠ [] →
         Forall (λ e, e = SystemError ECANCELED) (thrown s) → completions s = [SetError (SystemError ECANCELED)]).
Proof.
  intros n Hn Hr. unfold bulk_start, bulk_connect. cbn [inner_op_ op_shape].
  destruct (start_spec (A := ()) work es w) as (w1 & id & h & es' & E & Hid & Hst & Hcb & _).
  destruct (Hcb Hr) as [Hr' Hcbs]. rewrite E. set (o1 := Operation _ _ _ _).
  set (b1 := {| op_shape := bs_shape sndr; inner_op_ := o1 |}).
  assert (w_stops w1 !! id = Some (bridged es)) as Hs1 by (rewrite Hst; apply lookup_insert_eq).
  set (w1' := set_fiber_stop (Some id) w1).
  assert ((_ ← new_fiber; install_fiber_stop_token (fiber_stop_ o1)) w1 = (Ret (), w1')) as Ef
    by (by apply (install_token id (bridged es))).
  destruct (bulk_post_spec task (Some id) (seqZ 0 n) w1') as (w2 & Ep & Hst2 & Hr2 & Hq & He).
  destruct (env_request_spec es' id h w2 o1) as (w3 & o3 & l & E3 & _ & _ & Hoc & Hst3 & _);
    [done..|rewrite Hcbs; set_solver|].
  exists w1, b1, id, w2, w3, o3. split; [done|]. split_and!.
  - unfold bulk_launch. change (inner_op_ b1) with o1. rewrite Ef. change (op_shape b1) with n.
    destruct (Z.eqb_spec n 0); [lia|].
    change ((tok ← current_fiber_stop_token; bulk_post task tok (seqZ 0 n)) w1')
      with (bulk_post task (Some id) (seqZ 0 n) w1'). by rewrite Ep.
  - exact Hq.
  - by rewrite He, length_seqZ.
  - by apply bulk_launcher.
  - exact E3.
  - intros i op timeout aw acts. rewrite Hst2 in Hst3. change (w_stops w1') with (w_stops w1) in Hst3.
    rewrite Hs1 in Hst3. apply (call_stopped id (request_stop (bridged es)).2); [done|]. unfold request_stop. simpl. by rewrite Hr.
  - intros s Hs Hc Ht Hall. by apply (cancelled_error n (Some id)).
Qed.
End properties.

(** ** Witnesses *)

Section witnesses.
Import ListUring CellPromise OnlyAwaitable.

(** [bulk(schedule(sched), par, 3, fun)] *)
Definition bulk_of_three : fiber_bulk_sender () :=
  transform_sender (λ ctx, ctx + 8) (BulkChunked 3 () (schedule (get_scheduler 512))).

Lemma bulk_stop_reaches_witness :
  ∃ w1 b1 w2 id, bulk_start 7 (submitting [], bulk_connect bulk_of_three (Some stop_source_new)) = (Ret (), (w1, b1))
    ∧ bulk_launch Z.to_nat (w1, b1) =
        (Ret [BulkTask 0 (Some id); BulkTask 1 (Some id); BulkTask 2 (Some id)], (w2, b1))
    ∧ eventfd_ (w_pool w2) = 4%nat.
Proof.
  destruct (bulk_stop_reaches bulk_of_three 7 Z.to_nat stop_source_new (submitting []))
    as (w1 & b1 & id & w2 & w3 & o3 & E1 & E2 & _ & He & _); [reflexivity|reflexivity|].
  exists w1, b1, w2, id. split; [exact E1|]. split; [exact E2|]. rewrite He.
  vm_compute in E1. by simplify_eq.
Defined.
End witnesses.
