(* ===== verification/Examples.v ===== *)
(** * Examples: programs that compose senders and operations

    examples/parallel_gather.cpp, which receives [N] numbers with a parallel
    bulk, and examples/cancellation.cpp, which turns a timed-out read into a
    fallback value.  They put together [Bulk], [Senders] and the contract of
    the operations in [Io].  The sender algorithm [stdexec::upon_stopped] is a
    parameter with its documented behaviour. *)

From Stdlib Require Import Strings.Byte.
From S2P Require Import Prelude Cxx Uring Boost Scheduler Submit AsyncIo Io Handlers Bulk Senders.

Local Open Scope Z_scope.

(** ** Numbers in memory *)

(** the byte [z mod 256], and the bytes of a [std::uint32_t] in memory, least
    significant first *)
Definition byte_of (z : Z) : Byte.byte := default Byte.x00 (Byte.of_N (Z.to_N (z mod 256))).
Definition of_byte (b : Byte.byte) : Z := Z.of_N (Byte.to_N b).

Fixpoint store (n : nat) (z : Z) : bytes :=
  match n with O => [] | S n => byte_of z :: store n (z / 256) end.
Fixpoint read (bs : bytes) : Z :=
  match bs with [] => 0 | b :: bs => of_byte b + 256 * read bs end.

Lemma byte_of_spec z : of_byte (byte_of z) = z mod 256.
Proof.
  unfold of_byte, byte_of. pose proof (Z.mod_pos_bound z 256 ltac:(lia)) as Hz.
  destruct (Byte.of_N (Z.to_N (z mod 256))) as [b|] eqn:E; simpl.
  - apply Byte.to_of_N in E. rewrite E. lia.
  - apply Byte.of_N_None_iff in E. lia.
Qed.

Lemma store_length n z : length (store n z) = n.
Proof. revert z. induction n; intros z; simpl; auto. Qed.

Lemma read_store n z : read (store n z) = z mod 256 ^ Z.of_nat n.
Proof.
  revert z. induction n as [|n IH]; intros z; simpl.
  - by rewrite Z.mod_1_r.
  - rewrite byte_of_spec, IH.
    replace (Z.of_nat (S n)) with (Z.succ (Z.of_nat n)) by lia. rewrite Z.pow_succ_r by lia.
    rewrite (Z.rem_mul_r z 256) by lia. done.
Qed.

(** ** parallel_gather *)

Section gather.
Context {K : Kernel}.

Definition MSG_WAITALL : Z := 256.
Definition N : nat := 16.

(** the body of the bulk: receive into [results[i]]; [ends i] is the read end
    of pair [i] *)
Definition gather_fun (ends : nat → Z) (i : nat) (results : list Z) : cxx trace (list Z) :=
  '(_, buf) ← io_recv (ends i) (store 4 (results !!! i)) MSG_WAITALL;
  mret (<[i := read buf]> results).

(** the calls of a bulk, in the order they happen to be made *)
Fixpoint gather (ends : nat → Z) (order : list nat) (results : list Z) : cxx trace (list Z) :=
  match order with
  | [] => mret results
  | i :: order => results ← gather_fun ends i results; gather ends order results
  end.

(** [sum += results[i]] on [std::uint32_t] *)
Definition sum32 (results : list Z) : Z := foldl (λ s z, to_u32 (s + z)) 0 results.
End gather.

Section gather_theory.
Context {K : Kernel} (ends : nat → Z) (v : nat → Z) (n : nat).

(** the producer of pair [i] sends the four bytes of [v i], and MSG_WAITALL
    makes one call receive them all *)
Definition sends : Prop := ∀ tr i, (i < n)%nat →
  answer tr (CRecv (ends i) 4 MSG_WAITALL) = Some (Reply 4 (store 4 (v i))).

Lemma gather_fun_spec i results tr :
  sends → (i < n)%nat →
  ∃ tr', gather_fun ends i results tr = (Ret (<[i := to_u32 (v i)]> results), tr').
Proof using Type.
  intros Hs Hi. unfold gather_fun, io_recv. rewrite store_length.
  eexists. erewrite cxx_bind_ret by (rewrite (async_bind_ret _ _ _ _ (Hs tr i Hi)) by (simpl; lia); done).
  cbv beta iota. cbn [r_data]. unfold fill. rewrite drop_ge by (by rewrite !store_length).
  by rewrite app_nil_r, read_store.
Qed.

(** every order of the calls fills in the same results *)
Lemma gather_order order results tr :
  sends → Forall (λ i, (i < n)%nat) order → length results = n →
  ∃ results' tr', gather ends order results tr = (Ret results', tr') ∧ length results' = n
    ∧ ∀ i, (i < n)%nat →
        results' !! i = if decide (i ∈ order) then Some (to_u32 (v i)) else results !! i.
Proof using Type.
  intros Hs Ho. revert results tr. induction Ho as [|i order Hi _ IH]; intros results tr Hlen; simpl.
  { exists results, tr. split; [done|]. by split. }
  destruct (gather_fun_spec i results tr Hs Hi) as (tr1 & E).
  destruct (IH (<[i := to_u32 (v i)]> results) tr1) as (results' & tr' & E' & Hl & Hr);
    [by rewrite length_insert|].
  exists results', tr'. split; [by erewrite cxx_bind_ret by exact E|]. split; [done|].
  intros j Hj. rewrite (Hr j Hj). destruct (decide (j ∈ order)) as [Hin|Hnin].
  - by rewrite decide_True by set_solver.
  - destruct (decide (j = i)) as [->|Hne].
    + rewrite decide_True by set_solver. apply list_lookup_insert_eq. lia.
    + rewrite decide_False by set_solver. by apply list_lookup_insert_ne.
Qed.

Lemma gather_all order results tr :
  sends → order ≡ₚ seq 0 n → length results = n →
  ∃ tr', gather ends order results tr = (Ret ((λ i, to_u32 (v i)) <$> seq 0 n), tr').
Proof using Type.
  intros Hs Ho Hlen. destruct (gather_order order results tr Hs) as (results' & tr' & E & Hl & Hr); [|done|].
  { rewrite Ho. apply Forall_seq. lia. }
  exists tr'. rewrite E. do 2 f_equal. apply list_eq_same_length with (n := n);
    [by rewrite length_fmap, length_seq|done|].
  intros i x y Hi Hx Hy. rewrite (Hr i Hi), decide_True in Hx by (rewrite Ho; apply elem_of_seq; lia).
  rewrite list_lookup_fmap, lookup_seq_lt in Hy by done. simpl in Hy. congruence.
Qed.
End gather_theory.

(** the indices a bulk has called its function with *)
Definition indices (s : st) : list nat := (λ c : Z * Z * option nat, Z.to_nat c.1.1) <$> calls s.

Lemma completed_indices n tk s :
  (0 < n)%nat → reachable (Z.of_nat n) tk s → completions s ≠ [] → indices s ≡ₚ seq 0 n.
Proof.
  intros Hn Hr Hc. unfold indices. rewrite (completed_calls (Z.of_nat n) tk s) by (done || lia).
  assert ((λ c : Z * Z * option nat, Z.to_nat c.1.1) <$> ((λ i, (i, i + 1, tk)) <$> seqZ 0 (Z.of_nat n))
    = seq 0 n) as ->; [|done].
  unfold seqZ. rewrite Nat2Z.id, <-!list_fmap_compose.
  rewrite <-(list_fmap_id (seq 0 n)) at 2. apply list_fmap_ext. intros i x _. unfold compose. simpl. lia.
Qed.

(** ** cancellation *)

(** how [run] completes its receiver after the outcome of its body: see
    [run_body] *)
Definition completion_of {A} (o : outcome A) : option (completion A) :=
  match o with
  | Ret a => Some (SetValue a)
  | Exn e => Some (caught e).1
  | _ => None
  end.

Lemma run_body_completion {L : Liburing} {P : Promise} {H : Type} {HC : CqeHandler H} {A}
    (fn : cxx (option (worker L H)) A) (w : worker L H) (o : operation A) :
  let w1 := set_fiber_stop (if stop_possible (fiber_stop_ o) w then fiber_stop_ o else None) w in
  told (run_body fn (Some w, o)).2.2 =
    told o ++ option_list (completion_of (fn (Some w1)).1).
Proof.
  intros w1. unfold run_body. rewrite new_fiber_token. fold w1.
  destruct (fn (Some w1)) as [[a|e| | |] t]; simpl; by rewrite ?app_nil_r.
Qed.

(** the body of the reader; the timeout of the read is part of how the kernel
    answers it *)
Definition timed_read {K : Kernel} (rfd : Z) : cxx trace bytes :=
  '(n, buf) ← io_read rfd (array 64); mret (take (Z.to_nat n) buf).

(** the body of the readers on a worker: [addr] is where [buf] is, [mem] what it
    holds when the fiber goes on *)
Section reader.
Context {L : Liburing} {P : Promise} {H : Type} {HC : CqeHandler H}.

Definition timed_reader (rfd addr timeout : Z) (mem : bytes) (aw : Z) (acts : list (cxx (worker L H) ())) :
    cxx (option (worker L H)) bytes :=
  n ← async_read (fd_of_int rfd) (Span addr 64) (Some timeout) aw acts;
  mret (take (Z.to_nat n) mem).

(** [200ms] and [30ms] *)
Definition scenario1_timeout : Z := 200 * 1000000.
Definition scenario2_timeout : Z := 30 * 1000000.

Lemma timed_reader_io_op rfd addr timeout mem aw acts w res (t' : option (worker L H)) :
  io_op (PrepRead rfd addr 64 0) (FdRef 0 false) (Some timeout) aw acts (Some w) = (Ret res, t') →
  timed_reader rfd addr timeout mem aw acts (Some w) =
  (if res <? 0 then Exn (SystemError (- res)) else Ret (take (Z.to_nat res) mem), t').
Proof.
  change 64 with (to_u32 64) at 1. unfold timed_reader, async_read, io_op, fixed_file, throw, mret, cxx_mret, cxx_ret, mbind, cxx_mbind, cxx_bind. simpl.
  repeat (case_match; simpl); intros; simplify_eq; try done; congruence.
Qed.

(** completions of timeouts and cancellations are ignored *)
Lemma drain_ignored fds cs cs' (w : worker L H) :
  Forall (λ c, cqe_data c = k_cancel_tag) cs → drain_cqes fds (cs ++ cs') w = drain_cqes fds cs' w.
Proof.
  induction 1 as [|c cs Hc _ IH]; [done|]. simpl. unfold handle_cqe at 1. rewrite Hc. simpl. by bind_ret.
Qed.
End reader.

(** the [std::string] "(timed out)" *)
Definition timed_out_text : bytes :=
  String.list_byte_of_string "(timed out)".

(** ** Properties *)

(** Parallel_gather collects every result.  Whenever the bulk has completed
    its receiver, on whatever interleaving of its fibers, its calls in the
    order they were made have filled [results] with exactly what each producer
    sent, index by index; and for the 16 squares of the example the sum it
    prints is the one it says it expects. *)
Theorem gather_collects (K : Kernel) ends v n tk s tr :
  (0 < n)%nat → sends ends v n → reachable (Z.of_nat n) tk s → completions s ≠ [] →
  ∃ tr', gather ends (indices s) (replicate n 0) tr = (Ret ((λ i, to_u32 (v i)) <$> seq 0 n), tr')
    ∧ (n = N → v = (λ i, Z.of_nat (i * i)) →
       sum32 ((λ i, to_u32 (v i)) <$> seq 0 n) =
       ((Z.of_nat N - 1) * Z.of_nat N * (2 * Z.of_nat N - 1)) `div` 6).
Proof.
  intros Hn Hs Hr Hc.
  destruct (gather_all ends v n (indices s) (replicate n 0) tr Hs) as (tr' & E);
    [by eapply completed_indices|apply length_replicate|].
  exists tr'. split; [exact E|]. intros -> ->. vm_compute. done.
Qed.

(** The reader of cancellation.cpp.  Data that arrives in time is the value
    the sender completes with, byte for byte; a read that the kernel cancels,
    as a linked timeout does, completes with the fallback, and no exception
    reaches the composition site; any other error of the read is passed on as
    an error. *)
Theorem cancellation_fallback (K : Kernel) (HK : KernelLaws K)
    (upon_stopped : bytes → completion bytes → completion bytes)
    (upon_stopped_stopped : ∀ d, upon_stopped d SetStopped = SetValue d)
    (upon_stopped_value : ∀ d a, upon_stopped d (SetValue a) = SetValue a)
    (upon_stopped_error : ∀ d e, upon_stopped d (SetError e) = SetError e) rfd tr r :
  answer tr (CRead (fd_of_int rfd) 64) = Some r →
  upon_stopped timed_out_text <$> completion_of (timed_read rfd tr).1 =
  Some (if 0 <=? r_res r then SetValue (r_data r)
        else if r_res r =? - ECANCELED then SetValue timed_out_text
        else SetError (SystemError (- r_res r))).
Proof.
  intros Hr. unfold timed_read, io_read, array. rewrite length_replicate.
  change (to_u32 (Z.of_nat 64)) with 64. destruct (Z.leb_spec 0 (r_res r)) as [Hpos|Hneg].
  - erewrite cxx_bind_ret by (by rewrite (async_bind_ret _ _ _ _ Hr Hpos)). simpl.
    destruct (answer_input _ _ _ _ Hr eq_refl Hpos) as [Hlen _].
    by rewrite Hlen, Nat2Z.id, take_fill, upon_stopped_value.
  - erewrite cxx_bind_exn by (by rewrite (async_bind_exn _ _ _ _ Hr Hneg)). simpl.
    destruct (Z.eqb_spec (r_res r) (- ECANCELED)) as [He|Hne].
    + rewrite He. simpl. by rewrite upon_stopped_stopped.
    + destruct (Z.eqb_spec (- r_res r) ECANCELED); [lia|]. by rewrite upon_stopped_error.
Qed.

(** C33: a read with a deadline, through the whole stack.  The reader of
    cancellation.cpp runs on a worker with nothing pending, whose ring accepts
    what is submitted: the read goes to the kernel with the link
    flag, with a timeout of the given length right behind it, in one
    submission; whatever the order in which their two completions arrive, the
    timeout's is ignored, and the one of the read completes the sender once.
    A read that was on time gives the bytes it read; one that the timeout
    cancelled gives the text of [upon_stopped], and no exception gets out. *)
Theorem timed_reader_completes {L : Liburing} {P : Promise} {H : Type} {HC : CqeHandler H}
    (HL : LiburingLaws L) (HP : PromiseLaws P) (HCL : CqeHandlerLaws H HC) (Hall : ∀ r : uring, submits_all r)
    (upon_stopped : bytes → completion bytes → completion bytes)
    (upon_stopped_stopped : ∀ d, upon_stopped d SetStopped = SetValue d)
    (upon_stopped_value : ∀ d a, upon_stopped d (SetValue a) = SetValue a)
    (upon_stopped_error : ∀ d e, upon_stopped d (SetError e) = SetError e)
    fds (w : worker L H) rfd addr timeout mem a res flags pre post :
  sq_pending (w_ring w) = [] → (1 < sq_entries (w_ring w))%nat → k_cancel_tag < a →
  Forall (λ c, cqe_data c = k_cancel_tag) (pre ++ post) →
  ∃ w' o', run_body (timed_reader rfd addr timeout mem a [drain_cqes fds (pre ++ Cqe a res flags :: post)])
      (Some w, connect None) = (Ret (), (Some w', o'))
    ∧ sq_submitted (w_ring w') = sq_submitted (w_ring w) ++
        [set_data a (or_flags IOSQE_IO_LINK (prepped (PrepRead rfd addr 64 0))); link_timeout_sqe timeout]
    ∧ w_handlers w' !! a = None
    ∧ upon_stopped timed_out_text <$> told o' =
      [if 0 <=? res then SetValue (take (Z.to_nat res) mem)
       else if res =? - ECANCELED then SetValue timed_out_text
       else SetError (SystemError (- res))].
Proof.
  intros Hp Hroom Ha [Hpre Hpost]%Forall_app. set (w1 := set_fiber_stop None w).
  destruct (io_op_run Hall (PrepRead rfd addr 64 0) (FdRef 0 false) (Some timeout) a w1 eq_refl Hp Hroom)
    as (r & w2 & Hs & _ & _ & [Hoc _ _] & Hrun & _).
  assert (w_handlers w2 !! a = Some (io_awaitable promise_new)) as Hh
    by (rewrite (oc_handlers _ _ Hoc); apply lookup_insert_eq).
  destruct (handle_awaitable fds (Cqe a res flags) w2 promise_new Ha Hh) as (pr & Hpv & E); [apply promise_value_new|].
  simpl in E, Hpv. set (w3 := upd_handlers _ (upd_ring id w2)) in E.
  assert (run_actions [drain_cqes fds (pre ++ Cqe a res flags :: post)] w2 = (Ret (), w3)) as Hacts.
  { erewrite run_actions_cons; [done|]. rewrite drain_ignored by done. simpl. bind_ret.
    rewrite <-(app_nil_r post), drain_ignored by done. done. }
  assert (fulfilled a w3 = Some res) as Hf
    by (unfold fulfilled; simpl; rewrite lookup_insert_eq; simpl; by rewrite as_awaitable_io).
  specialize (Hrun _ _ Hacts). rewrite Hf in Hrun. apply (timed_reader_io_op rfd addr timeout mem) in Hrun.
  eexists _, (tell (if res <? 0 then (caught (SystemError (- res))).1 else SetValue (take (Z.to_nat res) mem)) (connect None)).
  split; [unfold run_body; rewrite new_fiber_token; simpl; fold w1; rewrite Hrun; by destruct (res <? 0)|].
  split; [|split; [apply lookup_delete_eq|]].
  - change (w_ring (upd_handlers _ ?x)) with (w_ring x). rewrite unpark_ring.
    change (w_ring w3) with (w_ring w2). by rewrite (oc_ring _ _ Hoc).
  - simpl. rewrite Z.ltb_antisym. destruct (Z.leb_spec 0 res); simpl; [by rewrite upon_stopped_value|].
    destruct (Z.eqb_spec (- res) ECANCELED), (Z.eqb_spec res (- ECANCELED)); try lia;
      by rewrite ?upon_stopped_stopped, ?upon_stopped_error.
Qed.

(** ** Witnesses *)

Section witnesses.

(** a kernel in which pair [i] delivers the square of [i] *)
Definition square_kernel : Kernel :=
  {| answer _ c := Some match c with
       | CRecv fd _ _ => Reply 4 (store 4 (index fd * index fd))
       | _ => Reply 0 []
       end |}.

(** a bulk of two, run to completion *)
Definition two_fibers : list move := replicate 4 Launch ++ replicate 4 (Run 1 None) ++ replicate 5 (Run 0 None).
Definition gathered : st := Eval vm_compute in
  default (fiber_bulk_opstate 2 None) (exec_all two_fibers (fiber_bulk_opstate 2 None)).

Lemma gather_collects_witness :
  indices gathered = [1%nat; 0%nat]
  ∧ ∃ tr', gather (K := square_kernel) Z.of_nat (indices gathered) (replicate 2 0) [] = (Ret [0; 1], tr').
Proof.
  split; [reflexivity|].
  destruct (gather_collects square_kernel Z.of_nat (λ i, Z.of_nat (i * i)) 2 None gathered [])
    as (tr' & E & _); [lia| | |done|].
  - intros tr i Hi. cbn -[store Z.of_nat Nat.mul]. by rewrite Nat2Z.inj_mul.
  - apply rtc_nsteps. exists (length two_fibers). by apply (exec_all_nsteps two_fibers).
  - exists tr'. exact E.
Defined.

(** [stdexec::upon_stopped], as documented *)
Definition upon_stopped (d : bytes) (c : completion bytes) : completion bytes :=
  match c with SetStopped => SetValue d | c => c end.

Lemma refusing_laws : KernelLaws (constant_kernel (-125)).
Proof.
  split.
  - intros tr c r len Hr _ Hpos. simplify_eq/=. lia.
  - intros tr c r bs Hr _. simplify_eq/=. lia.
Qed.

Lemma cancellation_fallback_witness :
  upon_stopped timed_out_text <$> completion_of (timed_read (K := constant_kernel (-125)) 6 []).1 =
  Some (SetValue timed_out_text).
Proof.
  apply (cancellation_fallback (constant_kernel (-125)) refusing_laws upon_stopped
    (λ _, eq_refl) (λ _ _, eq_refl) (λ _ _, eq_refl) 6 [] (Reply (-125) [])). reflexivity.
Defined.

Section reader_witness.
Import ListUring CellPromise OnlyAwaitable.

(** the 64 bytes of [buf] after the message was read *)
Definition message : bytes := String.list_byte_of_string "hello from writer".
Definition read_buf : bytes := fill message (array 64).

(** scenario 1: the read completes, and the timeout after it; scenario 2: the
    timeout fires, and the read is cancelled *)
Lemma timed_reader_completes_witness :
  (∃ w' o', run_body (timed_reader 6 1024 scenario1_timeout read_buf 4096
        [drain_cqes bufs [Cqe 4096 17 0; Cqe k_cancel_tag (- ECANCELED) 0]]) (Some (submitting []), connect None)
      = (Ret (), (Some w', o'))
    ∧ upon_stopped timed_out_text <$> told o' = [SetValue message])
  ∧ ∃ w' o', run_body (timed_reader 6 1024 scenario2_timeout (array 64) 4096
        [drain_cqes bufs [Cqe k_cancel_tag (- ETIME) 0; Cqe 4096 (- ECANCELED) 0]]) (Some (submitting []), connect None)
      = (Ret (), (Some w', o'))
    ∧ upon_stopped timed_out_text <$> told o' = [SetValue timed_out_text].
Proof.
  split.
  - destruct (timed_reader_completes list_uring_laws cell_promise_laws only_awaitable_laws list_uring_submits_all
      upon_stopped (λ _, eq_refl) (λ _ _, eq_refl) (λ _ _, eq_refl) bufs (submitting []) 6 1024 scenario1_timeout read_buf
      4096 17 0 [] [Cqe k_cancel_tag (- ECANCELED) 0]) as (w' & o' & E & _ & _ & Ht);
      [reflexivity|simpl; unfold k_ring_entries; lia|reflexivity|repeat constructor|].
    exists w', o'. split; [exact E|exact Ht].
  - destruct (timed_reader_completes list_uring_laws cell_promise_laws only_awaitable_laws list_uring_submits_all
      upon_stopped (λ _, eq_refl) (λ _ _, eq_refl) (λ _ _, eq_refl) bufs (submitting []) 6 1024 scenario2_timeout (array 64)
      4096 (- ECANCELED) 0 [Cqe k_cancel_tag (- ETIME) 0] []) as (w' & o' & E & _ & _ & Ht);
      [reflexivity|simpl; unfold k_ring_entries; lia|reflexivity|repeat constructor|].
    exists w', o'. split; [exact E|exact Ht].
Defined.
End reader_witness.
End witnesses.
