(* ===== verification/SyncWait.v ===== *)
(** * SyncWait: awaiting a sender from a fiber (include/fiberexec/sync_wait.hpp)

    [sync_wait] starts an operation whose receiver shares a heap-allocated state
    with it, and suspends the calling fiber until the receiver is completed,
    possibly on another thread.  The model interleaves the two sides, one lock
    operation or one access at a time.  The operation, with the receiver inside
    it, lives on the waiter's stack; the state is counted by three
    [shared_ptr]s: the waiter's, the receiver's and the local copy the
    completion makes.  Reading the receiver once the operation is destroyed, or
    the state once all three are gone, is undefined behaviour. *)

From S2P Require Import Prelude Cxx.

Local Open Scope nat_scope.

(** ** State *)

(** [sync_wait] after [connect]: before [start]; at the lock; evaluating the
    predicate of [cv.wait]; having found it false, still holding the lock and
    not yet in the wait queue; suspended there; past the wait, the lock held;
    past the scope of the lock; returning, the operation and then the state
    destroyed; returned *)
Inductive waiter := WStart | WLock | WCheck | WSleep | WBlocked | WUnlock | WRead | WDropOp | WDropState | WReturned.

(** a completion function of the receiver: not called; with its copy of the
    pointer made; the lock held; [value] or [error] written; [done] set; the
    lock released; [notify_all] called; returned *)
Inductive completer := CIdle | CCopied | CLocked | CStored | CDone | CUnlocked | CNotified | CReturned.

Inductive side := Waiter | Completer.

(** what the sender delivers; the tuple [set_value] builds may throw *)
Inductive delivery (A : Type) := Value (a : A) | ValueThrows (e : exn) | Error (e : exn) | Stopped.
Arguments Value {A} a.
Arguments ValueThrows {A} e.
Arguments Error {A} e.
Arguments Stopped {A}.

Section sync_wait.
Context {A : Type}.

Record st := St {
  wpc : waiter;
  cpc : completer;
  mtx : option side;
  value : option A;
  error : option exn;
  done_ : bool;
  waiter_ref : bool;      (** [state] in [sync_wait] *)
  receiver_ref : bool;    (** [state_] in the receiver, alive with [op] *)
  local_ref : bool;       (** [s] in the completion function *)
  result : option (outcome (option A))
}.

(** [connect]: the state is shared by the waiter and the receiver *)
Definition connected : st :=
  {| wpc := WStart; cpc := CIdle; mtx := None; value := None; error := None; done_ := false;
     waiter_ref := true; receiver_ref := true; local_ref := false; result := None |}.

Definition set_waiter (pc : waiter) (m : option side) (s : st) : st :=
  {| wpc := pc; cpc := cpc s; mtx := m; value := value s; error := error s; done_ := done_ s;
     waiter_ref := waiter_ref s; receiver_ref := receiver_ref s; local_ref := local_ref s;
     result := result s |}.
Definition set_completer (pc : completer) (m : option side) (s : st) : st :=
  {| wpc := wpc s; cpc := pc; mtx := m; value := value s; error := error s; done_ := done_ s;
     waiter_ref := waiter_ref s; receiver_ref := receiver_ref s; local_ref := local_ref s;
     result := result s |}.
Definition set_stored (v : option A) (e : option exn) (d : bool) (s : st) : st :=
  {| wpc := wpc s; cpc := cpc s; mtx := mtx s; value := v; error := e; done_ := d;
     waiter_ref := waiter_ref s; receiver_ref := receiver_ref s; local_ref := local_ref s;
     result := result s |}.
Definition set_refs (wr rr lr : bool) (s : st) : st :=
  {| wpc := wpc s; cpc := cpc s; mtx := mtx s; value := value s; error := error s; done_ := done_ s;
     waiter_ref := wr; receiver_ref := rr; local_ref := lr; result := result s |}.
Definition set_result (r : outcome (option A)) (s : st) : st :=
  {| wpc := wpc s; cpc := cpc s; mtx := mtx s; value := value s; error := error s; done_ := done_ s;
     waiter_ref := waiter_ref s; receiver_ref := receiver_ref s; local_ref := local_ref s;
     result := Some r |}.

(** ** Operations *)

(** an access to the shared state *)
Definition access (s s' : st) : outcome st :=
  if waiter_ref s || receiver_ref s || local_ref s then Ret s' else Undef.

(** [sync_wait] from [start(op)] on *)
Definition sync_wait (s : st) : option (outcome st) :=
  match wpc s with
  | WStart => Some (Ret (set_waiter WLock (mtx s) s))
  | WLock => if mtx s is None then Some (access s (set_waiter WCheck (Some Waiter) s)) else None
  | WCheck => Some (access s (set_waiter (if done_ s then WUnlock else WSleep) (mtx s) s))
  | WSleep => Some (access s (set_waiter WBlocked None s))
  | WBlocked => None
  | WUnlock => Some (access s (set_waiter WRead None s))
  | WRead =>
      Some (access s (set_waiter WDropOp (mtx s)
        (set_result (if error s is Some e then Exn e else Ret (value s)) s)))
  | WDropOp => Some (Ret (set_waiter WDropState (mtx s) (set_refs (waiter_ref s) false (local_ref s) s)))
  | WDropState => Some (Ret (set_waiter WReturned (mtx s) (set_refs false (receiver_ref s) (local_ref s) s)))
  | WReturned => None
  end.

(** what [set_value], [set_error] and [set_stopped] write *)
Definition store (d : delivery A) (s : st) : st :=
  match d with
  | Value a => set_stored (Some a) (error s) (done_ s) s
  | ValueThrows e | Error e => set_stored (value s) (Some e) (done_ s) s
  | Stopped => s
  end.

(** [set_value], [set_error] and [set_stopped], which differ in what they
    store; the sender calls one of them once it is started *)
Definition complete (d : delivery A) (s : st) : option (outcome st) :=
  match cpc s with
  | CIdle =>
      if wpc s is WStart then None
      else Some (if receiver_ref s then access s (set_completer CCopied (mtx s)
                                                   (set_refs (waiter_ref s) (receiver_ref s) true s))
                 else Undef)
  | CCopied => if mtx s is None then Some (access s (set_completer CLocked (Some Completer) s)) else None
  | CLocked => Some (access s (set_completer CStored (mtx s) (store d s)))
  | CStored => Some (access s (set_completer CDone (mtx s) (set_stored (value s) (error s) true s)))
  | CDone => Some (access s (set_completer CUnlocked None s))
  | CUnlocked =>
      let s' := set_completer CNotified (mtx s) s in
      Some (access s (if wpc s is WBlocked then set_waiter WLock (mtx s) s' else s'))
  | CNotified => Some (Ret (set_completer CReturned (mtx s) (set_refs (waiter_ref s) (receiver_ref s) false s)))
  | CReturned => None
  end.

Definition exec (d : delivery A) (m : side) (s : st) : option (outcome st) :=
  match m with Waiter => sync_wait s | Completer => complete d s end.

Definition step (d : delivery A) (s s' : st) : Prop := ∃ m, exec d m s = Some (Ret s').

(** what [sync_wait] returns or throws *)
Definition delivered (d : delivery A) : outcome (option A) :=
  match d with
  | Value a => Ret (Some a)
  | ValueThrows e | Error e => Exn e
  | Stopped => Ret None
  end.
End sync_wait.
Arguments st : clear implicits.

(** the call as a whole: off a worker thread it throws *)
Definition sync_wait_entry {A} (current_ring : bool) : outcome (st A) :=
  if current_ring then Ret connected else Exn RuntimeError.

(** ** Reachable states

    A reachable state is determined by where the two sides are. *)

Definition waiter_locked (w : waiter) : bool := match w with WCheck | WSleep | WUnlock => true | _ => false end.
Definition completer_locked (c : completer) : bool :=
  match c with CLocked | CStored | CDone => true | _ => false end.
Definition has_stored (c : completer) : bool := match c with CIdle | CCopied | CLocked => false | _ => true end.
Definition has_done (c : completer) : bool := has_stored c && (if c is CStored then false else true).
Definition has_unlocked (c : completer) : bool := has_done c && (if c is CDone then false else true).
Definition has_notified (c : completer) : bool := match c with CNotified | CReturned => true | _ => false end.
Definition has_copy (c : completer) : bool := match c with CIdle | CReturned => false | _ => true end.

(** the waiter is past the lock only after the completer released it; it is
    suspended only while a notification is to come *)
Definition compatible (w : waiter) (c : completer) : bool :=
  match w with
  | WStart => if c is CIdle then true else false
  | WLock => true
  | WCheck => negb (completer_locked c)
  | WSleep => negb (has_stored c) && negb (completer_locked c)
  | WBlocked => negb (has_notified c)
  | WUnlock | WRead | WDropOp | WDropState | WReturned => has_unlocked c
  end.

Definition at_ {A} (d : delivery A) (w : waiter) (c : completer) : st A :=
  {| wpc := w; cpc := c;
     mtx := if waiter_locked w then Some Waiter else if completer_locked c then Some Completer else None;
     value := if has_stored c then (if d is Value a then Some a else None) else None;
     error := if has_stored c then (if d is ValueThrows e then Some e else if d is Error e then Some e else None)
              else None;
     done_ := has_done c;
     waiter_ref := if w is WReturned then false else true;
     receiver_ref := match w with WDropState | WReturned => false | _ => true end;
     local_ref := has_copy c;
     result := match w with WDropOp | WDropState | WReturned => Some (delivered d) | _ => None end |}.

Definition waiter_weight (w : waiter) : nat :=
  match w with
  | WStart => 9 | WLock => 8 | WCheck => 7 | WSleep => 6 | WBlocked => 5 | WUnlock => 4
  | WRead => 3 | WDropOp => 2 | WDropState => 1 | WReturned => 0
  end.
Definition completer_weight (c : completer) : nat :=
  match c with
  | CIdle => 10 | CCopied => 9 | CLocked => 8 | CStored => 7 | CDone => 6 | CUnlocked => 5
  | CNotified => 1 | CReturned => 0
  end.

Section theory.
Context {A : Type} (d : delivery A).

Lemma exec_at w c m o :
  compatible w c = true → exec d m (at_ d w c) = Some o →
  ∃ w' c', o = Ret (at_ d w' c') ∧ compatible w' c' = true
    ∧ waiter_weight w' + completer_weight c' < waiter_weight w + completer_weight c.
Proof.
  intros Hc He.
  destruct m, w, c; try discriminate Hc; try discriminate He; destruct d; cbv in He; injection He as <-;
    match goal with |- ∃ w' c', Ret ?s = _ ∧ _ => exists (wpc s), (cpc s) end;
    (split; [reflexivity|split; [reflexivity|simpl; lia]]).
Qed.

(** some side can move until both have returned *)
Lemma progress_at w c :
  compatible w c = true → (w = WReturned ∧ c = CReturned) ∨ ∃ m o, exec d m (at_ d w c) = Some o.
Proof.
  intros Hc. destruct w, c; try discriminate Hc;
    first [left; split; reflexivity
      |right; exists Waiter; eexists; reflexivity|right; exists Completer; eexists; reflexivity].
Qed.

Lemma settled_at w c :
  compatible w c = true → (∀ s', ¬ step d (at_ d w c) s') → w = WReturned ∧ c = CReturned.
Proof.
  intros Hc Hstuck. destruct (progress_at w c Hc) as [|(m & o & Hm)]; [done|].
  destruct (exec_at w c m o Hc Hm) as (w' & c' & -> & _). exfalso. eapply Hstuck. by exists m.
Qed.

Lemma nsteps_at k s :
  nsteps (step d) k connected s →
  ∃ w c, s = at_ d w c ∧ compatible w c = true ∧ k + waiter_weight w + completer_weight c ≤ 19.
Proof.
  revert s. induction k as [|k IH]; intros s Hk.
  - inversion Hk; subst. exists WStart, CIdle. split; [by destruct d|]. split; [done|simpl; lia].
  - apply nsteps_inv_r in Hk as (s1 & H1 & m & Hm).
    destruct (IH s1 H1) as (w & c & -> & Hc & Hw).
    destruct (exec_at w c m _ Hc Hm) as (w' & c' & [= ->] & Hc' & Hw').
    exists w', c'. split; [done|]. split; [done|lia].
Qed.
End theory.

(** ** Properties *)

(** C16: [sync_wait] is free of races with the completion.  In no interleaving
    does a completion function read the receiver after the waiter destroyed the
    operation, or either side use the shared state after it was freed, even
    when the waiter returns while the completion is still in [notify_all];
    and the waiter has a result only if it is the one delivered: the value, an
    empty optional when the sender stopped, or the exception rethrown. *)
Theorem sync_wait_safe {A} (d : delivery A) s :
  rtc (step d) connected s →
  (∀ m, exec d m s ≠ Some Undef) ∧ (∀ r, result s = Some r → r = delivered d).
Proof.
  intros [k Hk]%rtc_nsteps. destruct (nsteps_at d k s Hk) as (w & c & -> & Hc & _). split.
  - intros m Hm. by destruct (exec_at d w c m _ Hc Hm) as (? & ? & ? & _).
  - intros r Hr. by destruct w; simpl in Hr; simplify_eq.
Qed.

(** C24: [sync_wait] always returns once the sender completes: no wakeup is
    lost.  The waiter evaluates the predicate, joins the wait queue giving up
    the lock, and is woken in steps of their own, and the completion may fall
    anywhere between them that the lock allows.  No run of the two sides is
    longer than 19 steps, and in a state where neither can move both have
    returned, with the result delivered. *)
Theorem sync_wait_returns {A} (d : delivery A) k s :
  nsteps (step d) k connected s →
  k ≤ 19 ∧ ((∀ s', ¬ step d s s') → wpc s = WReturned ∧ cpc s = CReturned ∧ result s = Some (delivered d)).
Proof.
  intros Hk. destruct (nsteps_at d k s Hk) as (w & c & -> & Hc & Hw). split; [lia|].
  intros Hstuck. by destruct (settled_at d w c Hc Hstuck) as [-> ->].
Qed.

(** ** Witnesses *)

Fixpoint exec_all {A} (d : delivery A) (ms : list side) (s : st A) : option (st A) :=
  match ms with
  | [] => Some s
  | m :: ms => match exec d m s with Some (Ret s') => exec_all d ms s' | _ => None end
  end.

Lemma exec_all_steps {A} (d : delivery A) ms s s' :
  exec_all d ms s = Some s' → nsteps (step d) (length ms) s s'.
Proof.
  revert s. induction ms as [|m ms IH]; simpl; intros s; [intros [= ->]; constructor|].
  destruct (exec d m s) as [[s1| | | |]|] eqn:E; try done.
  intros. eapply nsteps_l; [by exists m|by apply IH].
Qed.

(** the waiter blocks, is woken, and returns before [notify_all] does *)
Definition woken : list side :=
  [Waiter; Waiter; Waiter; Waiter; Completer; Completer; Completer; Completer; Completer; Completer;
   Waiter; Waiter; Waiter; Waiter; Waiter; Waiter].
Definition woken_st : st nat := Eval vm_compute in default connected (exec_all (Value 7) woken connected).

Lemma sync_wait_safe_witness :
  (∀ m, exec (Value 7) m woken_st ≠ Some Undef) ∧
  (∀ r, result woken_st = Some r → r = Ret (Some 7)).
Proof.
  apply (sync_wait_safe (Value 7) woken_st). apply rtc_nsteps. exists 16.
  apply (exec_all_steps (Value 7) woken). reflexivity.
Defined.

(** the completer waits for the lock while the waiter goes to sleep *)
Definition contended : list side :=
  [Waiter; Completer; Waiter; Waiter; Waiter; Completer; Completer; Completer; Completer; Completer; Completer;
   Waiter; Waiter; Waiter; Waiter; Waiter; Waiter].
Definition contended_st : st nat := Eval vm_compute in default connected (exec_all (Error InvalidArgument) contended connected).

Lemma sync_wait_returns_witness :
  exec_all (Error InvalidArgument) contended connected = Some contended_st
  ∧ wpc contended_st = WReturned ∧ cpc contended_st = CReturned
  ∧ result contended_st = Some (Exn InvalidArgument).
Proof.
  split; [reflexivity|].
  apply (sync_wait_returns (Error InvalidArgument) 17 contended_st).
  - apply (exec_all_steps (Error InvalidArgument) contended). reflexivity.
  - intros s' [[] Hm]; discriminate Hm.
Defined.
