(* ===== verification/Fanout.v ===== *)
(** * Fanout: gathering with [sync_wait] (examples/sync_wait_fanout.cpp)

    A collector fiber reads from four socket pairs at once with
    [fiberexec::sync_wait(stdexec::when_all(...))] while four producer fibers
    sleep and write.  The readers are bodies of [run] senders, whose outcome
    [Senders] turns into a completion; [SyncWait] carries the completion of
    [when_all] to the collector.  The sender algorithm [stdexec::when_all] is a
    class with its documented behaviour. *)

From S2P Require Import Prelude Cxx Uring Boost Scheduler Submit AsyncIo Io Handlers Bulk Senders SyncWait Examples.

Local Open Scope Z_scope.

(** ** [stdexec::when_all] *)

(** the completion of [when_all], from the children's completions in the order
    they arrive *)
Class WhenAll : Type := { when_all {A} : list (nat * completion A) → completion (list A) }.

Definition is_error {A} (c : completion A) : bool := match c with SetError _ => true | _ => false end.

Class WhenAllLaws (WA : WhenAll) : Prop := {
  (** the values, in the order of the children *)
  when_all_values {A} (cs : list (nat * completion A)) vs :
    cs ≡ₚ imap (λ i v, (i, SetValue v)) vs → when_all cs = SetValue vs;
  (** the first error *)
  when_all_error {A} (pre post : list (nat * completion A)) i e :
    Forall (λ c, is_error c.2 = false) pre → when_all (pre ++ (i, SetError e) :: post) = SetError e;
  when_all_stopped {A} (cs : list (nat * completion A)) i :
    (i, SetStopped) ∈ cs → Forall (λ c, is_error c.2 = false) cs → when_all cs = SetStopped
}.

(** ** The fibers *)

Definition kDelays : list Z := (λ ms, ms * 1000000) <$> [40; 10; 30; 20].
Definition kValues : list Z := [100; 200; 300; 400].
Definition kN : nat := 4.

Section fibers.
Context {K : Kernel}.

(** a producer: sleep, then write the bytes of the [int] *)
Definition fanout_producer (wfd delay v : Z) : cxx trace () :=
  _ ← io_sleep_for delay;
  _ ← io_write wfd (Examples.store 4 v);
  mret ().

(** a reader: [int v{}; async_read(...); return v;] *)
Definition fanout_reader (rfd : Z) : cxx trace Z :=
  '(_, buf) ← io_read rfd (Examples.store 4 0);
  mret (to_i32 (read buf)).

(** the completions of the readers, in the order their reads happen to
    complete; [None] when one never does *)
Fixpoint arrivals (ends : nat → Z) (order : list nat) : trace → option (list (nat * completion Z)) := λ tr,
  match order with
  | [] => Some []
  | i :: order =>
      let '(o, tr') := fanout_reader (ends i) tr in
      c ← completion_of o; cs ← arrivals ends order tr'; Some ((i, c) :: cs)
  end.
End fibers.

(** what the receiver of [sync_wait] is told *)
Definition to_delivery {A} (c : completion A) : delivery A :=
  match c with SetValue a => Value a | SetError e => Error e | SetStopped => Stopped end.

(** [auto [a, b, c, d] = *fiberexec::sync_wait(...)]: an empty optional is
    dereferenced unchecked *)
Definition collected (r : outcome (option (list Z))) : outcome (list Z) :=
  match r with
  | Ret (Some vs) => Ret vs
  | Ret None => Undef
  | Exn e => Exn e | Undef => Undef | Abort => Abort | Hang => Hang
  end.

(** [a + b + c + d] on [int] *)
Definition sum_ints (vs : list Z) : outcome Z :=
  foldl (λ acc v, match acc with
                  | Ret s => if (- 2 ^ 31 <=? s + v) && (s + v <? 2 ^ 31) then Ret (s + v) else Undef
                  | o => o
                  end) (Ret 0) vs.

(** [sync_wait_receiver::get_env]: an empty environment, so no stop token *)
Definition sync_wait_env : option (stop_state nat) := None.

(** ** Lemmas *)

Lemma int_roundtrip v : - 2 ^ 31 ≤ v < 2 ^ 31 → to_i32 (read (Examples.store 4 v)) = v.
Proof.
  intros Hv. rewrite read_store. change (256 ^ Z.of_nat 4) with (2 ^ 32).
  unfold to_i32, to_u32, wrap. rewrite Z.mod_mod by lia.
  destruct (Z.ltb_spec (v mod 2 ^ 32) (2 ^ 31)) as [Hlt|Hge].
  - destruct (decide (0 ≤ v)); [by rewrite Z.mod_small by lia|].
    rewrite <-(Z_mod_plus_full v 1), Z.mod_small in Hlt by lia. lia.
  - destruct (decide (0 ≤ v)); [rewrite Z.mod_small in Hge by lia; lia|].
    rewrite <-(Z_mod_plus_full v 1), Z.mod_small by lia. lia.
Qed.

Section theory.
Context {K : Kernel} (ends : nat → Z) (rep : nat → reply).

(** how the read of pair [i] is answered *)
Definition answers : Prop := ∀ tr i, (i < kN)%nat → answer tr (CRead (fd_of_int (ends i)) 4) = Some (rep i).

(** the completion of the reader of pair [i] *)
Definition reads (i : nat) : completion Z :=
  if 0 <=? r_res (rep i) then SetValue (to_i32 (read (fill (r_data (rep i)) (Examples.store 4 0))))
  else (caught (SystemError (- r_res (rep i)))).1.

Lemma reader_completes i tr :
  answers → (i < kN)%nat →
  ∃ o tr', fanout_reader (ends i) tr = (o, tr') ∧ completion_of o = Some (reads i).
Proof using Type.
  intros Ha Hi. unfold fanout_reader, io_read, reads. rewrite store_length.
  change (to_u32 (Z.of_nat 4)) with 4. destruct (Z.leb_spec 0 (r_res (rep i))) as [Hp|Hn].
  - eexists _, _. split.
    { by erewrite cxx_bind_ret by (by rewrite (async_bind_ret _ _ _ _ (Ha tr i Hi) Hp)). }
    done.
  - eexists _, _. split.
    { by erewrite cxx_bind_exn by (by rewrite (async_bind_exn _ _ _ _ (Ha tr i Hi) Hn)). }
    done.
Qed.

Lemma arrivals_spec order tr :
  answers → Forall (λ i, (i < kN)%nat) order →
  arrivals ends order tr = Some ((λ i, (i, reads i)) <$> order).
Proof using Type.
  intros Ha Ho. revert tr. induction Ho as [|i order Hi _ IH]; intros tr; [done|]. simpl.
  destruct (reader_completes i tr Ha Hi) as (o & tr' & -> & ->). simpl. by rewrite IH.
Qed.

Lemma reads_error_free i :
  0 ≤ r_res (rep i) ∨ r_res (rep i) = - ECANCELED → is_error (reads i) = false.
Proof using Type.
  intros [Hp|He]; unfold reads; [by rewrite (proj2 (Z.leb_le _ _) Hp)|]. by rewrite He.
Qed.
End theory.

(** a producer whose timer expires and whose write is taken *)
Lemma fanout_producer_spec (K : Kernel) wfd delay v tr r0 r1 :
  0 < delay → answer tr (CTimeout (timespec_of_ns delay)) = Some r0 → r_res r0 = - ETIME →
  answer (tr ++ [(CTimeout (timespec_of_ns delay), r0)]) (CWrite (fd_of_int wfd) (Examples.store 4 v) 0) = Some r1 →
  0 ≤ r_res r1 →
  fanout_producer wfd delay v tr =
  (Ret (), tr ++ [(CTimeout (timespec_of_ns delay), r0); (CWrite (fd_of_int wfd) (Examples.store 4 v) 0, r1)]).
Proof.
  intros Hd H0 Hr0 H1 Hr1. unfold fanout_producer, io_sleep_for.
  destruct (Z.leb_spec delay 0); [lia|].
  erewrite cxx_bind_ret; last first.
  { erewrite cxx_bind_ret by (by apply issue_ret). rewrite Hr0. by rewrite decide_False by (intros Hx; by apply Hx). }
  erewrite cxx_bind_ret; last first.
  { unfold io_write. rewrite take_u32_small by (by rewrite store_length).
    by rewrite (async_bind_ret _ _ _ _ H1 Hr1). }
  by rewrite <-app_assoc.
Qed.

(** ** Properties *)

(** C25: the collector of sync_wait_fanout gets every value in its place.
    Whatever order the four reads complete in, when [sync_wait] and the
    completion of [when_all] have both returned, on any interleaving: if every
    read was answered, the collector has what each pair delivered, in the
    order of the pairs, and for the values of the example their sum is the one
    it says it expects; if a read failed, the first error to arrive is thrown
    into the collector; and if reads were only cancelled, the empty optional is
    dereferenced, which is undefined behaviour. *)
Theorem fanout_collects (WA : WhenAll) (HWA : WhenAllLaws WA) (K : Kernel) ends rep order tr :
  answers ends rep → order ≡ₚ seq 0 kN →
  ∃ cs, arrivals ends order tr = Some cs ∧ let d := to_delivery (when_all cs) in
    ∀ s, rtc (SyncWait.step d) connected s → (∀ s', ¬ SyncWait.step d s s') →
    ∃ r, SyncWait.result s = Some r
      ∧ ((∀ i, (i < kN)%nat → 0 ≤ r_res (rep i)) →
          collected r = Ret ((λ i, to_i32 (read (fill (r_data (rep i)) (Examples.store 4 0)))) <$> seq 0 kN)
          ∧ ((∀ i v, kValues !! i = Some v → r_data (rep i) = Examples.store 4 v) →
               collected r = Ret kValues ∧ sum_ints kValues = Ret (foldl Z.add 0 kValues)))
      ∧ (∀ pre i post, order = pre ++ i :: post → r_res (rep i) < 0 → r_res (rep i) ≠ - ECANCELED →
          Forall (λ j, 0 ≤ r_res (rep j) ∨ r_res (rep j) = - ECANCELED) pre →
          collected r = Exn (SystemError (- r_res (rep i))))
      ∧ (∀ i, (i < kN)%nat → r_res (rep i) = - ECANCELED →
          (∀ j, (j < kN)%nat → 0 ≤ r_res (rep j) ∨ r_res (rep j) = - ECANCELED) →
          collected r = Undef).
Proof.
  intros Ha Ho. assert (Forall (λ i, (i < kN)%nat) order) as Hlt by (rewrite Ho; apply Forall_seq; lia).
  exists ((λ i, (i, reads rep i)) <$> order). split; [by apply arrivals_spec|].
  intros d s [k Hk]%rtc_nsteps Hstuck. destruct (nsteps_at d k s Hk) as (w & c & -> & Hc & _).
  destruct (settled_at d w c Hc Hstuck) as [-> ->]. exists (delivered d). split; [done|].
  assert (∀ vs, when_all ((λ i, (i, reads rep i)) <$> order) = SetValue vs → collected (delivered d) = Ret vs) as Hval.
  { intros vs E. unfold d. by rewrite E. }
  split; [|split].
  - intros Hpos.
    assert (collected (delivered d) = Ret ((λ i, to_i32 (read (fill (r_data (rep i)) (Examples.store 4 0)))) <$> seq 0 kN)) as E.
    { apply Hval, when_all_values. rewrite Ho, imap_fmap. apply reflexive_eq.
      unfold reads, kN. simpl. by rewrite !(proj2 (Z.leb_le _ _)) by (apply Hpos; unfold kN; lia). }
    split; [done|]. intros Hdata. rewrite E. split; [|done].
    unfold kN. simpl. rewrite (Hdata 0%nat 100), (Hdata 1%nat 200), (Hdata 2%nat 300), (Hdata 3%nat 400) by done.
    vm_compute. done.
  - intros pre i post -> Hn Hne Hpre. unfold d. rewrite fmap_app, fmap_cons.
    assert (reads rep i = SetError (SystemError (- r_res (rep i)))) as ->.
    { unfold reads. destruct (Z.leb_spec 0 (r_res (rep i))); [lia|]. simpl.
      destruct (Z.eqb_spec (- r_res (rep i)) ECANCELED); [lia|done]. }
    rewrite when_all_error; [done|]. apply Forall_fmap. eapply Forall_impl; [exact Hpre|].
    intros j Hj. by apply reads_error_free.
  - intros i Hi He Hall. unfold d. rewrite (when_all_stopped _ i); [done| |].
    + apply list_elem_of_fmap. exists i. split; [unfold reads; by rewrite He|]. rewrite Ho. apply elem_of_seq. lia.
    + apply Forall_fmap, Forall_forall. intros j Hj. apply reads_error_free, Hall.
      by eapply (proj1 (Forall_forall _ _)) in Hlt.
Qed.

(** A stop of the awaiting fiber does not reach what it awaits: a [run] started
    under the receiver of [sync_wait] makes no stop source and registers no
    callback, and its body runs without a stop token, whatever stops have been
    requested by then, those of the awaiting fiber included. *)
Theorem sync_wait_no_stop {L : Liburing} {P : Promise} {H : Type} {HC : CqeHandler H} {A}
    (fn : cxx (option (worker L H)) A) work (w : worker L H) :
  ∃ w1 : worker L H, start work (w, connect sync_wait_env) = (Ret (), (w1, connect (A := A) sync_wait_env))
    ∧ w_stops w1 = w_stops w
    ∧ ∀ w2 : worker L H, let w3 := set_fiber_stop None w2 in
        stop_requested (w_fiber_stop w3) w3 = false
        ∧ told (run_body fn (Some w2, connect sync_wait_env)).2.2 = option_list (completion_of (fn (Some w3)).1).
Proof.
  eexists. split; [reflexivity|]. split; [done|]. intros w2 w3. split; [done|].
  by rewrite (run_body_completion fn w2 (connect sync_wait_env)).
Qed.

(** ** Witnesses *)

Module FirstError.
(** a [when_all] that keeps the first error, then a stop, then the values *)
Definition first_error {A} (cs : list (nat * completion A)) : option exn :=
  head (omap (λ c, match c.2 with SetError e => Some e | _ => None end) cs).
Definition value_of {A} (cs : list (nat * completion A)) (i : nat) : option A :=
  head (omap (λ c, match c with (j, SetValue v) => if decide (i = j) then Some v else None | _ => None end) cs).

Definition is_stop {A} (c : nat * completion A) : bool := match c.2 with SetStopped => true | _ => false end.

#[export] Instance first_error_when_all : WhenAll := {|
  when_all A cs :=
    match first_error cs with
    | Some e => SetError e
    | None => if existsb is_stop cs then SetStopped else SetValue (omap (value_of cs) (seq 0 (length cs)))
    end |}.

Lemma first_error_none {A} (cs : list (nat * completion A)) :
  Forall (λ c, is_error c.2 = false) cs → first_error cs = None.
Proof. unfold first_error. induction 1 as [|[i []] cs Hc _ IH]; done. Qed.

Lemma value_of_perm {A} (cs : list (nat * completion A)) vs i v :
  cs ≡ₚ imap (λ i v, (i, SetValue v)) vs → vs !! i = Some v → value_of cs i = Some v.
Proof.
  intros Hp Hi.
  assert (∀ c, c ∈ cs → ∃ j u, c = (j, SetValue u) ∧ vs !! j = Some u) as Hin.
  { intros c Hc. rewrite Hp in Hc. apply elem_of_lookup_imap in Hc as (j & u & -> & Hj). by exists j, u. }
  assert ((i, SetValue v) ∈ cs) as Hv.
  { rewrite Hp. apply elem_of_lookup_imap. by exists i, v. }
  clear Hp. unfold value_of. induction cs as [|c cs IH]; [by apply not_elem_of_nil in Hv|].
  destruct (Hin c) as (j & u & -> & Hj); [by left|]. simpl.
  destruct (decide (i = j)) as [<-|Hne]; [simpl; congruence|].
  apply IH; [intros; apply Hin; by right|]. apply elem_of_cons in Hv as [Hv|Hv]; [congruence|done].
Qed.

Lemma omap_all {A} (f : nat → option A) vs k :
  (∀ i v, vs !! i = Some v → f (k + i)%nat = Some v) → omap f (seq k (length vs)) = vs.
Proof.
  revert k. induction vs as [|v vs IH]; intros k Hf; simpl; [done|].
  rewrite <-(Nat.add_0_r k) at 1. rewrite (Hf 0%nat v) by done. f_equal. apply IH.
  intros i u Hi. rewrite Nat.add_succ_comm. by apply Hf.
Qed.

#[export] Instance first_error_laws : WhenAllLaws first_error_when_all.
Proof.
  split; simpl.
  - intros A cs vs Hp.
    assert (∀ c, c ∈ cs → is_error c.2 = false ∧ is_stop c = false) as Hc.
    { intros c Hc. rewrite Hp in Hc. by apply elem_of_lookup_imap in Hc as (j & u & -> & _). }
    rewrite first_error_none by (apply Forall_forall; intros; by apply Hc).
    replace (existsb is_stop cs) with false.
    + f_equal. rewrite Hp at 2. rewrite length_imap. apply omap_all. intros i v. by apply value_of_perm.
    + symmetry. apply not_true_iff_false. intros (c & Hin & Hs)%existsb_exists.
      destruct (Hc c); [by apply list_elem_of_In|congruence].
  - intros A pre post i e Hpre. unfold first_error. rewrite omap_app.
    by replace (omap _ pre) with (@nil exn) by (induction Hpre as [|[j []] ? ? ? IH]; done).
  - intros A cs i Hi Hne. rewrite first_error_none by done.
    replace (existsb is_stop cs) with true; [done|]. symmetry. apply existsb_exists.
    exists (i, SetStopped). split; [by apply list_elem_of_In|done].
Qed.
End FirstError.

Section witnesses.
Import FirstError.

(** pair [i] delivers 100, 200, 300 and 400 *)
Definition hundreds (i : nat) : reply := Reply 4 (Examples.store 4 (100 * (Z.of_nat i + 1))).
Definition pair_kernel : Kernel :=
  {| answer _ c := Some match c with CRead fd _ => hundreds (Z.to_nat (index fd)) | _ => Reply 0 [] end |}.

(** the order in which the delays of the example let the writes happen *)
Definition by_delay : list nat := [1; 3; 2; 0]%nat.

(** the waiter suspends, the completion runs, the waiter returns *)
Definition sides : list side := replicate 4 Waiter ++ replicate 7 Completer ++ replicate 6 Waiter.
Definition gathered_all : SyncWait.st (list Z) := Eval vm_compute in
  default connected (SyncWait.exec_all (Value kValues) sides connected).

Lemma fanout_collects_witness :
  ∃ r, SyncWait.result gathered_all = Some r ∧ collected r = Ret kValues ∧ sum_ints kValues = Ret 1000.
Proof.
  destruct (fanout_collects first_error_when_all first_error_laws pair_kernel Z.of_nat hundreds by_delay [])
    as (cs & Ecs & Hs).
  - intros tr i _. cbn -[Examples.store]. by rewrite Nat2Z.id.
  - unfold by_delay, kN. simpl. solve_Permutation.
  - vm_compute in Ecs. injection Ecs as <-. destruct (Hs gathered_all) as (r & Hr & Hok & _).
    + apply rtc_nsteps. exists (length sides). apply exec_all_steps. vm_compute. reflexivity.
    + intros s' [[] Hm]; vm_compute in Hm; discriminate.
    + exists r. split; [exact Hr|]. apply Hok.
      * intros i _. simpl. lia.
      * intros i v Hi. do 4 (destruct i as [|i]; [by injection Hi as <-|]). done.
Defined.
End witnesses.
