(* ===== verification/RawLoop.v ===== *)
(** * RawLoop: the hand-written event loops of the benchmarks

    benchmarks/bench_echo.cpp, bench_latency.cpp and bench_delay.cpp compare the
    library with a plain io_uring event loop: one ring, one thread, and one heap
    object per connection, whose address is the user data of the one operation
    the connection has in flight; a sentinel address marks the accept.  The
    loops differ in what a connection does with a completion, which is a
    [machine]; the rest is the same.  What the kernel does is an input: any
    operation in flight may complete, with any result the call can have, and
    [new] may return any address that is not in use.

    Every iteration submits what it prepares, at most two entries, so
    [io_uring_get_sqe] on the rings of 256 and 4096 entries does not fail; the
    ring itself is reduced to the operations in flight.  bench_latency's
    [report_percentiles] is here as well. *)

From stdpp Require Import sorting.
From S2P Require Import Prelude Cxx Uring Io.

Local Open Scope Z_scope.

(** ** Connections *)

(** what a completion makes of a connection: another operation, or the end,
    with or without [::close(fd)] *)
Inductive reaction (C : Type) := Submit (c : C) (p : prep) | Drop (closing : bool).
Arguments Submit {C} c p.
Arguments Drop {C} closing.

Record machine := Machine {
  conn : Type;
  conn_fd : conn → Z;
  (** the object for a new descriptor, its buffer, and the first operation *)
  conn_new : Z → addr → conn * prep;
  (** the test for a receive in flight *)
  receiving : conn → bool;
  on_completion : conn → Z → reaction conn
}.

Definition MSG_WAITALL : Z := 256.
Definition MSG_NOSIGNAL : Z := 16384.

(** *** bench_echo.cpp *)

Definition kRoundTrips : Z := 100.
Definition kMsgSize : Z := 64.
Definition kMsgSizeBenchConns : Z := 10.

Record IoUringConn := Conn { fd : Z; rounds_left : Z; pending_recv : bool; buf : addr }.

Definition echo_recv (size : Z) (c : IoUringConn) : prep := PrepRecv (fd c) (buf c) size MSG_WAITALL.

Definition echo_machine (size : Z) : machine := {|
  conn := IoUringConn;
  conn_fd := fd;
  conn_new f b := let c := Conn f kRoundTrips true b in (c, echo_recv size c);
  receiving := pending_recv;
  on_completion c res :=
    if pending_recv c then
      if 0 <? res then Submit (Conn (fd c) (rounds_left c) false (buf c)) (PrepSend (fd c) (buf c) res MSG_NOSIGNAL)
      else Drop true
    else
      let r := rounds_left c - 1 in
      if 0 <? r then let c' := Conn (fd c) r true (buf c) in Submit c' (echo_recv size c')
      else Drop true |}.

(** *** bench_latency.cpp: a connection goes on until its client closes it *)

Definition kMsg : Z := 64.
Record LatencyConn := LConn { l_fd : Z; l_pending_recv : bool; l_buf : addr }.

Definition latency_recv (c : LatencyConn) : prep := PrepRecv (l_fd c) (l_buf c) kMsg MSG_WAITALL.

Definition latency_machine : machine := {|
  conn := LatencyConn;
  conn_fd := l_fd;
  conn_new f b := let c := LConn f true b in (c, latency_recv c);
  receiving := l_pending_recv;
  on_completion c res :=
    if l_pending_recv c then
      if 0 <? res then Submit (LConn (l_fd c) false (l_buf c)) (PrepSend (l_fd c) (l_buf c) res MSG_NOSIGNAL)
      else Drop true
    else let c' := LConn (l_fd c) true (l_buf c) in Submit c' (latency_recv c') |}.

(** *** bench_delay.cpp: a timeout between the receive and the send *)

Definition delay_round_trips : Z := 10.
Definition kDelayTs : timespec := Timespec 0 1000000.

Inductive delay_state := DRecv | DTimeout | DSend.
Record DelayConn := DConn { d_fd : Z; d_rounds_left : Z; d_state : delay_state; bytes_ready : Z; d_buf : addr }.

Definition delay_recv (c : DelayConn) : prep := PrepRecv (d_fd c) (d_buf c) kMsgSize MSG_WAITALL.

Definition delay_machine : machine := {|
  conn := DelayConn;
  conn_fd := d_fd;
  conn_new f b := let c := DConn f delay_round_trips DRecv 0 b in (c, delay_recv c);
  receiving c := if d_state c is DRecv then true else false;
  on_completion c res :=
    match d_state c with
    | DRecv =>
        if 0 <? res then Submit (DConn (d_fd c) (d_rounds_left c) DTimeout res (d_buf c)) (PrepTimeout kDelayTs 0 0)
        else Drop false
    | DTimeout =>
        Submit (DConn (d_fd c) (d_rounds_left c) DSend (bytes_ready c) (d_buf c))
          (PrepSend (d_fd c) (d_buf c) (bytes_ready c) MSG_NOSIGNAL)
    | DSend =>
        let r := d_rounds_left c - 1 in
        if 0 <? r then let c' := DConn (d_fd c) r DRecv (bytes_ready c) (d_buf c) in Submit c' (delay_recv c')
        else Drop true
    end |}.

(** ** The loop *)

(** the address of [g_accept_sentinel] *)
Definition sentinel : Z := 1.

(** what happened on a connection: the results of its receives and the lengths
    of the sends submitted, in order *)
Abbreviation talk := (list Z * list Z)%type.
Definition send_len (p : prep) : list Z := if p is PrepSend _ _ n _ then [n] else [].

Section loop.
Context (m : machine) (server_fd num_conns : Z).

Record loop := Loop {
  accepted : Z;
  closed : Z;
  heap : gmap Z (conn m);
  in_flight : list (Z * prep);   (** user data and operation *)
  opened : list Z;               (** every descriptor accepted *)
  closes : list Z;               (** every descriptor passed to [::close] *)
  talks : gmap Z talk;           (** of the live connections *)
  served : list (Z * talk)       (** of those that ended, with their descriptors *)
}.

Definition accept_op : Z * prep := (sentinel, PrepAccept server_fd 0 0 0).

(** before the loop: the first accept is submitted *)
Definition loop_init : loop :=
  {| accepted := 0; closed := 0; heap := ∅; in_flight := [accept_op]; opened := []; closes := [];
     talks := ∅; served := [] |}.

(** the body of the loop, for a completion with user data [ud] and result
    [res]; [a] and [b] are the addresses [new] returns for a connection and its
    buffer *)
Definition on_cqe (a b ud res : Z) : cxx loop () := λ s,
  if decide (ud = sentinel) then
    if 0 <=? res then
      let '(c, p) := conn_new m res b in
      (Ret (), {| accepted := accepted s + 1; closed := closed s; heap := <[a := c]> (heap s);
                  in_flight := in_flight s ++ (a, p) ::
                    (if accepted s + 1 <? num_conns then [accept_op] else []);
                  opened := opened s ++ [res]; closes := closes s;
                  talks := <[a := ([], [])]> (talks s); served := served s |})
    else (Ret (), s)
  else
    match heap s !! ud with
    | None => (Undef, s)
    | Some c =>
        match on_completion m c res with
        | Submit c' p =>
            (Ret (), {| accepted := accepted s; closed := closed s; heap := <[ud := c']> (heap s);
                        in_flight := in_flight s ++ [(ud, p)]; opened := opened s; closes := closes s;
                        talks := <[ud := ((talks s !!! ud).1 ++ (if receiving m c then [res] else []),
                                          (talks s !!! ud).2 ++ send_len p)]> (talks s);
                        served := served s |})
        | Drop closing =>
            (Ret (), {| accepted := accepted s; closed := closed s + 1; heap := delete ud (heap s);
                        in_flight := in_flight s; opened := opened s;
                        closes := closes s ++ (if closing then [conn_fd m c] else []);
                        talks := delete ud (talks s);
                        served := served s ++ [(conn_fd m c, talks s !!! ud)] |})
        end
    end.

Definition set_in_flight (l : list (Z * prep)) (s : loop) : loop :=
  {| accepted := accepted s; closed := closed s; heap := heap s; in_flight := l; opened := opened s;
     closes := closes s; talks := talks s; served := served s |}.

(** a result the kernel can give: no transfer is longer than was asked for; with
    [fine], no accept fails and no receive does or finds the connection closed *)
Definition can_complete (fine : bool) (p : prep) (res : Z) : Prop :=
  match p with
  | PrepAccept _ _ _ _ => fine = true → 0 ≤ res
  | PrepRecv _ _ len _ => res ≤ len ∧ (fine = true → 0 < res)
  | PrepSend _ _ len _ => res ≤ len
  | _ => True
  end.

(** [while (closed < num_conns)]: one of the operations in flight completes *)
Inductive step (fine : bool) (s s' : loop) : Prop :=
  | step_cqe l1 ud p l2 a b res :
      closed s < num_conns → in_flight s = l1 ++ (ud, p) :: l2 → can_complete fine p res →
      a ≠ sentinel → heap s !! a = None →
      on_cqe a b ud res (set_in_flight (l1 ++ l2) s) = (Ret (), s') → step fine s s'.
End loop.
Arguments Loop {m} accepted closed heap in_flight opened closes talks served.
Arguments accepted {m} l.
Arguments closed {m} l.
Arguments heap {m} l.
Arguments in_flight {m} l.
Arguments opened {m} l.
Arguments closes {m} l.
Arguments talks {m} l.
Arguments served {m} l.

(** the loops of the benchmarks *)
Definition BM_IoUringEchoServer (server_fd num_conns : Z) := step (echo_machine kMsgSize) server_fd num_conns.
Definition BM_IoUringEchoMsgSize (server_fd msg_size : Z) := step (echo_machine msg_size) server_fd kMsgSizeBenchConns.
Definition BM_IoUringEchoLatency (listener num_conns : Z) := step latency_machine listener num_conns.
Definition BM_IoUringEchoDelay (server_fd num_conns : Z) := step delay_machine server_fd num_conns.

(** ** What the loop relies on *)

(** [doing c p]: connection [c] has [p] in flight.  A connection keeps its
    descriptor, and what it submits belongs to its state. *)
Class MachineLaws (m : machine) := {
  doing : conn m → prep → Prop;
  new_doing f b : let '(c, p) := conn_new m f b in conn_fd m c = f ∧ doing c p;
  submit_doing c p res c' p' :
    doing c p → can_complete false p res → on_completion m c res = Submit c' p' →
    conn_fd m c' = conn_fd m c ∧ doing c' p'
}.

(** a machine of [R] rounds: [to_send c] sends are still to come, and at most
    [weight c] completions; [unsent c] is what was received and not yet sent
    back; what is in flight can complete *)
Class RoundsLaws (m : machine) (ML : MachineLaws m) (R W : nat) := {
  to_send : conn m → nat;
  weight : conn m → nat;
  unsent : conn m → list Z;
  new_rounds f b : to_send (conn_new m f b).1 = R ∧ weight (conn_new m f b).1 = W ∧ unsent (conn_new m f b).1 = [];
  can_go_on c p : doing c p → ∃ res, can_complete true p res;
  weight_pos c p : doing c p → (0 < weight c)%nat;
  submit_rounds c p res c' p' :
    doing c p → on_completion m c res = Submit c' p' →
    (weight c' < weight c)%nat ∧ to_send c = (length (send_len p') + to_send c')%nat
    ∧ unsent c ++ (if receiving m c then [res] else []) = send_len p' ++ unsent c';
  drop_unsent c p res b : doing c p → on_completion m c res = Drop b → unsent c = [];
  drop_rounds c p res b :
    doing c p → can_complete true p res → on_completion m c res = Drop b → to_send c = 0%nat ∧ b = true
}.

(** every end of a connection closes its descriptor *)
Definition always_closes (m : machine) : Prop := ∀ c res b, on_completion m c res = Drop b → b = true.

(** *** The machines *)

Ltac ltb_case := match goal with |- context [0 <? ?x] => destruct (Z.ltb_spec 0 x) end.

Definition echo_doing (size : Z) (c : IoUringConn) (p : prep) : Prop :=
  0 < rounds_left c
  ∧ if pending_recv c then p = echo_recv size c else ∃ n, 0 < n ≤ size ∧ p = PrepSend (fd c) (buf c) n MSG_NOSIGNAL.

#[export] Instance echo_laws size : MachineLaws (echo_machine size).
Proof.
  refine {| doing := echo_doing size : conn (echo_machine size) → _ |}.
  - intros f b. by split_and!.
  - intros [f r [] b] p res c' p' [Hr Hd] Hc; simpl in *; ltb_case; intros [= <- <-]; try done.
    subst p. destruct Hc as [Hc _]. split; [done|]. split; [done|]. by exists res.
Defined.

Definition echo_rounds size :
  0 < size → RoundsLaws (echo_machine size) (echo_laws size) (Z.to_nat kRoundTrips) (2 * Z.to_nat kRoundTrips).
Proof.
  intros Hsize.
  refine {|
    to_send := (λ c, if pending_recv c then Z.to_nat (rounds_left c) else Z.to_nat (rounds_left c - 1))
      : conn (echo_machine size) → _;
    weight := (λ c, 2 * Z.to_nat (rounds_left c) - if pending_recv c then 0 else 1)%nat
      : conn (echo_machine size) → _;
    unsent := λ _, [] |}.
  - done.
  - intros [f r [] b] p [Hr Hd]; simpl in *; [subst p; exists size; simpl; lia|].
    destruct Hd as (n & _ & ->). exists n. simpl. lia.
  - intros [f r [] b] p [Hr _]; simpl in *; lia.
  - intros [f r [] b] p res c' p' [Hr Hd]; simpl in *; ltb_case; intros [= <- <-]; simpl; split_and!; (done || lia).
  - done.
  - intros [f r [] b] p res d [Hr Hd] Hc; simpl in *; ltb_case; intros [= <-]; try done.
    + subst p. destruct Hc as [_ Hc]. specialize (Hc eq_refl). lia.
    + split; [lia|done].
Defined.

Lemma echo_closes size : always_closes (echo_machine size).
Proof. intros [f r [] b] res d; simpl; ltb_case; by intros [= <-]. Qed.

Definition latency_doing (c : LatencyConn) (p : prep) : Prop :=
  if l_pending_recv c then p = latency_recv c
  else ∃ n, 0 < n ≤ kMsg ∧ p = PrepSend (l_fd c) (l_buf c) n MSG_NOSIGNAL.

#[export] Instance latency_laws : MachineLaws latency_machine.
Proof.
  refine {| doing := latency_doing : conn latency_machine → _ |}.
  - intros f b. by split_and!.
  - intros [f [] b] p res c' p' Hd Hc; simpl in *; [|by intros [= <- <-]].
    destruct (Z.ltb_spec 0 res); intros [= <- <-]. unfold latency_doing in Hd. simpl in Hd. subst p.
    destruct Hc as [Hc _]. split; [done|]. by exists res.
Defined.

Lemma latency_closes : always_closes latency_machine.
Proof. intros [f [] b] res d; simpl; [destruct (Z.ltb_spec 0 res)|]; by intros [= <-]. Qed.

Definition delay_doing (c : DelayConn) (p : prep) : Prop :=
  0 < d_rounds_left c
  ∧ match d_state c with
    | DRecv => p = delay_recv c
    | DTimeout => p = PrepTimeout kDelayTs 0 0 ∧ 0 < bytes_ready c ≤ kMsgSize
    | DSend => p = PrepSend (d_fd c) (d_buf c) (bytes_ready c) MSG_NOSIGNAL ∧ 0 < bytes_ready c ≤ kMsgSize
    end.

#[export] Instance delay_laws : MachineLaws delay_machine.
Proof.
  refine {| doing := delay_doing : conn delay_machine → _ |}.
  - intros f b. by split_and!.
  - intros [f r [] n b] p res c' p' [Hr Hd] Hc; simpl in *.
    + destruct (Z.ltb_spec 0 res); intros [= <- <-]. subst p. destruct Hc as [Hc _]. by split_and!.
    + intros [= <- <-]. destruct Hd as [_ Hd]. by split_and!.
    + destruct (Z.ltb_spec 0 (r - 1)); intros [= <- <-]. by split_and!.
Defined.

#[export] Instance delay_rounds :
  RoundsLaws delay_machine delay_laws (Z.to_nat delay_round_trips) (3 * Z.to_nat delay_round_trips).
Proof.
  refine {|
    to_send := (λ c, if d_state c is DSend then Z.to_nat (d_rounds_left c - 1) else Z.to_nat (d_rounds_left c))
      : conn delay_machine → _;
    weight := (λ c, 3 * Z.to_nat (d_rounds_left c) - match d_state c with DRecv => 0 | DTimeout => 1 | DSend => 2 end)%nat
      : conn delay_machine → _;
    unsent := (λ c, if d_state c is DTimeout then [bytes_ready c] else []) : conn delay_machine → _ |}.
  - done.
  - intros [f r [] n b] p [Hr Hd]; simpl in *; [subst p; by exists 1|destruct Hd as [-> _]; by exists 0|].
    destruct Hd as [-> _]. exists n. simpl. lia.
  - intros [f r [] n b] p [Hr _]; simpl in *; lia.
  - intros [f r [] n b] p res c' p' [Hr Hd]; simpl in *;
      [destruct (Z.ltb_spec 0 res)| |destruct (Z.ltb_spec 0 (r - 1))]; intros [= <- <-]; simpl; split_and!; (done || lia).
  - by intros [f r [] n b] p res d.
  - intros [f r [] n b] p res d [Hr Hd] Hc; simpl in *;
      [destruct (Z.ltb_spec 0 res)| |destruct (Z.ltb_spec 0 (r - 1))]; intros [= <-]; try done.
    + subst p. destruct Hc as [_ Hc]. specialize (Hc eq_refl). lia.
    + split; [lia|done].
Defined.

(** ** Sums over the heap *)

Section heap.
Context {C : Type}.
Implicit Types (h : gmap Z C) (f : C → nat).

Definition total f h : nat := sum_list_with (λ ac, f ac.2) (map_to_list h).

Lemma total_fresh f h a c : h !! a = None → total f (<[a := c]> h) = (f c + total f h)%nat.
Proof. intros Ha. unfold total. by rewrite (sum_list_with_Permutation _ _ _ (map_to_list_insert _ _ _ Ha)). Qed.

Lemma total_delete f h a c : h !! a = Some c → total f h = (f c + total f (delete a h))%nat.
Proof. intros Ha. unfold total. by rewrite <-(sum_list_with_Permutation _ _ _ (map_to_list_delete _ _ _ Ha)). Qed.

Lemma total_insert f h a c c' : h !! a = Some c → (total f (<[a := c']> h) + f c = total f h + f c')%nat.
Proof.
  intros Ha. rewrite <-insert_delete_eq, total_fresh by apply lookup_delete_eq. rewrite (total_delete f h a c Ha). lia.
Qed.
End heap.

(** ** Invariant *)

Section theory.
Context {m : machine} {ML : MachineLaws m} (server_fd : Z).
Implicit Types s : loop m.

(** the descriptors of the live connections *)
Definition live (h : gmap Z (conn m)) : list Z := (λ ac, conn_fd m ac.2) <$> map_to_list h.

Lemma live_fresh h a c : h !! a = None → live (<[a := c]> h) ≡ₚ conn_fd m c :: live h.
Proof. intros Ha. unfold live. by rewrite map_to_list_insert. Qed.

Lemma live_delete h a c : h !! a = Some c → live h ≡ₚ conn_fd m c :: live (delete a h).
Proof. intros Ha. unfold live. by rewrite <-(map_to_list_delete _ _ _ Ha). Qed.

Lemma live_insert h a c c' : h !! a = Some c → conn_fd m c' = conn_fd m c → live (<[a := c']> h) ≡ₚ live h.
Proof.
  intros Ha Hf. rewrite <-insert_delete_eq, live_fresh by apply lookup_delete_eq. by rewrite Hf, <-live_delete.
Qed.

(** with the results [fine] allows, every connection that ends is closed *)
Definition closes_when (fine : bool) : Prop :=
  ∀ c p res b, doing c p → can_complete fine p res → on_completion m c res = Drop b → b = true.

(** every operation in flight is the accept or the one operation of a live
    connection, and every live connection has one *)
Record wired (h : gmap Z (conn m)) (l : list (Z * prep)) : Prop := {
  wired_once : NoDup l.*1;
  wired_op a p : (a, p) ∈ l → (a, p) = accept_op server_fd ∨ (a ≠ sentinel ∧ ∃ c, h !! a = Some c ∧ doing c p);
  wired_has a : is_Some (h !! a) → a ≠ sentinel ∧ a ∈ l.*1
}.

Lemma wired_remove h l1 a p l2 :
  wired h (l1 ++ (a, p) :: l2) → wired (delete a h) (l1 ++ l2) ∧ (a ∉ (l1 ++ l2).*1).
Proof using Type.
  intros [Hn Hop Hh].
  assert ((l1 ++ (a, p) :: l2).*1 ≡ₚ a :: (l1 ++ l2).*1) as Hp
    by (rewrite !fmap_app; simpl; symmetry; apply Permutation_middle).
  rewrite Hp in Hn. apply NoDup_cons in Hn as [Ha Hn]. split; [|done]. split; [done| |].
  - intros x q Hx. assert (x ≠ a) as Hne by (intros ->; apply Ha, list_elem_of_fmap; by exists (a, q)).
    destruct (Hop x q) as [?|(? & c & ? & ?)]; [set_solver|by left|right]. split; [done|]. exists c.
    by rewrite lookup_delete_ne by done.
  - intros x Hx. assert (x ≠ a) as Hne by (intros ->; rewrite lookup_delete_eq in Hx; by destruct Hx).
    rewrite lookup_delete_ne in Hx by done. destruct (Hh x Hx) as [? Hin]. rewrite Hp in Hin. set_solver.
Qed.

Lemma wired_add h l a c p :
  wired h l → a ≠ sentinel → h !! a = None → doing c p → wired (<[a := c]> h) (l ++ [(a, p)]).
Proof using Type.
  intros [Hn Hop Hh] Hs Ha Hd.
  assert (a ∉ l.*1) as Hnew.
  { intros ([a' q] & -> & Hin)%list_elem_of_fmap. destruct (Hop _ _ Hin) as [[= ? ?]|(_ & c' & Hc' & _)]; simpl in *; congruence. }
  split.
  - rewrite fmap_app. apply NoDup_app. split; [done|]. split; [set_solver|apply NoDup_singleton].
  - intros x q [Hx|[= -> ->]%list_elem_of_singleton]%elem_of_app; [|right; split; [done|]; exists c; by rewrite lookup_insert_eq].
    assert (x ≠ a) as Hne by (intros ->; apply Hnew, list_elem_of_fmap; by exists (a, q)).
    destruct (Hop x q Hx) as [?|(? & c' & ? & ?)]; [by left|right]. split; [done|]. exists c'. by rewrite lookup_insert_ne.
  - intros x Hx. rewrite fmap_app. destruct (decide (x = a)) as [->|Hne]; [set_solver|].
    rewrite lookup_insert_ne in Hx by done. destruct (Hh x Hx). set_solver.
Qed.

Lemma wired_arm h l : wired h l → (sentinel ∉ l.*1) → wired h (l ++ [accept_op server_fd]).
Proof using Type.
  intros [Hn Hop Hh] Hs. split.
  - rewrite fmap_app. apply NoDup_app. split; [done|]. split; [set_solver|apply NoDup_singleton].
  - intros x q [Hx|Hx%list_elem_of_singleton]%elem_of_app; [by apply Hop|by left].
  - intros x Hx. rewrite fmap_app. destruct (Hh x Hx). set_solver.
Qed.

Lemma wired_sentinel h l : wired h l → h !! sentinel = None.
Proof using Type. intros Hw. apply eq_None_not_Some. intros Hs. by destruct (wired_has _ _ Hw sentinel Hs). Qed.

Context (num_conns : Z) (num_pos : 0 < num_conns).
Abbreviation step := (step m server_fd num_conns).

Record inv (fine : bool) s : Prop := {
  inv_wired : wired (heap s) (in_flight s);
  inv_more : sentinel ∈ (in_flight s).*1 → accepted s < num_conns;
  inv_armed : fine = true → accepted s < num_conns → sentinel ∈ (in_flight s).*1;
  inv_accepted : accepted s = Z.of_nat (length (opened s)) ∧ accepted s ≤ num_conns;
  inv_closed : closed s + Z.of_nat (size (heap s)) = accepted s;
  inv_fds : closes_when fine → opened s ≡ₚ closes s ++ live (heap s);
  inv_served : opened s ≡ₚ (served s).*1 ++ live (heap s)
}.

Lemma loop_inv_init fine : inv fine (loop_init m server_fd).
Proof using num_pos.
  split; simpl; try done; [|set_solver|lia].
  split; simpl.
  - apply NoDup_singleton.
  - intros a p ->%list_elem_of_singleton. by left.
  - intros a. rewrite lookup_empty. by intros [].
Qed.

(** the ways an iteration goes *)
Inductive moves (fine : bool) s s' : Prop :=
  | moved_accept l1 l2 a b fd :
      in_flight s = l1 ++ accept_op server_fd :: l2 → accepted s < num_conns → a ≠ sentinel → heap s !! a = None →
      s' = Loop (accepted s + 1) (closed s) (<[a := (conn_new m fd b).1]> (heap s))
        ((l1 ++ l2) ++ (a, (conn_new m fd b).2) :: (if accepted s + 1 <? num_conns then [accept_op server_fd] else []))
        (opened s ++ [fd]) (closes s) (<[a := ([], [])]> (talks s)) (served s) → moves fine s s'
  | moved_refused l1 l2 :
      fine = false → in_flight s = l1 ++ accept_op server_fd :: l2 → accepted s < num_conns →
      s' = set_in_flight m (l1 ++ l2) s → moves fine s s'
  | moved_submit l1 l2 a p c res c' p' :
      in_flight s = l1 ++ (a, p) :: l2 → a ≠ sentinel → heap s !! a = Some c → doing c p → can_complete fine p res →
      on_completion m c res = Submit c' p' → conn_fd m c' = conn_fd m c → doing c' p' →
      s' = Loop (accepted s) (closed s) (<[a := c']> (heap s)) ((l1 ++ l2) ++ [(a, p')]) (opened s) (closes s)
        (<[a := ((talks s !!! a).1 ++ (if receiving m c then [res] else []), (talks s !!! a).2 ++ send_len p')]> (talks s))
        (served s) → moves fine s s'
  | moved_drop l1 l2 a p c res b :
      in_flight s = l1 ++ (a, p) :: l2 → a ≠ sentinel → heap s !! a = Some c → doing c p → can_complete fine p res →
      on_completion m c res = Drop b →
      s' = Loop (accepted s) (closed s + 1) (delete a (heap s)) (l1 ++ l2) (opened s)
        (closes s ++ if b then [conn_fd m c] else []) (delete a (talks s)) (served s ++ [(conn_fd m c, talks s !!! a)]) → moves fine s s'.

Lemma step_moves fine s s' : inv fine s → step fine s s' → moves fine s s'.
Proof using num_pos.
  intros Hinv [l1 ud p l2 a b res _ Hfl Hc Ha Hfr E].
  assert ((ud, p) ∈ in_flight s) as Hin by (rewrite Hfl; set_solver).
  unfold on_cqe in E. simpl in E. destruct (wired_op _ _ (inv_wired _ _ Hinv) _ _ Hin) as [Hop|(Hne & c & Hh & Hd)].
  - assert (accepted s < num_conns) as Hlt
      by (apply (inv_more _ _ Hinv), list_elem_of_fmap; exists (ud, p); split; [by injection Hop as -> _|done]).
    injection Hop as -> ->. rewrite decide_True in E by done. destruct (Z.leb_spec 0 res).
    + eapply (moved_accept _ _ _ l1 l2 a b res); try done. destruct (conn_new m res b). by injection E as <-.
    + eapply (moved_refused _ _ _ l1 l2); try done; [|by injection E as <-].
      destruct fine; [|done]. specialize (Hc eq_refl). lia.
  - rewrite decide_False, Hh in E by done. destruct (on_completion m c res) as [c' p'|d] eqn:Hr; injection E as <-.
    + assert (can_complete false p res) as Hcf by (destruct p; simpl in *; naive_solver).
      destruct (submit_doing c p res c' p' Hd Hcf Hr). by eapply (moved_submit _ _ _ l1 l2 ud p).
    + by eapply (moved_drop _ _ _ l1 l2 ud p).
Qed.

(** where the accept is once another operation has completed *)
Lemma sentinel_other (l1 l2 : list (Z * prep)) a p :
  a ≠ sentinel → sentinel ∈ (l1 ++ (a, p) :: l2).*1 ↔ sentinel ∈ (l1 ++ l2).*1.
Proof. rewrite !fmap_app. simpl. set_solver. Qed.

Lemma loop_inv_step fine s s' : inv fine s → step fine s s' → inv fine s'.
Proof using num_pos.
  intros Hinv Hst. destruct (step_moves _ _ _ Hinv Hst)
    as [l1 l2 a b f Hfl Hlt Hne Hfr ->|l1 l2 -> Hfl Hlt ->|l1 l2 a p c res c' p' Hfl Hne Hh Hd Hc Hr Hcf Hd' ->
       |l1 l2 a p c res d Hfl Hne Hh Hd Hc Hr ->];
    destruct Hinv as [Hw Hm Har [Ha Hle] Hcl Hf Hsv]; pose proof (wired_sentinel _ _ Hw); rewrite Hfl in Hw, Hm, Har;
    apply wired_remove in Hw as [Hw Hs].
  - rewrite delete_id in Hw by done. pose proof (new_doing (m := m) f b) as Hnew.
    destruct (conn_new m f b) as [c p]. destruct Hnew as [Hcf Hd].
    pose proof (wired_add _ _ _ _ _ Hw Hne Hfr Hd) as Hw'.
    assert (sentinel ∉ ((l1 ++ l2) ++ [(a, p)]).*1) as Hs' by (rewrite fmap_app; set_solver).
    split; simpl.
    + destruct (accepted s + 1 <? num_conns); [|done]. rewrite cons_middle, app_assoc. by apply wired_arm.
    + destruct (Z.ltb_spec (accepted s + 1) num_conns); [done|]. by intros ?.
    + intros _ Hlt'. destruct (Z.ltb_spec (accepted s + 1) num_conns); [|lia]. rewrite fmap_app. simpl. set_solver.
    + rewrite length_app. simpl. lia.
    + rewrite map_size_insert_None by done. lia.
    + intros Hcw. rewrite live_fresh by done. rewrite (Hf Hcw), Hcf. solve_Permutation.
    + rewrite live_fresh, Hsv, Hcf by done. solve_Permutation.
  - rewrite delete_id in Hw by done. by split.
  - rewrite sentinel_other in Hm, Har by done.
    pose proof (wired_add _ _ _ _ _ Hw Hne (lookup_delete_eq _ _) Hd') as Hw'. rewrite insert_delete_eq in Hw'.
    assert (sentinel ∈ ((l1 ++ l2) ++ [(a, p')]).*1 ↔ sentinel ∈ (l1 ++ l2).*1) as Hiff by (rewrite (fmap_app _ (l1 ++ l2)); set_solver).
    split; simpl; rewrite ?Hiff; try done.
    + rewrite map_size_insert_Some by done. lia.
    + intros Hcw. by rewrite live_insert, (Hf Hcw).
    + by rewrite live_insert, Hsv.
  - rewrite sentinel_other in Hm, Har by done. split; simpl; try done.
    + rewrite map_size_delete, Hh. simpl. assert (size (heap s) ≠ 0%nat) by (by eapply map_size_ne_0_lookup_2). lia.
    + intros Hcw. rewrite (Hf Hcw), (live_delete _ _ _ Hh), (Hcw _ _ _ _ Hd Hc Hr). solve_Permutation.
    + rewrite Hsv, (live_delete _ _ _ Hh), fmap_app. simpl. solve_Permutation.
Qed.

Lemma loop_inv_run fine s s' : inv fine s → rtc (step fine) s s' → inv fine s'.
Proof using num_pos. intros Hi. induction 1; eauto using loop_inv_step. Qed.

(** the loop has ended: nothing is left *)
Lemma loop_over fine s :
  inv fine s → closed s = num_conns →
  heap s = ∅ ∧ in_flight s = [] ∧ accepted s = num_conns ∧ (closes_when fine → closes s ≡ₚ opened s)
  ∧ (served s).*1 ≡ₚ opened s.
Proof using Type.
  intros [Hw Hm _ [_ Hle] Hc Hf Hsv] Hn. assert (heap s = ∅) as He by (apply map_size_empty_inv; lia).
  split; [done|]. split; [|split; [lia|split]].
  - destruct (in_flight s) as [|[a p] l] eqn:Hl; [done|exfalso].
    destruct (wired_op _ _ Hw a p) as [[= -> ->]|(_ & c & Hh & _)]; [by left| |by rewrite He, lookup_empty in Hh].
    assert (accepted s < num_conns) by (apply Hm; by left). lia.
  - intros Hcw. rewrite (Hf Hcw), He. unfold live. by rewrite map_to_list_empty, app_nil_r.
  - rewrite Hsv, He. unfold live. by rewrite map_to_list_empty, app_nil_r.
Qed.

(** a completion of an operation in flight is always handled *)
Lemma completion_handled fine s l a b ud p res :
  inv fine s → (ud, p) ∈ in_flight s → ∃ s', on_cqe m server_fd num_conns a b ud res (set_in_flight m l s) = (Ret (), s').
Proof using Type.
  intros [Hw _ _ _ _ _ _] Hin. unfold on_cqe. simpl.
  destruct (wired_op _ _ Hw ud p Hin) as [[= -> ->]|(Hne & c & Hh & _)].
  - rewrite decide_True by done. destruct (0 <=? res); [|by eexists]. destruct (conn_new m res b). by eexists.
  - rewrite decide_False, Hh by done. destruct (on_completion m c res); by eexists.
Qed.

(** *** Machines with a number of rounds *)

Section rounds.
Context {R W : nat} {RL : RoundsLaws m ML R W}.

Definition loop_weight s : nat :=
  (Z.to_nat (num_conns - accepted s) * (W + 1) + total weight (heap s)
   + if decide (sentinel ∈ (in_flight s).*1) then 1 else 0)%nat.

Lemma loop_step_weight fine s s' : inv fine s → step fine s s' → (loop_weight s' < loop_weight s)%nat.
Proof using num_pos.
  intros Hinv Hst. destruct (step_moves _ _ _ Hinv Hst)
    as [l1 l2 a b f Hfl Hlt Hne Hfr ->|l1 l2 -> Hfl Hlt ->|l1 l2 a p c res c' p' Hfl Hne Hh Hd Hc Hr Hcf Hd' ->
       |l1 l2 a p c res d Hfl Hne Hh Hd Hc Hr ->]; unfold loop_weight; simpl; rewrite Hfl.
  - rewrite total_fresh by done. destruct (new_rounds (m := m) f b) as (_ & -> & _).
    rewrite (decide_True (P := sentinel ∈ (l1 ++ accept_op server_fd :: l2).*1)) by (rewrite fmap_app; simpl; set_solver).
    replace (Z.to_nat (num_conns - accepted s)) with (S (Z.to_nat (num_conns - (accepted s + 1)))) by lia.
    case_decide; lia.
  - rewrite (decide_True (P := sentinel ∈ (l1 ++ accept_op server_fd :: l2).*1)) by (rewrite fmap_app; simpl; set_solver).
    pose proof (inv_wired _ _ Hinv) as Hw. rewrite Hfl in Hw. apply wired_remove in Hw as [_ Hs].
    rewrite decide_False by done. lia.
  - destruct (submit_rounds c p res c' p' Hd Hr) as (Hlt & _). pose proof (total_insert weight _ _ _ c' Hh).
    assert (sentinel ∈ ((l1 ++ l2) ++ [(a, p')]).*1 ↔ sentinel ∈ (l1 ++ (a, p) :: l2).*1) as Hiff
      by (rewrite !fmap_app; simpl; set_solver).
    rewrite (decide_ext _ _ _ _ Hiff). lia.
  - pose proof (total_delete weight _ _ _ Hh). rewrite (decide_ext _ _ _ _ (sentinel_other l1 l2 a p Hne)).
    pose proof (weight_pos c p Hd). case_decide; lia.
Qed.

Lemma rounds_close : closes_when true.
Proof using RL. intros c p res b Hd Hc Hr. by destruct (drop_rounds c p res b Hd Hc Hr). Qed.

(** what a live connection has received was sent back or is about to be, and
    the sends so far and those to come are [R]; one that has ended sent back all
    it received, and [R] times if nothing failed *)
Definition talked (c : conn m) (t : talk) : Prop :=
  t.1 = t.2 ++ unsent c ∧ (length t.2 + to_send c = R)%nat.
Definition echoed (fine : bool) (t : talk) : Prop :=
  t.1 = t.2 ∧ (length t.2 ≤ R)%nat ∧ (fine = true → length t.2 = R).
Definition talks_ok (fine : bool) s : Prop :=
  (∀ a c, heap s !! a = Some c → talked c (talks s !!! a)) ∧ Forall (echoed fine) (served s).*2.

Lemma talks_step fine s s' : inv fine s → step fine s s' → talks_ok fine s → talks_ok fine s'.
Proof using num_pos.
  intros Hinv Hst [Ht He]. destruct (step_moves _ _ _ Hinv Hst)
    as [l1 l2 a b f Hfl Hlt Hne Hfr ->|l1 l2 -> Hfl Hlt ->|l1 l2 a p c res c' p' Hfl Hne Hh Hd Hc Hr Hcf Hd' ->
       |l1 l2 a p c res d Hfl Hne Hh Hd Hc Hr ->]; split; cbn [heap talks served]; try done.
  - intros x y Hx. destruct (decide (x = a)) as [->|Hxa].
    + rewrite lookup_insert_eq in Hx. injection Hx as <-. rewrite lookup_total_insert_eq.
      destruct (new_rounds (m := m) f b) as (Hs & _ & Hu). split; simpl; [by rewrite Hu|by rewrite Hs].
    + rewrite lookup_insert_ne in Hx by done. rewrite lookup_total_insert_ne by done. by apply Ht.
  - intros x y Hx. destruct (decide (x = a)) as [->|Hxa].
    + rewrite lookup_insert_eq in Hx. injection Hx as <-. rewrite lookup_total_insert_eq.
      destruct (submit_rounds c p res c' p' Hd Hr) as (_ & Hs & Hu). destruct (Ht _ _ Hh) as [Hg Hl].
      split; cbn [fst snd]; [by rewrite Hg, <-!app_assoc, Hu|]. rewrite length_app. lia.
    + rewrite lookup_insert_ne in Hx by done. rewrite lookup_total_insert_ne by done. by apply Ht.
  - intros x y [Hxa Hx]%lookup_delete_Some. rewrite lookup_total_delete_ne by done. by apply Ht.
  - rewrite fmap_app. apply Forall_app. split; [done|]. apply Forall_singleton.
    change (echoed fine (talks s !!! a)).
    destruct (Ht _ _ Hh) as [Hg Hl]. rewrite (drop_unsent c p res d Hd Hr), app_nil_r in Hg.
    split; [done|]. split; [lia|]. intros ->. destruct (drop_rounds c p res d Hd Hc Hr) as [Hs _]. lia.
Qed.

Lemma talks_run fine s :
  rtc (step fine) (loop_init m server_fd) s → inv fine s ∧ talks_ok fine s.
Proof using num_pos.
  assert (talks_ok fine (loop_init m server_fd)) as H0 by (split; [intros a c; simpl; by rewrite lookup_empty|constructor]).
  pose proof (loop_inv_init fine) as Hi. intros Hrun.
  induction Hrun as [|s1 s2 s3 Hst _ IH]; [done|]. apply IH; [by eapply talks_step|by eapply loop_inv_step].
Qed.

Lemma loop_run fine k s s' :
  inv fine s → nsteps (step fine) k s s' → inv fine s' ∧ (k + loop_weight s' ≤ loop_weight s)%nat.
Proof using num_pos.
  apply weighted_run. intros. split; [by eapply loop_inv_step|by eapply loop_step_weight].
Qed.

(** while the loop goes on, something is in flight and can complete *)
Lemma stuck_closed s : inv true s → (∀ s', ¬ step true s s') → closed s = num_conns.
Proof using RL num_pos.
  intros Hinv Hstuck. pose proof Hinv as [Hw _ Har [_ Hle] Hc _ _].
  destruct (decide (closed s = num_conns)) as [|Hne]; [done|exfalso].
  destruct (in_flight s) as [|[ud p] l] eqn:Hl.
  - assert (heap s = ∅) as He.
    { apply map_empty. intros a. apply eq_None_not_Some. intros Ha. destruct (wired_has _ _ Hw a Ha) as [_ Hin]. set_solver. }
    rewrite He, map_size_empty in Hc. assert (sentinel ∈ ([] : list (Z * prep)).*1) by (apply Har; [done|lia]). set_solver.
  - assert ((ud, p) ∈ in_flight s) as Hin by (rewrite Hl; by left).
    assert (∃ res, can_complete true p res) as [res Hres].
    { rewrite Hl in Hin. destruct (wired_op _ _ Hw _ _ Hin) as [[= -> ->]|(_ & c & _ & Hd)]; [by exists 0|by eapply can_go_on]. }
    destruct (completion_handled true s l (fresh ({[sentinel]} ∪ dom (heap s))) 0 ud p res Hinv Hin) as [s' E].
    pose proof (is_fresh ({[sentinel]} ∪ dom (heap s) : gset Z)) as Hf.
    eapply Hstuck, (step_cqe _ _ _ _ _ _ [] ud p l _ 0 res); [lia|done|done| | |exact E]; [set_solver|].
    apply not_elem_of_dom. set_solver.
Qed.
End rounds.
End theory.

(** ** Properties *)

(** The hand-written event loop is memory safe, and leaks nothing it
    closes.  However the kernel completes what is in flight, the user data of a
    completion is the sentinel or the address of a live connection, so its
    handling is defined; a live connection has exactly one operation in flight,
    on its own descriptor and buffer; if the machine closes every connection it
    drops, each accepted descriptor is held by a live connection or was closed,
    once; and when the loop ends there is no connection and no operation left. *)
Theorem raw_loop_safe (m : machine) (ML : MachineLaws m) server_fd num_conns s :
  0 < num_conns → rtc (step m server_fd num_conns false) (loop_init m server_fd) s →
  NoDup (in_flight s).*1
  ∧ (∀ ud p l a b res, (ud, p) ∈ in_flight s →
       ∃ s', on_cqe m server_fd num_conns a b ud res (set_in_flight m l s) = (Ret (), s'))
  ∧ (∀ a c, heap s !! a = Some c → ∃ p, (a, p) ∈ in_flight s ∧ doing c p)
  ∧ (always_closes m → opened s ≡ₚ closes s ++ live (heap s))
  ∧ (closed s = num_conns →
       heap s = ∅ ∧ in_flight s = [] ∧ (always_closes m → closes s ≡ₚ opened s)).
Proof.
  intros Hn Hrun. pose proof (loop_inv_run server_fd num_conns Hn _ _ _ (loop_inv_init server_fd num_conns Hn false) Hrun) as Hinv.
  assert (always_closes m → closes_when (m := m) false) as Hcw by (intros Hc c p res b _ _; apply Hc).
  pose proof (inv_wired _ _ _ _ Hinv) as Hw. split; [by apply (wired_once _ _ _ Hw)|].
  split; [intros ud p l a b res; by apply (completion_handled _ _ _ _ _ _ _ _ _ _ Hinv)|]. split.
  { intros a c Hh. destruct (wired_has _ _ _ Hw a) as [Ha ([a' p] & -> & Hin)%list_elem_of_fmap]; [by eexists|].
    destruct (wired_op _ _ _ Hw _ _ Hin) as [[= ? ?]|(_ & c' & Hc' & Hd)]; [done|]. exists p. split; [done|]. simpl in *.
    by rewrite Hh in Hc'; injection Hc' as ->. }
  split; [intros Hc; by apply (inv_fds _ _ _ _ Hinv), Hcw|].
  intros Hend. destruct (loop_over _ _ _ _ Hinv Hend) as (He & Hi & _ & Hcl & _). auto.
Qed.

(** a loop of [R] rounds ends, having served everyone *)
Definition serves {m : machine} (st : bool → loop m → loop m → Prop) (server_fd num_conns : Z) (R W : nat) : Prop :=
  ∀ s k,
    (nsteps (st false) k (loop_init m server_fd) s →
       (k ≤ Z.to_nat num_conns * (W + 1) + 1)%nat ∧ Forall (λ t, t.1 = t.2 ∧ (length t.2 ≤ R)%nat) (served s).*2)
    ∧ (rtc (st true) (loop_init m server_fd) s → (∀ s', ¬ st true s s') →
       closed s = num_conns ∧ heap s = ∅ ∧ in_flight s = [] ∧ Z.of_nat (length (opened s)) = num_conns
       ∧ closes s ≡ₚ opened s ∧ (served s).*1 ≡ₚ opened s
       ∧ Forall (λ t, t.1 = t.2 ∧ length t.2 = R) (served s).*2).

Lemma raw_loop_serves (m : machine) (ML : MachineLaws m) (R W : nat) (RL : RoundsLaws m ML R W) server_fd num_conns :
  0 < num_conns → serves (step m server_fd num_conns) server_fd num_conns R W.
Proof.
  intros Hn s k. split.
  - intros Hk. destruct (loop_run server_fd num_conns Hn false k _ s (loop_inv_init server_fd num_conns Hn false) Hk) as [_ Hw].
    unfold loop_weight at 2 in Hw. simpl in Hw.
    unfold total in Hw. rewrite map_to_list_empty in Hw. simpl in Hw. rewrite Z.sub_0_r in Hw. split; [lia|].
    destruct (talks_run server_fd num_conns Hn false s) as (_ & _ & He); [apply rtc_nsteps; by exists k|].
    eapply Forall_impl; [exact He|]. by intros t (? & ? & _).
  - intros Hrun Hstuck. destruct (talks_run server_fd num_conns Hn true s Hrun) as (Hinv & _ & Ht).
    assert (closed s = num_conns) as Hend by (by apply (stuck_closed server_fd num_conns Hn)).
    destruct (loop_over _ _ _ _ Hinv Hend) as (He & Hi & Ha & Hcl & Hsv). pose proof (inv_accepted _ _ _ _ Hinv) as [Hlen _].
    split; [done|]. split; [done|]. split; [done|]. split; [lia|]. split; [apply Hcl, rounds_close|]. split; [done|].
    eapply Forall_impl; [exact Ht|]. intros t (? & _ & ?). auto.
Qed.

(** C40: the hand-written echo servers of the benchmarks serve everyone and end.
    Whatever completes in whatever order and with whatever result, the loop of
    bench_echo.cpp handles at most 201 completions per connection and one more,
    that of bench_delay.cpp 31 and one more; and on every connection that has
    ended, the sends submitted were one for each message received, in order and
    of its length, and no more than 100 (10 in bench_delay.cpp).  If no accept
    fails and no client closes early, a state in which nothing more can complete
    is the end of the loop: exactly [num_conns] connections were accepted, on
    each exactly 100 (10) messages were received and as many sends submitted,
    every descriptor was closed once, and no connection object and no operation
    is left.  How a send ends is not looked at by the loops, and is not
    restricted here. *)
Theorem raw_servers_end server_fd num_conns msg_size :
  0 < num_conns → 0 < msg_size →
  serves (BM_IoUringEchoServer server_fd num_conns) server_fd num_conns 100 200
  ∧ serves (BM_IoUringEchoMsgSize server_fd msg_size) server_fd 10 100 200
  ∧ serves (BM_IoUringEchoDelay server_fd num_conns) server_fd num_conns 10 30.
Proof.
  intros Hn Hs. split; [|split].
  - exact (raw_loop_serves _ _ _ _ (echo_rounds kMsgSize eq_refl) server_fd num_conns Hn).
  - exact (raw_loop_serves _ _ _ _ (echo_rounds msg_size Hs) server_fd 10 eq_refl).
  - exact (raw_loop_serves _ _ _ _ delay_rounds server_fd num_conns Hn).
Qed.

(** A failed accept hangs a hand-written loop.  The accept is armed again only
    after a connection; once one has failed before all have come, no more are
    accepted, [closed] stays below [num_conns] whatever else completes, and the
    loop waits for ever. *)
Theorem raw_accept_error_hangs (m : machine) (ML : MachineLaws m) server_fd num_conns s s' :
  0 < num_conns → rtc (step m server_fd num_conns false) (loop_init m server_fd) s →
  accepted s < num_conns → (sentinel ∉ (in_flight s).*1) →
  rtc (step m server_fd num_conns false) s s' →
  accepted s' = accepted s ∧ closed s' < num_conns.
Proof.
  intros Hn Hrun Hlt Hs Hrun'.
  pose proof (loop_inv_run server_fd num_conns Hn _ _ _ (loop_inv_init server_fd num_conns Hn false) Hrun) as Hinv. clear Hrun.
  assert (inv server_fd num_conns false s' ∧ accepted s' = accepted s) as [Hinv' Ha].
  { induction Hrun' as [|s1 s2 s3 Hst _ IH]; [done|].
    assert (accepted s2 = accepted s1 ∧ (sentinel ∉ (in_flight s2).*1)) as [Ha2 Hs2].
    { destruct (step_moves _ _ Hn _ _ _ Hinv Hst) as [l1 l2 ? ? ? Hfl _ _ _ _|l1 l2 _ Hfl _ _
        |l1 l2 a p c res c' p' Hfl Hne _ _ _ _ _ _ ->|l1 l2 a p c res d Hfl Hne _ _ _ _ ->]; rewrite Hfl in Hs.
      - destruct Hs. rewrite fmap_app. simpl. set_solver.
      - destruct Hs. rewrite fmap_app. simpl. set_solver.
      - split; [done|]. simpl. rewrite sentinel_other in Hs by done. rewrite fmap_app. set_solver.
      - split; [done|]. simpl. by rewrite sentinel_other in Hs. }
    destruct IH as [? ?]; [lia|done|by eapply loop_inv_step|]. split; [done|congruence]. }
  split; [done|]. pose proof (inv_closed _ _ _ _ Hinv'). lia.
Qed.

(** bench_delay.cpp leaks the descriptor of a client that disconnects.  When a
    receive ends with nothing or an error, its loop deletes the connection and
    counts it as closed without closing its descriptor; bench_echo.cpp and
    bench_latency.cpp close it there. *)
Theorem delay_disconnect_leaks server_fd f a (b : addr) res :
  0 ≤ f → a ≠ sentinel → res ≤ 0 →
  ∃ s, nsteps (step delay_machine server_fd 1 false) 2 (loop_init delay_machine server_fd) s
    ∧ closed s = 1 ∧ in_flight s = [] ∧ opened s = [f] ∧ closes s = [].
Proof.
  intros Hf Ha Hres.
  set (c := DConn f delay_round_trips DRecv 0 b).
  set (s1 := @Loop delay_machine 1 0 {[ a := c ]} [(a, delay_recv c)] [f] [] {[ a := ([], []) ]} []).
  exists (@Loop delay_machine 1 1 ∅ [] [f] [] ∅ [(f, ([], []))]). split; [|done].
  eapply (nsteps_l _ _ _ s1); [|eapply nsteps_once].
  - eapply (step_cqe _ _ _ _ _ _ [] sentinel (PrepAccept server_fd 0 0 0) [] a b f); [done|done|done|done|done|].
    unfold on_cqe. simpl. rewrite (proj2 (Z.leb_le 0 f)) by done. by rewrite insert_empty.
  - pose proof (is_fresh ({[sentinel; a]} : gset Z)) as Hfr.
    eapply (step_cqe _ _ _ _ _ _ [] a (delay_recv c) [] (fresh ({[sentinel; a]} : gset Z)) b res); [done|done| |set_solver| |].
    + split; [unfold kMsgSize; lia|done].
    + apply lookup_singleton_ne. set_solver.
    + unfold on_cqe. simpl. rewrite decide_False, lookup_singleton_eq by done. simpl.
      destruct (Z.ltb_spec 0 res); [lia|]. by rewrite !delete_singleton_eq, lookup_total_singleton_eq.
Qed.

(** ** Percentiles *)

(** [report_percentiles]: the samples at p50, p99 and p999; the arithmetic on
    [std::size_t] wraps *)
Definition to_u64 (z : Z) : Z := z mod 2 ^ 64.
Definition percentiles (lat : list Z) : option (Z * Z * Z) :=
  let lat := merge_sort Z.le lat in
  let n := Z.of_nat (length lat) in
  if n =? 0 then None
  else
    p50 ← lat !! Z.to_nat (n / 2);
    p99 ← lat !! Z.to_nat (to_u64 (n * 99) / 100);
    p999 ← lat !! Z.to_nat (Z.min (n - 1) (to_u64 (n * 999) / 1000));
    Some (p50, p99, p999).

Lemma sorted_lookup (l : list Z) i j x y :
  StronglySorted Z.le l → l !! i = Some x → l !! j = Some y → (i ≤ j)%nat → x ≤ y.
Proof.
  intros Hl. revert i j. induction Hl as [|z l _ IH Hz]; intros [|i] [|j] Hi Hj Hij; try done; simpl in *; [by simplify_eq| | |].
  - simplify_eq. rewrite Forall_lookup in Hz. by eapply Hz.
  - lia.
  - eapply IH; [done|done|lia].
Qed.

(** at least [i + 1] of the samples are no larger than the one of rank [i] *)
Lemma sorted_rank (l : list Z) i x :
  StronglySorted Z.le l → l !! i = Some x → (S i ≤ length (filter (λ y, y ≤ x)%Z l))%nat.
Proof.
  intros Hs Hi. assert (Forall (λ y, y ≤ x)%Z (take (S i) l)) as Ht.
  { apply Forall_lookup. intros k y Hk. rewrite lookup_take_Some in Hk. destruct Hk as [Hk Hki].
    eapply (sorted_lookup l k i); [done..|lia]. }
  assert (filter (λ y, y ≤ x)%Z (take (S i) l) = take (S i) l) as Hall.
  { clear -Ht. induction Ht as [|y k Hy _ IH]; [done|]. by rewrite filter_cons_True, IH. }
  rewrite <-(take_drop (S i) l), filter_app, length_app, Hall, length_take. apply lookup_lt_Some in Hi. lia.
Qed.

(** The percentiles bench_latency.cpp reports.  For any number of samples at
    which [n * 999] does not wrap, and whatever their order, every index is in
    range; the three values are samples, in order; and more than half, 99% and
    99.9% of the samples (rounded down) are no larger.  With no samples nothing
    is reported. *)
Theorem percentiles_spec lat :
  Z.of_nat (length lat) * 999 < 2 ^ 64 →
  if decide (lat = []) then percentiles lat = None
  else ∃ p50 p99 p999, percentiles lat = Some (p50, p99, p999)
    ∧ p50 ≤ p99 ≤ p999 ∧ {[p50; p99; p999]} ⊆ (list_to_set lat : gset Z)
    ∧ (∀ p q, (p, q) ∈ [(p50, 500); (p99, 990); (p999, 999)] →
         Z.of_nat (length lat) * q / 1000 < Z.of_nat (length (filter (λ y, y ≤ p)%Z lat))).
Proof.
  intros Hn. pose proof (merge_sort_Permutation Z.le lat) as Hp.
  assert (StronglySorted Z.le (merge_sort Z.le lat)) as Hs by (apply StronglySorted_merge_sort; apply _).
  pose proof (Permutation_length Hp) as Hl. unfold percentiles. rewrite Hl.
  case_decide as He; [by subst lat|]. set (n := Z.of_nat (length lat)) in *.
  assert (0 < n) as Hpos by (destruct lat; [done|]; unfold n; simpl; lia).
  rewrite (proj2 (Z.eqb_neq n 0)) by lia. unfold to_u64. rewrite !Z.mod_small by lia.
  assert (∀ i, 0 ≤ i < n → ∃ x, merge_sort Z.le lat !! Z.to_nat i = Some x) as Hlk.
  { intros i Hi. apply lookup_lt_is_Some_2. rewrite Hl. lia. }
  assert (0 ≤ n / 2 < n) as H1 by (split; [apply Z.div_pos; lia|apply Z.div_lt; lia]).
  assert (0 ≤ n * 99 / 100 < n) as H2 by (split; [apply Z.div_pos; lia|apply Z.div_lt_upper_bound; lia]).
  assert (0 ≤ n * 999 / 1000 < n) as H3 by (split; [apply Z.div_pos; lia|apply Z.div_lt_upper_bound; lia]).
  rewrite Z.min_r by lia.
  destruct (Hlk _ H1) as [x1 E1], (Hlk _ H2) as [x2 E2], (Hlk _ H3) as [x3 E3]. rewrite E1, E2, E3. simpl.
  exists x1, x2, x3. split; [done|].
  assert (n / 2 ≤ n * 99 / 100) by (rewrite <-(Z.div_mul_cancel_r n 2 50) by lia; apply Z.div_le_mono; lia).
  assert (n * 99 / 100 ≤ n * 999 / 1000)
    by (rewrite <-(Z.div_mul_cancel_r (n * 99) 100 10) by lia; apply Z.div_le_mono; lia).
  split; [split; eapply (sorted_lookup _ _ _ _ _ Hs); try done; lia|]. split.
  { assert (∀ i x, merge_sort Z.le lat !! i = Some x → x ∈ (list_to_set lat : gset Z)) as Hin.
    { intros i x Hi. apply elem_of_list_to_set. rewrite <-Hp. by eapply list_elem_of_lookup_2. }
    pose proof (Hin _ _ E1). pose proof (Hin _ _ E2). pose proof (Hin _ _ E3). set_solver. }
  assert (∀ i x, 0 ≤ i → merge_sort Z.le lat !! Z.to_nat i = Some x →
    i < Z.of_nat (length (filter (λ y, y ≤ x)%Z lat))) as Hr.
  { intros i x Hi Hx. pose proof (sorted_rank _ _ _ Hs Hx) as Hrk.
    rewrite (Permutation_length (filter_Permutation _ _ _ Hp)) in Hrk. lia. }
  intros p q Hpq. rewrite !elem_of_cons in Hpq.
  destruct Hpq as [[= -> ->]|[[= -> ->]|[[= -> ->]|Hpq]]]; [| | |by apply not_elem_of_nil in Hpq].
  - replace (n * 500 / 1000) with (n / 2); [by apply Hr; [lia|]|]. change 1000 with (2 * 500). by rewrite Z.div_mul_cancel_r.
  - replace (n * 990 / 1000) with (n * 99 / 100); [by apply Hr; [lia|]|].
    replace (n * 990) with (n * 99 * 10) by lia. change 1000 with (100 * 10). by rewrite Z.div_mul_cancel_r.
  - by apply Hr; [lia|].
Qed.

(** ** Witnesses *)

Section witnesses.

(** a kernel that completes the oldest operation, in full *)
Definition full_result (p : prep) : Z :=
  match p with PrepAccept _ _ _ _ => 7 | PrepRecv _ _ len _ | PrepSend _ _ len _ => len | _ => - 62 end.

Definition drive_one {m} (n : Z) (s : loop m) : option (loop m) :=
  match in_flight s, heap s !! (2 + accepted s) with
  | (ud, p) :: l, None =>
      if (closed s <? n) && (0 <=? accepted s) && (if p is PrepRecv _ _ len _ then 0 <? len else true) then
        match on_cqe m 3 n (2 + accepted s) 4096 ud (full_result p) (set_in_flight m l s) with
        | (Ret _, s') => Some s'
        | _ => None
        end
      else None
  | _, _ => None
  end.

Lemma drive_one_step {m} n (s s' : loop m) : drive_one n s = Some s' → step m 3 n true s s'.
Proof.
  unfold drive_one. destruct (in_flight s) as [|[ud p] l] eqn:Hl; [done|].
  destruct (heap s !! (2 + accepted s)) eqn:Hh; [done|].
  destruct (Z.ltb_spec (closed s) n), (Z.leb_spec 0 (accepted s)); try done.
  destruct (match p with PrepRecv _ _ len _ => 0 <? len | _ => true end) eqn:Hp; [|done]. simpl.
  destruct (on_cqe _ _ _ _ _ _ _ _) as [[[]| | | |] s''] eqn:E; try done. intros [= ->].
  apply (step_cqe _ _ _ _ _ _ [] ud p l (2 + accepted s) 4096 (full_result p)); [done|done| | |exact Hh|].
  - destruct p; simpl in *; try done. apply Z.ltb_lt in Hp. done.
  - unfold sentinel. lia.
  - exact E.
Qed.

Fixpoint drive {m} (n : Z) (fuel : nat) (s : loop m) : option (loop m) :=
  match fuel with O => Some s | S fuel => s' ← drive_one n s; drive n fuel s' end.

Lemma drive_run {m} n fuel (s s' : loop m) : drive n fuel s = Some s' → rtc (step m 3 n true) s s'.
Proof.
  revert s. induction fuel as [|fuel IH]; simpl; intros s Hs; [by simplify_eq|].
  apply bind_Some in Hs as (s1 & H1 & H2). eapply rtc_l; [by eapply drive_one_step|by apply IH].
Qed.

Lemma fine_run {m} n (s s' : loop m) : rtc (step m 3 n true) s s' → rtc (step m 3 n false) s s'.
Proof.
  apply rtc_subrel. intros s1 s2 [l1 ud p l2 a b res Hc Hl Hres Ha Hh E].
  apply (step_cqe _ _ _ _ _ _ l1 ud p l2 a b res); try done. by destruct p; simpl in *; naive_solver.
Qed.

(** two connections of ten rounds: 2 accepts and 60 completions *)
Definition delay_done : loop delay_machine := Eval vm_compute in
  default (loop_init delay_machine 3) (drive 2 62 (loop_init delay_machine 3)).
(** both connections of bench_echo.cpp in their first round *)
Definition echo_busy : loop (echo_machine 64) := Eval vm_compute in
  default (loop_init (echo_machine 64) 3) (drive 2 4 (loop_init (echo_machine 64) 3)).

Lemma raw_loop_safe_witness :
  NoDup (in_flight echo_busy).*1 ∧ opened echo_busy ≡ₚ closes echo_busy ++ live (heap echo_busy)
  ∧ length (in_flight echo_busy) = 2%nat.
Proof.
  destruct (raw_loop_safe (echo_machine 64) (echo_laws 64) 3 2 echo_busy) as (Hn & _ & _ & Hf & _); [lia| |].
  - apply fine_run, (drive_run 2 4). vm_compute. reflexivity.
  - split; [exact Hn|]. split; [apply Hf, echo_closes|reflexivity].
Defined.

Lemma raw_servers_end_witness :
  closed delay_done = 2 ∧ closes delay_done ≡ₚ opened delay_done
  ∧ Forall (λ t, t.1 = t.2 ∧ length t.2 = 10%nat) (served delay_done).*2
  ∧ served delay_done = [(7, (replicate 10 64, replicate 10 64)); (7, (replicate 10 64, replicate 10 64))].
Proof.
  destruct (raw_servers_end 3 2 64) as (_ & _ & Hserves); [lia|lia|].
  destruct (Hserves delay_done 0%nat) as [_ Hend]. destruct Hend as (Hc & _ & _ & _ & Hcl & _ & Hs).
  - apply (drive_run 2 62). vm_compute. reflexivity.
  - intros s' [? ? ? ? ? ? ? Hlt]. simpl in Hlt. lia.
  - split; [exact Hc|]. split; [exact Hcl|]. split; [exact Hs|]. reflexivity.
Defined.

(** the second accept fails *)
Definition echo_refused : loop (echo_machine 64) := Eval vm_compute in
  set_in_flight _ (take 1 (in_flight (default (loop_init (echo_machine 64) 3) (drive 2 1 (loop_init (echo_machine 64) 3)))))
    (default (loop_init (echo_machine 64) 3) (drive 2 1 (loop_init (echo_machine 64) 3))).

Lemma raw_accept_error_hangs_witness : accepted echo_refused = 1 ∧ closed echo_refused < 2.
Proof.
  destruct (raw_accept_error_hangs (echo_machine 64) (echo_laws 64) 3 2 echo_refused echo_refused) as [_ Hc];
    [lia| |vm_compute; reflexivity| |reflexivity|split; [reflexivity|exact Hc]].
  - eapply (rtc_r _ (default (loop_init (echo_machine 64) 3) (drive 2 1 (loop_init (echo_machine 64) 3)))).
    + apply fine_run, (drive_run 2 1). vm_compute. reflexivity.
    + apply (step_cqe _ _ _ _ _ _ [(2, echo_recv 64 (Conn 7 100 true 4096))] sentinel (PrepAccept 3 0 0 0) [] 5 0 (- 24)); by vm_compute.
  - intros H. change ((in_flight echo_refused).*1) with [2] in H. apply list_elem_of_singleton in H. discriminate H.
Defined.

Lemma delay_disconnect_leaks_witness :
  ∃ s, nsteps (step delay_machine 3 1 false) 2 (loop_init delay_machine 3) s ∧ opened s = [7] ∧ closes s = [].
Proof.
  destruct (delay_disconnect_leaks 3 7 2 4096 0) as (s & Hk & _ & _ & Ho & Hc); [lia|done|lia|].
  exists s. split; [exact Hk|]. split; [exact Ho|exact Hc].
Defined.

Lemma percentiles_spec_witness : ∃ p50 p99 p999, percentiles [5; 1; 4; 2; 3] = Some (p50, p99, p999) ∧ p50 ≤ p99 ≤ p999.
Proof.
  destruct (percentiles_spec [5; 1; 4; 2; 3]) as (a & b & c & E & Hle & _); [simpl; lia|].
  exists a, b, c. split; [exact E|exact Hle].
Defined.
End witnesses.
