(* ===== verification/Refine.v ===== *)
(** * Refine: posted work, from [schedule_task] to the fibers it starts

    [schedule_task] on one thread and the work branch of [drain_cqes] on another
    meet in the pool's queue and its eventfd.  [posted_work_fifo] runs the two in
    any order against the eventfd, and says which fibers are started.

    [Pool] interleaves the accesses of posters, workers and fibers to the pool's
    shared state; [Scheduler] and [Senders] give the same code in full, as one
    thread runs it.  [pool_view] relates the two states, and
    [pool_steps_refine] shows that the two models agree. *)

From S2P Require Import Prelude Cxx Uring Boost Scheduler Submit Bulk Senders Pool.

Local Open Scope Z_scope.

(** the pool of a worker, as the threads share it *)
Record pool_view (s : Pool.st) (p : Scheduler.pool) : Prop := {
  view_running : running_ p = running s;
  view_queue : work_queue_ p = Some <$> queue s;
  view_efd : eventfd_ p = efd s;
  view_flight : in_flight_ p = in_flight s
}.

(** steps of the work branch of thread [i] *)
Definition drains (i : nat) : Pool.st → Pool.st → Prop := rtc (λ a b, drain_step i a = Some b).

Lemma drains_step i a b c : drain_step i a = Some b → drains i b c → drains i a c.
Proof. intros. by eapply rtc_l. Qed.

Lemma set_thread_lookup i th0 th s :
  threads s !! i = Some th0 → threads (set_thread i th s) !! i = Some th.
Proof. intros Hi. simpl. apply list_lookup_insert_eq. by eapply lookup_lt_Some. Qed.

(** one step of thread [i], whose state has just been written; and the state
    it ends in *)
Ltac pool_next Hlt :=
  eapply drains_step; [unfold drain_step; simpl;
    rewrite list_lookup_insert_eq by (rewrite ?length_insert; exact Hlt); simpl; reflexivity|].
Ltac pool_final Hlt :=
  simpl; rewrite list_lookup_insert_eq by (rewrite ?length_insert; exact Hlt);
  unfold with_act; simpl; rewrite ?app_nil_r, ?Nat.add_0_r, ?Nat.add_1_r; split_and!; reflexivity.

(** the work branch of [Pool], from a drained completion to the re-armed read *)
Lemma pool_work_run i s th ok :
  threads s !! i = Some th → th_act th = ALoop → th_read th = RDone ok → th_main th ≠ MExit →
  let go := ok && running s in
  let t := if go then head (queue s) else None in
  ∃ s', drains i s s'
    ∧ threads s' !! i = Some {| th_main := th_main th; th_act := ALoop;
        th_read := if running s then RArmed else ROff;
        th_fibers := th_fibers th + length (option_list t) |}
    ∧ running s' = running s ∧ queue s' = (if go then tail (queue s) else queue s)
    ∧ efd s' = efd s ∧ in_flight s' = (in_flight s + length (option_list t))%nat
    ∧ launched s' = launched s ++ option_list t.
Proof.
  intros Hi Ha Hr Hm. pose proof (lookup_lt_Some _ _ _ Hi) as Hlt.
  (* the first step, from the state as given *)
  assert (∀ s', drains i (set_thread i (with_act (if ok then AWork else AWorkRearm) ROff th) s) s' →
    drains i s s') as Hfirst.
  { intros s'. apply drains_step. unfold drain_step. rewrite Hi. simpl. by rewrite Ha, Hr, decide_False. }
  destruct s as [run q e fl mx sp ps ths po pp la]; simpl in *.
  destruct ok; [|destruct run]; simpl.
  - destruct run; simpl; [destruct q as [|t q]|]; simpl.
    + eexists. split; [apply Hfirst; do 3 pool_next Hlt; apply rtc_refl|]. pool_final Hlt.
    + eexists. split; [apply Hfirst; do 4 pool_next Hlt; apply rtc_refl|]. pool_final Hlt.
    + eexists. split; [apply Hfirst; do 2 pool_next Hlt; apply rtc_refl|]. pool_final Hlt.
  - eexists. split; [apply Hfirst; pool_next Hlt; apply rtc_refl|]. pool_final Hlt.
  - eexists. split; [apply Hfirst; pool_next Hlt; apply rtc_refl|]. pool_final Hlt.
Qed.

Lemma head_queue (q : list nat) : mjoin (head (Some <$> q)) = head q.
Proof. by destruct q. Qed.
Lemma tail_queue (q : list nat) : tail (Some <$> q) = Some <$> tail q.
Proof. by destruct q. Qed.

Section refine.
Context {L : Liburing} {P : Promise} {H : Type} {HC : CqeHandler H}.
Implicit Types w : worker L H.

Lemma post_refines t s w :
  pool_view s (w_pool w) →
  ∃ w' s', schedule_task t w = (Ret (), w') ∧ post_write (post_push t s) = Some s'
    ∧ pool_view s' (w_pool w').
Proof.
  intros [Hr Hq He Hf]. do 2 eexists. split; [done|]. split; [done|].
  split; simpl; [done| |by rewrite He|done]. by rewrite Hq, fmap_app.
Qed.

Lemma fiber_refines i s th w :
  pool_view s (w_pool w) → threads s !! i = Some th → th_act th = ALoop → (0 < th_fibers th)%nat →
  ∃ b w' s' th', fiber_finished w = (Ret b, w') ∧ fiber_step i s = Some s'
    ∧ pool_view s' (w_pool w') ∧ threads s' !! i = Some th' ∧ th_act th' = if b then ANotify else ALoop.
Proof.
  intros [Hr Hq He Hf] Hi Ha Hpos. destruct (th_fibers th) as [|n] eqn:En; [lia|].
  do 4 eexists. split; [done|]. split.
  { unfold fiber_step. rewrite Hi. simpl. by rewrite Ha, En. }
  split; [split; simpl; congruence|]. split; [by eapply set_thread_lookup|]. simpl. rewrite Hf.
  by case_bool_decide; case_decide.
Qed.

Lemma work_refines (HL : LiburingLaws L) (Hall : ∀ r : uring, submits_all r) fds i s th w res flags :
  pool_view s (w_pool w) → threads s !! i = Some th → th_act th = ALoop →
  th_read th = RDone (0 <=? res) → th_main th ≠ MExit →
  sq_pending (w_ring w) = [] → (0 < sq_entries (w_ring w))%nat →
  ∃ w' s' th' ts, handle_cqe fds (Cqe k_work_tag res flags) w = (Ret (), w') ∧ drains i s s'
    ∧ pool_view s' (w_pool w') ∧ threads s' !! i = Some th' ∧ th_act th' = ALoop
    ∧ w_fibers w' = w_fibers w ++ ts ∧ launched s' = launched s ++ ts
    ∧ th_fibers th' = (th_fibers th + length ts)%nat
    ∧ sq_submitted (w_ring w') =
        sq_submitted (w_ring w) ++ (if th_read th' is RArmed then [work_sqe fds] else []).
Proof.
  intros [Hr Hq He Hf] Hi Ha Hrd Hm Hp Hent.
  destruct (handle_work fds res flags w Hall Hp Hent) as (w' & E & Hw & _ & _ & _ & _ & Hefd).
  destruct (pool_work_run i s th (0 <=? res) Hi Ha Hrd Hm)
    as (s' & Hd & Hth & Hr' & Hq' & He' & Hf' & Hl').
  exists w', s', (Thread (th_main th) ALoop (if running s then RArmed else ROff)
    (th_fibers th + length (option_list (if (0 <=? res) && running s then head (queue s) else None)))).
  exists (option_list (if (0 <=? res) && running s then head (queue s) else None)).
  split; [done|]. split; [done|].
  rewrite Hr in Hw. unfold Scheduler.taken in Hw. rewrite Hq, head_queue, tail_queue in Hw.
  destruct (running s) eqn:Er.
  - rewrite andb_true_r in *. destruct Hw as (Hwf & Hwi & _ & Hwq & Hwr & Hws).
    split; [split; [congruence| |congruence|congruence]|].
    + rewrite Hwq, Hq'. by destruct (0 <=? res).
    + split; [done|]. split; [done|]. split; [done|]. split; [done|]. by split.
  - rewrite andb_false_r in *. subst w'. simpl in *.
    split; [split; [congruence..|rewrite Hf'; simpl; lia]|].
    split; [exact Hth|]. split; [done|]. simpl. rewrite !app_nil_r in *. split; [done|]. split; [done|]. by split.
Qed.
End refine.

(** ** Posting and draining *)

Section dispatch.
Context {L : Liburing} {P : Promise} {H : Type} {HC : CqeHandler H} (fds : efd_bufs).
Implicit Types w : worker L H.

(** a task is posted; the read of the eventfd (a semaphore, eventfd(2)) takes
    one of its count and its completion is drained; the read fails with an
    error *)
Inductive work_event := EPost (t : nat) | ERead (flags : Z) | EError (code : positive) (flags : Z).

(** with a count of zero the read does not complete *)
Definition on_event (e : work_event) : cxx (worker L H) () := λ w,
  match e with
  | EPost t => schedule_task t w
  | ERead flags =>
      match eventfd_ (w_pool w) with
      | O => (Ret (), w)
      | S n =>
          handle_cqe fds (Cqe k_work_tag 8 flags)
            (upd_pool (λ p, {| running_ := running_ p; work_queue_ := work_queue_ p; eventfd_ := n;
                               in_flight_ := in_flight_ p |}) w)
      end
  | EError code flags => handle_cqe fds (Cqe k_work_tag (Z.neg code) flags) w
  end.

Fixpoint on_events (es : list work_event) : cxx (worker L H) () :=
  match es with
  | [] => mret ()
  | e :: es => _ ← on_event e; on_events es
  end.

Definition posts (es : list work_event) : list nat := es ≫= λ e, if e is EPost t then [t] else [].
Definition errors (es : list work_event) : nat := sum_list_with (λ e, if e is EError _ _ then 1 else 0)%nat es.

(** a running worker with the tasks [q] queued, each counted by the eventfd *)
Record dispatching (q : list nat) w : Prop := {
  disp_running : running_ (w_pool w) = true;
  disp_queue : work_queue_ (w_pool w) = Some <$> q;
  disp_efd : eventfd_ (w_pool w) = length q;
  disp_pending : sq_pending (w_ring w) = [];
  disp_room : (0 < sq_entries (w_ring w))%nat
}.

(** from [w] to [w'] the tasks [ts] were started, and [n] reads completed *)
Record started (ts : list nat) (n : nat) w w' : Prop := {
  started_fibers : w_fibers w' = w_fibers w ++ ts;
  started_ready : ready_ (w_sched w') = ready_ (w_sched w) ++ seq (length (w_fibers w)) (length ts);
  started_flight : in_flight_ (w_pool w') = (in_flight_ (w_pool w) + length ts)%nat;
  started_reads : sq_submitted (w_ring w') = sq_submitted (w_ring w) ++ replicate n (work_sqe fds)
}.

Lemma started_none w : started [] 0 w w.
Proof. split; simpl; by rewrite ?app_nil_r, ?Nat.add_0_r. Qed.

Lemma started_trans ts1 ts2 n1 n2 w1 w2 w3 :
  started ts1 n1 w1 w2 → started ts2 n2 w2 w3 → started (ts1 ++ ts2) (n1 + n2) w1 w3.
Proof.
  intros [Hf1 Hr1 Hi1 Hs1] [Hf2 Hr2 Hi2 Hs2]. split.
  - by rewrite Hf2, Hf1, app_assoc.
  - by rewrite Hr2, Hr1, Hf1, !length_app, seq_app, app_assoc.
  - rewrite Hi2, Hi1, length_app. lia.
  - by rewrite Hs2, Hs1, replicate_add, app_assoc.
Qed.

Context (Hall : ∀ r : uring, submits_all r).

(** a work completion with result [res] *)
Lemma completion_starts {HL : LiburingLaws L} res flags q w :
  running_ (w_pool w) = true → work_queue_ (w_pool w) = Some <$> q →
  eventfd_ (w_pool w) = length (if 0 <=? res then tail q else q) →
  sq_pending (w_ring w) = [] → (0 < sq_entries (w_ring w))%nat →
  ∃ w', handle_cqe fds (Cqe k_work_tag res flags) w = (Ret (), w')
    ∧ dispatching (if 0 <=? res then tail q else q) w'
    ∧ started (if 0 <=? res then option_list (head q) else []) 1 w w'.
Proof using Hall.
  intros Hr Hq He Hp Hroom.
  destruct (handle_work fds res flags w Hall Hp Hroom) as (w' & E & Hw & _ & Hp' & He' & _ & Hefd).
  exists w'. split; [done|]. rewrite Hr in Hw. unfold Scheduler.taken in Hw. rewrite Hq, head_queue, tail_queue in Hw.
  destruct Hw as (Hf & Hi & Hrd & Hwq & Hrun & Hs). split.
  - split; [done| |congruence|done|lia]. rewrite Hwq. by destruct (0 <=? res).
  - destruct (0 <=? res); [destruct q|]; split; simpl in *; rewrite ?app_nil_r in *; try done; lia.
Qed.

Lemma event_starts {HL : LiburingLaws L} e q w :
  dispatching q w →
  ∃ w' ts q', on_event e w = (Ret (), w') ∧ dispatching q' w' ∧ q ++ posts [e] = ts ++ q'
    ∧ started ts (length ts + errors [e]) w w'.
Proof using Hall.
  intros [Hr Hq He Hp Hroom]. destruct e as [t|flags|code flags]; unfold posts; simpl.
  - eexists _, [], (q ++ [t]). split; [done|]. split; [|split; [done|]; destruct (started_none w); by split].
    split; simpl; [done| | |done|done]; [by rewrite Hq, fmap_app|]. rewrite length_app, He. simpl. lia.
  - destruct q as [|t q].
    { rewrite He. exists w, [], []. split; [done|]. split; [by split|]. split; [done|]. apply started_none. }
    rewrite He. simpl.
    destruct (completion_starts 8 flags (t :: q) (upd_pool (λ p, {| running_ := running_ p;
      work_queue_ := work_queue_ p; eventfd_ := length q; in_flight_ := in_flight_ p |}) w)) as (w' & E & Hd & Hs);
      [done..|].
    exists w', [t], q. split; [exact E|]. split; [exact Hd|]. split; [by rewrite app_nil_r|].
    destruct Hs. by split.
  - destruct (completion_starts (Z.neg code) flags q w) as (w' & E & Hd & Hs); [done..|].
    exists w', [], q. split; [exact E|]. split; [exact Hd|]. by rewrite app_nil_r.
Qed.

Lemma events_start {HL : LiburingLaws L} es q w :
  dispatching q w →
  ∃ w' ts q', on_events es w = (Ret (), w') ∧ dispatching q' w' ∧ q ++ posts es = ts ++ q'
    ∧ started ts (length ts + errors es) w w'.
Proof using Hall.
  revert q w. induction es as [|e es IH]; intros q w Hd.
  { exists w, [], q. split; [done|]. split; [done|]. split; [apply app_nil_r|]. apply started_none. }
  destruct (event_starts e q w Hd) as (w1 & ts1 & q1 & E1 & Hd1 & Hq1 & Hs1).
  destruct (IH q1 w1 Hd1) as (w2 & ts2 & q2 & E2 & Hd2 & Hq2 & Hs2).
  exists w2, (ts1 ++ ts2), q2. split; [simpl; by erewrite cxx_bind_ret by exact E1|]. split; [done|]. split.
  - change (e :: es) with ([e] ++ es). unfold posts. rewrite bind_app. fold (posts [e]) (posts es).
    by rewrite app_assoc, Hq1, <-!app_assoc, Hq2.
  - replace (length (ts1 ++ ts2) + errors (e :: es))%nat
      with ((length ts1 + errors [e]) + (length ts2 + errors es))%nat; [by eapply started_trans|].
    unfold errors. simpl. rewrite length_app. lia.
Qed.
End dispatch.

(** ** Properties *)

(** C5: posted work is started once, in order, and the scheduler stays awake.
    On the worker of a running pool with nothing pending, when the ring accepts
    what is submitted, interleave in any order: [schedule_task] calls, reads of
    the pool's eventfd that complete (which takes one of its count), and reads
    that fail.  Every such run returns.  The tasks that were queued, followed by
    those posted, are those a fiber was started for followed by those still
    queued: each task is started at most once and none is lost, in posting
    order.  Their fibers are made ready in that order and each is counted once
    in [in_flight_].  After every completion, a failed one included, the read of
    the eventfd is submitted again exactly once.  The eventfd counts exactly the
    tasks still queued, so when it has come down to zero all were started. *)
Theorem posted_work_fifo {L : Liburing} {P : Promise} {H : Type} {HC : CqeHandler H}
    (HL : LiburingLaws L) (Hall : ∀ r : uring, submits_all r) fds es q (w : worker L H) :
  running_ (w_pool w) = true → work_queue_ (w_pool w) = Some <$> q → eventfd_ (w_pool w) = length q →
  sq_pending (w_ring w) = [] → (0 < sq_entries (w_ring w))%nat →
  ∃ w' ts q', on_events fds es w = (Ret (), w')
    ∧ q ++ posts es = ts ++ q' ∧ work_queue_ (w_pool w') = Some <$> q' ∧ eventfd_ (w_pool w') = length q'
    ∧ w_fibers w' = w_fibers w ++ ts
    ∧ ready_ (w_sched w') = ready_ (w_sched w) ++ seq (length (w_fibers w)) (length ts)
    ∧ in_flight_ (w_pool w') = (in_flight_ (w_pool w) + length ts)%nat
    ∧ sq_submitted (w_ring w') = sq_submitted (w_ring w) ++ replicate (length ts + errors es) (work_sqe fds).
Proof.
  intros Hr Hq He Hp Hroom.
  destruct (events_start fds Hall es q w) as (w' & ts & q' & E & [_ Hq' He' _ _] & Hts & [Hf Hrd Hi Hs]); [by split|].
  by exists w', ts, q'.
Qed.

(** The interleaved model of the pool agrees with the detailed one.  From
    related states, in a thread that is between two completions, with nothing
    pending and room in the ring, and while the main fiber has not exited:
    posting a task, draining a work completion and ending a fiber, as the
    scheduler's code performs them in one go, are the push and the eventfd
    write, a sequence of [drain_step]s, and a [fiber_step] of [Pool], and lead to
    related states; the fibers started are the tasks launched, the work read is
    re-armed in the one exactly when it is in the other, and the last fiber
    notifies in both. *)
Theorem pool_steps_refine {L : Liburing} {P : Promise} {H : Type} {HC : CqeHandler H}
    (HL : LiburingLaws L) (Hall : ∀ r : uring, submits_all r) fds i s th (w : worker L H) :
  pool_view s (w_pool w) → threads s !! i = Some th → th_act th = ALoop →
  (∀ t, ∃ w' s', schedule_task t w = (Ret (), w') ∧ post_write (post_push t s) = Some s'
     ∧ pool_view s' (w_pool w'))
  ∧ (∀ res flags, th_read th = RDone (0 <=? res) → th_main th ≠ MExit →
       sq_pending (w_ring w) = [] → (0 < sq_entries (w_ring w))%nat →
       ∃ w' s' th' ts, handle_cqe fds (Cqe k_work_tag res flags) w = (Ret (), w') ∧ drains i s s'
         ∧ pool_view s' (w_pool w') ∧ threads s' !! i = Some th' ∧ th_act th' = ALoop
         ∧ w_fibers w' = w_fibers w ++ ts ∧ launched s' = launched s ++ ts
         ∧ th_fibers th' = (th_fibers th + length ts)%nat
         ∧ sq_submitted (w_ring w') =
             sq_submitted (w_ring w) ++ (if th_read th' is RArmed then [work_sqe fds] else []))
  ∧ ((0 < th_fibers th)%nat →
       ∃ b w' s' th', fiber_finished w = (Ret b, w') ∧ fiber_step i s = Some s'
         ∧ pool_view s' (w_pool w') ∧ threads s' !! i = Some th'
         ∧ th_act th' = if b then ANotify else ALoop).
Proof.
  intros Hv Hi Ha. split; [intros t; by apply post_refines|].
  split; [intros; by eapply work_refines|]. intros. by eapply fiber_refines.
Qed.

(** ** Witnesses *)

Section witnesses.
Import ListUring CellPromise OnlyAwaitable.

(** a pool of one thread with one task queued, as [Pool] has it *)
Definition one_queued : Pool.st :=
  {| running := true; queue := [7%nat]; efd := 0; in_flight := 0; mtx := None; stopper := SIdle;
     posters := 0; threads := [Thread MBlocked ALoop (RDone true) 0];
     posted := [7%nat]; popped := []; launched := [] |}.

(** two tasks posted around a failed read, and two reads for the first two tasks *)
Lemma posted_work_fifo_witness :
  ∃ w', on_events bufs [EPost 8%nat; EError 4 0; ERead 0; EPost 9%nat; ERead 0]
          (upd_pool (λ p, Scheduler.Pool true (work_queue_ p) 1 0) (one_worker ∅)) = (Ret (), w')
    ∧ ∃ ts q', [7; 8; 9]%nat = ts ++ q' ∧ eventfd_ (w_pool w') = length q' ∧ w_fibers w' = ts
    ∧ sq_submitted (w_ring w') = replicate (length ts + 1) (work_sqe bufs).
Proof.
  destruct (posted_work_fifo list_uring_laws list_uring_submits_all bufs
    [EPost 8%nat; EError 4 0; ERead 0; EPost 9%nat; ERead 0] [7%nat]
    (upd_pool (λ p, Scheduler.Pool true (work_queue_ p) 1 0) (one_worker ∅)))
    as (w' & ts & q' & E & Hts & _ & He & Hf & _ & _ & Hs);
    [reflexivity|reflexivity|reflexivity|reflexivity|vm_compute; lia|].
  exists w'. split; [exact E|]. exists ts, q'. split; [exact Hts|]. split; [exact He|]. split; [exact Hf|exact Hs].
Defined.

Lemma pool_steps_refine_witness :
  ∃ w' s' ts, handle_cqe bufs (Cqe k_work_tag 8 0) (one_worker ∅) = (Ret (), w') ∧ drains 0 one_queued s'
    ∧ w_fibers w' = ts ∧ launched s' = ts.
Proof.
  destruct (pool_steps_refine list_uring_laws list_uring_submits_all bufs 0 one_queued
    (Thread MBlocked ALoop (RDone true) 0) (one_worker ∅)) as (_ & Hw & _);
    [split; reflexivity|reflexivity|reflexivity|].
  destruct (Hw 8 0) as (w' & s' & th' & ts & E & Hd & _ & _ & _ & Hf & Hl & _);
    [reflexivity|done|reflexivity|vm_compute; lia|].
  exists w', s', ts. split; [exact E|]. split; [exact Hd|]. split; [exact Hf|exact Hl].
Defined.
End witnesses.
